(* ===== verification/_CoqProject ===== *)
-Q . S2P
Prelude.v
Result.v
Logger.v
Wire.v
StreamReassembler.v
ReassemblerSpec.v
ReassemblerRefine.v
ReassemblerProps.v
ReassemblerFetch.v
Machine.v
Platform.v
WaitStrategy.v
SlotAllocator.v
GuestCallWorker.v
Guest.v
SlotSafety.v
SlotProtocol.v
GuestCallProtocol.v
Doorbell.v
StreamSender.v
StreamTransmit.v
EndToEnd.v
StreamWindow.v
DirectHost.v
SlotHandles.v
HostApi.v
RingBuffer.v
Timeouts.v
ShmLock.v
Win32.v
KernelNames.v
GuestAttach.v
GuestWire.v
Resources.v
Affinity.v
GuestReassembler.v
GuestReassemblerSafety.v
GuestReassemblerParity.v
GuestWorker.v
GuestWait.v
SlotExchange.v
GuestSender.v
GuestStream.v
Client.v
RingReceiver.v
GuestSafety.v
GuestPipeline.v
GuestCallRpc.v
GuestCalls.v
Rpc.v
System.v
Duplex.v
RingStream.v
