(* ===== verification/Prelude.v ===== *)
(** * Verification of the shm shared-memory IPC library

    The library (src/include/shm) lets a host process and a guest process call
    each other through slots in a shared memory segment.  The host side is a set
    of C++ headers; the guest side is the Go package src/go.

    ** The program

    A segment is an exchange header followed by slots; a slot is a header
    ([SlotHeader]), a request area and a response area.  A host thread claims a
    slot ([SlotAllocator::AcquireSlot], [tryClaimSlot]), writes a request,
    publishes it by a state change, rings an event if the guest sleeps, waits
    ([WaitStrategy]) and reads the response ([SendAcquired] and its variants).  In
    the other direction [GuestCallWorker] serves the guest slots.  [DirectHost]
    creates the segment and wraps all this in handles.  [StreamSender] splits a
    large buffer into messages over several slots; [StreamReassembler], at the
    other end, puts it together again and trusts nothing the peer says; the guest
    has both as well.  [RingBufferSender] uses a slot as a byte queue, which
    [RingBufferReceiver] of the guest reads.

    ** The files

    - this file: machine integers, buffers, and lemmas on lists and on
      arithmetic, with the tactics and hint databases of the development;
    - [Result]: Result.h.  [Logger]: Logger.h.  [Wire]: the layout and the codecs of IPCUtils.h,
      IPCProtocol.h, RingBufferUtils.h and the stream headers of Stream.h;
    - [StreamReassembler]: StreamReassembler.h, a pure state machine whose inputs are
      the values that each read of the request finds ([HandleAt]; [Handle] when
      nobody writes to the request).  [ReassemblerSpec] is its contract, an abstract
      reassembler that only keeps the list of accepted chunks; [ReassemblerRefine] is
      the refinement proof; [ReassemblerProps] draws the consequences for histories
      of wire messages; [ReassemblerFetch] is about peers that change a request while
      it is read;
    - [Machine]: shared locations, atomic operations, programs, their
      interleavings, and protocol monitors with their soundness theorem;
    - [Platform], [ShmLock] (Platform.h), [WaitStrategy] (WaitStrategy.h),
      [SlotAllocator] (SlotAllocator.h), [GuestCallWorker] (GuestCallWorker.h),
      [StreamSender] (Stream.h), [DirectHost], [SlotHandles] and [HostApi]
      (DirectHost.h), [RingBuffer] (RingBuffer.h): one definition per method, under
      the method's name, with the operations in the order of the source;
    - [Guest], [GuestAttach], [GuestWorker], [GuestSender] (go/direct.go, go/spin.go,
      go/guest_slot.go): the guest, that is its publish and sleep steps, attaching,
      the workers that answer host calls, and the calls it makes itself;
      [GuestWait] (go/spin.go): the general adaptive wait;
      [GuestStream] and [GuestPipeline] (go/stream_sender.go: sending on the calling
      goroutine, and with one goroutine per chunk) and [GuestReassembler]
      (go/stream.go): the stream protocol in Go; [RingReceiver] (go/ringbuffer.go);
      [GuestWire] (the structs and constants of the Go package), [Affinity]
      (go/affinity.go, go/platform_windows.go: processor topology and placement)
      and [Client] (go/client.go: connecting, and the client's operations);
    - [Win32]: the system calls, as a free monad over a ledger of open handles, with
      a logic of ownership; [KernelNames] and [Resources] (Platform.h, DirectHost.h,
      go/platform_windows.go, go/direct.go): the names of kernel objects, and
      the life cycle of host and guest as system calls;
    - [SlotSafety], [SlotProtocol], [GuestCallProtocol], [Doorbell],
      [StreamTransmit], [EndToEnd], [StreamWindow], [Timeouts],
      [GuestReassemblerSafety], [GuestReassemblerParity], [GuestSafety],
      [SlotExchange], [Rpc], [GuestCalls], [GuestCallRpc], [System], [Duplex],
      [RingStream]: theorems about the above.  [SlotExchange] is the protocol of a
      request and its response on one slot, which [Rpc] instantiates for host calls
      and [GuestCalls] for guest calls.

    ** How code is modelled

    Sequential code is a function.  Code that shares memory is a [Machine.prog], a
    tree of atomic operations; several of them run interleaved with an
    environment that stands for the guest, and each theorem says what that
    environment may do.  Concurrent theorems are proved with monitors: automata
    over the operations of one thread, which each program is shown to obey for
    all answers it can read, and whose joint invariant is then an invariant of
    every interleaving.

    Undefined behaviour is the value [Fault] of a program ([Undefined] of a
    reassembler call), so "does not fault" is a theorem and not an assumption.
    Integers are [Z] with the wrap-around of their width written out.  Answers of
    the operating system, the clock and the allocator are inputs.

    ** What is proved

    - System: a host that [Init] made, a guest that attached to it, one host
      thread and one guest worker per host slot, a goroutine that makes guest calls
      and the worker of the host that serves them, in any interleaving: every
      successful call of either direction returns the handler's answer to its own
      request ([Duplex], from host calls on all slots in [System] and guest calls
      on all slots in [GuestCalls]).
    - Reassembler: the implementation refines the contract of SPECIFICATION.md 3.3.4
      for every history of calls by any peer, but for starts that announce chunks
      without bytes; it never writes out of bounds as long as the sizes and offsets
      of a request stay as they were checked ([ReassemblerFetch]); a delivered stream is
      made of payloads the peer sent for it; memory stays within the configured
      bounds; a retransmission changes nothing.  The Go reassembler delivers
      nothing twice under concurrent calls, and agrees with the C++ one on
      histories without expiry.
    - Slots: of concurrent claims one wins; nobody gets a slot while the owner of
      a transaction, copying or zero-copy, still touches it, unless a claimer met the
      acquisition of the slot half-way ([late_reader_robs]); against a guest
      that overwrites anything at any time the host does not fault, and
      responses are clamped to their area; calls with a finite timeout return.
    - Guest: against a host that overwrites anything, no goroutine of the guest
      panics on an index or a slice.
    - Guest calls: responses are written under the publish lock, by one worker
      at a time (if no reclaimer frees the slot meanwhile), with sizes that fit.
    - Waiting: the fast path of the guest's wait does what the general wait does, and
      its limit stays in its range ([GuestWait]).
    - Doorbells: in all four directions no wake-up is lost.
    - Streams: [Send] publishes exactly the reference messages of its buffer, in
      order; it keeps within a window of [maxInFlight] messages, so when it
      succeeds over a peer that handles messages before it answers them, the
      reassembler of the peer has delivered the buffer ([StreamWindow]).  The Go
      sender, at every depth of its pipeline, publishes the same messages, each
      chunk once, waits for all its goroutines and does not deadlock.
    - Ring: it is a first-in first-out queue under concurrent reading, and
      [Write] returns when there is room; the bytes that the receiver of the guest
      reads are the bytes that the host wrote ([RingStream]).
    - Host: the segment is tiled without gap or wrap-around, [Init] establishes
      the hypotheses of the slot theorems ([alloc_ok], [world_ok]), a segment
      name is locked once per process; the guest computes the same layout as the
      host, and stays inside its mapping whatever the exchange header says.
    - Resources: host and guest build the same kernel names from an ASCII segment
      name, and from no other name in UTF-8; sessions close what they open, once.
    - Platform: the small copy equals a plain copy; the parsers of the processor
      topology are safe on any input and find every record; host and guest parse
      well-formed answers alike ([Affinity]).
    - Connecting: [Connect] returns in bounded time ([Client]).
    - Wire: the layouts the sources assert, which are those of the Go structs
      ([GuestWire]); the stream headers round-trip.
    - Where the code falls short, a theorem says so: [held_slot_robbed],
      [shared_slot_crosstalk], [fast_release_crosstalk], [reclaim_double_owner],
      [late_reader_robs], [reclaimed_publish], [chunk_double_fetch],
      [zero_copy_double_fetch], [send_chunks_livelock], [pipelined_overtakes],
      [Shutdown_dangling], [headers_aligned], [unmapped_mapping_leaks],
      [reinit_closes_twice], [int_min_accepted], [truncated_record].

    ** Fuel and bounds

    Structural recursion is used where the source has a counted loop.  The drain
    loop of the reassembler has fuel one above the number of parked records; each
    iteration erases one, and [ReassemblerRefine] shows that it does not run out.
    The other unbounded loops (claiming, polling, the chunk loop, the ring) take
    a fuel argument and end in [Diverge] beyond it.  The safety theorems hold for
    every fuel; that calls return is proved separately, with the fuel that is
    enough: [Timeouts] (the timeout in milliseconds times the number of readings of
    the clock that take a millisecond, times 1001 attempts for
    [AcquireSpecificSlot]) and [ring_write_returns] (two rounds).

    ** Assumptions and limits

    - Interleaving is sequentially consistent, also for operations the source
      orders as acquire, release or relaxed.
    - [StreamWindow.stream_transferred] assumes an honest peer ([link]); that a
      slot with an open message is not given away is part of it.
    - [Timeouts] assumes a clock that does not go back and of which some number of
      consecutive readings take a millisecond.
    - [owner_not_robbed] and [zero_copy_not_robbed] are about claimers that begin after
      the acquisition or have only read, and read the generation, before it; the
      64-bit generation does not wrap.  [publish_locked] has its exclusion for
      environments that leave a slot alone while it is [SLOT_DONE].
    - The theorems that use [Handle] (all about histories of calls but those of
      [ReassemblerFetch]) are about peers that leave a request alone while it is
      handled, as the senders of both sides do.
    - [Duplex.duplex_integrity] has one host thread per slot and one goroutine that
      makes guest calls, with automatic reclaiming off; with two on one slot it fails
      ([Rpc.shared_slot_crosstalk], [GuestCallRpc]).  The handler of the host does not
      throw.
    - Not modelled: starting and joining threads, which the theorems replace by
      pools of programs; the Go loggers (calls of the slog package, no state);
      the spin statistics of the benchmark builds and the annotations for the race
      detector (no effect on what is shared); tests and benchmarks. *)

From Stdlib Require Export ZArith Lia.
From stdpp Require Export base tactics list numbers gmap strings.
From coqutil Require Export Byte.

#[export] Set Default Proof Using "Type".

Declare Scope shm_scope.
Delimit Scope shm_scope with shm.
Local Open Scope Z_scope.

#[export] Instance byte_eq_decision : EqDecision byte := Byte.byte_eq_dec.

(** ** Fixed-width integers

    A w-bit C++ integer is a [Z]; the wrap-around of its arithmetic is written
    out with [u32], [u64] (unsigned) and [i32] (two's complement). *)

Definition u8 (z : Z) : Z := z mod 2 ^ 8.
Definition u16 (z : Z) : Z := z mod 2 ^ 16.
Definition u32 (z : Z) : Z := z mod 2 ^ 32.
Definition u64 (z : Z) : Z := z mod 2 ^ 64.
Definition i32 (z : Z) : Z := (z + 2 ^ 31) mod 2 ^ 32 - 2 ^ 31.

Abbreviation is_u32 z := (0 <= z < 2 ^ 32).
Abbreviation is_u64 z := (0 <= z < 2 ^ 64).
Abbreviation is_i32 z := (- 2 ^ 31 <= z < 2 ^ 31).

Notation "a +u32 b" := (u32 (a + b)) (at level 50, left associativity) : shm_scope.
Notation "a -u32 b" := (u32 (a - b)) (at level 50, left associativity) : shm_scope.
Notation "a +u64 b" := (u64 (a + b)) (at level 50, left associativity) : shm_scope.
Notation "a -u64 b" := (u64 (a - b)) (at level 50, left associativity) : shm_scope.

(** [(size < 0) ? (0u - (uint32_t)size) : (uint32_t)size]: the magnitude of an
    [int32_t] computed in [uint32_t], the idiom every send and receive path of
    the library uses for its signed (end-aligned) sizes. *)
Definition abs_u32 (size : Z) : Z :=
  if size <? 0 then u32 (0 - u32 size) else u32 size.

(** The development's arithmetic tactic: unfold the wrap-arounds and let [lia]
    reason about [mod] by its quotient and remainder. *)
Ltac wrap_lia :=
  unfold u8, u16, u32, u64, i32 in *; Z.to_euclidean_division_equations; lia.

(** [duration_cast<milliseconds>(now - start).count()] of two clock reads in
    nanoseconds. *)
Definition elapsed_ms (now start : Z) : Z := Z.quot (now - start) 1000000.

Create HintDb shm discriminated.
Create Rewrite HintDb shm_len.

Lemma u32_id z : is_u32 z → u32 z = z.
Proof. intros. unfold u32. by rewrite Z.mod_small. Qed.

Lemma u64_id z : is_u64 z → u64 z = z.
Proof. intros. unfold u64. by rewrite Z.mod_small. Qed.

Lemma i32_id z : is_i32 z → i32 z = z.
Proof. intros. unfold i32. rewrite Z.mod_small; lia. Qed.

Lemma u32_range z : is_u32 (u32 z).
Proof. unfold u32. apply Z.mod_pos_bound. lia. Qed.

Lemma u64_range z : is_u64 (u64 z).
Proof. unfold u64. apply Z.mod_pos_bound. lia. Qed.

Lemma i32_range z : is_i32 (i32 z).
Proof. unfold i32. pose proof (Z.mod_pos_bound (z + 2 ^ 31) (2 ^ 32)). lia. Qed.

Lemma abs_u32_range z : is_u32 (abs_u32 z).
Proof. unfold abs_u32. destruct (z <? 0); apply u32_range. Qed.

Lemma abs_u32_abs size : is_i32 size → abs_u32 size = Z.abs size.
Proof. intros. unfold abs_u32. destruct (Z.ltb_spec size 0); wrap_lia. Qed.

#[export] Hint Resolve u32_range u64_range i32_range : shm.

(** ** Byte buffers

    A buffer is a [list byte]; [memcpy] into it is partial: a copy that does not
    fit has no defined C++ behaviour and is [None]. *)

Section buffers.
Context {A : Type}.
Implicit Types (dst src : list A).

Definition memcpy (dst : list A) (off : nat) (src : list A) : option (list A) :=
  if bool_decide (off + length src ≤ length dst)%nat
  then Some (list_inserts off src dst) else None.

Definition slice (off n : nat) (l : list A) : list A := take n (drop off l).

Lemma memcpy_Some dst off src :
  (off + length src ≤ length dst)%nat →
  memcpy dst off src = Some (list_inserts off src dst).
Proof. intros. unfold memcpy. by rewrite bool_decide_true. Qed.

Lemma memcpy_inv dst off src dst' :
  memcpy dst off src = Some dst' →
  (off + length src ≤ length dst)%nat ∧ dst' = list_inserts off src dst.
Proof. unfold memcpy. case_bool_decide; naive_solver. Qed.

Lemma slice_length off n (l : list A) :
  (off + n ≤ length l)%nat → length (slice off n l) = n.
Proof. intros. unfold slice. rewrite length_take, length_drop. lia. Qed.

Lemma lookup_slice off n (l : list A) i :
  slice off n l !! i = if decide (i < n)%nat then l !! (off + i)%nat else None.
Proof.
  unfold slice. case_decide.
  - by rewrite lookup_take_lt, lookup_drop.
  - rewrite lookup_take_ge; [done|lia].
Qed.

(** Reading back the range that was just written. *)
Lemma slice_inserts_eq off (src dst : list A) :
  (off + length src ≤ length dst)%nat →
  slice off (length src) (list_inserts off src dst) = src.
Proof.
  intros. apply list_eq; intros i. rewrite lookup_slice. case_decide.
  - rewrite list_lookup_inserts by lia. f_equal. lia.
  - symmetry. apply lookup_ge_None. lia.
Qed.

(** Writes to disjoint ranges do not see each other. *)
Lemma slice_inserts_ne off n off' (src dst : list A) :
  (off + n ≤ off' ∨ off' + length src ≤ off)%nat →
  slice off n (list_inserts off' src dst) = slice off n dst.
Proof.
  intros Hd. apply list_eq; intros i. rewrite !lookup_slice. case_decide; [|done].
  destruct Hd; [rewrite list_lookup_inserts_lt|rewrite list_lookup_inserts_ge]; auto; lia.
Qed.

Lemma slice_all (l : list A) : slice 0 (length l) l = l.
Proof. unfold slice. rewrite drop_0. apply take_ge. lia. Qed.

Lemma slice_app off n m (l : list A) :
  slice off (n + m) l = slice off n l ++ slice (off + n) m l.
Proof. unfold slice. by rewrite <-drop_drop, <-take_take_drop. Qed.
End buffers.

#[export] Hint Rewrite @length_inserts @length_replicate @length_app : shm_len.

Lemma filter_length_mono {A} (P Q : A → Prop) `{!∀ x, Decision (P x), !∀ x, Decision (Q x)}
    (l : list A) :
  (∀ x, P x → Q x) → (length (filter P l) ≤ length (filter Q l))%nat.
Proof.
  intros HPQ. induction l as [|x l IH]; [done|]. rewrite !filter_cons.
  destruct (decide (P x)), (decide (Q x)); simpl; naive_solver lia.
Qed.

(** Sums over lists. *)
Lemma sum_insert {X} (f : X → nat) l j a b :
  l !! j = Some a →
  (sum_list_with f (<[j := b]> l) + f a = sum_list_with f l + f b)%nat.
Proof.
  revert j. induction l as [|y l IH]; intros [|j]; simpl; [done..| |].
  - intros [= ->]. lia.
  - intros H%IH. lia.
Qed.

Lemma sum_lookup {X} (f : X → nat) l j a : l !! j = Some a → (f a <= sum_list_with f l)%nat.
Proof.
  revert j. induction l as [|y l IH]; intros [|j]; simpl; [done..| |].
  - intros [= ->]. lia.
  - intros H%IH. lia.
Qed.

(** A list without repetitions after [f]: [f] tells its elements apart. *)
Lemma NoDup_map_elem {A B} (f : A → B) (l : list A) x y :
  NoDup (map f l) → x ∈ l → y ∈ l → f x = f y → x = y.
Proof.
  intros Hnd [i Hi]%list_elem_of_lookup_1 [j Hj]%list_elem_of_lookup_1 Hf.
  assert (i = j) as ->; [|congruence]. eapply NoDup_lookup; [exact Hnd|..].
  - by rewrite list_lookup_fmap, Hi.
  - rewrite list_lookup_fmap, Hj. simpl. by rewrite Hf.
Qed.

(** The first number with a decidable property. *)
Lemma first_such (P : nat → Prop) `{!∀ n, Decision (P n)} (N : nat) :
  P N → ∃ n, (n ≤ N)%nat ∧ P n ∧ ∀ j, (j < n)%nat → ¬ P j.
Proof.
  revert P H. induction N as [|N IH]; intros P HP HN; [exists 0%nat; split_and!; [lia|done|lia]|].
  destruct (decide (P 0%nat)) as [|H0]; [exists 0%nat; split_and!; [lia|done|lia]|].
  destruct (IH (λ n, P (S n)) _ HN) as (n&Hle&Hn&Hj). exists (S n). split_and!; [lia|done|].
  intros [|j] Hlt; [done|]. apply Hj. lia.
Qed.
