(* ===== verification/Result.v ===== *)
(** * Result: error codes and results (include/shm/Result.h)

    [Error] is the enum of error codes.  [Result T] is the variant
    [std::variant<T, Error>] of the primary template; [ResultVoid] is the
    [Result<void>] specialisation, which stores a bare [Error] and uses
    [Error::None] for success. *)

From S2P Require Export Prelude.

Inductive Error : Type :=
  | ENone | Timeout | BufferTooSmall | InvalidArgs
  | NotConnected | ResourceExhausted | InternalError | ProtocolViolation.

#[export] Instance Error_eq_dec : EqDecision Error.
Proof. solve_decision. Defined.

Module Result.
Inductive t (T : Type) : Type :=
  | Value_ (v : T)
  | Error_ (e : Error).
Arguments Value_ {T} _.
Arguments Error_ {T} _.

Definition HasError {T} (r : t T) : bool :=
  match r with Error_ _ => true | Value_ _ => false end.

Definition GetError {T} (r : t T) : Error :=
  match r with Error_ e => e | Value_ _ => ENone end.

(** [None] is the [std::runtime_error] the accessor throws. *)
Definition Value {T} (r : t T) : option T :=
  match r with Value_ v => Some v | Error_ _ => None end.

Definition ValueOr {T} (r : t T) (d : T) : T :=
  match r with Value_ v => v | Error_ _ => d end.

Definition to_bool {T} (r : t T) : bool := negb (HasError r).
End Result.

Abbreviation Ok := Result.Value_.
Abbreviation Err := Result.Error_.

Module ResultVoid.
Record t : Type := mk { error : Error }.

Definition Success : t := mk ENone.
Definition Failure (e : Error) : t := mk e.
Definition HasError (r : t) : bool := bool_decide (error r ≠ ENone).
Definition GetError (r : t) : Error := error r.
Definition to_bool (r : t) : bool := negb (HasError r).
End ResultVoid.
