(* ===== verification/Logger.v ===== *)
(** * Logger (include/shm/Logger.h)

    Diagnostic output.  A handler maps a level and a message to what it writes to
    the standard error stream; the process-wide handler is a [std::function], which
    may be empty ([None]).  Nothing else in the library depends on it: in a build
    without [SHM_DEBUG] the macros expand to nothing, which is why the other files
    leave them out. *)

From S2P Require Export Prelude.

Inductive LogLevel : Type := TRACE | DEBUG | INFO | WARN | ERROR.

Abbreviation LogHandler := (LogLevel → string → string).

Definition level_tag (level : LogLevel) : string :=
  match level with
  | TRACE => "[TRACE] "
  | DEBUG => "[DEBUG] "
  | INFO => "[INFO] "
  | WARN => "[WARN] "
  | ERROR => "[ERROR] "
  end.

Definition newline : string := String (Ascii.ascii_of_nat 10) "".

(** The handler that is installed at first. *)
Definition default_LogHandler : LogHandler := λ level msg,
  "[SHM]" +:+ level_tag level +:+ msg +:+ newline.

(** [g_LogHandler] and everything written so far. *)
Record log_state : Type := mkLog { g_LogHandler : option LogHandler; err : string }.

Definition initial_log : log_state := mkLog (Some default_LogHandler) "".

Definition SetLogHandler (h : option LogHandler) (s : log_state) : log_state := mkLog h (err s).

Definition Log (level : LogLevel) (msg : string) (s : log_state) : log_state :=
  match g_LogHandler s with
  | Some h => mkLog (Some h) (err s +:+ h level msg)
  | None => s
  end.

(** The fold of [operator<<]; the arguments are what they print. *)
Definition LogStream (args : list string) : string := foldl String.append ""%string args.

(** [SHM_LOG_TRACE] and the others, in a build with or without [SHM_DEBUG]. *)
Definition SHM_LOG (debug : bool) (level : LogLevel) (args : list string) (s : log_state) : log_state :=
  if debug then Log level (LogStream args) s else s.

(** A message is written whole, after its tag, and by the handler that is in force;
    without a handler, and in a build without diagnostics, nothing is written. *)
Lemma SHM_LOG_spec debug level args s :
  err (SHM_LOG debug level args s) =
    (err s +:+ match debug, g_LogHandler s with
               | true, Some h => h level (LogStream args)
               | _, _ => ""
               end)%string ∧
  g_LogHandler (SHM_LOG debug level args s) = g_LogHandler s.
Proof.
  assert (∀ t : string, (t +:+ "")%string = t) as Hnil.
  { induction t as [|a t IH]; [done|]. exact (f_equal (String a) IH). }
  destruct s as [h e]. unfold SHM_LOG, Log. destruct debug, h; cbn; by rewrite ?Hnil.
Qed.

(** The tags tell the levels apart. *)
Lemma level_tag_inj l l' : level_tag l = level_tag l' → l = l'.
Proof. by destruct l, l'. Qed.
