(* ===== verification/Wire.v ===== *)
(** * Wire: the shared-memory ABI

    Models [include/shm/IPCUtils.h] (magic, version, message types, slot states,
    [SlotHeader], [ExchangeHeader]), the stream headers of
    [include/shm/Stream.h], [RingBufferHeader] of
    [include/shm/RingBufferUtils.h] and [TransportHeader] of
    [include/shm/IPCProtocol.h].

    A C++ struct is a list of fields with their size and alignment; [place]
    computes the layout the C++ rules give it, so that the [static_assert]s of
    the sources are theorems about the declared fields.  Structs that cross the
    process boundary by [memcpy] have a byte codec. *)

From S2P Require Export Prelude.
From coqutil Require Import Word.LittleEndianList.

Local Open Scope Z_scope.

(** ** Constants and enumerations *)

Definition SHM_MAGIC : Z := 0x584C4C21.
Definition SHM_VERSION : Z := 0x00080000.

(** [shm::kMaxStreamSize] (Stream.h): 1 GiB. *)
Definition kMaxStreamSize : Z := Z.shiftl 1 30.

Definition HOST_STATE_ACTIVE : Z := 0.
Definition HOST_STATE_WAITING : Z := 1.
Definition GUEST_STATE_ACTIVE : Z := 0.
Definition GUEST_STATE_WAITING : Z := 1.

(** [enum class MsgType : uint32_t] has a fixed underlying type, so every
    [uint32_t] is a value of it: [MT_other] holds the unnamed ones. *)
Inductive MsgType : Type :=
  | NORMAL | HEARTBEAT_REQ | HEARTBEAT_RESP | SHUTDOWN
  | FLATBUFFER | GUEST_CALL | STREAM_START | STREAM_CHUNK
  | SYSTEM_ERROR | APP_START
  | MT_other (v : Z).

#[export] Instance MsgType_eq_dec : EqDecision MsgType.
Proof. solve_decision. Defined.

Definition MsgType_val (m : MsgType) : Z :=
  match m with
  | NORMAL => 0 | HEARTBEAT_REQ => 1 | HEARTBEAT_RESP => 2 | SHUTDOWN => 3
  | FLATBUFFER => 10 | GUEST_CALL => 11 | STREAM_START => 13 | STREAM_CHUNK => 14
  | SYSTEM_ERROR => 127 | APP_START => 128
  | MT_other v => v
  end.

Definition MsgType_of (v : Z) : MsgType :=
  if v =? 0 then NORMAL else if v =? 1 then HEARTBEAT_REQ
  else if v =? 2 then HEARTBEAT_RESP else if v =? 3 then SHUTDOWN
  else if v =? 10 then FLATBUFFER else if v =? 11 then GUEST_CALL
  else if v =? 13 then STREAM_START else if v =? 14 then STREAM_CHUNK
  else if v =? 127 then SYSTEM_ERROR else if v =? 128 then APP_START
  else MT_other v.

Lemma MsgType_val_of v : MsgType_val (MsgType_of v) = v.
Proof. unfold MsgType_of. repeat case_match; simpl; lia. Qed.

(** [enum SlotState], stored in a [std::atomic<uint32_t>]. *)
Definition SLOT_FREE : Z := 0.
Definition SLOT_REQ_READY : Z := 1.
Definition SLOT_RESP_READY : Z := 2.
Definition SLOT_DONE : Z := 3.
Definition SLOT_BUSY : Z := 4.
Definition SLOT_GUEST_BUSY : Z := 5.

(** ** Struct layout *)

Module Layout.
Record field : Type := Field { f_name : string; f_size : nat; f_align : nat }.

Record struct : Type := Struct { s_fields : list field; s_alignas : nat }.

Definition align_up (n a : nat) : nat := ((n + a - 1) / a * a)%nat.

(** Every field goes to the first multiple of its alignment at or after the
    end of the previous one. *)
Fixpoint place (cur : nat) (fs : list field) : list (nat * field) :=
  match fs with
  | [] => []
  | f :: fs' => let o := align_up cur (f_align f) in
                (o, f) :: place (o + f_size f) fs'
  end.

Fixpoint place_end (cur : nat) (fs : list field) : nat :=
  match fs with
  | [] => cur
  | f :: fs' => place_end (align_up cur (f_align f) + f_size f) fs'
  end.

Definition alignof (s : struct) : nat :=
  max_list (s_alignas s :: map f_align (s_fields s)).

Definition sizeof (s : struct) : nat :=
  align_up (place_end 0 (s_fields s)) (alignof s).

Definition offsets (s : struct) : list (string * nat) :=
  map (λ '(o, f), (f_name f, o)) (place 0 (s_fields s)).

Definition offsetof (s : struct) (n : string) : nat :=
  default 0%nat (list_to_map (M := gmap string nat) (offsets s) !! n).

(** *** What [place] guarantees for any field list *)

Lemma align_up_ge n a : (0 < a)%nat → (n ≤ align_up n a)%nat.
Proof.
  intros. unfold align_up.
  pose proof (Nat.div_mod_eq (n + a - 1) a).
  pose proof (Nat.mod_upper_bound (n + a - 1) a). lia.
Qed.

Lemma align_up_aligned n a : (align_up n a mod a = 0)%nat.
Proof. unfold align_up. apply Nat.Div0.mod_mul. Qed.

Definition fields_ok (fs : list field) : Prop :=
  Forall (λ f, (0 < f_align f)%nat) fs.

Lemma place_ge cur fs o f :
  fields_ok fs → (o, f) ∈ place cur fs → (cur ≤ o)%nat.
Proof.
  intros Hok. revert cur. induction Hok as [|g fs Hg _ IH]; intros cur Hin.
  { by apply elem_of_nil in Hin. }
  pose proof (align_up_ge cur (f_align g) Hg).
  apply elem_of_cons in Hin as [[= -> ->]|Hin]; [done|]. apply IH in Hin. lia.
Qed.

Lemma place_end_ge cur fs : fields_ok fs → (cur ≤ place_end cur fs)%nat.
Proof.
  intros Hok. revert cur. induction Hok as [|g fs Hg _ IH]; intros cur; simpl; [done|].
  specialize (IH (align_up cur (f_align g) + f_size g)%nat).
  pose proof (align_up_ge cur (f_align g) Hg). lia.
Qed.
End Layout.

(** ** Byte codecs for the structs that are copied whole *)

Module Codec.
Import Layout.

Definition get (bs : list byte) (off size : nat) : Z :=
  le_combine (slice off size bs).

Fixpoint fill (buf : list byte) (ps : list (nat * field)) (vs : list Z) : list byte :=
  match ps, vs with
  | (o, f) :: ps', v :: vs' =>
      fill (list_inserts o (le_split (f_size f) v) buf) ps' vs'
  | _, _ => buf
  end.

(** [T x{}; x.f1 = v1; ...; memcpy(dst, &x, sizeof(T))]: a value-initialised
    (all-zero) object whose fields are then assigned. *)
Definition encode (s : struct) (vs : list Z) : list byte :=
  fill (replicate (sizeof s) Byte.x00) (place 0 (s_fields s)) vs.

Lemma fill_length ps : ∀ buf vs, length (fill buf ps vs) = length buf.
Proof.
  induction ps as [|[o f] ps IH]; intros buf [|v vs]; simpl; [done..|].
  by rewrite IH, length_inserts.
Qed.

Lemma encode_length s vs : length (encode s vs) = sizeof s.
Proof. unfold encode. by rewrite fill_length, length_replicate. Qed.

(** Filling the fields placed from [cur] on leaves the bytes before [cur]. *)
Lemma fill_below fs : fields_ok fs → ∀ cur buf vs off n,
  (off + n ≤ cur)%nat → slice off n (fill buf (place cur fs) vs) = slice off n buf.
Proof.
  induction 1 as [|g fs Hg _ IH]; intros cur buf [|v vs] off n Hle; simpl; [done..|].
  pose proof (align_up_ge cur (f_align g) Hg).
  rewrite IH by lia. apply slice_inserts_ne. left. lia.
Qed.

(** Every field reads back the bytes that were assigned to it: the fields of a
    layout do not overlap and lie inside the object. *)
Lemma fill_field fs : fields_ok fs → ∀ cur buf vs i o f v,
  (place_end cur fs ≤ length buf)%nat →
  place cur fs !! i = Some (o, f) → vs !! i = Some v →
  slice o (f_size f) (fill buf (place cur fs) vs) = le_split (f_size f) v.
Proof.
  induction 1 as [|g fs Hg Hok IH]; intros cur buf vs i o f v Hlen Hp Hv; [done|].
  destruct vs as [|v' vs]; [done|]. simpl in *.
  pose proof (place_end_ge (align_up cur (f_align g) + f_size g) fs Hok).
  destruct i as [|i]; simplify_eq/=.
  - rewrite (fill_below fs Hok) by lia.
    rewrite <-(length_le_split (f_size f) v) at 1.
    apply slice_inserts_eq. rewrite length_le_split. lia.
  - apply IH with i; auto. rewrite length_inserts. lia.
Qed.

Lemma encode_get s vs i o f v :
  fields_ok (s_fields s) → (0 < alignof s)%nat →
  place 0 (s_fields s) !! i = Some (o, f) → vs !! i = Some v →
  get (encode s vs) o (f_size f) = v mod 2 ^ (Z.of_nat (f_size f) * 8).
Proof.
  intros Hok Ha Hp Hv. unfold get, encode.
  rewrite (fill_field _ Hok _ _ _ i o f v); [apply le_combine_split| |done..].
  rewrite length_replicate. unfold sizeof. by apply align_up_ge.
Qed.

(** A reader that is given more bytes than the header sees the same fields. *)
Lemma get_app bs rest off size :
  (off + size ≤ length bs)%nat → get (bs ++ rest) off size = get bs off size.
Proof.
  intros. unfold get, slice. by rewrite drop_app_le, take_app_le
    by (rewrite ?length_drop; lia).
Qed.

Lemma get_range bs off size : 0 <= get bs off size < 2 ^ (Z.of_nat size * 8).
Proof.
  unfold get. pose proof (le_combine_bound (slice off size bs)) as [? Hb].
  split; [done|]. eapply Z.lt_le_trans; [apply Hb|].
  apply Z.pow_le_mono_r; [lia|]. unfold slice. rewrite length_take. lia.
Qed.
End Codec.

Arguments Codec.get : simpl never.
Arguments Codec.encode : simpl never.

(** ** The structs of the sources *)

Module Structs.
Import Layout.

Definition u8_array (n : string) (len : nat) := Field n len 1.
Definition u32_field (n : string) := Field n 4 4.
Definition u64_field (n : string) := Field n 8 8.

(** [struct alignas(64) SlotHeader]; a [std::atomic<T>] has the size and
    alignment of [T]. *)
Definition SlotHeader_struct : struct :=
  Struct [ u8_array "pre_pad" 64; u32_field "state"; u32_field "hostState";
           u32_field "guestState"; u32_field "msgSeq"; u32_field "msgType";
           u32_field "reqSize"; u32_field "respSize"; u64_field "lease";
           u64_field "gen"; u8_array "reserved" 16 ] 64.

Definition ExchangeHeader_struct : struct :=
  Struct [ u32_field "magic"; u32_field "version"; u32_field "numSlots";
           u32_field "numGuestSlots"; u32_field "slotSize"; u32_field "reqOffset";
           u32_field "respOffset"; u32_field "fastPathAllowed";
           u8_array "reserved" 32 ] 1.

Definition StreamHeader_struct : struct :=
  Struct [ u64_field "streamId"; u64_field "totalSize"; u32_field "totalChunks";
           u32_field "appMsgType" ] 1.

Definition ChunkHeader_struct : struct :=
  Struct [ u64_field "streamId"; u32_field "chunkIndex"; u32_field "payloadSize";
           u32_field "dstOffset"; u32_field "padding" ] 1.

(** [struct Placed] of [StreamReassembler::StreamContext]. *)
Definition Placed_struct : struct :=
  Struct [ u64_field "dstOffset"; u32_field "size" ] 1.

(** [alignas(128) std::atomic<uint64_t>] twice. *)
Definition RingBufferHeader_struct : struct :=
  Struct [ Field "writeOffset" 8 128; Field "readOffset" 8 128 ] 1.

(** [#pragma pack(push, 1)]. *)
Definition TransportHeader_struct : struct := Struct [ Field "req_id" 8 1 ] 1.
End Structs.

(** ** The stream headers as values *)

Record StreamHeader : Type := mkStreamHeader {
  sh_streamId : Z; sh_totalSize : Z; sh_totalChunks : Z; sh_appMsgType : Z }.

Record ChunkHeader : Type := mkChunkHeader {
  ch_streamId : Z; ch_chunkIndex : Z; ch_payloadSize : Z; ch_dstOffset : Z;
  ch_padding : Z }.

Definition StreamHeader_ok (h : StreamHeader) : Prop :=
  is_u64 (sh_streamId h) ∧ is_u64 (sh_totalSize h) ∧
  is_u32 (sh_totalChunks h) ∧ is_u32 (sh_appMsgType h).

Definition ChunkHeader_ok (h : ChunkHeader) : Prop :=
  is_u64 (ch_streamId h) ∧ is_u32 (ch_chunkIndex h) ∧ is_u32 (ch_payloadSize h) ∧
  is_u32 (ch_dstOffset h) ∧ is_u32 (ch_padding h).

Definition sizeof_StreamHeader : nat := Eval vm_compute in
  Layout.sizeof Structs.StreamHeader_struct.
Definition sizeof_ChunkHeader : nat := Eval vm_compute in
  Layout.sizeof Structs.ChunkHeader_struct.

(** [memcpy(dst, &header, sizeof(StreamHeader))]. *)
Definition StreamHeader_bytes (h : StreamHeader) : list byte :=
  Codec.encode Structs.StreamHeader_struct
    [sh_streamId h; sh_totalSize h; sh_totalChunks h; sh_appMsgType h].

Definition ChunkHeader_bytes (h : ChunkHeader) : list byte :=
  Codec.encode Structs.ChunkHeader_struct
    [ch_streamId h; ch_chunkIndex h; ch_payloadSize h; ch_dstOffset h; ch_padding h].

(** [static_cast<const StreamHeader*>(req)] and reading its members. *)
Definition StreamHeader_read (req : list byte) : StreamHeader :=
  let off n := Layout.offsetof Structs.StreamHeader_struct n in
  mkStreamHeader (Codec.get req (off "streamId") 8) (Codec.get req (off "totalSize") 8)
    (Codec.get req (off "totalChunks") 4) (Codec.get req (off "appMsgType") 4).

Definition ChunkHeader_read (req : list byte) : ChunkHeader :=
  let off n := Layout.offsetof Structs.ChunkHeader_struct n in
  mkChunkHeader (Codec.get req (off "streamId") 8) (Codec.get req (off "chunkIndex") 4)
    (Codec.get req (off "payloadSize") 4) (Codec.get req (off "dstOffset") 4)
    (Codec.get req (off "padding") 4).

Lemma StreamHeader_bytes_length h : length (StreamHeader_bytes h) = sizeof_StreamHeader.
Proof. apply Codec.encode_length. Qed.

Lemma ChunkHeader_bytes_length h : length (ChunkHeader_bytes h) = sizeof_ChunkHeader.
Proof. apply Codec.encode_length. Qed.

Lemma StreamHeader_read_ok req : StreamHeader_ok (StreamHeader_read req).
Proof. unfold StreamHeader_ok; simpl. split_and!; apply Codec.get_range. Qed.

Lemma ChunkHeader_read_ok req : ChunkHeader_ok (ChunkHeader_read req).
Proof. unfold ChunkHeader_ok; simpl. split_and!; apply Codec.get_range. Qed.

Lemma StreamHeader_eq a b c d a' b' c' d' :
  a = a' → b = b' → c = c' → d = d' →
  mkStreamHeader a b c d = mkStreamHeader a' b' c' d'.
Proof. congruence. Qed.

Lemma ChunkHeader_eq a b c d e a' b' c' d' e' :
  a = a' → b = b' → c = c' → d = d' → e = e' →
  mkChunkHeader a b c d e = mkChunkHeader a' b' c' d' e'.
Proof. congruence. Qed.

(** Reads field [i] of an encoded struct whose value fits the field. *)
Ltac solve_codec_field i :=
  rewrite Codec.get_app by (rewrite Codec.encode_length; vm_compute; lia);
  match goal with
  | |- Codec.get (Codec.encode ?s ?vs) _ _ = ?v =>
      let pl := eval vm_compute in (Layout.place 0 (Layout.s_fields s) !! i) in
      match pl with
      | Some (?o, ?f) =>
          etransitivity; [apply (Codec.encode_get s vs i o f v);
            [repeat constructor | vm_compute; lia | reflexivity | reflexivity]
          | apply Z.mod_small; assumption]
      end
  end.

Lemma StreamHeader_decode h rest :
  StreamHeader_ok h → StreamHeader_read (StreamHeader_bytes h ++ rest) = h.
Proof.
  destruct h as [a b c d]. intros (?&?&?&?).
  unfold StreamHeader_read, StreamHeader_bytes; cbn [sh_streamId sh_totalSize sh_totalChunks sh_appMsgType]. apply StreamHeader_eq.
  - solve_codec_field 0%nat.
  - solve_codec_field 1%nat.
  - solve_codec_field 2%nat.
  - solve_codec_field 3%nat.
Qed.

Lemma ChunkHeader_decode h rest :
  ChunkHeader_ok h → ChunkHeader_read (ChunkHeader_bytes h ++ rest) = h.
Proof.
  destruct h as [a b c d e]. intros (?&?&?&?&?).
  unfold ChunkHeader_read, ChunkHeader_bytes.
  cbn [ch_streamId ch_chunkIndex ch_payloadSize ch_dstOffset ch_padding]. apply ChunkHeader_eq.
  - solve_codec_field 0%nat.
  - solve_codec_field 1%nat.
  - solve_codec_field 2%nat.
  - solve_codec_field 3%nat.
  - solve_codec_field 4%nat.
Qed.

(** C40: the headers of the stream protocol survive the wire.  A [StreamHeader]
    at the front of a request buffer, and a [ChunkHeader] in front of its payload,
    take 24 bytes each and are read back field by field, [padding] included,
    whatever bytes follow. *)
Theorem headers_roundtrip h c rest :
  StreamHeader_ok h → ChunkHeader_ok c →
  StreamHeader_read (StreamHeader_bytes h ++ rest) = h ∧
  ChunkHeader_read (ChunkHeader_bytes c ++ rest) = c ∧
  length (StreamHeader_bytes h) = 24%nat ∧ length (ChunkHeader_bytes c) = 24%nat.
Proof.
  intros. split_and!; [by apply StreamHeader_decode|by apply ChunkHeader_decode| |];
    apply Codec.encode_length.
Qed.

Lemma headers_roundtrip_witness :
  StreamHeader_read (StreamHeader_bytes (mkStreamHeader 7 (2 ^ 30) 1024 0xBEEF) ++ [Byte.x01])
  = mkStreamHeader 7 (2 ^ 30) 1024 0xBEEF.
Proof.
  apply (headers_roundtrip _ (mkChunkHeader 7 3 40 120 0));
    unfold StreamHeader_ok, ChunkHeader_ok; simpl; lia.
Defined.

(** The declared structs have exactly the sizes and field offsets that the
    [static_assert]s of the sources (and the Go mirror) pin. *)
Theorem abi_layout :
  Layout.sizeof Structs.SlotHeader_struct = 128%nat ∧
  Layout.alignof Structs.SlotHeader_struct = 64%nat ∧
  Layout.offsets Structs.SlotHeader_struct =
    [("pre_pad", 0); ("state", 64); ("hostState", 68); ("guestState", 72);
     ("msgSeq", 76); ("msgType", 80); ("reqSize", 84); ("respSize", 88);
     ("lease", 96); ("gen", 104); ("reserved", 112)]%nat ∧
  Layout.sizeof Structs.ExchangeHeader_struct = 64%nat ∧
  Layout.offsets Structs.ExchangeHeader_struct =
    [("magic", 0); ("version", 4); ("numSlots", 8); ("numGuestSlots", 12);
     ("slotSize", 16); ("reqOffset", 20); ("respOffset", 24);
     ("fastPathAllowed", 28); ("reserved", 32)]%nat ∧
  Layout.sizeof Structs.StreamHeader_struct = 24%nat ∧
  Layout.offsets Structs.StreamHeader_struct =
    [("streamId", 0); ("totalSize", 8); ("totalChunks", 16); ("appMsgType", 20)]%nat ∧
  Layout.sizeof Structs.ChunkHeader_struct = 24%nat ∧
  Layout.offsets Structs.ChunkHeader_struct =
    [("streamId", 0); ("chunkIndex", 8); ("payloadSize", 12); ("dstOffset", 16);
     ("padding", 20)]%nat ∧
  Layout.sizeof Structs.Placed_struct = 16%nat ∧
  Layout.sizeof Structs.RingBufferHeader_struct = 256%nat ∧
  Layout.sizeof Structs.TransportHeader_struct = 8%nat.
Proof. vm_compute. tauto. Qed.
