(* ===== verification/StreamReassembler.v ===== *)
(** * StreamReassembler (include/shm/StreamReassembler.h)

    The receiving side of the streaming protocol: [Handle] consumes
    [STREAM_START] and [STREAM_CHUNK] messages from an untrusted peer, keeps one
    [StreamContext] per in-flight stream and delivers a completed stream to the
    [onStream] callback.

    The destination buffer of a stream is written at the peer-declared
    [dstOffset] on arrival, in any order; only the cursor ([next], [offset]) and
    the records of ahead-of-cursor chunks ([ooo], [oooBytes]) decide when the
    stream is complete.

    - [StreamContext], [Reassembler]: the state, as in the source
      ([unordered_map]s are [gmap]s: no operation depends on iteration order).
    - [HandleAt] and its parts: one definition per method or branch.  The clock
      reads and the outcomes of the allocations are inputs ([Env]); so are the
      values of the reads of the request, which lies in shared memory ([View]).
      An out-of-bounds [memcpy] is the outcome [Undefined], an escaping exception
      is [Throws].
    - [Handle]: the calls during which nobody writes to the request.
    - the mutex makes every call atomic, so a history is a list of calls. *)

From S2P Require Export Prelude Wire.

Local Open Scope Z_scope.

(** ** Configuration *)

Record Config : Type := mkConfig {
  maxStreamSize : Z; maxStreamChunks : Z; maxStreams : Z; maxParkedChunks : Z;
  streamTimeoutMs : Z }.

Definition default_Config : Config :=
  mkConfig kMaxStreamSize (Z.shiftl 1 20) 1024 1024 10000.

Definition IsValid (cfg : Config) : bool := maxStreamSize cfg <=? kMaxStreamSize.

(** ** State *)

Record Placed : Type := mkPlaced { p_dstOffset : Z; p_size : Z }.

Record StreamContext : Type := mkContext {
  totalSize : Z; totalChunks : Z; appMsgType : Z;
  next : Z; offset : Z; oooBytes : Z;
  buf : list byte; ooo : gmap Z Placed; startTime : Z }.

Record Reassembler : Type := mkReassembler {
  streams : gmap Z StreamContext; config : Config }.

(** One invocation of [onStream]. *)
Record Delivery : Type := mkDelivery {
  d_streamId : Z; d_appMsgType : Z; d_data : list byte }.

(** The constructor clamps an over-set [maxStreamSize]. *)
Definition make (cfg : Config) : Reassembler :=
  mkReassembler ∅
    (if IsValid cfg then cfg
     else mkConfig kMaxStreamSize (maxStreamChunks cfg) (maxStreams cfg)
            (maxParkedChunks cfg) (streamTimeoutMs cfg)).

Definition set_cursor (c : StreamContext) (nx off : Z) : StreamContext :=
  mkContext (totalSize c) (totalChunks c) (appMsgType c) nx off (oooBytes c)
    (buf c) (ooo c) (startTime c).

Definition set_ooo (c : StreamContext) (m : gmap Z Placed) (b : Z) : StreamContext :=
  mkContext (totalSize c) (totalChunks c) (appMsgType c) (next c) (offset c) b
    (buf c) m (startTime c).

Definition set_buf (c : StreamContext) (b : list byte) : StreamContext :=
  mkContext (totalSize c) (totalChunks c) (appMsgType c) (next c) (offset c)
    (oooBytes c) b (ooo c) (startTime c).

Definition set_streams (r : Reassembler) (m : gmap Z StreamContext) : Reassembler :=
  mkReassembler m (config r).

(** ** Methods of [StreamContext] *)

Definition Fits (c : StreamContext) (n : Z) : bool :=
  u64 (u64 (offset c + oooBytes c) + n) <=? totalSize c.

Definition InBounds (c : StreamContext) (dst n : Z) : bool :=
  if totalSize c <? dst then false else n <=? u64 (totalSize c - dst).

(** [None]: the [memcpy] would leave [buf]. *)
Definition Write (c : StreamContext) (dst : Z) (data : list byte) : option StreamContext :=
  match data with
  | [] => Some c
  | _ => set_buf c <$> memcpy (buf c) (Z.to_nat dst) data
  end.

Definition AccountInOrder (c : StreamContext) (n : Z) : StreamContext :=
  set_cursor c (u32 (next c + 1)) (u64 (offset c + n)).

(** [emplace_ok = false] is [std::bad_alloc] from the map node. *)
Inductive note_result : Type :=
  | NoteOk (c : StreamContext)
  | NoteRefused
  | NoteThrows.

Definition NotePlaced (emplace_ok : bool) (c : StreamContext) (index dst n maxParked : Z)
    : note_result :=
  if maxParked <=? Z.of_nat (size (ooo c)) then NoteRefused
  else if negb emplace_ok then NoteThrows
  else
    let ooo' := match ooo c !! index with
                | Some _ => ooo c
                | None => <[index := mkPlaced dst (u32 n)]> (ooo c)
                end in
    NoteOk (set_ooo c ooo' (u64 (oooBytes c + n))).

(** The drain loop: advance the cursor over recorded indices.  The result is the
    context and the [corrupt] flag; [None] means that the fuel ran out. *)
Fixpoint drain (fuel : nat) (c : StreamContext) : option (StreamContext * bool) :=
  match fuel with
  | O => None
  | S fuel =>
      match ooo c !! next c with
      | None => Some (c, false)
      | Some p =>
          let c1 := set_ooo c (delete (next c) (ooo c)) (u64 (oooBytes c - p_size p)) in
          if negb (p_dstOffset p =? offset c1) then Some (c1, true)
          else drain fuel (AccountInOrder c1 (p_size p))
      end
  end.

(** Every iteration erases an element of [ooo]. *)
Definition drain_all (c : StreamContext) : option (StreamContext * bool) :=
  drain (S (size (ooo c))) c.

(** ** [Handle] *)

(** What the environment answers during one call. *)
Record Env : Type := mkEnv {
  now_prune : Z;      (** [steady_clock::now()] in [PruneInternal], ns *)
  now_start : Z;      (** [steady_clock::now()] for [ctx.startTime], ns *)
  resize_ok : bool;   (** [ctx.buf.resize] does not throw *)
  node_ok : bool;     (** inserting a new key into [streams] does not throw *)
  emplace_ok : bool   (** [ooo.emplace] does not throw *)
}.

Inductive outcome : Type :=
  | Handled (r : Reassembler) (reply : MsgType) (dlv : option Delivery)
      (** returns true; [respSize] is 0 *)
  | NotHandled        (** returns false *)
  | Throws (r : Reassembler)   (** an exception leaves [Handle] *)
  | Undefined.        (** undefined behaviour *)

Definition PruneInternal (now : Z) (r : Reassembler) : Reassembler :=
  set_streams r
    (filter (λ kv, elapsed_ms now (startTime kv.2) <= streamTimeoutMs (config r)) (streams r)).

Definition Prune := PruneInternal.

(** *** Reads of the request

    The request lies in shared memory ([GuestCallWorker.h] passes a pointer into
    the slot), and [Handle] reads the fields of its header again at every use.  A
    peer may write between two reads, so each read has its own contents of the
    request: one constructor per occurrence of [header->] in the source. *)

Inductive StartRead : Type :=
  | SrSizeBound    (** [header->totalSize > config.maxStreamSize] *)
  | SrChunksBound  (** [header->totalChunks > config.maxStreamChunks] *)
  | SrChunksZero   (** [header->totalChunks == 0] *)
  | SrSizeZero     (** [header->totalSize != 0] *)
  | SrEmptyId | SrEmptyTag                (** the delivery of an empty stream *)
  | SrSize | SrChunks | SrTag             (** the fields of [ctx] *)
  | SrResize       (** [ctx.buf.resize] *)
  | SrKey.         (** [streams[header->streamId]] *)

Inductive ChunkRead : Type :=
  | CrLength       (** [sizeof(ChunkHeader) + header->payloadSize] *)
  | CrFind         (** [streams.find] *)
  | CrIndexBound   (** [header->chunkIndex >= ctx.totalChunks] *)
  | CrIndexNext    (** [header->chunkIndex < ctx.next] *)
  | CrIndexPlaced  (** [ctx.ooo.find] *)
  | CrFits         (** [ctx.Fits] *)
  | CrBoundsDst | CrBoundsSize            (** [ctx.InBounds] *)
  | CrWriteDst | CrWriteSize              (** the arguments of [ctx.Write] *)
  | CrPayload      (** the payload, read by the [memcpy] of [ctx.Write] *)
  | CrIsNext       (** [header->chunkIndex == ctx.next] *)
  | CrCursor       (** [header->dstOffset != ctx.offset] *)
  | CrAccount      (** [ctx.AccountInOrder] *)
  | CrNoteIndex | CrNoteDst | CrNoteSize  (** [ctx.NotePlaced] *)
  | CrDeliver.     (** [onStream] *)

(** What one call finds in the request: [msgType] (a reference into the slot,
    compared twice) and the bytes at each read.  [reqSize] is a value. *)
Record View : Type := mkView {
  v_isStart : MsgType; v_isChunk : MsgType; v_reqSize : nat;
  v_start : StartRead → list byte; v_chunk : ChunkRead → list byte }.

(** Nobody writes to the request during the call. *)
Definition still (msgType : MsgType) (req : list byte) : View :=
  mkView msgType msgType (length req) (λ _, req) (λ _, req).

Definition HandleStartAt (e : Env) (r : Reassembler) (n : nat) (at_ : StartRead → list byte)
    : outcome :=
  if (n <? sizeof_StreamHeader)%nat then Handled r SYSTEM_ERROR None else
  let h k := StreamHeader_read (at_ k) in
  if (maxStreamSize (config r) <? sh_totalSize (h SrSizeBound))
     || (maxStreamChunks (config r) <? sh_totalChunks (h SrChunksBound))
  then Handled r SYSTEM_ERROR None else
  if sh_totalChunks (h SrChunksZero) =? 0 then
    if negb (sh_totalSize (h SrSizeZero) =? 0) then Handled r SYSTEM_ERROR None
    else Handled r NORMAL
      (Some (mkDelivery (sh_streamId (h SrEmptyId)) (sh_appMsgType (h SrEmptyTag)) []))
  else
  let r1 := PruneInternal (now_prune e) r in
  if maxStreams (config r1) <=? Z.of_nat (size (streams r1)) then
    Handled r1 SYSTEM_ERROR None
  else if negb (resize_ok e) then Handled r1 SYSTEM_ERROR None
  else if negb (node_ok e) && bool_decide (streams r1 !! sh_streamId (h SrKey) = None)
  then Throws r1
  else
    let ctx := mkContext (sh_totalSize (h SrSize)) (sh_totalChunks (h SrChunks))
                 (sh_appMsgType (h SrTag)) 0 0 0
                 (replicate (Z.to_nat (sh_totalSize (h SrResize))) Byte.x00) ∅ (now_start e) in
    Handled (set_streams r1 (<[sh_streamId (h SrKey) := ctx]> (streams r1))) NORMAL None.

(** The [try] block of the chunk branch: the context it leaves and [corrupt].
    [payload] is what the [memcpy] reads; [None]: it reads past the request. *)
Definition PlaceChunkAt (e : Env) (cfg : Config) (c : StreamContext)
    (h : ChunkRead → ChunkHeader) (payload : option (list byte))
    : option (StreamContext * bool) :=
  if negb (Fits c (ch_payloadSize (h CrFits)))
     || negb (InBounds c (ch_dstOffset (h CrBoundsDst)) (ch_payloadSize (h CrBoundsSize)))
  then Some (c, true)
  else
    data ← payload;
    c1 ← Write c (ch_dstOffset (h CrWriteDst)) data;
    if ch_chunkIndex (h CrIsNext) =? next c1 then
      if negb (ch_dstOffset (h CrCursor) =? offset c1) then Some (c1, true)
      else drain_all (AccountInOrder c1 (ch_payloadSize (h CrAccount)))
    else
      match NotePlaced (emplace_ok e) c1 (ch_chunkIndex (h CrNoteIndex))
              (ch_dstOffset (h CrNoteDst)) (ch_payloadSize (h CrNoteSize))
              (maxParkedChunks cfg) with
      | NoteOk c2 => Some (c2, false)
      | NoteRefused | NoteThrows => Some (c1, true)
      end.

(** The bytes behind the header, out of a request of [n] bytes. *)
Definition payload_at (n : nat) (len : Z) (req : list byte) : option (list byte) :=
  if Z.of_nat n <? Z.of_nat sizeof_ChunkHeader + len then None
  else Some (slice sizeof_ChunkHeader (Z.to_nat len) req).

Definition HandleChunkAt (e : Env) (r : Reassembler) (n : nat) (at_ : ChunkRead → list byte)
    : outcome :=
  if (n <? sizeof_ChunkHeader)%nat then Handled r SYSTEM_ERROR None else
  let h k := ChunkHeader_read (at_ k) in
  if Z.of_nat n <? u64 (Z.of_nat sizeof_ChunkHeader + ch_payloadSize (h CrLength))
  then Handled r SYSTEM_ERROR None else
  let id := ch_streamId (h CrFind) in
  match streams r !! id with
  | None => Handled r SYSTEM_ERROR None
  | Some ctx =>
      if totalChunks ctx <=? ch_chunkIndex (h CrIndexBound) then Handled r SYSTEM_ERROR None else
      if (ch_chunkIndex (h CrIndexNext) <? next ctx)
         || bool_decide (is_Some (ooo ctx !! ch_chunkIndex (h CrIndexPlaced)))
      then Handled r NORMAL None else
      match PlaceChunkAt e (config r) ctx h
              (payload_at n (ch_payloadSize (h CrWriteSize)) (at_ CrPayload)) with
      | None => Undefined
      | Some (ctx', corrupt) =>
          let kept := set_streams r (<[id := ctx']> (streams r)) in
          let dropped := set_streams r (delete id (streams r)) in
          if negb corrupt && (next ctx' =? totalChunks ctx') then
            if offset ctx' =? totalSize ctx' then
              Handled dropped NORMAL
                (Some (mkDelivery (ch_streamId (h CrDeliver)) (appMsgType ctx') (buf ctx')))
            else Handled dropped SYSTEM_ERROR None
          else if corrupt then Handled dropped SYSTEM_ERROR None
          else Handled kept NORMAL None
      end
  end.

Definition HandleAt (e : Env) (r : Reassembler) (v : View) : outcome :=
  match v_isStart v with
  | STREAM_START => HandleStartAt e r (v_reqSize v) (v_start v)
  | _ =>
      match v_isChunk v with
      | STREAM_CHUNK => HandleChunkAt e r (v_reqSize v) (v_chunk v)
      | _ => NotHandled
      end
  end.

(** *** The calls of a peer that leaves its request alone *)

Definition HandleStart (e : Env) (r : Reassembler) (req : list byte) : outcome :=
  HandleStartAt e r (length req) (λ _, req).

Definition PlaceChunk (e : Env) (cfg : Config) (c : StreamContext) (h : ChunkHeader)
    (payload : list byte) : option (StreamContext * bool) :=
  PlaceChunkAt e cfg c (λ _, h) (Some payload).

Definition HandleChunk (e : Env) (r : Reassembler) (req : list byte) : outcome :=
  HandleChunkAt e r (length req) (λ _, req).

Definition Handle (e : Env) (r : Reassembler) (msgType : MsgType) (req : list byte) : outcome :=
  HandleAt e r (still msgType req).

Lemma Handle_start e r req : Handle e r STREAM_START req = HandleStart e r req.
Proof. reflexivity. Qed.

Lemma Handle_chunk e r req : Handle e r STREAM_CHUNK req = HandleChunk e r req.
Proof. reflexivity. Qed.

(** With one header, decoded once, the payload never passes the request. *)
Lemma HandleChunk_eq e r req :
  HandleChunk e r req =
  if (length req <? sizeof_ChunkHeader)%nat then Handled r SYSTEM_ERROR None else
  let h := ChunkHeader_read req in
  if Z.of_nat (length req) <? u64 (Z.of_nat sizeof_ChunkHeader + ch_payloadSize h)
  then Handled r SYSTEM_ERROR None else
  match streams r !! ch_streamId h with
  | None => Handled r SYSTEM_ERROR None
  | Some ctx =>
      if totalChunks ctx <=? ch_chunkIndex h then Handled r SYSTEM_ERROR None else
      if (ch_chunkIndex h <? next ctx) || bool_decide (is_Some (ooo ctx !! ch_chunkIndex h))
      then Handled r NORMAL None else
      match PlaceChunk e (config r) ctx h
              (slice sizeof_ChunkHeader (Z.to_nat (ch_payloadSize h)) req) with
      | None => Undefined
      | Some (ctx', corrupt) =>
          let kept := set_streams r (<[ch_streamId h := ctx']> (streams r)) in
          let dropped := set_streams r (delete (ch_streamId h) (streams r)) in
          if negb corrupt && (next ctx' =? totalChunks ctx') then
            if offset ctx' =? totalSize ctx' then
              Handled dropped NORMAL
                (Some (mkDelivery (ch_streamId h) (appMsgType ctx') (buf ctx')))
            else Handled dropped SYSTEM_ERROR None
          else if corrupt then Handled dropped SYSTEM_ERROR None
          else Handled kept NORMAL None
      end
  end.
Proof.
  unfold HandleChunk, HandleChunkAt. pose proof (ChunkHeader_read_ok req) as (_&_&Hp&_).
  destruct (_ <? _)%nat; [done|]. cbn zeta beta.
  rewrite u64_id by (unfold sizeof_ChunkHeader; lia).
  destruct (Z.of_nat (length req) <? _) eqn:Hn; [done|].
  unfold payload_at. by rewrite Hn.
Qed.

(** ** [PeekStream]: a snapshot of one in-flight stream *)

Record StreamSnapshot : Type := mkSnapshot {
  s_totalSize : Z; s_totalChunks : Z; s_next : Z; s_offset : Z; s_oooBytes : Z;
  s_buf : list byte; s_placed : gmap Z (Z * Z) }.

Definition PeekStream (r : Reassembler) (streamId : Z) : option StreamSnapshot :=
  ctx ← streams r !! streamId;
  Some (mkSnapshot (totalSize ctx) (totalChunks ctx) (next ctx) (offset ctx)
          (oooBytes ctx) (buf ctx) ((λ p, (p_dstOffset p, p_size p)) <$> ooo ctx)).
