(* ===== verification/ReassemblerSpec.v ===== *)
(** * ReassemblerSpec: what the reassembler promises

    An abstract reassembler without cursor, buffer, byte counters or machine
    integers.  A stream is the list of chunks accepted so far, in arrival order;
    everything [StreamReassembler] maintains incrementally is a function of that
    list:

    - [frontier]: the first index that has not arrived (the cursor [next]);
    - [bytes_below]: the length of the chunks below an index ([offset] at the
      frontier; the [dstOffset] an honest chunk declares);
    - [assemble]: the payloads in index order, which is what a completed stream
      delivers.

    [SHandle] is the contract of SPECIFICATION.md section 3.3.4.  [AHandle] is
    that contract without one of its rules: the section wants a [STREAM_START]
    that announces chunks but no bytes ([byteless_start]) rejected, and neither
    reassembler does so.  The file ends with the lemmas on logs that the
    refinement proof uses. *)

From S2P Require Export StreamReassembler.

Local Open Scope Z_scope.

(** ** Logs of accepted chunks *)

Record Arrival : Type := mkArrival {
  a_index : Z; a_dst : Z; a_payload : list byte }.

Definition a_len (a : Arrival) : Z := Z.of_nat (length (a_payload a)).

Fixpoint log_find (i : Z) (l : list Arrival) : option Arrival :=
  match l with
  | [] => None
  | a :: l => if a_index a =? i then Some a else log_find i l
  end.

Definition log_has (i : Z) (l : list Arrival) : bool :=
  match log_find i l with Some _ => true | None => false end.

Fixpoint bytes_below (n : Z) (l : list Arrival) : Z :=
  match l with
  | [] => 0
  | a :: l => (if a_index a <? n then a_len a else 0) + bytes_below n l
  end.

Fixpoint bytes_all (l : list Arrival) : Z :=
  match l with [] => 0 | a :: l => a_len a + bytes_all l end.

Fixpoint frontier_from (fuel : nat) (i : Z) (l : list Arrival) : Z :=
  match fuel with
  | O => i
  | S fuel => if log_has i l then frontier_from fuel (i + 1) l else i
  end.

(** A log of k chunks has its first gap at or below k. *)
Definition frontier (l : list Arrival) : Z := frontier_from (length l) 0 l.

(** Every index below [n] declared the offset at which its bytes belong. *)
Definition placed_ok (n : Z) (l : list Arrival) : bool :=
  forallb (λ i, match log_find i l with
                | Some a => a_dst a =? bytes_below i l
                | None => false
                end) (seqZ 0 n).

Definition assemble (n : Z) (l : list Arrival) : list byte :=
  concat (map (λ i, default [] (a_payload <$> log_find i l)) (seqZ 0 n)).

(** Chunks recorded ahead of the frontier. *)
Definition parked (l : list Arrival) : list Arrival :=
  filter (λ a, frontier l <= a_index a) l.

(** ** The abstract reassembler *)

Record AStream : Type := mkAStream {
  as_total : Z; as_chunks : Z; as_tag : Z; as_start : Z; as_log : list Arrival }.

Inductive verdict : Type :=
  | VReject                       (** refused, the stream is kept as it is *)
  | VIgnore                       (** duplicate index: acknowledged, no effect *)
  | VDrop                         (** refused, the stream is dropped *)
  | VKeep (l : list Arrival)      (** accepted *)
  | VDeliver (data : list byte).  (** accepted, the stream is complete *)

Definition judge_chunk (cfg : Config) (alloc : bool) (s : AStream) (a : Arrival) : verdict :=
  let l := as_log s in
  let l' := l ++ [a] in
  if as_chunks s <=? a_index a then VReject
  else if log_has (a_index a) l then VIgnore
  else if as_total s <? bytes_all l' then VDrop
  else if as_total s <? a_dst a + a_len a then VDrop
  else if a_index a =? frontier l then
    if negb (placed_ok (frontier l') l') then VDrop
    else if frontier l' =? as_chunks s then
      if bytes_all l' =? as_total s then VDeliver (assemble (as_chunks s) l') else VDrop
    else VKeep l'
  else if (maxParkedChunks cfg <=? Z.of_nat (length (parked l))) || negb alloc then VDrop
  else VKeep l'.

Inductive aoutcome : Type :=
  | AHandled (m : gmap Z AStream) (reply : MsgType) (dlv : option Delivery)
  | ANotHandled
  | AThrows (m : gmap Z AStream).

Definition APrune (cfg : Config) (now : Z) (m : gmap Z AStream) : gmap Z AStream :=
  filter (λ kv, elapsed_ms now (as_start kv.2) <= streamTimeoutMs cfg) m.

Definition AHandleStart (cfg : Config) (e : Env) (m : gmap Z AStream) (req : list byte)
    : aoutcome :=
  if (length req <? sizeof_StreamHeader)%nat then AHandled m SYSTEM_ERROR None else
  let h := StreamHeader_read req in
  if (maxStreamSize cfg <? sh_totalSize h) || (maxStreamChunks cfg <? sh_totalChunks h)
  then AHandled m SYSTEM_ERROR None
  else if sh_totalChunks h =? 0 then
    if sh_totalSize h =? 0 then
      AHandled m NORMAL (Some (mkDelivery (sh_streamId h) (sh_appMsgType h) []))
    else AHandled m SYSTEM_ERROR None
  else
    let m1 := APrune cfg (now_prune e) m in
    if (maxStreams cfg <=? Z.of_nat (size m1)) || negb (resize_ok e)
    then AHandled m1 SYSTEM_ERROR None
    else if negb (node_ok e) && bool_decide (m1 !! sh_streamId h = None) then AThrows m1
    else AHandled (<[sh_streamId h := mkAStream (sh_totalSize h) (sh_totalChunks h)
                       (sh_appMsgType h) (now_start e) []]> m1) NORMAL None.

Definition AHandleChunk (cfg : Config) (e : Env) (m : gmap Z AStream) (req : list byte)
    : aoutcome :=
  if (length req <? sizeof_ChunkHeader)%nat then AHandled m SYSTEM_ERROR None else
  let h := ChunkHeader_read req in
  let id := ch_streamId h in
  if Z.of_nat (length req) <? Z.of_nat sizeof_ChunkHeader + ch_payloadSize h
  then AHandled m SYSTEM_ERROR None else
  match m !! id with
  | None => AHandled m SYSTEM_ERROR None
  | Some s =>
      let payload := slice sizeof_ChunkHeader (Z.to_nat (ch_payloadSize h)) req in
      match judge_chunk cfg (emplace_ok e) s
              (mkArrival (ch_chunkIndex h) (ch_dstOffset h) payload) with
      | VReject => AHandled m SYSTEM_ERROR None
      | VIgnore => AHandled m NORMAL None
      | VDrop => AHandled (delete id m) SYSTEM_ERROR None
      | VKeep l => AHandled (<[id := mkAStream (as_total s) (as_chunks s) (as_tag s)
                                       (as_start s) l]> m) NORMAL None
      | VDeliver d => AHandled (delete id m) NORMAL (Some (mkDelivery id (as_tag s) d))
      end
  end.

Definition AHandle (cfg : Config) (e : Env) (m : gmap Z AStream) (msgType : MsgType)
    (req : list byte) : aoutcome :=
  match msgType with
  | STREAM_START => AHandleStart cfg e m req
  | STREAM_CHUNK => AHandleChunk cfg e m req
  | _ => ANotHandled
  end.

(** "[totalChunks == 0] iff [totalSize == 0]" (SPECIFICATION.md 3.3.4, "Empty
    stream"), the half that [AHandleStart] lacks: a well-framed start that
    announces chunks and no bytes. *)
Definition byteless_start (msgType : MsgType) (req : list byte) : bool :=
  match msgType with
  | STREAM_START =>
      (sizeof_StreamHeader <=? length req)%nat
      && negb (sh_totalChunks (StreamHeader_read req) =? 0)
      && (sh_totalSize (StreamHeader_read req) =? 0)
  | _ => false
  end.

Definition SHandle (cfg : Config) (e : Env) (m : gmap Z AStream) (msgType : MsgType)
    (req : list byte) : aoutcome :=
  if byteless_start msgType req then AHandled m SYSTEM_ERROR None
  else AHandle cfg e m msgType req.

(** ** Lemmas on logs *)

Lemma a_len_nonneg a : 0 <= a_len a.
Proof. unfold a_len. lia. Qed.

Lemma log_find_index i l a : log_find i l = Some a → a_index a = i.
Proof.
  induction l as [|b l IH]; simpl; [done|].
  destruct (Z.eqb_spec (a_index b) i); naive_solver.
Qed.

Lemma log_find_elem i l a : log_find i l = Some a → a ∈ l.
Proof.
  induction l as [|b l IH]; simpl; [done|].
  destruct (Z.eqb_spec (a_index b) i); [intros [= ->]; left|intros; right; auto].
Qed.

Lemma log_find_None i l : log_find i l = None ↔ i ∉ map a_index l.
Proof.
  induction l as [|b l IH]; simpl; [set_solver|].
  destruct (Z.eqb_spec (a_index b) i); [set_solver|]. rewrite IH. set_solver.
Qed.

Lemma log_has_true i l : log_has i l = true ↔ i ∈ map a_index l.
Proof.
  unfold log_has. destruct (log_find i l) as [a|] eqn:E.
  - split; [|done]. intros _. apply list_elem_of_fmap. exists a. split.
    + symmetry. by eapply log_find_index.
    + by eapply log_find_elem.
  - apply log_find_None in E. split; [done|contradiction].
Qed.

Lemma log_has_false i l : log_has i l = false ↔ log_find i l = None.
Proof. unfold log_has. by destruct (log_find i l). Qed.

Lemma log_find_app i l a :
  log_find i (l ++ [a]) =
    match log_find i l with
    | Some b => Some b
    | None => if a_index a =? i then Some a else None
    end.
Proof. induction l as [|b l IH]; simpl; [done|]. by destruct (a_index b =? i). Qed.

Lemma log_find_nodup l a :
  NoDup (map a_index l) → a ∈ l → log_find (a_index a) l = Some a.
Proof.
  induction l as [|b l IH]; simpl; [by intros _ ?%elem_of_nil|].
  intros [Hni Hnd]%NoDup_cons [->|Hin]%elem_of_cons; [by rewrite Z.eqb_refl|].
  destruct (Z.eqb_spec (a_index b) (a_index a)) as [E|]; [|auto].
  destruct Hni. rewrite E. by apply list_elem_of_fmap_2.
Qed.

Lemma bytes_below_app n l a :
  bytes_below n (l ++ [a]) = bytes_below n l + (if a_index a <? n then a_len a else 0).
Proof. induction l as [|b l IH]; simpl; [lia|]. rewrite IH. lia. Qed.

Lemma bytes_all_app l a : bytes_all (l ++ [a]) = bytes_all l + a_len a.
Proof. induction l as [|b l IH]; simpl; [lia|]. rewrite IH. lia. Qed.

Lemma bytes_below_nonneg n l : 0 <= bytes_below n l.
Proof.
  induction l as [|b l IH]; simpl; [done|].
  pose proof (a_len_nonneg b). destruct (_ <? _); lia.
Qed.

Lemma bytes_below_le_all n l : bytes_below n l <= bytes_all l.
Proof.
  induction l as [|b l IH]; simpl; [done|].
  pose proof (a_len_nonneg b). destruct (_ <? _); lia.
Qed.

Lemma bytes_below_mono n m l : n <= m → bytes_below n l <= bytes_below m l.
Proof.
  intros. induction l as [|b l IH]; simpl; [done|]. pose proof (a_len_nonneg b).
  destruct (Z.ltb_spec (a_index b) n), (Z.ltb_spec (a_index b) m); lia.
Qed.

Lemma bytes_below_succ_None n l :
  log_find n l = None → bytes_below (n + 1) l = bytes_below n l.
Proof.
  intros Hn%log_find_None. induction l as [|b l IH]; simpl in *; [done|].
  apply not_elem_of_cons in Hn as [??]. rewrite IH by done.
  destruct (Z.ltb_spec (a_index b) n), (Z.ltb_spec (a_index b) (n + 1)); lia.
Qed.

Lemma bytes_below_succ n l a :
  NoDup (map a_index l) → log_find n l = Some a →
  bytes_below (n + 1) l = bytes_below n l + a_len a.
Proof.
  induction l as [|b l IH]; simpl; [done|]. intros [Hni Hnd]%NoDup_cons Hf.
  destruct (Z.eqb_spec (a_index b) n) as [E|].
  - simplify_eq. rewrite bytes_below_succ_None by by apply log_find_None.
    destruct (Z.ltb_spec (a_index a) (a_index a)),
      (Z.ltb_spec (a_index a) (a_index a + 1)); lia.
  - rewrite IH by done.
    destruct (Z.ltb_spec (a_index b) n), (Z.ltb_spec (a_index b) (n + 1)); lia.
Qed.

Lemma bytes_below_all n l :
  Forall (λ a, a_index a < n) l → bytes_below n l = bytes_all l.
Proof.
  induction 1 as [|b l Hb _ IH]; simpl; [done|]. rewrite IH.
  destruct (Z.ltb_spec (a_index b) n); lia.
Qed.

Lemma bytes_below_zero l : Forall (λ a, 0 <= a_index a) l → bytes_below 0 l = 0.
Proof.
  induction 1 as [|b l Hb _ IH]; simpl; [done|]. rewrite IH.
  destruct (Z.ltb_spec (a_index b) 0); lia.
Qed.

#[export] Hint Resolve a_len_nonneg bytes_below_nonneg bytes_below_le_all : shm.

(** *** The frontier *)

Definition is_frontier (l : list Arrival) (n : Z) : Prop :=
  0 <= n ∧ (∀ i, 0 <= i < n → i ∈ map a_index l) ∧ n ∉ map a_index l.

Lemma is_frontier_unique l n m : is_frontier l n → is_frontier l m → n = m.
Proof.
  intros (?&Hn&?) (?&Hm&?). destruct (Z.lt_trichotomy n m) as [?|[?|?]]; [|done|].
  - destruct (Hm n); naive_solver.
  - destruct (Hn m); naive_solver.
Qed.

Lemma frontier_from_spec fuel : ∀ i l,
  0 <= i → (∀ j, 0 <= j < i → j ∈ map a_index l) →
  let n := frontier_from fuel i l in
  i <= n <= i + Z.of_nat fuel ∧ (∀ j, 0 <= j < n → j ∈ map a_index l) ∧
  (n < i + Z.of_nat fuel → n ∉ map a_index l).
Proof.
  induction fuel as [|fuel IH]; intros i l Hi Hbelow; simpl.
  { split_and!; [lia|lia|done|lia]. }
  destruct (log_has i l) eqn:E.
  - apply log_has_true in E. destruct (IH (i + 1) l) as (?&?&Hn); [lia| |].
    + intros j ?. destruct (Z.eq_dec j i) as [->|]; [done|]. apply Hbelow. lia.
    + split_and!; [lia|lia|done|]. intros. apply Hn. lia.
  - apply log_has_false, log_find_None in E. split_and!; [lia|lia|done|done].
Qed.

Lemma indices_bound (l : list Arrival) n :
  0 <= n → (∀ i, 0 <= i < n → i ∈ map a_index l) → n <= Z.of_nat (length l).
Proof.
  intros Hn Hin. assert (seqZ 0 n ⊆+ map a_index l) as Hs%submseteq_length.
  { apply NoDup_submseteq; [apply NoDup_seqZ|]. intros i ?%elem_of_seqZ. apply Hin. lia. }
  rewrite length_seqZ, length_fmap in Hs. lia.
Qed.

Lemma frontier_is_frontier l : is_frontier l (frontier l).
Proof.
  unfold frontier. destruct (frontier_from_spec (length l) 0 l) as (?&Hb&Hn); [lia..|].
  split_and!; [lia|done|]. intros Hin. set (n := frontier_from _ _ _) in *.
  destruct (decide (n < 0 + Z.of_nat (length l))) as [?|?]; [naive_solver|].
  assert (n + 1 <= Z.of_nat (length l)); [|lia]. apply indices_bound; [lia|].
  intros i ?. destruct (Z.eq_dec i n) as [->|]; [done|]. apply Hb. lia.
Qed.

Lemma frontier_eq l n : is_frontier l n → frontier l = n.
Proof. intros. eapply is_frontier_unique; [apply frontier_is_frontier|done]. Qed.

Lemma frontier_nonneg l : 0 <= frontier l.
Proof. apply frontier_is_frontier. Qed.

(** Appending an index that is not the frontier leaves the frontier. *)
Lemma frontier_app_ne l a : a_index a ≠ frontier l → frontier (l ++ [a]) = frontier l.
Proof.
  intros Hne. apply frontier_eq. destruct (frontier_is_frontier l) as (?&Hb&Hn).
  unfold is_frontier. rewrite map_app. split_and!; [done| |]; [intros i Hi|]; set_solver.
Qed.

Lemma frontier_le_chunks l n :
  Forall (λ a, a_index a < n) l → 0 <= n → frontier l <= n.
Proof.
  intros Hall ?. destruct (decide (frontier l <= n)) as [|Hgt]; [done|].
  destruct (frontier_is_frontier l) as (_&Hb&_).
  destruct (proj1 (list_elem_of_fmap a_index l n)) as (a&->&Hin); [apply Hb; lia|].
  rewrite Forall_forall in Hall. specialize (Hall _ Hin). lia.
Qed.

(** *** Consistent placement *)

Lemma placed_ok_spec n l :
  placed_ok n l = true ↔
  ∀ i, 0 <= i < n → ∃ a, log_find i l = Some a ∧ a_dst a = bytes_below i l.
Proof.
  unfold placed_ok. rewrite forallb_forall. split.
  - intros H i Hi. specialize (H i). destruct (log_find i l) as [a|].
    + exists a. split; [done|]. apply Z.eqb_eq, H, list_elem_of_In, elem_of_seqZ. lia.
    + discriminate H. apply list_elem_of_In, elem_of_seqZ. lia.
  - intros H i Hi%list_elem_of_In%elem_of_seqZ.
    destruct (H i) as (a&->&?); [lia|]. by apply Z.eqb_eq.
Qed.

Lemma log_find_has i l a : log_find i l = Some a → i ∈ map a_index l.
Proof. intros H. apply log_has_true. unfold log_has. by rewrite H. Qed.

Lemma placed_ok_has n l i : placed_ok n l = true → 0 <= i < n → i ∈ map a_index l.
Proof. rewrite placed_ok_spec. intros H Hi. destruct (H i Hi) as (a&?&_). by eapply log_find_has. Qed.

(** *** The destination buffer as the effect of a log *)

Definition apply_log (l : list Arrival) (b : list byte) : list byte :=
  foldl (λ b a, list_inserts (Z.to_nat (a_dst a)) (a_payload a) b) b l.

Lemma apply_log_app l a b :
  apply_log (l ++ [a]) b = list_inserts (Z.to_nat (a_dst a)) (a_payload a) (apply_log l b).
Proof. unfold apply_log. by rewrite foldl_app. Qed.

Lemma apply_log_length l : ∀ b, length (apply_log l b) = length b.
Proof.
  induction l as [|a l IH]; intros b; simpl; [done|]. by rewrite IH, length_inserts.
Qed.

(** The range of one chunk after the writes of a log whose ranges are disjoint:
    the payload of that chunk, whatever the order of arrival. *)
Lemma apply_log_slice l b a :
  NoDup (map a_index l) → a ∈ l →
  (∀ x, x ∈ l → 0 <= a_dst x ∧ a_dst x + a_len x <= Z.of_nat (length b)) →
  (∀ x y, x ∈ l → y ∈ l → a_index x < a_index y → a_dst x + a_len x <= a_dst y) →
  slice (Z.to_nat (a_dst a)) (length (a_payload a)) (apply_log l b) = a_payload a.
Proof.
  induction l as [|c l IH] using rev_ind; [by intros _ ?%elem_of_nil|].
  rewrite map_app, apply_log_app. intros Hnd Hin Hb Hd.
  apply NoDup_app in Hnd as (Hnd&Hni&_). unfold a_len in *.
  destruct (Hb c) as [??]; [set_solver|].
  assert (a ∈ l ∨ a = c) as [Hal| ->] by set_solver.
  - rewrite slice_inserts_ne.
    + apply IH; [done|done| |]; intros; [apply Hb|apply Hd]; set_solver.
    + destruct (Hb a) as [??]; [set_solver|].
      assert (a_index a ≠ a_index c) as Hne.
      { intros E. apply (Hni (a_index a)); [by apply list_elem_of_fmap_2|set_solver]. }
      destruct (Z.lt_total (a_index a) (a_index c)) as [?|[?|?]]; [|done|].
      * left. opose proof (Hd a c _ _ _) as Hac; [set_solver..|done|lia].
      * right. opose proof (Hd c a _ _ _) as Hca; [set_solver..|done|lia].
  - apply slice_inserts_eq. rewrite apply_log_length. lia.
Qed.

(** *** A complete log *)

Lemma assemble_succ n l a :
  0 <= n → log_find n l = Some a → assemble (n + 1) l = assemble n l ++ a_payload a.
Proof.
  intros Hn Hf. unfold assemble. rewrite seqZ_app by lia. rewrite map_app, concat_app.
  f_equal. rewrite Z.add_0_l. change 1 with (Z.succ 0). rewrite seqZ_cons by lia.
  simpl. by rewrite Hf, app_nil_r.
Qed.

(** All of [0, n) has arrived, each index once and at its place. *)
Definition tiled (n : Z) (l : list Arrival) : Prop :=
  0 <= n ∧ NoDup (map a_index l) ∧ Forall (λ a, 0 <= a_index a < n) l ∧
  placed_ok n l = true.

Lemma tiled_dst n l a : tiled n l → a ∈ l → a_dst a = bytes_below (a_index a) l.
Proof.
  intros (_&Hnd&Hrange&Hok) Hin. rewrite placed_ok_spec in Hok.
  rewrite Forall_forall in Hrange. destruct (Hok (a_index a)) as (b&Hf&Hb); [auto|].
  rewrite (log_find_nodup l a Hnd Hin) in Hf. by simplify_eq.
Qed.

Lemma tiled_end n l a :
  tiled n l → a ∈ l → a_dst a + a_len a = bytes_below (a_index a + 1) l.
Proof.
  intros Ht Hin. rewrite (tiled_dst n l a Ht Hin). destruct Ht as (_&Hnd&_).
  by rewrite (bytes_below_succ _ l a) by eauto using log_find_nodup.
Qed.

Lemma tiled_slice n l b a :
  tiled n l → a ∈ l → bytes_all l <= Z.of_nat (length b) →
  slice (Z.to_nat (a_dst a)) (length (a_payload a)) (apply_log l b) = a_payload a.
Proof.
  intros Ht Hin Hlen. apply apply_log_slice; [apply Ht|done| |].
  - intros x Hx. rewrite (tiled_end n l x Ht Hx), (tiled_dst n l x Ht Hx).
    pose proof (bytes_below_le_all (a_index x + 1) l). auto with lia shm.
  - intros x y Hx Hy Hxy. rewrite (tiled_end n l x Ht Hx), (tiled_dst n l y Ht Hy).
    apply bytes_below_mono. lia.
Qed.

Lemma tiled_prefix n l b k :
  tiled n l → bytes_all l <= Z.of_nat (length b) → (Z.of_nat k <= n) →
  slice 0 (Z.to_nat (bytes_below (Z.of_nat k) l)) (apply_log l b) = assemble (Z.of_nat k) l.
Proof.
  intros Ht Hlen. induction k as [|k IH]; intros Hk.
  { rewrite bytes_below_zero; [done|]. destruct Ht as (_&_&Hr&_).
    eapply Forall_impl; [apply Hr|]. naive_solver lia. }
  destruct (proj1 (placed_ok_spec n l) (proj2 (proj2 (proj2 Ht))) (Z.of_nat k))
    as (a&Hf&Hdst); [lia|].
  rewrite Nat2Z.inj_succ, <-Z.add_1_r, (assemble_succ _ _ a) by (done || lia).
  rewrite (bytes_below_succ _ _ a) by (apply Ht || done).
  rewrite Z2Nat.inj_add by auto with shm. rewrite slice_app, IH by lia. f_equal.
  rewrite <-(tiled_slice n l b a) by eauto using log_find_elem.
  simpl. rewrite Hdst. f_equal. unfold a_len. lia.
Qed.

Lemma tiled_assemble n l b :
  tiled n l → Z.of_nat (length b) = bytes_all l → apply_log l b = assemble n l.
Proof.
  intros Ht Hlen. pose proof (tiled_prefix n l b (Z.to_nat n) Ht) as Hp.
  rewrite Z2Nat.id in Hp by apply Ht. rewrite <-Hp by lia.
  rewrite bytes_below_all, <-Hlen, Nat2Z.id.
  - rewrite <-(apply_log_length l b) at 1. by rewrite slice_all.
  - destruct Ht as (_&_&Hr&_). eapply Forall_impl; [apply Hr|]. naive_solver lia.
Qed.
