(* ===== verification/ReassemblerRefine.v ===== *)
(** * ReassemblerRefine: the reassembler implements its contract

    [StreamReassembler.Handle] (cursor, byte counters at 64 bits, destination
    buffer written on arrival, sparse [ooo] map) refines
    [ReassemblerSpec.AHandle] (the list of accepted chunks): same replies, same
    deliveries, for every history of calls whose requests nobody changes during the
    call; and so it refines the contract of the specification
    ([ReassemblerSpec.SHandle]) where the two agree. *)

From S2P Require Export ReassemblerSpec.

Local Open Scope Z_scope.

(** ** The representation relation *)

Definition to_placed (a : Arrival) : Placed := mkPlaced (a_dst a) (a_len a).

Record stream_wf (s : AStream) : Prop := {
  wf_total : 0 <= as_total s <= kMaxStreamSize;
  wf_chunks : 0 < as_chunks s < 2 ^ 32;
  wf_nodup : NoDup (map a_index (as_log s));
  wf_index : Forall (λ a, 0 <= a_index a < as_chunks s) (as_log s);
  wf_bytes : bytes_all (as_log s) <= as_total s;
  wf_dst : Forall (λ a, 0 <= a_dst a ∧ a_dst a + a_len a <= as_total s) (as_log s) }.

(** [c] holds the log of [s] with the cursor at [n]. *)
Record cursor_repr (c : StreamContext) (s : AStream) (n : Z) : Prop := {
  cr_total : totalSize c = as_total s;
  cr_chunks : totalChunks c = as_chunks s;
  cr_tag : appMsgType c = as_tag s;
  cr_start : startTime c = as_start s;
  cr_next : next c = n;
  cr_nonneg : 0 <= n;
  cr_placed : placed_ok n (as_log s) = true;
  cr_offset : offset c = bytes_below n (as_log s);
  cr_oooBytes : oooBytes c = bytes_all (as_log s) - bytes_below n (as_log s);
  cr_ooo : ∀ i, ooo c !! i =
             if decide (n <= i) then to_placed <$> log_find i (as_log s) else None;
  cr_buf : buf c = apply_log (as_log s) (replicate (Z.to_nat (as_total s)) Byte.x00) }.

Definition ctx_repr (c : StreamContext) (s : AStream) : Prop :=
  stream_wf s ∧ cursor_repr c s (frontier (as_log s)) ∧
  frontier (as_log s) < as_chunks s.

(** Rewrites the fields of a represented context to the log. *)
Ltac use_repr H :=
  rewrite ?(cr_total _ _ _ H), ?(cr_chunks _ _ _ H), ?(cr_tag _ _ _ H),
    ?(cr_start _ _ _ H), ?(cr_next _ _ _ H), ?(cr_offset _ _ _ H),
    ?(cr_oooBytes _ _ _ H), ?(cr_buf _ _ _ H) in *.

Ltac unfold_max := change kMaxStreamSize with (2 ^ 30) in *.

(** ** Guards *)

Lemma Fits_spec c s n k :
  stream_wf s → cursor_repr c s n → 0 <= k < 2 ^ 32 →
  Fits c k = (bytes_all (as_log s) + k <=? as_total s).
Proof.
  intros Hwf Hr ?. unfold Fits. use_repr Hr. destruct (wf_total s Hwf).
  pose proof (wf_bytes s Hwf). pose proof (bytes_below_nonneg n (as_log s)).
  pose proof (bytes_below_le_all n (as_log s)). unfold_max.
  replace (bytes_below n (as_log s) + (bytes_all (as_log s) - bytes_below n (as_log s)))
    with (bytes_all (as_log s)) by lia.
  rewrite (u64_id (bytes_all _)) by lia. by rewrite u64_id by lia.
Qed.

Lemma InBounds_spec c s n dst k :
  stream_wf s → cursor_repr c s n → 0 <= dst → 0 <= k →
  InBounds c dst k = (dst + k <=? as_total s).
Proof.
  intros Hwf Hr ??. unfold InBounds. use_repr Hr. destruct (wf_total s Hwf).
  unfold_max.
  destruct (Z.ltb_spec (as_total s) dst).
  - symmetry. apply Z.leb_gt. lia.
  - rewrite u64_id by lia. apply Bool.eq_iff_eq_true. rewrite !Z.leb_le. lia.
Qed.

Lemma buf_length c s n :
  stream_wf s → cursor_repr c s n → Z.of_nat (length (buf c)) = as_total s.
Proof.
  intros Hwf Hr. use_repr Hr. rewrite apply_log_length, length_replicate.
  destruct (wf_total s Hwf). lia.
Qed.

(** The write that follows the guards is defined. *)
Lemma Write_spec c s n dst payload :
  stream_wf s → cursor_repr c s n →
  0 <= dst → dst + Z.of_nat (length payload) <= as_total s →
  Write c dst payload = Some (set_buf c (list_inserts (Z.to_nat dst) payload (buf c))).
Proof.
  intros Hwf Hr ??. pose proof (buf_length c s n Hwf Hr). unfold Write.
  destruct payload as [|b payload]; [by destruct c|].
  rewrite memcpy_Some by (simpl in *; lia). done.
Qed.

(** ** The parked records *)

Lemma log_find_filter n i l :
  log_find i (filter (λ a, n <= a_index a) l) =
    if decide (n <= i) then log_find i l else None.
Proof.
  induction l as [|a l IH]; simpl; [by case_decide|].
  rewrite filter_cons. destruct (decide (n <= a_index a)) as [Ha|Ha]; simpl.
  - rewrite IH. destruct (Z.eqb_spec (a_index a) i) as [<-|]; [|done].
    by rewrite decide_True.
  - rewrite IH. destruct (Z.eqb_spec (a_index a) i) as [<-|]; [|done].
    by rewrite !decide_False.
Qed.

Lemma log_find_to_map i l :
  (list_to_map (map (λ a, (a_index a, to_placed a)) l) : gmap Z Placed) !! i =
  to_placed <$> log_find i l.
Proof.
  induction l as [|a l IH]; simpl; [done|].
  destruct (Z.eqb_spec (a_index a) i) as [<-|].
  - by rewrite lookup_insert_eq.
  - by rewrite lookup_insert_ne.
Qed.

Lemma ooo_size c s n :
  stream_wf s → cursor_repr c s n →
  size (ooo c) = length (filter (λ a, n <= a_index a) (as_log s)).
Proof.
  intros Hwf Hr.
  assert (ooo c = list_to_map (map (λ a, (a_index a, to_placed a))
                    (filter (λ a, n <= a_index a) (as_log s)))) as ->.
  { apply map_eq. intros i. rewrite (cr_ooo _ _ _ Hr), log_find_to_map, log_find_filter.
    by case_decide. }
  rewrite map_size_list_to_map; [by rewrite length_map|].
  rewrite map_map. simpl. eapply sublist_NoDup; [apply (wf_nodup s Hwf)|].
  apply fmap_sublist, sublist_filter.
Qed.

(** ** Accepting a chunk *)

Definition add_arrival (s : AStream) (a : Arrival) : AStream :=
  mkAStream (as_total s) (as_chunks s) (as_tag s) (as_start s) (as_log s ++ [a]).

Lemma stream_wf_add s a :
  stream_wf s → 0 <= a_index a < as_chunks s → log_find (a_index a) (as_log s) = None →
  bytes_all (as_log s ++ [a]) <= as_total s →
  0 <= a_dst a → a_dst a + a_len a <= as_total s →
  stream_wf (add_arrival s a).
Proof.
  intros [] ? Hn ???. constructor; simpl; try done.
  - rewrite map_app. apply NoDup_app. split_and!; [done| |apply NoDup_singleton].
    apply log_find_None in Hn. intros x Hx ->%list_elem_of_singleton. contradiction.
  - apply Forall_app. split; [done|]. by constructor.
  - apply Forall_app. split; [done|]. by constructor.
Qed.

(** The buffer after the write holds the extended log. *)
Definition written (c : StreamContext) (a : Arrival) : StreamContext :=
  set_buf c (list_inserts (Z.to_nat (a_dst a)) (a_payload a) (buf c)).

Lemma placed_ok_app n l a :
  n <= a_index a → placed_ok n l = true → placed_ok n (l ++ [a]) = true.
Proof.
  rewrite !placed_ok_spec. intros Hn H i Hi. destruct (H i Hi) as (b&Hf&Hb).
  exists b. rewrite log_find_app, Hf, bytes_below_app. split; [done|].
  destruct (Z.ltb_spec (a_index a) i); lia.
Qed.

Lemma placed_ok_succ n l a :
  0 <= n → placed_ok n l = true → log_find n l = Some a → a_dst a = bytes_below n l →
  placed_ok (n + 1) l = true.
Proof.
  rewrite !placed_ok_spec. intros ? H Hf Hd i Hi.
  destruct (Z.eq_dec i n) as [->|]; [by exists a|]. apply H. lia.
Qed.

Lemma placed_ok_misplaced n m l a :
  0 <= m < n → log_find m l = Some a → a_dst a ≠ bytes_below m l → placed_ok n l = false.
Proof.
  intros Hm Hf Hd. apply not_true_iff_false. rewrite placed_ok_spec. intros H.
  destruct (H m Hm) as (b&Hb&?). by simplify_eq.
Qed.

Lemma account_spec c s a n :
  stream_wf s → stream_wf (add_arrival s a) → cursor_repr c s n →
  a_index a = n → log_find n (as_log s) = None → a_dst a = bytes_below n (as_log s) →
  cursor_repr (AccountInOrder (written c a) (a_len a)) (add_arrival s a) (n + 1).
Proof.
  intros Hwf Hwf' Hr Hi Hn Hd. destruct (wf_total s Hwf).
  assert (bytes_below n (as_log s ++ [a]) = bytes_below n (as_log s)) as Hb.
  { rewrite bytes_below_app. destruct (Z.ltb_spec (a_index a) n); lia. }
  assert (log_find n (as_log s ++ [a]) = Some a) as Hfa.
  { rewrite log_find_app, Hn, Hi. by rewrite Z.eqb_refl. }
  assert (bytes_below (n + 1) (as_log s ++ [a]) = bytes_below n (as_log s) + a_len a) as Hb1.
  { rewrite (bytes_below_succ _ _ a), Hb by (done || apply (wf_nodup _ Hwf')). done. }
  pose proof (wf_bytes _ Hwf') as Hbytes. simpl in Hbytes. rewrite bytes_all_app in Hbytes.
  pose proof (bytes_below_le_all n (as_log s)). pose proof (bytes_below_nonneg n (as_log s)).
  pose proof (a_len_nonneg a). pose proof (cr_nonneg _ _ _ Hr).
  assert (n < as_chunks s) as Hlt.
  { pose proof (wf_index _ Hwf') as Hx. simpl in Hx. rewrite Forall_app in Hx.
    destruct Hx as [_ Hx]. rewrite Forall_singleton in Hx. lia. }
  destruct (wf_chunks s Hwf). unfold_max.
  constructor; simpl; use_repr Hr; try done; try lia.
  - apply u32_id. lia.
  - apply (placed_ok_succ n _ a); [lia| |done|lia].
    apply placed_ok_app; [lia|apply Hr].
  - rewrite u64_id by lia. lia.
  - rewrite bytes_all_app. lia.
  - intros i. rewrite (cr_ooo _ _ _ Hr), log_find_app.
    destruct (decide (n + 1 <= i)), (decide (n <= i)); try done; try lia.
    + destruct (log_find i (as_log s)); [done|].
      destruct (Z.eqb_spec (a_index a) i); [lia|done].
    + assert (i = n) as -> by lia. by rewrite Hn.
  - by rewrite apply_log_app.
Qed.

Lemma note_spec c s a n :
  stream_wf s → stream_wf (add_arrival s a) → cursor_repr c s n →
  n < a_index a → log_find (a_index a) (as_log s) = None →
  cursor_repr (set_ooo (written c a) (<[a_index a := to_placed a]> (ooo c))
                 (u64 (oooBytes c + a_len a))) (add_arrival s a) n.
Proof.
  intros Hwf Hwf' Hr Hi Hn. destruct (wf_total s Hwf).
  assert (bytes_below n (as_log s ++ [a]) = bytes_below n (as_log s)) as Hb.
  { rewrite bytes_below_app. destruct (Z.ltb_spec (a_index a) n); lia. }
  pose proof (wf_bytes _ Hwf') as Hbytes. simpl in Hbytes. rewrite bytes_all_app in Hbytes.
  pose proof (bytes_below_le_all n (as_log s)). pose proof (bytes_below_nonneg n (as_log s)).
  pose proof (a_len_nonneg a). unfold_max.
  constructor; simpl; use_repr Hr; try done.
  - apply Hr.
  - apply placed_ok_app; [lia|apply Hr].
  - rewrite Hb, bytes_all_app, u64_id; lia.
  - intros i. rewrite log_find_app. destruct (Z.eqb_spec (a_index a) i) as [<-|].
    + rewrite lookup_insert_eq, Hn, decide_True by lia. done.
    + rewrite lookup_insert_ne, (cr_ooo _ _ _ Hr) by done. case_decide; [|done].
      by destruct (log_find i (as_log s)).
  - by rewrite apply_log_app.
Qed.

(** ** The drain loop *)

Lemma drain_step c s n p :
  stream_wf s → cursor_repr c s n → ooo c !! n = Some p → p_dstOffset p = offset c →
  cursor_repr
    (AccountInOrder (set_ooo c (delete n (ooo c)) (u64 (oooBytes c - p_size p))) (p_size p))
    s (n + 1).
Proof.
  intros Hwf Hr Hp Hd. rewrite (cr_ooo _ _ _ Hr), decide_True in Hp by lia.
  destruct (log_find n (as_log s)) as [a|] eqn:Hf; [|done]. simplify_eq/=.
  pose proof (bytes_below_succ n _ a (wf_nodup s Hwf) Hf) as Hsucc.
  pose proof (bytes_below_le_all (n + 1) (as_log s)).
  pose proof (bytes_below_nonneg n (as_log s)). pose proof (a_len_nonneg a).
  pose proof (wf_bytes s Hwf). destruct (wf_total s Hwf), (wf_chunks s Hwf).
  pose proof (log_find_elem _ _ _ Hf) as Hin. pose proof (wf_index s Hwf) as Hrange.
  rewrite Forall_forall in Hrange. specialize (Hrange a Hin).
  rewrite (log_find_index _ _ _ Hf) in Hrange. unfold_max.
  constructor; simpl; use_repr Hr; try done; try lia.
  - apply u32_id. lia.
  - apply (placed_ok_succ n _ a); [lia|apply Hr|done|lia].
  - rewrite u64_id by lia. lia.
  - rewrite u64_id by lia. lia.
  - intros i. destruct (decide (i = n)) as [->|].
    + rewrite lookup_delete_eq, decide_False by lia. done.
    + rewrite lookup_delete_ne, (cr_ooo _ _ _ Hr) by done.
      destruct (decide (n + 1 <= i)), (decide (n <= i)); done || lia.
Qed.

(** The loop stops, at the frontier, and finds corruption exactly when some
    index below the frontier was misplaced. *)
Lemma drain_spec fuel : ∀ c s n,
  stream_wf s → cursor_repr c s n → (size (ooo c) < fuel)%nat →
  ∃ c', drain fuel c = Some (c', negb (placed_ok (frontier (as_log s)) (as_log s))) ∧
    (placed_ok (frontier (as_log s)) (as_log s) = true →
     cursor_repr c' s (frontier (as_log s))).
Proof.
  induction fuel as [|fuel IH]; intros c s n Hwf Hr Hfuel; [lia|]. simpl.
  rewrite (cr_next _ _ _ Hr). destruct (ooo c !! n) as [p|] eqn:Hp.
  - pose proof Hp as Hfind. rewrite (cr_ooo _ _ _ Hr), decide_True in Hfind by lia.
    destruct (log_find n (as_log s)) as [a|] eqn:Hf; [|done]. simplify_eq/=.
    destruct (Z.eqb_spec (a_dst a) (offset c)) as [Hd|Hd]; simpl.
    + apply (IH _ s (n + 1)); [done| |].
      * by apply (drain_step c s n (to_placed a)).
      * simpl. rewrite map_size_delete_Some by eauto.
        assert (size (ooo c) ≠ 0%nat); [|lia].
        apply map_size_non_empty_iff. intros E. by rewrite E in Hp.
    + assert (placed_ok (frontier (as_log s)) (as_log s) = false) as ->.
      { apply (placed_ok_misplaced _ n _ a); [|done|by use_repr Hr].
        split; [apply Hr|]. destruct (frontier_is_frontier (as_log s)) as (?&_&Hnot).
        destruct (decide (n < frontier (as_log s))) as [|Hge]; [done|].
        destruct Hnot. destruct (decide (frontier (as_log s) = n)) as [->|].
        - by eapply log_find_has.
        - apply (placed_ok_has n); [apply Hr|lia]. }
      eexists. split; [done|]. done.
  - assert (is_frontier (as_log s) n) as Hfr.
    { rewrite (cr_ooo _ _ _ Hr), decide_True, fmap_None in Hp by lia.
      split_and!; [apply Hr| |by apply log_find_None].
      intros i. apply placed_ok_has, Hr. }
    apply frontier_eq in Hfr. rewrite Hfr, (cr_placed _ _ _ Hr). by exists c.
Qed.

(** ** One chunk *)

(** The index of an accepted chunk is at or above the frontier. *)
Lemma fresh_ge_frontier s i :
  0 <= i → log_find i (as_log s) = None → i ≠ frontier (as_log s) → frontier (as_log s) < i.
Proof.
  intros ? Hn%log_find_None ?. destruct (frontier_is_frontier (as_log s)) as (_&Hb&_).
  destruct (decide (frontier (as_log s) < i)) as [|]; [done|]. destruct Hn. apply Hb. lia.
Qed.

(** What [PlaceChunk] must leave behind for each verdict. *)
Definition placed_as (s : AStream) (c : StreamContext) (corrupt : bool) (v : verdict) : Prop :=
  match v with
  | VReject | VIgnore => False
  | VDrop => corrupt = true ∨ next c = totalChunks c ∧ offset c ≠ totalSize c
  | VKeep l => corrupt = false ∧
      ctx_repr c (mkAStream (as_total s) (as_chunks s) (as_tag s) (as_start s) l)
  | VDeliver d => corrupt = false ∧ next c = totalChunks c ∧ offset c = totalSize c ∧
      appMsgType c = as_tag s ∧ buf c = d
  end.

(** In-order arrival: account, drain, and decide completion. *)
Lemma in_order_spec c s a :
  stream_wf s → stream_wf (add_arrival s a) → ctx_repr c s →
  a_index a = frontier (as_log s) → log_find (a_index a) (as_log s) = None →
  a_dst a = bytes_below (frontier (as_log s)) (as_log s) →
  ∃ c' corrupt, drain_all (AccountInOrder (written c a) (a_len a)) = Some (c', corrupt) ∧
    placed_as s c' corrupt
      (let l' := as_log s ++ [a] in
       if negb (placed_ok (frontier l') l') then VDrop
       else if frontier l' =? as_chunks s then
         if bytes_all l' =? as_total s then VDeliver (assemble (as_chunks s) l') else VDrop
       else VKeep l').
Proof.
  intros Hwf Hwf' (_&Hr&_) Hi Hn Hd. rewrite Hi in Hn.
  pose proof (account_spec c s a _ Hwf Hwf' Hr Hi Hn Hd) as Hacc.
  destruct (drain_spec (S (size (ooo (AccountInOrder (written c a) (a_len a))))) _ _ _ Hwf' Hacc)
    as (c'&Hdr&Hc'); [lia|]. simpl as_log in *. set (l' := as_log s ++ [a]) in *.
  exists c', (negb (placed_ok (frontier l') l')). split; [exact Hdr|]. simpl.
  destruct (placed_ok (frontier l') l') eqn:Hok; simpl; [|by left].
  specialize (Hc' eq_refl). pose proof (wf_index _ Hwf') as Hrange. simpl in Hrange.
  assert (frontier l' <= as_chunks s) as Hle.
  { apply frontier_le_chunks; [|destruct (wf_chunks s Hwf); lia].
    eapply Forall_impl; [apply Hrange|]. naive_solver lia. }
  assert (Forall (λ x, a_index x < as_chunks s) l') as Hlt.
  { eapply Forall_impl; [apply Hrange|]. naive_solver lia. }
  destruct (Z.eqb_spec (frontier l') (as_chunks s)) as [Hfin|Hfin].
  - rewrite Hfin in *.
    assert (offset c' = bytes_all l') as Hoff.
    { rewrite (cr_offset _ _ _ Hc'). by apply bytes_below_all. }
    destruct (Z.eqb_spec (bytes_all l') (as_total s)) as [Hb|Hb]; simpl.
    + split_and!; [done| | | |].
      * by rewrite (cr_next _ _ _ Hc'), (cr_chunks _ _ _ Hc').
      * rewrite Hoff, (cr_total _ _ _ Hc'). done.
      * by rewrite (cr_tag _ _ _ Hc').
      * rewrite (cr_buf _ _ _ Hc'). apply tiled_assemble; simpl.
        -- split_and!; [destruct (wf_chunks s Hwf); lia|apply (wf_nodup _ Hwf')|done|done].
        -- rewrite length_replicate. destruct (wf_total s Hwf). fold l'. lia.
    + right. rewrite Hoff, (cr_next _ _ _ Hc'), (cr_chunks _ _ _ Hc'), (cr_total _ _ _ Hc').
      done.
  - split; [done|]. split_and!; [exact Hwf'|exact Hc'|]. simpl. fold l'. lia.
Qed.

Lemma frontier_app_eq l a : a_index a = frontier l → frontier l < frontier (l ++ [a]).
Proof.
  intros Hi. destruct (frontier_is_frontier l) as (?&Hb&_).
  destruct (frontier_is_frontier (l ++ [a])) as (?&_&Hn). rewrite map_app in Hn.
  destruct (decide (frontier l < frontier (l ++ [a]))) as [|Hge]; [done|]. destruct Hn.
  apply elem_of_app. destruct (decide (frontier (l ++ [a]) = frontier l)) as [E|].
  - right. rewrite E, <-Hi. set_solver.
  - left. apply Hb. lia.
Qed.

Lemma misplaced_in_order l a :
  a_index a = frontier l → a_dst a ≠ bytes_below (frontier l) l →
  placed_ok (frontier (l ++ [a])) (l ++ [a]) = false.
Proof.
  intros Hi Hd. pose proof (frontier_app_eq l a Hi).
  destruct (frontier_is_frontier l) as (?&_&Hn).
  apply (placed_ok_misplaced _ (frontier l) _ a).
  - lia.
  - rewrite log_find_app, (proj2 (log_find_None _ _) Hn), Hi. by rewrite Z.eqb_refl.
  - rewrite bytes_below_app. destruct (Z.ltb_spec (a_index a) (frontier l)); lia.
Qed.

Lemma PlaceChunk_spec e cfg c s h payload :
  ctx_repr c s → ChunkHeader_ok h → Z.of_nat (length payload) = ch_payloadSize h →
  ch_chunkIndex h < as_chunks s → log_find (ch_chunkIndex h) (as_log s) = None →
  ∃ c' corrupt, PlaceChunk e cfg c h payload = Some (c', corrupt) ∧
    placed_as s c' corrupt
      (judge_chunk cfg (emplace_ok e) s (mkArrival (ch_chunkIndex h) (ch_dstOffset h) payload)).
Proof.
  intros Hc (_&Hidx&Hps&Hdst&_) Hlen Hlt Hfresh.
  pose proof Hc as (Hwf&Hr&Hfl). set (a := mkArrival _ _ _).
  assert (a_len a = ch_payloadSize h) as Hal by done.
  unfold PlaceChunk, PlaceChunkAt, judge_chunk. cbn [mbind option_bind].
  rewrite (Fits_spec c s _ _ Hwf Hr Hps), (InBounds_spec c s _ _ _ Hwf Hr) by lia.
  change (a_index a) with (ch_chunkIndex h). change (a_dst a) with (ch_dstOffset h).
  unfold log_has. rewrite Hfresh, bytes_all_app, Hal.
  destruct (Z.leb_spec (as_chunks s) (ch_chunkIndex h)) as [?|_]; [lia|].
  destruct (Z.leb_spec (bytes_all (as_log s) + ch_payloadSize h) (as_total s)) as [Hfit|Hfit],
    (Z.ltb_spec (as_total s) (bytes_all (as_log s) + ch_payloadSize h)); try lia; simpl;
    [|by exists c, true; split; [|left]].
  destruct (Z.leb_spec (ch_dstOffset h + ch_payloadSize h) (as_total s)) as [Hin|Hin],
    (Z.ltb_spec (as_total s) (ch_dstOffset h + ch_payloadSize h)); try lia; simpl;
    [|by exists c, true; split; [|left]].
  rewrite (Write_spec c s _ _ _ Hwf Hr) by lia. simpl.
  change (set_buf c _) with (written c a).
  assert (stream_wf (add_arrival s a)) as Hwf'.
  { apply stream_wf_add; simpl; [done|lia|done|rewrite bytes_all_app|lia|]; lia. }
  rewrite (cr_next _ _ _ Hr), (cr_offset _ _ _ Hr).
  destruct (Z.eqb_spec (ch_chunkIndex h) (frontier (as_log s))) as [Hi|Hi].
  - destruct (Z.eqb_spec (ch_dstOffset h) (bytes_below (frontier (as_log s)) (as_log s)))
      as [Hd|Hd]; simpl.
    + rewrite <-Hal, <-bytes_all_app. by apply in_order_spec.
    + rewrite (misplaced_in_order (as_log s) a Hi Hd). simpl.
      exists (written c a), true. split; [done|by left].
  - unfold NotePlaced. simpl ooo. rewrite (ooo_size c s _ Hwf Hr). unfold parked.
    destruct (maxParkedChunks cfg <=? _); simpl; [by exists (written c a), true; split; [|left]|].
    destruct (emplace_ok e); simpl; [|by exists (written c a), true; split; [|left]].
    rewrite (cr_ooo _ _ _ Hr), Hfresh.
    assert (frontier (as_log s) < a_index a) as Hgt by (apply fresh_ge_frontier; simpl; [lia|done..]).
    eexists _, false. split; [|split; [done|]]; [by destruct (decide _)|].
    pose proof (frontier_app_ne (as_log s) a Hi) as Hfr.
    split_and!; [exact Hwf'| |simpl; rewrite Hfr; lia]. simpl. rewrite Hfr.
    rewrite u32_id, <-Hal by lia. exact (note_spec c s a _ Hwf Hwf' Hr Hgt Hfresh).
Qed.

(** ** The whole reassembler *)

Definition repr (r : Reassembler) (m : gmap Z AStream) : Prop :=
  ∀ id, option_Forall2 ctx_repr (streams r !! id) (m !! id).

Definition config_ok (r : Reassembler) : Prop := maxStreamSize (config r) <= kMaxStreamSize.

Inductive outcome_repr (cfg : Config) : outcome → aoutcome → Prop :=
  | or_handled r m reply d :
      config r = cfg → repr r m → outcome_repr cfg (Handled r reply d) (AHandled m reply d)
  | or_not : outcome_repr cfg NotHandled ANotHandled
  | or_throws r m : config r = cfg → repr r m → outcome_repr cfg (Throws r) (AThrows m).

Lemma repr_insert r m id c s :
  repr r m → ctx_repr c s →
  repr (set_streams r (<[id := c]> (streams r))) (<[id := s]> m).
Proof.
  intros Hr Hc id'. simpl. destruct (decide (id = id')) as [<-|].
  - rewrite !lookup_insert_eq. by constructor.
  - rewrite !lookup_insert_ne by done. apply Hr.
Qed.

Lemma repr_delete r m id :
  repr r m → repr (set_streams r (delete id (streams r))) (delete id m).
Proof.
  intros Hr id'. simpl. destruct (decide (id = id')) as [<-|].
  - rewrite !lookup_delete_eq. by constructor.
  - rewrite !lookup_delete_ne by done. apply Hr.
Qed.

Lemma repr_dom r m : repr r m → dom (streams r) = dom m.
Proof.
  intros Hr. apply set_eq. intros id. rewrite !elem_of_dom.
  destruct (Hr id); split; by intros [??].
Qed.

Lemma repr_size r m : repr r m → size (streams r) = size m.
Proof. intros Hr. by rewrite <-!size_dom, (repr_dom r m Hr). Qed.

Lemma repr_None r m id : repr r m → streams r !! id = None ↔ m !! id = None.
Proof. intros Hr. destruct (Hr id); naive_solver. Qed.

Lemma repr_prune r m now :
  repr r m → repr (PruneInternal now r) (APrune (config r) now m).
Proof.
  intros Hr id. simpl. unfold APrune. rewrite !map_lookup_filter.
  destruct (Hr id) as [c s Hc|]; simpl; [|constructor].
  destruct Hc as (Hwf&Hcur&Hlt). rewrite (cr_start _ _ _ Hcur).
  case_guard; simpl; constructor. by split_and!.
Qed.

(** A fresh context represents the empty log. *)
Lemma ctx_repr_fresh h now :
  StreamHeader_ok h → sh_totalSize h <= kMaxStreamSize → sh_totalChunks h ≠ 0 →
  ctx_repr
    (mkContext (sh_totalSize h) (sh_totalChunks h) (sh_appMsgType h) 0 0 0
       (replicate (Z.to_nat (sh_totalSize h)) Byte.x00) ∅ now)
    (mkAStream (sh_totalSize h) (sh_totalChunks h) (sh_appMsgType h) now []).
Proof.
  intros (_&?&?&_) ??. split_and!.
  - constructor; simpl; [lia|lia|constructor|constructor|lia|constructor].
  - constructor; simpl; try done. intros i. rewrite lookup_empty. by case_decide.
  - change (0 < sh_totalChunks h). lia.
Qed.

Lemma HandleStart_refines e r m req :
  config_ok r → repr r m →
  outcome_repr (config r) (HandleStart e r req) (AHandleStart (config r) e m req).
Proof.
  intros Hcfg Hr. unfold HandleStart, HandleStartAt, AHandleStart.
  destruct (_ <? _)%nat; [by constructor|].
  pose proof (StreamHeader_read_ok req) as Hok. set (h := StreamHeader_read req) in *. clearbody h.
  destruct (Z.ltb_spec (maxStreamSize (config r)) (sh_totalSize h)); simpl; [by constructor|].
  destruct (_ <? _); [by constructor|].
  destruct (Z.eqb_spec (sh_totalChunks h) 0) as [Hz|Hz].
  { destruct (sh_totalSize h =? 0); by constructor. }
  pose proof (repr_prune r m (now_prune e) Hr) as Hr1.
  pose proof (repr_size _ _ Hr1) as Hsz. simpl in Hsz. simpl. rewrite Hsz.
  destruct (_ <=? _); simpl; [by constructor|].
  destruct (resize_ok e); simpl; [|by constructor].
  assert (bool_decide (streams (PruneInternal (now_prune e) r) !! sh_streamId h = None) =
          bool_decide (APrune (config r) (now_prune e) m !! sh_streamId h = None)) as Hb.
  { apply bool_decide_ext. by apply repr_None. }
  simpl in Hb. rewrite Hb. destruct (negb (node_ok e) && _); [by constructor|].
  constructor; [done|]. apply repr_insert; [done|]. apply ctx_repr_fresh; [done| |done].
  unfold config_ok in Hcfg. lia.
Qed.

(** The duplicate gate reads the log through the cursor and [ooo]. *)
Lemma duplicate_gate c s i :
  ctx_repr c s → 0 <= i →
  (i <? next c) || bool_decide (is_Some (ooo c !! i)) = log_has i (as_log s).
Proof.
  intros (Hwf&Hr&_) Hi. rewrite (cr_next _ _ _ Hr), (cr_ooo _ _ _ Hr).
  destruct (Z.ltb_spec i (frontier (as_log s))) as [Hlt|Hge]; simpl.
  - symmetry. apply log_has_true. apply (placed_ok_has _ _ _ (cr_placed _ _ _ Hr)). lia.
  - rewrite decide_True by lia. unfold log_has.
    by destruct (log_find i (as_log s)).
Qed.

Lemma HandleChunk_refines e r m req :
  repr r m →
  outcome_repr (config r) (HandleChunk e r req) (AHandleChunk (config r) e m req).
Proof.
  intros Hr. rewrite HandleChunk_eq. unfold AHandleChunk.
  destruct (_ <? _)%nat; [by constructor|].
  pose proof (ChunkHeader_read_ok req) as Hok.
  set (h := ChunkHeader_read req) in *. clearbody h. pose proof Hok as (?&?&?&_).
  rewrite u64_id by (unfold sizeof_ChunkHeader; lia).
  destruct (Z.ltb_spec (Z.of_nat (length req)) (Z.of_nat sizeof_ChunkHeader + ch_payloadSize h));
    [by constructor|].
  pose proof (Hr (ch_streamId h)) as Hid. inversion Hid as [c s Hc Ec Es|]; [|by constructor].
  pose proof Hc as (Hwf&Hcur&_). set (payload := slice _ _ _).
  assert (Z.of_nat (length payload) = ch_payloadSize h) as Hlen.
  { subst payload. rewrite slice_length; lia. }
  rewrite (cr_chunks _ _ _ Hcur), (duplicate_gate c s) by (done || lia).
  destruct (Z.leb_spec (as_chunks s) (ch_chunkIndex h)) as [Hge|Hlt].
  { unfold judge_chunk. simpl. destruct (Z.leb_spec (as_chunks s) (ch_chunkIndex h)); [|lia].
    by constructor. }
  destruct (log_has (ch_chunkIndex h) (as_log s)) eqn:Hdup.
  { unfold judge_chunk. simpl. rewrite Hdup.
    destruct (Z.leb_spec (as_chunks s) (ch_chunkIndex h)); [lia|]. by constructor. }
  apply log_has_false in Hdup.
  destruct (PlaceChunk_spec e (config r) c s h payload Hc Hok Hlen Hlt Hdup)
    as (c'&corrupt&->&Hv).
  destruct (judge_chunk _ _ _ _) as [| | |l|d]; simpl in Hv; try done.
  - destruct Hv as [->|[Hn Ho]].
    + simpl. constructor; [done|]. by apply repr_delete.
    + rewrite (proj2 (Z.eqb_eq _ _) Hn), (proj2 (Z.eqb_neq _ _) Ho).
      destruct corrupt; simpl; (constructor; [done|]); by apply repr_delete.
  - destruct Hv as (->&Hc'). pose proof Hc' as (_&Hcur'&Hlt'). simpl in Hlt'.
    rewrite (cr_next _ _ _ Hcur'), (cr_chunks _ _ _ Hcur'). simpl.
    rewrite (proj2 (Z.eqb_neq _ _)) by lia. constructor; [done|]. by apply repr_insert.
  - destruct Hv as (->&Hn&Ho&Ht&Hb).
    rewrite (proj2 (Z.eqb_eq _ _) Hn), (proj2 (Z.eqb_eq _ _) Ho), Ht, Hb. simpl.
    constructor; [done|]. by apply repr_delete.
Qed.

Lemma Handle_refines e r m mt req :
  config_ok r → repr r m →
  outcome_repr (config r) (Handle e r mt req) (AHandle (config r) e m mt req).
Proof.
  intros. destruct mt; simpl; try constructor.
  - by apply HandleStart_refines.
  - by apply HandleChunk_refines.
Qed.

(** ** Histories of calls *)

Record Call : Type := mkCall { c_env : Env; c_type : MsgType; c_req : list byte }.

(** What the caller of [Handle] sees. *)
Inductive obs : Type :=
  | OReply (reply : MsgType) (dlv : option Delivery)
  | OPass
  | OThrow
  | OUndefined.

Definition step_of (r : Reassembler) (o : outcome) : Reassembler * obs :=
  match o with
  | Handled r' reply d => (r', OReply reply d)
  | NotHandled => (r, OPass)
  | Throws r' => (r', OThrow)
  | Undefined => (r, OUndefined)
  end.

Definition serve1 (r : Reassembler) (c : Call) : Reassembler * obs :=
  step_of r (Handle (c_env c) r (c_type c) (c_req c)).

Fixpoint serve (r : Reassembler) (cs : list Call) : Reassembler * list obs :=
  match cs with
  | [] => (r, [])
  | c :: cs => let '(r1, o) := serve1 r c in
               let '(r2, os) := serve r1 cs in (r2, o :: os)
  end.

Definition astep_of (m : gmap Z AStream) (o : aoutcome) : gmap Z AStream * obs :=
  match o with
  | AHandled m' reply d => (m', OReply reply d)
  | ANotHandled => (m, OPass)
  | AThrows m' => (m', OThrow)
  end.

Definition aserve1 (cfg : Config) (m : gmap Z AStream) (c : Call) : gmap Z AStream * obs :=
  astep_of m (AHandle cfg (c_env c) m (c_type c) (c_req c)).

Fixpoint aserve (cfg : Config) (m : gmap Z AStream) (cs : list Call)
    : gmap Z AStream * list obs :=
  match cs with
  | [] => (m, [])
  | c :: cs => let '(m1, o) := aserve1 cfg m c in
               let '(m2, os) := aserve cfg m1 cs in (m2, o :: os)
  end.

Lemma serve1_refines r m c :
  config_ok r → repr r m →
  (serve1 r c).2 = (aserve1 (config r) m c).2 ∧
  config (serve1 r c).1 = config r ∧ repr (serve1 r c).1 (aserve1 (config r) m c).1.
Proof.
  intros Hcfg Hr. unfold serve1, aserve1.
  by destruct (Handle_refines (c_env c) r m (c_type c) (c_req c) Hcfg Hr).
Qed.

Lemma serve_refines_from cs : ∀ r m,
  config_ok r → repr r m →
  (serve r cs).2 = (aserve (config r) m cs).2 ∧
  config (serve r cs).1 = config r ∧ repr (serve r cs).1 (aserve (config r) m cs).1.
Proof.
  induction cs as [|c cs IH]; intros r m Hcfg Hr; simpl; [done|].
  destruct (serve1_refines r m c Hcfg Hr) as (Ho&Hc&Hr1).
  destruct (serve1 r c) as [r1 o], (aserve1 (config r) m c) as [m1 o']. simpl in *. subst o'.
  destruct (IH r1 m1) as (Hos&Hc2&Hr2); [unfold config_ok in *; by rewrite Hc|done|].
  rewrite Hc in *. destruct (serve r1 cs), (aserve (config r) m1 cs). naive_solver.
Qed.

Lemma make_ok cfg : config_ok (make cfg).
Proof.
  unfold config_ok, make, IsValid. simpl.
  destruct (Z.leb_spec (maxStreamSize cfg) kMaxStreamSize); simpl; lia.
Qed.

Lemma make_repr cfg : repr (make cfg) ∅.
Proof. intros id. simpl. rewrite !lookup_empty. constructor. Qed.

Lemma serve_obs cfg cs : (serve (make cfg) cs).2 = (aserve (config (make cfg)) ∅ cs).2.
Proof. apply serve_refines_from; [apply make_ok|apply make_repr]. Qed.

Lemma serve_repr cfg cs : repr (serve (make cfg) cs).1 (aserve (config (make cfg)) ∅ cs).1.
Proof. apply serve_refines_from; [apply make_ok|apply make_repr]. Qed.

(** A start that announces chunks and no bytes opens a stream of no bytes. *)
Lemma byteless_accepted cfg c :
  byteless_start (c_type c) (c_req c) ≠ false →
  0 <= maxStreamSize cfg → 0 < maxStreams cfg →
  sh_totalChunks (StreamHeader_read (c_req c)) <= maxStreamChunks cfg →
  resize_ok (c_env c) = true → node_ok (c_env c) = true →
  (aserve (config (make cfg)) ∅ [c]).2 = [OReply NORMAL None].
Proof.
  intros Hb Hms Hst Hch Hre Hno. unfold byteless_start in Hb.
  destruct (c_type c) eqn:Ht; try done. apply not_false_is_true in Hb.
  apply andb_prop in Hb as [[Hl Hc]%andb_prop Hs%Z.eqb_eq]. apply negb_true_iff in Hc.
  apply Nat.leb_le in Hl. unfold aserve, aserve1. rewrite Ht. cbn [AHandle].
  unfold AHandleStart. rewrite (proj2 (Nat.ltb_ge _ _) Hl), Hs, Hc, Hre, Hno.
  rewrite (proj2 (Z.ltb_ge _ _)), (proj2 (Z.ltb_ge _ _)) by (unfold make; by case_match).
  cbn [orb negb andb]. unfold APrune. rewrite map_filter_empty, map_size_empty.
  rewrite (proj2 (Z.leb_gt _ _)) by (unfold make; by case_match). done.
Qed.

(** The contract of the specification, with [SHandle] for [AHandle]. *)
Definition sserve1 (cfg : Config) (m : gmap Z AStream) (c : Call) : gmap Z AStream * obs :=
  astep_of m (SHandle cfg (c_env c) m (c_type c) (c_req c)).

Fixpoint sserve (cfg : Config) (m : gmap Z AStream) (cs : list Call)
    : gmap Z AStream * list obs :=
  match cs with
  | [] => (m, [])
  | c :: cs => let '(m1, o) := sserve1 cfg m c in
               let '(m2, os) := sserve cfg m1 cs in (m2, o :: os)
  end.

Definition has_bytes (c : Call) : Prop := byteless_start (c_type c) (c_req c) = false.

Lemma sserve_aserve cfg cs : ∀ m, Forall has_bytes cs → sserve cfg m cs = aserve cfg m cs.
Proof.
  induction cs as [|c cs IH]; intros m Hcs; simpl; [done|].
  apply Forall_cons in Hcs as [Hc Hcs]. unfold sserve1, aserve1, SHandle. rewrite Hc.
  destruct (astep_of _ _) as [m1 o]. by rewrite IH.
Qed.

(** C2: functional refinement.  For every configuration and every history of
    calls (any bytes, any clock, any allocation failure) whose requests nobody
    changes during the call and in which no [STREAM_START] announces chunks
    without bytes, a freshly constructed [StreamReassembler] answers exactly as
    the contract of SPECIFICATION.md 3.3.4 ([ReassemblerSpec.SHandle]) does:
    same replies, same deliveries with the same tags and bytes, same exceptions;
    and the contexts it holds afterwards represent the logs of the contract.
    The excluded starts are a real difference: the specification rejects them,
    and a fresh reassembler with room and memory accepts each that keeps the
    limits. *)
Theorem serve_refines cfg cs :
  (Forall has_bytes cs →
   let '(r, os) := serve (make cfg) cs in
   let '(m, os') := sserve (config (make cfg)) ∅ cs in
   os = os' ∧ repr r m) ∧
  (∀ c, ¬ has_bytes c →
   (sserve (config (make cfg)) ∅ [c]).2 = [OReply SYSTEM_ERROR None] ∧
   (0 <= maxStreamSize cfg → 0 < maxStreams cfg →
    sh_totalChunks (StreamHeader_read (c_req c)) <= maxStreamChunks cfg →
    resize_ok (c_env c) = true → node_ok (c_env c) = true →
    (serve (make cfg) [c]).2 = [OReply NORMAL None])).
Proof.
  split; [|intros c Hc; split].
  - intros Hcs. rewrite sserve_aserve by done.
    pose proof (serve_obs cfg cs). pose proof (serve_repr cfg cs).
    by destruct (serve _ _), (aserve _ _ _).
  - apply not_false_is_true in Hc. unfold sserve, sserve1, SHandle. by rewrite Hc.
  - intros. rewrite serve_obs. by apply byteless_accepted.
Qed.

(** A stream of one chunk, and a start that announces two chunks of no bytes. *)
Definition ex_calls : list Call :=
  let e := mkEnv 0 0 true true true in
  [mkCall e STREAM_START (StreamHeader_bytes (mkStreamHeader 5 2 1 9));
   mkCall e STREAM_CHUNK (ChunkHeader_bytes (mkChunkHeader 5 0 2 0 0) ++ [Byte.x61; Byte.x62])].

Definition ex_byteless : Call :=
  mkCall (mkEnv 0 0 true true true) STREAM_START (StreamHeader_bytes (mkStreamHeader 5 0 2 9)).

Lemma serve_refines_witness :
  (serve (make default_Config) ex_calls).2 =
    (sserve (config (make default_Config)) ∅ ex_calls).2 ∧
  (sserve (config (make default_Config)) ∅ [ex_byteless]).2 = [OReply SYSTEM_ERROR None] ∧
  (serve (make default_Config) [ex_byteless]).2 = [OReply NORMAL None].
Proof.
  destruct (serve_refines default_Config ex_calls) as [H1 H2].
  assert (¬ has_bytes ex_byteless) as Hb by (vm_compute; done).
  split; [|split; [apply (H2 _ Hb)|]].
  - assert (Forall has_bytes ex_calls) as Hc by (repeat constructor; vm_compute; done).
    specialize (H1 Hc). destruct (serve _ _), (sserve _ _ _). apply H1.
  - apply (H2 _ Hb); vm_compute; done.
Defined.
