(* ===== verification/ReassemblerProps.v ===== *)
(** * ReassemblerProps: safety of the reassembler, in terms of wire messages

    Consequences of the refinement of [ReassemblerRefine], stated on histories of
    calls to the concrete [Handle]:

    - whatever the peer sends, a delivered stream is the concatenation of
      payloads that the peer sent for it, in index order, each at the offset the
      peer declared, and it carries the tag of its own [STREAM_START];
    - the memory bounds: number of streams, destination buffers, parked records;
    - duplicates change nothing. *)

From S2P Require Export ReassemblerRefine.

Local Open Scope Z_scope.

(** ** Where delivered bytes come from *)

(** [c] is a well-framed [STREAM_START] with these header fields. *)
Definition start_msg (id total chunks tag : Z) (c : Call) : Prop :=
  c_type c = STREAM_START ∧ (sizeof_StreamHeader ≤ length (c_req c))%nat ∧
  StreamHeader_read (c_req c) = mkStreamHeader id total chunks tag.

(** [c] is a well-framed [STREAM_CHUNK] of stream [id] with this index, declared
    offset and payload. *)
Definition chunk_msg (id i dst : Z) (payload : list byte) (c : Call) : Prop :=
  let h := ChunkHeader_read (c_req c) in
  c_type c = STREAM_CHUNK ∧
  ch_streamId h = id ∧ ch_chunkIndex h = i ∧ ch_dstOffset h = dst ∧
  Z.of_nat sizeof_ChunkHeader + ch_payloadSize h <= Z.of_nat (length (c_req c)) ∧
  payload = slice sizeof_ChunkHeader (Z.to_nat (ch_payloadSize h)) (c_req c).

(** Every in-flight stream is explained by the history [p]: a start and, after
    it, the messages of its log. *)
Definition explained (p : list Call) (id : Z) (s : AStream) : Prop :=
  stream_wf s ∧ ∃ p1 c p2, p = p1 ++ c :: p2 ∧
    start_msg id (as_total s) (as_chunks s) (as_tag s) c ∧
    ∀ a, a ∈ as_log s → ∃ c', c' ∈ p2 ∧ chunk_msg id (a_index a) (a_dst a) (a_payload a) c'.

Definition history_ok (p : list Call) (m : gmap Z AStream) : Prop :=
  ∀ id s, m !! id = Some s → explained p id s.

Lemma explained_snoc p c id s : explained p id s → explained (p ++ [c]) id s.
Proof.
  intros (?&p1&c0&p2&->&?&Hlog). split; [done|]. exists p1, c0, (p2 ++ [c]).
  split_and!; [by rewrite <-app_assoc|done|]. intros a Ha.
  destruct (Hlog a Ha) as (c'&?&?). exists c'. set_solver.
Qed.

(** What [AHandle] can do to the stream table, as rules. *)
Inductive table_step (cfg : Config) (c : Call) (m : gmap Z AStream)
    : gmap Z AStream → option Delivery → Prop :=
  | ts_same : table_step cfg c m m None
  | ts_empty id tag : start_msg id 0 0 tag c →
      table_step cfg c m m (Some (mkDelivery id tag []))
  | ts_prune now : table_step cfg c m (APrune cfg now m) None
  | ts_start id total chunks tag now now' :
      start_msg id total chunks tag c → 0 <= total <= maxStreamSize cfg →
      0 < chunks < 2 ^ 32 → chunks <= maxStreamChunks cfg →
      Z.of_nat (size (APrune cfg now m)) < maxStreams cfg →
      table_step cfg c m (<[id := mkAStream total chunks tag now' []]> (APrune cfg now m)) None
  | ts_chunk id s a alloc v :
      m !! id = Some s → chunk_msg id (a_index a) (a_dst a) (a_payload a) c →
      0 <= a_index a → 0 <= a_dst a → judge_chunk cfg alloc s a = v →
      table_step cfg c m
        match v with
        | VReject | VIgnore => m
        | VDrop | VDeliver _ => delete id m
        | VKeep l => <[id := mkAStream (as_total s) (as_chunks s) (as_tag s) (as_start s) l]> m
        end
        match v with VDeliver d => Some (mkDelivery id (as_tag s) d) | _ => None end.

Definition obs_delivery (o : obs) : option Delivery :=
  match o with OReply _ d => d | _ => None end.

Lemma AHandleStart_rules cfg c m :
  c_type c = STREAM_START →
  let '(m', o) := astep_of m (AHandleStart cfg (c_env c) m (c_req c)) in
  table_step cfg c m m' (obs_delivery o).
Proof.
  intros Ht. unfold AHandleStart.
  destruct (Nat.ltb_spec (length (c_req c)) sizeof_StreamHeader) as [?|Hl]; [constructor|].
  pose proof (StreamHeader_read_ok (c_req c)) as (?&?&?&?).
  destruct (StreamHeader_read (c_req c)) as [id total chunks tag] eqn:Hh. simpl in *.
  destruct (Z.ltb_spec (maxStreamSize cfg) total); simpl; [constructor|].
  destruct (Z.ltb_spec (maxStreamChunks cfg) chunks); simpl; [constructor|].
  destruct (Z.eqb_spec chunks 0) as [->|].
  { destruct (Z.eqb_spec total 0) as [->|]; simpl; constructor. by split_and!. }
  destruct (Z.leb_spec (maxStreams cfg)
              (Z.of_nat (size (APrune cfg (now_prune (c_env c)) m)))); simpl; [constructor|].
  destruct (resize_ok _); simpl; [|constructor].
  destruct (negb (node_ok _) && _); simpl; [constructor|].
  apply (ts_start _ _ _ id total chunks tag); [by split_and!|lia..|done].
Qed.

Lemma AHandleChunk_rules cfg c m :
  c_type c = STREAM_CHUNK →
  let '(m', o) := astep_of m (AHandleChunk cfg (c_env c) m (c_req c)) in
  table_step cfg c m m' (obs_delivery o).
Proof.
  intros Ht. unfold AHandleChunk.
  destruct (_ <? _)%nat; [constructor|].
  destruct (Z.ltb_spec (Z.of_nat (length (c_req c)))
    (Z.of_nat sizeof_ChunkHeader + ch_payloadSize (ChunkHeader_read (c_req c)))); [constructor|].
  destruct (m !! _) as [s|] eqn:Hs; [|constructor].
  pose proof (ChunkHeader_read_ok (c_req c)) as (_&Hix&_&Hds&_).
  set (a := mkArrival _ _ _).
  opose proof (ts_chunk cfg c m _ s a (emplace_ok (c_env c))
    (judge_chunk cfg (emplace_ok (c_env c)) s a) Hs _ _ _ eq_refl) as Hrule;
    [by split_and!|apply Hix|apply Hds|].
  by destruct (judge_chunk cfg (emplace_ok (c_env c)) s a).
Qed.

Lemma aserve1_rules cfg m c :
  let '(m', o) := aserve1 cfg m c in table_step cfg c m m' (obs_delivery o).
Proof.
  unfold aserve1, AHandle. destruct (c_type c) eqn:E; simpl; try constructor.
  - by apply AHandleStart_rules.
  - by apply AHandleChunk_rules.
Qed.

Lemma judge_keep cfg alloc s a l :
  judge_chunk cfg alloc s a = VKeep l →
  l = as_log s ++ [a] ∧ a_index a < as_chunks s ∧ log_find (a_index a) (as_log s) = None ∧
  bytes_all l <= as_total s ∧ a_dst a + a_len a <= as_total s.
Proof.
  unfold judge_chunk. intros H.
  destruct (Z.leb_spec (as_chunks s) (a_index a)); [done|].
  destruct (log_has _ _) eqn:Hf; [done|]. apply log_has_false in Hf.
  destruct (Z.ltb_spec (as_total s) (bytes_all (as_log s ++ [a]))); [done|].
  destruct (Z.ltb_spec (as_total s) (a_dst a + a_len a)); [done|].
  repeat case_match; by simplify_eq.
Qed.

Lemma judge_deliver cfg alloc s a d :
  judge_chunk cfg alloc s a = VDeliver d →
  let l := as_log s ++ [a] in
  d = assemble (as_chunks s) l ∧ frontier l = as_chunks s ∧ bytes_all l = as_total s ∧
  placed_ok (as_chunks s) l = true ∧ a_index a < as_chunks s ∧
  log_find (a_index a) (as_log s) = None ∧ a_dst a + a_len a <= as_total s.
Proof.
  unfold judge_chunk. simpl. intros H.
  destruct (Z.leb_spec (as_chunks s) (a_index a)); [done|].
  destruct (log_has _ _) eqn:Hf; [done|]. apply log_has_false in Hf.
  destruct (Z.ltb_spec (as_total s) (bytes_all (as_log s ++ [a]))); [done|].
  destruct (Z.ltb_spec (as_total s) (a_dst a + a_len a)); [done|].
  destruct (_ =? frontier (as_log s)); [|by destruct (_ || _)].
  destruct (placed_ok _ _) eqn:Hok; [simpl in H|done].
  destruct (Z.eqb_spec (frontier (as_log s ++ [a])) (as_chunks s)) as [Hfr|]; [|done].
  destruct (Z.eqb_spec (bytes_all (as_log s ++ [a])) (as_total s)); [|done].
  simplify_eq. by rewrite Hfr in Hok.
Qed.

Lemma history_ok_step cfg p m c m' d :
  maxStreamSize cfg <= kMaxStreamSize →
  history_ok p m → table_step cfg c m m' d → history_ok (p ++ [c]) m'.
Proof.
  intros Hcfg Hh Hs id s Hid.
  destruct Hs as [| |now|id' total chunks tag now now' Hst ????|id' s' a alloc v Hs' Hc Hi Hd Hj].
  - by apply explained_snoc, Hh.
  - by apply explained_snoc, Hh.
  - apply map_lookup_filter_Some in Hid as [Hid _]. by apply explained_snoc, Hh.
  - apply lookup_insert_Some in Hid as [[-> <-]|[_ Hid]].
    + split.
      * constructor; simpl; [lia|lia|constructor|constructor|lia|constructor].
      * exists p, c, []. split_and!; [done|done|]. by intros a ?%elem_of_nil.
    + apply map_lookup_filter_Some in Hid as [Hid _]. by apply explained_snoc, Hh.
  - destruct v as [| | |l|data]; try (by apply explained_snoc, Hh);
      try (apply lookup_delete_Some in Hid as [_ Hid]; by apply explained_snoc, Hh).
    apply lookup_insert_Some in Hid as [[-> <-]|[_ Hid]]; [|by apply explained_snoc, Hh].
    apply judge_keep in Hj as (->&?&?&?&?).
    destruct (Hh _ _ Hs') as (Hwf&p1&c0&p2&->&Hst&Hlog). split; [by apply stream_wf_add|].
    exists p1, c0, (p2 ++ [c]). split_and!; [by rewrite <-app_assoc|done|]. simpl.
    intros x [Hx| ->%list_elem_of_singleton]%elem_of_app.
    + destruct (Hlog x Hx) as (c'&?&?). exists c'. set_solver.
    + exists c. set_solver.
Qed.

Lemma aserve_app cfg cs cs' : ∀ m,
  aserve cfg m (cs ++ cs') =
    let '(m1, os) := aserve cfg m cs in
    let '(m2, os') := aserve cfg m1 cs' in (m2, os ++ os').
Proof.
  induction cs as [|c cs IH]; intros m; simpl; [by destruct (aserve cfg m cs')|].
  destruct (aserve1 cfg m c) as [m1 o]. rewrite IH.
  destruct (aserve cfg m1 cs) as [m2 os]. by destruct (aserve cfg m2 cs').
Qed.

Lemma history_ok_aserve cfg cs : ∀ p m,
  maxStreamSize cfg <= kMaxStreamSize →
  history_ok p m → history_ok (p ++ cs) (aserve cfg m cs).1.
Proof.
  induction cs as [|c cs IH]; intros p m Hcfg Hh; simpl; [by rewrite app_nil_r|].
  pose proof (aserve1_rules cfg m c) as Hr. destruct (aserve1 cfg m c) as [m1 o].
  specialize (IH (p ++ [c]) m1 Hcfg (history_ok_step _ _ _ _ _ _ Hcfg Hh Hr)).
  rewrite <-app_assoc in IH. by destruct (aserve cfg m1 cs).
Qed.

Lemma history_ok_reachable cfg cs :
  history_ok cs (aserve (config (make cfg)) ∅ cs).1.
Proof.
  apply (history_ok_aserve _ cs []); [apply make_ok|]. intros id s H.
  by rewrite lookup_empty in H.
Qed.

Lemma assemble_length l k n :
  NoDup (map a_index l) → Forall (λ a, 0 <= a_index a) l → placed_ok n l = true →
  Z.of_nat k <= n →
  Z.of_nat (length (assemble (Z.of_nat k) l)) = bytes_below (Z.of_nat k) l.
Proof.
  intros Hnd Hpos Hok. induction k as [|k IH]; intros Hk.
  { by rewrite bytes_below_zero. }
  destruct (proj1 (placed_ok_spec n l) Hok (Z.of_nat k)) as (a&Hf&_); [lia|].
  rewrite Nat2Z.inj_succ, <-Z.add_1_r.
  rewrite (assemble_succ _ _ a), (bytes_below_succ _ _ a), length_app by (done || lia).
  unfold a_len. lia.
Qed.

(** The payloads of a complete log, in index order. *)
Definition payloads (n : Z) (l : list Arrival) : list (list byte) :=
  map (λ i, default [] (a_payload <$> log_find i l)) (seqZ 0 n).

Lemma take_payloads n l i :
  0 <= n → Z.of_nat i <= n → take i (payloads n l) = payloads (Z.of_nat i) l.
Proof.
  intros ??. unfold payloads. rewrite <-fmap_take. f_equal.
  replace n with (Z.of_nat i + (n - Z.of_nat i)) by lia.
  rewrite seqZ_app, take_app_le by (rewrite ?length_seqZ; lia).
  apply take_ge. rewrite length_seqZ. lia.
Qed.

Lemma payloads_lookup n l i p :
  placed_ok n l = true → payloads n l !! i = Some p →
  ∃ a, log_find (Z.of_nat i) l = Some a ∧ a_dst a = bytes_below (Z.of_nat i) l ∧
       a_payload a = p ∧ Z.of_nat i < n.
Proof.
  intros Hok Hp. unfold payloads in Hp. apply list_lookup_fmap_Some in Hp as (j&->&Hj).
  apply lookup_seqZ in Hj as [-> Hlt]. rewrite placed_ok_spec in Hok.
  destruct (Hok (0 + Z.of_nat i)) as (a&Hf&Hd); [lia|]. rewrite Hf. simpl.
  exists a. rewrite Z.add_0_l in *. done.
Qed.

(** A complete log is a sequence of payloads, each where it was declared to be. *)
Lemma whole_log s (pays := payloads (as_chunks s) (as_log s)) :
  stream_wf s → placed_ok (as_chunks s) (as_log s) = true →
  bytes_all (as_log s) = as_total s →
  assemble (as_chunks s) (as_log s) = concat pays ∧
  Z.of_nat (length pays) = as_chunks s ∧ Z.of_nat (length (concat pays)) = as_total s ∧
  ∀ i p, pays !! i = Some p → ∃ a, a ∈ as_log s ∧ a_index a = Z.of_nat i ∧
    a_dst a = Z.of_nat (length (concat (take i pays))) ∧ a_payload a = p.
Proof.
  intros Hwf Hok Hall. set (l := as_log s) in *. destruct (wf_chunks s Hwf).
  pose proof (wf_nodup _ Hwf) as Hnd. pose proof (wf_index _ Hwf) as Hix. fold l in Hnd, Hix.
  assert (Forall (λ x, 0 <= a_index x) l) as Hpos.
  { eapply Forall_impl; [apply Hix|]. naive_solver lia. }
  split_and!; [done| | |].
  - unfold pays, payloads. rewrite length_map, length_seqZ. lia.
  - pose proof (assemble_length l (Z.to_nat (as_chunks s)) (as_chunks s) Hnd Hpos Hok) as Hl.
    rewrite Z2Nat.id in Hl by lia. change (concat pays) with (assemble (as_chunks s) l).
    rewrite Hl, bytes_below_all by (lia || (eapply Forall_impl; [apply Hix|]; naive_solver lia)). done.
  - intros i p Hp. destruct (payloads_lookup _ _ _ _ Hok Hp) as (x&Hf&Hd'&<-&Hlt').
    exists x. unfold pays. rewrite take_payloads by lia.
    change (concat (payloads ?n ?k)) with (assemble n k).
    rewrite (assemble_length l i (as_chunks s) Hnd Hpos Hok), <-Hd' by lia.
    split_and!; [by eapply log_find_elem|by eapply log_find_index|done|done].
Qed.

Lemma step_delivery cfg p m c m' d :
  history_ok p m → table_step cfg c m m' (Some d) →
  (start_msg (d_streamId d) 0 0 (d_appMsgType d) c ∧ d_data d = []) ∨
  ∃ p1 c0 p2 total chunks pays, p = p1 ++ c0 :: p2 ∧
    start_msg (d_streamId d) total chunks (d_appMsgType d) c0 ∧
    Z.of_nat (length pays) = chunks ∧ d_data d = concat pays ∧
    Z.of_nat (length (d_data d)) = total ∧
    ∀ i payload, pays !! i = Some payload → ∃ c', c' ∈ p2 ++ [c] ∧
      chunk_msg (d_streamId d) (Z.of_nat i)
        (Z.of_nat (length (concat (take i pays)))) payload c'.
Proof.
  intros Hh Hs. inversion Hs as [|id tag Hst| | |id s a alloc v Hs' Hc Hi Hd Hj Hm Hdv];
    simplify_eq/=; [by left|right].
  destruct (judge_chunk cfg alloc s a) as [| | | |data] eqn:Hj; simplify_eq/=.
  apply judge_deliver in Hj as (->&Hfr&Hall&Hok&Hlt&Hfresh&Hin). set (l := as_log s ++ [a]) in *.
  destruct (Hh _ _ Hs') as (Hwf&p1&c0&p2&->&Hst&Hlog).
  assert (stream_wf (add_arrival s a)) as Hwf' by
    (apply stream_wf_add; first [done|unfold l in *; lia]).
  destruct (whole_log (add_arrival s a) Hwf' Hok Hall) as (Has&Hn&Hlen&Hpay).
  exists p1, c0, p2, (as_total s), (as_chunks s), (payloads (as_chunks s) l).
  split_and!; [done|done|done|done|exact Hlen|].
  intros i payload Hp. destruct (Hpay i payload Hp) as (x&Hx&<-&Hdst&<-).
  change (payloads (as_chunks s) l) with (payloads (as_chunks (add_arrival s a)) (as_log (add_arrival s a))).
  rewrite <- Hdst.
  apply elem_of_app in Hx as [Hx| ->%list_elem_of_singleton].
  - destruct (Hlog x Hx) as (c'&?&?). exists c'. set_solver.
  - exists c. set_solver.
Qed.

(** C17: no garbled data, whatever the peer sends (and does not change
    while it is handled).  If a call makes the reassembler deliver a stream, then either the call is an empty
    [STREAM_START], or an earlier [STREAM_START] of that stream announced
    [total] bytes in [chunks] chunks and the tag that is delivered, and the
    delivered data is the concatenation of [chunks] payloads of [total] bytes in
    all, where payload [i] was carried by a [STREAM_CHUNK] received since for
    index [i] whose [dstOffset] is the length of the payloads before it. *)
Theorem delivery_justified cfg p c os reply d :
  (serve (make cfg) (p ++ [c])).2 = os ++ [OReply reply (Some d)] →
  (start_msg (d_streamId d) 0 0 (d_appMsgType d) c ∧ d_data d = []) ∨
  ∃ p1 c0 p2 total chunks pays, p = p1 ++ c0 :: p2 ∧
    start_msg (d_streamId d) total chunks (d_appMsgType d) c0 ∧
    Z.of_nat (length pays) = chunks ∧ d_data d = concat pays ∧
    Z.of_nat (length (d_data d)) = total ∧
    ∀ i payload, pays !! i = Some payload → ∃ c', c' ∈ p2 ++ [c] ∧
      chunk_msg (d_streamId d) (Z.of_nat i)
        (Z.of_nat (length (concat (take i pays)))) payload c'.
Proof.
  rewrite serve_obs, aserve_app. set (cfg' := config (make cfg)).
  pose proof (history_ok_reachable cfg p) as Hh. fold cfg' in Hh.
  destruct (aserve cfg' ∅ p) as [m os1]. simpl in *.
  pose proof (aserve1_rules cfg' m c) as Hr. destruct (aserve1 cfg' m c) as [m' o]. simpl.
  intros [-> [= ->]]%app_inj_tail. exact (step_delivery _ _ _ _ _ _ Hh Hr).
Qed.

(** A history whose last call delivers: [cfg] is the default configuration and
    the two chunks arrive in reverse order. *)
Definition ex_env : Env := mkEnv 0 0 true true true.
Definition ex_bytes : list byte := [Byte.x61; Byte.x62; Byte.x63].
Definition ex_start : Call :=
  mkCall ex_env STREAM_START (StreamHeader_bytes (mkStreamHeader 7 3 2 9)).
Definition ex_chunk0 : Call :=
  mkCall ex_env STREAM_CHUNK
    (ChunkHeader_bytes (mkChunkHeader 7 0 2 0 0) ++ [Byte.x61; Byte.x62]).
Definition ex_chunk1 : Call :=
  mkCall ex_env STREAM_CHUNK (ChunkHeader_bytes (mkChunkHeader 7 1 1 2 0) ++ [Byte.x63]).

Lemma delivery_justified_witness :
  (start_msg 7 0 0 9 ex_chunk0 ∧ ex_bytes = []) ∨
  ∃ p1 c0 p2 total chunks pays, [ex_start; ex_chunk1] = p1 ++ c0 :: p2 ∧
    start_msg 7 total chunks 9 c0 ∧
    Z.of_nat (length pays) = chunks ∧ ex_bytes = concat pays ∧
    Z.of_nat (length ex_bytes) = total ∧
    ∀ i payload, pays !! i = Some payload → ∃ c', c' ∈ p2 ++ [ex_chunk0] ∧
      chunk_msg 7 (Z.of_nat i) (Z.of_nat (length (concat (take i pays)))) payload c'.
Proof.
  apply (delivery_justified default_Config [ex_start; ex_chunk1] ex_chunk0
    [OReply NORMAL None; OReply NORMAL None] NORMAL (mkDelivery 7 9 ex_bytes)).
  vm_compute. reflexivity.
Defined.

(** ** Memory bounds *)

Lemma parked_keep cfg alloc s a l :
  judge_chunk cfg alloc s a = VKeep l →
  Z.of_nat (length (parked (as_log s))) <= Z.max 0 (maxParkedChunks cfg) →
  Z.of_nat (length (parked l)) <= Z.max 0 (maxParkedChunks cfg).
Proof.
  intros Hj Hb. pose proof (judge_keep _ _ _ _ _ Hj) as (->&_). revert Hj.
  unfold judge_chunk. repeat (case_match; try done); intros _.
  - match goal with H : (_ =? frontier _) = true |- _ => apply Z.eqb_eq in H as Heq end.
    pose proof (frontier_app_eq (as_log s) a Heq). etrans; [|exact Hb]. apply inj_le.
    unfold parked at 1. rewrite filter_app, length_app.
    rewrite (filter_cons_False _ a) by lia. rewrite filter_nil, Nat.add_0_r.
    apply filter_length_mono. lia.
  - match goal with H : (_ =? frontier _) = false |- _ => apply Z.eqb_neq in H as Hne end.
    unfold parked in *. rewrite frontier_app_ne, filter_app, length_app by done.
    match goal with H : _ || _ = false |- _ => apply orb_false_iff in H as [Hlt%Z.leb_gt _] end.
    pose proof (length_filter (λ x, frontier (as_log s) <= a_index x) [a]). simpl in *. lia.
Qed.

Definition bounded (cfg : Config) (m : gmap Z AStream) : Prop :=
  Z.of_nat (size m) <= Z.max 0 (maxStreams cfg) ∧
  ∀ id s, m !! id = Some s →
    as_total s <= maxStreamSize cfg ∧ as_chunks s <= maxStreamChunks cfg ∧
    Z.of_nat (length (parked (as_log s))) <= Z.max 0 (maxParkedChunks cfg).

Lemma bounded_sub cfg m m' : m' ⊆ m → bounded cfg m → bounded cfg m'.
Proof.
  intros Hsub [Hn Hs]. split.
  - apply map_subseteq_size in Hsub. lia.
  - intros id s Hid. by eapply Hs, lookup_weaken.
Qed.

Lemma bounded_step cfg c m m' d : table_step cfg c m m' d → bounded cfg m → bounded cfg m'.
Proof.
  intros Hs Hb.
  destruct Hs as [| |now|id total chunks tag now now' Hst ????|id s a alloc v Hs Hc _ _ Hj].
  - done.
  - done.
  - eapply bounded_sub, Hb. apply map_filter_subseteq.
  - assert (bounded cfg (APrune cfg now m)) as [Hn Hs'].
    { eapply bounded_sub, Hb. apply map_filter_subseteq. }
    split.
    + destruct (APrune cfg now m !! id) as [s|] eqn:E.
      * rewrite (map_size_insert_Some _ _ _) by eauto. done.
      * rewrite map_size_insert_None by done. lia.
    + intros id' s [[-> <-]|[_ ?]]%lookup_insert_Some; [simpl; lia|by eapply Hs'].
  - destruct v as [| | |l|data]; try done; try (eapply bounded_sub, Hb; apply delete_subseteq).
    destruct Hb as [Hn Hb]. destruct (Hb _ _ Hs) as (?&?&?). split.
    + by rewrite (map_size_insert_Some _ _ _) by eauto.
    + intros id' s' [[-> <-]|[_ ?]]%lookup_insert_Some; [|by eapply Hb].
      simpl. eauto using parked_keep.
Qed.

Lemma bounded_aserve cfg cs : ∀ m, bounded cfg m → bounded cfg (aserve cfg m cs).1.
Proof.
  induction cs as [|c cs IH]; intros m Hb; simpl; [done|].
  pose proof (aserve1_rules cfg m c) as Hr. destruct (aserve1 cfg m c) as [m1 o].
  specialize (IH m1 (bounded_step _ _ _ _ _ Hr Hb)). by destruct (aserve cfg m1 cs).
Qed.

(** The residency bounds of a configuration. *)
Definition resident_ok (cfg : Config) (r : Reassembler) : Prop :=
  Z.of_nat (size (streams r)) <= Z.max 0 (maxStreams cfg) ∧
  ∀ id c, streams r !! id = Some c →
    Z.of_nat (length (buf c)) = totalSize c ∧
    totalSize c <= maxStreamSize cfg ∧ totalSize c <= kMaxStreamSize ∧
    0 <= offset c ∧ 0 <= oooBytes c ∧ offset c + oooBytes c <= totalSize c ∧
    0 <= next c < totalChunks c ∧ totalChunks c <= maxStreamChunks cfg ∧
    Z.of_nat (size (ooo c)) <= Z.max 0 (maxParkedChunks cfg).

(** C25: bounded residency.  After any history of calls whose requests nobody
    changes while they are handled, the reassembler holds at most
    [maxStreams] streams; each has a destination buffer of exactly its announced
    [totalSize], which is at most the configured (and clamped) ceiling, hence at
    most 1 GiB; the bytes accounted in and ahead of the cursor never exceed it;
    the cursor is short of [totalChunks], itself within [maxStreamChunks]; and at
    most [maxParkedChunks] records are parked. *)
Theorem residency_bounded cfg cs : resident_ok cfg (serve (make cfg) cs).1.
Proof.
  unfold resident_ok. pose proof (serve_repr cfg cs) as Hr.
  assert (bounded (config (make cfg)) (aserve (config (make cfg)) ∅ cs).1) as [Hn Hb].
  { apply bounded_aserve. split; [rewrite map_size_empty; lia|by intros ??]. }
  rewrite (repr_size _ _ Hr). split.
  { etrans; [exact Hn|]. simpl. by destruct (IsValid cfg). }
  intros id c Hc. specialize (Hr id). rewrite Hc in Hr.
  destruct (_ !! id) as [s|] eqn:Hid in Hr; inversion Hr as [?? (Hwf&Hcur&Hlt)|]; simplify_eq.
  destruct (Hb _ _ Hid) as (Hts&Htc&Hpk). pose proof (make_ok cfg) as Hk. unfold config_ok in Hk.
  rewrite (buf_length _ _ _ Hwf Hcur), (ooo_size _ _ _ Hwf Hcur). use_repr Hcur.
  assert (maxStreamSize (config (make cfg)) <= maxStreamSize cfg ∧
          maxStreamChunks (config (make cfg)) = maxStreamChunks cfg ∧
          maxParkedChunks (config (make cfg)) = maxParkedChunks cfg) as (?&?&?).
  { simpl. unfold IsValid. destruct (Z.leb_spec (maxStreamSize cfg) kMaxStreamSize);
      simpl; lia. }
  pose proof (wf_bytes _ Hwf). pose proof (frontier_nonneg (as_log s)).
  pose proof (bytes_below_nonneg (frontier (as_log s)) (as_log s)).
  pose proof (bytes_below_le_all (frontier (as_log s)) (as_log s)).
  unfold parked in Hpk. split_and!; lia.
Qed.

(** ** Retransmission *)

(** A chunk message passes the two framing checks of [Handle]. *)
Lemma chunk_msg_framed id i dst p c :
  chunk_msg id i dst p c →
  c_type c = STREAM_CHUNK ∧ (length (c_req c) <? sizeof_ChunkHeader)%nat = false ∧
  (Z.of_nat (length (c_req c)) <?
     Z.of_nat sizeof_ChunkHeader + ch_payloadSize (ChunkHeader_read (c_req c))) = false ∧
  u64 (Z.of_nat sizeof_ChunkHeader + ch_payloadSize (ChunkHeader_read (c_req c))) =
    Z.of_nat sizeof_ChunkHeader + ch_payloadSize (ChunkHeader_read (c_req c)).
Proof.
  intros (Ht&_&_&_&Hlen&_). pose proof (ChunkHeader_read_ok (c_req c)) as (_&_&Hps&_).
  split_and!; [done|apply Nat.ltb_ge; lia|apply Z.ltb_ge; lia|].
  apply u64_id. unfold sizeof_ChunkHeader. lia.
Qed.

(** An accepted index of an in-flight stream is answered without any effect. *)
Lemma duplicate_ignored r m id s i dst p c :
  repr r m → m !! id = Some s → i < as_chunks s → log_has i (as_log s) = true →
  chunk_msg id i dst p c → serve1 r c = (r, OReply NORMAL None).
Proof.
  intros Hr Hs Hlt Hhas Hc. destruct (chunk_msg_framed _ _ _ _ _ Hc) as (Ht&Hl&Hf&Hu).
  destruct Hc as (_&Hid&Hi&_). unfold serve1. rewrite Ht, Handle_chunk, HandleChunk_eq. cbn zeta.
  rewrite Hl, Hu, Hf, Hid, Hi. specialize (Hr id). rewrite Hs in Hr.
  inversion Hr as [ctx ? Hctx Hst|]; subst. pose proof Hctx as (_&Hcur&_).
  rewrite (cr_chunks _ _ _ Hcur), (proj2 (Z.leb_gt _ _) Hlt).
  pose proof (ChunkHeader_read_ok (c_req c)) as (_&Hix&_).
  by rewrite (duplicate_gate _ _ _ Hctx), Hhas by lia.
Qed.

Lemma accepted_recorded cfg m id i dst p c m' :
  chunk_msg id i dst p c → aserve1 cfg m c = (m', OReply NORMAL None) →
  ∃ s, m' !! id = Some s ∧ i < as_chunks s ∧ log_has i (as_log s) = true.
Proof.
  intros Hc. destruct (chunk_msg_framed _ _ _ _ _ Hc) as (Ht&Hl&Hf&_).
  destruct Hc as (_&Hid&Hi&Hd&_&Hp). unfold aserve1. rewrite Ht. simpl. unfold AHandleChunk.
  rewrite Hl, Hf, Hid, Hi, Hd, <-Hp.
  destruct (m !! id) as [s|] eqn:Hs; [|done]. set (a := mkArrival i dst p).
  destruct (judge_chunk _ _ s a) as [| | |l|] eqn:Hj; intros [= <-].
  - revert Hj. unfold judge_chunk. simpl. destruct (Z.leb_spec (as_chunks s) i); [done|].
    destruct (log_has i (as_log s)) eqn:?; [eauto|]. by repeat case_match.
  - apply judge_keep in Hj as (->&?&_). rewrite lookup_insert_eq. eexists; split_and!; [done..|].
    simpl. apply log_has_true. rewrite map_app. set_solver.
Qed.

(** C28: retransmission is harmless.  If, after any history (of requests that
    nobody changes while they are handled), a chunk is accepted
    and its stream stays in flight, then any further well-framed chunk for the
    same stream and index, with whatever offset and payload, is acknowledged and
    leaves the whole state (buffer, cursor, counters, records) as it is. *)
Theorem retransmission_idempotent cfg cs id i dst p c dst' p' c' r1 :
  chunk_msg id i dst p c → chunk_msg id i dst' p' c' →
  serve1 (serve (make cfg) cs).1 c = (r1, OReply NORMAL None) →
  serve1 r1 c' = (r1, OReply NORMAL None).
Proof.
  intros Hc Hc' Hs. destruct (serve_refines_from cs (make cfg) ∅) as (_&Hcfg&Hr);
    [apply make_ok|apply make_repr|].
  destruct (serve1_refines _ _ c ltac:(unfold config_ok; rewrite Hcfg; apply make_ok) Hr)
    as (Ho&_&Hr1).
  rewrite Hs in Ho, Hr1. simpl in *. destruct (aserve1 _ _ c) as [m1 o] eqn:Ha. simpl in *. subst o.
  destruct (accepted_recorded _ _ _ _ _ _ _ _ Hc Ha) as (s&?&?&?).
  by eapply duplicate_ignored.
Qed.

(** The second chunk of the example again, with another payload. *)
Definition ex_chunk1' : Call :=
  mkCall ex_env STREAM_CHUNK (ChunkHeader_bytes (mkChunkHeader 7 1 1 0 0) ++ [Byte.x7a]).

Lemma retransmission_idempotent_witness :
  let r1 := (serve (make default_Config) [ex_start; ex_chunk1]).1 in
  serve1 r1 ex_chunk1' = (r1, OReply NORMAL None).
Proof.
  apply (retransmission_idempotent default_Config [ex_start] 7 1 2 [Byte.x63] ex_chunk1
           0 [Byte.x7a] ex_chunk1').
  - vm_compute. split_and!; first [reflexivity|discriminate].
  - vm_compute. split_and!; first [reflexivity|discriminate].
  - vm_compute. reflexivity.
Defined.
