(* ===== verification/ReassemblerFetch.v ===== *)
(** * ReassemblerFetch: a peer that writes to its request during the call

    [Handle] reads the header of a request in shared memory once for every use, so
    what a bounds check saw and what the copy behind it uses are different reads.
    The file has histories of calls in which every read has contents of its own
    ([serveAt]) and settles which changes are harmless: all but those of the size
    and offset fields between their check and their use. *)

From S2P Require Export ReassemblerProps.

Local Open Scope Z_scope.

Record CallAt : Type := mkCallAt { ca_env : Env; ca_view : View }.

Definition serveAt1 (r : Reassembler) (c : CallAt) : Reassembler * obs :=
  step_of r (HandleAt (ca_env c) r (ca_view c)).

Fixpoint serveAt (r : Reassembler) (cs : list CallAt) : Reassembler * list obs :=
  match cs with
  | [] => (r, [])
  | c :: cs => let '(r1, o) := serveAt1 r c in
               let '(r2, os) := serveAt r1 cs in (r2, o :: os)
  end.

(** A call of [ReassemblerRefine.serve]: nobody writes to the request. *)
Definition at_rest (c : Call) : CallAt := mkCallAt (c_env c) (still (c_type c) (c_req c)).

Lemma serveAt_rest cs : ∀ r, serveAt r (map at_rest cs) = serve r cs.
Proof.
  induction cs as [|c cs IH]; intros r; simpl; [done|].
  change (serveAt1 r (at_rest c)) with (serve1 r c). destruct (serve1 r c) as [r1 o].
  by rewrite IH.
Qed.

(** ** Which reads have to agree *)

(** The copy of a chunk uses the offset and the size that were checked, and the
    buffer of a new stream gets the size that its context records. *)
Definition settled (v : View) : Prop :=
  let s k := StreamHeader_read (v_start v k) in
  let h k := ChunkHeader_read (v_chunk v k) in
  sh_totalSize (s SrResize) = sh_totalSize (s SrSize) ∧
  ch_dstOffset (h CrWriteDst) = ch_dstOffset (h CrBoundsDst) ∧
  ch_payloadSize (h CrWriteSize) = ch_payloadSize (h CrLength) ∧
  ch_payloadSize (h CrWriteSize) = ch_payloadSize (h CrBoundsSize).

Lemma still_settled t req : settled (still t req).
Proof. done. Qed.

(** ** The invariant: a buffer has the size its context records *)

Definition sized (c : StreamContext) : Prop :=
  Z.of_nat (length (buf c)) = totalSize c ∧ is_u64 (totalSize c).

Definition all_sized (r : Reassembler) : Prop :=
  ∀ id c, streams r !! id = Some c → sized c.

Lemma drain_total fuel : ∀ c,
  (size (ooo c) < fuel)%nat → sized c →
  ∃ c' corrupt, drain fuel c = Some (c', corrupt) ∧ sized c'.
Proof.
  induction fuel as [|fuel IH]; intros c Hf Hc; [lia|]. simpl.
  destruct (ooo c !! next c) as [p|] eqn:Hp; [|by eexists _, _].
  destruct (negb _); [by eexists _, _|]. apply IH; [|done].
  pose proof (map_size_ne_0_lookup_2 _ _ (mk_is_Some _ _ Hp)).
  cbn. rewrite map_size_delete_Some by eauto. lia.
Qed.

Lemma Write_total c dst data :
  sized c → 0 <= dst → dst + Z.of_nat (length data) <= totalSize c →
  ∃ c', Write c dst data = Some c' ∧ sized c'.
Proof.
  intros Hc Hd Hb. unfold Write. destruct data as [|b data]; [by eexists|].
  destruct Hc as [Hl Hu]. rewrite memcpy_Some by lia. eexists. split; [done|].
  split; [|done]. cbn [buf set_buf totalSize]. by rewrite length_inserts.
Qed.

Lemma InBounds_true c dst n :
  is_u64 (totalSize c) → 0 <= dst → InBounds c dst n = true → dst + n <= totalSize c.
Proof.
  intros Hu Hd. unfold InBounds. destruct (Z.ltb_spec (totalSize c) dst); [done|].
  rewrite u64_id by lia. intros ?%Z.leb_le. lia.
Qed.

Lemma PlaceChunkAt_total e cfg c h data :
  sized c → (∀ k, ChunkHeader_ok (h k)) →
  ch_dstOffset (h CrWriteDst) = ch_dstOffset (h CrBoundsDst) →
  Z.of_nat (length data) <= ch_payloadSize (h CrBoundsSize) →
  ∃ c' corrupt, PlaceChunkAt e cfg c h (Some data) = Some (c', corrupt) ∧ sized c'.
Proof.
  intros Hc Hok Hdst Hlen. unfold PlaceChunkAt.
  destruct (negb (Fits _ _)); cbn [orb]; [by eexists _, _|].
  destruct (InBounds _ _ _) eqn:Hb; cbn [negb]; [|by eexists _, _].
  pose proof (Hok CrBoundsDst) as (_&_&_&Hd&_).
  apply InBounds_true in Hb; [|apply Hc|lia].
  destruct (Write_total c (ch_dstOffset (h CrWriteDst)) data) as (c1&Hw&Hc1); [done|lia..|].
  cbn [mbind option_bind]. rewrite Hw. cbn [mbind option_bind].
  destruct (ch_chunkIndex (h CrIsNext) =? next c1).
  - destruct (negb _); [by eexists _, _|]. apply drain_total; [cbn; lia|done].
  - unfold NotePlaced. destruct (_ <=? _); [by eexists _, _|].
    destruct (negb _); by eexists _, _.
Qed.

Lemma payload_at_Some n len at_ :
  0 <= len → Z.of_nat sizeof_ChunkHeader + len <= Z.of_nat n →
  ∃ data, payload_at n len at_ = Some data ∧ Z.of_nat (length data) <= len.
Proof.
  intros Hl Hn. unfold payload_at. rewrite (proj2 (Z.ltb_ge _ _) Hn). eexists. split; [done|].
  unfold slice. rewrite length_take. lia.
Qed.

(** ** One call *)

(** Names the headers found by the reads of a chunk. *)
Ltac abstract_reads h :=
  repeat match goal with
  | |- context [ChunkHeader_read (?f ?k)] => change (ChunkHeader_read (f k)) with (h k)
  | |- context [λ k, ChunkHeader_read (?f k)] => change (λ k, ChunkHeader_read (f k)) with h
  end; clearbody h.

Definition safe (o : outcome) : Prop :=
  match o with
  | Handled r _ _ | Throws r => all_sized r
  | NotHandled => True
  | Undefined => False
  end.

Lemma all_sized_prune now r : all_sized r → all_sized (PruneInternal now r).
Proof.
  intros H id c. cbn [streams PruneInternal set_streams].
  intros [Hc _]%map_lookup_filter_Some. by apply (H id).
Qed.

Lemma all_sized_insert r id c :
  all_sized r → sized c → all_sized (set_streams r (<[id := c]> (streams r))).
Proof.
  intros H Hc id' c'. cbn [streams set_streams].
  intros [[_ <-]|[_ ?]]%lookup_insert_Some; [done|by apply (H id')].
Qed.

Lemma all_sized_delete r id : all_sized r → all_sized (set_streams r (delete id (streams r))).
Proof.
  intros H id' c'. cbn [streams set_streams]. intros [_ ?]%lookup_delete_Some. by apply (H id').
Qed.

Lemma HandleStartAt_safe e r n at_ :
  sh_totalSize (StreamHeader_read (at_ SrResize)) = sh_totalSize (StreamHeader_read (at_ SrSize)) →
  all_sized r → safe (HandleStartAt e r n at_).
Proof.
  intros Hs Hr. unfold HandleStartAt. pose proof (all_sized_prune (now_prune e) r Hr).
  destruct (_ <? _)%nat; [done|]. destruct (_ || _); [done|].
  destruct (_ =? 0); [by destruct (negb _)|]. destruct (_ <=? _); [done|].
  destruct (negb _); [done|]. destruct (_ && _); [done|].
  apply all_sized_insert; [done|]. pose proof (StreamHeader_read_ok (at_ SrSize)) as (_&?&_).
  split; cbn [buf totalSize]; [|done]. rewrite length_replicate, Hs. lia.
Qed.

Lemma HandleChunkAt_safe e r n at_ :
  let h k := ChunkHeader_read (at_ k) in
  ch_dstOffset (h CrWriteDst) = ch_dstOffset (h CrBoundsDst) →
  ch_payloadSize (h CrWriteSize) = ch_payloadSize (h CrLength) →
  ch_payloadSize (h CrWriteSize) = ch_payloadSize (h CrBoundsSize) →
  all_sized r → safe (HandleChunkAt e r n at_).
Proof.
  intros h. assert (Hok : ∀ k, ChunkHeader_ok (h k)) by (intros; apply ChunkHeader_read_ok).
  unfold HandleChunkAt. abstract_reads h. intros Hd Hl Hb Hr.
  destruct (_ <? _)%nat; [done|]. pose proof (Hok CrLength) as (_&_&Hp&_).
  rewrite u64_id by (unfold sizeof_ChunkHeader; lia).
  destruct (Z.ltb_spec (Z.of_nat n) (Z.of_nat sizeof_ChunkHeader + ch_payloadSize (h CrLength)));
    [done|].
  destruct (streams r !! _) as [ctx|] eqn:Hc; [|done].
  destruct (_ <=? ch_chunkIndex _); [done|]. destruct (_ || _); [done|].
  destruct (payload_at_Some n (ch_payloadSize (h CrWriteSize)) (at_ CrPayload))
    as (data&->&Hlen); [lia..|].
  destruct (PlaceChunkAt_total e (config r) ctx h data) as (c'&corrupt&->&Hc');
    [by apply (Hr _ _ Hc)|done|done|lia|].
  destruct (negb corrupt && _); [|destruct corrupt];
    [destruct (_ =? totalSize _)| |]; cbn [safe];
    first [by apply all_sized_delete|by apply all_sized_insert].
Qed.

Lemma HandleAt_safe e r v : settled v → all_sized r → safe (HandleAt e r v).
Proof.
  intros (Hs&Hd&Hl&Hb) Hr. unfold HandleAt.
  destruct (v_isStart v); try (by apply HandleStartAt_safe);
    destruct (v_isChunk v); try done; by apply HandleChunkAt_safe.
Qed.

(** ** Histories *)

(** C3: memory safety.  In every history of calls (any bytes, any sizes, any
    clock, any allocation failure), also when the peer rewrites the request while
    [Handle] reads it, no call copies outside a destination buffer, reads a
    payload past its request or leaves the drain loop unfinished, and every
    buffer keeps the size its context records, PROVIDED that the size and offset
    fields keep their values from their check to their use: [payloadSize] and
    [dstOffset] of a chunk up to the copy, [totalSize] of a start until the
    buffer is allocated ([settled]).  Stream ids, indices, tags, payload bytes
    and message types may change at any read.  A request that nobody changes is
    a special case; without the proviso the claim is false
    ([chunk_double_fetch]). *)
Theorem serve_defined cfg cs :
  Forall (λ c, settled (ca_view c)) cs →
  (OUndefined ∉ (serveAt (make cfg) cs).2) ∧ all_sized (serveAt (make cfg) cs).1.
Proof.
  assert (all_sized (make cfg)) as Hr by (intros id c; simpl; by rewrite lookup_empty).
  revert Hr. generalize (make cfg). induction cs as [|c cs IH]; intros r Hr Hcs; simpl.
  { split; [apply not_elem_of_nil|done]. }
  apply Forall_cons in Hcs as [Hc Hcs].
  pose proof (HandleAt_safe (ca_env c) r (ca_view c) Hc Hr) as Hs. unfold serveAt1.
  destruct (HandleAt _ _ _) as [r1 reply d| |r1|]; cbn [step_of safe] in *; [| | |done];
    [destruct (IH r1 Hs Hcs)|destruct (IH r Hr Hcs)|destruct (IH r1 Hs Hcs)];
    destruct (serveAt _ cs); (split; [apply not_elem_of_cons; split|]); done.
Qed.

(** A chunk whose stream id, index and payload change while it is handled. *)
Definition ex_restless : View :=
  mkView STREAM_CHUNK STREAM_CHUNK 26 (λ _, [])
    (λ k, match k with
          | CrPayload => ChunkHeader_bytes (mkChunkHeader 7 0 2 0 0) ++ [Byte.x78; Byte.x79]
          | CrIsNext | CrDeliver => ChunkHeader_bytes (mkChunkHeader 8 1 2 0 0) ++ [Byte.x61; Byte.x62]
          | _ => c_req ex_chunk0
          end).

Lemma serve_defined_witness :
  (OUndefined ∉ (serveAt (make default_Config)
     [at_rest ex_start; mkCallAt ex_env ex_restless]).2) ∧
  (serveAt (make default_Config) (map at_rest [ex_start; ex_chunk1; ex_chunk0])).2 =
    [OReply NORMAL None; OReply NORMAL None; OReply NORMAL (Some (mkDelivery 7 9 ex_bytes))].
Proof.
  split; [|rewrite serveAt_rest; vm_compute; reflexivity].
  apply serve_defined. repeat apply Forall_cons_2; [apply still_settled| |apply Forall_nil_2].
  vm_compute. by split_and!.
Defined.

(** ** What happens without the proviso *)

(** C29: the copy uses sizes and offsets that were not the checked ones.  Let a
    chunk of an in-flight stream pass every check of [HandleChunkAt] ([reqSize],
    index, duplicate, [Fits], [InBounds]) with the values found there.  If the
    peer has changed the header when [ctx.Write] reads it, so that the offset and
    the size found then no longer fit the buffer of the stream (or the size passes
    the request), the [memcpy] leaves it: the call has undefined behaviour. *)
Theorem chunk_double_fetch e r n at_ ctx :
  let h k := ChunkHeader_read (at_ k) in
  let dst := ch_dstOffset (h CrWriteDst) in
  let len := ch_payloadSize (h CrWriteSize) in
  (sizeof_ChunkHeader ≤ n)%nat → length (at_ CrPayload) = n →
  Z.of_nat sizeof_ChunkHeader + ch_payloadSize (h CrLength) <= Z.of_nat n →
  streams r !! ch_streamId (h CrFind) = Some ctx →
  ch_chunkIndex (h CrIndexBound) < totalChunks ctx →
  next ctx <= ch_chunkIndex (h CrIndexNext) →
  ooo ctx !! ch_chunkIndex (h CrIndexPlaced) = None →
  Fits ctx (ch_payloadSize (h CrFits)) = true →
  InBounds ctx (ch_dstOffset (h CrBoundsDst)) (ch_payloadSize (h CrBoundsSize)) = true →
  (0 < len ∧ Z.of_nat (length (buf ctx)) < dst + len ∨
   Z.of_nat n < Z.of_nat sizeof_ChunkHeader + len) →
  HandleChunkAt e r n at_ = Undefined.
Proof.
  intros h. assert (Hok : ∀ k, ChunkHeader_ok (h k)) by (intros; apply ChunkHeader_read_ok).
  unfold HandleChunkAt. abstract_reads h.
  intros Hn Hat Hlen Hctx Hix Hnx Hooo Hfits Hin Hout.
  pose proof (Hok CrLength) as (_&_&Hp&_). pose proof (Hok CrWriteSize) as (_&_&Hw&_).
  pose proof (Hok CrWriteDst) as (_&_&_&Hd&_).
  rewrite (proj2 (Nat.ltb_ge _ _) Hn), u64_id by (unfold sizeof_ChunkHeader; lia).
  rewrite (proj2 (Z.ltb_ge _ _) Hlen), Hctx, (proj2 (Z.leb_gt _ _) Hix), (proj2 (Z.ltb_ge _ _) Hnx).
  rewrite Hooo, bool_decide_false by (by intros [? ?]). cbn [orb].
  unfold PlaceChunkAt, payload_at. rewrite Hfits, Hin. cbn [negb orb].
  destruct (Z.ltb_spec (Z.of_nat n) (Z.of_nat sizeof_ChunkHeader + ch_payloadSize (h CrWriteSize)))
    as [|Hle]; [done|].
  destruct Hout as [[Hpos Hout]|]; [|lia]. cbn [mbind option_bind].
  set (data := slice _ _ _).
  assert (length data = Z.to_nat (ch_payloadSize (h CrWriteSize))) as Hdl by (apply slice_length; lia).
  unfold Write. destruct data as [|b data']; [simpl in Hdl; lia|].
  unfold memcpy. rewrite bool_decide_false; [done|]. rewrite Hdl. lia.
Qed.

(** Chunk 0 of the stream 7, moved to offset 1000 once it has been checked. *)
Definition ex_moved (k : ChunkRead) : list byte :=
  match k with
  | CrWriteDst => ChunkHeader_bytes (mkChunkHeader 7 0 2 1000 0) ++ [Byte.x61; Byte.x62]
  | _ => c_req ex_chunk0
  end.

Lemma chunk_double_fetch_witness :
  (serveAt (make default_Config)
     [at_rest ex_start;
      mkCallAt ex_env (mkView STREAM_CHUNK STREAM_CHUNK 26 (λ _, []) ex_moved)]).2 =
    [OReply NORMAL None; OUndefined].
Proof.
  assert (HandleChunkAt ex_env (serve (make default_Config) [ex_start]).1 26 ex_moved = Undefined)
    as H.
  { apply (chunk_double_fetch _ _ _ _ (mkContext 3 2 9 0 0 0 (replicate 3 Byte.x00) ∅ 0));
      try (vm_compute; (reflexivity || lia || done)). left. vm_compute. done. }
  change (serveAt (make default_Config) (at_rest ex_start ::
      [mkCallAt ex_env (mkView STREAM_CHUNK STREAM_CHUNK 26 (λ _, []) ex_moved)])).2
    with ((serve (make default_Config) [ex_start]).2 ++
      [(step_of (serve (make default_Config) [ex_start]).1
        (HandleChunkAt ex_env (serve (make default_Config) [ex_start]).1 26 ex_moved)).2]).
  rewrite H. vm_compute. reflexivity.
Defined.
