(* ===== verification/Machine.v ===== *)
(** * Machine: atomic operations, programs and protocol monitors

    The concurrent part of the library (SlotAllocator.h, GuestCallWorker.h,
    DirectHost.h) is code that performs atomic operations on memory it shares
    with other host threads and with the guest process.  This file holds

    - [loc], [World]: the shared locations, one constructor per field of
      [SlotHeader] and of the host-side [Slot], and their contents;
    - [op], [exec]: the operations, and what each does to the world (answers of
      the operating system and of the clock are the argument [ext]);
    - [prog]: programs, a free monad over [op]; the functions of the library are
      elements of it, written in the order of the source.  [Fault] is undefined
      behaviour, [Diverge] a loop whose fuel ran out;
    - [pool_step]: sequentially consistent interleaving of any number of
      programs with an environment relation (the guest process);
    - [obeys]: a program follows a protocol [monitor] (an automaton over
      operations and their answers) whatever answers it gets, and
      [monitor_sound]: an invariant of the monitors is an invariant of every
      interleaving of the programs. *)

From S2P Require Export Prelude Wire.

Local Open Scope Z_scope.

(** ** Shared locations *)

(** Fields of [SlotHeader] (shared with the guest), then of [Slot] (host only), then
    of the guest's [slotContext] ([ActiveWait], [nextMsgSeq] and
    [waitStrategy.CurrentLimit] of go/direct.go). *)
Inductive field : Set :=
  | F_state | F_hostState | F_guestState | F_msgSeq | F_msgType | F_reqSize | F_respSize
  | F_lease | F_gen
  | F_activeWait | F_localSeq | F_limit
  | F_guestWait | F_guestSeq | F_guestLimit.

(** Fields of [ExchangeHeader] that are written once, by [DirectHost::Init]. *)
Inductive exchange_field : Set :=
  | E_magic | E_version | E_numSlots | E_numGuestSlots | E_slotSize | E_reqOffset
  | E_respOffset.

Inductive loc : Set :=
  | LSlot (i : nat) (f : field)
  | LExchange (f : exchange_field)
  | L_nextSlot            (** [SlotAllocator::nextSlot] *)
  | L_autoReclaim         (** [SlotAllocator::autoReclaimTimeoutNs] *)
  | L_running             (** [DirectHost::running] *)
  | L_sharedState         (** [DirectHost::sharedState]: 0 for null, else its identity *)
  | L_fastPathAllowed     (** [ExchangeHeader::fastPathAllowed] *)
  | L_workerRunning       (** [GuestCallWorker::guestWorkerRunning] *)
  | L_workerLimit         (** [GuestCallWorker::waitStrategy.currentLimit] *)
  | L_writeOffset         (** [RingBufferHeader::writeOffset] *)
  | L_readOffset          (** [RingBufferHeader::readOffset] *)
  | L_guestClosing        (** [DirectGuest.closing] (go/direct.go) *)
  | L_nextGuestSlot       (** [DirectGuest.nextGuestSlot] *)
  | L_guestReclaim.       (** [DirectGuest.autoReclaimTimeoutNs] *)

#[export] Instance field_eq_dec : EqDecision field.
Proof. solve_decision. Defined.
#[export] Instance exchange_field_eq_dec : EqDecision exchange_field.
Proof. solve_decision. Defined.
#[export] Instance loc_eq_dec : EqDecision loc.
Proof. solve_decision. Defined.

(** The width of a location, for [fetch_add]. *)
Definition wrap_at (l : loc) (z : Z) : Z :=
  match l with
  | LSlot _ (F_lease | F_gen) | L_autoReclaim | L_guestReclaim | L_writeOffset
  | L_readOffset => u64 z
  | _ => u32 z
  end.

Inductive buffer : Set := BReq (i : nat) | BResp (i : nat).

#[export] Instance buffer_eq_dec : EqDecision buffer.
Proof. solve_decision. Defined.

Record World : Type := mkWorld {
  mem : loc → Z;
  bytes : buffer → list byte;
  signalled : Z → bool          (** auto-reset events, by handle *)
}.

Definition upd {K V} `{EqDecision K} (m : K → V) (k : K) (v : V) : K → V :=
  λ k', if decide (k' = k) then v else m k'.

Definition set_mem (w : World) (l : loc) (v : Z) : World :=
  mkWorld (upd (mem w) l v) (bytes w) (signalled w).
Definition set_bytes (w : World) (b : buffer) (v : list byte) : World :=
  mkWorld (mem w) (upd (bytes w) b v) (signalled w).
Definition set_signalled (w : World) (h : Z) (v : bool) : World :=
  mkWorld (mem w) (bytes w) (upd (signalled w) h v).

Lemma upd_eq {K V} `{EqDecision K} (m : K → V) k v : upd m k v k = v.
Proof. unfold upd. by rewrite decide_True. Qed.

Lemma upd_ne {K V} `{EqDecision K} (m : K → V) k k' v : k' ≠ k → upd m k v k' = m k'.
Proof. intros. unfold upd. by rewrite decide_False. Qed.

(** ** Operations *)

Inductive op : Type → Type :=
  | Load (l : loc) : op Z
  | Store (l : loc) (v : Z) : op unit
  | Cas (l : loc) (expected desired : Z) : op (bool * Z)
      (** [compare_exchange_strong]: success, and the value observed *)
  | FetchAdd (l : loc) (d : Z) : op Z
  | Exchange (l : loc) (v : Z) : op Z
  | CopyOut (b : buffer) (off n : Z) : op (list byte)
  | CopyIn (b : buffer) (off : Z) (data : list byte) : op unit
  | SetEvent (h : Z) : op unit
  | WaitObject (h timeoutMs : Z) : op bool
  | SteadyNow : op Z            (** [steady_clock::now()], ns *)
  | FileTime : op Z             (** [GetSystemTimeAsFileTime], 100 ns ticks *)
  | Pause : op unit             (** [CpuRelax], [ThreadYield], [sleep_for] *)
  | RunHandler (i : nat) (off n maxResp msgType : Z) : op Z.
      (** the guest-call handler, on request bytes [off, off + n) of slot [i] *)

(** What is chosen outside the program when an operation runs. *)
Record ext : Type := mkExt {
  x_time : Z;                   (** value of the clock that is read *)
  x_timeout : bool;             (** an unsignalled wait gives up now *)
  x_resp : Z;                   (** return value of the handler *)
  x_bytes : list byte           (** what the handler wrote to its response buffer *)
}.

Inductive result (X : Type) : Type :=
  | Done (r : X) (w : World)
  | Blocked                     (** waits: no step *)
  | Undef.                      (** undefined behaviour *)
Arguments Done {X}.
Arguments Blocked {X}.
Arguments Undef {X}.

Definition in_range (off n len : Z) : bool := (0 <=? off) && (0 <=? n) && (off + n <=? len).

Definition exec {X} (x : ext) (o : op X) (w : World) : result X :=
  match o in op X return result X with
  | Load l => Done (mem w l) w
  | Store l v => Done tt (set_mem w l v)
  | Cas l e d =>
      if mem w l =? e then Done (true, mem w l) (set_mem w l d) else Done (false, mem w l) w
  | FetchAdd l d => Done (mem w l) (set_mem w l (wrap_at l (mem w l + d)))
  | Exchange l v => Done (mem w l) (set_mem w l v)
  | CopyOut b off n =>
      if in_range off n (Z.of_nat (length (bytes w b)))
      then Done (slice (Z.to_nat off) (Z.to_nat n) (bytes w b)) w else Undef
  | CopyIn b off data =>
      if in_range off (Z.of_nat (length data)) (Z.of_nat (length (bytes w b)))
      then Done tt (set_bytes w b (list_inserts (Z.to_nat off) data (bytes w b))) else Undef
  | SetEvent h => Done tt (set_signalled w h true)
  | WaitObject h _ =>
      if signalled w h then Done true (set_signalled w h false)
      else if x_timeout x then Done false w else Blocked
  | SteadyNow => Done (x_time x) w
  | FileTime => Done (x_time x) w
  | Pause => Done tt w
  | RunHandler i off n maxResp _ =>
      if in_range off n (Z.of_nat (length (bytes w (BReq i))))
         && (maxResp <=? Z.of_nat (length (bytes w (BResp i))))
      then Done (i32 (x_resp x))
             (set_bytes w (BResp i)
                (list_inserts 0 (take (Z.to_nat maxResp) (x_bytes x)) (bytes w (BResp i))))
      else Undef
  end.

(** Every operation has an answer. *)
Definition some_answer {X} (o : op X) : X :=
  match o in op X return X with
  | Load _ | FetchAdd _ _ | Exchange _ _ | SteadyNow | FileTime | RunHandler _ _ _ _ _ => 0
  | Cas _ _ _ => (true, 0)
  | CopyOut _ _ n => replicate (Z.to_nat n) Byte.x00
  | WaitObject _ _ => true
  | Store _ _ | CopyIn _ _ _ | SetEvent _ | Pause => tt
  end.

(** ** Programs *)

Inductive prog (A : Type) : Type :=
  | Ret (a : A)
  | Do {X : Type} (o : op X) (k : X → prog A)
  | Diverge
  | Fault.
Arguments Ret {A}.
Arguments Do {A X}.
Arguments Diverge {A}.
Arguments Fault {A}.

Fixpoint bind {A B} (p : prog A) (f : A → prog B) : prog B :=
  match p with
  | Ret a => f a
  | Do o k => Do o (λ r, bind (k r) f)
  | Diverge => Diverge
  | Fault => Fault
  end.

Declare Scope prog_scope.
Delimit Scope prog_scope with prog.
Notation "'let*' x := p 'in' q" := (bind p (λ x, q))
  (at level 10, x pattern, p at level 100, q at level 200) : prog_scope.
Notation "p ;;; q" := (bind p (λ _, q))
  (at level 199, q at level 200, right associativity) : prog_scope.
Bind Scope prog_scope with prog.
Open Scope prog_scope.

Definition call {X} (o : op X) : prog X := Do o Ret.

(** [while (true)] with fuel: [inl s] continues in [s], [inr a] leaves with [a]. *)
Fixpoint loop {S A} (fuel : nat) (body : S → prog (S + A)) (s : S) : prog A :=
  match fuel with
  | O => Diverge
  | S n => let* r := body s in match r with inl s' => loop n body s' | inr a => Ret a end
  end.

(** [for (i = i0; i < i0 + n; ++i)] with an early exit. *)
Fixpoint for_ {S A} (n : nat) (i : Z) (body : Z → S → prog (S + A)) (s : S) : prog (S + A) :=
  match n with
  | O => Ret (inl s)
  | S n => let* r := body i s in
           match r with inl s' => for_ n (i + 1) body s' | inr a => Ret (inr a) end
  end.

(** ** Interleavings *)

(** One thread takes one step. *)
Inductive thread_step {A} : World → prog A → World → prog A → Prop :=
  | ts_do X (o : op X) k x w r w' :
      exec x o w = Done r w' → thread_step w (Do o k) w' (k r).

(** A pool of programs and an environment [R] (the other process). *)
Inductive pool_step {A} (R : World → World → Prop)
    : World * list (prog A) → World * list (prog A) → Prop :=
  | ps_thread w ps i p w' p' :
      ps !! i = Some p → thread_step w p w' p' → pool_step R (w, ps) (w', <[i := p']> ps)
  | ps_env w ps w' : R w w' → pool_step R (w, ps) (w', ps).

(** A program reaches undefined behaviour. *)
Inductive faulty {A} (w : World) : prog A → Prop :=
  | faulty_fault : faulty w Fault
  | faulty_op X (o : op X) k x : exec x o w = Undef → faulty w (Do o k).

(** Executable schedules: the thread to run and the external choice, or a write
    of the environment. *)
Inductive act : Type :=
  | Run (i : nat) (x : ext)
  | Env (l : loc) (v : Z).

Definition run1 {A} (c : World * list (prog A)) (a : act) : World * list (prog A) :=
  let '(w, ps) := c in
  match a with
  | Env l v => (set_mem w l v, ps)
  | Run i x =>
      match ps !! i with
      | Some (Do o k) =>
          match exec x o w with
          | Done r w' => (w', <[i := k r]> ps)
          | _ => (w, ps)
          end
      | _ => (w, ps)
      end
  end.

Definition run {A} (acts : list act) (c : World * list (prog A)) : World * list (prog A) :=
  foldl run1 c acts.

(** An execution of one program alone: the choices of the environment are the
    stream [x], [None] when it blocks or faults within [fuel] operations. *)
Fixpoint run_alone {A} (fuel : nat) (x : nat → ext) (p : prog A) (w : World)
    : option (A * World) :=
  match p with
  | Ret a => Some (a, w)
  | Do o k =>
      match fuel with
      | O => None
      | S fuel =>
          match exec (x fuel) o w with
          | Done r w' => run_alone fuel x (k r) w'
          | _ => None
          end
      end
  | _ => None
  end.

(** ** Protocol monitors *)

Inductive verdict_of (M : Type) : Type :=
  | Next (s : M)         (** allowed, with this answer *)
  | Forbidden            (** not an operation the protocol allows here *)
  | Impossible.          (** an answer the protocol never gives here *)
Arguments Next {M}.
Arguments Forbidden {M}.
Arguments Impossible {M}.

Definition monitor (M : Type) : Type := M → ∀ X, op X → X → verdict_of M.

(** [p] follows [mon] from [s] whatever the answers are, and [Q] holds of what it
    returns.  With [total] no loop runs out of fuel. *)
Fixpoint obeys {M A} (total : bool) (mon : monitor M) (p : prog A) (s : M)
    (Q : A → M → Prop) : Prop :=
  match p with
  | Ret a => Q a s
  | Do o k => ∀ r, match mon s _ o r with
                   | Next s' => obeys total mon (k r) s' Q
                   | Forbidden => False
                   | Impossible => True
                   end
  | Diverge => total = false
  | Fault => False
  end.

Section obeys.
Context {M : Type} (total : bool) (mon : monitor M).

Lemma obeys_mono {A} (p : prog A) : ∀ s (Q Q' : A → M → Prop),
  (∀ a s, Q a s → Q' a s) → obeys total mon p s Q → obeys total mon p s Q'.
Proof.
  induction p as [a|X o k IH| |]; simpl; intros s Q Q' HQ; [auto| |done|done].
  intros H r. specialize (H r). destruct (mon s X o r); eauto.
Qed.

Lemma obeys_bind {A B} (p : prog A) (f : A → prog B) : ∀ s (Q : B → M → Prop),
  obeys total mon p s (λ a s', obeys total mon (f a) s' Q) →
  obeys total mon (bind p f) s Q.
Proof.
  induction p as [a|X o k IH| |]; simpl; intros s Q; [done| |done|done].
  intros H r. specialize (H r). destruct (mon s X o r); [by apply IH|done|done].
Qed.

Lemma obeys_loop {S A} (Inv : S → M → Prop) (body : S → prog (S + A)) fuel :
  ∀ s m (Q : A → M → Prop),
  total = false → Inv s m →
  (∀ s m, Inv s m → obeys total mon (body s) m
     (λ r m', match r with inl s' => Inv s' m' | inr a => Q a m' end)) →
  obeys total mon (loop fuel body s) m Q.
Proof.
  induction fuel as [|fuel IH]; simpl; intros s m Q Ht Hi Hb; [done|].
  apply obeys_bind. eapply obeys_mono, Hb, Hi. intros [s'|a] m' H; simpl; eauto.
Qed.

(** A loop with a measure returns, given enough fuel. *)
Lemma obeys_loop_total {S A} (Inv : S → M → Prop) (measure : S → M → nat)
    (body : S → prog (S + A)) fuel :
  ∀ s m (Q : A → M → Prop),
  Inv s m → (measure s m < fuel)%nat →
  (∀ s m, Inv s m → obeys total mon (body s) m
     (λ r m', match r with
              | inl s' => Inv s' m' ∧ (measure s' m' < measure s m)%nat
              | inr a => Q a m'
              end)) →
  obeys total mon (loop fuel body s) m Q.
Proof.
  induction fuel as [|fuel IH]; simpl; intros s m Q Hi Hm Hb; [lia|].
  apply obeys_bind. eapply obeys_mono, Hb, Hi. intros [s'|a] m' H; simpl; [|done].
  destruct H. apply IH; [done|lia|done].
Qed.

Lemma obeys_for {S A} (Inv : Z → S → M → Prop) (body : Z → S → prog (S + A)) n :
  ∀ i s m (Q : S + A → M → Prop),
  Inv i s m →
  (∀ j s m, i <= j < i + Z.of_nat n → Inv j s m → obeys total mon (body j s) m
     (λ r m', match r with inl s' => Inv (j + 1) s' m' | inr a => Q (inr a) m' end)) →
  (∀ s m, Inv (i + Z.of_nat n) s m → Q (inl s) m) →
  obeys total mon (for_ n i body s) m Q.
Proof.
  induction n as [|n IH]; simpl; intros i s m Q Hi Hb Hq.
  { apply Hq. by rewrite Z.add_0_r. }
  apply obeys_bind. eapply obeys_mono, Hb; [|lia|done]. intros [s'|a] m' H; simpl; [|done].
  apply IH; [done| |].
  - intros. apply Hb; [lia|done].
  - intros s0 m0 H0. apply Hq. by replace (i + Z.of_nat (Datatypes.S n)) with (i + 1 + Z.of_nat n) by lia.
Qed.
End obeys.

(** *** Programs that only perform operations of a kind *)

(** A copy of [n] bytes yields [n] bytes; any other answer may be anything. *)
Definition answer_ok {X} (o : op X) : X → bool :=
  match o with
  | CopyOut _ _ n => λ r, (length r =? Z.to_nat n)%nat
  | _ => λ _, true
  end.

Lemma some_answer_ok {X} (o : op X) : answer_ok o (some_answer o) = true.
Proof. destruct o; simpl; try done. apply Nat.eqb_eq, length_replicate. Qed.

Lemma exec_answer X (o : op X) x w r w' : exec x o w = Done r w' → answer_ok o r = true.
Proof.
  destruct o; simpl; intros; try done. case_match; simplify_eq.
  match goal with H : in_range _ _ _ = true |- _ => unfold in_range in H end.
  rewrite !andb_true_iff, !Z.leb_le in *. apply Nat.eqb_eq, slice_length. lia.
Qed.

Definition only (P : ∀ X, op X → bool) : monitor unit :=
  λ _ X o r, if P X o then if answer_ok o r then Next tt else Impossible else Forbidden.

(** Every operation of [p] satisfies [P] whatever it reads, no undefined behaviour
    is reached, and [Q] holds of what is returned. *)
Definition within {X} (P : ∀ X, op X → bool) (p : prog X) (Q : X → Prop) : Prop :=
  obeys false (only P) p tt (λ r _, Q r).

Section within.
Context (P : ∀ X, op X → bool).

Lemma within_ret {X} (x : X) (Q : X → Prop) : Q x → within P (Ret x) Q.
Proof. done. Qed.

Lemma within_mono {X} (p : prog X) (Q Q' : X → Prop) :
  (∀ x, Q x → Q' x) → within P p Q → within P p Q'.
Proof. intros H. apply obeys_mono. auto. Qed.

Lemma within_bind {X Y} (p : prog X) (f : X → prog Y) (R : X → Prop) Q :
  within P p R → (∀ x, R x → within P (f x) Q) → within P (bind p f) Q.
Proof. intros Hp Hf. apply obeys_bind. eapply obeys_mono, Hp. intros x [] H. by apply Hf. Qed.

Lemma within_seq {X Y} (p : prog X) (f : X → prog Y) Q :
  within P p (λ _, True) → (∀ x, within P (f x) Q) → within P (bind p f) Q.
Proof. intros. eapply within_bind; eauto. Qed.

Lemma within_call {X} (o : op X) (Q : X → Prop) :
  P X o = true → (∀ r, answer_ok o r = true → Q r) → within P (call o) Q.
Proof.
  intros Ho HQ r. unfold only. rewrite Ho. destruct (answer_ok o r) eqn:E; [|done]. by apply HQ.
Qed.

Lemma within_loop {S X} fuel (body : S → prog (S + X)) s (Inv : S → Prop) Q :
  Inv s →
  (∀ s, Inv s → within P (body s) (λ r, match r with inl s' => Inv s' | inr a => Q a end)) →
  within P (loop fuel body s) Q.
Proof.
  intros Hi Hb. apply (obeys_loop _ _ (λ s _, Inv s)); [done|done|].
  intros s' [] H. eapply obeys_mono, Hb, H. by intros [].
Qed.

Lemma within_for {S X} n i (body : Z → S → prog (S + X)) s (Inv : S → Prop) (Q : S + X → Prop) :
  Inv s →
  (∀ j s, i <= j < i + Z.of_nat n → Inv s →
     within P (body j s) (λ r, match r with inl s' => Inv s' | inr a => Q (inr a) end)) →
  (∀ s, Inv s → Q (inl s)) →
  within P (for_ n i body s) Q.
Proof.
  intros Hi Hb HQ. apply (obeys_for _ _ (λ _ s _, Inv s)); [done| |auto].
  intros j s' [] Hj H. eapply obeys_mono, Hb; [|done..]. by intros [].
Qed.

(** Such a program stays where it is in a monitor that ignores its operations. *)
Lemma within_obeys {M X} (mon : monitor M) (p : prog X) m (Q : X → Prop) :
  (∀ X (o : op X) r, answer_ok o r = true → P X o = true → mon m X o r = Next m) →
  (∀ X (o : op X) r, answer_ok o r = false → mon m X o r = Impossible) →
  within P p Q → obeys false mon p m (λ r m', m' = m ∧ Q r).
Proof.
  intros Hn Hi. unfold within. induction p as [a|Y o k IH| |]; simpl; intros H; [done| |done|done].
  intros r. specialize (H r). unfold only in H. destruct (answer_ok o r) eqn:Ha.
  - destruct (P Y o) eqn:Ho; [|done]. rewrite Hn by done. by apply IH.
  - by rewrite Hi.
Qed.

(** Such a program keeps what each of its operations keeps. *)
Lemma within_inv {M X} (mon : monitor M) (Inv : M → Prop) (p : prog X) (Q : X → Prop) :
  (∀ m X (o : op X) r, Inv m → answer_ok o r = true → P X o = true →
     match mon m X o r with Next m' => Inv m' | Forbidden => False | Impossible => True end) →
  (∀ m X (o : op X) r, answer_ok o r = false → mon m X o r = Impossible) →
  within P p Q → ∀ m, Inv m → obeys false mon p m (λ r m', Inv m' ∧ Q r).
Proof.
  intros Hn Hi. unfold within. induction p as [a|Y o k IH| |]; simpl; intros H m Hm;
    [done| |done|done].
  intros r. specialize (H r). unfold only in H. destruct (answer_ok o r) eqn:Ha; [|by rewrite Hi].
  destruct (P Y o) eqn:Ho; [|done]. specialize (Hn m Y o r Hm Ha Ho).
  destruct (mon m Y o r); [by apply IH|done|done].
Qed.

(** What is known of the result whatever is read holds under any monitor. *)
Lemma obeys_within {M X} (mon : monitor M) (p : prog X) (Q : X → Prop) (Q' : X → M → Prop) :
  (∀ m X (o : op X) r, answer_ok o r = false → mon m X o r = Impossible) →
  within P p Q → ∀ m, obeys false mon p m Q' → obeys false mon p m (λ r m', Q r ∧ Q' r m').
Proof.
  intros Hi. unfold within. induction p as [a|Y o k IH| |]; simpl; intros H m; [done| |done|done].
  intros H' r. specialize (H r). specialize (H' r). unfold only in H.
  destruct (answer_ok o r) eqn:Ha; [|by rewrite Hi].
  destruct (P Y o); [|done]. destruct (mon m Y o r); [by apply IH|done|done].
Qed.
End within.

Create HintDb within discriminated.

(** Walks through a program: sequencing, conditionals, loops with a trivial
    invariant, operations ([side] decides [P]), and sub-programs with a lemma in
    the database [within]. *)
Ltac within_walk side :=
  lazymatch goal with
  | |- within _ (Ret _) _ => apply within_ret; trivial
  | |- within _ (bind _ _) _ =>
      first [apply within_seq;
             [solve [within_walk side]|let x := fresh "x" in intros x; within_walk side]|idtac]
  | |- within _ (call _) _ => apply within_call; [side|intros; trivial]
  | |- within _ (loop _ _ _) _ =>
      apply (within_loop _ _ _ _ (λ _, True));
        [trivial|let s := fresh "s" in intros s _; within_walk side]
  | |- within _ (for_ _ _ _ _) _ =>
      apply (within_for _ _ _ _ _ (λ _, True));
        [trivial|let j := fresh "j" in let s := fresh "s" in intros j s ? _; within_walk side
        |trivial]
  | |- within _ (if ?b then _ else _) _ => destruct b eqn:?; within_walk side
  | |- within _ (let '(_, _) := ?p in _) _ => destruct p; within_walk side
  | |- within _ (match ?r with _ => _ end) _ => destruct r eqn:?; within_walk side
  | |- within _ _ _ => first [solve [eauto with within]|idtac]
  end.

(** *** Programs all of whose operations are of a kind

    Weaker than [within]: undefined behaviour is not excluded and nothing is said
    of the result, so that a proof about indices need not be repeated for every
    kind of operation ([within_performs] combines the two). *)

Fixpoint performs {X} (P : ∀ X, op X → bool) (p : prog X) : Prop :=
  match p with
  | Do o k => P _ o = true ∧ ∀ r, performs P (k r)
  | _ => True
  end.

Section performs.
Context (P : ∀ X, op X → bool).

Lemma performs_bind {X Y} (p : prog X) (f : X → prog Y) :
  performs P p → (∀ x, performs P (f x)) → performs P (bind p f).
Proof. intros Hp Hf. induction p as [a|Z o k IH| |]; simpl in *; naive_solver. Qed.

Lemma performs_call {X} (o : op X) : P X o = true → performs P (call o).
Proof. done. Qed.

Lemma performs_loop {S X} fuel (body : S → prog (S + X)) :
  (∀ s, performs P (body s)) → ∀ s, performs P (loop fuel body s).
Proof.
  intros Hb. induction fuel as [|fuel IH]; intros s; simpl; [done|].
  apply performs_bind; [done|]. by intros [].
Qed.

Lemma performs_for {S X} n (body : Z → S → prog (S + X)) :
  (∀ i s, performs P (body i s)) → ∀ i s, performs P (for_ n i body s).
Proof.
  intros Hb. induction n as [|n IH]; intros i s; simpl; [done|].
  apply performs_bind; [done|]. by intros [].
Qed.

Lemma within_performs {X} (P' : ∀ X, op X → bool) (p : prog X) Q :
  within P' p Q → performs P p → within P p Q.
Proof.
  unfold within. induction p as [a|Y o k IH| |]; simpl; [done| |done|done].
  intros H [Ho Hk] r. specialize (H r). unfold only in *. rewrite Ho.
  destruct (answer_ok o r) eqn:Ha; [|done]. destruct (P' Y o); [|done]. by apply IH.
Qed.
End performs.

(** Walks through a program for [performs]. *)
Ltac performs_walk side :=
  lazymatch goal with
  | |- performs _ (Ret _) => exact I
  | |- performs _ Fault => exact I
  | |- performs _ (bind _ _) =>
      apply performs_bind;
        [performs_walk side|let x := fresh "x" in intros x; performs_walk side]
  | |- performs _ (call _) => apply performs_call; side
  | |- performs _ (loop _ _ _) =>
      apply performs_loop; let s := fresh "s" in intros s; performs_walk side
  | |- performs _ (for_ _ _ _ _) =>
      apply performs_for; let j := fresh "j" in let s := fresh "s" in intros j s; performs_walk side
  | |- performs _ (if ?b then _ else _) => destruct b; performs_walk side
  | |- performs _ (match ?r with _ => _ end) => destruct r; performs_walk side
  | |- performs _ _ => first [solve [eauto with within]|idtac]
  end.

(** *** Soundness for interleavings *)

Section sound.
Context {M A : Type} (mon : monitor M) (R : World → World → Prop).
Context (I : World → list M → Prop) (Q : A → M → Prop).

(** The environment and every allowed operation keep the invariant. *)
Hypothesis Henv : ∀ w w' ss, I w ss → R w w' → I w' ss.
Hypothesis Hstep : ∀ w ss i s X (o : op X) x r w',
  I w ss → ss !! i = Some s → exec x o w = Done r w' →
  match mon s X o r with
  | Next s' => I w' (<[i := s']> ss)
  | Forbidden => True
  | Impossible => False
  end.

Definition monitored (w : World) (ps : list (prog A)) (ss : list M) : Prop :=
  I w ss ∧ Forall2 (λ p s, obeys false mon p s Q) ps ss.

Lemma monitored_step w ps w' ps' ss :
  monitored w ps ss → pool_step R (w, ps) (w', ps') → ∃ ss', monitored w' ps' ss'.
Proof using Henv Hstep.
  intros [Hi Hps] Hs. inversion Hs as [? ? i p ? p' Hp Ht|]; simplify_eq.
  - destruct (Forall2_lookup_l _ _ _ _ _ Hps Hp) as (s&Hss&Hob).
    destruct Ht as [X o k x w r w' Hx]. specialize (Hob r).
    specialize (Hstep _ _ _ _ _ _ _ _ _ Hi Hss Hx).
    destruct (mon s X o r) as [s'| |]; [|done|done].
    exists (<[i := s']> ss). split; [done|]. by apply Forall2_insert.
  - exists ss. split; [by eapply Henv|done].
Qed.

Theorem monitor_sound w0 ps0 ss0 w ps :
  monitored w0 ps0 ss0 → rtc (pool_step R) (w0, ps0) (w, ps) → ∃ ss, monitored w ps ss.
Proof using Henv Hstep.
  intros H0 Hr. remember (w0, ps0) as c0 eqn:E0. remember (w, ps) as c eqn:E.
  revert w0 ps0 ss0 E0 H0. induction Hr as [c|c1 [w1 ps1] c3 H12 _ IH]; intros; simplify_eq.
  - eauto.
  - destruct (monitored_step _ _ _ _ _ H0 H12) as [ss1 H1]. by eapply IH.
Qed.

(** No thread of a monitored pool is at undefined behaviour, if the invariant
    excludes it for allowed operations. *)
Lemma monitored_not_faulty w ps ss i p :
  (∀ s X (o : op X) x, ss !! i = Some s → I w ss → exec x o w = Undef →
     ∃ r, mon s X o r = Forbidden) →
  monitored w ps ss → ps !! i = Some p → ¬ faulty w p.
Proof.
  intros Hd [Hi Hps] Hp Hf. destruct (Forall2_lookup_l _ _ _ _ _ Hps Hp) as (s&Hss&Hob).
  destruct Hf as [|X o k x Hx]; [done|].
  destruct (Hd s X o x Hss Hi Hx) as [r Hr]. specialize (Hob r). by rewrite Hr in Hob.
Qed.
End sound.

Lemma pool_length {A} (R : World → World → Prop) (c c' : World * list (prog A)) :
  rtc (pool_step R) c c' → length c'.2 = length c.2.
Proof. induction 1 as [|? ? ? [] _ IH]; [done|..]; rewrite IH; cbn; by rewrite ?length_insert. Qed.

(** The executable schedules are interleavings. *)
Lemma run_pool {A} (R : World → World → Prop) (acts : list act) :
  Forall (λ a, match a with Env l v => ∀ w, R w (set_mem w l v) | Run _ _ => True end) acts →
  ∀ c : World * list (prog A), rtc (pool_step R) c ((run acts c).1, (run acts c).2).
Proof.
  intros HR c. rewrite <-surjective_pairing. revert c.
  induction HR as [|a acts Ha _ IH]; intros [w ps]; [done|]. unfold run in *. simpl.
  etrans; [|apply IH]. destruct a as [i x|l v]; simpl.
  - destruct (ps !! i) as [[a|X o k| |]|] eqn:Hp; try done.
    destruct (exec x o w) as [r w'| |] eqn:Hx; try done.
    apply rtc_once, (ps_thread _ _ _ _ _ _ _ Hp). by econstructor.
  - apply rtc_once, ps_env, Ha.
Qed.

(** *** Two threads of a pool

    A run of a pool is a run of two of its threads, when the others only perform
    operations that the environment of the two may perform. *)

Section project.
Context {A : Type} (R R' : World → World → Prop) (P : ∀ X, op X → bool).
Hypothesis HR : ∀ w w', R w w' → R' w w'.
Hypothesis HP : ∀ X (o : op X) x w r w', P X o = true → exec x o w = Done r w' → R' w w'.

Definition others_within (a b : nat) (ps : list (prog A)) : Prop :=
  ∀ j p, j ≠ a → j ≠ b → ps !! j = Some p → within P p (λ _, True).

Lemma others_insert a b ps j p' :
  others_within a b ps → (j ≠ a → j ≠ b → within P p' (λ _, True)) →
  others_within a b (<[j := p']> ps).
Proof.
  intros Hrest Hp k q Hka Hkb. rewrite list_lookup_insert_Some. intros [(<-&<-&_)|[_ Hk]]; [auto|].
  by eapply Hrest.
Qed.

Lemma project_step a b w ps w' ps' pa pb :
  a ≠ b → pool_step R (w, ps) (w', ps') → ps !! a = Some pa → ps !! b = Some pb →
  others_within a b ps →
  ∃ qa qb, ps' !! a = Some qa ∧ ps' !! b = Some qb ∧ others_within a b ps' ∧
    rtc (pool_step R') (w, [pa; pb]) (w', [qa; qb]).
Proof using HR HP.
  intros Hab Hs Ha Hb Hrest. inversion Hs as [? ? j p ? p' Hj Ht|]; simplify_eq.
  2: { exists pa, pb. split_and!; [done..|]. by apply rtc_once, ps_env, HR. }
  pose proof (lookup_lt_Some _ _ _ Hj) as Hlt.
  destruct (decide (j = a)) as [->|Hja]; [|destruct (decide (j = b)) as [->|Hjb]].
  - simplify_eq. exists p', pb. rewrite list_lookup_insert_eq, list_lookup_insert_ne by done.
    split_and!; [done..|by apply others_insert|]. apply rtc_once.
    exact (ps_thread R' w [pa; pb] 0 pa w' p' eq_refl Ht).
  - simplify_eq. exists pa, p'. rewrite list_lookup_insert_eq, list_lookup_insert_ne by done.
    split_and!; [done..|by apply others_insert|]. apply rtc_once.
    exact (ps_thread R' w [pa; pb] 1 pb w' p' eq_refl Ht).
  - exists pa, pb. rewrite !list_lookup_insert_ne by done.
    pose proof (Hrest j p Hja Hjb Hj) as Hw. destruct Ht as [X o k x w r w' Hx].
    specialize (Hw r). unfold only in Hw. rewrite (exec_answer _ _ _ _ _ _ Hx) in Hw.
    destruct (P X o) eqn:Ho; [|done]. split_and!; [done..|by apply others_insert|].
    by eapply rtc_once, ps_env, HP.
Qed.

Lemma pool_project a b w ps w' ps' pa pb :
  a ≠ b → rtc (pool_step R) (w, ps) (w', ps') → ps !! a = Some pa → ps !! b = Some pb →
  others_within a b ps →
  ∃ qa qb, ps' !! a = Some qa ∧ ps' !! b = Some qb ∧
    rtc (pool_step R') (w, [pa; pb]) (w', [qa; qb]).
Proof using HR HP.
  intros Hab Hr. remember (w, ps) as c eqn:Ec. remember (w', ps') as c' eqn:Ec'.
  revert w ps pa pb Ec. induction Hr as [c|c [w1 ps1] c' H12 _ IH]; intros w ps pa pb -> Ha Hb Hrest.
  { simplify_eq. by exists pa, pb. }
  destruct (project_step _ _ _ _ _ _ _ _ Hab H12 Ha Hb Hrest) as (q1&q2&H1&H2&H3&H4).
  destruct (IH Ec' w1 ps1 q1 q2 eq_refl H1 H2 H3) as (qa&qb&?&?&?).
  exists qa, qb. split_and!; [done..|]. by etrans.
Qed.
End project.
