(* ===== verification/Platform.v ===== *)
(** * Platform (include/shm/Platform.h)

    The parts of the platform layer that are code of the library and not of the
    operating system:

    - event wrappers ([SignalEvent], [WaitEvent]) and [MonotonicNanos], as
      programs over the operations of [Machine];
    - [CopySmall], the overlapping-moves copy, on byte buffers;
    - the parsers of the processor topology records ([EnumerateCcxMasks],
      [EnumerateSmtPairs]) on the bytes the operating system returned.

    [LockShm] and [UnlockShm] are in [ShmLock]. *)

From S2P Require Export Machine.

Local Open Scope Z_scope.

(** ** Events and clocks *)

Definition SignalEvent (h : Z) : prog unit :=
  if h =? 0 then Ret tt else call (SetEvent h).

Definition WaitEvent (h timeoutMs : Z) : prog bool :=
  if h =? 0 then Ret false else call (WaitObject h timeoutMs).

Definition CpuRelax : prog unit := call Pause.
Definition ThreadYield : prog unit := call Pause.

Definition kEpochDeltaTicks : Z := 116444736000000000.

Definition MonotonicNanos : prog Z :=
  let* ft := call FileTime in Ret (u64 (u64 (ft - kEpochDeltaTicks) * 100)).

(** ** [CopySmall] *)

(** [memcpy(d + at, s + at, n)] *)
Definition copy_at (dst src : list byte) (at_ n : nat) : option (list byte) :=
  if (at_ + n <=? length src)%nat then memcpy dst at_ (slice at_ n src) else None.

(** A head and a tail copy of [m] bytes, which overlap unless [n = 2 m]. *)
Definition copy_ends (dst src : list byte) (n m : nat) : option (list byte) :=
  d ← copy_at dst src 0 m; copy_at d src (n - m) m.

(** [None]: a read or a write out of bounds. *)
Definition CopySmall (dst src : list byte) (n : nat) : option (list byte) :=
  if (16 <=? n)%nat then
    if (n <=? 32)%nat then copy_ends dst src n 16
    else if (n <=? 64)%nat then copy_ends dst src n 32
    else if (n <=? 128)%nat then copy_ends dst src n 64
    else if (n <=? 256)%nat then copy_ends dst src n 128
    else copy_at dst src 0 n
  else if (8 <=? n)%nat then copy_ends dst src n 8
  else if (4 <=? n)%nat then copy_ends dst src n 4
  else if (2 <=? n)%nat then copy_ends dst src n 2
  else if (n =? 1)%nat then copy_at dst src 0 1
  else Some dst.

Lemma copy_at_Some dst src at_ n :
  (at_ + n ≤ length src)%nat → (at_ + n ≤ length dst)%nat →
  copy_at dst src at_ n = Some (list_inserts at_ (slice at_ n src) dst).
Proof.
  intros. unfold copy_at. rewrite (proj2 (Nat.leb_le _ _)) by done.
  apply memcpy_Some. rewrite slice_length; lia.
Qed.

(** Two overlapping copies that cover [0, n) are one copy. *)
Lemma copy_ends_Some dst src n m :
  (n ≤ length src)%nat → (n ≤ length dst)%nat → (m ≤ n)%nat → (n ≤ 2 * m)%nat →
  copy_ends dst src n m = Some (list_inserts 0 (take n src) dst).
Proof.
  intros. unfold copy_ends. rewrite copy_at_Some by lia. simpl.
  rewrite copy_at_Some by (rewrite ?length_inserts; lia). f_equal.
  apply list_eq. intros i.
  destruct (decide (i < length dst)%nat) as [Hi|Hi]; cycle 1.
  { rewrite !lookup_ge_None_2; rewrite ?length_inserts; auto with lia. }
  assert (length (slice 0 m src) = m) by (apply slice_length; lia).
  assert (length (slice (n - m) m src) = m) by (apply slice_length; lia).
  assert (length (take n src) = n) by (rewrite length_take; lia).
  destruct (decide (i < n - m)%nat).
  { rewrite list_lookup_inserts_lt by lia. rewrite !list_lookup_inserts by lia.
    rewrite lookup_slice, decide_True, lookup_take_lt by lia. try (f_equal; lia). }
  destruct (decide (i < n)%nat).
  { rewrite !list_lookup_inserts by (rewrite ?length_inserts; lia).
    rewrite lookup_slice, decide_True, lookup_take_lt by lia. try (f_equal; lia). }
  by rewrite !list_lookup_inserts_ge by lia.
Qed.

(** [CopySmall] is [memcpy].  For every size, and whenever source and
    destination have [n] bytes, no branch reads or writes out of bounds and the
    result is the plain copy of [n] bytes. *)
Theorem CopySmall_memcpy dst src n :
  (n ≤ length src)%nat → (n ≤ length dst)%nat →
  CopySmall dst src n = memcpy dst 0 (take n src).
Proof.
  intros. rewrite memcpy_Some by (rewrite length_take; lia). unfold CopySmall.
  repeat match goal with
  | |- context [(?a <=? ?b)%nat] => destruct (Nat.leb_spec a b)
  | |- context [(?a =? ?b)%nat] => destruct (Nat.eqb_spec a b)
  end; try (apply copy_ends_Some; lia); try (exfalso; lia).
  - rewrite copy_at_Some by lia. unfold slice. by rewrite drop_0.
  - subst. rewrite copy_at_Some by lia. unfold slice. by rewrite drop_0.
  - replace n with 0%nat by lia. done.
Qed.

Lemma CopySmall_memcpy_witness :
  CopySmall (replicate 20 Byte.x00) (replicate 19 Byte.x41) 19 =
  memcpy (replicate 20 Byte.x00) 0 (take 19 (replicate 19 Byte.x41)).
Proof. apply CopySmall_memcpy; vm_compute; lia. Defined.

(** ** Processor topology

    [GetLogicalProcessorInformationEx] fills a buffer with variable-size records
    that start with a relationship tag and their own size.  [None] is a read
    outside the buffer or fuel exhaustion. *)

Definition RelationProcessorCore : Z := 0.
Definition RelationCache : Z := 2.

(** [*reinterpret_cast<uintN_t*>(p)], N = 8 n *)
Definition rd (buf : list byte) (at_ n : nat) : option Z :=
  if (at_ + n <=? length buf)%nat then Some (Codec.get buf at_ n) else None.

(** The loop both enumerations share; [pick] is the body for a record of tag
    [rel] and size [size] at [off]. *)
Fixpoint walk {A} (fuel : nat) (pick : nat → Z → nat → option (option A))
    (buf : list byte) (need off : nat) : option (list A) :=
  match fuel with
  | O => None
  | S fuel =>
      if (off + 8 <=? need)%nat then
        rel ← rd buf off 4;
        size ← rd buf (off + 4) 4;
        if size =? 0 then Some []
        else
          x ← pick off rel (Z.to_nat size);
          rest ← walk fuel pick buf need (off + Z.to_nat size);
          Some (option_list x ++ rest)
      else Some []
  end.

Definition pick_ccx (buf : list byte) (need off : nat) (rel : Z) (size : nat)
    : option (option Z) :=
  if (rel =? RelationCache) && (56 <=? size)%nat && (off + size <=? need)%nat then
    level ← rd buf (off + 8) 1;
    cacheType ← rd buf (off + 16) 4;
    groupCount ← rd buf (off + 38) 2;
    if (level =? 3) && (cacheType =? 0) && (groupCount =? 1) then
      mask ← rd buf (off + 40) 8;
      Some (if negb (mask =? 0) then Some mask else None)
    else Some None
  else Some None.

(** [buffer] has the size the first call announced; [need] is what the second,
    successful, call left in its in/out argument.  [ok = false]: that call failed. *)
Definition EnumerateCcxMasks (ok : bool) (buffer : list byte) (need : nat)
    : option (list Z) :=
  if (length buffer =? 0)%nat then Some []
  else if negb ok then Some []
  else walk (S need) (pick_ccx buffer need) buffer need 0.

Record SmtPair : Type := mkSmtPair { host : Z; guest : Z }.

(** [while (m) { m &= (m - 1); ++bits; if (bits > 2) break; }]: at most three
    iterations. *)
Fixpoint count_bits (fuel : nat) (m : Z) (bits : nat) : nat :=
  match fuel with
  | O => bits
  | S fuel =>
      if m =? 0 then bits
      else
        let m' := Z.land m (u64 (m - 1)) in
        let bits' := S bits in
        if (2 <? bits')%nat then bits' else count_bits fuel m' bits'
  end.

Definition not64 (z : Z) : Z := 2 ^ 64 - 1 - z.

Definition smt_split (mask : Z) : option SmtPair :=
  if (count_bits 3 mask 0 =? 2)%nat then
    let h := Z.land mask (u64 (not64 mask + 1)) in
    let g := Z.land mask (not64 h) in
    Some (mkSmtPair h g)
  else None.

Definition pick_smt (buf : list byte) (need off : nat) (rel : Z) (size : nat)
    : option (option SmtPair) :=
  if (rel =? RelationProcessorCore) && (48 <=? size)%nat && (off + size <=? need)%nat then
    flags ← rd buf (off + 8) 1;
    groupCount ← rd buf (off + 30) 2;
    if negb (Z.land flags 1 =? 0) && (groupCount =? 1) then
      mask ← rd buf (off + 32) 8;
      Some (smt_split mask)
    else Some None
  else Some None.

Definition EnumerateSmtPairs (ok : bool) (buffer : list byte) (need : nat)
    : option (list SmtPair) :=
  if (length buffer =? 0)%nat then Some []
  else if negb ok then Some []
  else walk (S need) (pick_smt buffer need) buffer need 0.

(** *** Safety and termination on arbitrary bytes *)

Lemma rd_Some buf at_ n : (at_ + n ≤ length buf)%nat → rd buf at_ n = Some (Codec.get buf at_ n).
Proof. intros. unfold rd. by rewrite (proj2 (Nat.leb_le _ _)). Qed.

Lemma walk_total {A} (pick : nat → Z → nat → option (option A)) buf need :
  (need ≤ length buf)%nat → (∀ off rel size, is_Some (pick off rel size)) →
  ∀ fuel off, (0 < fuel)%nat → (need < off + fuel)%nat → is_Some (walk fuel pick buf need off).
Proof.
  intros Hn Hp. induction fuel as [|fuel IH]; intros off H0 Hf; simpl; [lia|].
  destruct (Nat.leb_spec (off + 8) need); [|done].
  rewrite !rd_Some by lia. simpl. pose proof (Codec.get_range buf (off + 4) 4).
  destruct (Z.eqb_spec (Codec.get buf (off + 4) 4) 0); [done|].
  set (size := Z.to_nat _). assert (0 < size)%nat by lia. clearbody size.
  destruct (Hp off (Codec.get buf off 4) size) as [x ->]. simpl.
  destruct (IH (off + size)%nat) as [rest ->]; [lia..|]. by eexists.
Qed.

Ltac pick_in_bounds :=
  repeat match goal with
  | |- context [if ?b then _ else _] => destruct b eqn:?
  | H : _ && _ = true |- _ => apply andb_true_iff in H as [? ?]
  | H : (_ <=? _)%nat = true |- _ => apply Nat.leb_le in H
  | |- context [rd _ _ _] => rewrite rd_Some by lia; simpl
  end; try by eexists.

Lemma pick_ccx_total buf need off rel size :
  (need ≤ length buf)%nat → is_Some (pick_ccx buf need off rel size).
Proof. intros. unfold pick_ccx. pick_in_bounds. Qed.

Lemma pick_smt_total buf need off rel size :
  (need ≤ length buf)%nat → is_Some (pick_smt buf need off rel size).
Proof. intros. unfold pick_smt. pick_in_bounds. Qed.

(** The topology parsers are memory safe and terminate.  On arbitrary
    record bytes, provided the operating system reports no more bytes than the
    buffer it was given, both loops end and read only inside the buffer. *)
Theorem enumerate_safe ok buffer need :
  (need ≤ length buffer)%nat →
  is_Some (EnumerateCcxMasks ok buffer need) ∧ is_Some (EnumerateSmtPairs ok buffer need).
Proof.
  intros. unfold EnumerateCcxMasks, EnumerateSmtPairs.
  destruct (length buffer =? 0)%nat, ok; try done.
  split; apply walk_total; try lia; intros; [by apply pick_ccx_total|by apply pick_smt_total].
Qed.

Lemma enumerate_safe_witness :
  let b := replicate 70 Byte.x01 in
  is_Some (EnumerateCcxMasks true b 70) ∧ is_Some (EnumerateSmtPairs true b 70).
Proof. apply enumerate_safe. vm_compute. lia. Defined.

(** *** What they return on a sequence of records *)

Definition record_ok (r : list byte) : Prop :=
  (8 ≤ length r)%nat ∧ Codec.get r 4 4 = Z.of_nat (length r).

(** An L3 cache record of one processor group, and its affinity mask. *)
Definition ccx_of (r : list byte) : option Z :=
  if (Codec.get r 0 4 =? RelationCache) && (56 <=? length r)%nat && (Codec.get r 8 1 =? 3)
     && (Codec.get r 16 4 =? 0) && (Codec.get r 38 2 =? 1) && negb (Codec.get r 40 8 =? 0)
  then Some (Codec.get r 40 8) else None.

(** An SMT core record of one processor group, and its two logical processors. *)
Definition smt_of (r : list byte) : option SmtPair :=
  if (Codec.get r 0 4 =? RelationProcessorCore) && (48 <=? length r)%nat
     && negb (Z.land (Codec.get r 8 1) 1 =? 0) && (Codec.get r 30 2 =? 1)
  then smt_split (Codec.get r 32 8) else None.

Lemma rd_mid pre r post at_ n :
  (at_ + n ≤ length r)%nat →
  rd (pre ++ r ++ post) (length pre + at_) n = Some (Codec.get r at_ n).
Proof.
  intros. rewrite rd_Some by (rewrite !length_app; lia). f_equal.
  rewrite <-(Codec.get_app r post) by done. unfold Codec.get, slice.
  rewrite drop_app_ge by lia. do 3 f_equal. lia.
Qed.

Lemma pick_ccx_of pre r post :
  pick_ccx (pre ++ r ++ post) (length (pre ++ r ++ post)) (length pre) (Codec.get r 0 4)
    (length r) = Some (ccx_of r).
Proof.
  unfold pick_ccx, ccx_of.
  replace (_ + _ <=? _)%nat with true by (symmetry; apply Nat.leb_le; rewrite !length_app; lia).
  destruct (Nat.leb_spec 56 (length r)), (_ =? RelationCache); simpl; try done.
  rewrite !rd_mid by lia. simpl.
  by destruct (_ =? 3), (_ =? 0), (_ =? 1), (Codec.get r 40 8 =? 0).
Qed.

Lemma pick_smt_of pre r post :
  pick_smt (pre ++ r ++ post) (length (pre ++ r ++ post)) (length pre) (Codec.get r 0 4)
    (length r) = Some (smt_of r).
Proof.
  unfold pick_smt, smt_of.
  replace (_ + _ <=? _)%nat with true by (symmetry; apply Nat.leb_le; rewrite !length_app; lia).
  destruct (Nat.leb_spec 48 (length r)), (_ =? RelationProcessorCore); simpl; try done.
  rewrite !rd_mid by lia. simpl. by destruct (_ && _).
Qed.

Lemma walk_records {A} (pick : list byte → nat → nat → Z → nat → option (option A))
    (of_ : list byte → option A) :
  (∀ pre r post, pick (pre ++ r ++ post) (length (pre ++ r ++ post)) (length pre)
                   (Codec.get r 0 4) (length r) = Some (of_ r)) →
  ∀ rs fuel pre, Forall record_ok rs → (length rs < fuel)%nat →
  let b := pre ++ concat rs in
  walk fuel (pick b (length b)) b (length b) (length pre) = Some (omap of_ rs).
Proof.
  intros Hpick. induction rs as [|r rs IH]; intros fuel pre Hrs Hf b; subst b.
  - destruct fuel; [simpl in Hf; lia|]. simpl.
    by rewrite (proj2 (Nat.leb_gt _ _)) by (rewrite length_app; simpl; lia).
  - apply Forall_cons in Hrs as [[H8 Hsz] Hrs]. destruct fuel as [|fuel]; [simpl in Hf; lia|].
    cbn [walk concat]. rewrite (proj2 (Nat.leb_le _ _)) by (rewrite !length_app; lia).
    pose proof (rd_mid pre r (concat rs) 0 4 ltac:(lia)) as H0. rewrite Nat.add_0_r in H0.
    rewrite H0, rd_mid by lia. cbn [mbind option_bind]. rewrite Hsz.
    destruct (Z.eqb_spec (Z.of_nat (length r)) 0); [lia|]. rewrite Nat2Z.id, Hpick.
    cbn [mbind option_bind]. specialize (IH fuel (pre ++ r) Hrs).
    rewrite <-app_assoc, length_app in IH. rewrite IH by (simpl in Hf; lia).
    simpl. by destruct (of_ r).
Qed.

Lemma records_fit rs : Forall record_ok rs → (length rs < S (length (concat rs)))%nat.
Proof.
  intros Hrs. induction Hrs as [|r rs [??] _ IH]; simpl; [lia|]. rewrite length_app. lia.
Qed.

(** The parsers return what the records say.  On a buffer that is a sequence
    of well-formed records, every record is visited once and in order:
    [EnumerateCcxMasks] returns the masks of the L3 records of one group and
    [EnumerateSmtPairs] the pairs of the two-thread cores of one group. *)
Theorem enumerate_records rs :
  Forall record_ok rs →
  let b := concat rs in
  EnumerateCcxMasks true b (length b) = Some (omap ccx_of rs) ∧
  EnumerateSmtPairs true b (length b) = Some (omap smt_of rs).
Proof.
  intros Hrs b. pose proof (records_fit rs Hrs) as Hf. fold b in Hf.
  unfold EnumerateCcxMasks, EnumerateSmtPairs. simpl negb. cbv iota.
  assert (rs = [] ∨ length b ≠ 0%nat) as [->|Hb].
  { destruct Hrs as [|r rs [??]]; [by left|right]. subst b. simpl. rewrite length_app. lia. }
  { done. }
  rewrite (proj2 (Nat.eqb_neq _ _) Hb). split.
  - exact (walk_records pick_ccx ccx_of pick_ccx_of rs _ [] Hrs Hf).
  - exact (walk_records pick_smt smt_of pick_smt_of rs _ [] Hrs Hf).
Qed.

(** One core with logical processors 0 and 1. *)
Definition ex_smt_record : list byte :=
  replicate 4 Byte.x00 ++ [Byte.x30; Byte.x00; Byte.x00; Byte.x00; Byte.x01] ++
  replicate 21 Byte.x00 ++ [Byte.x01; Byte.x00; Byte.x03] ++ replicate 15 Byte.x00.

Lemma enumerate_records_witness :
  let b := concat [ex_smt_record; ex_smt_record] in
  EnumerateCcxMasks true b (length b) = Some (omap ccx_of [ex_smt_record; ex_smt_record]) ∧
  EnumerateSmtPairs true b (length b) = Some (omap smt_of [ex_smt_record; ex_smt_record]).
Proof.
  apply enumerate_records. repeat constructor; vm_compute; first [reflexivity|lia].
Defined.

(** *** Splitting a two-processor mask *)

Lemma land_double_even a b : Z.land (2 * a) (2 * b) = 2 * Z.land a b.
Proof.
  apply Z.bits_inj'. intros n Hn. rewrite Z.land_spec.
  destruct (Z.eq_dec n 0) as [->|]; [by rewrite !Z.testbit_even_0|].
  replace n with (Z.succ (Z.pred n)) by lia.
  rewrite !Z.testbit_even_succ, Z.land_spec by lia. done.
Qed.

Lemma land_double_odd a b : Z.land (2 * a) (2 * b + 1) = 2 * Z.land a b.
Proof.
  apply Z.bits_inj'. intros n Hn. rewrite Z.land_spec.
  destruct (Z.eq_dec n 0) as [->|]; [by rewrite !Z.testbit_even_0|].
  replace n with (Z.succ (Z.pred n)) by lia.
  rewrite !Z.testbit_even_succ, Z.testbit_odd_succ, Z.land_spec by lia. done.
Qed.

Lemma land_odd_odd a b : Z.land (2 * a + 1) (2 * b + 1) = 2 * Z.land a b + 1.
Proof.
  apply Z.bits_inj'. intros n Hn. rewrite Z.land_spec.
  destruct (Z.eq_dec n 0) as [->|]; [by rewrite !Z.testbit_odd_0|].
  replace n with (Z.succ (Z.pred n)) by lia.
  rewrite !Z.testbit_odd_succ, Z.land_spec by lia. done.
Qed.

(** Every positive number is a power of two times an odd number. *)
Lemma lowest_bit m : 0 < m → ∃ k q, 0 <= k ∧ 0 <= q ∧ m = 2 ^ k * (2 * q + 1).
Proof.
  destruct m as [|p|p]; [lia| |lia]. intros _. induction p as [p _|p (k&q&?&?&E)|].
  - exists 0, (Zpos p). rewrite Pos2Z.inj_xI. lia.
  - exists (k + 1), q. rewrite Pos2Z.inj_xO, E, Z.pow_add_r by lia. lia.
  - exists 0, 0. lia.
Qed.

Lemma clear_lowest k q :
  0 <= k → let m := 2 ^ k * (2 * q + 1) in Z.land m (m - 1) = 2 ^ (k + 1) * q.
Proof.
  intros Hk m. subst m. pattern k. apply natlike_ind; [| |exact Hk].
  - rewrite Z.mul_1_l, Z.land_comm. replace (2 * q + 1 - 1) with (2 * q) by lia.
    rewrite land_double_odd, Z.land_diag. lia.
  - intros x Hx IH. rewrite Z.pow_succ_r by done.
    replace (2 * 2 ^ x * (2 * q + 1) - 1) with (2 * (2 ^ x * (2 * q + 1) - 1) + 1) by lia.
    replace (2 * 2 ^ x * (2 * q + 1)) with (2 * (2 ^ x * (2 * q + 1))) by lia.
    rewrite land_double_odd, IH, Z.pow_add_r, Z.pow_add_r, Z.pow_succ_r by lia. lia.
Qed.

Lemma isolate_lowest k q :
  0 <= k → let m := 2 ^ k * (2 * q + 1) in Z.land m (- m) = 2 ^ k.
Proof.
  intros Hk m. subst m. pattern k. apply natlike_ind; [| |exact Hk].
  - rewrite Z.mul_1_l. replace (- (2 * q + 1)) with (2 * Z.lnot q + 1) by (unfold Z.lnot; lia).
    by rewrite land_odd_odd, Z.land_lnot_diag.
  - intros x Hx IH. rewrite Z.pow_succ_r by done.
    replace (2 * 2 ^ x * (2 * q + 1)) with (2 * (2 ^ x * (2 * q + 1))) by lia.
    replace (- (2 * (2 ^ x * (2 * q + 1)))) with (2 * - (2 ^ x * (2 * q + 1))) by lia.
    by rewrite land_double_even, IH.
Qed.

Lemma land_u64 m x : is_u64 m → Z.land m (u64 x) = Z.land m x.
Proof.
  intros. unfold u64. rewrite <-Z.land_ones by lia. rewrite (Z.land_comm x), Z.land_assoc.
  by rewrite Z.land_ones, Z.mod_small by lia.
Qed.

Lemma smt_host k q :
  0 <= k → let m := 2 ^ k * (2 * q + 1) in is_u64 m →
  Z.land m (u64 (not64 m + 1)) = 2 ^ k.
Proof.
  intros Hk m Hm. rewrite <-(isolate_lowest k q Hk). fold m. rewrite land_u64 by done.
  rewrite <-(land_u64 m (not64 m + 1)), <-(land_u64 m (- m)) by done. f_equal.
  unfold u64, not64. replace (2 ^ 64 - 1 - m + 1) with (- m + 1 * 2 ^ 64) by lia.
  by rewrite Z.mod_add by lia.
Qed.

Lemma smt_guest k q :
  0 <= k → let m := 2 ^ k * (2 * q + 1) in is_u64 m →
  Z.land m (not64 (2 ^ k)) = 2 ^ (k + 1) * q.
Proof.
  intros Hk m Hm. rewrite <-(land_u64 m) by done.
  replace (u64 (not64 (2 ^ k))) with (u64 (Z.lnot (2 ^ k))); cycle 1.
  { unfold u64, not64, Z.lnot.
    replace (2 ^ 64 - 1 - 2 ^ k) with (Z.pred (- 2 ^ k) + 1 * 2 ^ 64) by lia.
    by rewrite Z.mod_add by lia. }
  rewrite land_u64, <-Z.ldiff_land by done. rewrite <-Z.sub_nocarry_ldiff.
  - subst m. rewrite Z.pow_add_r by lia. lia.
  - rewrite <-(isolate_lowest k q Hk). fold m. apply Z.bits_inj'. intros n Hn.
    rewrite Z.ldiff_spec, Z.land_spec, Z.bits_0. by destruct (Z.testbit m n), (Z.testbit (- m) n).
Qed.

Lemma two_bits_decompose i j :
  0 <= i < j → 2 ^ i + 2 ^ j = 2 ^ i * (2 * 2 ^ (j - i - 1) + 1).
Proof.
  intros. replace j with (i + (1 + (j - i - 1))) at 1 by lia. rewrite !Z.pow_add_r by lia. lia.
Qed.

(** The count of the loop, on the decomposition of a mask. *)
Lemma count_bits_two m :
  is_u64 m →
  count_bits 3 m 0 = 2%nat ↔ ∃ i j, 0 <= i < j ∧ m = 2 ^ i + 2 ^ j.
Proof.
  intros Hm. split.
  - cbn [count_bits Nat.ltb Nat.leb]. destruct (Z.eqb_spec m 0); [done|].
    destruct (lowest_bit m) as (k&q&?&?&E); [lia|]. rewrite (u64_id (m - 1)) by lia.
    pose proof (clear_lowest k q) as Hc. cbv zeta in Hc. rewrite <-E in Hc.
    rewrite Hc by done. set (m1 := 2 ^ (k + 1) * q) in *.
    assert (0 <= m1 < m).
    { assert (0 < 2 ^ k) by (apply Z.pow_pos_nonneg; lia).
      subst m1. rewrite Z.pow_add_r by lia. split; nia. }
    destruct (Z.eqb_spec m1 0); [done|].
    destruct (lowest_bit m1) as (k'&q'&?&?&E'); [lia|]. rewrite (u64_id (m1 - 1)) by lia.
    pose proof (clear_lowest k' q') as Hc'. cbv zeta in Hc'. rewrite <-E' in Hc'.
    rewrite Hc' by done. destruct (Z.eqb_spec (2 ^ (k' + 1) * q') 0) as [Hz|]; [|done].
    intros _. assert (0 < 2 ^ (k' + 1)) by (apply Z.pow_pos_nonneg; lia).
    assert (q' = 0) as -> by nia. exists k, k'.
    assert (m1 = 2 ^ k') as E1 by lia. split; cycle 1.
    { rewrite <-E1, E. subst m1. rewrite Z.pow_add_r by lia. lia. }
    split; [done|]. destruct (decide (k < k')) as [|Hle]; [done|].
    assert (2 ^ k' <= 2 ^ k) by (apply Z.pow_le_mono_r; lia).
    assert (0 < 2 ^ k) by (apply Z.pow_pos_nonneg; lia).
    assert (2 ^ (k + 1) = 2 * 2 ^ k) by (rewrite Z.pow_add_r; lia).
    assert (q ≠ 0) by (intros ->; lia).
    assert (2 ^ (k + 1) * 1 <= m1) by (apply Z.mul_le_mono_nonneg_l; lia). lia.
  - intros (i&j&?&E). assert (0 < 2 ^ i) by (apply Z.pow_pos_nonneg; lia).
    assert (0 < 2 ^ j) by (apply Z.pow_pos_nonneg; lia).
    assert (m = 2 ^ i * (2 * 2 ^ (j - i - 1) + 1)) as Ei by (rewrite E; by apply two_bits_decompose).
    cbn [count_bits Nat.ltb Nat.leb]. rewrite (proj2 (Z.eqb_neq m 0)), (u64_id (m - 1)) by lia.
    pose proof (clear_lowest i (2 ^ (j - i - 1))) as Hc. cbv zeta in Hc. rewrite <-Ei in Hc.
    rewrite Hc by lia. rewrite <-Z.pow_add_r by lia. replace (i + 1 + (j - i - 1)) with j by lia.
    rewrite (proj2 (Z.eqb_neq (2 ^ j) 0)), (u64_id (2 ^ j - 1)) by lia.
    pose proof (clear_lowest j 0) as Hj. cbv zeta in Hj.
    rewrite !Z.mul_0_r, Z.add_0_l, Z.mul_1_r in Hj. by rewrite Hj by lia.
Qed.

Lemma smt_split_pair i j :
  0 <= i < j → is_u64 (2 ^ i + 2 ^ j) →
  smt_split (2 ^ i + 2 ^ j) = Some (mkSmtPair (2 ^ i) (2 ^ j)).
Proof.
  intros Hij Hm. unfold smt_split.
  assert (count_bits 3 (2 ^ i + 2 ^ j) 0 = 2%nat) as ->
    by (apply count_bits_two; [exact Hm|exists i, j; auto]).
  cbv beta iota zeta delta [Nat.eqb]. rewrite two_bits_decompose in * by exact Hij.
  rewrite smt_host by (exact Hm || lia). rewrite smt_guest by (exact Hm || lia).
  rewrite <-Z.pow_add_r by lia. do 3 f_equal. lia.
Qed.

(** An SMT pair is exactly the two logical processors of its core.  For a
    64-bit mask, [EnumerateSmtPairs] emits a pair if and only if the mask has
    exactly two bits [i < j]; the host half is then bit [i] and the guest half
    bit [j], so the halves are disjoint single processors that cover the mask. *)
Theorem smt_split_spec mask p :
  is_u64 mask →
  smt_split mask = Some p ↔
  ∃ i j, 0 <= i < j ∧ mask = 2 ^ i + 2 ^ j ∧ p = mkSmtPair (2 ^ i) (2 ^ j).
Proof.
  intros Hm. split.
  - intros Hs. assert (count_bits 3 mask 0 = 2%nat) as Hc.
    { unfold smt_split in Hs. by destruct (Nat.eqb_spec (count_bits 3 mask 0) 2). }
    apply count_bits_two in Hc as (i&j&?&->); [|done].
    rewrite smt_split_pair in Hs by done. exists i, j. by simplify_eq.
  - intros (i&j&?&->&->). by apply smt_split_pair.
Qed.

Lemma smt_split_spec_witness :
  smt_split 40 = Some (mkSmtPair 8 32) ↔
  ∃ i j, 0 <= i < j ∧ 40 = 2 ^ i + 2 ^ j ∧ mkSmtPair 8 32 = mkSmtPair (2 ^ i) (2 ^ j).
Proof. apply smt_split_spec. lia. Defined.
