(* ===== verification/WaitStrategy.v ===== *)
(** * WaitStrategy (include/shm/WaitStrategy.h)

    Adaptive spin, then sleep.  [Wait] is the template method: the condition and
    the sleep action are programs, [currentLimit] is passed in and returned. *)

From S2P Require Export Platform.

Local Open Scope Z_scope.

Definition kMinSpin : Z := 100.
Definition kMaxSpin : Z := 50000.
Definition kIncStep : Z := 5000.
Definition kDecStep : Z := 1000.

(** The default constructor. *)
Definition initial_limit : Z := kMaxSpin.

Fixpoint spin (n : nat) (condition : prog bool) : prog bool :=
  match n with
  | O => Ret false
  | S n => let* b := condition in
           if b then Ret true else CpuRelax ;;; spin n condition
  end.

Definition grow (currentLimit : Z) : Z :=
  if currentLimit <? kMaxSpin then
    let l := currentLimit + kIncStep in if kMaxSpin <? l then kMaxSpin else l
  else currentLimit.

Definition shrink (currentLimit : Z) : Z :=
  if kMinSpin <? currentLimit then
    let l := currentLimit - kDecStep in if l <? kMinSpin then kMinSpin else l
  else currentLimit.

Definition Wait (currentLimit : Z) (condition : prog bool) (sleepAction : prog unit)
    : prog (bool * Z) :=
  let* ready := spin (Z.to_nat currentLimit) condition in
  if ready then Ret (true, grow currentLimit)
  else
    sleepAction ;;;
    let* ready := condition in
    Ret (ready, shrink currentLimit).

(** ** The adaptive limit *)

Definition limit_ok (l : Z) : Prop := kMinSpin <= l <= kMaxSpin.

Lemma grow_ok l : limit_ok l → limit_ok (grow l) ∧ l <= grow l.
Proof.
  unfold limit_ok, grow. intros. destruct (Z.ltb_spec l kMaxSpin); [|lia].
  cbv zeta. unfold kMinSpin, kMaxSpin, kIncStep in *. case_match; lia.
Qed.

Lemma shrink_ok l : limit_ok l → limit_ok (shrink l) ∧ shrink l <= l.
Proof.
  unfold limit_ok, shrink. intros. destruct (Z.ltb_spec kMinSpin l); [|lia].
  cbv zeta. unfold kMinSpin, kMaxSpin, kDecStep in *. case_match; lia.
Qed.

(** ** What a wait does, against a protocol monitor

    The rule for [Wait]: [Inv] is kept by a failing condition and by the sleep
    action, a condition that holds establishes [Q true], and the final condition
    decides the result. *)
Section Wait_rule.
Context {M : Type} (total : bool) (mon : monitor M) (Inv : M → Prop).

Hypothesis pause_ok : ∀ m, Inv m → mon m _ Pause tt = Next m.

Lemma obeys_spin cond (Q : M → Prop) n : ∀ m,
  Inv m →
  (∀ m, Inv m → obeys total mon cond m (λ (b : bool) m', if b then Q m' else Inv m')) →
  obeys total mon (spin n cond) m (λ (b : bool) m', if b then Q m' else Inv m').
Proof using pause_ok.
  induction n as [|n IH]; intros m Hm Hc; simpl; [done|].
  apply obeys_bind. eapply obeys_mono, Hc, Hm. intros [] m' H; simpl; [done|].
  intros []. rewrite pause_ok by done. by apply IH.
Qed.

Lemma obeys_Wait cond sleep l (Q : M → Prop) (P : bool → Z → M → Prop) m :
  Inv m →
  (∀ m, Inv m → obeys total mon cond m (λ (b : bool) m', if b then Q m' else Inv m')) →
  (∀ m, Inv m → obeys total mon sleep m (λ _, Inv)) →
  (∀ m, Q m → P true (grow l) m ∧ P true (shrink l) m) →
  (∀ m, Inv m → P false (shrink l) m) →
  obeys total mon (Wait l cond sleep) m (λ r m', P r.1 r.2 m').
Proof using pause_ok.
  intros Hm Hc Hs HQ HF. unfold Wait. apply obeys_bind.
  eapply obeys_mono, (obeys_spin cond Q); [|done..]. intros [] m' H; simpl.
  { by apply HQ. }
  apply obeys_bind. eapply obeys_mono, Hs, H. intros [] m2 H2.
  apply obeys_bind. eapply obeys_mono, Hc, H2. intros [] m3 H3; simpl; [by apply HQ|by apply HF].
Qed.
End Wait_rule.

Lemma within_spin (P : ∀ X, op X → bool) n cond :
  P _ Pause = true → within P cond (λ _, True) → within P (spin n cond) (λ _, True).
Proof.
  intros HP Hc. induction n as [|n IH]; cbn [spin]; [done|]. unfold CpuRelax.
  within_walk ltac:(exact HP).
Qed.

Lemma within_Wait (P : ∀ X, op X → bool) l cond sleep :
  P _ Pause = true → within P cond (λ _, True) → within P sleep (λ _, True) →
  within P (Wait l cond sleep) (λ _, True).
Proof.
  intros. unfold Wait. pose proof (within_spin P (Z.to_nat l) cond). within_walk idtac.
Qed.

(** The adaptive spin limit is confined.  Starting anywhere in
    [kMinSpin, kMaxSpin], a wait whose spin succeeds never lowers the limit, one
    that has to sleep never raises it, and both stay in that interval, so the
    spin phase always performs between 100 and 50000 polls. *)
Theorem limit_confined l : limit_ok initial_limit ∧
  (limit_ok l → limit_ok (grow l) ∧ l <= grow l ∧ limit_ok (shrink l) ∧ shrink l <= l).
Proof.
  split; [unfold limit_ok; by vm_compute|]. intros H.
  destruct (grow_ok l H), (shrink_ok l H). auto.
Qed.

Lemma limit_confined_witness : limit_ok (shrink 50000) ∧ shrink 50000 <= 50000.
Proof. apply (limit_confined 50000). unfold limit_ok. by vm_compute. Defined.
