(* ===== verification/SlotAllocator.v ===== *)
(** * SlotAllocator (include/shm/SlotAllocator.h)

    Claiming, sending on, waiting for and reclaiming slots, as programs over the
    shared memory of [Machine].  One definition per method, operations in the
    order of the source.

    - [SlotInfo], [Allocator]: the host-side members that are fixed while the
      host runs ([numSlots], buffer sizes, event handles); the mutable members of
      [Slot] ([msgSeq], [activeWait], [waitStrategy]) and [nextSlot],
      [autoReclaimTimeoutNs], [running] are locations of [Machine].
    - [fuel] bounds the unbounded retry and wait loops ([Diverge] beyond it).
    - [Fault] is undefined behaviour: an index past the end of [slots], or a
      remainder by zero.
    - the thread-local [cachedSlotIdx] of [AcquireSlot] is passed in and out.
    - a [CopySmall] from a response buffer is the operation [CopyOut]
      ([Platform.CopySmall_memcpy] shows that it is a plain copy). *)

From S2P Require Export Result WaitStrategy.

Local Open Scope Z_scope.

Definition USE_DEFAULT_TIMEOUT : Z := 0xFFFFFFFF.
Definition INFINITE : Z := 0xFFFFFFFF.

Record SlotInfo : Type := mkSlot {
  maxReqSize : Z; maxRespSize : Z; hReqEvent : Z; hRespEvent : Z }.

Record Allocator : Type := mkAllocator {
  slots : list SlotInfo; numSlots : Z; numGuestSlots : Z; msgSeqStride : Z;
  responseTimeoutMs : Z }.

Definition b2z (b : bool) : Z := if b then 1 else 0.

Definition load (i : nat) (f : field) : prog Z := call (Load (LSlot i f)).
Definition store (i : nat) (f : field) (v : Z) : prog unit := call (Store (LSlot i f) v).
Definition cas (i : nat) (f : field) (e d : Z) : prog (bool * Z) := call (Cas (LSlot i f) e d).

(** [*running] *)
Definition is_running : prog bool :=
  let* r := call (Load L_running) in Ret (negb (r =? 0)).

(** Results of the receiving methods: the [Result<int>] and [outResp] after the
    call ([outResp] is the argument where the method does not assign it). *)
Abbreviation response := (Result.t Z * list byte)%type.

Section methods.
Context (A : Allocator) (fuel : nat).

(** [slots[idx]]; past the end it is undefined behaviour. *)
Definition with_slot {X} (idx : Z) (f : nat → SlotInfo → prog X) : prog X :=
  match slots A !! Z.to_nat idx with
  | Some s => f (Z.to_nat idx) s
  | None => Fault
  end.

(** [slotIdx < 0 || slotIdx >= (int32_t)numSlots] *)
Definition bad_index (slotIdx : Z) : bool := (slotIdx <? 0) || (i32 (numSlots A) <=? slotIdx).

Definition effective_timeout (timeoutMs : Z) : Z :=
  if timeoutMs =? USE_DEFAULT_TIMEOUT then responseTimeoutMs A else timeoutMs.

(** ** Waiting for a response *)

Definition checkReady (i : nat) : prog bool :=
  let* v := load i F_state in Ret (v =? SLOT_RESP_READY).

Definition sleepAction (i : nat) (s : SlotInfo) (timeoutMs : Z) : prog unit :=
  store i F_hostState HOST_STATE_WAITING ;;;
  let* ready := checkReady i in
  if ready then store i F_hostState HOST_STATE_ACTIVE
  else
    let* start := call SteadyNow in
    loop fuel (λ _ : unit,
      let* ready := checkReady i in
      if ready then Ret (inr tt)
      else
        let* now := call SteadyNow in
        let elapsed := elapsed_ms now start in
        if negb (timeoutMs =? INFINITE) && (timeoutMs <=? elapsed) then Ret (inr tt)
        else
          let remaining := if timeoutMs =? INFINITE then INFINITE
                           else u32 (timeoutMs - u32 elapsed) in
          let waitTime := if 100 <? remaining then 100 else remaining in
          let waitTime := if timeoutMs =? INFINITE then 100 else waitTime in
          WaitEvent (hRespEvent s) waitTime ;;;
          Ret (inl tt)) tt ;;;
    store i F_hostState HOST_STATE_ACTIVE.

Definition WaitForRespReady (i : nat) (s : SlotInfo) (timeoutMs : Z) : prog bool :=
  let* limit := load i F_limit in
  let* (ready, limit') := Wait limit (checkReady i) (sleepAction i s timeoutMs) in
  store i F_limit limit' ;;;
  Ret ready.

Definition FinishWait (i : nat) (ready : bool) : prog unit :=
  (if ready then store i F_state SLOT_BUSY else Ret tt) ;;;
  store i F_activeWait 0.

(** [if (guestState == GUEST_STATE_WAITING) SignalEvent(hReqEvent)] *)
Definition ring_guest (i : nat) (s : SlotInfo) : prog unit :=
  let* g := load i F_guestState in
  if g =? GUEST_STATE_WAITING then SignalEvent (hReqEvent s) else Ret tt.

(** The publish sequence that [WaitResponse], [SendAcquiredAsync] and [SendHeld]
    share. *)
Definition publish_request (i : nat) (s : SlotInfo) : prog unit :=
  store i F_activeWait 1 ;;;
  store i F_hostState HOST_STATE_ACTIVE ;;;
  store i F_state SLOT_REQ_READY ;;;
  ring_guest i s.

Definition WaitResponse (i : nat) (s : SlotInfo) (timeoutMs : Z) : prog bool :=
  publish_request i s ;;;
  let* ready := WaitForRespReady i s timeoutMs in
  FinishWait i ready ;;;
  Ret ready.

(** ** Claiming *)

Definition stealable (current : Z) : bool :=
  (current =? SLOT_RESP_READY) || (current =? SLOT_REQ_READY) || (current =? SLOT_GUEST_BUSY).

Definition stamp_lease (i : nat) : prog unit :=
  let* now := MonotonicNanos in store i F_lease now.

Definition tryClaimSlot (i : nat) : prog bool :=
  let* genObserved := load i F_gen in
  let* current := load i F_state in
  if current =? SLOT_FREE then
    let* _ := call (FetchAdd (LSlot i F_gen) 1) in
    let* (ok, _) := cas i F_state current SLOT_BUSY in
    if ok then stamp_lease i ;;; Ret true else Ret false
  else if stealable current then
    let* waiting := load i F_activeWait in
    if negb (waiting =? 0) then Ret false
    else
      let* (ok, _) := cas i F_gen genObserved (u64 (genObserved + 1)) in
      if ok then
        let* (ok, _) := cas i F_state current SLOT_BUSY in
        if ok then stamp_lease i ;;; Ret true else Ret false
      else Ret false
  else Ret false.

Definition TryAcquireSlot : prog Z :=
  let* run := is_running in
  if negb run || (numSlots A =? 0) then Ret (-1)
  else
    let* n := call (FetchAdd L_nextSlot 1) in
    let start := n mod numSlots A in
    let* r := for_ (Z.to_nat (numSlots A)) 0 (λ n _,
      let idx := u32 (start + n) mod numSlots A in
      with_slot idx (λ i _,
        let* ok := tryClaimSlot i in
        if ok then Ret (inr (i32 idx)) else Ret (inl tt))) tt in
    Ret (match r with inr idx => idx | inl _ => -1 end).

Definition TryReclaimAbandonedSlot (slotIdx maxLeaseAgeNs : Z) : prog bool :=
  if (slotIdx <? 0) || (i32 (u32 (numSlots A + numGuestSlots A)) <=? slotIdx) then Ret false
  else with_slot slotIdx (λ i _,
    let* gen := load i F_gen in
    let* state := load i F_state in
    if state =? SLOT_FREE then Ret false
    else
      let* lease := load i F_lease in
      if lease =? 0 then Ret false
      else
        let* now := MonotonicNanos in
        if (now <=? lease) || (u64 (now - lease) <=? maxLeaseAgeNs) then Ret false
        else
          let* lease' := load i F_lease in
          if negb (lease' =? lease) then Ret false
          else
            let* (ok, _) := cas i F_gen gen (u64 (gen + 1)) in
            if negb ok then Ret false
            else let* (ok, _) := cas i F_state state SLOT_FREE in Ret ok).

(** The sweep over all host slots at the end of a full round of [AcquireSlot]. *)
Definition reclaim_sweep : prog unit :=
  let* thresh := call (Load L_autoReclaim) in
  if 0 <? thresh then
    let* _ := for_ (Z.to_nat (numSlots A)) 0 (λ i _,
      let* _ := TryReclaimAbandonedSlot (i32 i) thresh in Ret (inl tt : unit + unit)) tt in
    Ret tt
  else Ret tt.

(** The result and the new value of [cachedSlotIdx]. *)
Definition AcquireSlot (cachedSlotIdx : Z) : prog (Z * Z) :=
  let* run := is_running in
  if negb run then Ret (-1, cachedSlotIdx)
  else
    let* hit := (if cachedSlotIdx <? numSlots A
                 then with_slot cachedSlotIdx (λ i _, tryClaimSlot i) else Ret false) in
    if hit then Ret (i32 cachedSlotIdx, cachedSlotIdx)
    else
      let* n := call (FetchAdd L_nextSlot 1) in
      if numSlots A =? 0 then Fault
      else
        loop fuel (λ '(idx, retries),
          with_slot idx (λ i _,
            let* ok := tryClaimSlot i in
            if ok then Ret (inr (i32 idx, idx))
            else
              let idx := u32 (idx + 1) in
              let* idx := (if numSlots A <=? idx then reclaim_sweep ;;; Ret 0 else Ret idx) in
              let retries := retries + 1 in
              if i32 (numSlots A) * 100 <? retries
              then ThreadYield ;;; Ret (inl (idx, 0))
              else Ret (inl (idx, retries)))) (n mod numSlots A, 0).

Definition AcquireSpecificSlot (slotIdx timeoutMs : Z) : prog Z :=
  let* run := is_running in
  if negb run || bad_index slotIdx then Ret (-1)
  else with_slot slotIdx (λ i _,
    let effectiveTimeout := effective_timeout timeoutMs in
    (* [start]: [None] until the first clock read ([timing]) *)
    loop fuel (λ '(start, retries),
      let* ok := tryClaimSlot i in
      if ok then Ret (inr slotIdx)
      else
        CpuRelax ;;;
        let retries := retries + 1 in
        if 1000 <? retries then
          if negb (effectiveTimeout =? INFINITE) then
            let* now := call SteadyNow in
            let start := default now start in
            if effectiveTimeout <=? elapsed_ms now start then Ret (inr (-1))
            else ThreadYield ;;; Ret (inl (Some start, 0))
          else ThreadYield ;;; Ret (inl (start, 0))
        else Ret (inl (start, retries))) (None, 0)).

(** ** Members *)

Definition SetAutoReclaimTimeoutNs (timeoutNs : Z) : prog unit :=
  call (Store L_autoReclaim timeoutNs).

Definition GetAutoReclaimTimeoutNs : prog Z := call (Load L_autoReclaim).

(** The buffer, [None] for a null pointer. *)
Definition GetReqBuffer (slotIdx : Z) : option buffer :=
  if bad_index slotIdx then None else Some (BReq (Z.to_nat slotIdx)).

Definition GetMaxReqSize (slotIdx : Z) : prog Z :=
  if bad_index slotIdx then Ret 0 else with_slot slotIdx (λ _ s, Ret (i32 (maxReqSize s))).

Definition SignalSlot (slotIdx : Z) : prog unit :=
  if bad_index slotIdx then Ret tt else with_slot slotIdx (λ _ s, SignalEvent (hReqEvent s)).

Definition WaitForSlotEvent (slotIdx timeoutMs : Z) : prog bool :=
  if bad_index slotIdx then Ret false
  else with_slot slotIdx (λ _ s, WaitEvent (hRespEvent s) timeoutMs).

(** ** Sending *)

(** [reqSize], [msgType] and [msgSeq] of the header; the sequence number used. *)
Definition write_request (i : nat) (size : Z) (msgType : MsgType) : prog Z :=
  store i F_reqSize size ;;;
  store i F_msgType (MsgType_val msgType) ;;;
  let* currentSeq := load i F_localSeq in
  store i F_msgSeq currentSeq ;;;
  store i F_localSeq (u32 (currentSeq + msgSeqStride A)) ;;;
  Ret currentSeq.

Definition load_i32 (i : nat) (f : field) : prog Z := let* v := load i f in Ret (i32 v).

(** [respSize] and its magnitude, clamped to the response area. *)
Definition read_resp_size (i : nat) (s : SlotInfo) : prog (Z * Z) :=
  let* respSize := load_i32 i F_respSize in
  let absResp := abs_u32 respSize in
  Ret (respSize, if maxRespSize s <? absResp then maxRespSize s else absResp).

(** The response as the new contents of [outResp]; a negative [respSize] means
    that it is aligned to the end of the area. *)
Definition copy_response (i : nat) (s : SlotInfo) : prog (list byte) :=
  let* (respSize, absResp) := read_resp_size i s in
  if 0 <? absResp then
    if 0 <=? respSize then call (CopyOut (BResp i) 0 absResp)
    else call (CopyOut (BResp i) (u32 (maxRespSize s - absResp)) absResp)
  else Ret [].

(** The two checks on a response that arrived: [Some e] refuses it and frees the
    slot. *)
Definition check_response (i : nat) (expectedSeq : Z) : prog (option Error) :=
  let* seq := load i F_msgSeq in
  if negb (seq =? expectedSeq) then
    store i F_state SLOT_FREE ;;; Ret (Some ProtocolViolation)
  else
    let* ty := load i F_msgType in
    if ty =? MsgType_val SYSTEM_ERROR then
      store i F_state SLOT_FREE ;;; Ret (Some InternalError)
    else Ret None.

Definition resp_len (data : list byte) : Z := i32 (Z.of_nat (length data)).

Definition SendAcquiredAsync (slotIdx size : Z) (msgType : MsgType) : prog ResultVoid.t :=
  if bad_index slotIdx then Ret (ResultVoid.Failure InvalidArgs)
  else with_slot slotIdx (λ i s,
    if maxReqSize s <? abs_u32 size then
      store i F_state SLOT_FREE ;;; Ret (ResultVoid.Failure BufferTooSmall)
    else
      let* _ := write_request i size msgType in
      publish_request i s ;;;
      Ret ResultVoid.Success).

Definition WaitForSlot (slotIdx : Z) (outResp : list byte) (timeoutMs : Z) : prog response :=
  if bad_index slotIdx then Ret (Err InvalidArgs, outResp)
  else with_slot slotIdx (λ i s,
    let t := effective_timeout timeoutMs in
    store i F_activeWait 1 ;;;
    store i F_hostState HOST_STATE_ACTIVE ;;;
    let* ready := WaitForRespReady i s t in
    FinishWait i ready ;;;
    if negb ready then Ret (Err Timeout, outResp)
    else
      let* seq := load i F_localSeq in
      let* refused := check_response i (u32 (seq - msgSeqStride A)) in
      match refused with
      | Some e => Ret (Err e, outResp)
      | None =>
          let* data := copy_response i s in
          store i F_state SLOT_FREE ;;;
          Ret (Ok (resp_len data), data)
      end).

Definition SendAcquired (slotIdx size : Z) (msgType : MsgType) (outResp : list byte)
    (timeoutMs : Z) : prog response :=
  if bad_index slotIdx then Ret (Err InvalidArgs, outResp)
  else with_slot slotIdx (λ i s,
    if maxReqSize s <? abs_u32 size then
      store i F_state SLOT_FREE ;;; Ret (Err BufferTooSmall, outResp)
    else
      let* currentSeq := write_request i size msgType in
      let* ready := WaitResponse i s (effective_timeout timeoutMs) in
      if negb ready then Ret (Err Timeout, outResp)
      else
        let* refused := check_response i currentSeq in
        match refused with
        | Some e => Ret (Err e, outResp)
        | None =>
            let* data := copy_response i s in
            store i F_state SLOT_FREE ;;;
            Ret (Ok (resp_len data), data)
        end).

(** As [SendAcquired], but the lease is renewed and a successful call leaves the
    slot [SLOT_BUSY], owned by the caller. *)
Definition SendHeld (slotIdx size : Z) (msgType : MsgType) (outResp : list byte)
    (timeoutMs : Z) : prog response :=
  if bad_index slotIdx then Ret (Err InvalidArgs, outResp)
  else with_slot slotIdx (λ i s,
    if maxReqSize s <? abs_u32 size then Ret (Err BufferTooSmall, outResp)
    else
      let* currentSeq := write_request i size msgType in
      stamp_lease i ;;;
      publish_request i s ;;;
      let* ready := WaitForRespReady i s (effective_timeout timeoutMs) in
      FinishWait i ready ;;;
      if negb ready then Ret (Err Timeout, outResp)
      else
        let* refused := check_response i currentSeq in
        match refused with
        | Some e => Ret (Err e, outResp)
        | None =>
            let* data := copy_response i s in
            Ret (Ok (resp_len data), data)
        end).

Definition ReleaseHeldSlot (slotIdx : Z) : prog unit :=
  if bad_index slotIdx then Ret tt
  else with_slot slotIdx (λ i _, store i F_state SLOT_FREE).
End methods.
