(* ===== verification/GuestCallWorker.v ===== *)
(** * GuestCallWorker (include/shm/GuestCallWorker.h)

    The host side of guest calls: waiting for a request on the guest slots and
    serving them through a handler.  One definition per method.

    - [spin_], [waitStrategy] of the worker: the flag is an argument, the limit is
      the location [L_workerLimit].
    - the handler is the operation [RunHandler]: it sees request bytes
      [off, off + n) and writes a response of at most the announced size.
    - [Start] returns whether a thread is spawned; the thread body is
      [GuestWorkerLoop].  [Stop] ends with [join], which the model leaves out. *)

From S2P Require Export SlotAllocator.

Local Open Scope Z_scope.

Definition kFallbackPollMs : Z := 100.

Section methods.
Context (A : Allocator) (fuel : nat).

(** 0 is the null handle. *)
Definition GuestRequestEvent : prog Z :=
  if (0 <? numGuestSlots A)
     && (u32 (numSlots A + numGuestSlots A) <=? Z.of_nat (length (slots A)))
  then with_slot A (numSlots A) (λ _ s, Ret (hReqEvent s))
  else Ret 0.

(** The loops [for (i = base; i < base + count; ++i)] over the guest slots. *)
Definition guest_count : nat :=
  Z.to_nat (u32 (numSlots A + numGuestSlots A) - numSlots A).

Definition anyRequestReady : prog bool :=
  let* r := for_ guest_count (numSlots A) (λ j _,
    with_slot A j (λ i _,
      let* st := load i F_state in
      if st =? SLOT_REQ_READY then Ret (inr tt) else Ret (inl tt))) tt in
  Ret (match r with inr _ => true | inl _ => false end).

Definition setHostState (v : Z) : prog unit :=
  let* _ := for_ guest_count (numSlots A) (λ j _,
    with_slot A j (λ i _, store i F_hostState v ;;; Ret (inl tt : unit + unit))) tt in
  Ret tt.

(** The nested [sleepAction]. *)
Definition guest_sleepAction (waitEvent timeoutMs : Z) : prog unit :=
  setHostState HOST_STATE_WAITING ;;;
  let* any := anyRequestReady in
  if any then setHostState HOST_STATE_ACTIVE
  else
    let* _ := WaitEvent waitEvent timeoutMs in
    setHostState HOST_STATE_ACTIVE.

Definition WaitForRequest (spin_ : bool) (timeoutMs : Z) : prog bool :=
  if numGuestSlots A =? 0 then
    (if 0 <? timeoutMs then call Pause else Ret tt) ;;; Ret false
  else
    let* waitEvent := GuestRequestEvent in
    if waitEvent =? 0 then call Pause ;;; anyRequestReady
    else if negb spin_ then
      guest_sleepAction waitEvent timeoutMs ;;; anyRequestReady
    else
      let* limit := call (Load L_workerLimit) in
      let* (_, limit') := Wait limit anyRequestReady (guest_sleepAction waitEvent timeoutMs) in
      call (Store L_workerLimit limit') ;;;
      anyRequestReady.

Definition WakeWaiter : prog unit :=
  let* ev := GuestRequestEvent in
  if negb (ev =? 0) then SignalEvent ev else Ret tt.

(** ** Serving *)

Definition LockForPublish (i : nat) : prog bool :=
  let* (ok, _) := cas i F_state SLOT_BUSY SLOT_DONE in Ret ok.

Definition PublishResponse (i : nat) (s : SlotInfo) : prog bool :=
  let* (ok, _) := cas i F_state SLOT_DONE SLOT_RESP_READY in
  if negb ok then Ret false
  else
    let* g := load i F_guestState in
    (if g =? GUEST_STATE_WAITING then SignalEvent (hRespEvent s) else Ret tt) ;;;
    Ret true.

(** The body for a slot whose request was claimed. *)
Definition serve_claimed (i : nat) (s : SlotInfo) : prog unit :=
  let* reqSize := load_i32 i F_reqSize in
  let absReqSize := abs_u32 reqSize in
  if maxReqSize s <? absReqSize then
    let* locked := LockForPublish i in
    if locked then
      store i F_respSize 0 ;;;
      store i F_msgType (MsgType_val SYSTEM_ERROR) ;;;
      let* _ := PublishResponse i s in Ret tt
    else Ret tt
  else
    let reqData := if 0 <=? reqSize then 0 else u32 (maxReqSize s - absReqSize) in
    let* ty := load i F_msgType in
    let* resp := call (RunHandler i reqData absReqSize (maxRespSize s) ty) in
    let respOverflow := maxRespSize s <? abs_u32 resp in
    let respSize := if respOverflow then 0 else resp in
    let* locked := LockForPublish i in
    if locked then
      (if respOverflow then store i F_msgType (MsgType_val SYSTEM_ERROR) else Ret tt) ;;;
      store i F_respSize respSize ;;;
      let* _ := PublishResponse i s in Ret tt
    else Ret tt.

(** The number of requests processed. *)
Definition ProcessGuestCalls (limit : Z) : prog Z :=
  let* run := is_running in
  if negb run then Ret 0
  else
    let* reclaim := call (Load L_autoReclaim) in
    let fastClaim := reclaim =? 0 in
    let* r := for_ guest_count (numSlots A) (λ j processed,
      if (0 <? limit) && (limit <=? processed) then Ret (inr processed)
      else with_slot A j (λ i s,
        let* current := load i F_state in
        if negb (current =? SLOT_REQ_READY) then Ret (inl processed)
        else
          (if negb fastClaim then let* _ := call (FetchAdd (LSlot i F_gen) 1) in Ret tt
           else Ret tt) ;;;
          let* (ok, _) := cas i F_state current SLOT_BUSY in
          if ok then
            (if negb fastClaim then stamp_lease i else Ret tt) ;;;
            serve_claimed i s ;;;
            Ret (inl (processed + 1))
          else Ret (inl processed))) 0 in
    Ret (match r with inl n | inr n => n end).

(** ** The worker thread *)

Definition GuestWorkerLoop (spin_ : bool) (maxBatchSize : Z) : prog unit :=
  loop fuel (λ _ : unit,
    let* run := call (Load L_workerRunning) in
    if run =? 0 then Ret (inr tt)
    else
      let* _ := WaitForRequest spin_ 1000 in
      let* _ := ProcessGuestCalls maxBatchSize in
      Ret (inl tt)) tt.

Definition Start : prog bool :=
  if numGuestSlots A =? 0 then Ret false
  else let* was := call (Exchange L_workerRunning 1) in Ret (was =? 0).

Definition Stop : prog unit :=
  let* was := call (Exchange L_workerRunning 0) in
  if negb (was =? 0) then WakeWaiter else Ret tt.
End methods.
