(* ===== verification/Guest.v ===== *)
(** * Guest: the guest's half of the doorbells (go/direct.go)

    The guest process is not part of the C++ library, but its sources are in the
    repository.  This file models the four places where it publishes to the host
    or goes to sleep, which the doorbell theorem of [Doorbell] pairs with their
    C++ counterparts. *)

From S2P Require Export GuestCallWorker.

Local Open Scope Z_scope.

(** The publish of a guest call ([sendGuestCallInternal]). *)
Definition guest_publish_request (i : nat) (reqEvent : Z) : prog unit :=
  store i F_state SLOT_REQ_READY ;;;
  let* h := load i F_hostState in
  if h =? HOST_STATE_WAITING then SignalEvent reqEvent else Ret tt.

(** [publishResponse]: phase 2 of the responder publish on a host slot. *)
Definition guest_publishResponse (i : nat) (respEvent : Z) : prog bool :=
  let* (ok, _) := cas i F_state SLOT_DONE SLOT_RESP_READY in
  if negb ok then let* _ := load i F_state in Ret false
  else
    let* h := load i F_hostState in
    (if h =? HOST_STATE_WAITING then SignalEvent respEvent else Ret tt) ;;;
    Ret true.

(** The [sleepAction] of a worker that waits for a host request
    ([workerLoopInternal]). *)
Definition guest_worker_sleep (i : nat) (reqEvent : Z) : prog unit :=
  store i F_guestState GUEST_STATE_WAITING ;;;
  let* st := load i F_state in
  if st =? SLOT_REQ_READY then store i F_guestState GUEST_STATE_ACTIVE
  else
    let* _ := WaitEvent reqEvent 100 in
    let* closing := call (Load L_guestClosing) in
    if closing =? 1 then Ret tt else store i F_guestState GUEST_STATE_ACTIVE.

(** The [sleepAction] of a guest that waits for the response of its guest call;
    [timeout] in nanoseconds. *)
Definition guest_call_sleep (fuel : nat) (i : nat) (respEvent timeout : Z) : prog unit :=
  store i F_guestState GUEST_STATE_WAITING ;;;
  let* st := load i F_state in
  if st =? SLOT_RESP_READY then store i F_guestState GUEST_STATE_ACTIVE
  else
    let* start := call SteadyNow in
    loop fuel (λ _ : unit,
      let* st := load i F_state in
      if st =? SLOT_RESP_READY then Ret (inr tt)
      else
        let* now := call SteadyNow in
        let elapsed := now - start in
        if timeout <=? elapsed then Ret (inr tt)
        else
          let remaining := timeout - elapsed in
          let waitMs := u32 (remaining / 1000000) in
          let waitMs := if (waitMs =? 0) && (0 <? remaining) then 1 else waitMs in
          let waitMs := if 100 <? waitMs then 100 else waitMs in
          let* _ := WaitEvent respEvent waitMs in
          Ret (inl tt)) tt ;;;
    store i F_guestState GUEST_STATE_ACTIVE.
