(* ===== verification/SlotSafety.v ===== *)
(** * SlotSafety: the slot layer against a hostile peer

    Every location of a [SlotHeader] can be overwritten by the other process at
    any time.  [safe_op] holds of an operation that stays inside
    the slot array and inside the request and response areas; [api] lists the
    methods of [SlotAllocator].  Every method obeys the monitor for every answer
    it may read, so no interleaving of host threads with an arbitrary guest
    reaches undefined behaviour, and a response that is returned to the caller
    has the length it announces, within the response area. *)

From S2P Require Export GuestCallWorker.

Local Open Scope Z_scope.

(** What [DirectHost::Init] establishes (see [DirectHost]). *)
Record alloc_ok (A : Allocator) : Prop := {
  ao_len : Z.of_nat (length (slots A)) = numSlots A + numGuestSlots A;
  ao_guest : 0 <= numGuestSlots A;
  ao_host : 0 < numSlots A;
  ao_total : numSlots A + numGuestSlots A < 2 ^ 31;
  ao_sizes : Forall (λ s, 0 <= maxReqSize s < 2 ^ 32 ∧ 0 <= maxRespSize s < 2 ^ 32) (slots A) }.

Definition in_slots (A : Allocator) (i : nat) : bool := (i <? length (slots A))%nat.

Definition safe_op (A : Allocator) {X} (o : op X) : bool :=
  let loc_ok l := match l with LSlot i _ => in_slots A i | _ => true end in
  match o with
  | Load l | Store l _ | Cas l _ _ | FetchAdd l _ | Exchange l _ => loc_ok l
  | CopyOut b off n =>
      match b with
      | BResp i => match slots A !! i with
                   | Some s => in_range off n (maxRespSize s)
                   | None => false
                   end
      | BReq i => match slots A !! i with
                  | Some s => in_range off n (maxReqSize s)
                  | None => false
                  end
      end
  | CopyIn b off data =>
      match b with
      | BResp i => match slots A !! i with
                   | Some s => in_range off (Z.of_nat (length data)) (maxRespSize s)
                   | None => false
                   end
      | BReq i => match slots A !! i with
                  | Some s => in_range off (Z.of_nat (length data)) (maxReqSize s)
                  | None => false
                  end
      end
  | RunHandler i off n maxResp _ =>
      match slots A !! i with
      | Some s => in_range off n (maxReqSize s) && (maxResp =? maxRespSize s)
      | None => false
      end
  | SetEvent _ | WaitObject _ _ | SteadyNow | FileTime | Pause => true
  end.

Definition safe_ops (A : Allocator) : ∀ X, op X → bool := @safe_op A.

(** [p] is safe whatever it reads, and [Q] holds of what it returns. *)
Abbreviation safe A p Q := (within (safe_ops A) p Q).

Lemma within_with_slot A {X} idx (f : nat → SlotInfo → prog X) P Q :
  0 <= idx < Z.of_nat (length (slots A)) →
  (∀ i s, Z.of_nat i = idx → slots A !! i = Some s → within P (f i s) Q) →
  within P (with_slot A idx f) Q.
Proof.
  intros Hi Hf. unfold with_slot.
  destruct (lookup_lt_is_Some_2 (slots A) (Z.to_nat idx)) as [s Hs]; [lia|].
  rewrite Hs. apply Hf; [lia|done].
Qed.

(** The side conditions of [safe]: operations on a slot known to exist. *)
Ltac safe_side :=
  simpl; try match goal with
  | H : slots ?A !! ?i = Some _ |- in_slots ?A ?i = true =>
      apply Nat.ltb_lt; exact (lookup_lt_Some _ _ _ H)
  end; try reflexivity.

Ltac safe_walk :=
  within_walk safe_side;
  try (apply within_with_slot; [try lia|];
       let i := fresh "i" in let s := fresh "s" in
       let Hi := fresh "Hi" in let Hs := fresh "Hs" in
       intros i s Hi Hs; within_walk safe_side).

Section methods.
Context (A : Allocator) (fuel : nat).
Context (i : nat) (s : SlotInfo) (Hs : slots A !! i = Some s).

Lemma safe_load f : safe A (load i f) (λ _, True).
Proof using Hs. unfold load. safe_walk. Qed.
Lemma safe_store f v : safe A (store i f v) (λ _, True).
Proof using Hs. unfold store. safe_walk. Qed.
Lemma safe_cas f e d : safe A (cas i f e d) (λ _, True).
Proof using Hs. unfold cas. safe_walk. Qed.
Lemma safe_fetch_add f d : safe A (call (FetchAdd (LSlot i f) d)) (λ _, True).
Proof using Hs. safe_walk. Qed.
Local Hint Resolve safe_load safe_store safe_cas safe_fetch_add : within.

Lemma safe_WaitEvent h t : safe A (WaitEvent h t) (λ _, True).
Proof. unfold WaitEvent. safe_walk. Qed.
Lemma safe_SignalEvent h : safe A (SignalEvent h) (λ _, True).
Proof. unfold SignalEvent. safe_walk. Qed.
Lemma safe_CpuRelax : safe A CpuRelax (λ _, True).
Proof. unfold CpuRelax. safe_walk. Qed.
Lemma safe_MonotonicNanos : safe A MonotonicNanos (λ _, True).
Proof. unfold MonotonicNanos. safe_walk. Qed.
Local Hint Resolve safe_WaitEvent safe_SignalEvent safe_CpuRelax safe_MonotonicNanos : within.

Lemma safe_Wait l cond sleep :
  safe A cond (λ _, True) → safe A sleep (λ _, True) → safe A (Wait l cond sleep) (λ _, True).
Proof. by apply within_Wait. Qed.

Lemma safe_checkReady : safe A (checkReady i) (λ _, True).
Proof using Hs. unfold checkReady. safe_walk. Qed.
Local Hint Resolve safe_Wait safe_checkReady : within.

Lemma safe_sleepAction t : safe A (sleepAction fuel i s t) (λ _, True).
Proof using Hs. unfold sleepAction. safe_walk. Qed.
Local Hint Resolve safe_sleepAction : within.

Lemma safe_WaitForRespReady t : safe A (WaitForRespReady fuel i s t) (λ _, True).
Proof using Hs. unfold WaitForRespReady. safe_walk. Qed.

Lemma safe_FinishWait b : safe A (FinishWait i b) (λ _, True).
Proof using Hs. unfold FinishWait. safe_walk. Qed.

Lemma safe_publish_request : safe A (publish_request i s) (λ _, True).
Proof using Hs. unfold publish_request, ring_guest. safe_walk. Qed.
Local Hint Resolve safe_WaitForRespReady safe_FinishWait safe_publish_request : within.

Lemma safe_WaitResponse t : safe A (WaitResponse fuel i s t) (λ _, True).
Proof using Hs. unfold WaitResponse. safe_walk. Qed.

Lemma safe_stamp_lease : safe A (stamp_lease i) (λ _, True).
Proof using Hs. unfold stamp_lease. safe_walk. Qed.
Local Hint Resolve safe_stamp_lease : within.

Lemma safe_tryClaimSlot : safe A (tryClaimSlot i) (λ _, True).
Proof using Hs. unfold tryClaimSlot. safe_walk. Qed.

Lemma safe_write_request size ty : safe A (write_request A i size ty) (λ _, True).
Proof using Hs. unfold write_request. safe_walk. Qed.

Lemma safe_check_response seq :
  safe A (check_response i seq) (λ r, r ≠ Some ENone).
Proof using Hs. unfold check_response. safe_walk; done. Qed.
End methods.

#[export] Hint Resolve safe_load safe_store safe_cas safe_fetch_add safe_WaitEvent
  safe_SignalEvent safe_CpuRelax safe_MonotonicNanos safe_WaitForRespReady safe_FinishWait
  safe_publish_request safe_WaitResponse safe_stamp_lease safe_tryClaimSlot
  safe_write_request : within.

(** ** Responses *)

(** What the caller gets: the announced length is the length of the data, within
    the response area; an error is never [Error::None] and leaves [outResp]
    untouched. *)
Definition response_ok (A : Allocator) (slotIdx : Z) (outResp : list byte) (r : response)
    : Prop :=
  match r.1 with
  | Result.Value_ n =>
      ∃ s, slots A !! Z.to_nat slotIdx = Some s ∧
        n = i32 (Z.of_nat (length r.2)) ∧ Z.of_nat (length r.2) <= maxRespSize s
  | Result.Error_ e => e ≠ ENone ∧ r.2 = outResp
  end.

Section responses.
Context (A : Allocator) (HA : alloc_ok A).

Lemma slot_sizes i s :
  slots A !! i = Some s → 0 <= maxReqSize s < 2 ^ 32 ∧ 0 <= maxRespSize s < 2 ^ 32.
Proof using HA. intros Hs. exact (Forall_lookup_1 _ _ _ _ (ao_sizes A HA) Hs). Qed.

Lemma good_index idx :
  bad_index A idx = false → 0 <= idx < Z.of_nat (length (slots A)).
Proof using HA.
  destruct HA. unfold bad_index. rewrite i32_id by lia.
  intros [?%Z.ltb_ge ?%Z.leb_gt]%orb_false_iff. lia.
Qed.

Lemma safe_read_resp_size i s :
  slots A !! i = Some s → safe A (read_resp_size i s) (λ r, 0 <= r.2 <= maxRespSize s).
Proof using HA.
  intros Hs. unfold read_resp_size, load_i32. destruct (slot_sizes i s Hs) as [_ ?].
  safe_walk. pose proof (abs_u32_range x). simpl.
  destruct (Z.ltb_spec (maxRespSize s) (abs_u32 x)); lia.
Qed.

Lemma safe_copy_response i s :
  slots A !! i = Some s →
  safe A (copy_response i s) (λ data, Z.of_nat (length data) <= maxRespSize s).
Proof using HA.
  intros Hs. unfold copy_response. destruct (slot_sizes i s Hs) as [_ ?].
  eapply within_bind; [by apply safe_read_resp_size|]. intros [r n] ?. simpl in *.
  destruct (Z.ltb_spec 0 n); [|apply within_ret; simpl; lia].
  rewrite (u32_id (maxRespSize s - n)) by lia.
  destruct (0 <=? r); (apply within_call; simpl; [|intros x ->%Nat.eqb_eq; lia]);
    rewrite Hs; unfold in_range; rewrite !andb_true_iff, !Z.leb_le; lia.
Qed.
End responses.

Lemma safe_is_running A : safe A is_running (λ _, True).
Proof. unfold is_running. safe_walk. Qed.
#[export] Hint Resolve safe_is_running : within.

Section api.
Context (A : Allocator) (fuel : nat) (HA : alloc_ok A).

Lemma response_ok_Ok i s slotIdx out data :
  Z.of_nat i = slotIdx → slots A !! i = Some s → Z.of_nat (length data) <= maxRespSize s →
  response_ok A slotIdx out (Ok (resp_len data), data).
Proof. intros <- ??. exists s. by rewrite Nat2Z.id. Qed.

Local Hint Resolve good_index response_ok_Ok : within.

(** The part that the receiving calls share: check, copy, finish. *)
Lemma safe_receive i s idx seq out (f : list byte → prog response) :
  Z.of_nat i = idx → slots A !! i = Some s →
  (∀ data, Z.of_nat (length data) <= maxRespSize s → safe A (f data) (response_ok A idx out)) →
  safe A (let* refused := check_response i seq in
          match refused with
          | Some e => Ret (Err e, out)
          | None => let* data := copy_response i s in f data
          end) (response_ok A idx out).
Proof using HA.
  intros Hi Hs Hf. eapply within_bind; [by eapply safe_check_response|].
  intros [e|] He; [apply within_ret; split; [congruence|done]|].
  eapply within_bind; [by apply safe_copy_response|]. exact Hf.
Qed.

Lemma safe_SendAcquired idx size ty out t :
  safe A (SendAcquired A fuel idx size ty out t) (response_ok A idx out).
Proof using HA.
  unfold SendAcquired. destruct (bad_index A idx) eqn:Hb; [by apply within_ret|].
  apply within_with_slot; [eauto with within|]. intros i s Hi Hs. safe_walk; try done.
  apply safe_receive; [done..|]. intros data Hd. safe_walk. eauto with within.
Qed.

Lemma safe_WaitForSlot idx out t :
  safe A (WaitForSlot A fuel idx out t) (response_ok A idx out).
Proof using HA.
  unfold WaitForSlot. destruct (bad_index A idx) eqn:Hb; [by apply within_ret|].
  apply within_with_slot; [eauto with within|]. intros i s Hi Hs. safe_walk; try done.
  apply safe_receive; [done..|]. intros data Hd. safe_walk. eauto with within.
Qed.

Lemma safe_SendHeld idx size ty out t :
  safe A (SendHeld A fuel idx size ty out t) (response_ok A idx out).
Proof using HA.
  unfold SendHeld. destruct (bad_index A idx) eqn:Hb; [by apply within_ret|].
  apply within_with_slot; [eauto with within|]. intros i s Hi Hs. safe_walk; try done.
  apply safe_receive; [done..|]. intros data Hd. safe_walk. eauto with within.
Qed.

Lemma safe_SendAcquiredAsync idx size ty :
  safe A (SendAcquiredAsync A idx size ty) (λ _, True).
Proof using HA.
  unfold SendAcquiredAsync. destruct (bad_index A idx) eqn:Hb; [by apply within_ret|].
  apply within_with_slot; [eauto with within|]. intros. safe_walk.
Qed.

(** An acquired index is a host slot. *)
Definition acquired_ok (idx : Z) : Prop := idx = -1 ∨ 0 <= idx < numSlots A.

Lemma safe_TryReclaimAbandonedSlot idx age :
  safe A (TryReclaimAbandonedSlot A idx age) (λ _, True).
Proof using HA.
  unfold TryReclaimAbandonedSlot. destruct HA. rewrite u32_id, i32_id by lia.
  destruct (_ || _) eqn:Hb; [by apply within_ret|].
  apply orb_false_iff in Hb as [?%Z.ltb_ge ?%Z.leb_gt]. safe_walk.
Qed.
Local Hint Resolve safe_TryReclaimAbandonedSlot : within.

Lemma safe_reclaim_sweep : safe A (reclaim_sweep A) (λ _, True).
Proof using HA. unfold reclaim_sweep. safe_walk. Qed.
Local Hint Resolve safe_reclaim_sweep : within.


Lemma safe_TryAcquireSlot : safe A (TryAcquireSlot A) acquired_ok.
Proof using HA.
  unfold TryAcquireSlot. destruct HA. apply within_seq; [eauto with within|]. intros run.
  destruct (_ || _); [by left|]. apply within_seq; [safe_walk|]. intros n.
  apply (within_bind _ _ _ (λ r, match r with inr idx => acquired_ok idx | inl _ => True end));
    [|intros [|] ?; apply within_ret; [by left|done]].
  apply (within_for _ _ _ _ _ (λ _, True)); [done| |done]. intros j [] ? _.
  pose proof (Z.mod_pos_bound (u32 (n mod numSlots A + j)) (numSlots A)).
  apply within_with_slot; [lia|]. intros i s Hi Hs. safe_walk.
  right. rewrite i32_id; lia.
Qed.

Lemma safe_AcquireSlot cached :
  0 <= cached → safe A (AcquireSlot A fuel cached) (λ r, acquired_ok r.1 ∧ 0 <= r.2).
Proof using HA.
  intros Hc. unfold AcquireSlot. destruct HA. apply within_seq; [eauto with within|]. intros run.
  destruct run; cbn [negb]; [|apply within_ret; split; [by left|done]].
  apply (within_bind _ _ _ (λ b : bool, b = true → cached < numSlots A)).
  { destruct (Z.ltb_spec cached (numSlots A)); [|by apply within_ret].
    apply within_with_slot; [lia|]. intros i s _ Hs.
    eapply within_mono, safe_tryClaimSlot; [done|exact Hs]. }
  intros [] Hhit.
  { apply within_ret. simpl. specialize (Hhit eq_refl). split; [right; rewrite i32_id; lia|done]. }
  apply within_seq; [safe_walk|]. intros n. rewrite (proj2 (Z.eqb_neq _ _)) by lia.
  pose proof (Z.mod_pos_bound n (numSlots A)).
  apply (within_loop _ _ _ _ (λ '(idx, _), 0 <= idx < numSlots A)); [lia|].
  intros [idx retries] ?. apply within_with_slot; [lia|]. intros i s Hi Hs.
  apply within_seq; [eauto with within|]. intros [].
  { apply within_ret. simpl. split; [right; rewrite i32_id; lia|lia]. }
  apply (within_bind _ _ _ (λ idx, 0 <= idx < numSlots A)); cycle 1.
  { intros. safe_walk; done. }
  rewrite u32_id by lia. destruct (Z.leb_spec (numSlots A) (idx + 1)); [|apply within_ret; lia].
  apply within_seq; [eauto with within|]. intros []. apply within_ret. lia.
Qed.

Lemma safe_AcquireSpecificSlot idx t : safe A (AcquireSpecificSlot A fuel idx t) acquired_ok.
Proof using HA.
  unfold AcquireSpecificSlot. apply within_seq; [eauto with within|]. intros run.
  destruct (negb run || bad_index A idx) eqn:Hb; [by left|].
  apply orb_false_iff in Hb as [_ Hb]. pose proof (good_index A HA idx Hb).
  assert (idx < numSlots A).
  { destruct HA. unfold bad_index in Hb. rewrite i32_id in Hb by lia.
    apply orb_false_iff in Hb as [_ ?%Z.leb_gt]. lia. }
  apply within_with_slot; [lia|]. intros i s Hi Hs.
  apply (within_loop _ _ _ _ (λ _, True)); [done|]. intros [start retries] _.
  safe_walk; first [by left|right; lia|by apply within_call].
Qed.
End api.

(** ** Guest calls *)

Section guest_calls.
Context (A : Allocator) (fuel : nat) (HA : alloc_ok A).

Lemma guest_range j :
  numSlots A <= j < numSlots A + Z.of_nat (guest_count A) → 0 <= j < Z.of_nat (length (slots A)).
Proof using HA. destruct HA. unfold guest_count. rewrite u32_id by lia. lia. Qed.

Lemma safe_GuestRequestEvent : safe A (GuestRequestEvent A) (λ _, True).
Proof using HA.
  unfold GuestRequestEvent. destruct (_ && _) eqn:E; [|done].
  apply andb_true_iff in E as [?%Z.ltb_lt _]. destruct HA.
  apply within_with_slot; [lia|]. intros. by apply within_ret.
Qed.

(** A loop over the guest slots, body by body. *)
Lemma safe_guest_loop {S X} (body : nat → SlotInfo → S → prog (S + X)) s :
  (∀ i sl s, slots A !! i = Some sl → safe A (body i sl s) (λ _, True)) →
  safe A (for_ (guest_count A) (numSlots A)
            (λ j s, with_slot A j (λ i sl, body i sl s)) s) (λ _, True).
Proof using HA.
  intros Hb. apply (within_for _ _ _ _ _ (λ _, True)); [done| |done]. intros j s' Hj _.
  apply within_with_slot; [by apply guest_range|]. intros i sl _ Hs.
  eapply within_mono, Hb, Hs. by intros [].
Qed.

Lemma safe_anyRequestReady : safe A (anyRequestReady A) (λ _, True).
Proof using HA.
  unfold anyRequestReady. apply within_seq; [|intros []; done].
  apply (safe_guest_loop (λ i _ _, let* st := load i F_state in
    if st =? SLOT_REQ_READY then Ret (inr tt) else Ret (inl tt))). intros. safe_walk.
Qed.

Lemma safe_setHostState v : safe A (setHostState A v) (λ _, True).
Proof using HA.
  unfold setHostState. apply within_seq; [|done].
  apply (safe_guest_loop (λ i _ _, store i F_hostState v ;;; Ret (inl tt))). intros. safe_walk.
Qed.
Local Hint Resolve safe_GuestRequestEvent safe_anyRequestReady safe_setHostState : within.

Lemma safe_guest_sleepAction ev t : safe A (guest_sleepAction A ev t) (λ _, True).
Proof using HA. unfold guest_sleepAction. safe_walk. Qed.
Local Hint Resolve safe_guest_sleepAction safe_Wait : within.

Lemma safe_WaitForRequest spin_ t : safe A (WaitForRequest A spin_ t) (λ _, True).
Proof using HA. unfold WaitForRequest. safe_walk. Qed.

Lemma safe_WakeWaiter : safe A (WakeWaiter A) (λ _, True).
Proof using HA. unfold WakeWaiter. safe_walk. Qed.

Lemma safe_LockForPublish i s :
  slots A !! i = Some s → safe A (LockForPublish i) (λ _, True).
Proof. intros Hs. unfold LockForPublish. safe_walk. Qed.

Lemma safe_PublishResponse i s :
  slots A !! i = Some s → safe A (PublishResponse i s) (λ _, True).
Proof. intros Hs. unfold PublishResponse. safe_walk. Qed.
Local Hint Resolve safe_WaitForRequest safe_WakeWaiter safe_LockForPublish
  safe_PublishResponse : within.

Lemma safe_serve_claimed i s : slots A !! i = Some s → safe A (serve_claimed i s) (λ _, True).
Proof using HA.
  intros Hs. unfold serve_claimed, load_i32. destruct (slot_sizes A HA i s Hs) as [??].
  apply within_seq; [safe_walk|]. intros n. pose proof (abs_u32_range n).
  destruct (Z.ltb_spec (maxReqSize s) (abs_u32 n)); [safe_walk|].
  apply within_seq; [safe_walk|]. intros ty. apply within_seq; [|intros; safe_walk].
  apply within_call; [|done]. simpl. rewrite Hs, Z.eqb_refl, andb_true_r. unfold in_range.
  rewrite (u32_id (maxReqSize s - abs_u32 n)) by lia.
  rewrite !andb_true_iff, !Z.leb_le. destruct (0 <=? n); lia.
Qed.

Lemma safe_ProcessGuestCalls limit : safe A (ProcessGuestCalls A limit) (λ _, True).
Proof using HA.
  unfold ProcessGuestCalls. apply within_seq; [eauto with within|]. intros run.
  destruct run; cbn [negb]; [|done]. apply within_seq; [safe_walk|]. intros reclaim.
  apply within_seq; [|done]. apply (within_for _ _ _ _ _ (λ _, True)); [done| |done].
  intros j n Hj _. destruct (_ && _); [done|].
  apply within_with_slot; [by apply guest_range|]. intros i s _ Hs.
  pose proof (safe_serve_claimed i s Hs). safe_walk.
Qed.
Local Hint Resolve safe_ProcessGuestCalls : within.

Lemma safe_GuestWorkerLoop spin_ n : safe A (GuestWorkerLoop A fuel spin_ n) (λ _, True).
Proof using HA. unfold GuestWorkerLoop. safe_walk. Qed.

Lemma safe_Stop : safe A (Stop A) (λ _, True).
Proof using HA. unfold Stop. safe_walk. Qed.
End guest_calls.

(** ** Host threads *)

(** A call of a method of the allocator or of the guest-call worker. *)
Inductive api : Type :=
  | CTryAcquireSlot
  | CAcquireSlot (cached : Z)
  | CAcquireSpecificSlot (idx timeoutMs : Z)
  | CSendAcquired (idx size : Z) (ty : MsgType) (timeoutMs : Z)
  | CSendAcquiredAsync (idx size : Z) (ty : MsgType)
  | CWaitForSlot (idx timeoutMs : Z)
  | CSendHeld (idx size : Z) (ty : MsgType) (timeoutMs : Z)
  | CReleaseHeldSlot (idx : Z)
  | CTryReclaimAbandonedSlot (idx maxLeaseAgeNs : Z)
  | CSetAutoReclaimTimeoutNs (timeoutNs : Z)
  | CSignalSlot (idx : Z)
  | CWaitForSlotEvent (idx timeoutMs : Z)
  | CWaitForRequest (spin_ : bool) (timeoutMs : Z)
  | CWakeWaiter
  | CProcessGuestCalls (limit : Z)
  | CGuestWorkerLoop (spin_ : bool) (maxBatchSize : Z)
  | CStop.

Definition invoke (A : Allocator) (fuel : nat) (c : api) : prog unit :=
  match c with
  | CTryAcquireSlot => let* _ := TryAcquireSlot A in Ret tt
  | CAcquireSlot cached => let* _ := AcquireSlot A fuel (u32 cached) in Ret tt
  | CAcquireSpecificSlot idx t => let* _ := AcquireSpecificSlot A fuel idx t in Ret tt
  | CSendAcquired idx size ty t => let* _ := SendAcquired A fuel idx size ty [] t in Ret tt
  | CSendAcquiredAsync idx size ty => let* _ := SendAcquiredAsync A idx size ty in Ret tt
  | CWaitForSlot idx t => let* _ := WaitForSlot A fuel idx [] t in Ret tt
  | CSendHeld idx size ty t => let* _ := SendHeld A fuel idx size ty [] t in Ret tt
  | CReleaseHeldSlot idx => ReleaseHeldSlot A idx
  | CTryReclaimAbandonedSlot idx age => let* _ := TryReclaimAbandonedSlot A idx age in Ret tt
  | CSetAutoReclaimTimeoutNs ns => SetAutoReclaimTimeoutNs ns
  | CSignalSlot idx => SignalSlot A idx
  | CWaitForSlotEvent idx t => let* _ := WaitForSlotEvent A idx t in Ret tt
  | CWaitForRequest spin_ t => let* _ := WaitForRequest A spin_ t in Ret tt
  | CWakeWaiter => WakeWaiter A
  | CProcessGuestCalls limit => let* _ := ProcessGuestCalls A limit in Ret tt
  | CGuestWorkerLoop spin_ n => GuestWorkerLoop A fuel spin_ n
  | CStop => Stop A
  end.

(** A thread performs a sequence of calls. *)
Definition script (A : Allocator) (fuel : nat) (cs : list api) : prog unit :=
  foldr (λ c p, invoke A fuel c ;;; p) (Ret tt) cs.

Lemma safe_invoke A fuel c : alloc_ok A → safe A (invoke A fuel c) (λ _, True).
Proof.
  intros HA.
  assert (∀ idx (f : nat → SlotInfo → prog unit),
    (∀ i s, slots A !! i = Some s → safe A (f i s) (λ _, True)) →
    safe A (if bad_index A idx then Ret tt else with_slot A idx f) (λ _, True)) as Hslot.
  { intros idx f Hf. destruct (bad_index A idx) eqn:Hb; [by apply within_ret|].
    apply within_with_slot; [by apply good_index|eauto]. }
  assert (∀ X (p : prog X) P, safe A p P → safe A (let* _ := p in Ret tt) (λ _, True)) as Hdrop.
  { intros X p P Hp. by eapply within_bind. }
  destruct c; unfold invoke; try (eapply Hdrop);
    try (by apply safe_TryAcquireSlot); try (by apply safe_AcquireSpecificSlot);
    try (by apply safe_SendAcquired); try (by apply safe_SendAcquiredAsync);
    try (by apply safe_WaitForSlot); try (by apply safe_SendHeld);
    try (by apply safe_TryReclaimAbandonedSlot); try (by apply safe_WaitForRequest);
    try (by apply safe_ProcessGuestCalls); try (by apply safe_WakeWaiter);
    try (by apply safe_GuestWorkerLoop); try (by apply safe_Stop).
  - apply safe_AcquireSlot; [done|apply u32_range].
  - apply Hslot. eauto with within.
  - unfold SetAutoReclaimTimeoutNs. safe_walk.
  - apply Hslot. eauto with within.
  - instantiate (1 := λ _, True). unfold WaitForSlotEvent.
    destruct (bad_index A idx) eqn:Hb; [by apply within_ret|].
    apply within_with_slot; [by apply good_index|]. intros. apply safe_WaitEvent.
Qed.

Lemma safe_script A fuel cs : alloc_ok A → safe A (script A fuel cs) (λ _, True).
Proof.
  intros HA. induction cs as [|c cs IH]; [done|]. simpl.
  apply within_seq; [by apply safe_invoke|done].
Qed.

(** The areas of every slot have the sizes the allocator recorded. *)
Definition world_ok (A : Allocator) (w : World) : Prop :=
  ∀ i s, slots A !! i = Some s →
    Z.of_nat (length (bytes w (BReq i))) = maxReqSize s ∧
    Z.of_nat (length (bytes w (BResp i))) = maxRespSize s.

(** A guest that writes what it likes, where it likes. *)
Definition any_guest (w w' : World) : Prop :=
  ∀ b, length (bytes w' b) = length (bytes w b).

Lemma safe_op_defined A w X (o : op X) x :
  world_ok A w → safe_op A o = true → exec x o w ≠ Undef.
Proof.
  intros Hw. destruct o as [| | | | |b off n|b off data| | | | | |i off n mr ty]; simpl;
    try done.
  - by destruct (_ =? _).
  - destruct b as [i|i]; (destruct (slots A !! i) as [s|] eqn:Hs; [|done]);
      destruct (Hw i s Hs) as [E1 E2]; rewrite ?E1, ?E2; by intros ->.
  - destruct b as [i|i]; (destruct (slots A !! i) as [s|] eqn:Hs; [|done]);
      destruct (Hw i s Hs) as [E1 E2]; rewrite ?E1, ?E2; by intros ->.
  - by destruct (signalled w h), (x_timeout x).
  - destruct (slots A !! i) as [s|] eqn:Hs; [|done]. destruct (Hw i s Hs) as [-> ->].
    intros [-> ->%Z.eqb_eq]%andb_true_iff. by rewrite Z.leb_refl.
Qed.

Lemma exec_lengths X (o : op X) x w r w' b :
  exec x o w = Done r w' → length (bytes w' b) = length (bytes w b).
Proof.
  destruct o as [| | | | |b' off n|b' off data| | | | | |i off n mr ty]; simpl; intros;
    repeat case_match; simplify_eq/=; try done;
    (destruct (decide (b = b')) as [->|] || destruct (decide (b = BResp i)) as [->|]);
    rewrite ?upd_eq, ?upd_ne by done; by rewrite ?length_inserts.
Qed.

(** Threads that are safe by themselves are safe together, whatever the guest
    does. *)
Lemma safe_pool {X} A (ps0 : list (prog X)) w w' ps p :
  Forall (λ p, safe A p (λ _, True)) ps0 → world_ok A w →
  rtc (pool_step any_guest) (w, ps0) (w', ps) → p ∈ ps → ¬ faulty w' p.
Proof.
  intros Hsafe Hw Hr Hp. apply list_elem_of_lookup in Hp as [i Hi].
  edestruct (monitor_sound (only (safe_ops A)) any_guest (λ w _, world_ok A w) (λ (_ : X) _, True))
    as [ss Hss]; [| | |exact Hr|].
  - intros w1 w2 _ H1 Hg j s Hs. rewrite !Hg. by apply H1.
  - intros w1 _ j [] Y o x r w2 H1 _ Hx. unfold only.
    rewrite (exec_answer _ _ _ _ _ _ Hx). unfold safe_ops. destruct (safe_op A o); [|done].
    intros j' s Hs. rewrite !(exec_lengths _ _ _ _ _ _ _ Hx). by apply H1.
  - split; [exact Hw|]. instantiate (1 := replicate (length ps0) tt).
    clear Hr. induction Hsafe; simpl; by constructor.
  - eapply monitored_not_faulty; [|exact Hss|exact Hi]. intros [] Y o x _ H1 Hx.
    destruct (safe_op A o) eqn:Ho; [by destruct (safe_op_defined A w' Y o x)|].
    exists (some_answer o). unfold only, safe_ops. by rewrite Ho.
Qed.

(** Memory safety against a hostile guest.  Any number of host threads, each
    performing any sequence of [SlotAllocator] and [GuestCallWorker] calls with any
    arguments, are
    interleaved with a guest that overwrites any shared field and any buffer
    byte at any time.  No thread ever reaches undefined behaviour: no access
    outside the slot array or outside a request or response area, no remainder
    by zero. *)
Theorem host_never_faults A fuel scripts w w' ps p :
  alloc_ok A → world_ok A w →
  rtc (pool_step any_guest) (w, map (script A fuel) scripts) (w', ps) →
  p ∈ ps → ¬ faulty w' p.
Proof.
  intros HA. apply safe_pool. apply Forall_map, Forall_true. intros cs. by apply safe_script.
Qed.

(** One host slot with areas of 64 bytes, all free. *)
Definition ex_alloc : Allocator := mkAllocator [mkSlot 64 64 1 2] 1 0 1 10000.
Definition ex_world : World :=
  mkWorld (λ l, match l with L_running => 1 | LSlot _ F_limit => 2 | LSlot _ F_localSeq => 1
                | _ => 0 end)
    (λ _, replicate 64 Byte.x00) (λ _, false).
Definition ex_ext : ext := mkExt 0 true 0 [].

Lemma ex_alloc_ok : alloc_ok ex_alloc.
Proof.
  constructor; simpl; try lia. constructor; [|constructor]. simpl. lia.
Qed.

Lemma ex_world_ok : world_ok ex_alloc ex_world.
Proof. intros [|[|i]] s Hs; simplify_eq/=. done. Qed.

(** Two threads, one of which claims the slot while the other releases it. *)
Definition ex_scripts : list (list api) :=
  [[CTryAcquireSlot; CSendAcquired 0 5 NORMAL 10]; [CReleaseHeldSlot 0]].

Lemma host_never_faults_witness :
  let c := run (replicate 12 (Run 0 ex_ext) ++ [Run 1 ex_ext])
             (ex_world, map (script ex_alloc 5) ex_scripts) in
  ¬ faulty c.1 (default Fault (c.2 !! 0%nat)).
Proof.
  apply (host_never_faults ex_alloc 5 ex_scripts ex_world _
    (run (replicate 12 (Run 0 ex_ext) ++ [Run 1 ex_ext])
       (ex_world, map (script ex_alloc 5) ex_scripts)).2).
  - apply ex_alloc_ok.
  - apply ex_world_ok.
  - apply (run_pool any_guest). repeat constructor.
  - apply (list_elem_of_lookup_2 _ 0). reflexivity.
Defined.

(** C26: responses are clamped.  Whatever the guest writes to the header (any
    [respSize], [INT_MIN] included, any [msgSeq], any [msgType], any state), a
    receiving call either fails and leaves [outResp] untouched, or returns data
    no longer than the response area of the slot and announces its length. *)
Theorem responses_clamped A fuel idx size ty out t :
  alloc_ok A →
  safe A (SendAcquired A fuel idx size ty out t) (response_ok A idx out) ∧
  safe A (WaitForSlot A fuel idx out t) (response_ok A idx out) ∧
  safe A (SendHeld A fuel idx size ty out t) (response_ok A idx out).
Proof.
  intros. split_and!; auto using safe_SendAcquired, safe_WaitForSlot, safe_SendHeld.
Qed.

Lemma responses_clamped_witness :
  safe ex_alloc (SendAcquired ex_alloc 5 0 7 NORMAL [] 10) (response_ok ex_alloc 0 []) ∧
  safe ex_alloc (WaitForSlot ex_alloc 5 0 [] 10) (response_ok ex_alloc 0 []) ∧
  safe ex_alloc (SendHeld ex_alloc 5 0 7 NORMAL [] 10) (response_ok ex_alloc 0 []).
Proof. apply responses_clamped. apply ex_alloc_ok. Defined.
