(* ===== verification/SlotProtocol.v ===== *)
(** * SlotProtocol: who owns a slot

    Interleavings of [tryClaimSlot] with the transactions of slot owners, under
    sequential consistency and with a guest that follows the slot protocol.

    - [at_most_one_claim]: of any number of concurrent claimers one wins;
    - [owner_not_robbed]: while a [SendAcquired] still has an operation to
      perform, no concurrent claim succeeds, stealing of abandoned slots
      included, if the claimers began after the acquisition or have only read
      before it;
    - [late_reader_robs]: a claimer that reads the generation in the middle of the
      acquisition can rob the slot;
    - [held_slot_robbed]: that guarantee does not extend to the transactions of a
      held slot, as a concrete schedule shows. *)

From S2P Require Export SlotSafety.

Local Open Scope Z_scope.

(** ** Locations in monitors *)

Definition tag (f : field) : nat :=
  match f with
  | F_state => 0 | F_hostState => 1 | F_guestState => 2 | F_msgSeq => 3 | F_msgType => 4
  | F_reqSize => 5 | F_respSize => 6 | F_lease => 7 | F_gen => 8 | F_activeWait => 9
  | F_localSeq => 10 | F_limit => 11 | F_guestWait => 12 | F_guestSeq => 13 | F_guestLimit => 14
  end.

(** [l] is field [f] of slot [i]. *)
Definition on (i : nat) (f : field) (l : loc) : bool :=
  match l with LSlot j g => (tag g =? tag f)%nat && (j =? i)%nat | _ => false end.

Lemma on_spec i f l : on i f l = true ↔ l = LSlot i f.
Proof.
  destruct l as [j g| | | | | | | | | | | | |]; simpl; try done.
  rewrite andb_true_iff, !Nat.eqb_eq. split; [|naive_solver].
  intros [? ->]. f_equal. by destruct g, f.
Qed.

(** The operation writes field [f] of slot [i]. *)
Definition writes {X} (i : nat) (f : field) (o : op X) : bool :=
  match o with
  | Store l _ | Cas l _ _ | FetchAdd l _ | Exchange l _ => on i f l
  | _ => false
  end.

(** The operation reads or writes slot [i]: its header, its [Slot] members or its
    areas. *)
Definition touches {X} (i : nat) (o : op X) : bool :=
  match o with
  | Load l | Store l _ | Cas l _ _ | FetchAdd l _ | Exchange l _ =>
      match l with LSlot j _ => (j =? i)%nat | _ => false end
  | CopyOut (BReq j | BResp j) _ _ | CopyIn (BReq j | BResp j) _ _ | RunHandler j _ _ _ _ =>
      (j =? i)%nat
  | _ => false
  end.

Lemma exec_unwritten {X} (o : op X) x w r w' i f :
  exec x o w = Done r w' → writes i f o = false → mem w' (LSlot i f) = mem w (LSlot i f).
Proof.
  destruct o; simpl; intros Hx Hw; repeat case_match; simplify_eq/=; try done;
    (apply upd_ne; intros <-; by rewrite (proj2 (on_spec i f _)) in Hw).
Qed.

Lemma untouched_unwritten {X} (o : op X) i f : touches i o = false → writes i f o = false.
Proof.
  destruct o as [l|l v|l e d|l d|l v| | | | | | | |]; simpl; try done;
    destruct l; simpl; try done; intros ->; apply andb_false_r.
Qed.

(** ** Walking a program along a monitor *)

Lemma obeys_call {M} (mon : monitor M) {X} (o : op X) s (Q : X → M → Prop) total :
  (∀ r, match mon s X o r with
        | Next s' => Q r s'
        | Forbidden => False
        | Impossible => True
        end) → obeys total mon (call o) s Q.
Proof. done. Qed.

(** Rewrites with the outcomes of earlier tests. *)
Ltac use_tests :=
  repeat match goal with
  | H : negb _ = true |- _ => apply negb_true_iff in H
  | H : negb _ = false |- _ => apply negb_false_iff in H
  | H : ?b = true |- context [?b] => rewrite H
  | H : ?b = false |- context [?b] => rewrite H
  end; rewrite ?Z.eqb_refl; cbn [negb andb orb fst snd].

(** One operation at a time: the monitor is evaluated on it ([tac] rewrites what
    is left), conditionals are split. *)
Ltac obeys_walk tac :=
  repeat lazymatch goal with
  | |- obeys _ _ (Ret _) _ _ => cbn [obeys]
  | |- obeys _ _ (bind _ _) _ _ => apply obeys_bind
  | |- obeys _ _ (call _) _ _ =>
      apply obeys_call; let r := fresh "r" in intros r;
      lazymatch type of r with (bool * Z)%type => destruct r as [[] ?] | _ => idtac end;
      tac; use_tests
  | |- obeys _ _ (if ?b then _ else _) _ _ => destruct b eqn:?
  | |- obeys _ _ (match ?r with (_, _) => _ end) _ _ => destruct r
  end.

Lemma claimable_not_busy v :
  (v =? SLOT_FREE) = true ∨ stealable v = true → (v =? SLOT_BUSY) = false.
Proof.
  unfold stealable. rewrite !orb_true_iff, !Z.eqb_eq, Z.eqb_neq.
  by intros [->|[[->| ->]| ->]].
Qed.

(** ** One winner among concurrent claimers *)

Module Claim.
Section claim.
Context (i : nat).

(** Has this thread claimed the slot? *)
Definition mon : monitor bool := λ claimed X o,
  match o in op X return X → verdict_of bool with
  | Cas l e d => λ r,
      if on i F_state l then
        if (d =? SLOT_BUSY) && negb (e =? SLOT_BUSY) && negb claimed
        then Next (r.1 : bool) else Forbidden
      else Next claimed
  | o => λ _, if writes i F_state o then Forbidden else Next claimed
  end.

(** A guest that leaves a slot alone while the host has it [SLOT_BUSY]. *)
Definition guest (w w' : World) : Prop :=
  mem w (LSlot i F_state) = SLOT_BUSY → mem w' (LSlot i F_state) = SLOT_BUSY.

Definition inv (w : World) (ss : list bool) : Prop :=
  (∀ j, ss !! j = Some true → mem w (LSlot i F_state) = SLOT_BUSY) ∧
  (∀ j k, ss !! j = Some true → ss !! k = Some true → j = k).

Ltac mon_step := cbn [mon writes on tag Nat.eqb andb]; rewrite ?Nat.eqb_refl, ?Z.eqb_refl;
  cbn [andb].

Lemma tryClaimSlot_obeys : obeys false mon (tryClaimSlot i) false (λ r s, r = s).
Proof.
  unfold tryClaimSlot, load, cas, stamp_lease, MonotonicNanos, store.
  obeys_walk mon_step; try done;
    (rewrite claimable_not_busy by auto; cbn; obeys_walk mon_step; done).
Qed.

Lemma claim_inv_env w w' ss : inv w ss → guest w w' → inv w' ss.
Proof. intros [H1 H2] Hg. split; [|done]. intros j Hj. eapply Hg, H1, Hj. Qed.

Lemma claim_inv_step w ss j s X (o : op X) x r w' :
  inv w ss → ss !! j = Some s → exec x o w = Done r w' →
  match mon s X o r with
  | Next s' => inv w' (<[j := s']> ss)
  | Forbidden => True
  | Impossible => False
  end.
Proof.
  intros [H1 H2] Hj Hx.
  assert (writes i F_state o = false → inv w' (<[j := s]> ss)) as Hother.
  { intros Hw. rewrite list_insert_id by done. split; [|done]. intros k Hk.
    rewrite (exec_unwritten _ _ _ _ _ _ _ Hx Hw). by eapply H1. }
  destruct o as [| |l e d| | | | | | | | | |]; 
    try (cbn [mon]; destruct (writes i F_state _) eqn:Hw; [done|by apply Hother]).
  cbn [mon]. destruct (on i F_state l) eqn:Hl; [|by apply Hother].
  apply on_spec in Hl as ->. destruct (_ && _) eqn:Hc; [|done].
  rewrite !andb_true_iff, !negb_true_iff, Z.eqb_eq, Z.eqb_neq in Hc. destruct Hc as [[-> He] ->].
  simpl in Hx. destruct (Z.eqb_spec (mem w (LSlot i F_state)) e) as [Hm|]; simplify_eq/=; cycle 1.
  { rewrite list_insert_id by done. done. }
  assert (∀ k, ss !! k ≠ Some true) as Hno.
  { intros k Hk. apply H1 in Hk. congruence. }
  split.
  - intros k _. apply upd_eq.
  - intros k1 k2 Hk1 Hk2. apply list_lookup_insert_Some in Hk1 as [(?&_)|(_&Hk1)];
      [|by destruct (Hno _ Hk1)].
    apply list_lookup_insert_Some in Hk2 as [(?&_)|(_&Hk2)]; [congruence|by destruct (Hno _ Hk2)].
Qed.
End claim.
End Claim.

(** One winner.  Any number of threads run [tryClaimSlot] on the same slot,
    whatever its state (free, or a transaction that looks abandoned), while the
    guest does anything except touching a slot the host has [SLOT_BUSY].  In
    every interleaving at most one of the calls returns true. *)
Theorem at_most_one_claim i n w w' ps j k :
  rtc (pool_step (Claim.guest i)) (w, replicate n (tryClaimSlot i)) (w', ps) →
  ps !! j = Some (Ret true) → ps !! k = Some (Ret true) → j = k.
Proof.
  intros Hr Hj Hk.
  edestruct (monitor_sound (Claim.mon i) (Claim.guest i) (Claim.inv i) (λ r s, r = s))
    as (ss&[_ Hu]&Hps); [apply Claim.claim_inv_env|apply Claim.claim_inv_step| |exact Hr|].
  - split; [|instantiate (1 := replicate n false)].
    + split; [intros ? Hs|intros ?? Hs _]; by apply lookup_replicate in Hs as [? _].
    + clear Hr Hj Hk. induction n; constructor; [apply Claim.tryClaimSlot_obeys|done].
  - destruct (Forall2_lookup_l _ _ _ _ _ Hps Hj) as (sj&Hsj&Hqj).
    destruct (Forall2_lookup_l _ _ _ _ _ Hps Hk) as (sk&Hsk&Hqk). simpl in *. subst.
    by eapply Hu.
Qed.

Lemma at_most_one_claim_witness :
  let c := run (replicate 2 (Run 0 ex_ext) ++ replicate 6 (Run 1 ex_ext) ++
                replicate 4 (Run 0 ex_ext))
             (ex_world, replicate 2 (tryClaimSlot 0)) in
  c.2 !! 1%nat = Some (Ret true) ∧ c.2 !! 0%nat = Some (Ret false) ∧ 1%nat = 1%nat.
Proof.
  intros c. split; [reflexivity|]. split; [reflexivity|].
  apply (at_most_one_claim 0 2 ex_world c.1 c.2);
    [apply run_pool; repeat constructor|reflexivity|reflexivity].
Defined.

(** ** A transaction is not robbed *)

(** A complete request/response transaction on an acquired slot. *)
Definition transaction (A : Allocator) (fuel : nat) (async : bool) (idx size : Z)
    (ty : MsgType) (t : Z) : prog response :=
  if async then
    let* r := SendAcquiredAsync A idx size ty in
    if ResultVoid.HasError r then Ret (Err (ResultVoid.GetError r), [])
    else WaitForSlot A fuel idx [] t
  else SendAcquired A fuel idx size ty [] t.

Module Rob.
Section rob.
Context (i : nat).

(** Where the owner is: not yet published; waiting flag up; request published;
    response consumed; flag down; slot given up. *)
Inductive phase : Set := PBusy | PArmed | PLive | PTaken | PDone | POut.

#[local] Instance phase_eq_dec : EqDecision phase.
Proof. solve_decision. Defined.

(** How far a claimer is: not started; the generation it read; also the state;
    it saw the flag down; it won the generation; it bumped the generation of a free
    slot; it gave up; it claimed. *)
Inductive thief : Set :=
  | TStart | TGen (g : Z) | TSaw (g v : Z) | TGo (g v : Z) | TWon (v : Z) | TFree | TNo
  | TClaimed.

Inductive role : Set := Owner (p : phase) | Thief (t : thief).

(** Writes to the words that decide about ownership. *)
Definition decides {X} (o : op X) : bool :=
  writes i F_state o || writes i F_activeWait o || writes i F_gen o.

Lemma decides_false {X} (o : op X) :
  decides o = false →
  writes i F_state o = false ∧ writes i F_activeWait o = false ∧ writes i F_gen o = false.
Proof. unfold decides. rewrite !orb_false_iff. tauto. Qed.

Definition owner_store_state (p : phase) (v : Z) : verdict_of role :=
  match p with
  | PBusy | PDone => if v =? SLOT_FREE then Next (Owner POut) else Forbidden
  | PArmed => if v =? SLOT_REQ_READY then Next (Owner PLive) else Forbidden
  | PLive => if v =? SLOT_BUSY then Next (Owner PTaken) else Forbidden
  | PTaken | POut => Forbidden
  end.

Definition owner_store_wait (p : phase) (v : Z) : verdict_of role :=
  match p with
  | PBusy => if v =? 1 then Next (Owner PArmed) else Forbidden
  | PLive => if v =? 1 then Next (Owner PLive)
             else if v =? 0 then Next (Owner POut) else Forbidden
  | PTaken => if v =? 0 then Next (Owner PDone) else Forbidden
  | _ => Forbidden
  end.

Definition owner_next (p : phase) {X} (o : op X) : verdict_of role :=
  match p with
  | POut => if touches i o then Forbidden else Next (Owner POut)
  | _ =>
      match o with
      | Store l v =>
          if on i F_state l then owner_store_state p v
          else if on i F_activeWait l then owner_store_wait p v
          else if on i F_gen l then Forbidden else Next (Owner p)
      | _ => if decides o then Forbidden else Next (Owner p)
      end
  end.

Definition thief_next (t : thief) {X} (o : op X) : X → verdict_of role :=
  match o in op X return X → verdict_of role with
  | Load l => λ r,
      if on i F_gen l then
        match t with TStart => Next (Thief (TGen r)) | _ => Forbidden end
      else if on i F_state l then
        match t with TGen g => Next (Thief (TSaw g r)) | _ => Forbidden end
      else if on i F_activeWait l then
        match t with
        | TSaw g v => if stealable v then Next (Thief (if r =? 0 then TGo g v else TNo))
                      else Forbidden
        | _ => Forbidden
        end
      else Next (Thief t)
  | Cas l e d => λ r,
      if on i F_gen l then
        match t with
        | TGo g v => if (e =? g) && (d =? u64 (g + 1))
                     then Next (Thief (if r.1 then TWon v else TNo)) else Forbidden
        | _ => Forbidden
        end
      else if on i F_state l then
        match t with
        | TFree => if (e =? SLOT_FREE) && (d =? SLOT_BUSY)
                   then Next (Thief (if r.1 then TClaimed else TNo)) else Forbidden
        | TWon v => if (e =? v) && (d =? SLOT_BUSY)
                    then Next (Thief (if r.1 then TClaimed else TNo)) else Forbidden
        | _ => Forbidden
        end
      else if on i F_activeWait l then Forbidden else Next (Thief t)
  | FetchAdd l d => λ _,
      if on i F_gen l then
        match t with
        | TSaw _ v => if (v =? SLOT_FREE) && (d =? 1) then Next (Thief TFree) else Forbidden
        | _ => Forbidden
        end
      else if decides (FetchAdd l d) then Forbidden else Next (Thief t)
  | o => λ _, if decides o then Forbidden else Next (Thief t)
  end.

Definition mon : monitor role := λ s X o r,
  if answer_ok o r then
    match s with Owner p => owner_next p o | Thief t => thief_next t o r end
  else Impossible.

(** The guest moves a request forward along its cycle, through [SLOT_GUEST_BUSY]
    and the publish lock [SLOT_DONE] to [SLOT_RESP_READY]. *)
Definition serves (v v' : Z) : Prop :=
  v = SLOT_REQ_READY ∧ (v' = SLOT_GUEST_BUSY ∨ v' = SLOT_DONE ∨ v' = SLOT_RESP_READY) ∨
  v = SLOT_GUEST_BUSY ∧ (v' = SLOT_DONE ∨ v' = SLOT_RESP_READY) ∨
  v = SLOT_DONE ∧ v' = SLOT_RESP_READY.

(** A guest that moves the slot only along the request/response cycle, never sees
    the host's waiting flag and only advances the generation, whose 64 bits are
    not half used up. *)
Definition guest (w w' : World) : Prop :=
  mem w' (LSlot i F_activeWait) = mem w (LSlot i F_activeWait) ∧
  (mem w' (LSlot i F_gen) = mem w (LSlot i F_gen) ∨
   mem w (LSlot i F_gen) <= mem w' (LSlot i F_gen) < 2 ^ 63) ∧
  (mem w' (LSlot i F_state) = mem w (LSlot i F_state) ∨
   serves (mem w (LSlot i F_state)) (mem w' (LSlot i F_state))).

(** A published request: the states of the cycle. *)
Definition in_flight (state : Z) : bool := stealable state || (state =? SLOT_DONE).

(** The slot as the owner left it. *)
Definition phase_ok (p : phase) (state wait : Z) : Prop :=
  match p with
  | PBusy => state = SLOT_BUSY
  | PArmed | PTaken => state = SLOT_BUSY ∧ wait = 1
  | PLive => in_flight state = true ∧ wait = 1
  | PDone => state = SLOT_BUSY ∧ wait = 0
  | POut => True
  end.

Definition published (p : phase) : bool :=
  match p with PLive | PTaken | PDone => true | _ => false end.

(** What a claimer can have seen, as long as the owner holds the slot and the
    generation is [gen]: it read the generation before the slot was acquired, or it
    saw the transaction of the owner. *)
Definition thief_ok (gen : Z) (p : phase) (t : thief) : Prop :=
  p = POut ∨
  match t with
  | TStart | TGen _ | TFree | TNo => True
  | TSaw g v => stealable v = true → published p = true ∨ g < gen
  | TGo g v => stealable v = true ∧ (p = PDone ∨ g < gen)
  | TWon v => stealable v = true ∧ p = PDone
  | TClaimed => False
  end.

(** Claimers that may still advance the generation; each does so once. *)
Definition may_bump (r : role) : nat :=
  match r with
  | Thief (TStart | TGen _ | TSaw _ _ | TGo _ _) => 1
  | _ => 0
  end.

Definition bumps (ss : list role) : Z := Z.of_nat (sum_list_with may_bump ss).

Definition gen_ok (gen : Z) (ss : list role) : Prop :=
  0 <= gen ∧ gen + bumps ss < 2 ^ 64 ∧ bumps ss < 2 ^ 63.

Definition inv (w : World) (ss : list role) : Prop :=
  ∃ p, ss !! 0%nat = Some (Owner p) ∧
    phase_ok p (mem w (LSlot i F_state)) (mem w (LSlot i F_activeWait)) ∧
    (∀ j r, ss !! S j = Some r → ∃ t, r = Thief t ∧ thief_ok (mem w (LSlot i F_gen)) p t) ∧
    gen_ok (mem w (LSlot i F_gen)) ss.

Lemma serves_in_flight v v' : serves v v' → in_flight v' = true ∧ v ≠ SLOT_BUSY.
Proof. intros [[-> H]|[[-> H]|[-> ->]]]; [..|done]; destruct_or!; subst; done. Qed.

(** Advancing the generation and the owner keeps what claimers know. *)
Lemma thief_ok_mono gen gen' p p' t :
  thief_ok gen p t → p ≠ POut → gen <= gen' →
  p' = POut ∨ (published p = true → published p' = true) ∧ (p = PDone → p' = PDone) →
  thief_ok gen' p' t.
Proof.
  intros [->|Ht] Hp Hg [->|[Hpub Hd]]; [done|done|by left|right].
  destruct t; try done; destruct_and?; naive_solver lia.
Qed.

Lemma thief_ok_gen gen gen' p t : thief_ok gen p t → gen <= gen' → thief_ok gen' p t.
Proof.
  intros Ht Hg. destruct (decide (p = POut)) as [->|]; [by left|].
  eapply thief_ok_mono; [done..|]. by right.
Qed.

Lemma rob_inv_env w w' ss : inv w ss → guest w w' → inv w' ss.
Proof.
  intros (p&H0&Hp&Ht&Hg0&Hg1&Hg2) (Hw&Hg&Hs).
  assert (mem w (LSlot i F_gen) <= mem w' (LSlot i F_gen)) by (destruct Hg; lia).
  exists p. split; [done|split; [|split]].
  - rewrite Hw. destruct Hs as [->|Hs]; [done|]. apply serves_in_flight in Hs as [??].
    destruct p; simpl in *; naive_solver.
  - intros j r Hj. destruct (Ht j r Hj) as (t&->&?). eexists; split; [done|].
    by eapply thief_ok_gen.
  - repeat split; destruct Hg; lia.
Qed.

(** An operation the owner may perform leaves the words alone or is one of the
    stores of the protocol. *)
Lemma owner_next_cases p X (o : op X) x w r w' s' :
  exec x o w = Done r w' → owner_next p o = Next s' → p ≠ POut →
  let st w := mem w (LSlot i F_state) in
  let aw w := mem w (LSlot i F_activeWait) in
  mem w' (LSlot i F_gen) = mem w (LSlot i F_gen) ∧
  ((st w' = st w ∧ aw w' = aw w ∧ s' = Owner p) ∨
   (aw w' = aw w ∧ owner_store_state p (st w') = Next s') ∨
   (st w' = st w ∧ owner_store_wait p (aw w') = Next s')).
Proof.
  intros Hx Hn Hne st aw. subst st aw. simpl.
  assert (decides o = false → s' = Owner p →
    mem w' (LSlot i F_gen) = mem w (LSlot i F_gen) ∧
    mem w' (LSlot i F_state) = mem w (LSlot i F_state) ∧
    mem w' (LSlot i F_activeWait) = mem w (LSlot i F_activeWait) ∧ s' = Owner p) as Hsame.
  { intros (H1&H2&H3)%decides_false ->. by rewrite !(exec_unwritten _ _ _ _ _ _ _ Hx). }
  assert (owner_next p o =
    match o with
      | Store l v =>
          if on i F_state l then owner_store_state p v
          else if on i F_activeWait l then owner_store_wait p v
          else if on i F_gen l then Forbidden else Next (Owner p)
      | _ => if decides o then Forbidden else Next (Owner p)
      end) as Hn' by (by destruct p).
  rewrite Hn in Hn'.
  destruct o as [|l v| | | | | | | | | | |];
    try (destruct (decides _) eqn:Hw; [done|]; destruct Hsame as (?&?&?&?); [done|congruence|auto]).
  simpl in *. simplify_eq. destruct (on i F_state l) eqn:H1.
  { apply on_spec in H1 as ->. simpl. rewrite upd_eq, !upd_ne by done. auto. }
  destruct (on i F_activeWait l) eqn:H2.
  { apply on_spec in H2 as ->. simpl. rewrite upd_eq, !upd_ne by done. auto. }
  destruct (on i F_gen l) eqn:H3; [done|].
  destruct Hsame as (?&?&?&?); [unfold decides; simpl; by rewrite H1, H2, H3|congruence|auto].
Qed.

Lemma owner_step p X (o : op X) x w r w' s' :
  exec x o w = Done r w' → owner_next p o = Next s' → p ≠ POut →
  phase_ok p (mem w (LSlot i F_state)) (mem w (LSlot i F_activeWait)) →
  mem w' (LSlot i F_gen) = mem w (LSlot i F_gen) ∧
  ∃ p', s' = Owner p' ∧
    phase_ok p' (mem w' (LSlot i F_state)) (mem w' (LSlot i F_activeWait)) ∧
    ∀ gen t, thief_ok gen p t → thief_ok gen p' t.
Proof.
  intros Hx Hn Hne Hp.
  destruct (owner_next_cases _ _ _ _ _ _ _ _ Hx Hn Hne) as [Hg Hc]. split; [done|].
  destruct Hc as [(->&->&->)|[(->&Hv)|(->&Hv)]]; [by exists p|..].
  all: destruct p; simpl in Hv; repeat case_match; simplify_eq;
    match goal with H : (_ =? _) = true |- _ => apply Z.eqb_eq in H; rewrite ?H in * end;
    (eexists; split_and!; [done|simpl in *; naive_solver|]);
    intros gen t Ht; eapply thief_ok_mono; simpl; eauto; naive_solver.
Qed.

(** A slot that is held is not free. *)
Lemma phase_not_free p state wait : phase_ok p state wait → p = POut ∨ state ≠ SLOT_FREE.
Proof.
  destruct p; simpl; intros H; auto; right; destruct_and?; subst; try done.
  by intros ->.
Qed.

(** A state that was seen while the owner holds the slot. *)
Lemma saw_ok gen p g state wait : phase_ok p state wait → thief_ok gen p (TSaw g state).
Proof.
  intros Hp. destruct (decide (p = POut)) as [->|]; [by left|right]. intros Hs. left.
  destruct p; simpl in *; try done; destruct_and?; subst; done.
Qed.

(** What a claimer does changes neither the state nor the flag while the owner
    holds the slot, and advances the generation at most once. *)
Definition thief_result (w w' : World) (p : phase) (t : thief) (s' : role) : Prop :=
  ∃ t', s' = Thief t' ∧ thief_ok (mem w' (LSlot i F_gen)) p t' ∧
    phase_ok p (mem w' (LSlot i F_state)) (mem w' (LSlot i F_activeWait)) ∧
    (mem w' (LSlot i F_gen) = mem w (LSlot i F_gen) ∧
       (may_bump (Thief t') ≤ may_bump (Thief t))%nat ∨
     mem w' (LSlot i F_gen) = u64 (mem w (LSlot i F_gen) + 1) ∧
       may_bump (Thief t) = 1%nat ∧ may_bump (Thief t') = 0%nat).

Lemma thief_load p t l x w r w' :
  exec x (Load l) w = Done r w' →
  phase_ok p (mem w (LSlot i F_state)) (mem w (LSlot i F_activeWait)) →
  thief_ok (mem w (LSlot i F_gen)) p t →
  match thief_next t (Load l) r with
  | Next s' => thief_result w w' p t s'
  | Forbidden => True
  | Impossible => False
  end.
Proof.
  intros Hx Hp Ht. simpl in Hx. simplify_eq. cbn [thief_next].
  destruct (on i F_gen l) eqn:H1.
  { destruct t; try done. eexists; split_and!; [done|by right|done|by left]. }
  destruct (on i F_state l) eqn:H2.
  { apply on_spec in H2 as ->. destruct t; try done.
    eexists; split_and!; [done|by eapply saw_ok|done|by left]. }
  destruct (on i F_activeWait l) eqn:H3.
  2: { eexists; split_and!; [done..|by left]. }
  apply on_spec in H3 as ->. destruct t as [| |g v| | | | |]; try done.
  destruct (stealable v) eqn:Hv; [|done].
  destruct (Z.eqb_spec (mem w' (LSlot i F_activeWait)) 0) as [E|].
  2: { eexists; split_and!; [done|by right|done|left; simpl; lia]. }
  eexists; split_and!; [done| |done|by left].
  destruct Ht as [->|Hsaw]; [by left|right]. split; [done|].
  destruct (Hsaw Hv) as [Hpub|]; [left|by right]. destruct p; simpl in *; try done; lia.
Qed.

Lemma thief_cas_gen p t e d x w r w' :
  exec x (Cas (LSlot i F_gen) e d) w = Done r w' →
  phase_ok p (mem w (LSlot i F_state)) (mem w (LSlot i F_activeWait)) →
  thief_ok (mem w (LSlot i F_gen)) p t → 0 <= mem w (LSlot i F_gen) < 2 ^ 64 - 1 →
  match t with
  | TGo g v => if (e =? g) && (d =? u64 (g + 1))
               then thief_result w w' p t (Thief (if (r.1 : bool) then TWon v else TNo)) else True
  | _ => True
  end.
Proof.
  intros Hx Hp Ht Hg. destruct t as [| | |g v| | | |]; try done.
  destruct (_ && _) eqn:E; [|done]. apply andb_true_iff in E as [->%Z.eqb_eq ->%Z.eqb_eq].
  simpl in Hx. destruct (Z.eqb_spec (mem w (LSlot i F_gen)) g) as [<-|]; simplify_eq/=; cycle 1.
  { eexists; split_and!; [done|by right|done|left; simpl; lia]. }
  eexists; split_and!; [done| |simpl; by rewrite !upd_ne|right; simpl; by rewrite upd_eq].
  destruct Ht as [->|[? Hd]]; [by left|right]. split; [done|]. destruct Hd; [done|lia].
Qed.

(** The claim fails: the slot is not in the state the claimer saw. *)
Lemma thief_cas_state p t e d x w r w' :
  exec x (Cas (LSlot i F_state) e d) w = Done r w' →
  phase_ok p (mem w (LSlot i F_state)) (mem w (LSlot i F_activeWait)) →
  thief_ok (mem w (LSlot i F_gen)) p t →
  (t = TFree ∧ e = SLOT_FREE ∨ t = TWon e) →
  thief_result w w' p t (Thief (if (r.1 : bool) then TClaimed else TNo)).
Proof.
  intros Hx Hp Ht He. destruct (decide (p = POut)) as [->|Hne].
  { eexists; split_and!; [done|by left|done|left]. simpl in Hx.
    destruct (_ =? e); simplify_eq/=; rewrite ?upd_ne by done; split; simpl; try done; case_match; lia. }
  assert (mem w (LSlot i F_state) ≠ e) as Hno.
  { destruct He as [[-> ->]| ->]; [by destruct (phase_not_free _ _ _ Hp)|].
    destruct Ht as [|[Hv ->]]; [done|]. destruct Hp as [-> _]. by intros <-. }
  simpl in Hx. rewrite (proj2 (Z.eqb_neq _ _) Hno) in Hx. simplify_eq/=.
  eexists; split_and!; [done|by right|done|left; simpl; lia].
Qed.

Lemma thief_step p t X (o : op X) x w r w' :
  exec x o w = Done r w' →
  phase_ok p (mem w (LSlot i F_state)) (mem w (LSlot i F_activeWait)) →
  thief_ok (mem w (LSlot i F_gen)) p t → 0 <= mem w (LSlot i F_gen) →
  (may_bump (Thief t) = 1%nat → mem w (LSlot i F_gen) < 2 ^ 64 - 1) →
  match thief_next t o r with
  | Next s' => thief_result w w' p t s'
  | Forbidden => True
  | Impossible => False
  end.
Proof.
  intros Hx Hp Ht Hg0 Hg1.
  assert (decides o = false → thief_result w w' p t (Thief t)) as Hsame.
  { intros (H1&H2&H3)%decides_false. exists t.
    rewrite !(exec_unwritten _ _ _ _ _ _ _ Hx) by done. split_and!; [done..|by left]. }
  destruct o as [l| |l e d|l d| | | | | | | | |];
    try (cbn [thief_next]; destruct (decides _) eqn:Hw; [done|by apply Hsame]).
  - by eapply thief_load.
  - cbn [thief_next]. destruct (on i F_gen l) eqn:H1.
    { apply on_spec in H1 as ->. destruct t as [| | |g v| | | |]; try done.
      pose proof (thief_cas_gen _ _ _ _ _ _ _ _ Hx Hp Ht (conj Hg0 (Hg1 eq_refl))) as Hc.
      cbn beta iota in Hc. by destruct (_ && _). }
    destruct (on i F_state l) eqn:H2.
    { apply on_spec in H2 as ->. destruct t as [| | | |v| | |]; try done;
        destruct (_ && _) eqn:Hc; try done; rewrite andb_true_iff, !Z.eqb_eq in Hc;
        destruct Hc as [-> ->]; eapply thief_cas_state; eauto. }
    destruct (on i F_activeWait l) eqn:H3; [done|]. apply Hsame. unfold decides. simpl.
    by rewrite H1, H2, H3.
  - cbn [thief_next]. destruct (on i F_gen l) eqn:H1.
    2: { destruct (decides _) eqn:Hw; [done|by apply Hsame]. }
    apply on_spec in H1 as ->. destruct t as [| |g v| | | | |]; try done.
    destruct (_ && _) eqn:E; [|done]. apply andb_true_iff in E as [_ ->%Z.eqb_eq].
    simpl in Hx. simplify_eq/=. eexists; split_and!; [done|by right|simpl; by rewrite !upd_ne|right].
    simpl. by rewrite upd_eq.
Qed.

(** Ownership is given up for good: the words no longer matter to the owner. *)
Lemma out_step w ss X (o : op X) x r w' :
  ss !! 0%nat = Some (Owner POut) → touches i o = false → exec x o w = Done r w' →
  inv w ss → inv w' ss.
Proof.
  intros H0 Ho Hx (p&Hp0&_&Ht&Hg). simplify_eq. exists POut.
  rewrite (exec_unwritten _ _ _ _ _ i F_gen Hx (untouched_unwritten _ _ _ Ho)).
  split; [done|]. split; [done|]. by split.
Qed.

Lemma owner_inv_step w ss p s' X (o : op X) x r w' :
  ss !! 0%nat = Some (Owner p) → owner_next p o = Next s' → exec x o w = Done r w' →
  inv w ss → inv w' (<[0%nat := s']> ss).
Proof.
  intros H0 Hn Hx Hi. destruct (decide (p = POut)) as [->|Hne].
  { simpl in Hn. destruct (touches i o) eqn:Ho; simplify_eq.
    rewrite list_insert_id by done. by eapply out_step. }
  destruct Hi as (p0&Hp0&Hp&Ht&Hg). simplify_eq.
  destruct (owner_step _ _ _ _ _ _ _ _ Hx Hn Hne Hp) as (Hgen&p'&->&Hp'&Hmono).
  exists p'. rewrite Hgen. split; [|split; [done|split]].
  - rewrite list_lookup_insert_eq; [done|]. by apply lookup_lt_Some in H0.
  - intros k r' Hk. rewrite list_lookup_insert_ne in Hk by done.
    destruct (Ht k r' Hk) as (t&->&?). eauto.
  - pose proof (sum_insert may_bump ss 0 _ (Owner p') H0) as Hsum. simpl in Hsum.
    unfold gen_ok, bumps in *. lia.
Qed.

Lemma thief_inv_step w ss j p t s' w' :
  ss !! 0%nat = Some (Owner p) → ss !! S j = Some (Thief t) →
  (∀ k r, ss !! S k = Some r → ∃ t, r = Thief t ∧ thief_ok (mem w (LSlot i F_gen)) p t) →
  gen_ok (mem w (LSlot i F_gen)) ss → thief_result w w' p t s' → inv w' (<[S j := s']> ss).
Proof.
  intros H0 Hj Ht (Hg0&Hg1&Hg2) (t'&->&Ht'&Hp'&Hb).
  pose proof (sum_insert may_bump ss _ _ (Thief t') Hj) as Hsum. unfold bumps in *.
  assert (mem w' (LSlot i F_gen) = mem w (LSlot i F_gen) ∧
      (may_bump (Thief t') ≤ may_bump (Thief t))%nat ∨
    mem w' (LSlot i F_gen) = mem w (LSlot i F_gen) + 1 ∧
      may_bump (Thief t) = 1%nat ∧ may_bump (Thief t') = 0%nat) as Hb'.
  { destruct Hb as [?|(->&Ha&Hc)]; [by left|right]. split_and!; [|done..].
    pose proof (sum_lookup may_bump ss _ _ Hj). apply u64_id. lia. }
  exists p. split; [by rewrite list_lookup_insert_ne|split; [done|split]].
  - intros k r' Hk. apply list_lookup_insert_Some in Hk as [(?&<-&_)|(_&Hk)]; [by eauto|].
    destruct (Ht k r' Hk) as (t''&->&?). eexists; split; [done|].
    eapply thief_ok_gen; [done|]. lia.
  - unfold gen_ok, bumps. lia.
Qed.

Lemma rob_inv_step w ss j s X (o : op X) x r w' :
  inv w ss → ss !! j = Some s → exec x o w = Done r w' →
  match mon s X o r with
  | Next s' => inv w' (<[j := s']> ss)
  | Forbidden => True
  | Impossible => False
  end.
Proof.
  intros (p&H0&Hp&Ht&Hg) Hj Hx. unfold mon. rewrite (exec_answer _ _ _ _ _ _ Hx).
  destruct j as [|j].
  - simplify_eq. simpl. destruct (owner_next p o) as [s'| |] eqn:Hn; [|done|].
    + eapply owner_inv_step; [done..|]. by exists p.
    + clear -Hn. destruct p, o; simpl in Hn; repeat case_match; done.
  - destruct (Ht j s Hj) as (t&->&Htok). simpl.
    assert (may_bump (Thief t) = 1%nat → mem w (LSlot i F_gen) < 2 ^ 64 - 1) as Hb.
    { intros Hb. pose proof (sum_lookup may_bump ss _ _ Hj). destruct Hg as (_&Hg&_).
      unfold bumps in Hg. lia. }
    pose proof (thief_step p t X o x w r w' Hx Hp Htok (proj1 Hg) Hb) as Hs.
    destruct (thief_next t o r) as [s'| |]; [|done|done]. by eapply thief_inv_step.
Qed.

(** *** The programs follow the monitor *)

Ltac mon_step :=
  cbn [mon answer_ok owner_next thief_next owner_store_state owner_store_wait writes on tag Nat.eqb
       andb orb decides];
  rewrite ?Nat.eqb_refl, ?Z.eqb_refl; cbn [andb orb Z.eqb].

Abbreviation follows p s Q := (obeys false mon p s Q).
Abbreviation stays p ph := (follows p (Owner ph) (λ _ s, s = Owner ph)).

Lemma tryClaimSlot_follows :
  follows (tryClaimSlot i) (Thief TStart) (λ b s, ∃ t, s = Thief t ∧ (b = true → t = TClaimed)).
Proof.
  unfold tryClaimSlot, load, cas, stamp_lease, MonotonicNanos, store.
  obeys_walk mon_step; (eexists; split; [reflexivity|done]).
Qed.

(** Programs that leave the state, the waiting flag and the generation alone. *)
Definition quiet_ops : ∀ X, op X → bool := λ X o, negb (decides o).

Lemma quiet_stays {X} ph (p : prog X) :
  ph ≠ POut → within quiet_ops p (λ _, True) → stays p ph.
Proof.
  intros Hph Hp. eapply obeys_mono, within_obeys, Hp; simpl; [naive_solver|..].
  - intros Y o r Ha Ho%negb_true_iff. unfold mon. rewrite Ha.
    assert (owner_next ph o = Next (Owner ph)) as ->; [|done].
    apply decides_false in Ho as Hw. destruct Hw as (H1&H2&H3).
    destruct ph, o; simpl in *; try done; by rewrite ?H1, ?H2, ?H3, ?Ho.
  - intros Y o r Ha. unfold mon. by rewrite Ha.
Qed.

Ltac quiet_side := simpl; rewrite ?Nat.eqb_refl; reflexivity.
Ltac quiet_walk := within_walk quiet_side.

Lemma quiet_SignalEvent h : within quiet_ops (SignalEvent h) (λ _, True).
Proof. unfold SignalEvent. quiet_walk. Qed.
Lemma quiet_WaitEvent h t : within quiet_ops (WaitEvent h t) (λ _, True).
Proof. unfold WaitEvent. quiet_walk. Qed.
Lemma quiet_checkReady : within quiet_ops (checkReady i) (λ _, True).
Proof. unfold checkReady, load. quiet_walk. Qed.
Local Hint Resolve quiet_SignalEvent quiet_WaitEvent quiet_checkReady : within.

Lemma quiet_sleepAction fuel s t : within quiet_ops (sleepAction fuel i s t) (λ _, True).
Proof. unfold sleepAction, store. quiet_walk. Qed.

Lemma quiet_WaitForRespReady fuel s t :
  within quiet_ops (WaitForRespReady fuel i s t) (λ _, True).
Proof.
  unfold WaitForRespReady, load, store. apply within_seq; [quiet_walk|]. intros l.
  apply within_seq; [|intros []; quiet_walk].
  apply within_Wait; [done|apply quiet_checkReady|apply quiet_sleepAction].
Qed.

Lemma quiet_write_request A size ty : within quiet_ops (write_request A i size ty) (λ _, True).
Proof. unfold write_request, load, store. quiet_walk. Qed.

Lemma quiet_copy_response s : within quiet_ops (copy_response i s) (λ _, True).
Proof. unfold copy_response, read_resp_size, load_i32, load. quiet_walk. Qed.

Lemma quiet_follows {X} (p : prog X) ph Q :
  ph ≠ POut → within quiet_ops p (λ _, True) → (∀ x, Q x (Owner ph)) → follows p (Owner ph) Q.
Proof.
  intros Hph Hp HQ. eapply obeys_mono, quiet_stays, Hp; [|done]. intros x s ->. apply HQ.
Qed.

Lemma stays_bind {X Y} (p : prog X) (f : X → prog Y) ph Q :
  ph ≠ POut → within quiet_ops p (λ _, True) → (∀ x, follows (f x) (Owner ph) Q) →
  follows (bind p f) (Owner ph) Q.
Proof. intros. apply obeys_bind. by apply quiet_follows. Qed.

Lemma publish_request_follows s Q :
  (∀ x, Q x (Owner PLive)) → follows (publish_request i s) (Owner PBusy) Q.
Proof.
  intros HQ. unfold publish_request, ring_guest, load, store. obeys_walk mon_step.
  - by apply quiet_follows; [|apply quiet_SignalEvent|].
  - apply HQ.
Qed.

Lemma FinishWait_follows (ready : bool) Q :
  Q tt (Owner (if ready then PDone else POut)) → follows (FinishWait i ready) (Owner PLive) Q.
Proof. intros HQ. unfold FinishWait, store. obeys_walk mon_step;
  repeat match goal with r : unit |- _ => destruct r end; done.
Qed.

Lemma check_response_follows seq :
  follows (check_response i seq) (Owner PDone)
    (λ r s', s' = Owner (match r with Some _ => POut | None => PDone end)).
Proof. unfold check_response, load, store. by obeys_walk mon_step. Qed.

Lemma release_follows ph Q :
  ph = PBusy ∨ ph = PDone → Q tt (Owner POut) → follows (store i F_state SLOT_FREE) (Owner ph) Q.
Proof. intros [-> | ->] HQ; unfold store; obeys_walk mon_step; by destruct r. Qed.

(** From a response to the end of the transaction. *)
Lemma receive_follows {Y} s seq (f : list byte → Y) (g : Error → Y) :
  follows
    (let* refused := check_response i seq in
     match refused with
     | Some e => Ret (g e)
     | None => let* data := copy_response i s in store i F_state SLOT_FREE ;;; Ret (f data)
     end) (Owner PDone) (λ _ s', s' = Owner POut).
Proof.
  apply obeys_bind. eapply obeys_mono, check_response_follows. intros [e|] s' ->; [done|].
  apply stays_bind; [done|apply quiet_copy_response|]. intros data.
  apply obeys_bind, release_follows; [by right|done].
Qed.

Lemma SendAcquired_follows A fuel idx size ty out t :
  Z.to_nat idx = i → bad_index A idx = false → is_Some (slots A !! i) →
  follows (SendAcquired A fuel idx size ty out t) (Owner PBusy) (λ _ s', s' = Owner POut).
Proof.
  intros Hi Hb [s Hs]. unfold SendAcquired, with_slot. rewrite Hb, Hi, Hs.
  destruct (_ <? _); [unfold store; by obeys_walk mon_step|].
  apply stays_bind; [done|apply quiet_write_request|]. intros seq. unfold WaitResponse.
  do 2 apply obeys_bind. apply publish_request_follows. intros _.
  apply stays_bind; [done|apply quiet_WaitForRespReady|]. intros ready.
  apply obeys_bind, FinishWait_follows. cbn [obeys].
  destruct ready; cbn [negb]; [|done].
  apply (receive_follows s _ (λ data, (Ok (resp_len data), data)) (λ e, (Err e, out))).
Qed.

Lemma SendAcquiredAsync_follows A idx size ty :
  Z.to_nat idx = i → bad_index A idx = false → is_Some (slots A !! i) →
  follows (SendAcquiredAsync A idx size ty) (Owner PBusy)
    (λ r s', s' = Owner (if ResultVoid.HasError r then POut else PLive)).
Proof.
  intros Hi Hb [s Hs]. unfold SendAcquiredAsync, with_slot. rewrite Hb, Hi, Hs.
  destruct (_ <? _); [unfold store; by obeys_walk mon_step|].
  apply stays_bind; [done|apply quiet_write_request|]. intros seq.
  apply obeys_bind, publish_request_follows. done.
Qed.

Lemma WaitForSlot_follows A fuel idx out t :
  Z.to_nat idx = i → bad_index A idx = false → is_Some (slots A !! i) →
  follows (WaitForSlot A fuel idx out t) (Owner PLive) (λ _ s', s' = Owner POut).
Proof.
  intros Hi Hb [s Hs]. unfold WaitForSlot, with_slot. rewrite Hb, Hi, Hs.
  unfold store at 1 2. obeys_walk mon_step.
  apply quiet_follows; [done|apply quiet_WaitForRespReady|]. intros ready.
  apply obeys_bind, FinishWait_follows. destruct ready; cbn [negb]; [|done].
  apply stays_bind; [done|unfold load; quiet_walk|]. intros seq.
  apply (receive_follows s _ (λ data, (Ok (resp_len data), data)) (λ e, (Err e, out))).
Qed.

Lemma transaction_follows A fuel async idx size ty t :
  Z.to_nat idx = i → bad_index A idx = false → is_Some (slots A !! i) →
  follows (transaction A fuel async idx size ty t) (Owner PBusy) (λ _ s', s' = Owner POut).
Proof.
  intros. destruct async; simpl; [|by apply SendAcquired_follows].
  apply obeys_bind. eapply obeys_mono, SendAcquiredAsync_follows; [|done..].
  intros r s ->. destruct (ResultVoid.HasError r); [done|by apply WaitForSlot_follows].
Qed.
End rob.
End Rob.

(** The thread is not about to touch slot [i]. *)
Definition off_slot {X} (i : nat) (p : prog X) : Prop :=
  ∀ Y (o : op Y) k, p = Do o k → touches i o = false.

Definition owner_thread (A : Allocator) (fuel : nat) (async : bool) (idx size : Z)
    (ty : MsgType) (t : Z) : prog (response + bool) :=
  let* r := transaction A fuel async idx size ty t in Ret (inl r).

Definition claim_thread {X} (i : nat) : prog (X + bool) :=
  let* b := tryClaimSlot i in Ret (inr b).

(** A thread that called [tryClaimSlot] on slot [i] some time ago, or calls it now:
    it has only read since, and read while the generation of the slot was below
    [gen].  (A step that leaves the world as it is is a read or a failed
    compare-and-swap.) *)
Inductive begun {X} (i : nat) (gen : Z) : prog (X + bool) → Prop :=
  | begun_call : begun i gen (claim_thread i)
  | begun_read w p p' :
      begun i gen p → mem w (LSlot i F_gen) < gen → thread_step w p w p' → begun i gen p'.

(** What such a thread knows. *)
Definition early (gen : Z) (t : Rob.thief) : Prop :=
  match t with
  | Rob.TStart | Rob.TNo => True
  | Rob.TGen g | Rob.TSaw g _ => g < gen
  | Rob.TGo g v => stealable v = true ∧ g < gen
  | _ => False
  end.

Definition claim_end {X} (r : X + bool) (s : Rob.role) : Prop :=
  match r with inl _ => True | inr b => ∃ t, s = Rob.Thief t ∧ (b = true → t = Rob.TClaimed) end.

Lemma u64_succ_ne g : u64 (g + 1) ≠ g.
Proof.
  unfold u64. Z.to_euclidean_division_equations. lia.
Qed.

(** An operation that leaves the world as it is. *)
Lemma early_step i gen w t X (o : op X) x r s' :
  early gen t → mem w (LSlot i F_gen) < gen → exec x o w = Done r w →
  Rob.thief_next i t o r = Next s' → ∃ t', s' = Rob.Thief t' ∧ early gen t'.
Proof.
  intros Ht Hg Hx Hn.
  destruct o as [l| |l e d|l d| | | | | | | | |]; cbn [Rob.thief_next] in Hn;
    try (destruct (Rob.decides _ _); simplify_eq; by eexists).
  - simpl in Hx. simplify_eq. destruct (on i F_gen l) eqn:H1.
    { apply on_spec in H1 as ->. destruct t; simplify_eq. by eexists. }
    repeat case_match; simplify_eq; by eexists.
  - simpl in Hx. destruct (on i F_gen l) eqn:H1.
    { apply on_spec in H1 as ->. destruct t as [| | |g v| | | |]; try done.
      destruct (_ && _) eqn:E; [|done]. apply andb_true_iff in E as [->%Z.eqb_eq ->%Z.eqb_eq].
      destruct (Z.eqb_spec (mem w (LSlot i F_gen)) g) as [E|]; simplify_eq/=; [|by eexists].
      match goal with H : set_mem _ _ _ = w |- _ =>
        apply (f_equal (λ w, mem w (LSlot i F_gen))) in H; simpl in H; rewrite upd_eq in H end.
      by edestruct u64_succ_ne. }
    repeat case_match; simplify_eq; try done; by eexists.
  - destruct (on i F_gen l) eqn:H1; [|repeat case_match; simplify_eq; by eexists].
    apply on_spec in H1 as ->. destruct t as [| |g v| | | | |]; try done.
    destruct (_ && _) eqn:E; [|done]. apply andb_true_iff in E as [_ ->%Z.eqb_eq].
    simpl in Hx. injection Hx as _ Hw.
    apply (f_equal (λ w, mem w (LSlot i F_gen))) in Hw. simpl in Hw. rewrite upd_eq in Hw.
    by edestruct u64_succ_ne.
Qed.

Lemma begun_follows {X} i gen (p : prog (X + bool)) :
  begun i gen p → ∃ t, obeys false (Rob.mon i) p (Rob.Thief t) claim_end ∧ early gen t.
Proof.
  induction 1 as [|w p p' _ (t&Ho&He) Hg Hs].
  - exists Rob.TStart. split; [|done]. apply obeys_bind.
    eapply obeys_mono, Rob.tryClaimSlot_follows. done.
  - inversion Hs as [Y o k x ? r ? Hx]; subst. specialize (Ho r).
    unfold Rob.mon in Ho. rewrite (exec_answer _ _ _ _ _ _ Hx) in Ho.
    destruct (Rob.thief_next i t o r) as [s'| |] eqn:Hn; [|done|].
    + destruct (early_step _ _ _ _ _ _ _ _ _ He Hg Hx Hn) as (t'&->&?). by exists t'.
    + exfalso. revert Hn. clear. destruct o, t; simpl; repeat case_match; done.
Qed.

Lemma bumps_bound ss : Rob.bumps ss <= Z.of_nat (length ss).
Proof.
  unfold Rob.bumps. apply inj_le. induction ss as [|[|t] ss IH]; simpl; [lia..|].
  destruct t; simpl; lia.
Qed.

(** Whatever follows the owner protocol is safe from claimers. *)
Lemma not_robbed {X} i (q : prog X) qs w w' p0 ps j :
  obeys false (Rob.mon i) q (Rob.Owner Rob.PBusy) (λ _ _, True) →
  mem w (LSlot i F_state) = SLOT_BUSY → 0 <= mem w (LSlot i F_gen) < 2 ^ 63 →
  Z.of_nat (length qs) < 2 ^ 63 - 1 → Forall (begun i (mem w (LSlot i F_gen))) qs →
  rtc (pool_step (Rob.guest i)) (w, (let* r := q in Ret (inl r)) :: qs) (w', p0 :: ps) →
  ps !! j = Some (Ret (inr true)) → off_slot i p0.
Proof.
  intros Hq Hw Hg Hn Hqs Hr Hj.
  assert (∃ ts, Forall2 (λ p t, obeys false (Rob.mon i) p (Rob.Thief t) claim_end) qs ts ∧
    Forall (early (mem w (LSlot i F_gen))) ts) as (ts&Hts&He).
  { clear -Hqs. induction Hqs as [|p qs Hp _ (ts&?&?)]; [by exists []|].
    destruct (begun_follows _ _ _ Hp) as (t&?&?). exists (t :: ts). by split; constructor. }
  edestruct (monitor_sound (Rob.mon i) (Rob.guest i) (Rob.inv i) (claim_end (X := X)))
    as (ss&(ph&H0&_&Ht&_)&Hps); [apply Rob.rob_inv_env|apply Rob.rob_inv_step| |exact Hr|].
  - split; [|instantiate (1 := Rob.Owner Rob.PBusy :: map Rob.Thief ts)].
    + exists Rob.PBusy. split; [done|]. split; [done|]. split.
      * intros k r Hk. simpl in Hk. apply list_lookup_fmap_Some in Hk as (t&->&Hk).
        exists t. split; [done|]. right.
        pose proof (Forall_lookup_1 _ _ _ _ He Hk) as Het. destruct t; simpl in *; naive_solver.
      * pose proof (bumps_bound (Rob.Owner Rob.PBusy :: map Rob.Thief ts)) as Hb.
        simpl in Hb. rewrite length_map, <- (Forall2_length _ _ _ Hts) in Hb.
        unfold Rob.gen_ok. lia.
    + constructor; [apply obeys_bind; by eapply obeys_mono, Hq|].
      clear -Hts. induction Hts; by constructor.
  - destruct ss as [|s0 ss]; [done|]. simplify_eq/=. apply Forall2_cons in Hps as [Hp0 Hps].
    destruct (Forall2_lookup_l _ _ _ _ _ Hps Hj) as (s&Hsj&(t'&->&Hc)).
    destruct (Ht _ _ Hsj) as (t''&[= <-]&Hok). rewrite (Hc eq_refl) in Hok.
    destruct Hok as [->|[]]. intros Y o k ->. specialize (Hp0 (some_answer o)).
    unfold Rob.mon in Hp0. rewrite some_answer_ok in Hp0. simpl in Hp0.
    by destruct (touches i o).
Qed.

(** C4: a transaction is not robbed.  A thread that acquired a slot performs a
    transaction on it, synchronous or asynchronous, to whatever end.  Any number
    of other threads try to claim the same slot, with the licence to steal
    transactions whose owner is not waiting: they call [tryClaimSlot] after the
    acquisition, or called it before and have only read so far, the generation
    included, as it was before the acquisition advanced it ([begun]).  The guest
    serves the request at its own pace, through [SLOT_GUEST_BUSY] and [SLOT_DONE],
    and may advance the generation, which does not wrap.  In every interleaving, a
    claim that succeeded did so after the owner touched the slot for the last
    time: nobody else gets the slot while the owner still reads or writes it.
    Excluded is a claimer that, when the slot is acquired, has already won its
    generation and not yet exchanged the state, or read the generation only after
    the acquirer had advanced it: such a claimer can rob the slot
    ([late_reader_robs]). *)
Theorem owner_not_robbed A fuel async idx size ty t qs w w' p0 ps j :
  bad_index A idx = false → is_Some (slots A !! Z.to_nat idx) →
  mem w (LSlot (Z.to_nat idx) F_state) = SLOT_BUSY →
  0 <= mem w (LSlot (Z.to_nat idx) F_gen) < 2 ^ 63 → Z.of_nat (length qs) < 2 ^ 63 - 1 →
  Forall (begun (Z.to_nat idx) (mem w (LSlot (Z.to_nat idx) F_gen))) qs →
  rtc (pool_step (Rob.guest (Z.to_nat idx)))
    (w, owner_thread A fuel async idx size ty t :: qs) (w', p0 :: ps) →
  ps !! j = Some (Ret (inr true)) → off_slot (Z.to_nat idx) p0.
Proof.
  intros Hb Hs Hw Hg Hn Hqs. apply not_robbed; [|done..].
  eapply obeys_mono, Rob.transaction_follows; done.
Qed.

(** A slot that has been claimed; the claim advanced the generation. *)
Definition ex_claimed : World := set_mem ex_world (LSlot 0 F_state) SLOT_BUSY.
Definition ex_acquired : World := set_mem ex_claimed (LSlot 0 F_gen) 1.

(** The slot before, abandoned with an unanswered request. *)
Definition ex_zombie : World := set_mem ex_world (LSlot 0 F_state) SLOT_REQ_READY.

(** The next operation, if it is a load. *)
Definition read1 {A} (w : World) (p : prog A) : prog A :=
  match p with
  | Do o k =>
      match o in op X return (X → prog A) → prog A with
      | Load l => λ k, k (mem w l)
      | _ => λ _, p
      end k
  | _ => p
  end.

Lemma begun_read1 {X} i gen w (p : prog (X + bool)) :
  mem w (LSlot i F_gen) < gen → begun i gen p → begun i gen (read1 w p).
Proof.
  intros Hg Hp. destruct p as [|Y o k| |]; try done. destruct o; try done.
  eapply begun_read; [done|done|]. by apply (ts_do _ (Load _) k ex_ext).
Qed.

(** A claimer that has seen the abandoned request and its owner gone. *)
Definition ex_early : prog (response + bool) :=
  read1 ex_zombie (read1 ex_zombie (read1 ex_zombie (claim_thread 0))).

Lemma ex_early_begun : begun 0 1 ex_early.
Proof. repeat (apply begun_read1; [reflexivity|]). apply begun_call. Qed.

(** The early claimer loses; the owner sends, gives up and returns; then the other
    claimer takes the slot. *)
Lemma owner_not_robbed_witness :
  let c := run (map (λ k, Run 0 (mkExt (k * 100000000) true 0 [])) (seqZ 0 12) ++
                replicate 20 (Run 1 ex_ext) ++
                map (λ k, Run 0 (mkExt (k * 100000000) true 0 [])) (seqZ 12 18) ++
                replicate 20 (Run 2 ex_ext))
             (ex_acquired, [owner_thread ex_alloc 5 false 0 5 NORMAL 10; ex_early; claim_thread 0]) in
  c.2 !! 1%nat = Some (Ret (inr false)) ∧
  c.2 !! 2%nat = Some (Ret (inr true)) ∧ off_slot 0 (default Fault (c.2 !! 0%nat)).
Proof.
  intros c. split; [reflexivity|]. split; [reflexivity|].
  apply (owner_not_robbed ex_alloc 5 false 0 5 NORMAL 10 [ex_early; claim_thread 0] ex_acquired
           c.1 _ (tail c.2) 1%nat);
    [reflexivity|by eexists|reflexivity|by split|reflexivity| | |reflexivity].
  - constructor; [apply ex_early_begun|]. constructor; [apply begun_call|constructor].
  - change (_ :: tail c.2) with c.2. apply (run_pool (Rob.guest 0)). repeat constructor.
Defined.

(** ** A slot can be robbed by a claimer that met its acquisition *)

(** A thread that acquires an abandoned slot and performs a transaction on it. *)
Definition acquiring_thread (A : Allocator) (fuel : nat) (async : bool) (idx size : Z)
    (ty : MsgType) (t : Z) : prog (response + bool) :=
  let* ok := tryClaimSlot (Z.to_nat idx) in
  if ok then owner_thread A fuel async idx size ty t else Ret (inr false).

(** The acquirer advances the generation; the claimer reads the generation, the
    abandoned request and the waiting flag; the acquirer takes the slot and
    publishes its own request; the claimer completes its claim. *)
Definition late_acts : list act :=
  replicate 4 (Run 0 ex_ext) ++ replicate 3 (Run 1 ex_ext) ++ replicate 13 (Run 0 ex_ext) ++
  replicate 5 (Run 1 ex_ext).

Definition late_start : World * list (prog (response + bool)) :=
  (ex_zombie, [acquiring_thread ex_alloc 5 false 0 5 NORMAL 10; claim_thread 0]).
Definition late_end := run late_acts late_start.

(** C31: what [owner_not_robbed] excludes does happen.  A slot was abandoned with
    an unanswered request.  One thread acquires it by [tryClaimSlot] and sends a
    request on it; another calls [tryClaimSlot] on the same slot and reads the
    generation between the two compare-and-swaps of the acquirer.  Nobody advances
    the generation again and the new request has the state of the old one, so both
    compare-and-swaps of the second thread succeed: it takes the slot from the
    first, which is waiting for its response and about to touch the slot. *)
Theorem late_reader_robs :
  rtc (pool_step (Rob.guest 0)) late_start (late_end.1, late_end.2) ∧
  late_end.2 !! 1%nat = Some (Ret (inr true)) ∧
  ¬ off_slot 0 (default Fault (late_end.2 !! 0%nat)) ∧
  mem late_end.1 (LSlot 0 F_activeWait) = 1.
Proof.
  split; [apply run_pool; repeat constructor|]. split; [reflexivity|].
  split; [intros H; discriminate (H _ _ _ eq_refl)|reflexivity].
Qed.

(** ** A held slot can be robbed between two of its transactions *)

(** The owner of a held slot performs two transactions on it. *)
Definition held_thread (A : Allocator) (fuel : nat) (idx size : Z) (ty : MsgType) (t : Z)
    : prog (response + bool) :=
  let* _ := SendHeld A fuel idx size ty [] t in
  let* r := SendHeld A fuel idx size ty [] t in
  Ret (inl r).

Lemma guest_answers (w : World) (ps : list (prog (response + bool))) :
  mem w (LSlot 0 F_state) = SLOT_REQ_READY →
  pool_step (Rob.guest 0) (w, ps) (set_mem w (LSlot 0 F_state) SLOT_RESP_READY, ps).
Proof.
  intros Hm. apply ps_env. split; simpl; [done|]. split; [by left|]. right; left.
  rewrite upd_eq. auto.
Qed.

(** The claimer sees the first response, is overtaken by the owner, passes the
    generation check, and completes its claim on the second response. *)
Definition rob_1 : list act := replicate 12 (Run 0 ex_ext).
Definition rob_2 : list act :=
  replicate 2 (Run 1 ex_ext) ++ replicate 4 (Run 0 ex_ext) ++ replicate 2 (Run 1 ex_ext) ++
  replicate 15 (Run 0 ex_ext).
Definition rob_3 : list act := replicate 3 (Run 1 ex_ext).

Definition respond (c : World * list (prog (response + bool))) :=
  (set_mem c.1 (LSlot 0 F_state) SLOT_RESP_READY, c.2).

Definition rob_start : World * list (prog (response + bool)) :=
  (ex_claimed, [held_thread ex_alloc 5 0 5 NORMAL 10; claim_thread 0]).
Definition rob_end := run rob_3 (respond (run rob_2 (respond (run rob_1 rob_start)))).

(** The protection of a transaction against robbery does not extend
    to held slots.  There is an
    interleaving of one thread that owns a held slot and performs two [SendHeld]
    on it, one thread that runs [tryClaimSlot] on the same slot, and a
    well-behaved guest, in which the claim succeeds while the owner is in the
    middle of its second transaction and about to touch the slot. *)
Theorem held_slot_robbed :
  rtc (pool_step (Rob.guest 0)) rob_start (rob_end.1, rob_end.2) ∧
  rob_end.2 !! 1%nat = Some (Ret (inr true)) ∧
  ¬ off_slot 0 (default Fault (rob_end.2 !! 0%nat)).
Proof.
  split; [|split; [reflexivity|intros H; discriminate (H _ _ _ eq_refl)]].
  etrans; [apply (run_pool _ rob_1); repeat constructor|].
  etrans; [apply rtc_once, guest_answers; reflexivity|].
  etrans; [apply (run_pool _ rob_2); repeat constructor|].
  etrans; [apply rtc_once, guest_answers; reflexivity|].
  apply (run_pool _ rob_3). repeat constructor.
Qed.
