(* ===== verification/GuestCallProtocol.v ===== *)
(** * GuestCallProtocol: serving guest calls, concurrently

    - [responses_bounded]: no response size larger than the response area is
      published;
    - [publish_locked]: as long as no reclaimer frees a slot inside the publish
      window, the response fields of a header are written only under the publish
      lock [SLOT_DONE], by one worker at a time, and the publish itself succeeds;
      with reclaimers, responses are still published from [SLOT_DONE] only;
    - [reclaimed_publish]: a schedule with a reclaim inside the window. *)

From S2P Require Export SlotProtocol.

Local Open Scope Z_scope.

(** ** Published response sizes *)

(** A store to [respSize] announces no more bytes than the response area has. *)
Definition bounded_resp (A : Allocator) : ∀ X, op X → bool := λ X o,
  match o with
  | Store (LSlot i F_respSize) v =>
      match slots A !! i with Some s => abs_u32 v <=? maxRespSize s | None => false end
  | _ => true
  end.

Ltac refl_side := reflexivity.

Section responses.
Context (A : Allocator) (HA : alloc_ok A).

Lemma bounded_serve_claimed i s :
  slots A !! i = Some s → within (bounded_resp A) (serve_claimed i s) (λ _, True).
Proof using HA.
  intros Hs. destruct (slot_sizes A HA i s Hs) as [_ ?]. assert (abs_u32 0 = 0) by done.
  unfold serve_claimed, LockForPublish, PublishResponse, SignalEvent, load_i32, load, cas, store.
  within_walk ltac:(first [reflexivity|cbn [bounded_resp]; rewrite Hs; apply Z.leb_le;
    first [lia|match goal with |- context [?a <? ?b] => destruct (Z.ltb_spec a b); lia end]]).
Qed.

Lemma bounded_ProcessGuestCalls limit :
  within (bounded_resp A) (ProcessGuestCalls A limit) (λ _, True).
Proof using HA.
  unfold ProcessGuestCalls, is_running. apply within_seq; [within_walk refl_side|]. intros run.
  destruct run; cbn [negb]; [|done]. apply within_seq; [within_walk refl_side|].
  intros reclaim. apply within_seq; [|done].
  apply (within_for _ _ _ _ _ (λ _, True)); [done| |done].
  intros j n Hj _. destruct (_ && _); [done|].
  apply within_with_slot; [by apply guest_range|]. intros i s _ Hs.
  pose proof (bounded_serve_claimed i s Hs).
  unfold stamp_lease, MonotonicNanos, load, store, cas. within_walk refl_side.
Qed.
End responses.

(** Published sizes fit.  Whatever the guest put in the request header and
    whatever the handler returns ([INT_MIN] included), every [respSize] that
    [ProcessGuestCalls] writes has a magnitude within the response area of its
    slot. *)
Theorem responses_bounded A limit :
  alloc_ok A → within (bounded_resp A) (ProcessGuestCalls A limit) (λ _, True).
Proof. intros HA. exact (bounded_ProcessGuestCalls A HA limit). Qed.

(** One host slot and one guest slot. *)
Definition ex_guest_alloc : Allocator :=
  mkAllocator [mkSlot 64 64 1 2; mkSlot 64 64 3 4] 1 1 2 10000.

Lemma ex_guest_alloc_ok : alloc_ok ex_guest_alloc.
Proof. constructor; simpl; try lia. repeat constructor; simpl; lia. Qed.

Lemma responses_bounded_witness :
  within (bounded_resp ex_guest_alloc) (ProcessGuestCalls ex_guest_alloc 5) (λ _, True).
Proof. apply responses_bounded. apply ex_guest_alloc_ok. Defined.

(** ** The publish lock *)

(** The operation writes a response field of slot [i], or publishes it. *)
Definition publishes (i : nat) {X} (o : op X) : bool :=
  match o with
  | Store l _ => on i F_respSize l || on i F_msgType l
  | Cas l e _ => on i F_state l && (e =? SLOT_DONE)
  | _ => false
  end.

Module Lock.

(** The slot whose publish lock this worker holds. *)
Definition store_ok (lk : option nat) (l : loc) : bool :=
  match l with
  | LSlot i F_state => false
  | LSlot i (F_respSize | F_msgType) => bool_decide (lk = Some i)
  | _ => true
  end.

Definition mon : monitor (option nat) := λ lk X o,
  match o in op X return X → verdict_of (option nat) with
  | Store l _ => λ _, if store_ok lk l then Next lk else Forbidden
  | Cas (LSlot i F_state) e d => λ r,
      match lk with
      | None =>
          if (e =? SLOT_REQ_READY) && (d =? SLOT_BUSY) then Next None
          else if (e =? SLOT_BUSY) && (d =? SLOT_DONE) then Next (if r.1 then Some i else None)
          else Forbidden
      | Some i' =>
          if (i' =? i)%nat && (e =? SLOT_DONE) && (d =? SLOT_RESP_READY) then
            if r.1 then Next None else Impossible
          else Forbidden
      end
  | CopyOut _ _ _ => λ _, Forbidden
  | Exchange l _ | FetchAdd l _ => λ _,
      match l with LSlot _ (F_state | F_respSize | F_msgType) => Forbidden | _ => Next lk end
  | _ => λ _, Next lk
  end.

(** The other parties leave a slot alone while it is [SLOT_DONE]. *)
Definition env (w w' : World) : Prop :=
  ∀ i, mem w (LSlot i F_state) = SLOT_DONE → mem w' (LSlot i F_state) = SLOT_DONE.

Definition inv (w : World) (ss : list (option nat)) : Prop :=
  (∀ j i, ss !! j = Some (Some i) → mem w (LSlot i F_state) = SLOT_DONE) ∧
  (∀ j k i, ss !! j = Some (Some i) → ss !! k = Some (Some i) → j = k).

Lemma lock_inv_env w w' ss : inv w ss → env w w' → inv w' ss.
Proof. intros [H1 H2] He. split; [|done]. eauto. Qed.

(** A step that leaves every locked slot alone. *)
Lemma inv_keep w w' ss j lk :
  inv w ss → ss !! j = Some lk →
  (∀ i, mem w (LSlot i F_state) = SLOT_DONE → mem w' (LSlot i F_state) = SLOT_DONE) →
  inv w' (<[j := lk]> ss).
Proof. intros Hi Hj He. rewrite list_insert_id by done. by eapply lock_inv_env. Qed.

(** Taking a free lock. *)
Lemma inv_lock w ss j i :
  inv w ss → mem w (LSlot i F_state) ≠ SLOT_DONE →
  inv (set_mem w (LSlot i F_state) SLOT_DONE) (<[j := Some i]> ss).
Proof.
  intros [H1 H2] Hm. split.
  - intros k i' Hk. simpl. destruct (decide (i' = i)) as [->|]; [by rewrite upd_eq|].
    rewrite upd_ne by congruence.
    apply list_lookup_insert_Some in Hk as [(_&?&_)|(_&Hk)]; [congruence|eauto].
  - intros k1 k2 i' Hk1 Hk2.
    apply list_lookup_insert_Some in Hk1 as [(->&?&_)|(?&Hk1)];
      apply list_lookup_insert_Some in Hk2 as [(->&?&_)|(?&Hk2)]; simplify_eq; eauto;
      by destruct Hm; eauto.
Qed.

(** Releasing the lock by publishing. *)
Lemma inv_publish w ss j i :
  inv w ss → ss !! j = Some (Some i) →
  inv (set_mem w (LSlot i F_state) SLOT_RESP_READY) (<[j := None]> ss).
Proof.
  intros [H1 H2] Hj. split.
  - intros k i' Hk. apply list_lookup_insert_Some in Hk as [(_&?&_)|(Hne&Hk)]; [done|].
    simpl. rewrite upd_ne; [eauto|]. intros [= ->]. destruct Hne. eauto.
  - intros k1 k2 i' Hk1 Hk2. apply list_lookup_insert_Some in Hk1 as [(_&?&_)|(_&Hk1)]; [done|].
    apply list_lookup_insert_Some in Hk2 as [(_&?&_)|(_&Hk2)]; [done|]. eauto.
Qed.

Lemma lock_inv_step w ss j lk X (o : op X) x r w' :
  inv w ss → ss !! j = Some lk → exec x o w = Done r w' →
  match mon lk X o r with
  | Next lk' => inv w' (<[j := lk']> ss)
  | Forbidden => True
  | Impossible => False
  end.
Proof.
  intros Hi Hj Hx. pose proof Hi as [H1 _].
  assert ((∀ i, writes i F_state o = false) → inv w' (<[j := lk]> ss)) as Hkeep.
  { intros Hw. apply (inv_keep w); [done|done|]. intros i.
    by rewrite (exec_unwritten _ _ _ _ _ _ _ Hx). }
  destruct o as [| |l e d|l| l| | | | | | | |]; simpl; try done; try (by apply Hkeep).
  - destruct (store_ok lk l) eqn:Hs; [|done]. apply Hkeep. intros i.
    destruct l as [i' []| | | | | | | | | | | | |]; done.
  - destruct l as [i []| | | | | | | | | | | | |]; try (by apply Hkeep).
    simpl in Hx. destruct lk as [i'|].
    + destruct (_ && _) eqn:Hc; [|done].
      rewrite !andb_true_iff, Nat.eqb_eq, !Z.eqb_eq in Hc. destruct Hc as [[-> ->] ->].
      rewrite (H1 _ _ Hj) in Hx. simpl in Hx. simplify_eq/=. by apply inv_publish.
    + destruct ((e =? SLOT_REQ_READY) && _) eqn:Hc1.
      * rewrite andb_true_iff, !Z.eqb_eq in Hc1. destruct Hc1 as [-> ->].
        apply (inv_keep w); [done|done|]. intros i0 Hd.
        destruct (Z.eqb_spec (mem w (LSlot i F_state)) SLOT_REQ_READY) as [E|]; simplify_eq/=;
          [|done]. rewrite upd_ne; [done|]. intros [= ->]. by rewrite E in Hd.
      * destruct ((e =? SLOT_BUSY) && _) eqn:Hc2; [|exact I]. rewrite andb_true_iff, !Z.eqb_eq in Hc2.
        destruct Hc2 as [-> ->].
        destruct (Z.eqb_spec (mem w (LSlot i F_state)) SLOT_BUSY) as [E|]; simplify_eq/=.
        { apply inv_lock; [done|]. by rewrite E. }
        by eapply inv_keep.
  - destruct l as [i []| | | | | | | | | | | | |]; done || by apply Hkeep.
  - destruct l as [i []| | | | | | | | | | | | |]; done || by apply Hkeep.
Qed.

(** A thread at a publishing operation holds the lock. *)
Lemma publishes_locked {A} i lk X (o : op X) (k : X → prog A) Q :
  obeys false mon (Do o k) lk Q → publishes i o = true → lk = Some i.
Proof.
  intros Hob Hp. specialize (Hob (some_answer o)).
  destruct o as [|l v|l e d| | | | | | | | | |]; simpl in *; try done.
  - destruct l as [i' []| | | | | | | | | | | | |]; simpl in *; try done;
      case_bool_decide; try done; rewrite ?orb_false_r in Hp; by apply Nat.eqb_eq in Hp as ->.
  - apply andb_true_iff in Hp as [->%on_spec ->%Z.eqb_eq]. simpl in *.
    destruct lk as [i'|]; [|done]. destruct (Nat.eqb_spec i' i) as [->|]; done.
Qed.

(** *** The worker follows the monitor *)

Ltac mon_step :=
  cbn [mon store_ok Z.eqb andb fst]; rewrite ?Nat.eqb_refl, ?Z.eqb_refl, ?bool_decide_eq_true_2
    by done; cbn [andb].

Abbreviation follows p lk Q := (obeys false mon p lk Q).

Lemma SignalEvent_follows h lk Q : (∀ u, Q u lk) → follows (SignalEvent h) lk Q.
Proof. intros HQ. unfold SignalEvent. obeys_walk mon_step; apply HQ. Qed.

Lemma LockForPublish_follows i Q :
  Q true (Some i) → Q false None → follows (LockForPublish i) None Q.
Proof. intros HT HF. unfold LockForPublish, cas. by obeys_walk mon_step. Qed.

Lemma PublishResponse_follows i s Q :
  (∀ b, Q b None) → follows (PublishResponse i s) (Some i) Q.
Proof.
  intros HQ. unfold PublishResponse, cas, load. obeys_walk mon_step; auto.
  apply SignalEvent_follows. intros. apply HQ.
Qed.

Lemma serve_claimed_follows i s Q : (∀ u, Q u None) → follows (serve_claimed i s) None Q.
Proof.
  intros HQ. unfold serve_claimed, load_i32, load, store.
  obeys_walk mon_step; (apply LockForPublish_follows; obeys_walk mon_step; try done);
    (apply PublishResponse_follows; intros; apply HQ).
Qed.

Lemma ProcessGuestCalls_follows A limit :
  alloc_ok A → follows (ProcessGuestCalls A limit) None (λ _ lk, lk = None).
Proof.
  intros HA. unfold ProcessGuestCalls, is_running. obeys_walk mon_step; try done.
  apply (obeys_for _ _ (λ _ _ lk, lk = None)); [done| |by intros ?? ->].
  intros j n lk Hj ->. destruct (_ && _); [done|]. unfold with_slot.
  destruct (lookup_lt_is_Some_2 (slots A) (Z.to_nat j)) as [s ->].
  { pose proof (guest_range A HA j Hj). lia. }
  unfold load, cas, stamp_lease, MonotonicNanos, store. obeys_walk mon_step; try done;
    by apply serve_claimed_follows.
Qed.
End Lock.

(** As long as nobody else moves a slot out of [SLOT_DONE]. *)
Lemma publish_exclusive A limits w w' ps :
  alloc_ok A →
  rtc (pool_step Lock.env) (w, map (ProcessGuestCalls A) limits) (w', ps) →
  ∀ i j X (o : op X) k, ps !! j = Some (Do o k) → publishes i o = true →
    mem w' (LSlot i F_state) = SLOT_DONE ∧
    ∀ j' X' (o' : op X') k', ps !! j' = Some (Do o' k') → publishes i o' = true → j' = j.
Proof.
  intros HA Hr.
  edestruct (monitor_sound Lock.mon Lock.env Lock.inv (λ (_ : Z) lk, lk = None))
    as (ss&[H1 H2]&Hps); [apply Lock.lock_inv_env|apply Lock.lock_inv_step| |exact Hr|].
  { split; [|instantiate (1 := replicate (length limits) None)].
    - split; [intros ?? Hs|intros ??? Hs _]; by apply lookup_replicate in Hs as [? _].
    - clear Hr. induction limits; constructor; [by apply Lock.ProcessGuestCalls_follows|done]. }
  assert (∀ i j X (o : op X) k, ps !! j = Some (Do o k) → publishes i o = true →
    ss !! j = Some (Some i)) as Hlk.
  { intros i j X o k Hj Hp. destruct (Forall2_lookup_l _ _ _ _ _ Hps Hj) as (lk&Hlk&Hob).
    rewrite Hlk. f_equal. by apply (Lock.publishes_locked i lk X o k (λ _ lk, lk = None)). }
  intros i j X o k Hj Hp. split; [by eapply H1, Hlk|]. intros. eapply H2; by eapply Hlk.
Qed.

(** ** Under any environment *)

(** What a worker may do to the state of a slot: claim, lock, publish. *)
Definition worker_move (v v' : Z) : Prop :=
  v' = v ∨ v = SLOT_REQ_READY ∧ v' = SLOT_BUSY ∨ v = SLOT_BUSY ∧ v' = SLOT_DONE ∨
  v = SLOT_DONE ∧ v' = SLOT_RESP_READY.

Definition moves : ∀ X, op X → bool := λ X o,
  match o with
  | Cas (LSlot _ F_state) e d =>
      (e =? SLOT_REQ_READY) && (d =? SLOT_BUSY) || (e =? SLOT_BUSY) && (d =? SLOT_DONE)
      || (e =? SLOT_DONE) && (d =? SLOT_RESP_READY)
  | Store (LSlot _ F_state) _ | FetchAdd (LSlot _ F_state) _ | Exchange (LSlot _ F_state) _ => false
  | _ => true
  end.

Lemma moves_sound X (o : op X) x w r w' i :
  moves X o = true → exec x o w = Done r w' →
  worker_move (mem w (LSlot i F_state)) (mem w' (LSlot i F_state)).
Proof.
  intros Hm Hx. destruct (writes i F_state o) eqn:Hw.
  2: { left. by rewrite (exec_unwritten _ _ _ _ _ _ _ Hx Hw). }
  destruct o as [l|l v|l e d|l d|l v| | | | | | | |]; simpl in Hw; try done;
    apply on_spec in Hw as ->; simpl in Hm; try done.
  simpl in Hx. rewrite !orb_true_iff, !andb_true_iff, !Z.eqb_eq in Hm.
  destruct (Z.eqb_spec (mem w (LSlot i F_state)) e) as [E|]; simplify_eq/=; [|by left].
  rewrite upd_eq. unfold worker_move. destruct Hm as [[[-> ->]|[-> ->]]|[-> ->]]; auto.
Qed.

Lemma moves_ProcessGuestCalls A limit :
  alloc_ok A → within moves (ProcessGuestCalls A limit) (λ _, True).
Proof.
  intros HA. unfold ProcessGuestCalls, is_running. apply within_seq; [within_walk refl_side|].
  intros run. destruct run; cbn [negb]; [|done]. apply within_seq; [within_walk refl_side|].
  intros reclaim. apply within_seq; [|done].
  apply (within_for _ _ _ _ _ (λ _, True)); [done| |done].
  intros j n Hj _. destruct (_ && _); [done|].
  apply within_with_slot; [by apply guest_range|]. intros i s _ Hs.
  unfold serve_claimed, LockForPublish, PublishResponse, SignalEvent, load_i32.
  unfold stamp_lease, MonotonicNanos, load, store, cas.
  within_walk ltac:(first [reflexivity|cbn [moves]; use_tests; reflexivity]).
Qed.

(** C5: responses are published under lock.  Any number of threads serve guest
    calls concurrently, with whatever batch limits.  (1) Suppose that the guest and
    the other host threads do anything except moving a slot out of [SLOT_DONE]; so
    no reclaimer frees a slot inside the publish window, as with auto-reclaim off,
    the default.  In every interleaving, whenever a thread is about to write
    [respSize] or [msgType] of a slot, or to publish it, the slot is [SLOT_DONE]
    (so the publish succeeds and the protocol-violation branch of
    [PublishResponse] is not reached), and no other thread is about to do so for
    the same slot.  (2) With no assumption on the other parties (an armed
    reclaimer may free a slot that is [SLOT_DONE]), every step of a thread leaves
    the state of every slot as it is, or moves it from [SLOT_REQ_READY] to
    [SLOT_BUSY], from there to [SLOT_DONE], or from there to [SLOT_RESP_READY]: a
    thread that lost its slot to a reclaimer publishes nothing while the slot is
    in another state.  That (1) needs its assumption is [reclaimed_publish]. *)
Theorem publish_locked A limits w w' ps :
  alloc_ok A →
  (rtc (pool_step Lock.env) (w, map (ProcessGuestCalls A) limits) (w', ps) →
   ∀ i j X (o : op X) k, ps !! j = Some (Do o k) → publishes i o = true →
     mem w' (LSlot i F_state) = SLOT_DONE ∧
     ∀ j' X' (o' : op X') k', ps !! j' = Some (Do o' k') → publishes i o' = true → j' = j) ∧
  (rtc (pool_step (λ _ _, True)) (w, map (ProcessGuestCalls A) limits) (w', ps) →
   ∀ j p w'' p', ps !! j = Some p → thread_step w' p w'' p' →
   ∀ i, worker_move (mem w' (LSlot i F_state)) (mem w'' (LSlot i F_state))).
Proof.
  intros HA. split; intros Hr; [by eapply publish_exclusive|].
  intros j p w'' p' Hj Hs i.
  edestruct (monitor_sound (only moves) (λ _ _, True) (λ _ _, True) (λ (_ : Z) _, True))
    as (ss&_&Hps); [done| | |exact Hr|].
  { intros w1 ss k [] X o x r w2 _ _ Hx. unfold only. rewrite (exec_answer _ _ _ _ _ _ Hx).
    by destruct (moves X o). }
  { split; [done|]. instantiate (1 := replicate (length limits) tt).
    clear Hr. induction limits; constructor; [by apply moves_ProcessGuestCalls|done]. }
  destruct (Forall2_lookup_l _ _ _ _ _ Hps Hj) as (s&_&Ho).
  inversion Hs as [X o k x ? r ? Hx]; subst. specialize (Ho r). unfold only in Ho.
  destruct (moves X o) eqn:Hm; [|done]. by eapply moves_sound.
Qed.

(** A pending guest call, served up to the point where the response is written. *)
Definition ex_guest_world : World := set_mem ex_world (LSlot 1 F_state) SLOT_REQ_READY.

Lemma publish_locked_witness :
  let c := run (replicate 8 (Run 0 ex_ext))
             (ex_guest_world, map (ProcessGuestCalls ex_guest_alloc) [5; 5]) in
  mem c.1 (LSlot 1 F_state) = SLOT_DONE ∧
  let c' := run [Env (LSlot 1 F_state) SLOT_FREE; Run 0 ex_ext] c in
  let c'' := run [Run 0 ex_ext] c' in
  worker_move (mem c'.1 (LSlot 1 F_state)) (mem c''.1 (LSlot 1 F_state)) ∧
  mem c''.1 (LSlot 1 F_state) = SLOT_FREE.
Proof.
  intros c. split.
  - eapply (proj1 (publish_locked ex_guest_alloc [5; 5] ex_guest_world c.1 c.2 ex_guest_alloc_ok)
      (run_pool Lock.env (replicate 8 (Run 0 ex_ext)) ltac:(repeat constructor) _)
      1%nat 0%nat unit (Store (LSlot 1 F_respSize) 0)); reflexivity.
  - intros c' c''. split; [|reflexivity].
    eapply (proj2 (publish_locked ex_guest_alloc [5; 5] ex_guest_world c'.1 c'.2
      ex_guest_alloc_ok)) with (j := 0%nat);
      [|reflexivity|eapply (ts_do _ _ _ ex_ext); reflexivity].
    apply (run_pool (λ _ _, True)
      (replicate 8 (Run 0 ex_ext) ++ [Env (LSlot 1 F_state) SLOT_FREE; Run 0 ex_ext])).
    repeat constructor.
Defined.

(** ** A reclaim inside the publish window *)

(** The first worker has locked the slot; a reclaimer frees it and the guest sends
    another call on it; the second worker serves that call and has locked the slot;
    the first worker finishes. *)
Definition window_acts : list act :=
  replicate 8 (Run 0 ex_ext) ++
  [Env (LSlot 1 F_state) SLOT_FREE; Env (LSlot 1 F_state) SLOT_REQ_READY] ++
  replicate 8 (Run 1 ex_ext) ++ replicate 2 (Run 0 ex_ext).

Definition window_start : World * list (prog Z) :=
  (ex_guest_world, map (ProcessGuestCalls ex_guest_alloc) [5; 5]).
Definition window_end := run window_acts window_start.

(** The slot that the second worker has locked is published by the first, before
    the second has written its response size.  (With one worker the publish
    fails.) *)
Theorem reclaimed_publish :
  rtc (pool_step (λ _ _, True)) window_start (window_end.1, window_end.2) ∧
  mem window_end.1 (LSlot 1 F_state) = SLOT_RESP_READY ∧
  ∃ X (o : op X) k, window_end.2 !! 1%nat = Some (Do o k) ∧ publishes 1 o = true.
Proof.
  split; [apply (run_pool (λ _ _, True)); repeat constructor|]. split; [reflexivity|].
  do 3 eexists. split; reflexivity.
Qed.
