(* ===== verification/Doorbell.v ===== *)
(** * Doorbell: no wake-up is lost

    Every direction of the exchange uses the same handshake.  The publisher makes
    the slot ready, then reads the waiter's flag and rings if it is up; the
    waiter raises its flag, then re-reads the slot and sleeps if it is not ready.
    The four pairs, two of them with the C++ code as publisher and two as waiter,
    follow one protocol ([mon]); its invariant says that a waiter cannot be about
    to sleep on a silent bell once the publisher is done. *)

From S2P Require Export SlotProtocol Guest.

Local Open Scope Z_scope.

Module Bell.
Section bell.

(** The slot, the waiter's flag, the state that is published, and the event. *)
Context (i : nat) (f : field) (ready ev : Z).

(** Flag down; flag up; flag up and slot seen not ready; slot seen ready. *)
Inductive waiter : Set := WIdle | WArmed | WClear | WSaw.
(** Not yet published; published; flag seen up; done; failed to publish. *)
Inductive publisher : Set := PStart | PStored | PRing | PDone | PFail.
Inductive role : Set := Waiter (p : waiter) | Publisher (p : publisher).

Definition flag_or_state {X} (o : op X) : bool := writes i f o || writes i F_state o.

Definition waiter_next (p : waiter) {X} (o : op X) : X → verdict_of role :=
  match o in op X return X → verdict_of role with
  | Store l v => λ _,
      if on i f l then Next (Waiter (if v =? 1 then WArmed else WIdle))
      else if on i F_state l then Forbidden else Next (Waiter p)
  | Load l => λ r,
      if on i F_state l then
        match p with
        | WArmed | WClear => Next (Waiter (if r =? ready then WSaw else WClear))
        | _ => Next (Waiter p)
        end
      else Next (Waiter p)
  | WaitObject h _ => λ _,
      match p with
      | WClear => if h =? ev then Next (Waiter WArmed) else Forbidden
      | _ => Forbidden
      end
  | o => λ _, if flag_or_state o then Forbidden else Next (Waiter p)
  end.

Definition publisher_next (p : publisher) {X} (o : op X) : X → verdict_of role :=
  match o in op X return X → verdict_of role with
  | Store l v => λ _,
      if on i F_state l then
        match p with
        | PStart => if v =? ready then Next (Publisher PStored) else Forbidden
        | _ => Forbidden
        end
      else if on i f l then Forbidden else Next (Publisher p)
  | Cas l _ d => λ r,
      if on i F_state l then
        match p with
        | PStart => if d =? ready then Next (Publisher (if r.1 then PStored else PFail))
                    else Forbidden
        | _ => Forbidden
        end
      else if on i f l then Forbidden else Next (Publisher p)
  | Load l => λ r,
      if on i f l then
        match p with
        | PStored => Next (Publisher (if r =? 1 then PRing else PDone))
        | _ => Next (Publisher p)
        end
      else Next (Publisher p)
  | SetEvent h => λ _,
      match p with
      | PRing => if h =? ev then Next (Publisher PDone) else Forbidden
      | _ => Next (Publisher p)
      end
  | WaitObject _ _ => λ _, Forbidden
  | o => λ _, if flag_or_state o then Forbidden else Next (Publisher p)
  end.

Definition mon : monitor role := λ s X o r,
  if answer_ok o r then
    match s with Waiter p => waiter_next p o r | Publisher p => publisher_next p o r end
  else Impossible.

(** Other threads and processes may do anything except touching the flag, taking
    back the published slot, or waiting on the same event. *)
Definition env (w w' : World) : Prop :=
  mem w' (LSlot i f) = mem w (LSlot i f) ∧
  (mem w (LSlot i F_state) = ready → mem w' (LSlot i F_state) = ready) ∧
  (signalled w ev = true → signalled w' ev = true).

Definition flag_up (p : waiter) : bool :=
  match p with WArmed | WClear => true | _ => false end.
Definition has_published (p : publisher) : bool :=
  match p with PStored | PRing | PDone => true | _ => false end.

Definition inv_of (w : World) (p : waiter) (q : publisher) : Prop :=
  (flag_up p = true → mem w (LSlot i f) = 1) ∧
  (has_published q = true → mem w (LSlot i F_state) = ready) ∧
  (p = WClear → q = PDone → signalled w ev = true).

Definition inv (w : World) (ss : list role) : Prop :=
  ∃ p q, ss = [Waiter p; Publisher q] ∧ inv_of w p q.

Lemma bell_inv_env w w' ss : inv w ss → env w w' → inv w' ss.
Proof.
  intros (p&q&->&H1&H2&H3) (E1&E2&E3). exists p, q. split; [done|].
  split_and!; [rewrite E1; auto|auto|auto].
Qed.

Lemma exec_keeps_signal X (o : op X) x w r w' :
  exec x o w = Done r w' → match o with WaitObject _ _ => False | _ => True end →
  signalled w ev = true → signalled w' ev = true.
Proof.
  intros Hx Ho Hs. destruct o; simpl in *; repeat case_match; simplify_eq/=; try done.
  unfold upd. by case_decide.
Qed.

Lemma inv_same w w' p q X (o : op X) x r :
  exec x o w = Done r w' → flag_or_state o = false →
  match o with WaitObject _ _ => False | _ => True end →
  inv_of w p q → inv_of w' p q.
Proof.
  intros Hx [H1 H2]%orb_false_iff Ho (I1&I2&I3).
  pose proof (exec_keeps_signal _ _ _ _ _ _ Hx Ho).
  unfold inv_of. rewrite !(exec_unwritten _ _ _ _ _ _ _ Hx) by done. naive_solver.
Qed.

Hypothesis Hf : f ≠ F_state.

Lemma waiter_step w w' p q X (o : op X) x r :
  exec x o w = Done r w' → inv_of w p q →
  match waiter_next p o r with
  | Next s => ∃ p', s = Waiter p' ∧ inv_of w' p' q
  | Forbidden => True
  | Impossible => False
  end.
Proof using Hf.
  intros Hx Hi.
  assert (flag_or_state o = false →
    match o with WaitObject _ _ => False | _ => True end →
    ∃ p', Waiter p = Waiter p' ∧ inv_of w' p' q) as Hsame.
  { intros H1 H2. exists p. split; [done|]. by eapply inv_same. }
  destruct Hi as (I1&I2&I3).
  destruct o as [l|l v| | | | | | |h t| | | |]; cbn [waiter_next];
    try (destruct (flag_or_state _) eqn:E; [done|by apply Hsame]).
  - simpl in Hx. simplify_eq. destruct (on i F_state l) eqn:El; [|by apply Hsame].
    apply on_spec in El as ->.
    assert (flag_up p = true → ∃ p', Waiter (if mem w' (LSlot i F_state) =? ready
      then WSaw else WClear) = Waiter p' ∧ inv_of w' p' q) as Hup.
    { intros Hp. eexists; split; [done|].
      destruct (Z.eqb_spec (mem w' (LSlot i F_state)) ready); split_and!; try done; auto.
      intros _ ->. destruct n. by apply I2. }
    destruct p; try (by apply Hup); by apply Hsame.
  - simpl in Hx. simplify_eq. destruct (on i f l) eqn:El.
    + apply on_spec in El as ->. eexists; split; [done|]. unfold inv_of. simpl.
      rewrite upd_eq, upd_ne by congruence.
      destruct (Z.eqb_spec v 1); simpl; naive_solver.
    + destruct (on i F_state l) eqn:El'; [done|]. apply Hsame; [|done].
      unfold flag_or_state. simpl. by rewrite El, El'.
  - destruct p; try done. destruct (Z.eqb_spec h ev); [|done]. eexists; split; [done|].
    simpl in Hx. repeat case_match; simplify_eq/=; split_and!; done || auto.
Qed.

Lemma publisher_step w w' p q X (o : op X) x r :
  exec x o w = Done r w' → inv_of w p q →
  match publisher_next q o r with
  | Next s => ∃ q', s = Publisher q' ∧ inv_of w' p q'
  | Forbidden => True
  | Impossible => False
  end.
Proof using Hf.
  intros Hx Hi.
  assert (flag_or_state o = false →
    match o with WaitObject _ _ => False | _ => True end →
    ∃ q', Publisher q = Publisher q' ∧ inv_of w' p q') as Hsame.
  { intros H1 H2. exists q. split; [done|]. by eapply inv_same. }
  pose proof Hi as (I1&I2&I3).
  assert (∀ l, on i F_state l = false → on i f l = false → writes i F_state o = on i F_state l →
    writes i f o = on i f l → flag_or_state o = false) as Hfs.
  { intros l E1 E2 W1 W2. unfold flag_or_state. by rewrite W1, W2, E1, E2. }
  destruct o as [l|l v|l e d| | | | |h|h t| | | |]; cbn [publisher_next];
    try (destruct (flag_or_state _) eqn:E; [done|by apply Hsame]); try done.
  - simpl in Hx. simplify_eq. destruct (on i f l) eqn:El; [|by apply Hsame].
    apply on_spec in El as ->. destruct q; try (by apply Hsame).
    eexists; split; [done|]. destruct (Z.eqb_spec (mem w' (LSlot i f)) 1); split_and!; try done;
      try (intros _; by apply I2). intros -> _. destruct n. by apply I1.
  - simpl in Hx. simplify_eq. destruct (on i F_state l) eqn:El.
    + destruct q; try done. destruct (Z.eqb_spec v ready) as [->|]; [|done].
      apply on_spec in El as ->. eexists; split; [done|]. unfold inv_of. simpl.
      rewrite upd_eq, upd_ne by congruence. naive_solver.
    + destruct (on i f l) eqn:El'; [done|]. apply Hsame; [by eapply Hfs|done].
  - destruct (on i F_state l) eqn:El.
    + destruct q; try done. destruct (Z.eqb_spec d ready) as [->|]; [|done].
      apply on_spec in El as ->. eexists; split; [done|]. simpl in Hx.
      destruct (_ =? e); simplify_eq/=; unfold inv_of; simpl; [|naive_solver].
      rewrite upd_eq, upd_ne by congruence. naive_solver.
    + destruct (on i f l) eqn:El'; [done|]. apply Hsame; [by eapply Hfs|done].
  - simpl in Hx. simplify_eq. destruct q; try (by apply Hsame).
    destruct (Z.eqb_spec h ev) as [->|]; [|done]. eexists; split; [done|]. unfold inv_of. simpl.
    rewrite upd_eq. naive_solver.
Qed.

Lemma bell_inv_step w ss j s X (o : op X) x r w' :
  inv w ss → ss !! j = Some s → exec x o w = Done r w' →
  match mon s X o r with
  | Next s' => inv w' (<[j := s']> ss)
  | Forbidden => True
  | Impossible => False
  end.
Proof using Hf.
  intros (p&q&->&Hi) Hj Hx. unfold mon. rewrite (exec_answer _ _ _ _ _ _ Hx).
  destruct j as [|[|j]]; simplify_eq/=.
  - pose proof (waiter_step _ _ _ _ _ _ _ _ Hx Hi) as Hs.
    destruct (waiter_next p o r); try done. destruct Hs as (p'&->&?). by exists p', q.
  - pose proof (publisher_step _ _ _ _ _ _ _ _ Hx Hi) as Hs.
    destruct (publisher_next q o r); try done. destruct Hs as (q'&->&?). by exists p, q'.
Qed.
End bell.
End Bell.

(** ** The eight programs follow the protocol *)

Ltac bell_step :=
  cbn [Bell.mon answer_ok Bell.waiter_next Bell.publisher_next Bell.flag_or_state writes on tag
       Nat.eqb andb orb];
  rewrite ?Nat.eqb_refl, ?Z.eqb_refl; cbn [andb orb Z.eqb].

Definition waits (i : nat) (f : field) (ready ev : Z) {X} (p : prog X) : Prop :=
  obeys false (Bell.mon i f ready ev) p (Bell.Waiter Bell.WIdle)
    (λ _ s, ∃ p, s = Bell.Waiter p).

Definition rings (i : nat) (f : field) (ready ev : Z) (p : prog bool) : Prop :=
  obeys false (Bell.mon i f ready ev) p (Bell.Publisher Bell.PStart)
    (λ b s, b = true → s = Bell.Publisher Bell.PDone).

Section programs.
Context (i : nat) (f : field) (ready ev : Z) (Hev : ev ≠ 0).

Lemma WaitEvent_waits t Q :
  (∀ b, Q b (Bell.Waiter Bell.WArmed)) →
  obeys false (Bell.mon i f ready ev) (WaitEvent ev t) (Bell.Waiter Bell.WClear) Q.
Proof using Hev.
  intros HQ. unfold WaitEvent. rewrite (proj2 (Z.eqb_neq _ _) Hev). obeys_walk bell_step. apply HQ.
Qed.

Lemma SignalEvent_rings Q :
  (∀ u, Q u (Bell.Publisher Bell.PDone)) →
  obeys false (Bell.mon i f ready ev) (SignalEvent ev) (Bell.Publisher Bell.PRing) Q.
Proof using Hev.
  intros HQ. unfold SignalEvent. rewrite (proj2 (Z.eqb_neq _ _) Hev). obeys_walk bell_step.
  apply HQ.
Qed.
End programs.

(** The flag values are the same on both sides. *)
Ltac flags :=
  change HOST_STATE_WAITING with 1 in *; change GUEST_STATE_WAITING with 1 in *;
  change HOST_STATE_ACTIVE with 0 in *; change GUEST_STATE_ACTIVE with 0 in *.

Ltac bell_walk := flags; obeys_walk bell_step; use_tests; flags.

Lemma guest_publishResponse_rings i ev :
  ev ≠ 0 → rings i F_hostState SLOT_RESP_READY ev (guest_publishResponse i ev).
Proof.
  intros Hev. unfold rings, guest_publishResponse, cas, load. bell_walk; try done.
  by apply SignalEvent_rings.
Qed.

Lemma guest_publish_request_rings i ev :
  ev ≠ 0 → rings i F_hostState SLOT_REQ_READY ev (guest_publish_request i ev ;;; Ret true).
Proof.
  intros Hev. unfold rings, guest_publish_request, store, load. bell_walk; try done.
  by apply SignalEvent_rings.
Qed.

Lemma publish_request_rings i s :
  hReqEvent s ≠ 0 →
  rings i F_guestState SLOT_REQ_READY (hReqEvent s) (publish_request i s ;;; Ret true).
Proof.
  intros Hev. unfold rings, publish_request, ring_guest, store, load. bell_walk; try done.
  by apply SignalEvent_rings.
Qed.

Lemma PublishResponse_rings i s :
  hRespEvent s ≠ 0 →
  rings i F_guestState SLOT_RESP_READY (hRespEvent s) (PublishResponse i s).
Proof.
  intros Hev. unfold rings, PublishResponse, cas, load. bell_walk; try done.
  by apply SignalEvent_rings.
Qed.

(** Sleepers that wait for the state [ready] of one slot: a flag, a check, and a
    loop of checks and waits. *)
Definition awake (p : Bell.waiter) : Prop := p = Bell.WClear ∨ p = Bell.WArmed.

Lemma sleepAction_waits fuel i s t :
  hRespEvent s ≠ 0 →
  waits i F_hostState SLOT_RESP_READY (hRespEvent s) (sleepAction fuel i s t).
Proof.
  intros Hev. unfold waits, sleepAction, checkReady, load, store. bell_walk; eauto.
  apply (obeys_loop _ _ (λ _ m, ∃ p, m = Bell.Waiter p ∧ awake p)); [done| |].
  { exists Bell.WClear. split; [done|by left]. }
  intros _ m (p&->&Hp). unfold awake in Hp.
  destruct Hp as [-> | ->]; bell_walk; eauto;
    (apply WaitEvent_waits; [done|]; intros _; exists Bell.WArmed; split; [done|by right]).
Qed.

Lemma guest_call_sleep_waits fuel i ev t :
  ev ≠ 0 → waits i F_guestState SLOT_RESP_READY ev (guest_call_sleep fuel i ev t).
Proof.
  intros Hev. unfold waits, guest_call_sleep, load, store. bell_walk; eauto.
  apply (obeys_loop _ _ (λ _ m, ∃ p, m = Bell.Waiter p ∧ awake p)); [done| |].
  { exists Bell.WClear. split; [done|by left]. }
  intros _ m (p&->&Hp). unfold awake in Hp.
  destruct Hp as [-> | ->]; bell_walk; eauto;
    (apply WaitEvent_waits; [done|]; intros _; exists Bell.WArmed; split; [done|by right]).
Qed.

Lemma guest_worker_sleep_waits i ev :
  ev ≠ 0 → waits i F_guestState SLOT_REQ_READY ev (guest_worker_sleep i ev).
Proof.
  intros Hev. unfold waits, guest_worker_sleep, load, store. bell_walk; eauto.
  apply WaitEvent_waits; [done|]. intros _. bell_walk; eauto.
Qed.

(** *** The guest-call worker: one flag per guest slot *)

Section worker.
Context (A : Allocator) (HA : alloc_ok A) (i : nat) (ev : Z) (Hev : ev ≠ 0).
Context (Hi : numSlots A <= Z.of_nat i < numSlots A + numGuestSlots A).

Abbreviation mon := (Bell.mon i F_hostState SLOT_REQ_READY ev).
Abbreviation W p := (Bell.Waiter p).

Lemma guest_count_eq : Z.of_nat (guest_count A) = numGuestSlots A.
Proof using HA. clear Hi. destruct HA. unfold guest_count. rewrite u32_id; lia. Qed.

(** A slot of the loop exists; it is slot [i] exactly at index [i]. *)
Lemma guest_slot j :
  numSlots A <= j < numSlots A + Z.of_nat (guest_count A) →
  ∃ s, slots A !! Z.to_nat j = Some s ∧
    (Z.to_nat j =? i)%nat = (j =? Z.of_nat i).
Proof using HA.
  clear Hi. intros Hj. destruct (lookup_lt_is_Some_2 (slots A) (Z.to_nat j)) as [s Hs].
  { pose proof (guest_range A HA j Hj). lia. }
  exists s. split; [done|]. destruct HA. apply Bool.eq_iff_eq_true.
  rewrite Nat.eqb_eq, Z.eqb_eq. lia.
Qed.

Lemma setHostState_waits v p Q :
  (∀ u, Q u (W (if v =? 1 then Bell.WArmed else Bell.WIdle))) →
  obeys false mon (setHostState A v) (W p) Q.
Proof using HA Hi.
  intros HQ. unfold setHostState. apply obeys_bind.
  apply (obeys_for _ _ (λ j _ m, m = W (if j <=? Z.of_nat i then p
                                   else if v =? 1 then Bell.WArmed else Bell.WIdle))).
  - by rewrite (proj2 (Z.leb_le _ _)) by lia.
  - intros j [] m Hj ->. destruct (guest_slot j Hj) as (s&Hs&Ej). unfold with_slot, store.
    rewrite Hs. obeys_walk bell_step. rewrite Ej.
    destruct (Z.eqb_spec j (Z.of_nat i)) as [->|Hne].
    + cbn. by rewrite (proj2 (Z.leb_gt _ _)) by lia.
    + assert ((j <=? Z.of_nat i) = (j + 1 <=? Z.of_nat i)) as ->; [|done].
      apply Bool.eq_iff_eq_true. rewrite !Z.leb_le. lia.
  - intros [] m ->. rewrite guest_count_eq, (proj2 (Z.leb_gt _ _)) by lia. apply HQ.
Qed.

(** With the flag down the scan is not recorded. *)
Lemma anyRequestReady_idle Q :
  (∀ b, Q b (W Bell.WIdle)) → obeys false mon (anyRequestReady A) (W Bell.WIdle) Q.
Proof using HA.
  clear Hi. intros HQ. unfold anyRequestReady. apply obeys_bind.
  apply (obeys_for _ _ (λ _ _ m, m = W Bell.WIdle)); [done| |].
  - intros j [] m Hj ->. destruct (guest_slot j Hj) as (s&Hs&Ej). unfold with_slot, load.
    rewrite Hs. obeys_walk bell_step; rewrite Ej; destruct (_ =? Z.of_nat i);
      obeys_walk bell_step; (apply HQ || done).
  - intros [] m ->. apply HQ.
Qed.

(** With the flag up a scan that finds nothing has seen slot [i] not ready. *)
Lemma anyRequestReady_armed Q :
  (∀ p, Q true (W p)) → Q false (W Bell.WClear) →
  obeys false mon (anyRequestReady A) (W Bell.WArmed) Q.
Proof using HA Hi.
  intros HT HF. unfold anyRequestReady. apply obeys_bind.
  apply (obeys_for _ _ (λ j _ m, m = W (if j <=? Z.of_nat i then Bell.WArmed else Bell.WClear))).
  - by rewrite (proj2 (Z.leb_le _ _)) by lia.
  - intros j [] m Hj ->. destruct (guest_slot j Hj) as (s&Hs&Ej). unfold with_slot, load.
    rewrite Hs. apply obeys_bind, obeys_call. intros r. bell_step. rewrite Ej.
    destruct (Z.eqb_spec j (Z.of_nat i)) as [->|Hne].
    + rewrite Z.leb_refl, (proj2 (Z.leb_gt (_ + 1) _)) by lia.
      destruct (r =? SLOT_REQ_READY); cbn [obeys]; [apply HT|done].
    + assert ((j <=? Z.of_nat i) = (j + 1 <=? Z.of_nat i)) as ->.
      { apply Bool.eq_iff_eq_true. rewrite !Z.leb_le. lia. }
      destruct (r =? SLOT_REQ_READY); cbn [obeys]; [apply HT|done].
  - intros [] m ->. rewrite guest_count_eq, (proj2 (Z.leb_gt _ _)) by lia. apply HF.
Qed.

Lemma guest_sleepAction_waits t Q :
  (∀ u, Q u (W Bell.WIdle)) → obeys false mon (guest_sleepAction A ev t) (W Bell.WIdle) Q.
Proof using HA Hi Hev.
  intros HQ. unfold guest_sleepAction.
  apply obeys_bind, setHostState_waits. intros _. cbn [Z.eqb HOST_STATE_WAITING].
  apply obeys_bind, anyRequestReady_armed.
  - intros p. by apply setHostState_waits.
  - apply obeys_bind, WaitEvent_waits; [done|]. intros _. by apply setHostState_waits.
Qed.

Lemma WaitForRequest_waits s spin_ t :
  slots A !! Z.to_nat (numSlots A) = Some s → hReqEvent s = ev →
  waits i F_hostState SLOT_REQ_READY ev (WaitForRequest A spin_ t).
Proof using HA Hi Hev.
  intros Hs Es. unfold waits, WaitForRequest.
  pose proof (ao_len A HA) as Hlen. pose proof (ao_total A HA). pose proof (ao_host A HA).
  rewrite (proj2 (Z.eqb_neq (numGuestSlots A) 0)) by lia.
  unfold GuestRequestEvent. rewrite u32_id, Hlen, Z.leb_refl, (proj2 (Z.ltb_lt _ _)) by lia.
  unfold with_slot. rewrite Hs. cbn [andb bind].
  rewrite Es, (proj2 (Z.eqb_neq _ _) Hev).
  assert (∀ X (f : bool → prog X), (∀ b, obeys false mon (f b) (W Bell.WIdle)
    (λ _ s, ∃ p, s = W p)) → obeys false mon (let* b := anyRequestReady A in f b) (W Bell.WIdle)
      (λ _ s, ∃ p, s = W p)) as Hany.
  { intros X f Hf. apply obeys_bind. by apply anyRequestReady_idle. }
  assert (obeys false mon (anyRequestReady A) (W Bell.WIdle) (λ _ s, ∃ p, s = W p)) as Hend.
  { apply anyRequestReady_idle; eauto. }
  destruct spin_; cbn [negb].
  - obeys_walk bell_step. eapply obeys_mono; cycle 1.
    + apply (obeys_Wait _ _ (λ m, m = W Bell.WIdle)) with (Q := λ m, m = W Bell.WIdle)
        (P := λ _ _ m, m = W Bell.WIdle); try done.
      * by intros ? ->.
      * intros m ->. apply anyRequestReady_idle. by intros [].
      * intros m ->. by apply guest_sleepAction_waits.
    + intros [b l] m ->. obeys_walk bell_step. apply Hend.
  - apply obeys_bind, guest_sleepAction_waits. intros _. apply Hend.
Qed.
End worker.

(** ** The theorem *)

(** The next operation of a thread is to wait on event [ev]. *)
Definition waiting_on (ev : Z) {X} (p : prog X) : Prop :=
  ∃ t k, p = Do (WaitObject ev t) k.

Lemma bell_sound i f ready ev (waiter : prog bool) publisher w w' p0 :
  f ≠ F_state → waits i f ready ev waiter → rings i f ready ev publisher →
  rtc (pool_step (Bell.env i f ready ev)) (w, [waiter; publisher]) (w', [p0; Ret true]) →
  waiting_on ev p0 → signalled w' ev = true.
Proof.
  intros Hf Hw Hp Hr (t&k&->).
  set (Q := λ (b : bool) s, match s with
    | Bell.Waiter _ => True
    | Bell.Publisher _ => b = true → s = Bell.Publisher Bell.PDone
    end).
  edestruct (monitor_sound (Bell.mon i f ready ev) (Bell.env i f ready ev)
    (Bell.inv i f ready ev) Q) as (ss&(p&q&->&_&_&Hs)&Hps);
    [apply Bell.bell_inv_env|by apply Bell.bell_inv_step| |exact Hr|].
  - split; [|instantiate (1 := [Bell.Waiter Bell.WIdle; Bell.Publisher Bell.PStart])].
    + exists Bell.WIdle, Bell.PStart. by split.
    + constructor; [|constructor; [|done]].
      * eapply obeys_mono, Hw. by intros ?? [? ->].
      * eapply obeys_mono, Hp. intros b s Hb. by destruct s.
  - apply Forall2_cons in Hps as [Hp0 [Hp1 _]%Forall2_cons]. simpl in Hp1.
    specialize (Hp1 eq_refl). simplify_eq.
    apply Hs; [|done]. specialize (Hp0 true). cbn in Hp0. by destruct p.
Qed.

Record bell : Type := mkBell {
  b_slot : nat; b_flag : field; b_ready : Z; b_event : Z;
  b_waiter : prog bool; b_publisher : prog bool }.

(** The four doorbells of a host, with the guest's half from [Guest]. *)
Inductive doorbell (A : Allocator) (fuel : nat) : bell → Prop :=
  | host_request i s :
      slots A !! i = Some s → hReqEvent s ≠ 0 →
      doorbell A fuel (mkBell i F_guestState SLOT_REQ_READY (hReqEvent s)
        (guest_worker_sleep i (hReqEvent s) ;;; Ret true)
        (publish_request i s ;;; Ret true))
  | host_response i s t :
      slots A !! i = Some s → hRespEvent s ≠ 0 →
      doorbell A fuel (mkBell i F_hostState SLOT_RESP_READY (hRespEvent s)
        (sleepAction fuel i s t ;;; Ret true)
        (guest_publishResponse i (hRespEvent s)))
  | guest_request i s spin_ t :
      numSlots A <= Z.of_nat i < numSlots A + numGuestSlots A →
      slots A !! Z.to_nat (numSlots A) = Some s → hReqEvent s ≠ 0 →
      doorbell A fuel (mkBell i F_hostState SLOT_REQ_READY (hReqEvent s)
        (WaitForRequest A spin_ t)
        (guest_publish_request i (hReqEvent s) ;;; Ret true))
  | guest_response i s t :
      slots A !! i = Some s → hRespEvent s ≠ 0 →
      doorbell A fuel (mkBell i F_guestState SLOT_RESP_READY (hRespEvent s)
        (guest_call_sleep fuel i (hRespEvent s) t ;;; Ret true)
        (PublishResponse i s)).

Lemma waits_seq i f ready ev {X Y} (p : prog X) (y : Y) :
  waits i f ready ev p → waits i f ready ev (p ;;; Ret y).
Proof. intros Hp. apply obeys_bind. eapply obeys_mono, Hp. done. Qed.

(** C6: no wake-up is lost.  For each of the four doorbells (host request, host
    response, guest call, guest-call response), in every interleaving of the
    waiter and the publisher, with an environment that leaves the flag and the
    published slot alone: once the publisher has published and returned, a waiter
    that is about to block on its event finds the event signalled. *)
Theorem no_lost_wakeup A fuel b w w' p0 :
  alloc_ok A → doorbell A fuel b →
  rtc (pool_step (Bell.env (b_slot b) (b_flag b) (b_ready b) (b_event b)))
    (w, [b_waiter b; b_publisher b]) (w', [p0; Ret true]) →
  waiting_on (b_event b) p0 → signalled w' (b_event b) = true.
Proof.
  intros HA Hb. eapply (bell_sound (b_slot b) (b_flag b) (b_ready b)); destruct Hb;
    cbn [b_slot b_flag b_ready b_event b_waiter b_publisher]; try done.
  - by apply waits_seq, guest_worker_sleep_waits.
  - by apply waits_seq, sleepAction_waits.
  - by eapply WaitForRequest_waits.
  - by apply waits_seq, guest_call_sleep_waits.
  - by apply publish_request_rings.
  - by apply guest_publishResponse_rings.
  - by apply guest_publish_request_rings.
  - by apply PublishResponse_rings.
Qed.

(** The guest sees no request and is about to sleep when the host publishes. *)
Definition ex_bell : bell :=
  mkBell 0 F_guestState SLOT_REQ_READY 1 (guest_worker_sleep 0 1 ;;; Ret true)
    (publish_request 0 (mkSlot 64 64 1 2) ;;; Ret true).

Lemma no_lost_wakeup_witness :
  let c := run (replicate 2 (Run 0 ex_ext) ++ replicate 5 (Run 1 ex_ext))
             (ex_world, [b_waiter ex_bell; b_publisher ex_bell]) in
  signalled c.1 1 = true.
Proof.
  intros c. apply (no_lost_wakeup ex_alloc 5 ex_bell ex_world c.1 (default Fault (c.2 !! 0%nat))).
  - apply ex_alloc_ok.
  - apply (host_request ex_alloc 5 0 (mkSlot 64 64 1 2)); [reflexivity|discriminate].
  - change [default Fault (c.2 !! 0%nat); Ret true] with c.2.
    apply (run_pool (Bell.env 0 F_guestState SLOT_REQ_READY 1)). repeat constructor.
  - do 2 eexists. reflexivity.
Defined.
