(* ===== verification/StreamSender.v ===== *)
(** * StreamSender (include/shm/Stream.h)

    Sending a buffer as a stream: one synchronous [STREAM_START], then
    [STREAM_CHUNK]s pipelined over up to [maxInFlight] slots.  [Send] is a program
    over the slot layer, statement by statement.

    - [data = None] is a null pointer, [host_ok = false] a null host.
    - [size] is an argument of its own, as in the source; reading [data] past its
      end is a [Fault].
    - the state of the loops is a record ([Fill]); [rr] is the rotation of
      [acquireSlot] and [cached] the thread-local index of [AcquireSlot]. *)

From S2P Require Export SlotAllocator.

Local Open Scope Z_scope.

Record StreamSender : Type := mkSender { maxInFlight : Z; baseSlot : Z }.

(** Local variables of the chunk loop. *)
Record Fill : Type := mkFill {
  remaining : Z; chunkIndex : Z; pendingSlots : list Z; rr : Z; cached : Z }.

Section Send.
Context (A : Allocator) (fuel : nat) (S : StreamSender).

(** The lambda [acquireSlot]: slot, [rr] and [cached] afterwards. *)
Definition acquireSlot (rr cached : Z) : prog (Z * Z * Z) :=
  if baseSlot S <? 0 then
    let* (idx, cached) := AcquireSlot A fuel cached in Ret (idx, rr, cached)
  else if u32 (maxInFlight S) =? 0 then Fault
  else
    let idx := baseSlot S + i32 (rr mod u32 (maxInFlight S)) in
    (* signed overflow is undefined *)
    if negb (i32 idx =? idx) then Fault else
    let* got := AcquireSpecificSlot A fuel idx USE_DEFAULT_TIMEOUT in
    Ret (got, if 0 <=? got then u32 (rr + 1) else rr, cached).

(** [memcpy] into the request buffer of a slot; a null buffer is a [Fault]. *)
Definition write_req (slotIdx off : Z) (bs : list byte) : prog unit :=
  match GetReqBuffer A slotIdx with
  | Some b => call (CopyIn b off bs)
  | None => Fault
  end.

(** [n] bytes of [data] from [off]. *)
Definition read_data (data : list byte) (off n : Z) : prog (list byte) :=
  if in_range off n (Z.of_nat (length data))
  then Ret (slice (Z.to_nat off) (Z.to_nat n) data) else Fault.

(** [while (!pendingSlots.empty()) WaitForSlot(front, dummy, 1)] *)
Fixpoint drain_pending (l : list Z) : prog unit :=
  match l with
  | [] => Ret tt
  | s :: l => let* _ := WaitForSlot A fuel s [] 1 in drain_pending l
  end.

Section body.
Context (data : list byte) (size streamId appMsgType : Z).

Definition chunkOverhead : Z := Z.of_nat sizeof_ChunkHeader.

(** Section 1 of [Send]: [inr] returns from [Send]. *)
Definition send_start (rr0 cached0 : Z) : prog (Z * Z + Error) :=
  let* (slotIdx, rr, cached) := acquireSlot rr0 cached0 in
  if slotIdx <? 0 then Ret (inr ResourceExhausted)
  else
    let* maxReq := GetMaxReqSize A slotIdx in
    if maxReq <=? chunkOverhead then
      let* _ := SendAcquiredAsync A slotIdx 0 SYSTEM_ERROR in
      let* _ := WaitForSlot A fuel slotIdx [] USE_DEFAULT_TIMEOUT in
      Ret (inr BufferTooSmall)
    else
      let maxPayload := maxReq - chunkOverhead in
      let totalChunks :=
        if size =? 0 then 0 else u32 (u64 (size + maxPayload - 1) / maxPayload) in
      let header := mkStreamHeader streamId size totalChunks appMsgType in
      write_req slotIdx 0 (StreamHeader_bytes header) ;;;
      let* (res, _) := SendAcquired A fuel slotIdx (Z.of_nat sizeof_StreamHeader) STREAM_START []
                         USE_DEFAULT_TIMEOUT in
      match res with
      | Result.Error_ e => Ret (inr e)
      | Result.Value_ _ => Ret (inl (rr, cached))
      end.

(** One round of the fill loop: [inl] continues, [inr (inl _)] leaves the loop,
    [inr (inr _)] returns from [Send]. *)
Definition fill_one (st : Fill) : prog (Fill + (Fill + Error)) :=
  if (0 <? remaining st) && (Z.of_nat (length (pendingSlots st)) <? maxInFlight S) then
    let* (slotIdx, rr, cached) := acquireSlot (rr st) (cached st) in
    if slotIdx <? 0 then
      Ret (inr (inl (mkFill (remaining st) (chunkIndex st) (pendingSlots st) rr cached)))
    else
      let* maxReq := GetMaxReqSize A slotIdx in
      let maxPayload := i32 (maxReq - chunkOverhead) in
      let currentChunkSize :=
        if u64 maxPayload <? remaining st then u32 maxPayload else u32 (remaining st) in
      let ch := mkChunkHeader streamId (chunkIndex st) currentChunkSize
                  (u32 (size - remaining st)) 0 in
      write_req slotIdx 0 (ChunkHeader_bytes ch) ;;;
      let* payload := read_data data (size - remaining st) currentChunkSize in
      write_req slotIdx chunkOverhead payload ;;;
      let* res := SendAcquiredAsync A slotIdx (i32 (chunkOverhead + currentChunkSize))
                    STREAM_CHUNK in
      if ResultVoid.HasError res then
        drain_pending (pendingSlots st) ;;;
        Ret (inr (inr (ResultVoid.GetError res)))
      else
        Ret (inl (mkFill (u64 (remaining st - currentChunkSize)) (u32 (chunkIndex st + 1))
                    (pendingSlots st ++ [slotIdx]) rr cached))
  else Ret (inr (inl st)).

(** One round of the outer loop: [inr None] is success. *)
Definition send_round (st : Fill) : prog (Fill + option Error) :=
  if (0 <? remaining st) || negb (length (pendingSlots st) =? 0)%nat then
    let* r := loop fuel fill_one st in
    match r with
    | inr e => Ret (inr (Some e))
    | inl st =>
        match pendingSlots st with
        | [] => Ret (inl st)
        | s :: pending =>
            let* (res, _) := WaitForSlot A fuel s [] USE_DEFAULT_TIMEOUT in
            let st := mkFill (remaining st) (chunkIndex st) pending (rr st) (cached st) in
            match res with
            | Result.Error_ e => drain_pending pending ;;; Ret (inr (Some e))
            | Result.Value_ _ => Ret (inl st)
            end
        end
    end
  else Ret (inr None).

Definition send_chunks (rr cached : Z) : prog (option Error) :=
  loop fuel send_round (mkFill size 0 [] rr cached).
End body.

Definition Send (host_ok : bool) (data : option (list byte))
    (size streamId appMsgType cached0 : Z) : prog ResultVoid.t :=
  match data with
  | None => Ret (ResultVoid.Failure InvalidArgs)
  | Some data =>
      if negb host_ok then Ret (ResultVoid.Failure InvalidArgs)
      else if kMaxStreamSize <? size then Ret (ResultVoid.Failure InvalidArgs)
      else
        let* r := send_start size streamId appMsgType 0 cached0 in
        match r with
        | inr e => Ret (ResultVoid.Failure e)
        | inl (rr, cached) =>
            let* r := send_chunks data size streamId rr cached in
            Ret (match r with None => ResultVoid.Success | Some e => ResultVoid.Failure e end)
        end
  end.
End Send.

(** ** A stream that cannot make progress *)

(** The host has been stopped: the only thing a thread does is find that out. *)
Definition stopped : monitor unit := λ _ X o,
  match o in op X return X → verdict_of unit with
  | Load L_running => λ r, if r =? 0 then Next tt else Impossible
  | _ => λ _, Forbidden
  end.

Section livelock.
Context (A : Allocator) (fuel : nat) (S : StreamSender) (data : list byte) (size streamId : Z).

Definition stuck (st : Fill) : Prop := 0 < remaining st ∧ pendingSlots st = [].

Lemma fill_one_stuck st :
  maxInFlight S <= 0 → stuck st → fill_one A fuel S data size streamId st = Ret (inr (inl st)).
Proof.
  intros Hm [Hr Hp]. unfold fill_one. rewrite Hp, (proj2 (Z.ltb_lt _ _)) by done. cbn [length].
  rewrite (proj2 (Z.ltb_ge _ _)) by lia. done.
Qed.

Lemma send_round_stuck st :
  stuck st → maxInFlight S <= 0 →
  send_round A fuel S data size streamId st = Diverge ∨
  send_round A fuel S data size streamId st = Ret (inl st).
Proof.
  intros Hs Hm. unfold send_round. destruct (Hs) as [Hr Hp].
  rewrite (proj2 (Z.ltb_lt _ _)) by done. cbn [orb].
  pose proof (fill_one_stuck st Hm Hs) as Hb. revert Hb.
  generalize (fill_one A fuel S data size streamId). intros body Hb.
  destruct fuel as [|f]; [by left|right]. cbn [loop]. rewrite Hb. cbn. by rewrite Hp.
Qed.

(** The slots of a sender with a range of its own have indices of type [int32_t]. *)
Definition range_fits : Prop :=
  baseSlot S < 0 ∨ maxInFlight S < 2 ^ 31 ∧ baseSlot S + maxInFlight S <= 2 ^ 31.

Lemma acquireSlot_stopped rr cached (Q : _ → unit → Prop) :
  range_fits → 0 < maxInFlight S → Q (-1, rr, cached) tt →
  obeys false stopped (acquireSlot A fuel S rr cached) tt Q.
Proof using.
  intros Hb Hm HQ. unfold acquireSlot. destruct (Z.ltb_spec (baseSlot S) 0) as [Hlt|Hge].
  { unfold AcquireSlot, is_running. intros r. cbn. destruct (Z.eqb_spec r 0); [|done].
    cbn. exact HQ. }
  destruct Hb as [|[Hm' Hb]]; [lia|].
  assert (u32 (maxInFlight S) = maxInFlight S) as -> by (apply u32_id; lia).
  rewrite (proj2 (Z.eqb_neq _ _)) by lia.
  pose proof (Z.mod_pos_bound rr (maxInFlight S) Hm).
  rewrite (i32_id (rr mod _)), i32_id, Z.eqb_refl by lia. cbn [negb].
  unfold AcquireSpecificSlot, is_running. intros r. cbn. destruct (Z.eqb_spec r 0); [|done].
  cbn. exact HQ.
Qed.

Lemma fill_stopped st :
  range_fits → stuck st →
  obeys false stopped (loop fuel (fill_one A fuel S data size streamId) st) tt
    (λ r _, match r with inl st' => stuck st' | inr _ => False end).
Proof using.
  intros Hb Hst. apply (obeys_loop _ _ (λ st _, stuck st)); [done|done|].
  clear st Hst. intros st [] Hs. unfold fill_one. rewrite (proj2 (Z.ltb_lt _ _) (proj1 Hs)).
  cbn [andb]. rewrite (proj2 Hs). cbn [length]. destruct (Z.ltb_spec (Z.of_nat 0) (maxInFlight S));
    [|exact Hs].
  apply obeys_bind, acquireSlot_stopped; [done|lia|]. cbn. by split; [apply Hs|].
Qed.

Lemma send_round_stopped st :
  range_fits → stuck st →
  obeys false stopped (send_round A fuel S data size streamId st) tt
    (λ r _, match r with inl st' => stuck st' | inr _ => False end).
Proof.
  intros Hb Hs. unfold send_round. rewrite (proj2 (Z.ltb_lt _ _) (proj1 Hs)). cbn [orb].
  apply obeys_bind. eapply obeys_mono, fill_stopped; [|done..].
  intros [st'|e] [] Hs'; [|done]. by rewrite (proj2 Hs').
Qed.
End livelock.

(** C35: [Send] can spin forever.  Once the header is out and bytes remain, the
    chunk phase never returns, whatever the fuel, (1) if [maxInFlight] is not
    positive, and (2) if the host is stopped before the first chunk is out: then
    it polls [running] and does nothing else.  (2) holds of a sender that acquires
    any slot ([baseSlot] negative) and of one with a range of slots of its own, if
    the indices of the range do not overflow an [int32_t]. *)
Theorem send_chunks_livelock A fuel S data size streamId rr cached :
  0 < size →
  (maxInFlight S <= 0 → send_chunks A fuel S data size streamId rr cached = Diverge) ∧
  (range_fits S →
   obeys false stopped (send_chunks A fuel S data size streamId rr cached) tt (λ _ _, False)).
Proof.
  intros Hs. unfold send_chunks. assert (Hst : stuck (mkFill size 0 [] rr cached)) by done.
  split; intros H.
  - generalize fuel at 1. intros f. induction f as [|f IH]; cbn [loop]; [done|].
    by destruct (send_round_stuck A fuel S data size streamId _ Hst H) as [-> | ->].
  - apply (obeys_loop _ _ (λ st _, stuck st)); [done|done|]. intros st [] H1.
    eapply obeys_mono, send_round_stopped; [|done|done]. by intros [|] [].
Qed.

Lemma send_chunks_livelock_witness :
  let A := mkAllocator [mkSlot 64 64 1 2] 1 0 1 10000 in
  send_chunks A 1000 (mkSender 0 (-1)) [Byte.x61] 1 7 0 0 = Diverge ∧
  obeys false stopped (send_chunks A 1000 (mkSender 4 (-1)) [Byte.x61] 1 7 0 0) tt (λ _ _, False) ∧
  obeys false stopped (send_chunks A 1000 (mkSender 1 0) [Byte.x61] 1 7 0 0) tt (λ _ _, False).
Proof.
  intros A.
  split; [apply send_chunks_livelock; done|split];
    (refine (proj2 (send_chunks_livelock _ _ _ _ _ _ _ _ _) _); [done|]); [by left|by right].
Defined.
