(* ===== verification/StreamTransmit.v ===== *)
(** * StreamTransmit: what [StreamSender::Send] puts on the wire

    [stream_messages] is the reference: the header and the chunks of a buffer, as
    a pure function.  [Outbox] is a monitor that follows what the sender writes to
    the request areas and headers of the slots and collects every message at the
    moment it is published; it forbids a publish that does not continue the
    reference sequence.  The theorem is that [Send] follows it whatever the
    guest and the operating system answer. *)

From S2P Require Export StreamSender SlotSafety.

Local Open Scope Z_scope.

(** ** The reference *)

Abbreviation message := (Z * list byte)%type.

Section reference.
Context (P : Z) (id tag : Z) (data : list byte).

Definition data_size : Z := Z.of_nat (length data).

(** Chunks of [P] bytes. *)
Definition chunk_count : Z := (data_size + P - 1) / P.

Definition chunk_payload (k : Z) : list byte :=
  slice (Z.to_nat (k * P)) (Z.to_nat P) data.

Definition chunk_header (k : Z) : ChunkHeader :=
  mkChunkHeader id k (Z.of_nat (length (chunk_payload k))) (k * P) 0.

Definition chunk_message (k : Z) : message :=
  (MsgType_val STREAM_CHUNK, ChunkHeader_bytes (chunk_header k) ++ chunk_payload k).

Definition start_message : message :=
  (MsgType_val STREAM_START, StreamHeader_bytes (mkStreamHeader id data_size chunk_count tag)).

Definition stream_messages : list message :=
  start_message :: map chunk_message (seqZ 0 chunk_count).

(** *** The chunks tile the data *)

Hypothesis HP : 0 < P.

Lemma chunk_count_nonneg : 0 <= chunk_count.
Proof using HP. apply Z.div_pos; unfold data_size; lia. Qed.

Lemma chunk_count_spec k : 0 <= k → k < chunk_count ↔ k * P < data_size.
Proof using HP.
  intros Hk. unfold chunk_count.
  pose proof (Z.div_mod (data_size + P - 1) P). pose proof (Z.mod_pos_bound (data_size + P - 1) P).
  split; intros; nia.
Qed.

Lemma chunk_count_zero : data_size = 0 → chunk_count = 0.
Proof using HP. intros H. unfold chunk_count. rewrite H. apply Z.div_small. lia. Qed.

Lemma chunk_length k :
  0 <= k < chunk_count →
  Z.of_nat (length (chunk_payload k)) = Z.min P (data_size - k * P).
Proof using HP.
  intros [Hk Hc]. apply chunk_count_spec in Hc; [|done].
  unfold chunk_payload, slice, data_size in *. rewrite length_take, length_drop. nia.
Qed.

Lemma chunks_tile n :
  0 <= n <= chunk_count →
  concat (map chunk_payload (seqZ 0 n)) = take (Z.to_nat (n * P)) data.
Proof using HP.
  intros [Hn Hc]. pattern n. revert n Hn Hc. apply (natlike_ind (λ n, n <= chunk_count →
    concat (map chunk_payload (seqZ 0 n)) = take (Z.to_nat (n * P)) data)); [done|].
  intros n Hn IH Hc. unfold Z.succ. rewrite seqZ_app, map_app, concat_app, IH by lia.
  rewrite (seqZ_cons _ 1) by lia. cbn. rewrite app_nil_r. unfold chunk_payload, slice.
  replace (Z.to_nat ((n + 1) * P)) with (Z.to_nat (n * P) + Z.to_nat P)%nat by nia.
  by rewrite take_take_drop.
Qed.

Lemma chunks_tile_all : concat (map chunk_payload (seqZ 0 chunk_count)) = data.
Proof using HP.
  pose proof chunk_count_nonneg. rewrite chunks_tile by lia. apply take_ge.
  pose proof (chunk_count_spec chunk_count). unfold data_size in *. lia.
Qed.
End reference.

(** ** The monitor *)

(** What the sender has written for each slot, and what it has published. *)
Record Outbox : Type := mkOutbox {
  o_req : nat → list byte; o_size : nat → Z; o_type : nat → Z; o_sent : list message }.

(** The message of slot [i] as a receiver takes it: a negative size means that
    the request is aligned to the end of the area. *)
Definition staged (s : Outbox) (i : nat) : message :=
  let b := o_req s i in
  (o_type s i,
   if 0 <=? o_size s i then take (Z.to_nat (o_size s i)) b
   else drop (length b - Z.to_nat (- o_size s i)) b).

(** Operations that neither touch a request nor publish one. *)
Definition unsent : ∀ X, op X → bool := λ X o,
  let keeps l d := match l with
    | LSlot _ (F_reqSize | F_msgType) => false
    | LSlot _ F_state => negb (d =? SLOT_REQ_READY)
    | _ => true
    end in
  match o with
  | Store l v => keeps l v
  | Cas l _ d => keeps l d
  | FetchAdd l _ | Exchange l _ => keeps l SLOT_REQ_READY
  | CopyIn (BReq _) _ _ => false
  | _ => true
  end.

(** What an operation does to the record of the sender. *)
Definition note {X} (s : Outbox) (o : op X) : Outbox :=
  match o with
  | CopyIn (BReq i) off bs =>
      mkOutbox (upd (o_req s) i (list_inserts (Z.to_nat off) bs (o_req s i)))
        (o_size s) (o_type s) (o_sent s)
  | Store (LSlot i F_reqSize) v => mkOutbox (o_req s) (upd (o_size s) i v) (o_type s) (o_sent s)
  | Store (LSlot i F_msgType) v => mkOutbox (o_req s) (o_size s) (upd (o_type s) i v) (o_sent s)
  | Store (LSlot i F_state) v =>
      if v =? SLOT_REQ_READY
      then mkOutbox (o_req s) (o_size s) (o_type s) (o_sent s ++ [staged s i]) else s
  | _ => s
  end.

Section monitor.
Context (msgs : list message).

Definition outbox : monitor Outbox := λ s X o r,
  if negb (answer_ok o r) then Impossible
  else if unsent X o then Next s
  else match o with
  | CopyIn (BReq i) off bs =>
      if in_range off (Z.of_nat (length bs)) (Z.of_nat (length (o_req s i)))
      then Next (mkOutbox (upd (o_req s) i (list_inserts (Z.to_nat off) bs (o_req s i)))
                   (o_size s) (o_type s) (o_sent s))
      else Forbidden
  | Store (LSlot i F_reqSize) v =>
      Next (mkOutbox (o_req s) (upd (o_size s) i v) (o_type s) (o_sent s))
  | Store (LSlot i F_msgType) v =>
      Next (mkOutbox (o_req s) (o_size s) (upd (o_type s) i v) (o_sent s))
  | Store (LSlot i F_state) _ =>
      let sent := o_sent s ++ [staged s i] in
      if bool_decide (sent `prefix_of` msgs)
      then Next (mkOutbox (o_req s) (o_size s) (o_type s) sent) else Forbidden
  | _ => Forbidden
  end.

Abbreviation sends p s Q := (obeys false outbox p s Q).

Lemma unsent_keeps {X} (p : prog X) s P Q :
  within P p Q → performs unsent p → sends p s (λ r s', s' = s ∧ Q r).
Proof.
  intros Hp Hu. eapply within_obeys, within_performs; [| |exact Hp|exact Hu].
  - intros Y o r Ha Ho. unfold outbox. by rewrite Ha, Ho.
  - intros Y o r Ha. unfold outbox. by rewrite Ha.
Qed.

Lemma sends_unsent {X Y} (p : prog X) (f : X → prog Y) s P (R : X → Prop) Q :
  within P p R → performs unsent p → (∀ x, R x → sends (f x) s Q) → sends (bind p f) s Q.
Proof.
  intros Hp Hu Hf. apply obeys_bind. eapply obeys_mono, unsent_keeps; [|done..].
  intros x s' [-> Hx]. by apply Hf.
Qed.
End monitor.

(** *** The monitor records what is done *)

Lemma outbox_note msgs s X (o : op X) r s' : outbox msgs s X o r = Next s' → s' = note s o.
Proof.
  unfold outbox. destruct (negb (answer_ok o r)); [done|].
  destruct o as [l|l v|l e d|l d|l v|b off n|[i|i] off bs| | | | | |]; cbn [unsent note]; try done;
    repeat case_match; naive_solver.
Qed.

Lemma note_unsent s X (o : op X) : unsent X o = true → note s o = s.
Proof.
  destruct o as [l|l v|l e d|l d|l v|b off n|[i|i] off bs| | | | | |]; cbn; try done.
  destruct l as [i []| | | | | | | | | | | | |]; try done. by destruct (v =? SLOT_REQ_READY).
Qed.

Lemma note_sent s X (o : op X) : o_sent s `prefix_of` o_sent (note s o).
Proof. destruct o; cbn; repeat case_match; cbn; try done; by apply prefix_app_r. Qed.

Lemma outbox_prefix msgs s X (o : op X) r s' :
  outbox msgs s X o r = Next s' → o_sent s `prefix_of` msgs → o_sent s' `prefix_of` msgs.
Proof.
  unfold outbox. destruct (negb (answer_ok o r)), (unsent X o); try naive_solver.
  destruct o; try done; repeat case_match; try done; try (by intros [= <-]).
  all: case_bool_decide; naive_solver.
Qed.

(** *** Which methods leave requests alone *)

Ltac unsent_walk := performs_walk ltac:(reflexivity).

Lemma unsent_SignalEvent h : performs unsent (SignalEvent h).
Proof. unfold SignalEvent. unsent_walk. Qed.
Lemma unsent_WaitEvent h t : performs unsent (WaitEvent h t).
Proof. unfold WaitEvent. unsent_walk. Qed.
Lemma unsent_is_running : performs unsent is_running.
Proof. unfold is_running. unsent_walk. Qed.
Lemma unsent_stamp_lease i : performs unsent (stamp_lease i).
Proof. unfold stamp_lease, MonotonicNanos, store. unsent_walk. Qed.
Lemma unsent_checkReady i : performs unsent (checkReady i).
Proof. unfold checkReady, load. unsent_walk. Qed.
#[local] Hint Resolve unsent_SignalEvent unsent_WaitEvent unsent_is_running
  unsent_stamp_lease unsent_checkReady : within.

Lemma unsent_sleepAction fuel i s t : performs unsent (sleepAction fuel i s t).
Proof. unfold sleepAction, store. unsent_walk. Qed.
#[local] Hint Resolve unsent_sleepAction : within.

Lemma unsent_spin n i : performs unsent (spin n (checkReady i)).
Proof.
  induction n as [|n IH]; cbn [spin]; [done|]. unfold CpuRelax. unsent_walk.
Qed.
#[local] Hint Resolve unsent_spin : within.

Lemma unsent_WaitForRespReady fuel i s t : performs unsent (WaitForRespReady fuel i s t).
Proof. unfold WaitForRespReady, Wait, load, store. unsent_walk. Qed.
Lemma unsent_FinishWait i b : performs unsent (FinishWait i b).
Proof. unfold FinishWait, store. unsent_walk. Qed.
Lemma unsent_check_response i seq : performs unsent (check_response i seq).
Proof. unfold check_response, load, store. unsent_walk. Qed.
Lemma unsent_copy_response i s : performs unsent (copy_response i s).
Proof. unfold copy_response, read_resp_size, load_i32, load. unsent_walk. Qed.
Lemma unsent_tryClaimSlot i : performs unsent (tryClaimSlot i).
Proof. unfold tryClaimSlot, load, cas. unsent_walk. Qed.
#[local] Hint Resolve unsent_WaitForRespReady unsent_FinishWait unsent_check_response
  unsent_copy_response unsent_tryClaimSlot : within.

Lemma unsent_TryReclaim A idx age : performs unsent (TryReclaimAbandonedSlot A idx age).
Proof. unfold TryReclaimAbandonedSlot, with_slot, load, cas, store, MonotonicNanos. unsent_walk. Qed.
#[local] Hint Resolve unsent_TryReclaim : within.

Lemma unsent_reclaim_sweep A : performs unsent (reclaim_sweep A).
Proof. unfold reclaim_sweep. unsent_walk. Qed.
#[local] Hint Resolve unsent_reclaim_sweep : within.

Lemma unsent_AcquireSlot A fuel c : performs unsent (AcquireSlot A fuel c).
Proof. unfold AcquireSlot, with_slot, ThreadYield, CpuRelax. unsent_walk. Qed.
Lemma unsent_AcquireSpecificSlot A fuel i t : performs unsent (AcquireSpecificSlot A fuel i t).
Proof. unfold AcquireSpecificSlot, with_slot, ThreadYield, CpuRelax. unsent_walk. Qed.
Lemma unsent_WaitForSlot A fuel i out t : performs unsent (WaitForSlot A fuel i out t).
Proof. unfold WaitForSlot, with_slot, load, store. unsent_walk. Qed.
#[local] Hint Resolve unsent_AcquireSlot unsent_AcquireSpecificSlot unsent_WaitForSlot : within.

(** ** The sender follows the monitor *)

(** Slot indices of a sender with a base slot do not overflow. *)
Definition sender_ok (S : StreamSender) : Prop :=
  baseSlot S < 0 ∨ (0 < maxInFlight S < 2 ^ 31 ∧ baseSlot S + maxInFlight S <= 2 ^ 31).

(** All slots have request areas of [R] bytes, as [DirectHost::Init] makes them. *)
Definition uniform (A : Allocator) (R : Z) : Prop := Forall (λ s, maxReqSize s = R) (slots A).

Definition areas (R : Z) (s : Outbox) : Prop := ∀ i, length (o_req s i) = Z.to_nat R.

Definition wrote (s : Outbox) (i off : nat) (bs : list byte) : Outbox :=
  mkOutbox (upd (o_req s) i (list_inserts off bs (o_req s i))) (o_size s) (o_type s) (o_sent s).

Lemma areas_wrote R s i off bs : areas R s → areas R (wrote s i off bs).
Proof.
  intros H j. unfold wrote. simpl. destruct (decide (j = i)) as [->|];
    [rewrite upd_eq, length_inserts|rewrite upd_ne by done]; apply H.
Qed.

Lemma inserts_at_0 {X} (bs l : list X) :
  (length bs ≤ length l)%nat → list_inserts 0 bs l = bs ++ drop (length bs) l.
Proof.
  intros. apply list_eq. intros k. destruct (decide (k < length bs)%nat).
  - rewrite list_lookup_inserts, Nat.sub_0_r, lookup_app_l by lia. done.
  - rewrite list_lookup_inserts_ge, lookup_app_r, lookup_drop by lia. f_equal. lia.
Qed.

Section transmit.
Context (A : Allocator) (fuel : nat) (S : StreamSender) (R : Z) (msgs : list message).
Context (HA : alloc_ok A) (HR : 24 < R < 2 ^ 31) (HU : uniform A R) (HS : sender_ok S).

Local Abbreviation sends p s Q := (obeys false (outbox msgs) p s Q).

Lemma sends_op {X Y} (o : op X) (f : X → prog Y) s s' Q :
  (∀ r, answer_ok o r = true → outbox msgs s X o r = Next s') →
  (∀ r, sends (f r) s' Q) → sends (bind (call o) f) s Q.
Proof.
  intros Ho Hf r. destruct (answer_ok o r) eqn:Ha; [rewrite Ho by done; apply Hf|].
  unfold outbox. by rewrite Ha.
Qed.

Lemma host_index idx :
  0 <= idx < numSlots A →
  bad_index A idx = false ∧ ∃ s, slots A !! Z.to_nat idx = Some s ∧ maxReqSize s = R.
Proof using HA HU.
  intros Hi. destruct HA. split.
  - unfold bad_index. rewrite i32_id by lia. apply orb_false_iff. rewrite Z.ltb_ge, Z.leb_gt. lia.
  - destruct (lookup_lt_is_Some_2 (slots A) (Z.to_nat idx)) as [s Hs]; [lia|].
    exists s. split; [done|]. exact (Forall_lookup_1 _ _ _ _ HU Hs).
Qed.

Lemma acquireSlot_sends rr cached s (Q : _ → Outbox → Prop) :
  0 <= rr → 0 <= cached →
  (∀ idx rr' cached', idx = -1 ∨ 0 <= idx < numSlots A → 0 <= rr' → 0 <= cached' →
    Q (idx, rr', cached') s) →
  sends (acquireSlot A fuel S rr cached) s Q.
Proof using HA HS.
  intros Hr Hc HQ. unfold acquireSlot. destruct (Z.ltb_spec (baseSlot S) 0).
  - eapply sends_unsent; [by apply safe_AcquireSlot|apply unsent_AcquireSlot|].
    intros [idx c] [??]. by apply HQ.
  - destruct HS as [|[Hm Hb]]; [lia|]. rewrite (u32_id (maxInFlight S)) by lia.
    rewrite (proj2 (Z.eqb_neq _ _)) by lia.
    pose proof (Z.mod_pos_bound rr (maxInFlight S)).
    rewrite (i32_id (rr mod _)), (i32_id (baseSlot S + _)), Z.eqb_refl by lia. cbn [negb].
    eapply sends_unsent; [by apply safe_AcquireSpecificSlot|apply unsent_AcquireSpecificSlot|].
    intros got Hg. apply HQ; [done| |done]. destruct (0 <=? got); [apply u32_range|done].
Qed.

Lemma GetMaxReqSize_sends {Y} idx (f : Z → prog Y) s Q :
  0 <= idx < numSlots A → sends (f R) s Q → sends (bind (GetMaxReqSize A idx) f) s Q.
Proof using HA HR HU.
  intros (Hb&si&Hs&HRs)%host_index H. unfold GetMaxReqSize, with_slot. rewrite Hb, Hs.
  cbn. by rewrite HRs, i32_id by lia.
Qed.

Lemma write_req_sends {Y} idx off bs (f : unit → prog Y) s Q :
  0 <= idx < numSlots A → areas R s → 0 <= off → off + Z.of_nat (length bs) <= R →
  sends (f tt) (wrote s (Z.to_nat idx) (Z.to_nat off) bs) Q →
  sends (bind (write_req A idx off bs) f) s Q.
Proof using HA HR HU.
  intros (Hb&_)%host_index Ha Ho Hl H. unfold write_req, GetReqBuffer. rewrite Hb.
  eapply sends_op; [|intros []; exact H]. intros r _. unfold outbox. cbn [answer_ok negb unsent].
  assert (in_range off (Z.of_nat (length bs)) (Z.of_nat (length (o_req s (Z.to_nat idx)))) = true)
    as ->; [|done].
  rewrite Ha. unfold in_range. rewrite !andb_true_iff, !Z.leb_le. lia.
Qed.

(** The header of a request that lies at the start of the area. *)
Lemma write_request_sends i sz ty m rest s :
  areas R s → o_req s i = m ++ rest → sz = Z.of_nat (length m) →
  sends (write_request A i sz ty) s (λ _ s',
    areas R s' ∧ o_sent s' = o_sent s ∧ staged s' i = (MsgType_val ty, m)).
Proof.
  intros Ha Hm ->. unfold write_request, load, store.
  do 5 (eapply sends_op; [by intros|intros]). cbn [obeys]. split; [exact Ha|split; [done|]].
  unfold staged. cbn [o_type o_size o_req].
  by rewrite !upd_eq, (proj2 (Z.leb_le _ _)), Nat2Z.id, Hm, take_app_length by lia.
Qed.

Lemma publish_request_sends i si m s :
  areas R s → staged s i = m → o_sent s ++ [m] `prefix_of` msgs →
  sends (publish_request i si) s (λ _ s', areas R s' ∧ o_sent s' = o_sent s ++ [m]).
Proof using A.
  intros Ha Hm Hp. unfold publish_request, store, ring_guest, load.
  do 2 (eapply sends_op; [by intros|intros]).
  eapply sends_op.
  { intros ? _. unfold outbox. cbn [answer_ok negb unsent].
    cbn [Z.eqb SLOT_REQ_READY Pos.eqb negb]. rewrite Hm, bool_decide_true by done. reflexivity. }
  intros _. eapply sends_op; [by intros|]. intros g.
  destruct (g =? GUEST_STATE_WAITING); [|done].
  eapply obeys_mono, (unsent_keeps _ _ _ (safe_ops A)); [|apply safe_SignalEvent|apply unsent_SignalEvent].
  by intros u s' [-> _].
Qed.

(** A request of [m] bytes at the start of the area of [idx]. *)
Definition ready_to_send (idx : Z) (m : message) (s : Outbox) : Prop :=
  0 <= idx < numSlots A ∧ areas R s ∧ (∃ rest, o_req s (Z.to_nat idx) = m.2 ++ rest) ∧
  o_sent s ++ [m] `prefix_of` msgs.

Definition has_sent (m : message) (s s' : Outbox) : Prop :=
  areas R s' ∧ o_sent s' = o_sent s ++ [m].

Lemma fits idx m s : ready_to_send idx m s → Z.of_nat (length m.2) <= R.
Proof using HR.
  intros (_&Ha&[rest Hm]&_). specialize (Ha (Z.to_nat idx)). rewrite Hm, length_app in Ha. lia.
Qed.

Lemma SendAcquiredAsync_sends idx ty m s :
  ready_to_send idx (MsgType_val ty, m) s →
  sends (SendAcquiredAsync A idx (Z.of_nat (length m)) ty) s (λ r s',
    r = ResultVoid.Success ∧ has_sent (MsgType_val ty, m) s s').
Proof using HA HR HU.
  intros Hr. pose proof (fits _ _ _ Hr). destruct Hr as (Hi&Ha&[rest Hm]&Hp). simpl in *.
  destruct (host_index idx Hi) as (Hb&si&Hs&HRs). unfold SendAcquiredAsync, with_slot.
  rewrite Hb, Hs, HRs, abs_u32_abs, Z.abs_eq, (proj2 (Z.ltb_ge _ _)) by lia.
  apply obeys_bind. eapply obeys_mono, write_request_sends; [|done..].
  intros _ s1 (Ha1&Hs1&Hst). apply obeys_bind.
  eapply obeys_mono, publish_request_sends; [|done|exact Hst|by rewrite Hs1].
  intros _ s2 [??]. split; [done|]. split; [done|]. congruence.
Qed.

Lemma SendAcquired_sends idx ty m out t s :
  ready_to_send idx (MsgType_val ty, m) s →
  sends (SendAcquired A fuel idx (Z.of_nat (length m)) ty out t) s (λ r s',
    response_ok A idx out r ∧ has_sent (MsgType_val ty, m) s s').
Proof using HA HR HU.
  intros Hr. eapply obeys_within; [|by apply safe_SendAcquired|].
  { intros s1 X o r Ho. unfold outbox. by rewrite Ho. }
  pose proof (fits _ _ _ Hr). destruct Hr as (Hi&Ha&[rest Hm]&Hp). simpl in *.
  destruct (host_index idx Hi) as (Hb&si&Hs&HRs). unfold SendAcquired, with_slot.
  rewrite Hb, Hs, HRs, abs_u32_abs, Z.abs_eq, (proj2 (Z.ltb_ge _ _)) by lia.
  apply obeys_bind. eapply obeys_mono, write_request_sends; [|done..].
  intros seq s1 (Ha1&Hs1&Hst). unfold WaitResponse. do 2 apply obeys_bind.
  eapply obeys_mono, publish_request_sends; [|done|exact Hst|by rewrite Hs1].
  intros _ s2 [??]. assert (has_sent (MsgType_val ty, m) s s2) by (split; [done|congruence]).
  do 2 (eapply sends_unsent; [eauto with within..|intros ? _]). cbn [obeys].
  destruct (negb _); [done|].
  eapply sends_unsent; [by eapply safe_check_response|eauto with within|intros [] _]; [done|].
  eapply sends_unsent; [by apply safe_copy_response|eauto with within|]. intros bs _.
  by eapply sends_op; [by intros|intros].
Qed.

Lemma WaitForSlot_sends {Y} idx t (f : _ → prog Y) s Q :
  (∀ r, response_ok A idx [] r → sends (f r) s Q) →
  sends (bind (WaitForSlot A fuel idx [] t) f) s Q.
Proof using HA.
  intros Hf. eapply sends_unsent; [by apply safe_WaitForSlot|apply unsent_WaitForSlot|auto].
Qed.

Lemma drain_pending_sends l s : sends (drain_pending A fuel l) s (λ _ s', s' = s).
Proof using HA. induction l as [|i l IH]; simpl; [done|]. by apply WaitForSlot_sends. Qed.
End transmit.

Lemma wrote_message s i h p R :
  areas R s → Z.of_nat (length h) + Z.of_nat (length p) <= R →
  ∃ rest, o_req (wrote (wrote s i 0 h) i (length h) p) i = (h ++ p) ++ rest.
Proof.
  intros Ha Hl. specialize (Ha i). unfold wrote. cbn [o_req]. rewrite !upd_eq.
  rewrite (inserts_at_0 h) by lia.
  pose proof (list_inserts_app_r p h (drop (length h) (o_req s i)) 0) as Hr.
  rewrite Nat.add_0_r in Hr. rewrite Hr, inserts_at_0 by (rewrite length_drop; lia).
  eexists. by rewrite <- app_assoc.
Qed.

Section stream.
Context (A : Allocator) (fuel : nat) (S : StreamSender) (R : Z).
Context (HA : alloc_ok A) (HR : 24 < R < 2 ^ 31) (HU : uniform A R) (HS : sender_ok S).
Context (id tag : Z) (data : list byte) (Hsize : data_size data <= kMaxStreamSize).

Local Abbreviation P := (R - 24).
Local Abbreviation n := (chunk_count P data).
Local Abbreviation msgs := (stream_messages P id tag data).
Local Abbreviation sends p s Q := (obeys false (outbox msgs) p s Q).

(** The header and the first [k] chunks are out. *)
Definition progress (k : Z) (s : Outbox) : Prop :=
  areas R s ∧
  o_sent s = start_message P id tag data :: map (chunk_message P id data) (seqZ 0 k).

Record fill_inv (st : Fill) (s : Outbox) : Prop := {
  fi_index : 0 <= chunkIndex st <= n;
  fi_remaining : remaining st = Z.max 0 (data_size data - chunkIndex st * P);
  fi_rr : 0 <= rr st;
  fi_cached : 0 <= cached st;
  fi_progress : progress (chunkIndex st) s }.

Lemma data_bound : 0 <= data_size data <= 2 ^ 30.
Proof using Hsize. change (2 ^ 30) with kMaxStreamSize. unfold data_size in *. lia. Qed.

Lemma count_bound : 0 <= n <= 2 ^ 30.
Proof using HR Hsize.
  pose proof data_bound. split; [apply chunk_count_nonneg; lia|].
  unfold chunk_count. apply Z.lt_succ_r, Z.div_lt_upper_bound; nia.
Qed.

Lemma progress_next k s :
  0 <= k < n → progress k s → o_sent s ++ [chunk_message P id data k] `prefix_of` msgs.
Proof.
  intros Hk [_ ->]. unfold stream_messages. cbn [app]. apply prefix_cons.
  rewrite <- (Zplus_minus k n) at 1. rewrite seqZ_app, (seqZ_cons _ (n - k)), map_app by lia.
  apply prefix_app. cbn [map]. apply prefix_cons, prefix_nil.
Qed.

Lemma progress_sent k s s' :
  0 <= k → progress k s → has_sent R (chunk_message P id data k) s s' → progress (k + 1) s'.
Proof.
  intros Hk [_ Hs] [Ha Hs']. split; [done|]. rewrite Hs', Hs, seqZ_app, map_app by lia. done.
Qed.

(** The header that [fill_one] writes is the one of the reference. *)
Lemma fill_header k rem :
  0 <= k < n → rem = Z.max 0 (data_size data - k * P) →
  let cur := if u64 (i32 P) <? rem then u32 (i32 P) else u32 rem in
  cur = Z.of_nat (length (chunk_payload P data k)) ∧
  data_size data - rem = k * P ∧ u32 (data_size data - rem) = k * P ∧
  chunk_header P id data k = mkChunkHeader id k cur (u32 (data_size data - rem)) 0.
Proof using HR Hsize.
  intros Hk ->. pose proof data_bound. pose proof (chunk_length P data ltac:(lia) k Hk) as Hl.
  destruct Hk as [Hk Hn]. apply chunk_count_spec in Hn; [|lia|done].
  rewrite Z.max_r by lia. rewrite (i32_id P), (u64_id P), (u32_id P) by lia.
  rewrite (u32_id (data_size data - k * P)) by nia.
  replace (data_size data - (data_size data - k * P)) with (k * P) by lia.
  rewrite (u32_id (k * P)) by nia. unfold chunk_header. rewrite Hl. cbv zeta.
  destruct (Z.ltb_spec P (data_size data - k * P));
    [rewrite Z.min_l by lia|rewrite Z.min_r by lia]; done.
Qed.

Lemma read_chunk k :
  0 <= k < n →
  read_data data (k * P) (Z.of_nat (length (chunk_payload P data k))) = Ret (chunk_payload P data k).
Proof using HR.
  intros Hk. rewrite (chunk_length P data ltac:(lia) k Hk).
  destruct Hk as [Hk Hn]. apply chunk_count_spec in Hn; [|lia|done].
  unfold read_data, in_range. change (Z.of_nat (length data)) with (data_size data).
  rewrite !(proj2 (Z.leb_le _ _)) by nia. cbn [andb]. f_equal. unfold chunk_payload, slice.
  destruct (Z.le_ge_cases P (data_size data - k * P)); [by rewrite Z.min_l|].
  rewrite Z.min_r by done. unfold data_size in *. rewrite !take_ge; rewrite ?length_drop; [done|nia..].
Qed.

(** Chunk [k], written to slot [idx] and published. *)
Lemma send_chunk_sends {Y} idx k (f : ResultVoid.t → prog Y) s Q :
  0 <= idx < numSlots A → 0 <= k < n → progress k s →
  (∀ s', progress (k + 1) s' → sends (f ResultVoid.Success) s' Q) →
  sends (write_req A idx 0 (ChunkHeader_bytes (chunk_header P id data k)) ;;;
         let* payload :=
           read_data data (k * P) (Z.of_nat (length (chunk_payload P data k))) in
         write_req A idx 24 payload ;;;
         let* res := SendAcquiredAsync A idx
           (i32 (24 + Z.of_nat (length (chunk_payload P data k)))) STREAM_CHUNK in
         f res) s Q.
Proof using HA HR HU.
  intros Hidx Hk Hp Hf. pose proof (progress_next k s Hk Hp). destruct (Hp) as [Ha _].
  pose proof (chunk_length P data ltac:(lia) k Hk) as Hlen. rewrite (read_chunk k Hk).
  set (h := ChunkHeader_bytes _) in *. set (p := chunk_payload P data k) in *.
  assert (Hh : length h = 24%nat) by apply ChunkHeader_bytes_length.
  eapply write_req_sends; [done..|lia|lia|]. cbn [bind].
  eapply write_req_sends; [done|done|done|done|by apply areas_wrote|lia|lia|].
  apply obeys_bind. rewrite i32_id by lia.
  replace (24 + Z.of_nat (length p)) with (Z.of_nat (length (h ++ p))) by (rewrite length_app; lia).
  eapply obeys_mono, SendAcquiredAsync_sends; [|done..|].
  - intros r s' [-> Hs']. apply Hf. eapply (progress_sent k s); [lia|done|exact Hs'].
  - split; [done|]. split; [by do 2 apply areas_wrote|]. split; [|done].
    change (Z.to_nat 24) with 24%nat. rewrite <- Hh. apply (wrote_message _ _ _ _ R); [done|lia].
Qed.

Lemma fill_one_sends st s :
  fill_inv st s →
  sends (fill_one A fuel S data (data_size data) id st) s (λ r s',
    match r with inl st' | inr (inl st') => fill_inv st' s' | inr (inr e) => e ≠ ENone end).
Proof using HA HR HU HS Hsize.
  intros [Hi Hr Hrr Hc Hp]. unfold fill_one. destruct (Z.ltb_spec 0 (remaining st)); cbn [andb];
    [|by split].
  destruct (_ <? maxInFlight S); [|by split].
  apply obeys_bind, acquireSlot_sends; [done..|]. intros idx rr' c' Hidx Hrr' Hc'.
  destruct (Z.ltb_spec idx 0); [by split|]. assert (0 <= idx < numSlots A) by lia.
  eapply GetMaxReqSize_sends; [done..|].
  set (k := chunkIndex st) in *.
  assert (Hk : 0 <= k < n) by (split; [lia|]; apply chunk_count_spec; lia).
  destruct (fill_header k _ Hk Hr) as (Hcur&Hoff&_&Hch). change chunkOverhead with 24. cbv zeta.
  rewrite <- Hch, Hoff. rewrite Hcur. apply send_chunk_sends; [done..|]. intros s' Hs'.
  cbn. pose proof (chunk_length P data ltac:(lia) k Hk) as Hlen.
  pose proof data_bound. pose proof count_bound.
  rewrite (u32_id (k + 1)), u64_id by lia. split; cbn; [lia| |done..].
  rewrite Hr, Hlen. lia.
Qed.

Lemma send_round_sends st s :
  fill_inv st s →
  sends (send_round A fuel S data (data_size data) id st) s (λ r s',
    match r with
    | inl st' => fill_inv st' s'
    | inr None => o_sent s' = msgs
    | inr (Some e) => e ≠ ENone
    end).
Proof using HA HR HU HS Hsize.
  intros Hi. unfold send_round. destruct (_ || _) eqn:E.
  - apply obeys_bind. eapply obeys_loop; [done|exact Hi|].
    intros st1 s1 H1. eapply obeys_mono, fill_one_sends, H1. clear st1 s1 H1.
    intros [st1|[st1|e]] s1 H1; [done| |done]. destruct (pendingSlots st1); [done|].
    apply WaitForSlot_sends; [done|]. intros [[v|e] out] Hok.
    + by destruct H1; split.
    + apply obeys_bind. eapply obeys_mono, drain_pending_sends; [|done]. intros _ s2 _. apply Hok.
  - apply orb_false_iff in E as [E%Z.ltb_ge _]. destruct Hi as [Hi Hr _ _ [_ Hs]].
    cbn. rewrite Hs. unfold stream_messages. do 3 f_equal.
    pose proof (chunk_count_spec P data ltac:(lia) (chunkIndex st)). lia.
Qed.

Lemma send_chunks_sends rr cached s :
  0 <= rr → 0 <= cached → progress 0 s →
  sends (send_chunks A fuel S data (data_size data) id rr cached) s (λ r s',
    match r with None => o_sent s' = msgs | Some e => e ≠ ENone end).
Proof using HA HR HU HS Hsize.
  intros Hr Hc Hp. apply (obeys_loop _ _ fill_inv); [done| |].
  - pose proof count_bound. pose proof data_bound. by split; cbn; try lia.
  - intros st s1 H1. eapply obeys_mono, send_round_sends, H1. by intros [st'|[e|]] s2.
Qed.

(** The chunk count that [Send] computes at machine width. *)
Lemma total_chunks_eq :
  (if data_size data =? 0 then 0 else u32 (u64 (data_size data + P - 1) / P)) = n.
Proof using HR Hsize.
  pose proof data_bound. pose proof count_bound.
  destruct (Z.eqb_spec (data_size data) 0) as [E|E]; [by rewrite chunk_count_zero by lia|].
  rewrite u64_id by lia. fold (chunk_count P data). by rewrite u32_id by lia.
Qed.

Lemma send_start_sends rr0 cached0 s :
  0 <= rr0 → 0 <= cached0 → areas R s → o_sent s = [] →
  sends (send_start A fuel S (data_size data) id tag rr0 cached0) s (λ r s',
    match r with
    | inl (rr, cached) => 0 <= rr ∧ 0 <= cached ∧ progress 0 s'
    | inr e => e ≠ ENone
    end).
Proof using HA HR HU HS Hsize.
  intros Hr Hc Ha He. unfold send_start.
  apply obeys_bind, acquireSlot_sends; [done..|]. intros idx rr' c' Hidx Hrr' Hc'.
  destruct (Z.ltb_spec idx 0); [done|]. assert (0 <= idx < numSlots A) by lia.
  eapply GetMaxReqSize_sends; [done..|]. change chunkOverhead with 24.
  rewrite (proj2 (Z.leb_gt _ _)) by lia. cbv zeta. rewrite total_chunks_eq.
  set (h := StreamHeader_bytes _).
  assert (Hh : length h = sizeof_StreamHeader) by apply StreamHeader_bytes_length.
  assert (sizeof_StreamHeader = 24%nat) by done.
  eapply write_req_sends; [done..|lia|]. apply obeys_bind. rewrite <- Hh.
  eapply obeys_mono, SendAcquired_sends; [|done..|].
  - intros [[v|e] out] s' [Hok [Ha' Hs']]; [|apply Hok]. cbn. split; [done|split; [done|]].
    split; [done|]. rewrite Hs'. cbn. by rewrite He.
  - split; [done|]. split; [by apply areas_wrote|]. split.
    + eexists. cbn. rewrite upd_eq, inserts_at_0; [done|]. rewrite Ha. lia.
    + cbn. rewrite He. cbn. apply prefix_cons, prefix_nil.
Qed.

Lemma Send_sends cached s :
  0 <= cached → areas R s → o_sent s = [] →
  sends (Send A fuel S true (Some data) (data_size data) id tag cached) s
    (λ r s', r = ResultVoid.Success → o_sent s' = msgs).
Proof using HA HR HU HS Hsize.
  intros Hc Ha He. unfold Send. cbn [negb].
  rewrite (proj2 (Z.ltb_ge _ _)) by done. apply obeys_bind.
  eapply obeys_mono, send_start_sends; [|first [done|lia]..].
  intros [[rr c]|e] s1; [|by intros He' [=]]. intros (Hr&Hc'&Hp). apply obeys_bind.
  eapply obeys_mono, send_chunks_sends; [|done..]. by intros [e|] s2 H2 [=].
Qed.
End stream.

(** C10: what a sender puts on the wire.  Whatever the guest and the operating
    system answer, at any time, to [Send] of a buffer within the size ceiling, the
    requests it publishes are a prefix of the reference sequence: one
    [STREAM_START] announcing the size, the number of chunks and the tag, then the
    chunks in index order with their length, their offset and zero padding, which
    tile the buffer.  No byte outside the buffer is read and none outside a
    request area is written.  If [Send] reports success, all of them have been
    published. *)
Theorem Send_messages A fuel S R id tag data cached s :
  alloc_ok A → 24 < R < 2 ^ 31 → uniform A R → sender_ok S →
  data_size data <= kMaxStreamSize → 0 <= cached → areas R s → o_sent s = [] →
  let msgs := stream_messages (R - 24) id tag data in
  obeys false (outbox msgs) (Send A fuel S true (Some data) (data_size data) id tag cached) s
    (λ r s', r = ResultVoid.Success → o_sent s' = msgs).
Proof.
  intros HA HR HU HS Hsize Hc Ha He msgs. by apply Send_sends.
Qed.

Definition ex_data : list byte := replicate 50 Byte.x61.
Definition ex_sender : StreamSender := mkSender 2 (-1).
Definition ex_outbox : Outbox :=
  mkOutbox (λ _, replicate 64 Byte.x00) (λ _, 0) (λ _, 0) [].

Lemma Send_messages_witness :
  obeys false (outbox (stream_messages 40 7 9 ex_data))
    (Send ex_alloc 3 ex_sender true (Some ex_data) 50 7 9 0) ex_outbox
    (λ r s', r = ResultVoid.Success → o_sent s' = stream_messages 40 7 9 ex_data).
Proof.
  apply (Send_messages ex_alloc 3 ex_sender 64 7 9 ex_data 0 ex_outbox);
    [exact ex_alloc_ok|lia|by repeat constructor|by left|done|lia| |done].
  by intros i.
Defined.
