(* ===== verification/EndToEnd.v ===== *)
(** * EndToEnd: from [StreamSender::Send] to [StreamReassembler]

    The messages that [Send] publishes ([StreamTransmit.stream_messages]), fed to
    the reassembler of the peer, deliver the buffer that was sent.

    The chunks of a stream are in flight in several slots at once and the peer
    serves slots in any order, so the chunks arrive permuted.  [windowed K] says
    how far: when chunk [k] arrives, every chunk at least [K] before it has
    arrived.  It is a hypothesis of the theorem, which [StreamWindow] derives from
    the code of the sender. *)

From S2P Require Export StreamTransmit ReassemblerProps.

Local Open Scope Z_scope.

Definition windowed (K : Z) (ks : list Z) : Prop :=
  ∀ pre k post, ks = pre ++ k :: post → ∀ j, 0 <= j → j + K <= k → j ∈ pre.

Section arrivals.
Context (P : Z) (id : Z) (data : list byte) (HP : 0 < P).

Local Abbreviation n := (chunk_count P data).

(** Chunk [k] as the contract logs it. *)
Definition arrival (k : Z) : Arrival := mkArrival k (k * P) (chunk_payload P data k).

Lemma arrival_indices ks : map a_index (map arrival ks) = ks.
Proof. induction ks as [|k ks IH]; simpl; congruence. Qed.

Lemma arrival_find ks k : k ∈ ks → log_find k (map arrival ks) = Some (arrival k).
Proof.
  induction ks as [|j ks IH]; simpl; [by intros ?%not_elem_of_nil|].
  destruct (Z.eqb_spec j k) as [->|]; [done|]. intros [->|]%elem_of_cons; [done|auto].
Qed.

Lemma bytes_all_concat (l : list Arrival) :
  bytes_all l = Z.of_nat (length (concat (map a_payload l))).
Proof. induction l as [|a l IH]; simpl; [done|]. rewrite IH, length_app. unfold a_len. lia. Qed.

Lemma payloads_size ks :
  length (concat (map a_payload (map arrival ks))) =
  sum_list_with (λ k, length (chunk_payload P data k)) ks.
Proof. induction ks as [|k ks IH]; simpl; [done|]. by rewrite length_app, IH. Qed.

Lemma all_size : sum_list_with (λ k, length (chunk_payload P data k)) (seqZ 0 n) = length data.
Proof using HP.
  rewrite <- payloads_size, map_map. cbn. by rewrite chunks_tile_all.
Qed.

(** Distinct chunks hold at most the data, and all of them hold all of it. *)
Lemma arrivals_size ks rest :
  ks ++ rest ≡ₚ seqZ 0 n →
  bytes_all (map arrival ks) <= data_size data ∧
  (rest = [] → bytes_all (map arrival ks) = data_size data).
Proof using HP.
  intros Hp. rewrite bytes_all_concat, payloads_size. unfold data_size.
  pose proof all_size as Ha. rewrite <- Hp, sum_list_with_app in Ha.
  split; [lia|]. intros ->. simpl in Ha. lia.
Qed.

Lemma arrivals_below ks i :
  NoDup ks → Forall (λ k, 0 <= k) ks → 0 <= i < n → (∀ j, 0 <= j < i → j ∈ ks) →
  bytes_below i (map arrival ks) = i * P.
Proof using HP.
  intros Hnd Hpos [Hi Hn] Hin. revert i Hi Hn Hin.
  apply (natlike_ind (λ i, i < n → (∀ j, 0 <= j < i → j ∈ ks) →
    bytes_below i (map arrival ks) = i * P)).
  - intros _ _. apply bytes_below_zero. by apply Forall_map.
  - intros i Hi IH Hn Hin. unfold Z.succ in *.
    rewrite (bytes_below_succ i _ (arrival i)), IH.
    + unfold a_len. simpl. rewrite chunk_length by lia.
      apply chunk_count_spec in Hn; lia.
    + lia.
    + intros. apply Hin. lia.
    + by rewrite arrival_indices.
    + apply arrival_find, Hin. lia.
Qed.

Lemma arrivals_placed ks :
  NoDup ks → Forall (λ k, 0 <= k < n) ks →
  placed_ok (frontier (map arrival ks)) (map arrival ks) = true.
Proof using HP.
  intros Hnd Hr. apply placed_ok_spec. intros i Hi.
  destruct (frontier_is_frontier (map arrival ks)) as (_&Hb&_). rewrite arrival_indices in Hb.
  assert (0 <= i < n). { rewrite Forall_forall in Hr. apply Hr, Hb. lia. }
  exists (arrival i). split; [by apply arrival_find, Hb|]. symmetry. apply arrivals_below; [done| |done|].
  - eapply Forall_impl; [exact Hr|]. simpl. lia.
  - intros. apply Hb. lia.
Qed.

Lemma arrivals_assemble ks :
  ks ≡ₚ seqZ 0 n → assemble n (map arrival ks) = data.
Proof using HP.
  intros Hp. unfold assemble. etransitivity; [|by apply (chunks_tile_all P data)]. f_equal.
  apply map_ext_in. intros k Hk%list_elem_of_In. rewrite arrival_find by (by rewrite Hp). done.
Qed.
End arrivals.

(** ** One chunk *)

Section judge.
Context (P : Z) (data : list byte) (HP : 0 < P) (cfg : Config) (K : Z).
Context (HK : K <= maxParkedChunks cfg + 1).

Local Abbreviation n := (chunk_count P data).
Local Abbreviation arr := (arrival P data).

Lemma chunk_range pre rest k : pre ++ rest ≡ₚ seqZ 0 n → k ∈ pre → 0 <= k < n.
Proof using HP HK.
  intros Hp Hk. assert (k ∈ pre ++ rest) as Hin by set_solver.
  rewrite Hp in Hin. apply elem_of_seqZ in Hin. lia.
Qed.

Lemma frontier_full pre rest :
  pre ++ rest ≡ₚ seqZ 0 n → frontier (map arr pre) = n ↔ rest = [].
Proof using HP HK.
  intros Hp. destruct (frontier_is_frontier (map arr pre)) as (H0&Hb&Hn).
  rewrite arrival_indices in Hb, Hn. split.
  - intros Hf. rewrite Hf in Hb. destruct rest as [|x rest]; [done|]. exfalso.
    assert (x ∈ pre ++ x :: rest) as Hx by set_solver. rewrite Hp in Hx.
    apply elem_of_seqZ in Hx. assert (x ∈ pre) by (apply Hb; lia).
    pose proof (NoDup_seqZ 0 n) as Hnd. rewrite <- Hp in Hnd.
    apply NoDup_app in Hnd as (_&Hnd&_). eapply Hnd; [done|]. set_solver.
  - intros ->. rewrite app_nil_r in Hp. apply frontier_eq. split_and!.
    + by apply chunk_count_nonneg.
    + intros i Hi. rewrite arrival_indices, Hp. apply elem_of_seqZ. lia.
    + rewrite arrival_indices, Hp, elem_of_seqZ. lia.
Qed.

(** Chunks ahead of the gap lie within the window. *)
Lemma window_ahead pre k post j :
  windowed K (pre ++ k :: post) → j ∈ pre ++ [k] → frontier (map arr pre) <= j →
  j < frontier (map arr pre) + K.
Proof using HP HK.
  intros Hw Hj Hf. destruct (frontier_is_frontier (map arr pre)) as (H0&_&Hn).
  rewrite arrival_indices in Hn. destruct (Z.lt_ge_cases j (frontier (map arr pre) + K)); [done|].
  exfalso. apply elem_of_app in Hj as [Hj| ->%list_elem_of_singleton].
  - apply list_elem_of_split in Hj as (p1&p2&->). apply Hn, elem_of_app. left.
    apply (Hw p1 j (p2 ++ k :: post)); [by rewrite <- app_assoc|done|lia].
  - apply Hn. by apply (Hw pre k post).
Qed.

Lemma parked_room pre k post :
  windowed K (pre ++ k :: post) → NoDup (pre ++ k :: post) → 
  frontier (map arr pre) < k →
  Z.of_nat (length (parked (map arr pre))) < maxParkedChunks cfg.
Proof using HP HK.
  intros Hw Hnd Hk. set (f := frontier (map arr pre)) in *.
  destruct (frontier_is_frontier (map arr pre)) as (_&_&Hn). rewrite arrival_indices in Hn.
  replace (pre ++ k :: post) with ((pre ++ [k]) ++ post) in Hnd by (by rewrite <- app_assoc).
  apply NoDup_app in Hnd as [Hnd _].
  set (js := filter (λ j, f <= j) pre).
  assert (length (parked (map arr pre)) = length js) as ->.
  { unfold parked, js. fold f. generalize f. clear. intros f. induction pre as [|j pre IH]; [done|].
    rewrite map_cons, !filter_cons. cbn [a_index arrival].
    destruct (decide (f <= j)); simpl; congruence. }
  assert (js ++ [k] ⊆+ seqZ (f + 1) (K - 1)) as Hs%submseteq_length.
  - apply NoDup_submseteq.
    + apply NoDup_app in Hnd as (?&Hd&?). apply NoDup_app. split_and!; [by apply NoDup_filter| |done].
      intros j [_ Hj]%list_elem_of_filter. by apply Hd.
    + intros j Hj. assert (f <= j ∧ j ∈ pre ++ [k]) as [Hfj Hin].
      { apply elem_of_app in Hj as [[??]%list_elem_of_filter| ->%list_elem_of_singleton]; first [split; [lia|set_solver]]. }
      pose proof (window_ahead pre k post j Hw Hin Hfj) as Hwj. fold f in Hwj.
      apply elem_of_seqZ. assert (j ≠ f); [|lia]. intros ->.
      apply elem_of_app in Hin as [?|?%list_elem_of_singleton]; [done|lia].
  - rewrite length_app, length_seqZ in Hs. simpl in Hs. lia.
Qed.

Lemma judge_arrival pre k post tag st :
  pre ++ k :: post ≡ₚ seqZ 0 n → windowed K (pre ++ k :: post) →
  judge_chunk cfg true (mkAStream (data_size data) n tag st (map arr pre)) (arr k) =
    match post with [] => VDeliver data | _ => VKeep (map arr (pre ++ [k])) end.
Proof using HP HK.
  intros Hp Hw. pose proof (NoDup_seqZ 0 n) as Hnd. rewrite <- Hp in Hnd.
  assert (Hp1 : (pre ++ [k]) ++ post ≡ₚ seqZ 0 n) by (by rewrite <- app_assoc).
  assert (Hnd1 : NoDup (pre ++ [k])) by (pose proof (NoDup_seqZ 0 n) as H1; rewrite <- Hp1 in H1; by apply NoDup_app in H1 as [? _]).
  assert (Hk : 0 <= k < n) by (apply (chunk_range (pre ++ [k]) post); [done|set_solver]).
  destruct (arrivals_size P data HP _ _ Hp1) as [Hle Hall].
  pose proof (chunk_length P data HP k Hk) as Hlen.
  pose proof (proj1 (chunk_count_spec P data HP k (proj1 Hk)) (proj2 Hk)).
  assert (Hnk : k ∉ pre) by (apply NoDup_app in Hnd1 as (_&Hd&_); set_solver).
  unfold judge_chunk. cbn [as_log as_chunks as_total a_index a_dst arrival].
  rewrite (proj2 (Z.leb_gt _ _)) by lia.
  rewrite (proj2 (log_has_false _ _)) by (by rewrite log_find_None, arrival_indices).
  change [arr k] with (map arr [k]). rewrite <- map_app.
  rewrite (proj2 (Z.ltb_ge _ _) Hle).
  rewrite (proj2 (Z.ltb_ge _ _)) by (unfold a_len; simpl; lia).
  pose proof (frontier_full _ _ Hp1) as Hfull.
  destruct (Z.eqb_spec k (frontier (map arr pre))) as [Hkf|Hkf].
  - rewrite arrivals_placed by (try done; apply Forall_forall; intros j Hj; by eapply chunk_range).
    cbn [negb]. destruct (Z.eqb_spec (frontier (map arr (pre ++ [k]))) n) as [E|E].
    + apply Hfull in E as ->. rewrite Hall, Z.eqb_refl by done.
      by rewrite arrivals_assemble by (by rewrite app_nil_r in Hp1).
    + destruct post; [|done]. by destruct E; apply Hfull.
  - destruct (frontier_is_frontier (map arr pre)) as (_&Hb&_). rewrite arrival_indices in Hb.
    assert (frontier (map arr pre) < k).
    { destruct (Z.lt_ge_cases k (frontier (map arr pre))); [|lia]. destruct Hnk. apply Hb. lia. }
    rewrite (proj2 (Z.leb_gt _ _)) by (by eapply parked_room). cbn [orb negb].
    destruct post; [|done]. exfalso. apply Hkf.
    pose proof (proj2 Hfull eq_refl) as Hn. rewrite map_app in Hn. cbn [map] in Hn.
    rewrite frontier_app_ne in Hn by done. lia.
Qed.
End judge.

(** ** The calls of a stream *)

Section calls.
Context (P id tag : Z) (data : list byte).

Definition start_call (e : Env) : Call := mkCall e STREAM_START (start_message P id tag data).2.
Definition chunk_call (e : Env) (k : Z) : Call :=
  mkCall e STREAM_CHUNK (chunk_message P id data k).2.

Definition stream_delivery : Delivery := mkDelivery id tag data.

Hypothesis HP : 0 < P.
Hypothesis Hid : is_u64 id.
Hypothesis Htag : is_u32 tag.
Hypothesis Hsize : data_size data <= kMaxStreamSize.

Local Abbreviation n := (chunk_count P data).

Lemma chunk_count_le : n <= data_size data.
Proof using HP Hid Htag Hsize.
  destruct (Z.eq_dec (data_size data) 0) as [E|E]; [rewrite chunk_count_zero; lia|].
  unfold chunk_count, data_size in *. apply Z.lt_succ_r, Z.div_lt_upper_bound; nia.
Qed.

Lemma size_small : 0 <= data_size data < 2 ^ 31.
Proof using Hsize. change kMaxStreamSize with (2 ^ 30) in Hsize. unfold data_size in *. lia. Qed.

Lemma start_decoded e :
  StreamHeader_read (c_req (start_call e)) = mkStreamHeader id (data_size data) n tag.
Proof using HP Hid Htag Hsize.
  unfold start_call. cbn [c_req start_message snd]. rewrite <- (app_nil_r (StreamHeader_bytes _)).
  apply StreamHeader_decode. pose proof size_small. pose proof chunk_count_le.
  pose proof (chunk_count_nonneg P data HP). unfold StreamHeader_ok. cbn. lia.
Qed.

Lemma chunk_decoded e k :
  0 <= k < n →
  ChunkHeader_read (c_req (chunk_call e k)) = chunk_header P id data k ∧
  slice sizeof_ChunkHeader (length (chunk_payload P data k)) (c_req (chunk_call e k)) =
    chunk_payload P data k ∧
  length (c_req (chunk_call e k)) = (sizeof_ChunkHeader + length (chunk_payload P data k))%nat.
Proof using HP Hid Htag Hsize.
  intros Hk. unfold chunk_call. cbn [c_req chunk_message snd].
  pose proof (ChunkHeader_bytes_length (chunk_header P id data k)) as Hl.
  pose proof size_small. pose proof chunk_count_le. pose proof (chunk_length P data HP k Hk).
  pose proof (proj1 (chunk_count_spec P data HP k (proj1 Hk)) (proj2 Hk)). split_and!.
  - apply ChunkHeader_decode. unfold ChunkHeader_ok. cbn. lia.
  - unfold slice. by rewrite drop_app_length', take_ge by lia.
  - by rewrite length_app, Hl.
Qed.

Lemma aserve1_start cfg m e :
  data_size data <= maxStreamSize cfg → n <= maxStreamChunks cfg →
  Z.of_nat (size (APrune cfg (now_prune e) m)) < maxStreams cfg →
  resize_ok e = true → node_ok e = true → 0 < n →
  aserve1 cfg m (start_call e) =
    (<[id := mkAStream (data_size data) n tag (now_start e) []]> (APrune cfg (now_prune e) m),
     OReply NORMAL None).
Proof using HP Hid Htag Hsize.
  intros H1 H2 H3 H4 H5 H6. unfold aserve1. cbn [start_call c_type AHandle c_env].
  unfold AHandleStart. change (c_req _) with (c_req (start_call e)). rewrite start_decoded.
  cbn [start_call c_req start_message snd]. rewrite StreamHeader_bytes_length, Nat.ltb_irrefl.
  cbn [sh_totalSize sh_totalChunks sh_streamId sh_appMsgType].
  rewrite !(proj2 (Z.ltb_ge _ _)), (proj2 (Z.eqb_neq _ _)), (proj2 (Z.leb_gt _ _)) by lia.
  by rewrite H4, H5.
Qed.

Lemma aserve1_empty cfg m e :
  data_size data = 0 → 0 <= maxStreamSize cfg → 0 <= maxStreamChunks cfg →
  aserve1 cfg m (start_call e) = (m, OReply NORMAL (Some stream_delivery)).
Proof using HP Hid Htag Hsize.
  intros H0 H1 H2. unfold aserve1. cbn [start_call c_type AHandle c_env].
  unfold AHandleStart. change (c_req _) with (c_req (start_call e)). rewrite start_decoded.
  cbn [start_call c_req start_message snd]. rewrite StreamHeader_bytes_length, Nat.ltb_irrefl.
  cbn [sh_totalSize sh_totalChunks sh_streamId sh_appMsgType].
  rewrite (chunk_count_zero P data HP H0), H0, !(proj2 (Z.ltb_ge _ _)) by lia.
  assert (data = []) as E by (apply nil_length_inv; unfold data_size in *; lia).
  unfold stream_delivery. by rewrite E.
Qed.

Context (cfg : Config) (K : Z) (HK : K <= maxParkedChunks cfg + 1).

Lemma aserve1_chunk m e pre k post st :
  m !! id = Some (mkAStream (data_size data) n tag st (map (arrival P data) pre)) →
  pre ++ k :: post ≡ₚ seqZ 0 n → windowed K (pre ++ k :: post) → emplace_ok e = true →
  aserve1 cfg m (chunk_call e k) =
    match post with
    | [] => (delete id m, OReply NORMAL (Some stream_delivery))
    | _ => (<[id := mkAStream (data_size data) n tag st (map (arrival P data) (pre ++ [k]))]> m,
            OReply NORMAL None)
    end.
Proof using HP Hid Htag Hsize HK.
  intros Hm Hp Hw He.
  assert (Hk : 0 <= k < n).
  { assert (k ∈ pre ++ k :: post) as Hin by set_solver. rewrite Hp in Hin.
    apply elem_of_seqZ in Hin. lia. }
  destruct (chunk_decoded e k Hk) as (Hh&Hs&Hl). unfold aserve1.
  cbn [chunk_call c_type AHandle c_env]. unfold AHandleChunk.
  change (c_req _) with (c_req (chunk_call e k)). rewrite Hh. unfold chunk_header.
  cbn [ch_streamId ch_chunkIndex ch_payloadSize ch_dstOffset]. rewrite Nat2Z.id, Hs, Hl.
  rewrite (proj2 (Nat.ltb_ge _ _)), (proj2 (Z.ltb_ge _ _)), Hm, He by lia.
  change (mkArrival k (k * P) (chunk_payload P data k)) with (arrival P data k).
  rewrite (judge_arrival P data HP cfg K HK pre k post tag st Hp Hw). by destruct post.
Qed.

Lemma aserve_chunks st : ∀ post pre es m,
  m !! id = Some (mkAStream (data_size data) n tag st (map (arrival P data) pre)) →
  post ≠ [] → pre ++ post ≡ₚ seqZ 0 n → windowed K (pre ++ post) →
  length es = length post → Forall (λ e, emplace_ok e = true) es →
  (aserve cfg m (zip_with chunk_call es post)).2 =
    replicate (length post - 1) (OReply NORMAL None) ++ [OReply NORMAL (Some stream_delivery)].
Proof using HP Hid Htag Hsize HK.
  induction post as [|k post IH]; [done|]. intros pre [|e es] m Hm _ Hp Hw Hl He; [done|].
  apply Forall_cons in He as [He Hes]. simpl in Hl. cbn [zip_with aserve].
  rewrite (aserve1_chunk m e pre k post st) by done. destruct post as [|k' post].
  - destruct es; [done|simpl in Hl; lia].
  - set (m' := <[_ := _]> m).
    assert (Hr := IH (pre ++ [k]) es m').
    destruct (aserve cfg m' (zip_with chunk_call es (k' :: post))) as [m2 os]. simpl in *.
    rewrite Hr; [by rewrite ?Nat.sub_0_r|by apply lookup_insert_eq|done|by rewrite <- app_assoc..|lia|done].
Qed.
End calls.

(** The reassembler [r] has room for the stream when the header arrives. *)
Definition admits (r : Reassembler) (e : Env) (P : Z) (data : list byte) : Prop :=
  data_size data <= maxStreamSize (config r) ∧
  chunk_count P data <= maxStreamChunks (config r) ∧
  Z.of_nat (size (streams (PruneInternal (now_prune e) r))) < maxStreams (config r) ∧
  resize_ok e = true ∧ node_ok e = true.

(** A stream arrives as it was sent.  After any history of calls [p] that
    leaves room for one more stream, the header and the chunks of a buffer, the
    chunks in any order that keeps a window of [K], where the reassembler parks
    [K - 1] chunks or more: every message is acknowledged, the last one delivers,
    and what is delivered is the buffer, under its identifier and tag.  An empty
    buffer is delivered by the header. *)
Theorem stream_delivered cfg p e0 es ks P K id tag data :
  let r := (serve (make cfg) p).1 in
  0 < P → is_u64 id → is_u32 tag → admits r e0 P data →
  ks ≡ₚ seqZ 0 (chunk_count P data) → windowed K ks → K <= maxParkedChunks (config r) + 1 →
  length es = length ks → Forall (λ e, emplace_ok e = true) es →
  (serve (make cfg)
     (p ++ start_call P id tag data e0 :: zip_with (chunk_call P id data) es ks)).2 =
  (serve (make cfg) p).2 ++
    replicate (length ks) (OReply NORMAL None) ++
    [OReply NORMAL (Some (stream_delivery id tag data))].
Proof.
  intros r HP Hid Htag (H1&H2&H3&H4&H5) Hp Hw HK Hl He.
  destruct (serve_refines_from p (make cfg) ∅ (make_ok cfg) (make_repr cfg)) as (Ho&Hc&Hr).
  fold r in Hc, Hr. rewrite Hc in *.
  assert (data_size data <= kMaxStreamSize) by (pose proof (make_ok cfg) as Hk; unfold config_ok in Hk; lia).
  pose proof (repr_size _ _ (repr_prune _ _ (now_prune e0) Hr)) as Hsz. rewrite Hc in Hsz.
  rewrite Hsz in H3. rewrite serve_obs, aserve_app, Ho.
  destruct (aserve (config (make cfg)) ∅ p) as [m os]. cbn [fst snd] in *. cbn [aserve].
  pose proof (chunk_count_nonneg P data HP) as Hn. assert (Hlk := Permutation_length Hp).
  rewrite length_seqZ in Hlk.
  destruct (Z.eq_dec (chunk_count P data) 0) as [E|E].
  - assert (data_size data = 0).
    { pose proof (proj2 (chunk_count_spec P data HP 0 (Z.le_refl 0))). unfold data_size in *. lia. }
    destruct ks; [|simpl in Hlk; lia]. destruct es; [|done].
    by rewrite aserve1_empty by (try done; unfold data_size in *; lia).
  - rewrite aserve1_start by (try done; lia).
    match goal with |- context [aserve _ ?m' _] => set (m1 := m') end.
    pose proof (aserve_chunks P id tag data HP Hid Htag ltac:(done) _ K HK (now_start e0) ks [] es m1)
      as Hch.
    destruct (aserve (config (make cfg)) m1 _) as [m2 os2]. cbn [fst snd] in *. f_equal.
    rewrite Hch; [|by apply lookup_insert_eq|by intros ->; simpl in Hlk; lia|done..].
    destruct (length ks) as [|l] eqn:El; [lia|]. simpl. by rewrite Nat.sub_0_r.
Qed.

(** Two chunks, the second one first. *)
Lemma stream_delivered_witness :
  (serve (make default_Config)
     ([] ++ start_call 40 7 9 ex_data ex_env ::
      zip_with (chunk_call 40 7 ex_data) [ex_env; ex_env] [1; 0])).2 =
  [OReply NORMAL None; OReply NORMAL None; OReply NORMAL (Some (mkDelivery 7 9 ex_data))].
Proof.
  apply (stream_delivered default_Config [] ex_env [ex_env; ex_env] [1; 0] 40 2 7 9 ex_data);
    try done; try lia.
  - by apply (Permutation_swap 0 1).
  - intros pre k post Hks j ? Hj. assert (k ∈ [1; 0]) as Hin by (rewrite Hks; set_solver).
    rewrite !elem_of_cons in Hin. destruct Hin as [?|[?|[]%elem_of_nil]]; lia.
  - by repeat constructor.
Defined.
