(* ===== verification/StreamWindow.v ===== *)
(** * StreamWindow: the window of [StreamSender::Send], and its delivery

    [EndToEnd.stream_delivered] takes chunks in any order that keeps a window.  Here
    the window is derived from the code of the sender: it waits for its pending slots
    oldest first, and has at most [maxInFlight] of them, so message [m] is
    published only after the answers to all messages up to [m - maxInFlight] have
    been seen.

    - [in_window] is a monitor for that discipline;
    - [runs] is a run of the sender, with the points where the peer handles a
      message; [link] says what makes the peer honest: it handles a message once,
      after it was published and before it answers it;
    - [stream_transferred]: if [Send] succeeds over such a link, the reassembler of
      the peer has delivered the buffer. *)

From S2P Require Export EndToEnd.

Local Open Scope Z_scope.

(** ** Partial conformance

    As [obeys], but undefined behaviour is not excluded: nothing is claimed of a run
    that reaches it.  The absence of undefined behaviour is [Send_messages]. *)
Fixpoint conforms {M A} (mon : monitor M) (p : prog A) (s : M) (Q : A → M → Prop) : Prop :=
  match p with
  | Ret a => Q a s
  | Do o k => ∀ r, match mon s _ o r with
                   | Next s' => conforms mon (k r) s' Q
                   | Forbidden => False
                   | Impossible => True
                   end
  | Diverge | Fault => True
  end.

Section conforms.
Context {M : Type} (mon : monitor M).

Lemma conforms_mono {A} (p : prog A) : ∀ s (Q Q' : A → M → Prop),
  (∀ a s, Q a s → Q' a s) → conforms mon p s Q → conforms mon p s Q'.
Proof.
  induction p as [a|X o k IH| |]; simpl; intros s Q Q' HQ; [auto| |done|done].
  intros H r. specialize (H r). destruct (mon s X o r); eauto.
Qed.

Lemma conforms_bind {A B} (p : prog A) (f : A → prog B) : ∀ s (Q : B → M → Prop),
  conforms mon p s (λ a s', conforms mon (f a) s' Q) → conforms mon (bind p f) s Q.
Proof.
  induction p as [a|X o k IH| |]; simpl; intros s Q; [done| |done|done].
  intros H r. specialize (H r). destruct (mon s X o r); [by apply IH|done|done].
Qed.

Lemma conforms_loop {S A} (Inv : S → M → Prop) (body : S → prog (S + A)) fuel :
  ∀ s m (Q : A → M → Prop),
  Inv s m →
  (∀ s m, Inv s m → conforms mon (body s) m
     (λ r m', match r with inl s' => Inv s' m' | inr a => Q a m' end)) →
  conforms mon (loop fuel body s) m Q.
Proof.
  induction fuel as [|fuel IH]; simpl; intros s m Q Hi Hb; [done|].
  apply conforms_bind. eapply conforms_mono, Hb, Hi. intros [s'|a] m' H; simpl; eauto.
Qed.

(** A program of operations of a kind keeps what each of them keeps. *)
Lemma conforms_performs {A} (P : ∀ X, op X → bool) (Inv : M → Prop) (p : prog A) :
  (∀ m X (o : op X) r, Inv m → P X o = true →
     match mon m X o r with Next m' => Inv m' | Forbidden => False | Impossible => True end) →
  performs P p → ∀ m, Inv m → conforms mon p m (λ _ m', Inv m').
Proof.
  intros Hm. induction p as [a|X o k IH| |]; simpl; intros Hp m Hi; [done| |done|done].
  destruct Hp as [Ho Hk]. intros r. specialize (Hm m X o r Hi Ho).
  destruct (mon m X o r); [by apply IH|done|done].
Qed.

Section Wait_rule.
Context (Inv : M → Prop) (pause_ok : ∀ m, Inv m → mon m _ Pause tt = Next m).

Lemma conforms_spin cond (Q : M → Prop) n : ∀ m,
  Inv m →
  (∀ m, Inv m → conforms mon cond m (λ (b : bool) m', if b then Q m' else Inv m')) →
  conforms mon (spin n cond) m (λ (b : bool) m', if b then Q m' else Inv m').
Proof using pause_ok.
  induction n as [|n IH]; intros m Hm Hc; simpl; [done|].
  apply conforms_bind. eapply conforms_mono, Hc, Hm. intros [] m' H; simpl; [done|].
  intros []. rewrite pause_ok by done. by apply IH.
Qed.

Lemma conforms_Wait cond sleep l (Q : M → Prop) m :
  Inv m →
  (∀ m, Inv m → conforms mon cond m (λ (b : bool) m', if b then Q m' else Inv m')) →
  (∀ m, Inv m → conforms mon sleep m (λ _, Inv)) →
  conforms mon (Wait l cond sleep) m (λ r m', if r.1 : bool then Q m' else Inv m').
Proof using pause_ok.
  intros Hm Hc Hs. unfold Wait. apply conforms_bind.
  eapply conforms_mono, (conforms_spin cond Q); [|done..]. intros [] m' H; simpl; [done|].
  apply conforms_bind. eapply conforms_mono, Hs, H. intros [] m2 H2.
  apply conforms_bind. eapply conforms_mono, Hc, H2. by intros [] m3 H3.
Qed.
End Wait_rule.
End conforms.

(** ** The discipline of the sender *)

(** Messages published, and by slot the messages whose answer has not been seen. *)
Record InFlight : Type := mkInFlight { f_next : Z; f_open : gmap nat Z }.

Definition published (f : InFlight) (i : nat) : InFlight :=
  mkInFlight (f_next f + 1) (<[i := f_next f]> (f_open f)).

Definition answered (f : InFlight) (i : nat) : InFlight :=
  mkInFlight (f_next f) (delete i (f_open f)).

Section window.
Context (K : Z).

(** The open messages allow another one: the first message has been answered, and so
    have all that are [K] or more before it. *)
Definition may_publish (f : InFlight) : bool :=
  bool_decide (map_Forall (λ _ m, 0 < m ∧ f_next f < m + K) (f_open f)).

Definition in_window : monitor InFlight := λ f X o,
  match o in op X return X → verdict_of InFlight with
  | Store (LSlot i F_state) v => λ _,
      if negb (v =? SLOT_REQ_READY) then Next f
      else match f_open f !! i with
      | Some _ => Impossible        (** the slot was given away: see [link] *)
      | None => if may_publish f then Next (published f i) else Forbidden
      end
  | Cas (LSlot i F_state) _ v => λ _, if v =? SLOT_REQ_READY then Forbidden else Next f
  | FetchAdd (LSlot i F_state) _ | Exchange (LSlot i F_state) _ => λ _, Forbidden
  | Load (LSlot i F_state) => λ r, Next (if r =? SLOT_RESP_READY then answered f i else f)
  | _ => λ _, Next f
  end.

Local Abbreviation keeps p f Q := (conforms in_window p f Q).

(** Nothing was published, and perhaps answers were seen. *)
Definition fewer (f f' : InFlight) : Prop := f_next f' = f_next f ∧ f_open f' ⊆ f_open f.

#[local] Instance fewer_preorder : PreOrder fewer.
Proof.
  split; [by intros f|]. intros f1 f2 f3 [E1 H1] [E2 H2]. split; [congruence|by etrans].
Qed.

Lemma fewer_answered f i : fewer f (answered f i).
Proof. split; [done|]. apply delete_subseteq. Qed.

Lemma unsent_fewer {X} (p : prog X) f : performs unsent p → keeps p f (λ _, fewer f).
Proof.
  intros Hp. apply (conforms_performs _ unsent (fewer f)); [|exact Hp|done].
  intros m Y o r Hm Ho.
  destruct o as [l|l v|l e d|l d|l v|b off n|b off bs| | | | | |]; try exact Hm.
  all: destruct l as [i []| | | | | | | | | | | | |]; try exact Hm; cbn in *; try done.
  - destruct (r =? SLOT_RESP_READY); [|done]. etrans; [done|apply fewer_answered].
  - by rewrite Ho.
  - apply negb_true_iff in Ho. by rewrite Ho.
Qed.

Lemma keeps_unsent {X Y} (p : prog X) (k : X → prog Y) f Q :
  performs unsent p → (∀ x f', fewer f f' → keeps (k x) f' Q) → keeps (bind p k) f Q.
Proof.
  intros Hp Hk. apply conforms_bind. eapply conforms_mono, unsent_fewer, Hp. intros x f'. apply Hk.
Qed.

Lemma keeps_step {X Y} (o : op X) (k : X → prog Y) f f' Q :
  (∀ r, in_window f X o r = Impossible ∨ in_window f X o r = Next f') →
  (∀ r, keeps (k r) f' Q) → keeps (bind (call o) k) f Q.
Proof. intros Ho Hk r. destruct (Ho r) as [->| ->]; [done|]. apply Hk. Qed.

(** An operation that the monitor ignores. *)
Lemma keeps_op {X Y} (o : op X) (k : X → prog Y) f Q :
  (∀ r, in_window f X o r = Next f) → (∀ r, keeps (k r) f Q) → keeps (bind (call o) k) f Q.
Proof. intros Ho. apply keeps_step. by right. Qed.

(** *** Waiting *)

(** The answer in slot [i] has been seen. *)
Definition seen (f : InFlight) (i : nat) (f' : InFlight) : Prop :=
  fewer f f' ∧ f_open f' !! i = None.

Lemma seen_fewer f i f1 f2 : seen f i f1 → fewer f1 f2 → seen f i f2.
Proof.
  intros [H1 Hi] H2. split; [by etrans|]. destruct H2 as [_ Hsub].
  destruct (f_open f2 !! i) as [m|] eqn:E; [|done]. pose proof (lookup_weaken _ _ _ _ E Hsub). congruence.
Qed.

Lemma fewer_seen f i f1 f2 : fewer f f1 → seen f1 i f2 → seen f i f2.
Proof. intros H1 [H2 Hi]. split; [by etrans|done]. Qed.

Lemma WaitForRespReady_seen fuel i s t f :
  keeps (WaitForRespReady fuel i s t) f (λ ready f', if ready then seen f i f' else fewer f f').
Proof.
  unfold WaitForRespReady. apply keeps_op; [done|]. intros limit. apply conforms_bind.
  eapply conforms_mono, (conforms_Wait in_window (fewer f) ltac:(done) _ _ _ (seen f i)).
  - intros [[] l] f' Hf; (apply keeps_op; [done|]); by intros [].
  - done.
  - intros f' Hf r. cbn. destruct (r =? SLOT_RESP_READY); cbn; [|done].
    split; [etrans; [done|apply fewer_answered]|]. apply lookup_delete_eq.
  - intros f' Hf. eapply conforms_mono, unsent_fewer, unsent_sleepAction. intros ? f2 H2. by etrans.
Qed.

Lemma check_response_window i seq f :
  keeps (check_response i seq) f (λ r f', f' = f ∧ r ≠ Some ENone).
Proof.
  unfold check_response. apply keeps_op; [done|]. intros v. destruct (negb _); [by apply keeps_op|].
  apply keeps_op; [done|]. intros ty. destruct (_ =? _); [by apply keeps_op|done].
Qed.

(** A wait that succeeds has seen the answer. *)
Lemma WaitForSlot_seen A fuel idx out t f :
  keeps (WaitForSlot A fuel idx out t) f (λ r f',
    match r.1 with
    | Result.Value_ _ => seen f (Z.to_nat idx) f'
    | Result.Error_ e => fewer f f' ∧ e ≠ ENone
    end).
Proof.
  unfold WaitForSlot. destruct (bad_index A idx); [done|]. unfold with_slot.
  destruct (slots A !! Z.to_nat idx) as [s|]; [|done]. set (i := Z.to_nat idx). cbv zeta.
  apply keeps_op; [done|]. intros _. apply keeps_op; [done|]. intros _. apply conforms_bind.
  eapply conforms_mono, WaitForRespReady_seen. intros ready f1 H1.
  apply keeps_unsent; [apply unsent_FinishWait|]. intros _ f2 H2.
  destruct ready; cbn [negb]; [|by split; [etrans|]]. pose proof (seen_fewer _ _ _ _ H1 H2) as H3.
  apply keeps_op; [done|]. intros seq. apply conforms_bind.
  eapply conforms_mono, check_response_window. intros [e|] f' [-> He].
  { cbn. split; [apply H3|congruence]. }
  apply keeps_unsent; [apply unsent_copy_response|]. intros d f6 H6. apply keeps_op; [done|]. intros _.
  by eapply seen_fewer.
Qed.

(** *** Publishing *)

Lemma publish_request_window i s f :
  may_publish f = true → keeps (publish_request i s) f (λ _, fewer (published f i)).
Proof.
  intros Hm. unfold publish_request. do 2 (apply keeps_op; [done|]; intros _).
  apply (keeps_step _ _ f (published f i)).
  - intros r. cbn. destruct (f_open f !! i); [by left|]. rewrite Hm. by right.
  - intros r. apply unsent_fewer. unfold ring_guest, load. pose proof unsent_SignalEvent. by unsent_walk.
Qed.

Lemma write_request_window A i sz ty f : keeps (write_request A i sz ty) f (λ _ f', f' = f).
Proof. unfold write_request. by do 5 (apply keeps_op; [done|]; intros). Qed.

Lemma write_req_window A idx off bs f : keeps (write_req A idx off bs) f (λ _ f', f' = f).
Proof. unfold write_req. destruct (GetReqBuffer A idx); [|done]. by intros r. Qed.

Lemma SendAcquiredAsync_window A idx sz ty f :
  may_publish f = true →
  keeps (SendAcquiredAsync A idx sz ty) f (λ r f',
    r = ResultVoid.Success ∧ fewer (published f (Z.to_nat idx)) f' ∨
    ResultVoid.HasError r = true ∧ fewer f f').
Proof.
  intros Hm. unfold SendAcquiredAsync. destruct (bad_index A idx); [by right|]. unfold with_slot.
  destruct (slots A !! Z.to_nat idx) as [s|]; [|done]. set (i := Z.to_nat idx).
  destruct (_ <? _). { apply keeps_op; [done|]. intros _. by right. }
  apply conforms_bind. eapply conforms_mono, write_request_window. intros seq f' ->.
  apply conforms_bind. eapply conforms_mono, publish_request_window, Hm. intros ? f' Hf. by left.
Qed.

Lemma SendAcquired_window A fuel idx sz ty out t f :
  may_publish f = true →
  keeps (SendAcquired A fuel idx sz ty out t) f (λ r f',
    match r.1 with
    | Result.Value_ _ => seen (published f (Z.to_nat idx)) (Z.to_nat idx) f'
    | Result.Error_ e => e ≠ ENone
    end).
Proof.
  intros Hm. unfold SendAcquired. destruct (bad_index A idx); [done|]. unfold with_slot.
  destruct (slots A !! Z.to_nat idx) as [s|]; [|done]. set (i := Z.to_nat idx).
  destruct (_ <? _). { by apply keeps_op. }
  apply conforms_bind. eapply conforms_mono, write_request_window. intros seq f' ->.
  unfold WaitResponse. apply conforms_bind, conforms_bind.
  eapply conforms_mono, publish_request_window, Hm. intros ? f1 H1. apply conforms_bind.
  eapply conforms_mono, WaitForRespReady_seen. intros ready f2 H2.
  apply keeps_unsent; [apply unsent_FinishWait|]. intros _ f3 H3.
  destruct ready; cbn [conforms negb]; [|done].
  assert (seen (published f i) i f3) as H4.
  { eapply seen_fewer, H3. exact (fewer_seen _ _ _ _ H1 H2). }
  apply conforms_bind. eapply conforms_mono, check_response_window. intros [e|] f' [-> He].
  { cbn. congruence. }
  apply keeps_unsent; [apply unsent_copy_response|]. intros d f6 H6. apply keeps_op; [done|].
  intros _. by eapply seen_fewer.
Qed.

(** *** The loops *)

(** Every open message is in a pending slot, at its distance from the next one. *)
Definition pending_inv (pending : list Z) (f : InFlight) : Prop :=
  Z.of_nat (length pending) < f_next f ∧
  ∀ i m, f_open f !! i = Some m →
    ∃ j s, pending !! j = Some s ∧ i = Z.to_nat s ∧
      m = f_next f - Z.of_nat (length pending) + Z.of_nat j.

Lemma pending_fewer ps f f' : pending_inv ps f → fewer f f' → pending_inv ps f'.
Proof.
  intros [Hn Ho] [E Hs]. unfold pending_inv. rewrite E. split; [done|].
  intros i m Hm. eapply Ho, lookup_weaken, Hs. done.
Qed.

Lemma pending_may_publish ps f :
  pending_inv ps f → Z.of_nat (length ps) < K → may_publish f = true.
Proof.
  intros [Hn Ho] Hk. apply bool_decide_eq_true, map_Forall_lookup. intros i m (j&s&_&_&->)%Ho. lia.
Qed.

Lemma pending_published ps f s :
  pending_inv ps f → pending_inv (ps ++ [s]) (published f (Z.to_nat s)).
Proof.
  intros [Hn Ho]. unfold pending_inv. cbn. rewrite length_app. cbn. split; [lia|].
  intros i m [[<- <-]|[Hne (j&s'&Hj&->&->)%Ho]]%lookup_insert_Some.
  - exists (length ps), s. split_and!; [by rewrite lookup_app_r, Nat.sub_diag by lia|done|lia].
  - exists j, s'. split_and!; [by apply lookup_app_l_Some|done|lia].
Qed.

Lemma pending_seen s ps f f' :
  pending_inv (s :: ps) f → seen f (Z.to_nat s) f' → pending_inv ps f'.
Proof.
  intros [Hn Ho] [[E Hs] Hi]. unfold pending_inv. rewrite E. cbn in *. split; [lia|].
  intros i m Hm. destruct (Ho i m) as ([|j]&s'&Hj&->&->); [by eapply lookup_weaken| |].
  - cbn in Hj. injection Hj as <-. congruence.
  - exists j, s'. split_and!; [done..|lia].
Qed.

Section Send.
Context (A : Allocator) (fuel : nat) (S : StreamSender) (HK : maxInFlight S = K).

Lemma unsent_acquireSlot rr cached : performs unsent (acquireSlot A fuel S rr cached).
Proof.
  unfold acquireSlot. pose proof unsent_AcquireSlot. pose proof unsent_AcquireSpecificSlot.
  by unsent_walk.
Qed.

Lemma unsent_drain ps : performs unsent (drain_pending A fuel ps).
Proof.
  induction ps as [|s ps IH]; cbn [drain_pending]; [done|]. pose proof unsent_WaitForSlot. by unsent_walk.
Qed.

Lemma unsent_GetMaxReqSize idx : performs unsent (GetMaxReqSize A idx).
Proof. unfold GetMaxReqSize, with_slot. by unsent_walk. Qed.

Lemma unsent_read_data data off n : performs unsent (read_data data off n).
Proof. unfold read_data. by unsent_walk. Qed.

Lemma fill_one_window data size id st f :
  pending_inv (pendingSlots st) f →
  keeps (fill_one A fuel S data size id st) f (λ r f',
    match r with inl st' | inr (inl st') => pending_inv (pendingSlots st') f' | inr (inr e) => e ≠ ENone end).
Proof using HK.
  intros Hp. unfold fill_one. destruct (_ && _) eqn:E; [|done].
  apply andb_true_iff in E as [_ Hlt%Z.ltb_lt]. rewrite HK in Hlt.
  apply keeps_unsent; [apply unsent_acquireSlot|]. intros [[idx rr] c] f1 H1.
  pose proof (pending_fewer _ _ _ Hp H1) as Hp1. destruct (idx <? 0); [done|].
  apply keeps_unsent; [apply unsent_GetMaxReqSize|]. intros maxReq f2 H2.
  pose proof (pending_fewer _ _ _ Hp1 H2) as Hp2. cbv zeta. apply conforms_bind.
  eapply conforms_mono, write_req_window. intros ? f' ->.
  apply keeps_unsent; [apply unsent_read_data|]. intros payload f3 H3.
  pose proof (pending_fewer _ _ _ Hp2 H3) as Hp3. apply conforms_bind.
  eapply conforms_mono, write_req_window. intros ? f' ->. apply conforms_bind.
  eapply conforms_mono, SendAcquiredAsync_window; [|by eapply pending_may_publish].
  intros res f4 [[-> H4]|[HE H4]]; [|rewrite HE].
  - eapply pending_fewer; [by apply pending_published|exact H4].
  - apply keeps_unsent; [apply unsent_drain|]. intros _ f5 _. cbn.
    by apply bool_decide_eq_true in HE.
Qed.

Lemma send_round_window data size id st f :
  pending_inv (pendingSlots st) f →
  keeps (send_round A fuel S data size id st) f (λ r f',
    match r with
    | inl st' => pending_inv (pendingSlots st') f'
    | inr None => f_open f' = ∅
    | inr (Some e) => e ≠ ENone
    end).
Proof using HK.
  intros Hp. unfold send_round. destruct (_ || _) eqn:E.
  - apply conforms_bind.
    eapply conforms_mono, (conforms_loop in_window (λ st f, pending_inv (pendingSlots st) f) _ _ _ _
      (λ r f', match r with inl st' => pending_inv (pendingSlots st') f' | inr e => e ≠ ENone end));
      [|exact Hp|].
    2: { intros st1 f1 H1. eapply conforms_mono, fill_one_window, H1. by intros [|[]]. }
    intros [st1|e] f1 H1; [|done]. destruct (pendingSlots st1) as [|s ps] eqn:Eps; [cbn; by rewrite Eps|].
    apply conforms_bind. eapply conforms_mono, WaitForSlot_seen. intros [[v|e] out] f2 H2; cbn in H2.
    + cbn. by eapply pending_seen.
    + apply keeps_unsent; [apply unsent_drain|]. intros _ f3 _. apply H2.
  - cbn. apply orb_false_iff in E as [_ E]. apply negb_false_iff, Nat.eqb_eq, nil_length_inv in E.
    rewrite E in Hp. apply map_empty. intros i. destruct (f_open f !! i) as [m|] eqn:Em; [|done].
    by apply Hp in Em as (j&s&Hj&_).
Qed.

(** [Send] keeps to the window, and when it succeeds it has seen every answer. *)
Lemma Send_window ok data size id tag cached :
  keeps (Send A fuel S ok data size id tag cached) (mkInFlight 0 ∅) (λ r f',
    r = ResultVoid.Success → f_open f' = ∅).
Proof using HK.
  unfold Send. destruct data as [data|]; [|done]. destruct (negb ok); [done|]. destruct (_ <? _); [done|].
  apply conforms_bind. unfold send_start. set (f0 := mkInFlight 0 ∅).
  assert (Hempty : ∀ f, fewer f0 f → f = f0).
  { intros [nx op] [Hn Ho]. cbn in *. subst. f_equal. apply map_empty. intros i.
    destruct (op !! i) as [m|] eqn:E; [|done]. by pose proof (lookup_weaken _ _ _ _ E Ho) as [=]. }
  assert (Hf0 : may_publish f0 = true) by (by apply bool_decide_eq_true).
  apply keeps_unsent; [apply unsent_acquireSlot|]. intros [[idx rr] c] f1 ->%Hempty.
  destruct (idx <? 0); [done|].
  apply keeps_unsent; [apply unsent_GetMaxReqSize|]. intros maxReq f1 ->%Hempty.
  destruct (maxReq <=? chunkOverhead).
  - apply conforms_bind. eapply conforms_mono, SendAcquiredAsync_window, Hf0. intros res f1 _.
    apply keeps_unsent; [apply unsent_WaitForSlot|]. done.
  - cbv zeta. apply conforms_bind. eapply conforms_mono, write_req_window. intros ? f' ->.
    apply conforms_bind. eapply conforms_mono, SendAcquired_window, Hf0.
    intros [[v|e] out] f1 H1; cbn; [|by intros [=]]. apply conforms_bind.
    eapply conforms_mono, (conforms_loop in_window (λ st f, pending_inv (pendingSlots st) f) _ _ _ _
      (λ r f', match r with None => f_open f' = ∅ | Some e => e ≠ ENone end)).
    + intros [e|] f2 H2; cbn; [by intros [=]|done].
    + destruct H1 as [[Hn Ho] Hi]. split; [by rewrite Hn|]. cbn in Ho. intros j m Hm.
      pose proof (lookup_weaken _ _ _ _ Hm Ho) as [[<- _]|[_ [=]]]%lookup_insert_Some. congruence.
    + intros st f2 H2. eapply conforms_mono, send_round_window, H2. by intros [|[]].
Qed.
End Send.
End window.

(** ** The sender and its peer *)

(** An operation of the sender with its answer, or the peer handles message [m]. *)
Inductive event : Type :=
  | EOp {X : Type} (o : op X) (r : X)
  | EHandled (m : Z).

(** A run of a program to its result. *)
Inductive runs {A} : prog A → list event → A → Prop :=
  | runs_ret a : runs (Ret a) [] a
  | runs_do X (o : op X) k r tr a :
      answer_ok o r = true → runs (k r) tr a → runs (Do o k) (EOp o r :: tr) a
  | runs_handled p m tr a : runs p tr a → runs p (EHandled m :: tr) a.

(** What the sender wrote and published, the messages whose answer it has not seen,
    and the messages in the order in which the peer handled them. *)
Record Link : Type := mkLink { l_out : Outbox; l_open : gmap nat Z; l_handled : list Z }.

Definition l_next (L : Link) : Z := Z.of_nat (length (o_sent (l_out L))).

(** A step of an honest link: the peer handles what was published, once; the answer
    to a message is seen after it was handled; a slot with an open message is not
    used for another one (see [SlotProtocol]). *)
Definition link1 (L : Link) (e : event) : option Link :=
  match e with
  | EHandled m =>
      if bool_decide (0 <= m < l_next L ∧ m ∉ l_handled L)
      then Some (mkLink (l_out L) (l_open L) (l_handled L ++ [m])) else None
  | EOp o r =>
      let out := note (l_out L) o in
      match o in op X return X → option Link with
      | Store (LSlot i F_state) v => λ _,
          if negb (v =? SLOT_REQ_READY) then Some (mkLink out (l_open L) (l_handled L))
          else match l_open L !! i with
          | Some _ => None
          | None => Some (mkLink out (<[i := l_next L]> (l_open L)) (l_handled L))
          end
      | Load (LSlot i F_state) => λ r,
          if negb (r =? SLOT_RESP_READY) then Some (mkLink out (l_open L) (l_handled L))
          else match l_open L !! i with
          | Some m =>
              if bool_decide (m ∈ l_handled L)
              then Some (mkLink out (delete i (l_open L)) (l_handled L)) else None
          | None => Some (mkLink out (l_open L) (l_handled L))
          end
      | _ => λ _, Some (mkLink out (l_open L) (l_handled L))
      end r
  end.

Fixpoint link (L : Link) (tr : list event) : option Link :=
  match tr with
  | [] => Some L
  | e :: tr => L' ← link1 L e; link L' tr
  end.

Lemma link1_out L X (o : op X) r L' : link1 L (EOp o r) = Some L' → l_out L' = note (l_out L) o.
Proof.
  destruct o as [l|l v|l e d|l d|l v|b off n|b off bs| | | | | |]; cbn [link1]; repeat case_match;
    naive_solver.
Qed.

(** What the monitor of the outbox promises holds of a run. *)
Lemma runs_outbox {A} msgs (p : prog A) tr a (Q : A → Outbox → Prop) :
  runs p tr a → ∀ L L', obeys false (outbox msgs) p (l_out L) Q → link L tr = Some L' →
  Q a (l_out L').
Proof.
  induction 1 as [a|X o k r tr a Ha Hr IH|p m tr a Hr IH]; intros L L' Ho Hl.
  - by injection Hl as <-.
  - cbn [link] in Hl. destruct (link1 L (EOp o r)) as [L1|] eqn:H1; [|done].
    apply (IH L1); [|done]. specialize (Ho r). rewrite (link1_out _ _ _ _ _ H1).
    destruct (outbox msgs (l_out L) X o r) as [s'| |] eqn:Hn; [|done|].
    + by rewrite <- (outbox_note _ _ _ _ _ _ Hn).
    + unfold outbox in Hn. rewrite Ha in Hn. cbn in Hn. repeat case_match; done.
  - cbn [link link1] in Hl. case_bool_decide; [|done]. by eapply IH in Hl.
Qed.

(** *** The order in which messages are handled *)

Section order.
Context (K : Z) (HK : 0 < K).

Definition flight (L : Link) : InFlight := mkInFlight (l_next L) (l_open L).

Record link_inv (L : Link) : Prop := {
  li_range : Forall (λ m, 0 <= m < l_next L) (l_handled L);
  li_nodup : NoDup (l_handled L);
  li_open : ∀ m, 0 <= m < l_next L → m ∈ l_handled L ∨ ∃ i, l_open L !! i = Some m;
  li_before : ∀ m j, m < l_next L → 0 <= j → j + K <= m → j ∈ l_handled L;
  li_start : 1 < l_next L → 0 ∈ l_handled L;
  li_first : l_handled L = [] ∨ ∃ t, l_handled L = 0 :: t;
  li_window : windowed K (l_handled L) }.

(** Nothing is published and no answer is seen. *)
Lemma link_inv_same L out :
  length (o_sent out) = length (o_sent (l_out L)) → link_inv L →
  link_inv (mkLink out (l_open L) (l_handled L)) ∧
  flight (mkLink out (l_open L) (l_handled L)) = flight L.
Proof.
  intros E [H1 H2 H3 H4 H5 H6 H7]. assert (l_next (mkLink out (l_open L) (l_handled L)) = l_next L) as E'.
  { unfold l_next. cbn. lia. }
  split; [split; rewrite ?E'; done|]. unfold flight. by rewrite E'.
Qed.

Lemma link_inv_handled L m :
  link_inv L → 0 <= m < l_next L → m ∉ l_handled L →
  link_inv (mkLink (l_out L) (l_open L) (l_handled L ++ [m])).
Proof using HK.
  intros [H1 H2 H3 H4 H5 H6 H7] Hm Hn. split; unfold l_next in *; cbn in *.
  - apply Forall_app. split; [done|]. by constructor.
  - apply NoDup_app. split_and!; [done| |apply NoDup_singleton]. intros x Hx ->%list_elem_of_singleton. done.
  - intros m' Hm'. destruct (H3 m' Hm') as [|]; [left; set_solver|by right].
  - intros m' j ???. apply elem_of_app. left. by eapply H4.
  - intros. apply elem_of_app. left. auto.
  - right. destruct H6 as [E|[t E]]; rewrite E; [|by eexists]. cbn.
    destruct (decide (m = 0)) as [->|]; [by eexists|]. exfalso.
    rewrite E in H5. by apply (not_elem_of_nil 0), H5; lia.
  - intros pre k post E j Hj Hk. destruct post as [|y post] using rev_ind.
    + apply app_inj_tail in E as [<- <-]. apply (H4 m); lia.
    + clear IHpost. rewrite app_comm_cons, app_assoc in E. apply app_inj_tail in E as [E _].
      by eapply H7.
Qed.

Lemma link_inv_published L i :
  link_inv L → l_open L !! i = None → may_publish K (flight L) = true →
  ∀ out, Z.of_nat (length (o_sent out)) = l_next L + 1 →
  link_inv (mkLink out (<[i := l_next L]> (l_open L)) (l_handled L)) ∧
  flight (mkLink out (<[i := l_next L]> (l_open L)) (l_handled L)) = published (flight L) i.
Proof using HK.
  intros [H1 H2 H3 H4 H5 H6 H7] Hi Hm out E. apply bool_decide_eq_true in Hm.
  assert (Hold : ∀ m, 0 <= m < l_next L → m = 0 ∨ m + K <= l_next L → m ∈ l_handled L).
  { intros m Hr Hk. destruct (H3 m Hr) as [|[i' Hi']]; [done|]. exfalso.
    pose proof (map_Forall_lookup_1 _ _ _ _ Hm Hi') as [? ?]. cbn in *. lia. }
  assert (l_next (mkLink out (<[i := l_next L]> (l_open L)) (l_handled L)) = l_next L + 1) as E'.
  { unfold l_next at 1. cbn. done. }
  split; [|unfold flight, published; cbn; by rewrite E'].
  split; rewrite ?E'; cbn [l_handled l_open]; try done.
  - eapply Forall_impl; [exact H1|]. cbn. lia.
  - intros m Hr. destruct (decide (m = l_next L)) as [->|]; [right; exists i; apply lookup_insert_eq|].
    destruct (H3 m ltac:(lia)) as [|[i' Hi']]; [by left|]. right. exists i'.
    rewrite lookup_insert_ne; [done|]. intros ->. congruence.
  - intros m j Hr Hj Hk. destruct (decide (m = l_next L)) as [->|]; [|apply (H4 m); lia].
    apply Hold; lia.
  - intros. apply Hold; lia.
Qed.

Lemma link_inv_answered L i m out :
  link_inv L → l_open L !! i = Some m → m ∈ l_handled L →
  length (o_sent out) = length (o_sent (l_out L)) →
  link_inv (mkLink out (delete i (l_open L)) (l_handled L)).
Proof.
  intros [H1 H2 H3 H4 H5 H6 H7] Hi Hm E.
  assert (∀ op, l_next (mkLink out op (l_handled L)) = l_next L) as E'.
  { intros op. unfold l_next. cbn. lia. }
  split; rewrite ?E'; try done. cbn. intros m' Hm'. destruct (H3 m' Hm') as [|[i' Hi']]; [by left|].
  destruct (decide (i' = i)) as [->|]; [left; congruence|]. right. exists i'. by rewrite lookup_delete_ne.
Qed.

Ltac same :=
  cbn in *; match goal with
  | Hs : ∀ out, _ → mkLink _ _ _ = ?L → _, Hl : Some _ = Some ?L, Hf : Next _ = Next _ |- _ =>
      injection Hl as Hl; injection Hf as Hf; refine (Hs _ _ Hl Hf); reflexivity
  end.

(** An operation: the monitor and the link agree. *)
Lemma link_inv_op L X (o : op X) r L' f' :
  link1 L (EOp o r) = Some L' → in_window K (flight L) X o r = Next f' → link_inv L →
  link_inv L' ∧ flight L' = f'.
Proof using HK.
  intros Hl Hf Hi.
  assert (Hsame : ∀ out, length (o_sent out) = length (o_sent (l_out L)) →
    mkLink out (l_open L) (l_handled L) = L' → flight L = f' → link_inv L' ∧ flight L' = f').
  { intros out E <- <-. by apply link_inv_same. }
  destruct o as [l|l v|l e d|l d|l v|b off n|[]| | | | | |]; try same.
  - destruct l as [i []| | | | | | | | | | | | |]; try same.
    cbn in Hl, Hf. destruct (r =? SLOT_RESP_READY); cbn in Hl; [|same]. injection Hf as Hf.
    destruct (l_open L !! i) as [m|] eqn:Ho.
    + case_bool_decide; [|done]. injection Hl as <-. subst f'. split; [by eapply link_inv_answered|done].
    + injection Hl as <-. subst f'. split; [by apply link_inv_same|]. unfold answered, flight. cbn.
      by rewrite delete_id.
  - destruct l as [i []| | | | | | | | | | | | |]; try same.
    cbn in Hl, Hf. destruct (v =? SLOT_REQ_READY) eqn:Ev; cbn in Hl, Hf; [|same].
    destruct (l_open L !! i) as [m|] eqn:Ho; [done|].
    destruct (may_publish K (flight L)) eqn:Hm; [|done]. injection Hl as <-. injection Hf as <-.
    apply link_inv_published; [done..|]. cbn. rewrite length_app. unfold l_next. cbn. lia.
  - cbn in Hl, Hf. repeat case_match; (done || same).
  - cbn in Hl, Hf. repeat case_match; (done || same).
  - cbn in Hl, Hf. repeat case_match; (done || same).
Qed.

Lemma runs_window {A} (p : prog A) tr a (Q : A → InFlight → Prop) :
  runs p tr a → ∀ L L', conforms (in_window K) p (flight L) Q → link L tr = Some L' → link_inv L →
  link_inv L' ∧ Q a (flight L').
Proof using HK.
  induction 1 as [a|X o k r tr a Ha Hr IH|p m tr a Hr IH]; intros L L' Ho Hl Hi.
  - by injection Hl as <-.
  - cbn [link] in Hl. destruct (link1 L (EOp o r)) as [L1|] eqn:H1; [|done]. specialize (Ho r).
    destruct (in_window K (flight L) X o r) as [f'| |] eqn:Hn; [|done|].
    + destruct (link_inv_op _ _ _ _ _ _ H1 Hn Hi) as [Hi1 Hf1]. apply (IH L1); [by rewrite Hf1|done..].
    + exfalso. destruct o as [l|l v|l e d|l d|l v|b off n|[]| | | | | |]; cbn in Hn, H1; try done;
        repeat case_match; simplify_eq/=; congruence.
  - cbn [link link1] in Hl. case_bool_decide as Hm; [|done]. destruct Hm.
    eapply (IH (mkLink _ _ _)); [|done|by apply link_inv_handled]. exact Ho.
Qed.
End order.

(** ** Delivery *)

Lemma link_init K s0 : 0 < K → o_sent s0 = [] → link_inv K (mkLink s0 ∅ []).
Proof.
  intros HK E. assert (l_next (mkLink s0 ∅ []) = 0) as E0 by (unfold l_next; cbn; by rewrite E).
  split; rewrite ?E0; try done; try (intros; lia).
  - constructor.
  - by left.
  - by intros [] ???.
Qed.

(** All messages were handled: the header, then the chunks within the window. *)
Lemma handled_all K L N :
  0 < K → link_inv K L → l_open L = ∅ → l_next L = N + 1 → 0 <= N →
  ∃ ks, l_handled L = 0 :: map Z.succ ks ∧ ks ≡ₚ seqZ 0 N ∧ windowed K ks.
Proof.
  intros HK [H1 H2 H3 H4 H5 H6 H7] Ho Hn HN.
  assert (Hall : ∀ m, 0 <= m < N + 1 → m ∈ l_handled L).
  { intros m Hm. destruct (H3 m) as [|[i Hi]]; [lia|done|]. by rewrite Ho in Hi. }
  destruct H6 as [E|[t E]]; rewrite E in *.
  { by specialize (Hall 0 ltac:(lia)) as ?%not_elem_of_nil. }
  assert (map Z.succ (map Z.pred t) = t) as Ht.
  { rewrite map_map. rewrite <- (map_id t) at 2. apply map_ext. intros. apply Z.succ_pred. }
  exists (map Z.pred t). rewrite Ht. split; [done|]. apply NoDup_cons in H2 as [H0 H2]. split.
  - apply NoDup_Permutation; [|apply NoDup_seqZ|].
    + assert (Inj eq eq Z.pred) by (intros x y; lia). by apply (NoDup_fmap_2 Z.pred).
    + intros k. rewrite elem_of_seqZ. change (map Z.pred t) with (Z.pred <$> t). rewrite list_elem_of_fmap.
      rewrite Forall_forall in H1. split.
      * intros (m&->&Hm). specialize (H1 m ltac:(set_solver)). assert (m ≠ 0) by (by intros ->). lia.
      * intros Hk. exists (k + 1). split; [lia|].
        destruct (proj1 (elem_of_cons _ _ _) (Hall (k + 1) ltac:(lia))); [lia|done].
  - intros pre k post Ek j Hj Hk. apply (f_equal (map Z.succ)) in Ek. rewrite Ht, map_app in Ek. cbn in Ek.
    specialize (H7 (0 :: map Z.succ pre) (Z.succ k) (map Z.succ post)). rewrite Ek in H7.
    destruct (proj1 (elem_of_cons _ _ _) (H7 eq_refl (Z.succ j) ltac:(lia) ltac:(lia))) as [|Hin]; [lia|].
    apply (list_elem_of_fmap Z.succ) in Hin as (x&Hx&Hin). by replace j with x by lia.
Qed.

(** A message as a call of the peer's reassembler. *)
Definition message_call (e : Env) (m : message) : Call := mkCall e (MsgType_of m.1) m.2.

(** The calls of the peer's reassembler, in the order of handling. *)
Definition received (L : Link) (es : list Env) : list Call :=
  zip_with (λ e m, message_call e (default (0, []) (o_sent (l_out L) !! Z.to_nat m)))
    es (l_handled L).

Lemma message_at P id tag data k :
  0 <= k < chunk_count P data →
  stream_messages P id tag data !! Z.to_nat (Z.succ k) = Some (chunk_message P id data k).
Proof.
  intros Hk. unfold stream_messages. replace (Z.to_nat (Z.succ k)) with (S (Z.to_nat k)) by lia.
  rewrite lookup_cons_ne_0 by done. cbn [pred].
  pose proof (list_lookup_fmap (chunk_message P id data) (seqZ 0 (chunk_count P data)) (Z.to_nat k)) as E.
  rewrite lookup_seqZ_lt in E by lia. cbn in E. by rewrite Z2Nat.id in E by lia.
Qed.

Lemma received_calls P id tag data L e0 es ks :
  o_sent (l_out L) = stream_messages P id tag data → l_handled L = 0 :: map Z.succ ks →
  Forall (λ k, 0 <= k < chunk_count P data) ks →
  received L (e0 :: es) = start_call P id tag data e0 :: zip_with (chunk_call P id data) es ks.
Proof.
  intros Ho Hh Hk. unfold received. rewrite Ho, Hh. cbn [zip_with]. f_equal.
  clear Hh. revert es. induction Hk as [|k ks Hk _ IH]; intros [|e es]; try done. cbn [map zip_with].
  f_equal; [|apply IH]. by rewrite message_at.
Qed.

(** C9: a stream that was sent is delivered.  A host sends a buffer with
    [StreamSender::Send]; the peer is honest (it handles what was published, once,
    and answers a message after handling it), and its reassembler, after any
    history of calls [p], has room for the stream and parks [maxInFlight - 1]
    chunks or more.  Whatever else the peer and the operating system do: if
    [Send] reports success, the reassembler accepted every message, and the last of
    them delivered the buffer that was sent, under its identifier and tag. *)
Theorem stream_transferred A fuel S R id tag data cached s0 tr L cfg p e0 es :
  let r := (serve (make cfg) p).1 in
  alloc_ok A → 24 < R < 2 ^ 31 → uniform A R → sender_ok S → 0 < maxInFlight S →
  data_size data <= kMaxStreamSize → 0 <= cached → areas R s0 → o_sent s0 = [] →
  is_u64 id → is_u32 tag →
  runs (Send A fuel S true (Some data) (data_size data) id tag cached) tr ResultVoid.Success →
  link (mkLink s0 ∅ []) tr = Some L →
  admits r e0 (R - 24) data → maxInFlight S <= maxParkedChunks (config r) + 1 →
  length (e0 :: es) = length (l_handled L) → Forall (λ e, emplace_ok e = true) es →
  (serve (make cfg) (p ++ received L (e0 :: es))).2 =
  (serve (make cfg) p).2 ++ replicate (length es) (OReply NORMAL None) ++
    [OReply NORMAL (Some (stream_delivery id tag data))].
Proof.
  intros r HA HR HU HS HM Hsize Hc Ha He Hid Htag Hruns Hlink Had HK Hlen Hes.
  pose proof (runs_outbox _ _ _ _ _ Hruns (mkLink s0 ∅ []) L
    (Send_sends A fuel S R HA HR HU HS id tag data Hsize cached s0 Hc Ha He) Hlink eq_refl) as Hsent.
  assert (flight (mkLink s0 ∅ []) = mkInFlight 0 ∅) as Hf.
  { unfold flight, l_next. cbn. by rewrite He. }
  pose proof (Send_window (maxInFlight S) A fuel S eq_refl true (Some data) (data_size data) id tag cached) as Hw.
  rewrite <- Hf in Hw.
  destruct (runs_window _ HM _ _ _ _ Hruns _ _ Hw Hlink (link_init _ _ HM He)) as [Hi Ho].
  pose proof (chunk_count_nonneg (R - 24) data ltac:(lia)).
  destruct (handled_all _ L (chunk_count (R - 24) data) HM Hi (Ho eq_refl)) as (ks&Hks&Hp&Hwin); [|done|].
  { unfold l_next. rewrite Hsent. cbn. rewrite length_map, length_seqZ. lia. }
  assert (length es = length ks) as Hl by (rewrite Hks in Hlen; cbn in Hlen; rewrite length_map in Hlen; lia).
  rewrite (received_calls (R - 24) id tag data L e0 es ks Hsent Hks), Hl.
  - by eapply (stream_delivered cfg p e0 es ks (R - 24) (maxInFlight S)); [lia|..].
  - rewrite Hp. apply Forall_forall. intros k Hk%elem_of_seqZ. lia.
Qed.

(** *** An execution *)

(** A peer that handles all open messages whenever the sender starts to wait. *)
Definition peer_turn {X} (o : op X) (w : World) (L : Link) : list Z * World :=
  match o with
  | Load (LSlot _ F_limit) =>
      let open := map_to_list (l_open L) in
      (map snd (filter (λ im, im.2 ∉ l_handled L) open),
       foldl (λ w im, set_mem w (LSlot im.1 F_state) SLOT_RESP_READY) w open)
  | _ => ([], w)
  end.

Fixpoint play {A} (n : nat) (w : World) (L : Link) (p : prog A) : option (list event * A) :=
  match p, n with
  | Ret a, _ => Some ([], a)
  | Do o k, S n =>
      let '(ms, w) := peer_turn o w L in
      L ← link L (map EHandled ms);
      match exec (mkExt 0 false 0 []) o w with
      | Done r w' =>
          L' ← link1 L (EOp o r);
          '(tr, a) ← play n w' L' (k r);
          Some (map EHandled ms ++ EOp o r :: tr, a)
      | _ => None
      end
  | _, _ => None
  end.

Lemma runs_handling {A} (p : prog A) ms tr a : runs p tr a → runs p (map EHandled ms ++ tr) a.
Proof. intros H. induction ms as [|m ms IH]; [done|]. by apply runs_handled. Qed.

Lemma play_runs {A} n : ∀ w L (p : prog A) tr a, play n w L p = Some (tr, a) → runs p tr a.
Proof.
  induction n as [|n IH]; intros w L [b|X o k| |] tr a H; cbn [play] in H; simplify_eq; try constructor.
  destruct (peer_turn o w L) as [ms w1]. destruct (link L (map EHandled ms)) as [L1|]; [|done].
  cbn [mbind option_bind] in H. destruct (exec _ o w1) as [r w2| |] eqn:Hx; [|done..].
  destruct (link1 L1 (EOp o r)) as [L2|]; [|done]. cbn [mbind option_bind] in H.
  destruct (play n w2 L2 (k r)) as [[tr' a']|] eqn:Hp; [|done]. injection H as <- <-.
  apply runs_handling, runs_do; [by eapply exec_answer|]. by eapply IH.
Qed.

(** The parts of a play. *)
Lemma played {A} (o : option (list event * A)) L0 a ms :
  match o with
  | Some (tr, b) =>
      b = a ∧ match link L0 tr with Some L => l_handled L = ms | None => False end
  | None => False
  end → ∃ tr L, o = Some (tr, a) ∧ link L0 tr = Some L ∧ l_handled L = ms.
Proof.
  destruct o as [[tr b]|]; [|done]. intros [-> H]. destruct (link L0 tr) as [L|] eqn:E; [|done].
  by exists tr, L.
Qed.

Definition ex_window_alloc : Allocator :=
  mkAllocator [mkSlot 64 64 1 2; mkSlot 64 64 3 4] 2 0 2 10000.

Lemma ex_window_alloc_ok : alloc_ok ex_window_alloc.
Proof. constructor; simpl; try lia. repeat constructor; simpl; lia. Qed.

Definition ex_window_send : prog ResultVoid.t :=
  Send ex_window_alloc 20 ex_sender true (Some ex_data) (data_size ex_data) 7 9 0.

Definition ex_window_play : option (list event * ResultVoid.t) :=
  play 300 ex_world (mkLink ex_outbox ∅ []) ex_window_send.

(** The second chunk is handled before the first. *)
Lemma ex_window_run : ∃ tr L,
  runs ex_window_send tr ResultVoid.Success ∧
  link (mkLink ex_outbox ∅ []) tr = Some L ∧ l_handled L = [0; 2; 1].
Proof.
  destruct (played ex_window_play (mkLink ex_outbox ∅ []) ResultVoid.Success [0; 2; 1])
    as (tr&L&Hp&HL&Hh); [vm_compute; split; reflexivity|].
  exists tr, L. split; [|split; [exact HL|exact Hh]]. exact (play_runs _ _ _ _ _ _ Hp).
Qed.

Lemma stream_transferred_witness : ∃ L, l_handled L = [0; 2; 1] ∧
  (serve (make default_Config) ([] ++ received L [ex_env; ex_env; ex_env])).2 =
  [OReply NORMAL None; OReply NORMAL None; OReply NORMAL (Some (mkDelivery 7 9 ex_data))].
Proof.
  destruct ex_window_run as (tr&L&Hr&HL&Hh). exists L. split; [exact Hh|].
  apply (stream_transferred ex_window_alloc 20 ex_sender 64 7 9 ex_data 0 ex_outbox tr L
    default_Config [] ex_env [ex_env; ex_env]).
  - exact ex_window_alloc_ok.
  - lia.
  - by repeat constructor.
  - by left.
  - reflexivity.
  - by vm_compute.
  - reflexivity.
  - by intros i.
  - reflexivity.
  - lia.
  - lia.
  - exact Hr.
  - exact HL.
  - by vm_compute.
  - by vm_compute.
  - by rewrite Hh.
  - by repeat constructor.
Defined.
