(* ===== verification/DirectHost.v ===== *)
(** * DirectHost (include/shm/DirectHost.h): life cycle

    The geometry of the shared segment, [Init], [Shutdown] and the methods that
    touch the exchange header.  The answers of the operating system are inputs
    ([OsAnswers]); a handle is a number and 0 is the null handle.

    - [Host]: the members that [Init] and [Shutdown] change.  [shmBase] says
      whether the member is non-null and [mapped] whether the segment it points to
      is mapped, which the source does not keep in step.
    - [sharedState] is the location [L_sharedState]: 0 for null, otherwise the
      identity of the object ([nextId] supplies fresh ones).
    - [Init] runs before any other thread uses the host, so it is a function on
      states; [Shutdown] is a program.  Closing handles and unlinking names has no
      counterpart in the model beyond [mapped].
    - [HostConfig] has the members that the geometry and the counts depend on;
      the name goes to the operating system, and the affinity and spin flags only
      to the worker thread. *)

From S2P Require Export GuestCallWorker SlotSafety StreamTransmit.

Local Open Scope Z_scope.

Record HostConfig : Type := mkHostConfig {
  numHostSlots : Z; payloadSize : Z; cfg_numGuestSlots : Z }.

(** ** Geometry *)

Record Geometry : Type := mkGeometry {
  g_halfSize : Z; g_reqOffset : Z; g_respOffset : Z; g_slotSize : Z;
  g_exchangeHeaderSize : Z; g_slotHeaderSize : Z; g_perSlotTotal : Z;
  g_totalSlots : Z; g_totalSize : Z }.

Definition sizeof_ExchangeHeader : Z := Eval vm_compute in
  Z.of_nat (Layout.sizeof Structs.ExchangeHeader_struct).
Definition sizeof_SlotHeader : Z := Eval vm_compute in
  Z.of_nat (Layout.sizeof Structs.SlotHeader_struct).

Definition geometry (cfg : HostConfig) : Geometry :=
  let slotSize := payloadSize cfg in
  let halfSize := slotSize / 2 in
  let halfSize := u32 (halfSize / 64 * 64) in
  let halfSize := if halfSize <? 64 then 64 else halfSize in
  let reqOffset := 0 in
  let respOffset := halfSize in
  let slotSize := if slotSize <? u32 (respOffset + halfSize)
                  then u32 (respOffset + halfSize) else slotSize in
  let exchangeHeaderSize := sizeof_ExchangeHeader in
  let exchangeHeaderSize := if exchangeHeaderSize <? 64 then 64 else exchangeHeaderSize in
  let slotHeaderSize := sizeof_SlotHeader in
  let perSlotTotal := u64 (slotHeaderSize + slotSize) in
  let totalSlots := u32 (numHostSlots cfg + cfg_numGuestSlots cfg) in
  let totalSize := u64 (exchangeHeaderSize + u64 (perSlotTotal * totalSlots)) in
  mkGeometry halfSize reqOffset respOffset slotSize exchangeHeaderSize slotHeaderSize
    perSlotTotal totalSlots totalSize.

(** Regions of slot [i], as offset from the base and length: header, request area,
    response area. *)
Definition slot_base (g : Geometry) (i : Z) : Z := g_exchangeHeaderSize g + i * g_perSlotTotal g.

Definition slot_regions (g : Geometry) (i : Z) : list (Z * Z) :=
  let ptr := slot_base g i in
  let dataBase := ptr + g_slotHeaderSize g in
  [ (ptr, g_slotHeaderSize g);
    (dataBase + g_reqOffset g, g_halfSize g);
    (dataBase + g_respOffset g, u32 (g_slotSize g - g_respOffset g)) ].

(** ** State and environment *)

Record Host : Type := mkHost {
  shmBase : bool; mapped : bool; allocator : Allocator; totalShmSize : Z; nextId : Z }.

Record OsAnswers : Type := mkOs {
  os_map : bool;             (** [CreateNamedShm] returns a mapping *)
  os_lock : bool;            (** [LockShm] succeeds *)
  os_reqEvent : nat → Z;     (** [CreateNamedEvent] for the request of a slot *)
  os_respEvent : nat → Z }.

(** The constructor. *)
Definition new_host : Host :=
  mkHost false false (mkAllocator [] 0 0 0 10000) 0 2.

Definition SetTimeout (h : Host) (ms : Z) : Host :=
  let A := allocator h in
  mkHost (shmBase h) (mapped h)
    (mkAllocator (slots A) (numSlots A) (numGuestSlots A) (msgSeqStride A) ms)
    (totalShmSize h) (nextId h).

(** ** Shutdown *)

Definition Shutdown (h : Host) : prog Host :=
  let* run := is_running in
  if negb run then Ret h
  else
    call (Store L_sharedState 0) ;;;
    Stop (allocator h) ;;;
    call (Store L_running 0) ;;;
    Ret (mkHost (shmBase h) (if shmBase h then false else mapped h) (allocator h)
           (totalShmSize h) (nextId h)).

(** ** Init *)

(** [memset(shmBase, 0, totalSize)]: exchange header, header fields and areas of
    all slots. *)
Definition shared_field (f : field) : bool :=
  match f with
  | F_activeWait | F_localSeq | F_limit | F_guestWait | F_guestSeq | F_guestLimit => false
  | _ => true
  end.

Definition zero_segment (g : Geometry) (w : World) : World :=
  let in_seg i := (i <? Z.to_nat (g_totalSlots g))%nat in
  mkWorld
    (λ l, match l with
          | LSlot i f => if in_seg i && shared_field f then 0 else mem w l
          | LExchange _ | L_fastPathAllowed => 0
          | _ => mem w l
          end)
    (λ b, match b with
          | BReq i => if in_seg i then replicate (Z.to_nat (g_halfSize g)) Byte.x00 else bytes w b
          | BResp i => if in_seg i
                       then replicate (Z.to_nat (u32 (g_slotSize g - g_respOffset g))) Byte.x00
                       else bytes w b
          end)
    (signalled w).

(** The stores to the exchange header. *)
Definition write_exchange (g : Geometry) (cfg : HostConfig) (w : World) : World :=
  let w := set_mem w (LExchange E_magic) SHM_MAGIC in
  let w := set_mem w (LExchange E_version) SHM_VERSION in
  let w := set_mem w (LExchange E_numSlots) (numHostSlots cfg) in
  let w := set_mem w (LExchange E_numGuestSlots) (cfg_numGuestSlots cfg) in
  let w := set_mem w (LExchange E_slotSize) (g_slotSize g) in
  let w := set_mem w (LExchange E_reqOffset) (g_reqOffset g) in
  let w := set_mem w (LExchange E_respOffset) (g_respOffset g) in
  set_mem w L_fastPathAllowed (if mem w L_autoReclaim =? 0 then 1 else 0).

(** [allocator_.slots.resize(totalSlots)] with the default members of [Slot]. *)
Definition resize_slots (n : nat) (l : list SlotInfo) : list SlotInfo :=
  take n l ++ replicate (n - length l) (mkSlot 0 0 0 0).

Definition default_members (n : nat) (l : list SlotInfo) (w : World) : World :=
  mkWorld
    (λ x, match x with
          | LSlot i F_activeWait => if (length l <=? i)%nat && (i <? n)%nat then 0 else mem w x
          | LSlot i F_limit => if (length l <=? i)%nat && (i <? n)%nat then initial_limit else mem w x
          | _ => mem w x
          end) (bytes w) (signalled w).

(** The loop over the slots; [inr] when an event could not be created. *)
Fixpoint init_slots (g : Geometry) (os : OsAnswers) (n i : nat) (l : list SlotInfo) (w : World)
    : (list SlotInfo * World) + (list SlotInfo * World) :=
  match n with
  | O => inl (l, w)
  | S n =>
      let s := mkSlot (g_halfSize g) (u32 (g_slotSize g - g_respOffset g))
                 (os_reqEvent os i) (os_respEvent os i) in
      let l := <[i := s]> l in
      let w := set_mem w (LSlot i F_localSeq) (u32 (Z.of_nat i + 1)) in
      if (os_reqEvent os i =? 0) || (os_respEvent os i =? 0) then inr (l, w)
      else
        let w := set_mem w (LSlot i F_state) SLOT_FREE in
        let w := set_mem w (LSlot i F_hostState) HOST_STATE_ACTIVE in
        let w := set_mem w (LSlot i F_guestState) GUEST_STATE_ACTIVE in
        init_slots g os n (S i) l w
  end.

Definition no_choice : nat → ext := λ _, mkExt 0 true 0 [].

Definition Init (os : OsAnswers) (cfg : HostConfig) (h : Host) (w : World)
    : ResultVoid.t * Host * World :=
  let fresh := mem w L_sharedState =? 0 in
  let w := if fresh then set_mem w L_sharedState (nextId h) else w in
  let id := if fresh then nextId h + 1 else nextId h in
  let g := geometry cfg in
  let A := allocator h in
  let A := mkAllocator (slots A) (numHostSlots cfg) (cfg_numGuestSlots cfg)
             (u32 (numHostSlots cfg + cfg_numGuestSlots cfg)) (responseTimeoutMs A) in
  if negb (os_map os) then
    (ResultVoid.Failure InternalError, mkHost false false A (g_totalSize g) id, w)
  else if negb (os_lock os) then
    (ResultVoid.Failure ResourceExhausted, mkHost false false A (g_totalSize g) id, w)
  else
    let w := zero_segment g w in
    let w := write_exchange g cfg w in
    let n := Z.to_nat (g_totalSlots g) in
    let w := default_members n (slots A) w in
    let with_slots l := mkHost true true
      (mkAllocator l (numSlots A) (numGuestSlots A) (msgSeqStride A) (responseTimeoutMs A))
      (g_totalSize g) id in
    match init_slots g os n 0 (resize_slots n (slots A)) w with
    | inl (l, w) => (ResultVoid.Success, with_slots l, set_mem w L_running 1)
    | inr (l, w) =>
        let w := set_mem w L_running 1 in
        match run_alone 8 no_choice (Shutdown (with_slots l)) w with
        | Some (h, w) => (ResultVoid.Failure InternalError, h, w)
        | None => (ResultVoid.Failure InternalError, with_slots l, w)
        end
    end.

(** ** The reclaim policy and the exchange header *)

Definition host_SetAutoReclaimTimeoutNs (h : Host) (timeoutNs : Z) : prog unit :=
  SetAutoReclaimTimeoutNs timeoutNs ;;;
  if shmBase h then
    if mapped h then call (Store L_fastPathAllowed (if timeoutNs =? 0 then 1 else 0)) else Fault
  else Ret tt.

(** ** Correctness of the geometry *)

Definition config_range (cfg : HostConfig) : Prop :=
  is_u32 (payloadSize cfg) ∧ 0 <= numHostSlots cfg ∧ 0 <= cfg_numGuestSlots cfg ∧
  numHostSlots cfg + cfg_numGuestSlots cfg < 2 ^ 31.

(** Consecutive regions that fill [a, b). *)
Fixpoint tiles (a : Z) (rs : list (Z * Z)) (b : Z) : Prop :=
  match rs with
  | [] => a = b
  | (start, len) :: rs => start = a ∧ 0 < len ∧ tiles (a + len) rs b
  end.

Lemma tiles_app a rs rs' b c : tiles a rs b → tiles b rs' c → tiles a (rs ++ rs') c.
Proof.
  revert a. induction rs as [|[st ln] rs IH]; simpl; [by intros a ->|].
  intros a (->&?&?) ?. auto.
Qed.

(** The sizes, without wrap-around. *)
Lemma geometry_sizes cfg (g := geometry cfg) :
  config_range cfg →
  64 <= g_halfSize g < 2 ^ 31 ∧ g_halfSize g mod 64 = 0 ∧ g_respOffset g = g_halfSize g ∧
  2 * g_halfSize g <= g_slotSize g < 2 ^ 32 ∧
  (128 <= payloadSize cfg → g_slotSize g = payloadSize cfg) ∧
  g_perSlotTotal g = sizeof_SlotHeader + g_slotSize g ∧
  g_totalSlots g = numHostSlots cfg + cfg_numGuestSlots cfg ∧
  g_totalSize g = 64 + g_perSlotTotal g * g_totalSlots g.
Proof.
  intros (Hp&Hh&Hg&Ht). subst g. unfold geometry. cbv zeta. cbn -[Z.div Z.mul Z.add u32 u64 Z.pow].
  set (p := payloadSize cfg) in *.
  pose proof (Z.div_mod p 2 ltac:(lia)). pose proof (Z.mod_pos_bound p 2 ltac:(lia)).
  set (q := p / 2) in *.
  pose proof (Z.div_mod q 64 ltac:(lia)). pose proof (Z.mod_pos_bound q 64 ltac:(lia)).
  set (k := q / 64) in *.
  rewrite (u32_id (k * 64)) by lia. rewrite (u32_id (numHostSlots cfg + _)) by lia.
  unfold sizeof_SlotHeader, sizeof_ExchangeHeader. cbn [Z.ltb Z.compare Pos.compare Pos.compare_cont].
  assert (k * 64 mod 64 = 0) by (apply Z.mod_mul; lia).
  set (half := if k * 64 <? 64 then 64 else k * 64).
  assert (64 <= half < 2 ^ 31 ∧ half mod 64 = 0 ∧ (half = 64 ∨ half = k * 64)) as (?&?&?).
  { subst half. destruct (Z.ltb_spec (k * 64) 64); split_and!; try done; lia. }
  clearbody half. rewrite (u32_id (half + half)) by lia.
  set (slot := if p <? half + half then half + half else p).
  assert (2 * half <= slot < 2 ^ 32 ∧ (128 <= p → slot = p)) as [??].
  { subst slot. destruct (Z.ltb_spec p (half + half)); split; intros; lia. }
  clearbody slot. rewrite (u64_id (128 + slot)) by lia.
  set (N := numHostSlots cfg + cfg_numGuestSlots cfg) in *.
  assert (0 <= (128 + slot) * N <= (128 + 2 ^ 32) * 2 ^ 31).
  { split; [apply Z.mul_nonneg_nonneg|apply Z.mul_le_mono_nonneg]; lia. }
  rewrite (u64_id ((128 + slot) * N)), u64_id by lia. split_and!; try done; lia.
Qed.

(** C22: the segment is laid out without gap or overlap.  For every payload size
    and any number of slots below 2^31, the exchange header and the header,
    request area and response area of every slot, in this order, tile the
    segment exactly, none of the arithmetic wraps around, and both areas have at
    least 64 bytes. *)
Theorem segment_tiled cfg (g := geometry cfg) :
  config_range cfg →
  tiles 0 ((0, g_exchangeHeaderSize g) :: concat (map (slot_regions g) (seqZ 0 (g_totalSlots g))))
    (g_totalSize g) ∧
  64 <= g_halfSize g ∧ 64 <= u32 (g_slotSize g - g_respOffset g).
Proof.
  intros Hc. pose proof (geometry_sizes cfg Hc) as Hz. cbv zeta in Hz. fold g in Hz. destruct Hz as (Hh&_&Hro&Hs&_&Hps&Hts&Htot).
  destruct Hc as (_&?&?&?).
  assert (Hr : u32 (g_slotSize g - g_respOffset g) = g_slotSize g - g_halfSize g)
    by (rewrite Hro; apply u32_id; lia).
  split; [|split; [lia|rewrite Hr; lia]]. split; [done|split; [done|]]. rewrite Htot.
  assert (0 <= g_totalSlots g) as Hn by lia. clear Htot Hts.
  revert Hn. generalize (g_totalSlots g). apply natlike_ind.
  - cbn. rewrite Z.mul_0_r. done.
  - intros n Hn IH. unfold Z.succ. rewrite seqZ_app, map_app, concat_app by lia.
    eapply tiles_app; [exact IH|]. rewrite (seqZ_cons _ 1) by lia. cbn [map concat app].
    unfold slot_regions, slot_base. rewrite Hr, Hro. change (g_exchangeHeaderSize g) with 64.
    change (g_slotHeaderSize g) with sizeof_SlotHeader. change (g_reqOffset g) with 0.
    rewrite Hps. unfold sizeof_SlotHeader. cbn [tiles app]. change (seqZ (Z.succ (0 + n)) (Z.pred 1)) with (@nil Z).
    cbn [map concat tiles]. nia.
Qed.

Lemma segment_tiled_witness :
  let g := geometry (mkHostConfig 2 129 1) in
  tiles 0 ((0, 64) :: concat (map (slot_regions g) (seqZ 0 3))) (g_totalSize g).
Proof. apply (segment_tiled (mkHostConfig 2 129 1)). unfold config_range. cbn. lia. Defined.

(** C38: when headers are aligned.  [SlotHeader] is declared [alignas(64)]; the
    headers of all slots are at multiples of 64 from the (page-aligned) base
    exactly if there is at most one slot or the slot size is a multiple of 64,
    which [Init] does not enforce: with a payload size of 129 the second header
    is misaligned. *)
Theorem headers_aligned cfg (g := geometry cfg) :
  config_range cfg →
  ((∀ i, 0 <= i < g_totalSlots g → slot_base g i mod 64 = 0) ↔
   g_totalSlots g <= 1 ∨ g_slotSize g mod 64 = 0) ∧
  slot_base (geometry (mkHostConfig 2 129 0)) 1 mod 64 ≠ 0.
Proof.
  intros Hc. split; [|done].
  pose proof (geometry_sizes cfg Hc) as Hz. cbv zeta in Hz. fold g in Hz. destruct Hz as (_&_&_&_&_&Hps&_).
  assert (Hb : ∀ i, slot_base g i mod 64 = (i * g_slotSize g) mod 64).
  { intros i. unfold slot_base. change (g_exchangeHeaderSize g) with 64. rewrite Hps.
    unfold sizeof_SlotHeader. replace (64 + i * (128 + g_slotSize g))
      with (i * g_slotSize g + (1 + 2 * i) * 64) by lia. apply Z_mod_plus_full. }
  split.
  - intros H. destruct (Z.le_gt_cases (g_totalSlots g) 1); [by left|right].
    specialize (H 1). rewrite Hb, Z.mul_1_l in H. apply H. lia.
  - intros [H1|H1] i Hi; rewrite Hb.
    + by replace i with 0 by lia.
    + rewrite <- Z.mul_mod_idemp_r, H1, Z.mul_0_r by lia. done.
Qed.

Lemma headers_aligned_witness :
  let g := geometry (mkHostConfig 2 1024 1) in
  slot_base (geometry (mkHostConfig 2 129 0)) 1 mod 64 ≠ 0 ∧ slot_base g 2 mod 64 = 0.
Proof.
  assert (config_range (mkHostConfig 2 1024 1)) as Hc by (unfold config_range; cbn; lia).
  split; [apply (headers_aligned _ Hc)|].
  apply (proj2 (proj1 (headers_aligned _ Hc))); [by right|by split].
Defined.

(** ** What [Init] establishes *)

Definition slot_of (g : Geometry) (os : OsAnswers) (i : nat) : SlotInfo :=
  mkSlot (g_halfSize g) (u32 (g_slotSize g - g_respOffset g)) (os_reqEvent os i) (os_respEvent os i).

(** Slot [i] is ready for use: free, with its own residue of sequence numbers. *)
Definition slot_ready (w : World) (i : nat) : Prop :=
  mem w (LSlot i F_state) = SLOT_FREE ∧ mem w (LSlot i F_hostState) = HOST_STATE_ACTIVE ∧
  mem w (LSlot i F_guestState) = GUEST_STATE_ACTIVE ∧
  mem w (LSlot i F_localSeq) = u32 (Z.of_nat i + 1).

Definition outside_slots (l : loc) : Prop := match l with LSlot _ _ => False | _ => True end.

Lemma init_slots_inl g os n : ∀ i l w l' w',
  length l = (i + n)%nat → init_slots g os n i l w = inl (l', w') →
  length l' = length l ∧ bytes w' = bytes w ∧
  (∀ x, outside_slots x → mem w' x = mem w x) ∧
  (∀ j f, (j < i)%nat → mem w' (LSlot j f) = mem w (LSlot j f)) ∧
  (∀ j, (j < i)%nat → l' !! j = l !! j) ∧
  (∀ j, (i ≤ j < i + n)%nat → l' !! j = Some (slot_of g os j) ∧ slot_ready w' j).
Proof.
  induction n as [|n IH]; intros i l w l' w' Hl; cbn [init_slots].
  { intros [= <- <-]. split_and!; try done. lia. }
  destruct (_ || _); [done|]. intros Hi. apply IH in Hi as (H1&H2&H3&H4&H5&H6);
    [|rewrite length_insert; lia]. rewrite length_insert in H1. split_and!; [done|done| | | |].
  - intros x Hx. rewrite H3 by done. cbn. by rewrite !upd_ne by (by intros ->).
  - intros j f Hj. rewrite H4 by lia. cbn. rewrite !upd_ne; [done|intros [=]; lia..].
  - intros j Hj. rewrite H5 by lia. apply list_lookup_insert_ne. lia.
  - intros j Hj. destruct (decide (j = i)) as [->|]; [|apply H6; lia]. split.
    + rewrite H5 by lia. apply list_lookup_insert_eq. lia.
    + unfold slot_ready. rewrite !H4 by lia. cbn.
      repeat (rewrite upd_eq || rewrite upd_ne by done). done.
Qed.

Lemma resize_slots_length n l : length (resize_slots n l) = n.
Proof. unfold resize_slots. rewrite length_app, length_take, length_replicate. lia. Qed.

(** The guest may take its fast path exactly if the host never reclaims. *)
Definition policy_published (w : World) : Prop :=
  mem w L_fastPathAllowed = (if mem w L_autoReclaim =? 0 then 1 else 0).

(** The exchange header describes the segment. *)
Record exchange_ready (w : World) (cfg : HostConfig) : Prop := {
  ex_magic : mem w (LExchange E_magic) = SHM_MAGIC;
  ex_version : mem w (LExchange E_version) = SHM_VERSION;
  ex_counts : mem w (LExchange E_numSlots) = numHostSlots cfg ∧
    mem w (LExchange E_numGuestSlots) = cfg_numGuestSlots cfg;
  ex_sizes : mem w (LExchange E_slotSize) = g_slotSize (geometry cfg) ∧
    mem w (LExchange E_reqOffset) = g_reqOffset (geometry cfg) ∧
    mem w (LExchange E_respOffset) = g_respOffset (geometry cfg) }.

(** The exchange header, which the loop leaves alone, and the slots. *)
Lemma Init_exchange os cfg h w h' w' :
  Init os cfg h w = (ResultVoid.Success, h', w') →
  exchange_ready w' cfg ∧ policy_published w' ∧
  ∀ i, (i < Z.to_nat (g_totalSlots (geometry cfg)))%nat → slot_ready w' i.
Proof.
  unfold Init. set (g := geometry cfg). cbv zeta.
  destruct (os_map os); cbn [negb]; [|done]. destruct (os_lock os); cbn [negb]; [|done].
  set (n := Z.to_nat (g_totalSlots g)). set (w0 := if _ =? 0 then _ else w).
  match goal with |- context [init_slots g os n 0 ?l ?w] => set (l0 := l); set (w1 := w) end.
  destruct (init_slots g os n 0 l0 w1) as [[l w2]|[l w2]] eqn:E; cycle 1.
  { by destruct (run_alone _ _ _ _) as [[??]|]. }
  intros [= <- <-].
  apply init_slots_inl in E as (_&_&Hm&_&_&Hs); [|apply resize_slots_length].
  assert (Hf : ∀ x, outside_slots x → x ≠ L_running →
    mem (set_mem w2 L_running 1) x = mem (write_exchange g cfg (zero_segment g w0)) x).
  { intros x Hx Hr. cbn [set_mem mem]. rewrite upd_ne, Hm by done. by destruct x. }
  split; [|split].
  1: constructor. 5: unfold policy_published.
  1-5: rewrite !Hf by done; cbn [write_exchange set_mem mem];
    repeat (rewrite upd_eq || rewrite upd_ne by done); done.
  intros i Hi. destruct (Hs i) as [_ (?&?&?&?)]; [lia|]. done.
Qed.

Lemma Init_guest_slots os cfg h w h' w' :
  Init os cfg h w = (ResultVoid.Success, h', w') →
  numGuestSlots (allocator h') = cfg_numGuestSlots cfg.
Proof.
  unfold Init. cbv zeta. destruct (os_map os), (os_lock os); cbn [negb]; try done.
  destruct (init_slots _ _ _ _ _ _) as [[l w2]|[l w2]]; [by intros [= <- <-]|].
  by destruct (run_alone _ _ _ _) as [[??]|].
Qed.

Lemma Init_wf os cfg h w h' w' :
  config_range cfg → 0 < numHostSlots cfg →
  Init os cfg h w = (ResultVoid.Success, h', w') →
  let A := allocator h' in
  alloc_ok A ∧ uniform A (g_halfSize (geometry cfg)) ∧ world_ok A w' ∧
  (∀ i, (i < length (slots A))%nat → slot_ready w' i) ∧
  (∀ i, (i < length (slots A))%nat → slots A !! i = Some (slot_of (geometry cfg) os i)) ∧
  numSlots A = numHostSlots cfg ∧ mem w' L_running = 1 ∧ shmBase h' = true ∧ mapped h' = true.
Proof.
  intros Hc Hh HI. pose proof (geometry_sizes cfg Hc) as Hz. cbv zeta in Hz.
  destruct Hz as (Hhs&_&Hro&Hss&_&_&Hts&_). destruct (Hc) as (_&_&Hg&Ht).
  revert HI. unfold Init. set (g := geometry cfg) in *. clearbody g. cbv zeta.
  destruct (os_map os); cbn [negb]; [|done]. destruct (os_lock os); cbn [negb]; [|done].
  set (n := Z.to_nat (g_totalSlots g)). set (w0 := if _ =? 0 then _ else w).
  match goal with |- context [init_slots g os n 0 ?l ?w] => set (l0 := l); set (w1 := w) end.
  destruct (init_slots g os n 0 l0 w1) as [[l w2]|[l w2]] eqn:E; cycle 1.
  { by destruct (run_alone _ _ _ _) as [[??]|]. }
  intros [= <- <-]. cbn [allocator slots numSlots numGuestSlots].
  assert (length l0 = n) as Hl0 by apply resize_slots_length.
  apply init_slots_inl in E as (Hl&Hb&Hm&_&_&Hs); [|done]. rewrite Hl0 in Hl.
  assert (Hin : ∀ i s, l !! i = Some s → (i < n)%nat ∧ s = slot_of g os i).
  { intros i s Hi. assert (i < n)%nat by (rewrite <- Hl; by eapply lookup_lt_Some).
    split; [done|]. destruct (Hs i) as [Hsl _]; [lia|]. congruence. }
  assert (Hresp : u32 (g_slotSize g - g_respOffset g) = g_slotSize g - g_halfSize g)
    by (rewrite Hro; apply u32_id; lia).
  split_and!; try done.
  - constructor; cbn [slots numSlots numGuestSlots]; try lia.
    apply Forall_lookup. intros i s [_ ->]%Hin. cbn [slot_of maxReqSize maxRespSize]. lia.
  - apply Forall_lookup. by intros i s [_ ->]%Hin.
  - intros i s [Hi ->]%Hin. cbn [set_mem bytes slot_of maxReqSize maxRespSize].
    rewrite Hb. cbn -[u32 Nat.ltb]. change (Z.to_nat (g_totalSlots g)) with n.
    rewrite (proj2 (Nat.ltb_lt _ _) Hi), !length_replicate. lia.
  - cbn [slots]. intros i Hi. destruct (Hs i) as [_ (?&?&?&?)]; [lia|]. done.
  - cbn [slots]. intros i Hi. by destruct (Hs i) as [? _]; [lia|].
Qed.

(** C19: [Init] establishes what the rest of the host relies on.  If it reports
    success, for a configuration with at least one host slot, every slot has its
    events, areas of the recorded sizes and equal request areas, is free and has
    the sequence numbers of its own residue class; the exchange header
    has magic, version, counts and the geometry; the fast-path permission agrees
    with the reclaim policy, and the host is running on a mapped segment. *)
Theorem Init_establishes os cfg h w h' w' :
  config_range cfg → 0 < numHostSlots cfg →
  Init os cfg h w = (ResultVoid.Success, h', w') →
  let A := allocator h' in
  alloc_ok A ∧ uniform A (g_halfSize (geometry cfg)) ∧ world_ok A w' ∧
  (∀ i, (i < length (slots A))%nat → slot_ready w' i) ∧ exchange_ready w' cfg ∧
  policy_published w' ∧ mem w' L_running = 1 ∧ shmBase h' = true ∧ mapped h' = true.
Proof.
  intros Hc Hh HI. cbv zeta. pose proof (Init_exchange _ _ _ _ _ _ HI) as (?&?&_).
  destruct (Init_wf _ _ _ _ _ _ Hc Hh HI) as (?&?&?&?&_&_&?&?&?). by split_and!.
Qed.

(** Event handles of a system that has no shortage. *)
Definition ex_os : OsAnswers :=
  mkOs true true (λ i, Z.of_nat (2 * i + 1)) (λ i, Z.of_nat (2 * i + 2)).
Definition ex_config : HostConfig := mkHostConfig 2 1024 1.
Definition blank_world : World :=
  mkWorld (λ l, if decide (l = L_sharedState) then 1 else 0) (λ _, []) (λ _, false).
Definition ex_host : Host := (Init ex_os ex_config new_host blank_world).1.2.
Definition ex_host_world : World := (Init ex_os ex_config new_host blank_world).2.

Lemma Init_establishes_witness :
  alloc_ok (allocator ex_host) ∧ uniform (allocator ex_host) 512 ∧
  world_ok (allocator ex_host) ex_host_world.
Proof.
  destruct (Init_establishes ex_os ex_config new_host blank_world ex_host ex_host_world)
    as (?&?&?&_); [by unfold config_range|done|reflexivity|]. by split_and!.
Defined.

(** ** Shutdown and the reclaim policy *)

(** The reclaim policy is published.  Run to its end on a mapped segment,
    [SetAutoReclaimTimeoutNs] leaves the fast-path permission in agreement with
    the policy it was given, whatever both were before. *)
Theorem reclaim_policy_published h ns w :
  shmBase h = true → mapped h = true →
  ∃ w', run_alone 2 no_choice (host_SetAutoReclaimTimeoutNs h ns) w = Some (tt, w') ∧
    policy_published w' ∧ mem w' L_autoReclaim = ns.
Proof.
  intros Hb Hm. unfold host_SetAutoReclaimTimeoutNs, SetAutoReclaimTimeoutNs. rewrite Hb, Hm.
  eexists. split; [reflexivity|]. unfold policy_published. cbn.
  repeat (rewrite upd_eq || rewrite upd_ne by done). done.
Qed.

Lemma reclaim_policy_published_witness :
  ∃ w', run_alone 2 no_choice (host_SetAutoReclaimTimeoutNs ex_host 5) ex_host_world
          = Some (tt, w') ∧
    policy_published w' ∧ mem w' L_autoReclaim = 5.
Proof. apply (reclaim_policy_published ex_host 5 ex_host_world); reflexivity. Defined.

Lemma GuestRequestEvent_pure A : alloc_ok A → ∃ ev, GuestRequestEvent A = Ret ev.
Proof.
  intros [Hl Hg Hh Ht _]. unfold GuestRequestEvent. rewrite u32_id by lia.
  destruct (Z.ltb_spec 0 (numGuestSlots A)); cbn [andb]; [|by eexists].
  rewrite (proj2 (Z.leb_le _ _)) by lia. unfold with_slot.
  destruct (lookup_lt_is_Some_2 (slots A) (Z.to_nat (numSlots A))) as [s ->]; [lia|by eexists].
Qed.

(** C37: [Shutdown] ends the life of the host, but leaves [shmBase] dangling.  On a
    running host it runs to its end, after which the host is stopped and every
    outstanding slot handle has expired.  Because [shmBase] keeps its value when
    the segment is unmapped, a later [SetAutoReclaimTimeoutNs] stores through it. *)
Theorem Shutdown_dangling h w :
  alloc_ok (allocator h) → shmBase h = true → mem w L_running ≠ 0 →
  ∃ h' w', run_alone 8 no_choice (Shutdown h) w = Some (h', w') ∧
    mem w' L_running = 0 ∧ mem w' L_sharedState = 0 ∧ mem w' L_workerRunning = 0 ∧
    ∀ ns, host_SetAutoReclaimTimeoutNs h' ns = Do (Store L_autoReclaim ns) (λ _, Fault).
Proof.
  intros HA Hb Hr. unfold Shutdown, is_running, Stop, WakeWaiter.
  destruct (GuestRequestEvent_pure _ HA) as [ev ->]. rewrite Hb. cbn.
  rewrite (proj2 (Z.eqb_neq _ _) Hr). cbn.
  destruct (_ =? 0); cbn; [|destruct (ev =? 0) eqn:E; cbn; [|unfold SignalEvent; rewrite E; cbn]].
  all: eexists _, _; split; [reflexivity|]; cbn;
    repeat (rewrite upd_eq || rewrite upd_ne by done); done.
Qed.

Lemma Shutdown_dangling_witness :
  ∃ h' w', run_alone 8 no_choice (Shutdown ex_host) ex_host_world = Some (h', w') ∧
    mem w' L_running = 0 ∧ mem w' L_sharedState = 0 ∧ mem w' L_workerRunning = 0 ∧
    ∀ ns, host_SetAutoReclaimTimeoutNs h' ns = Do (Store L_autoReclaim ns) (λ _, Fault).
Proof.
  apply (Shutdown_dangling ex_host ex_host_world); [|reflexivity|done].
  constructor; [reflexivity|done|done|done|]. by repeat constructor.
Defined.
