(* ===== verification/SlotHandles.v ===== *)
(** * SlotHandles (include/shm/DirectHost.h): handles and send paths

    The part of [DirectHost] that client threads use: [ZeroCopySlot], [HeldSlot]
    and the copying send paths, as programs over the slot layer.

    - a handle is the triple of its members; the moved-from and the disowned
      handle have index -1.  [hd_weak] is the identity of the [SharedState] that
      the weak pointer observes, 0 for an empty one; it is expired when the host
      holds another one or none.
    - a method that changes its handle returns the new one.
    - a pointer into a request or response area is a buffer and an offset. *)

From S2P Require Export DirectHost SlotProtocol.

Local Open Scope Z_scope.

Record SlotHandle : Type := mkHandle { hd_host : bool; hd_slotIdx : Z; hd_weak : Z }.

Definition moved_from : SlotHandle := mkHandle false (-1) 0.

(** [weakState.lock()] is non-null, that is, not expired. *)
Definition weak_alive (h : SlotHandle) : prog bool :=
  let* s := call (Load L_sharedState) in Ret (negb (hd_weak h =? 0) && (s =? hd_weak h)).

Definition disown (h : SlotHandle) : SlotHandle := mkHandle (hd_host h) (-1) (hd_weak h).

(** The constructors from a host and an index. *)
Definition make_handle (idx : Z) : prog SlotHandle :=
  let* s := call (Load L_sharedState) in Ret (mkHandle true idx s).

Definition handle_IsValid (h : SlotHandle) : prog bool :=
  let* alive := weak_alive h in Ret (alive && hd_host h && (0 <=? hd_slotIdx h)).

(** The move constructors: the new handle and what is left of the old one. *)
Definition move_handle (h : SlotHandle) : SlotHandle * SlotHandle :=
  (mkHandle (hd_host h) (hd_slotIdx h) (hd_weak h), moved_from).

Section handles.
Context (A : Allocator) (fuel : nat).

Definition handle_GetReqBuffer (h : SlotHandle) : prog (option buffer) :=
  let* ok := handle_IsValid h in
  if negb ok then Ret None
  else with_slot A (hd_slotIdx h) (λ i _, Ret (Some (BReq i))).

Definition handle_GetMaxReqSize (h : SlotHandle) : prog Z :=
  let* ok := handle_IsValid h in
  if negb ok then Ret 0
  else with_slot A (hd_slotIdx h) (λ _ s, Ret (i32 (maxReqSize s))).

(** ** ZeroCopySlot *)

Definition zc_destroy (h : SlotHandle) : prog unit :=
  let* alive := weak_alive h in
  if alive then
    if hd_host h && (0 <=? hd_slotIdx h)
    then with_slot A (hd_slotIdx h) (λ i _, store i F_state SLOT_FREE) else Ret tt
  else Ret tt.

(** [operator=(ZeroCopySlot&&)] for distinct objects. *)
Definition zc_move_assign (h other : SlotHandle) : prog (SlotHandle * SlotHandle) :=
  zc_destroy h ;;; Ret (move_handle other).

(** What [Send] and [SendFlatBuffer] do once the size is accepted. *)
Definition zc_transact (h : SlotHandle) (i : nat) (s : SlotInfo) (reqSize : Z) (ty : MsgType)
    (timeoutMs : Z) : prog (ResultVoid.t * SlotHandle) :=
  let* currentSeq := write_request A i reqSize ty in
  let* ready := WaitResponse fuel i s (effective_timeout A timeoutMs) in
  if negb ready then Ret (ResultVoid.Failure Timeout, disown h)
  else
    let* refused := check_response i currentSeq in
    match refused with
    | Some e => Ret (ResultVoid.Failure e, disown h)
    | None => Ret (ResultVoid.Success, h)
    end.

Definition zc_Send (h : SlotHandle) (size : Z) (ty : MsgType) (timeoutMs : Z)
    : prog (ResultVoid.t * SlotHandle) :=
  let* ok := handle_IsValid h in
  if negb ok then Ret (ResultVoid.Failure InvalidArgs, h)
  else with_slot A (hd_slotIdx h) (λ i s,
    if maxReqSize s <? abs_u32 size then Ret (ResultVoid.Failure BufferTooSmall, h)
    else zc_transact h i s size ty timeoutMs).

Definition zc_SendFlatBuffer (h : SlotHandle) (size timeoutMs : Z)
    : prog (ResultVoid.t * SlotHandle) :=
  let* ok := handle_IsValid h in
  if negb ok then Ret (ResultVoid.Failure InvalidArgs, h)
  else with_slot A (hd_slotIdx h) (λ i s,
    if maxReqSize s <? u32 size then Ret (ResultVoid.Failure BufferTooSmall, h)
    else zc_transact h i s (i32 (- size)) FLATBUFFER timeoutMs).

(** Buffer and offset. *)
Definition zc_GetRespBuffer (h : SlotHandle) : prog (option (buffer * Z)) :=
  let* ok := handle_IsValid h in
  if negb ok then Ret None
  else with_slot A (hd_slotIdx h) (λ i s,
    let* rSize := load_i32 i F_respSize in
    if 0 <=? rSize then Ret (Some (BResp i, 0))
    else
      let absRSize := u32 (0 - u32 rSize) in
      let absRSize := if maxRespSize s <? absRSize then maxRespSize s else absRSize in
      Ret (Some (BResp i, u32 (maxRespSize s - absRSize)))).

Definition zc_GetRespSize (h : SlotHandle) : prog Z :=
  let* ok := handle_IsValid h in
  if negb ok then Ret 0
  else with_slot A (hd_slotIdx h) (λ i s,
    let* (_, absResp) := read_resp_size i s in Ret (i32 absResp)).

(** ** HeldSlot *)

Definition held_Release (h : SlotHandle) : prog SlotHandle :=
  let* alive := weak_alive h in
  (if alive && (hd_host h && (0 <=? hd_slotIdx h))
   then ReleaseHeldSlot A (hd_slotIdx h) else Ret tt) ;;;
  Ret (disown h).

Definition held_move_assign (h other : SlotHandle) : prog (SlotHandle * SlotHandle) :=
  let* _ := held_Release h in Ret (move_handle other).

Definition held_Send (h : SlotHandle) (size : Z) (ty : MsgType) (outResp : list byte)
    (timeoutMs : Z) : prog (response * SlotHandle) :=
  let* ok := handle_IsValid h in
  if negb ok then Ret ((Err InvalidArgs, outResp), h)
  else
    let* r := SendHeld A fuel (hd_slotIdx h) size ty outResp timeoutMs in
    Ret (r, match r.1 with
            | Result.Error_ (Timeout | ProtocolViolation | InternalError) => disown h
            | _ => h
            end).

(** ** Acquiring handles *)

Definition GetZeroCopySlot (cached : Z) : prog (SlotHandle * Z) :=
  let* (idx, cached) := AcquireSlot A fuel cached in
  let* h := make_handle idx in Ret (h, cached).

Definition AcquireHeldSlot (cached : Z) : prog (SlotHandle * Z) :=
  let* (idx, cached) := AcquireSlot A fuel cached in
  let* h := make_handle idx in Ret (h, cached).

Definition AcquireHeldSlot_at (slotIdx timeoutMs : Z) : prog SlotHandle :=
  let* idx := AcquireSpecificSlot A fuel slotIdx timeoutMs in make_handle idx.

Definition TryAcquireHeldSlot : prog SlotHandle :=
  let* idx := TryAcquireSlot A in make_handle idx.

(** ** Copying send paths *)

(** The common part of [SendToSlot] and [Send] after the acquisition: [Some e]
    returns [e].  Reading [data] past its end is a [Fault]. *)
Definition put_request (idx : Z) (data : option (list byte)) (size : Z) : prog (option Error) :=
  if size =? 0 then Ret None
  else match data with
  | None => with_slot A idx (λ i _, store i F_state SLOT_FREE ;;; Ret (Some InvalidArgs))
  | Some data =>
      let* max := GetMaxReqSize A idx in
      let uAbsSize := abs_u32 size in
      if u32 max <? uAbsSize then
        with_slot A idx (λ i _, store i F_state SLOT_FREE ;;; Ret (Some BufferTooSmall))
      else
        let* src := read_data data 0 uAbsSize in
        write_req A idx (if 0 <=? size then 0 else u32 (u32 max - uAbsSize)) src ;;;
        Ret None
  end.

Definition send_on (idx : Z) (data : option (list byte)) (size : Z) (ty : MsgType)
    (outResp : list byte) (timeoutMs : Z) : prog response :=
  if idx <? 0 then Ret (Err ResourceExhausted, outResp)
  else
    let* e := put_request idx data size in
    match e with
    | Some e => Ret (Err e, outResp)
    | None => SendAcquired A fuel idx size ty outResp timeoutMs
    end.

Definition SendToSlot (slotIdx : Z) (data : option (list byte)) (size : Z) (ty : MsgType)
    (outResp : list byte) (timeoutMs : Z) : prog response :=
  let* idx := AcquireSpecificSlot A fuel (i32 slotIdx) timeoutMs in
  send_on idx data size ty outResp timeoutMs.

Definition host_Send (cached : Z) (data : option (list byte)) (size : Z) (ty : MsgType)
    (outResp : list byte) (timeoutMs : Z) : prog (response * Z) :=
  let* (idx, cached) := AcquireSlot A fuel cached in
  let* r := send_on idx data size ty outResp timeoutMs in Ret (r, cached).

Definition SendShutdown : prog unit :=
  let* run := is_running in
  if negb run then Ret tt
  else
    let* _ := for_ (Z.to_nat (numSlots A)) 0 (λ i _,
      let* _ := SendToSlot i None 0 SHUTDOWN [] 1000 in Ret (inl tt : unit + unit)) tt in
    Ret tt.
End handles.

(** ** Memory safety *)

(** A handle refers to a host slot or to none. *)
Definition handle_ok (A : Allocator) (h : SlotHandle) : Prop := acquired_ok A (hd_slotIdx h).

Section safety.
Context (A : Allocator) (fuel : nat) (HA : alloc_ok A).

Local Abbreviation safe p Q := (within (safe_ops A) p Q).

Lemma with_host_slot {X} idx (f : nat → SlotInfo → prog X) Q :
  0 <= idx < numSlots A →
  (∀ i s, Z.of_nat i = idx → slots A !! i = Some s → safe (f i s) Q) →
  safe (with_slot A idx f) Q.
Proof using HA. intros Hi Hf. destruct HA. apply within_with_slot; [lia|done]. Qed.

Lemma safe_weak_alive h : safe (weak_alive h) (λ _, True).
Proof. unfold weak_alive. safe_walk. Qed.

Lemma safe_handle_IsValid h :
  handle_ok A h → safe (handle_IsValid h) (λ b, b = true → 0 <= hd_slotIdx h < numSlots A).
Proof.
  intros Hh. unfold handle_IsValid. apply within_seq; [apply safe_weak_alive|]. intros b.
  apply within_ret. rewrite !andb_true_iff, Z.leb_le. destruct Hh; lia.
Qed.

(** Methods that begin with [if (!IsValid()) return]. *)
Lemma safe_if_valid {X} h (r : prog X) (f : nat → SlotInfo → prog X) Q :
  handle_ok A h → safe r Q →
  (∀ i s, Z.of_nat i = hd_slotIdx h → slots A !! i = Some s → safe (f i s) Q) →
  safe (let* ok := handle_IsValid h in
        if negb ok then r else with_slot A (hd_slotIdx h) f) Q.
Proof using HA.
  intros Hh Hr Hf. eapply within_bind; [by apply safe_handle_IsValid|].
  intros [] Hi; cbn [negb]; [|done]. by apply with_host_slot; [apply Hi|].
Qed.

Lemma safe_zc_destroy h : handle_ok A h → safe (zc_destroy A h) (λ _, True).
Proof using HA.
  intros Hh. unfold zc_destroy. apply within_seq; [apply safe_weak_alive|]. intros [].
  - destruct (_ && _) eqn:E; [|by apply within_ret].
    apply andb_true_iff in E as [_ ?%Z.leb_le].
    apply with_host_slot; [destruct Hh; lia|]. intros. eauto with within.
  - by apply within_ret.
Qed.

Lemma safe_zc_transact h i s sz ty t :
  handle_ok A h → slots A !! i = Some s →
  safe (zc_transact A fuel h i s sz ty t) (λ r, handle_ok A r.2).
Proof using HA.
  intros Hh Hs. unfold zc_transact.
  apply within_seq; [eauto with within|]. intros seq.
  apply within_seq; [eauto with within|]. intros ready.
  destruct (negb ready); [by left|].
  eapply within_bind; [by eapply safe_check_response|]. intros [e|] _; [by left|done].
Qed.

Lemma safe_zc_Send h sz ty t :
  handle_ok A h → safe (zc_Send A fuel h sz ty t) (λ r, handle_ok A r.2).
Proof using HA.
  intros Hh. unfold zc_Send. apply safe_if_valid; [done|done|]. intros i s Hi Hs.
  destruct (_ <? _); [done|by apply safe_zc_transact].
Qed.

Lemma safe_zc_SendFlatBuffer h sz t :
  handle_ok A h → safe (zc_SendFlatBuffer A fuel h sz t) (λ r, handle_ok A r.2).
Proof using HA.
  intros Hh. unfold zc_SendFlatBuffer. apply safe_if_valid; [done|done|]. intros i s Hi Hs.
  destruct (_ <? _); [done|by apply safe_zc_transact].
Qed.

Lemma safe_held_Release h : handle_ok A h → safe (held_Release A h) (λ h', handle_ok A h').
Proof using HA.
  intros Hh. unfold held_Release. apply within_seq; [apply safe_weak_alive|]. intros b.
  apply within_seq; [|intros; by left].
  destruct (b && _); [|by apply within_ret]. unfold ReleaseHeldSlot.
  destruct (bad_index A _) eqn:E; [by apply within_ret|].
  apply within_with_slot; [by apply good_index|]. intros. eauto with within.
Qed.

Lemma safe_held_Send h sz ty out t :
  handle_ok A h → safe (held_Send A fuel h sz ty out t) (λ r, handle_ok A r.2).
Proof using HA.
  intros Hh. unfold held_Send. eapply within_bind; [by apply safe_handle_IsValid|].
  intros [] Hi; cbn [negb]; [|done].
  eapply within_bind; [by apply safe_SendHeld|]. intros [[v|e] out'] _; [done|].
  destruct e; first [exact Hh|by left].
Qed.
End safety.

(** *** Clients *)

(** A client's use of a zero-copy slot: acquire it, write a request that fits,
    send it, let the handle go out of scope. *)
Definition zc_fill (A : Allocator) (h : SlotHandle) (req : list byte) : prog unit :=
  let* max := handle_GetMaxReqSize A h in
  let* b := handle_GetReqBuffer A h in
  match b with
  | Some b => if Z.of_nat (length req) <=? max then call (CopyIn b 0 req) else Ret tt
  | None => Ret tt
  end.

Definition zc_session (A : Allocator) (fuel : nat) (cached : Z) (req : list byte)
    (flat : bool) (size : Z) (ty : MsgType) (t : Z) : prog unit :=
  let* (h, _) := GetZeroCopySlot A fuel cached in
  zc_fill A h req ;;;
  let* (_, h) := (if flat then zc_SendFlatBuffer A fuel h size t
                  else zc_Send A fuel h size ty t) in
  zc_destroy A h.

(** A held slot: any number of transactions, then the destructor. *)
Definition held_session (A : Allocator) (fuel : nat) (cached : Z)
    (txs : list (list byte * Z * MsgType * Z)) : prog unit :=
  let* (h, _) := AcquireHeldSlot A fuel cached in
  let* h := foldr (λ '(req, size, ty, t) (k : SlotHandle → prog SlotHandle) h,
                zc_fill A h req ;;;
                let* (_, h) := held_Send A fuel h size ty [] t in k h) Ret txs h in
  let* _ := held_Release A h in Ret tt.

Inductive client : Type :=
  | KCall (c : api)
  | KSendToSlot (slotIdx : Z) (data : option (list byte)) (size : Z) (ty : MsgType) (t : Z)
  | KSend (cached : Z) (data : option (list byte)) (size : Z) (ty : MsgType) (t : Z)
  | KSendShutdown
  | KZeroCopy (cached : Z) (req : list byte) (flat : bool) (size : Z) (ty : MsgType) (t : Z)
  | KHeld (cached : Z) (txs : list (list byte * Z * MsgType * Z)).

(** The memory a caller passes in is as long as it says. *)
Definition client_ok (c : client) : Prop :=
  match c with
  | KSendToSlot _ data size _ _ | KSend _ data size _ _ =>
      ∀ d, data = Some d → abs_u32 size <= Z.of_nat (length d)
  | _ => True
  end.

Definition perform (A : Allocator) (fuel : nat) (c : client) : prog unit :=
  match c with
  | KCall c => invoke A fuel c
  | KSendToSlot slotIdx data size ty t =>
      let* _ := SendToSlot A fuel (u32 slotIdx) data size ty [] t in Ret tt
  | KSend cached data size ty t =>
      let* _ := host_Send A fuel (u32 cached) data size ty [] t in Ret tt
  | KSendShutdown => SendShutdown A fuel
  | KZeroCopy cached req flat size ty t => zc_session A fuel (u32 cached) req flat size ty t
  | KHeld cached txs => held_session A fuel (u32 cached) txs
  end.

Definition client_thread (A : Allocator) (fuel : nat) (cs : list client) : prog unit :=
  foldr (λ c p, perform A fuel c ;;; p) (Ret tt) cs.

Section clients.
Context (A : Allocator) (fuel : nat) (HA : alloc_ok A).

Local Abbreviation safe p Q := (within (safe_ops A) p Q).

Lemma safe_make_handle idx : acquired_ok A idx → safe (make_handle idx) (handle_ok A).
Proof. intros Hi. unfold make_handle. apply within_seq; [safe_walk|]. done. Qed.

Lemma safe_acquire_handle cached :
  0 <= cached →
  safe (let* (idx, cached) := AcquireSlot A fuel cached in
        let* h := make_handle idx in Ret (h, cached)) (λ r, handle_ok A r.1).
Proof using HA.
  intros Hc. eapply within_bind; [by apply safe_AcquireSlot|]. intros [idx c] [Hi _].
  eapply within_bind; [by apply safe_make_handle|]. done.
Qed.

Lemma safe_zc_fill h req : handle_ok A h → safe (zc_fill A h req) (λ _, True).
Proof using HA.
  intros Hh. unfold zc_fill.
  apply (within_bind _ _ _ (λ m, m = 0 ∨ ∃ i s, Z.of_nat i = hd_slotIdx h ∧
    slots A !! i = Some s ∧ m = i32 (maxReqSize s))).
  { apply safe_if_valid; [done|done|by left|]. intros i s ??. right. eauto. }
  intros m Hm.
  apply (within_bind _ _ _ (λ b, b = None ∨ ∃ i s, b = Some (BReq i) ∧
    Z.of_nat i = hd_slotIdx h ∧ slots A !! i = Some s)).
  { apply safe_if_valid; [done|done|by left|]. intros i s ??. right. eauto. }
  intros b [->|(i&s&->&Hi&Hs)]; [done|].
  destruct (Z.leb_spec (Z.of_nat (length req)) m); [|done].
  apply within_call; [|done]. simpl. rewrite Hs. unfold in_range.
  destruct (slot_sizes A HA i s Hs) as [? _].
  rewrite !andb_true_iff, !Z.leb_le. split; [lia|]. destruct Hm as [->|(i'&s'&Hi'&Hs'&->)]; [lia|].
  assert (i' = i) as -> by lia. rewrite Hs in Hs'. injection Hs' as <-.
  unfold i32 in *. pose proof (Z.mod_le (maxReqSize s + 2 ^ 31) (2 ^ 32)). lia.
Qed.

Lemma safe_put_request idx data sz :
  0 <= idx < numSlots A → (∀ d, data = Some d → abs_u32 sz <= Z.of_nat (length d)) →
  safe (put_request A idx data sz) (λ _, True).
Proof using HA.
  intros Hi Hd. unfold put_request. destruct (sz =? 0); [done|].
  destruct data as [d|]; cycle 1.
  { apply with_host_slot; [done..|]. intros. safe_walk. }
  specialize (Hd d eq_refl). pose proof (abs_u32_range sz).
  assert (Hb : bad_index A idx = false).
  { destruct HA. unfold bad_index. rewrite i32_id by lia.
    apply orb_false_iff. rewrite Z.ltb_ge, Z.leb_gt. lia. }
  unfold GetMaxReqSize, with_slot. rewrite Hb.
  destruct (lookup_lt_is_Some_2 (slots A) (Z.to_nat idx)) as [s Hs]; [destruct HA; lia|].
  rewrite Hs. cbn [bind]. destruct (slot_sizes A HA _ s Hs) as [Hsz _].
  assert (u32 (i32 (maxReqSize s)) = maxReqSize s) as ->.
  { unfold u32, i32. rewrite Zminus_mod_idemp_l. rewrite Z.mod_small; lia. }
  destruct (Z.ltb_spec (maxReqSize s) (abs_u32 sz)); [safe_walk|].
  unfold read_data, in_range. rewrite !(proj2 (Z.leb_le _ _)) by lia. cbn [andb bind].
  unfold write_req, GetReqBuffer. rewrite Hb. apply within_seq; [|done].
  apply within_call; [|done]. simpl. rewrite Hs. unfold in_range.
  rewrite slice_length by lia. rewrite !andb_true_iff, !Z.leb_le, Z2Nat.id by lia.
  destruct (0 <=? sz); [lia|]. rewrite u32_id by lia. lia.
Qed.

Lemma safe_send_on idx data sz ty out t :
  acquired_ok A idx → (∀ d, data = Some d → abs_u32 sz <= Z.of_nat (length d)) →
  safe (send_on A fuel idx data sz ty out t) (λ _, True).
Proof using HA.
  intros Hi Hd. unfold send_on. destruct (Z.ltb_spec idx 0); [done|].
  apply within_seq; [apply safe_put_request; [destruct Hi; lia|done]|].
  intros [e|]; [done|]. eapply within_mono; [|by apply safe_SendAcquired]. done.
Qed.

Lemma safe_SendToSlot slotIdx data sz ty out t :
  (∀ d, data = Some d → abs_u32 sz <= Z.of_nat (length d)) →
  safe (SendToSlot A fuel slotIdx data sz ty out t) (λ _, True).
Proof using HA.
  intros Hd. unfold SendToSlot. eapply within_bind; [by apply safe_AcquireSpecificSlot|].
  intros idx Hi. by apply safe_send_on.
Qed.

Lemma safe_zc_session cached req flat sz ty t :
  0 <= cached → safe (zc_session A fuel cached req flat sz ty t) (λ _, True).
Proof using HA.
  intros Hc. unfold zc_session. eapply within_bind; [by apply safe_acquire_handle|].
  intros [h c] Hh. apply within_seq; [by apply safe_zc_fill|]. intros [].
  apply (within_bind _ _ _ (λ r, handle_ok A r.2)).
  - destruct flat; [by apply safe_zc_SendFlatBuffer|by apply safe_zc_Send].
  - intros [r h'] Hh'. by apply safe_zc_destroy.
Qed.

Lemma safe_held_session cached txs :
  0 <= cached → safe (held_session A fuel cached txs) (λ _, True).
Proof using HA.
  intros Hc. unfold held_session. eapply within_bind; [by apply safe_acquire_handle|].
  intros [h c] Hh. cbn [fst] in Hh. eapply (within_bind _ _ _ (handle_ok A)).
  - revert h Hh. induction txs as [|[[[req sz] ty] t] txs IH]; intros h Hh; cbn [foldr]; [done|].
    apply within_seq; [by apply safe_zc_fill|]. intros [].
    eapply within_bind; [by apply safe_held_Send|]. intros [r h'] Hh'. by apply IH.
  - intros h' Hh'. eapply within_bind; [by apply safe_held_Release|]. done.
Qed.

Lemma safe_perform c : client_ok c → safe (perform A fuel c) (λ _, True).
Proof using HA.
  intros Hc. destruct c as [c|slotIdx d sz ty t|cached d sz ty t| |cached req flat sz ty t|cached txs];
    cbn [perform].
  - by apply safe_invoke.
  - apply within_seq; [by apply safe_SendToSlot|done].
  - apply within_seq; [|done]. unfold host_Send.
    eapply within_bind; [apply safe_AcquireSlot; [done|apply u32_range]|].
    intros [idx c] [Hi _]. apply within_seq; [by apply safe_send_on|done].
  - unfold SendShutdown. apply within_seq; [eauto with within|]. intros run.
    destruct (negb run); [done|]. apply within_seq; [|done].
    apply (within_for _ _ _ _ _ (λ _, True)); [done| |done]. intros j [] _ _.
    apply within_seq; [by apply safe_SendToSlot|done].
  - apply safe_zc_session, u32_range.
  - apply safe_held_session, u32_range.
Qed.
End clients.

(** Client threads on any well-formed allocator, interleaved with a hostile guest,
    do not fault; [HostApi.host_api_safe] is this for a host that [Init] made. *)
Theorem clients_never_fault A fuel threads w w' ps p :
  alloc_ok A → world_ok A w → Forall (Forall client_ok) threads →
  rtc (pool_step any_guest) (w, map (client_thread A fuel) threads) (w', ps) →
  p ∈ ps → ¬ faulty w' p.
Proof.
  intros HA Hw Hok Hr Hp. refine (safe_pool A _ w w' ps p _ Hw Hr Hp). apply Forall_map.
  eapply Forall_impl; [exact Hok|]. intros cs Hcs.
  induction Hcs as [|c cs Hc _ IH]; [done|]. cbn [client_thread foldr].
  apply within_seq; [by apply safe_perform|]. done.
Qed.

Definition ex_clients : list (list client) :=
  [[KSend 0 (Some [Byte.x61]) 1 NORMAL 10; KZeroCopy 0 [Byte.x62] false 1 NORMAL 10];
   [KHeld 0 [([Byte.x63], 1, NORMAL, 10)]]].

Lemma clients_never_fault_witness :
  let c := run (replicate 9 (Run 0 ex_ext) ++ replicate 4 (Run 1 ex_ext))
             (ex_world, map (client_thread ex_alloc 5) ex_clients) in
  ¬ faulty c.1 (default Fault (c.2 !! 0%nat)).
Proof.
  apply (clients_never_fault ex_alloc 5 ex_clients ex_world _
    (run (replicate 9 (Run 0 ex_ext) ++ replicate 4 (Run 1 ex_ext))
       (ex_world, map (client_thread ex_alloc 5) ex_clients)).2).
  - apply ex_alloc_ok.
  - apply ex_world_ok.
  - repeat constructor. by intros d [= <-].
  - apply (run_pool any_guest). repeat constructor.
  - apply (list_elem_of_lookup_2 _ 0). reflexivity.
Defined.

(** ** A zero-copy slot is not robbed *)

(** Reading the response in place: the pointer, the size, the bytes. *)
Definition zc_read (A : Allocator) (h : SlotHandle) : prog (list byte) :=
  let* p := zc_GetRespBuffer A h in
  let* n := zc_GetRespSize A h in
  match p with
  | Some (b, off) => call (CopyOut b off n)
  | None => Ret []
  end.

(** The life of a handle on an acquired slot: request written, sent, response
    read in place, handle destroyed. *)
Definition zc_use (A : Allocator) (fuel : nat) (h : SlotHandle) (req : list byte) (flat : bool)
    (size : Z) (ty : MsgType) (t : Z) : prog ResultVoid.t :=
  zc_fill A h req ;;;
  let* (r, h) := (if flat then zc_SendFlatBuffer A fuel h size t
                  else zc_Send A fuel h size ty t) in
  let* _ := zc_read A h in
  zc_destroy A h ;;;
  Ret r.

Section zc_rob.
Context (A : Allocator) (fuel : nat) (i : nat) (si : SlotInfo) (h : SlotHandle).
Context (Hidx : hd_slotIdx h = Z.of_nat i) (Hs : slots A !! i = Some si).

Local Abbreviation follows p s Q := (obeys false (Rob.mon i) p s Q).

(** The owner holds the slot, before or after its transaction. *)
Definition holds (s : Rob.role) : Prop :=
  s = Rob.Owner Rob.PBusy ∨ s = Rob.Owner Rob.PDone.

Lemma holds_quiet {X} (p : prog X) s Q :
  holds s → within (Rob.quiet_ops i) p (λ _, True) → (∀ x, Q x s) → follows p s Q.
Proof. intros [-> | ->] Hp HQ; by apply Rob.quiet_follows. Qed.

Lemma weak_alive_follows h' s (Q : bool → Rob.role → Prop) :
  (∃ p, s = Rob.Owner p) → (∀ b, Q b s) → follows (weak_alive h') s Q.
Proof. intros [p ->] HQ r. by destruct p; apply HQ. Qed.

Lemma handle_IsValid_follows h' s (Q : bool → Rob.role → Prop) :
  (∃ p, s = Rob.Owner p) → (∀ b, (b = true → 0 <= hd_slotIdx h') → Q b s) →
  follows (handle_IsValid h') s Q.
Proof.
  intros Hp HQ. apply obeys_bind, weak_alive_follows; [done|]. intros b. apply HQ.
  rewrite !andb_true_iff, Z.leb_le. by intros [_ ?].
Qed.

(** A method guarded by [IsValid] on a handle that owns the slot or nothing. *)
Lemma if_valid_follows {X} h' (r : prog X) (f : nat → SlotInfo → prog X) s Q :
  (∃ p, s = Rob.Owner p) → hd_slotIdx h' = hd_slotIdx h ∨ hd_slotIdx h' = -1 →
  follows r s Q → (hd_slotIdx h' = hd_slotIdx h → follows (f i si) s Q) →
  follows (let* ok := handle_IsValid h' in
           if negb ok then r else with_slot A (hd_slotIdx h') f) s Q.
Proof using Hidx Hs.
  intros Hp Hh Hr Hf. apply obeys_bind, handle_IsValid_follows; [done|].
  intros [] Hv; cbn [negb]; [|done]. destruct Hh as [E|E]; [|rewrite E in Hv; lia].
  unfold with_slot. rewrite E, Hidx, Nat2Z.id, Hs. by apply Hf.
Qed.

(** What a send leaves: the slot and its handle, or neither. *)
Definition after_send (h' : SlotHandle) (s : Rob.role) : Prop :=
  (hd_slotIdx h' = hd_slotIdx h ∧ holds s) ∨ (hd_slotIdx h' = -1 ∧ s = Rob.Owner Rob.POut).

Lemma zc_transact_follows sz ty t :
  follows (zc_transact A fuel h i si sz ty t) (Rob.Owner Rob.PBusy) (λ r s, after_send r.2 s).
Proof.
  unfold zc_transact. apply Rob.stays_bind; [done|apply Rob.quiet_write_request|]. intros seq.
  unfold WaitResponse. do 2 apply obeys_bind. apply Rob.publish_request_follows. intros _.
  apply Rob.stays_bind; [done|apply Rob.quiet_WaitForRespReady|]. intros ready.
  apply obeys_bind, Rob.FinishWait_follows. cbn [obeys].
  destruct ready; cbn [negb]; [|by right].
  apply obeys_bind. eapply obeys_mono, Rob.check_response_follows.
  intros [e|] s' ->; [by right|by left; split; [|right]].
Qed.

Lemma zc_send_follows (flat : bool) sz ty t :
  follows (if flat then zc_SendFlatBuffer A fuel h sz t else zc_Send A fuel h sz ty t)
    (Rob.Owner Rob.PBusy) (λ r s, after_send r.2 s).
Proof using Hidx Hs.
  assert (after_send h (Rob.Owner Rob.PBusy)) by (by left; split; [|left]).
  destruct flat; (apply if_valid_follows; [by eexists|by left|done|intros _]);
    (destruct (_ <? _); [done|apply zc_transact_follows]).
Qed.

Lemma zc_fill_follows req Q :
  Q tt (Rob.Owner Rob.PBusy) → follows (zc_fill A h req) (Rob.Owner Rob.PBusy) Q.
Proof using Hidx Hs.
  intros HQ. assert (∃ p, Rob.Owner Rob.PBusy = Rob.Owner p) by by eexists.
  unfold zc_fill. apply obeys_bind, if_valid_follows; [done|by left| |intros _].
  all: apply obeys_bind, if_valid_follows; [done|by left|exact HQ|intros _].
  all: cbn [obeys]; destruct (_ <=? _); [|exact HQ].
  all: intros []; exact HQ.
Qed.

Lemma zc_destroy_follows h' s :
  after_send h' s → follows (zc_destroy A h') s (λ _ _, True).
Proof using Hidx Hs.
  intros Ha. unfold zc_destroy. apply obeys_bind, weak_alive_follows.
  { destruct Ha as [[_ [-> | ->]]|[_ ->]]; by eexists. }
  intros []; [|done]. destruct (_ && _) eqn:E; [|done].
  apply andb_true_iff in E as [_ E%Z.leb_le].
  destruct Ha as [[Hi Hh]|[Hi _]]; [|rewrite Hi in E; lia].
  unfold with_slot. rewrite Hi, Hidx, Nat2Z.id, Hs.
  destruct Hh as [-> | ->]; apply Rob.release_follows; auto.
Qed.

Lemma zc_use_follows req flat sz ty t :
  follows (zc_use A fuel h req flat sz ty t) (Rob.Owner Rob.PBusy) (λ _ _, True).
Proof using Hidx Hs.
  unfold zc_use. apply obeys_bind, zc_fill_follows. apply obeys_bind.
  eapply obeys_mono, zc_send_follows. intros [r h'] s Ha. cbn [snd] in Ha.
  assert (Hp : ∃ p, s = Rob.Owner p) by (destruct Ha as [[_ [-> | ->]]|[_ ->]]; by eexists).
  assert (Hh : hd_slotIdx h' = hd_slotIdx h ∨ hd_slotIdx h' = -1) by (destruct Ha; naive_solver).
  assert (Hq : ∀ X (p : prog X) Q, hd_slotIdx h' = hd_slotIdx h →
    within (Rob.quiet_ops i) p (λ _, True) → (∀ x, Q x s) → follows p s Q).
  { intros X p Q E. apply holds_quiet. destruct Ha as [[_ ?]|[E' _]]; [done|lia]. }
  apply obeys_bind. apply (obeys_mono _ _ _ _ (λ _ s', s' = s)).
  { intros _ s' ->. apply obeys_bind. by eapply obeys_mono, zc_destroy_follows, Ha. }
  unfold zc_read. apply obeys_bind. apply (obeys_mono _ _ _ _ (λ p s', s' = s ∧
    (p = None ∨ hd_slotIdx h' = hd_slotIdx h))); cycle 1.
  { apply if_valid_follows; [done|done|by split; [|left]|]. intros E.
    apply Hq; [done|unfold load_i32, load; within_walk ltac:(reflexivity)|].
    intros x. auto. }
  intros p s' [-> Hn]. apply obeys_bind. apply (obeys_mono _ _ _ _ (λ _ s', s' = s)); cycle 1.
  { apply if_valid_follows; [done|done|done|]. intros E.
    by apply Hq; [|unfold read_resp_size, load_i32, load; within_walk ltac:(reflexivity)|]. }
  intros n s' ->. destruct p as [[b off]|]; [|done]. destruct Hn as [|E]; [done|].
  apply Hq; [done|within_walk ltac:(reflexivity)|done].
Qed.
End zc_rob.

(** C16: a zero-copy slot is not robbed.  A thread holds a handle on a slot it has
    acquired, writes a request into it, sends it (as bytes or as a flatbuffer),
    reads the response in place and destroys the handle, whatever happens on the
    way: refused sizes, time-outs, violations, a shutdown of the host.  Other
    threads try to claim the slot: they call [tryClaimSlot] after the acquisition,
    or called it before and have only read so far, the generation included, as it
    was before the acquisition advanced it ([begun]).  The guest moves the slot
    only along the request/response cycle, [SLOT_GUEST_BUSY] and [SLOT_DONE]
    included, and the generation does not wrap.  In every interleaving, when a
    claim has succeeded the owner does not touch the slot any more; in particular
    a handle that lost its slot does not release it again.  Claimers that have
    already won their generation when the slot is acquired, or read it between the
    two compare-and-swaps of the acquirer, are excluded: they can rob the slot
    ([SlotProtocol.late_reader_robs]). *)
Theorem zero_copy_not_robbed A fuel h i si req flat size ty t qs w w' p0 ps j :
  hd_slotIdx h = Z.of_nat i → slots A !! i = Some si → mem w (LSlot i F_state) = SLOT_BUSY →
  0 <= mem w (LSlot i F_gen) < 2 ^ 63 → Z.of_nat (length qs) < 2 ^ 63 - 1 →
  Forall (begun i (mem w (LSlot i F_gen))) qs →
  rtc (pool_step (Rob.guest i))
    (w, (let* r := zc_use A fuel h req flat size ty t in Ret (inl r)) :: qs) (w', p0 :: ps) →
  ps !! j = Some (Ret (inr true)) → off_slot i p0.
Proof. intros Hi Hs Hw Hg Hn Hqs. apply not_robbed; [|done..]. by eapply zc_use_follows. Qed.

(** A claimer that saw the slot abandoned before it was acquired loses; the owner
    sends, gives up and destroys the handle; then a claimer takes the slot. *)
Definition zc_early : prog (ResultVoid.t + bool) :=
  read1 ex_zombie (read1 ex_zombie (read1 ex_zombie (claim_thread 0))).

Lemma zero_copy_not_robbed_witness :
  let w := set_mem ex_acquired L_sharedState 1 in
  let c := run (map (λ k, Run 0 (mkExt (k * 100000000) true 0 [])) (seqZ 0 14) ++
                replicate 20 (Run 1 ex_ext) ++
                map (λ k, Run 0 (mkExt (k * 100000000) true 0 [])) (seqZ 14 20) ++
                replicate 20 (Run 2 ex_ext))
             (w, [(let* r := zc_use ex_alloc 5 (mkHandle true 0 1) [] false 5 NORMAL 10 in Ret (inl r));
                  zc_early; claim_thread 0]) in
  c.2 !! 1%nat = Some (Ret (inr false)) ∧
  c.2 !! 2%nat = Some (Ret (inr true)) ∧ off_slot 0 (default Fault (c.2 !! 0%nat)).
Proof.
  intros w c. split; [reflexivity|]. split; [reflexivity|].
  apply (zero_copy_not_robbed ex_alloc 5 (mkHandle true 0 1) 0 (mkSlot 64 64 1 2) [] false 5 NORMAL 10
           [zc_early; claim_thread 0] w c.1 _ (tail c.2) 1%nat);
    [reflexivity|reflexivity|reflexivity|by split|reflexivity| | |reflexivity].
  - constructor; [|constructor; [apply begun_call|constructor]].
    repeat (apply begun_read1; [reflexivity|]). apply begun_call.
  - change (_ :: tail c.2) with c.2. apply (run_pool (Rob.guest 0)). repeat constructor.
Defined.

(** ** Reading a response in place fetches its size twice *)

(** The response announced as 10 bytes at the end of the area. *)
Definition fetch_world : World :=
  set_mem (set_mem ex_claimed L_sharedState 1) (LSlot 0 F_respSize) (-10).

Definition fetch_acts : list act :=
  replicate 2 (Run 0 ex_ext) ++ [Env (LSlot 0 F_respSize) 64] ++ replicate 2 (Run 0 ex_ext).

Definition fetch_end :=
  run fetch_acts (fetch_world, [zc_read ex_alloc (mkHandle true 0 1)]).

(** C34: a hostile guest can make an in-place read leave the response area.
    [GetRespBuffer] and [GetRespSize] each clamp the size they read, but they read
    it independently: a guest that changes [respSize] in between obtains an offset
    from one value and a length from another, and the client, which uses the
    handle as intended, reads past the end of the area. *)
Theorem zero_copy_double_fetch :
  alloc_ok ex_alloc ∧ world_ok ex_alloc fetch_world ∧
  rtc (pool_step any_guest) (fetch_world, [zc_read ex_alloc (mkHandle true 0 1)])
    (fetch_end.1, fetch_end.2) ∧
  faulty fetch_end.1 (default (Ret []) (fetch_end.2 !! 0%nat)).
Proof.
  split; [apply ex_alloc_ok|]. split; [apply ex_world_ok|].
  split; [apply (run_pool any_guest); repeat constructor|].
  eapply (faulty_op _ _ _ _ ex_ext). reflexivity.
Qed.
