(* ===== verification/HostApi.v ===== *)
(** * HostApi: the public methods of [DirectHost] (include/shm/DirectHost.h)

    [DirectHost] owns the allocator and the guest-call worker and forwards to them.
    Each public method is a definition on a [Host]; the methods that have a body of
    their own ([Init], [Shutdown], [Send], the handles) are in [DirectHost] and
    [SlotHandles].

    The theorem composes the life cycle with the methods: on a host that [Init]
    made, no use of the interface reaches undefined behaviour. *)

From S2P Require Export SlotHandles.

Local Open Scope Z_scope.

(** ** Slots *)

Section api.
Context (h : Host) (fuel : nat).

(** [cached] is the thread-local slot index. *)
Definition host_AcquireSlot (cached : Z) : prog (Z * Z) := AcquireSlot (allocator h) fuel cached.

Definition host_TryAcquireSlot : prog Z := TryAcquireSlot (allocator h).

Definition host_AcquireSpecificSlot (slotIdx timeoutMs : Z) : prog Z :=
  AcquireSpecificSlot (allocator h) fuel slotIdx timeoutMs.

Definition host_GetAutoReclaimTimeoutNs : prog Z := GetAutoReclaimTimeoutNs.

Definition host_TryReclaimAbandonedSlot (slotIdx maxLeaseAgeNs : Z) : prog bool :=
  TryReclaimAbandonedSlot (allocator h) slotIdx maxLeaseAgeNs.

Definition host_GetReqBuffer (slotIdx : Z) : option buffer := GetReqBuffer (allocator h) slotIdx.

Definition host_GetMaxReqSize (slotIdx : Z) : prog Z := GetMaxReqSize (allocator h) slotIdx.

Definition host_SignalSlot (slotIdx : Z) : prog unit := SignalSlot (allocator h) slotIdx.

Definition host_WaitForSlotEvent (slotIdx timeoutMs : Z) : prog bool :=
  WaitForSlotEvent (allocator h) slotIdx timeoutMs.

Definition host_SendAcquiredAsync (slotIdx size : Z) (ty : MsgType) : prog ResultVoid.t :=
  SendAcquiredAsync (allocator h) slotIdx size ty.

Definition host_WaitForSlot (slotIdx : Z) (outResp : list byte) (timeoutMs : Z) : prog response :=
  WaitForSlot (allocator h) fuel slotIdx outResp timeoutMs.

Definition host_SendAcquired (slotIdx size : Z) (ty : MsgType) (outResp : list byte)
    (timeoutMs : Z) : prog response :=
  SendAcquired (allocator h) fuel slotIdx size ty outResp timeoutMs.

(** ** Guest calls *)

(** Whether a worker thread was started. *)
Definition host_Start : prog bool := Start (allocator h).

Definition host_Stop : prog unit := Stop (allocator h).

Definition host_ProcessGuestCalls (limit : Z) : prog Z := ProcessGuestCalls (allocator h) limit.

(** [spin_] is the member of the worker that [Init] set. *)
Definition host_WaitForGuestCall (spin_ : bool) (timeoutMs : Z) : prog bool :=
  WaitForRequest (allocator h) spin_ timeoutMs.

Definition host_WakeGuestCallWaiter : prog unit := WakeWaiter (allocator h).
End api.

(** ** Life cycle *)

(** The deprecated overload. *)
Definition Init_deprecated (os : OsAnswers) (numHostSlots payloadSize numGuestSlots : Z)
    (h : Host) (w : World) : ResultVoid.t * Host * World :=
  Init os (mkHostConfig numHostSlots payloadSize numGuestSlots) h w.

(** [payloadSize] and [numGuestSlots] when the caller leaves them out. *)
Definition default_payloadSize : Z := 1024 * 1024.
Definition default_numGuestSlots : Z := 0.

Definition host_destroy (h : Host) : prog Host := Shutdown h.

(** ** Use of the interface *)

Inductive host_call : Type :=
  | HAcquireSlot (cached : Z)
  | HTryAcquireSlot
  | HAcquireSpecificSlot (slotIdx timeoutMs : Z)
  | HSetAutoReclaimTimeoutNs (timeoutNs : Z)
  | HGetAutoReclaimTimeoutNs
  | HTryReclaimAbandonedSlot (slotIdx maxLeaseAgeNs : Z)
  | HGetMaxReqSize (slotIdx : Z)
  | HSignalSlot (slotIdx : Z)
  | HWaitForSlotEvent (slotIdx timeoutMs : Z)
  | HSendAcquiredAsync (slotIdx size : Z) (ty : MsgType)
  | HWaitForSlot (slotIdx timeoutMs : Z)
  | HSendAcquired (slotIdx size : Z) (ty : MsgType) (timeoutMs : Z)
  | HSendToSlot (slotIdx : Z) (data : option (list byte)) (size : Z) (ty : MsgType) (t : Z)
  | HSend (cached : Z) (data : option (list byte)) (size : Z) (ty : MsgType) (t : Z)
  | HSendShutdown
  | HZeroCopy (cached : Z) (req : list byte) (flat : bool) (size : Z) (ty : MsgType) (t : Z)
  | HHeld (cached : Z) (txs : list (list byte * Z * MsgType * Z))
  | HStart
  | HWorkerThread (spin_ : bool) (maxBatchSize : Z)
  | HStop
  | HProcessGuestCalls (limit : Z)
  | HWaitForGuestCall (spin_ : bool) (timeoutMs : Z)
  | HWakeGuestCallWaiter.

Definition ignore {X} (p : prog X) : prog unit := let* _ := p in Ret tt.

Definition host_perform (h : Host) (fuel : nat) (c : host_call) : prog unit :=
  match c with
  | HAcquireSlot cached => ignore (host_AcquireSlot h fuel (u32 cached))
  | HTryAcquireSlot => ignore (host_TryAcquireSlot h)
  | HAcquireSpecificSlot idx t => ignore (host_AcquireSpecificSlot h fuel idx t)
  | HSetAutoReclaimTimeoutNs ns => host_SetAutoReclaimTimeoutNs h ns
  | HGetAutoReclaimTimeoutNs => ignore host_GetAutoReclaimTimeoutNs
  | HTryReclaimAbandonedSlot idx age => ignore (host_TryReclaimAbandonedSlot h idx age)
  | HGetMaxReqSize idx => ignore (host_GetMaxReqSize h idx)
  | HSignalSlot idx => host_SignalSlot h idx
  | HWaitForSlotEvent idx t => ignore (host_WaitForSlotEvent h idx t)
  | HSendAcquiredAsync idx size ty => ignore (host_SendAcquiredAsync h idx size ty)
  | HWaitForSlot idx t => ignore (host_WaitForSlot h fuel idx [] t)
  | HSendAcquired idx size ty t => ignore (host_SendAcquired h fuel idx size ty [] t)
  | HSendToSlot idx data size ty t => ignore (SendToSlot (allocator h) fuel (u32 idx) data size ty [] t)
  | HSend cached data size ty t => ignore (host_Send (allocator h) fuel (u32 cached) data size ty [] t)
  | HSendShutdown => SendShutdown (allocator h) fuel
  | HZeroCopy cached req flat size ty t => zc_session (allocator h) fuel (u32 cached) req flat size ty t
  | HHeld cached txs => held_session (allocator h) fuel (u32 cached) txs
  | HStart => ignore (host_Start h)
  | HWorkerThread spin_ n => GuestWorkerLoop (allocator h) fuel spin_ n
  | HStop => host_Stop h
  | HProcessGuestCalls limit => ignore (host_ProcessGuestCalls h limit)
  | HWaitForGuestCall spin_ t => ignore (host_WaitForGuestCall h spin_ t)
  | HWakeGuestCallWaiter => host_WakeGuestCallWaiter h
  end.

(** The memory a caller passes in is as long as it says. *)
Definition host_call_ok (c : host_call) : Prop :=
  match c with
  | HSendToSlot _ data size _ _ | HSend _ data size _ _ =>
      ∀ d, data = Some d → abs_u32 size <= Z.of_nat (length d)
  | _ => True
  end.

Definition host_thread (h : Host) (fuel : nat) (cs : list host_call) : prog unit :=
  foldr (λ c p, host_perform h fuel c ;;; p) (Ret tt) cs.

Lemma safe_host_perform h fuel c :
  alloc_ok (allocator h) → shmBase h = true → mapped h = true → host_call_ok c →
  safe (allocator h) (host_perform h fuel c) (λ _, True).
Proof.
  intros HA Hb Hm Hc. pose proof (λ k Hk, safe_perform _ fuel HA k Hk) as Hp.
  pose proof (λ k, safe_invoke _ fuel k HA) as Hi.
  destruct c as [cached| |idx t|ns| |idx age|idx|idx|idx t|idx size ty|idx t|idx size ty t
    |idx data size ty t|cached data size ty t| |cached req flat size ty t|cached txs| |sp n| |limit
    |sp t|]; cbn [host_perform].
  - exact (Hi (CAcquireSlot cached)).
  - exact (Hi CTryAcquireSlot).
  - exact (Hi (CAcquireSpecificSlot idx t)).
  - unfold host_SetAutoReclaimTimeoutNs. rewrite Hb, Hm.
    apply within_seq; [exact (Hi (CSetAutoReclaimTimeoutNs ns))|]. intros _. safe_walk.
  - unfold ignore, host_GetAutoReclaimTimeoutNs, GetAutoReclaimTimeoutNs. safe_walk.
  - exact (Hi (CTryReclaimAbandonedSlot idx age)).
  - unfold ignore, host_GetMaxReqSize, GetMaxReqSize. apply within_seq; [|done].
    destruct (bad_index _ _) eqn:E; [done|]. apply within_with_slot; [by eapply good_index|done].
  - exact (Hi (CSignalSlot idx)).
  - exact (Hi (CWaitForSlotEvent idx t)).
  - exact (Hi (CSendAcquiredAsync idx size ty)).
  - exact (Hi (CWaitForSlot idx t)).
  - exact (Hi (CSendAcquired idx size ty t)).
  - exact (Hp (KSendToSlot idx data size ty t) Hc).
  - exact (Hp (KSend cached data size ty t) Hc).
  - exact (Hp KSendShutdown I).
  - exact (Hp (KZeroCopy cached req flat size ty t) I).
  - exact (Hp (KHeld cached txs) I).
  - unfold ignore, host_Start, Start. apply within_seq; [|done].
    destruct (_ =? 0); [done|]. safe_walk.
  - exact (Hi (CGuestWorkerLoop sp n)).
  - exact (Hi CStop).
  - exact (Hi (CProcessGuestCalls limit)).
  - exact (Hi (CWaitForRequest sp t)).
  - exact (Hi CWakeWaiter).
Qed.

(** C7: memory safety of the host interface.  [Init] reports success for a
    configuration with at least one host slot; then any number of threads perform
    any sequences of [DirectHost] calls with any arguments: copying sends,
    zero-copy sessions (acquire, fill, send, destroy), held-slot sessions, shutdown
    broadcasts, the raw slot interface in any order, guest-call processing and
    the reclaim policy, on a host that stays mapped; the memory that a caller
    passes is as long as it says.  (Reading a zero-copy response in place is not
    among the calls: see [zc_read].)  Interleaved with a guest that overwrites any
    shared field and any byte of an area at any time, no thread reaches undefined
    behaviour. *)
Theorem host_api_safe os cfg h0 w0 h w fuel threads w' ps p :
  config_range cfg → 0 < numHostSlots cfg →
  Init os cfg h0 w0 = (ResultVoid.Success, h, w) → Forall (Forall host_call_ok) threads →
  rtc (pool_step any_guest) (w, map (host_thread h fuel) threads) (w', ps) →
  p ∈ ps → ¬ faulty w' p.
Proof.
  intros Hc Hn HI Hok Hr Hp.
  destruct (Init_wf _ _ _ _ _ _ Hc Hn HI) as (HA&_&Hw&_&_&_&_&Hb&Hm).
  refine (safe_pool (allocator h) _ w w' ps p _ Hw Hr Hp). apply Forall_map.
  eapply Forall_impl; [exact Hok|]. intros cs Hcs.
  induction Hcs as [|c cs Hc' _ IH]; [done|]. cbn [host_thread foldr].
  apply within_seq; [by apply safe_host_perform|]. done.
Qed.

Definition ex_host_threads : list (list host_call) :=
  [[HSend 0 (Some [Byte.x61]) 1 NORMAL 10; HZeroCopy 0 [Byte.x62] false 1 NORMAL 10];
   [HHeld 0 [([Byte.x63], 1, NORMAL, 10)]; HSetAutoReclaimTimeoutNs 5]].

Lemma host_api_safe_witness :
  let c := run (replicate 9 (Run 0 ex_ext) ++ replicate 4 (Run 1 ex_ext))
             (ex_host_world, map (host_thread ex_host 5) ex_host_threads) in
  ¬ faulty c.1 (default Fault (c.2 !! 0%nat)).
Proof.
  apply (host_api_safe ex_os ex_config new_host blank_world ex_host ex_host_world 5 ex_host_threads _
    (run (replicate 9 (Run 0 ex_ext) ++ replicate 4 (Run 1 ex_ext))
       (ex_host_world, map (host_thread ex_host 5) ex_host_threads)).2).
  - by unfold config_range.
  - done.
  - reflexivity.
  - repeat constructor. by intros d [= <-].
  - apply (run_pool any_guest). repeat constructor.
  - apply (list_elem_of_lookup_2 _ 0). reflexivity.
Defined.
