(* ===== verification/RingBuffer.v ===== *)
(** * RingBuffer (include/shm/RingBuffer.h)

    A single-producer ring in the request area of a slot: [RingBufferSender::Init]
    and [Write].  The two offsets at the start of the area are the locations
    [L_writeOffset] and [L_readOffset]; the data region begins behind them, at
    [sizeof_RingBufferHeader], so a write to the region never reaches them.

    The consumer is the environment: it may advance [readOffset] up to
    [writeOffset] at any time and changes nothing else. *)

From S2P Require Export SlotAllocator StreamSender.

Local Open Scope Z_scope.

Definition sizeof_RingBufferHeader : Z := Eval vm_compute in
  Z.of_nat (Layout.sizeof Structs.RingBufferHeader_struct).

Record RingBufferSender : Type := mkRing {
  rb_slotIdx : Z; rb_capacity : Z; rb_initialized : bool }.

Section methods.
Context (A : Allocator) (fuel : nat).

Definition rb_Init (host_ok : bool) (s : RingBufferSender)
    : prog (ResultVoid.t * RingBufferSender) :=
  if negb host_ok then Ret (ResultVoid.Failure InvalidArgs, s)
  else
    let* maxReq := GetMaxReqSize A (rb_slotIdx s) in
    if u64 maxReq <? sizeof_RingBufferHeader + 1024 then Ret (ResultVoid.Failure BufferTooSmall, s)
    else
      let capacity := u32 (u64 maxReq - sizeof_RingBufferHeader) in
      match GetReqBuffer A (rb_slotIdx s) with
      | None => Fault
      | Some _ =>
          call (Store L_writeOffset 0) ;;;
          call (Store L_readOffset 0) ;;;
          Ret (ResultVoid.Success, mkRing (rb_slotIdx s) capacity true)
      end.

(** One round of the loop of [Write]; [rest] are the bytes from [src] on. *)
Definition rb_round (s : RingBufferSender) (rest : list byte) : prog (list byte + unit) :=
  let remaining := Z.of_nat (length rest) in
  if 0 <? remaining then
    let* w := call (Load L_writeOffset) in
    let* r := call (Load L_readOffset) in
    let usage := u64 (w - r) in
    if rb_capacity s <=? usage then call Pause ;;; Ret (inl rest)
    else
      let available := u32 (rb_capacity s - u32 usage) in
      let toWrite := if remaining <? available then remaining else available in
      let writeIdx := u32 (w mod rb_capacity s) in
      let contiguous := u32 (rb_capacity s - writeIdx) in
      let chunk := if toWrite <? contiguous then toWrite else contiguous in
      let now := take (Z.to_nat toWrite) rest in
      write_req A (rb_slotIdx s) (sizeof_RingBufferHeader + writeIdx) (take (Z.to_nat chunk) now) ;;;
      (if chunk <? toWrite
       then write_req A (rb_slotIdx s) sizeof_RingBufferHeader (drop (Z.to_nat chunk) now)
       else Ret tt) ;;;
      call (Store L_writeOffset (u64 (w + toWrite))) ;;;
      SignalSlot A (rb_slotIdx s) ;;;
      Ret (inl (drop (Z.to_nat toWrite) rest))
  else Ret (inr tt).

Definition rb_Write (s : RingBufferSender) (data : list byte) : prog ResultVoid.t :=
  if negb (rb_initialized s) then Ret (ResultVoid.Failure InvalidArgs)
  else
    let* _ := loop fuel (rb_round s) data in Ret ResultVoid.Success.
End methods.

(** ** The ring as a queue *)

(** [get] reads the data region. *)
Definition ring_byte (w : World) (i : nat) (cap k : Z) : option byte :=
  bytes w (BReq i) !! Z.to_nat (sizeof_RingBufferHeader + k mod cap).

(** Stream positions [a, b) are in the ring, at their places. *)
Definition ring_segment (w : World) (i : nat) (cap a b : Z) (h : list byte) : Prop :=
  ∀ k, a <= k < b → ring_byte w i cap k = h !! Z.to_nat k.

(** Everything that was ever written is [h]; what is unread is in the ring. *)
Record ring_holds (w : World) (i : nat) (cap : Z) (h : list byte) : Prop := {
  rh_write : mem w L_writeOffset = Z.of_nat (length h);
  rh_read : 0 <= mem w L_readOffset <= Z.of_nat (length h);
  rh_cap : Z.of_nat (length h) <= mem w L_readOffset + cap;
  rh_room : sizeof_RingBufferHeader + cap <= Z.of_nat (length (bytes w (BReq i)));
  rh_data : ring_segment w i cap (mem w L_readOffset) (Z.of_nat (length h)) h }.

Definition consumer (i : nat) (w w' : World) : Prop :=
  bytes w' (BReq i) = bytes w (BReq i) ∧ mem w' L_writeOffset = mem w L_writeOffset ∧
  mem w L_readOffset <= mem w' L_readOffset <= mem w L_writeOffset.

(** *** The producer's protocol *)

Module Ring.
Section ring.
Context (i : nat) (cap : Z) (start : nat) (goal : list byte).

(** Committed bytes, bytes copied but not committed, the read offset last seen. *)
Record st : Type := mkSt { s_hist : list byte; s_pend : list byte; s_seen : Z }.

Definition pos (s : st) : Z := Z.of_nat (length (s_hist s ++ s_pend s)).

Definition mon : monitor st := λ s X o,
  match o in op X return X → verdict_of st with
  | Load L_writeOffset => λ r, if r =? Z.of_nat (length (s_hist s)) then Next s else Impossible
  | Load L_readOffset => λ r,
      if (s_seen s <=? r) && (r <=? Z.of_nat (length (s_hist s)))
      then Next (mkSt (s_hist s) (s_pend s) r) else Impossible
  | CopyIn b off bs => λ _,
      let n := Z.of_nat (length bs) in
      if bool_decide (b = BReq i) && (off =? sizeof_RingBufferHeader + pos s mod cap)
         && (pos s mod cap + n <=? cap) && (pos s + n <=? s_seen s + cap)
         && bool_decide (s_hist s ++ s_pend s ++ bs `prefix_of` goal)
      then Next (mkSt (s_hist s) (s_pend s ++ bs) (s_seen s)) else Forbidden
  | Store L_writeOffset v => λ _,
      if v =? pos s then Next (mkSt (s_hist s ++ s_pend s) [] (s_seen s)) else Forbidden
  | Pause | SetEvent _ => λ _, Next s
  | _ => λ _, Forbidden
  end.

Definition inv (w : World) (ss : list st) : Prop :=
  ∃ s, ss = [s] ∧
    mem w L_writeOffset = Z.of_nat (length (s_hist s)) ∧
    0 <= s_seen s <= mem w L_readOffset ∧ mem w L_readOffset <= Z.of_nat (length (s_hist s)) ∧
    pos s <= s_seen s + cap ∧
    sizeof_RingBufferHeader + cap <= Z.of_nat (length (bytes w (BReq i))) ∧
    ring_segment w i cap (mem w L_readOffset) (pos s) (s_hist s ++ s_pend s) ∧
    s_hist s ++ s_pend s `prefix_of` goal ∧ (start ≤ length (s_hist s))%nat.

Hypothesis Hcap : 0 < cap.

Lemma ring_inv_env w w' ss : inv w ss → consumer i w w' → inv w' ss.
Proof using Hcap.
  intros (s&->&Hw&Hs&Hr&Hp&Hl&Hd&Hg&Hst) (Hb&Hw'&Hr'). exists s. rewrite Hw', Hb.
  split_and!; try done; try lia. intros k Hk. unfold ring_byte. rewrite Hb. apply Hd. lia.
Qed.

(** Two positions less than [cap] apart have different places. *)
Lemma mod_inj a b : a <= b < a + cap → a mod cap = b mod cap → a = b.
Proof using Hcap.
  intros Hab E. pose proof (Z.div_mod a cap ltac:(lia)). pose proof (Z.div_mod b cap ltac:(lia)).
  rewrite E in *. set (x := a / cap) in *. set (y := b / cap) in *.
  assert (y = x) as Hxy; [|rewrite Hxy in *; lia]. assert (cap * (y - x) = b - a) by lia. nia.
Qed.

Lemma mod_run p k n :
  p mod cap + n <= cap → p <= k < p + n → k mod cap = p mod cap + (k - p).
Proof using Hcap.
  intros Hn Hk. pose proof (Z.div_mod p cap ltac:(lia)). pose proof (Z.mod_pos_bound p cap Hcap).
  symmetry. apply (Z.mod_unique_pos _ _ (p / cap)); lia.
Qed.

(** The end of the region is its beginning. *)
Lemma mod_wrap p : (p + (cap - p mod cap)) mod cap = 0.
Proof using Hcap.
  symmetry. apply (Z.mod_unique_pos _ _ (p / cap + 1)); [lia|].
  pose proof (Z.div_mod p cap ltac:(lia)). lia.
Qed.

(** A copy behind the last position keeps the unread positions and adds its own. *)
Lemma segment_copy w w' a (h bs : list byte) :
  let p := Z.of_nat (length h) in
  let off := sizeof_RingBufferHeader + p mod cap in
  bytes w' (BReq i) = list_inserts (Z.to_nat off) bs (bytes w (BReq i)) →
  sizeof_RingBufferHeader + cap <= Z.of_nat (length (bytes w (BReq i))) →
  p mod cap + Z.of_nat (length bs) <= cap → p + Z.of_nat (length bs) <= a + cap → 0 <= a <= p →
  ring_segment w i cap a p h →
  ring_segment w' i cap a (p + Z.of_nat (length bs)) (h ++ bs).
Proof using Hcap.
  intros p off Hb Hl Hm Hc Ha Hd k Hk. unfold ring_byte. rewrite Hb.
  pose proof (Z.mod_pos_bound p cap Hcap). pose proof (Z.mod_pos_bound k cap Hcap).
  subst off. unfold sizeof_RingBufferHeader in *.
  destruct (Z.lt_ge_cases k p) as [Hlt|Hge].
  - rewrite lookup_app_l by lia. rewrite <- (Hd k) by lia. unfold ring_byte.
    destruct (Z.lt_ge_cases (k mod cap) (p mod cap)) as [?|Hge].
    { apply list_lookup_inserts_lt. unfold sizeof_RingBufferHeader. lia. }
    apply list_lookup_inserts_ge. unfold sizeof_RingBufferHeader.
    destruct (Z.lt_ge_cases (k mod cap) (p mod cap + Z.of_nat (length bs))); [|lia].
    exfalso. set (q := p + (k mod cap - p mod cap)).
    assert (k mod cap = q mod cap).
    { rewrite (mod_run p q (Z.of_nat (length bs))); unfold q; lia. }
    assert (k = q); [|unfold q in *; lia]. apply mod_inj; [unfold q; lia|done].
  - rewrite lookup_app_r by lia. rewrite (mod_run p k (Z.of_nat (length bs))) by lia.
    rewrite list_lookup_inserts by lia. f_equal. lia.
Qed.

Lemma ring_inv_step w ss j s X (o : op X) x r w' :
  inv w ss → ss !! j = Some s → exec x o w = Done r w' →
  match mon s X o r with
  | Next s' => inv w' (<[j := s']> ss)
  | Forbidden => True
  | Impossible => False
  end.
Proof using Hcap.
  intros (s0&->&Hw&Hs&Hr&Hp&Hl&Hd&Hg&Hst) Hj Hx.
  destruct j; [|done]. injection Hj as ->.
  assert (Hsame : mem w' = mem w → bytes w' = bytes w → inv w' [s]).
  { intros E1 E2. exists s. rewrite E1, E2. split_and!; try done; try lia.
    intros k Hk. unfold ring_byte. rewrite E2. by apply Hd. }
  destruct o as [l|l v| | | | |b off bs|ev| | | | |]; try done.
  - injection Hx as <- <-. destruct l; try done; cbn [mon].
    + rewrite (proj2 (Z.eqb_eq _ _)) by done. by apply Hsame.
    + rewrite !(proj2 (Z.leb_le _ _)) by lia. cbn [andb]. eexists. split; [done|].
      unfold pos in *. cbn [s_hist s_pend s_seen]. split_and!; try done; lia.
  - injection Hx as <- <-. destruct l; try done. cbn [mon].
    destruct (Z.eqb_spec v (pos s)) as [->|]; [|done]. eexists. split; [done|].
    unfold pos in *. cbn [s_hist s_pend s_seen set_mem mem bytes].
    rewrite upd_eq, upd_ne, !app_nil_r by done. rewrite length_app in *.
    split_and!; try done; lia.
  - cbn [mon]. destruct (_ && _) eqn:E; [|done]. rewrite !andb_true_iff, !bool_decide_eq_true in E.
    destruct E as ((((->&->%Z.eqb_eq)&Hm%Z.leb_le)&Hc%Z.leb_le)&Hpre).
    simpl in Hx. destruct (in_range _ _ _); [|done]. injection Hx as <- <-.
    eexists. split; [done|]. unfold pos. cbn [s_hist s_pend s_seen set_bytes mem bytes].
    rewrite upd_eq, length_inserts, app_assoc, (length_app (_ ++ _) bs), Nat2Z.inj_add.
    fold (pos s). split_and!; try done; try lia; [|by rewrite <- app_assoc].
    eapply segment_copy; [|done|done|unfold pos in *; lia|unfold pos in *; rewrite length_app in *; lia|done].
    cbn. by rewrite upd_eq.
  - injection Hx as <- <-. by apply Hsame.
  - injection Hx as <- <-. by apply Hsame.
Qed.

(** An operation that the protocol allows is defined. *)
Lemma allowed_defined w s X (o : op X) x :
  inv w [s] → exec x o w = Undef → ∃ r, mon s X o r = Forbidden.
Proof using Hcap.
  intros (s0&[= <-]&_&_&_&_&Hl&_) Hx.
  destruct o as [| | | | |b off n|b off bs| | | | | |]; try done; try (by exists inhabitant).
  exists tt. cbn [mon]. destruct (_ && _) eqn:E; [|done].
  rewrite !andb_true_iff, !bool_decide_eq_true in E.
  destruct E as ((((->&->%Z.eqb_eq)&Hm%Z.leb_le)&_)&_). simpl in Hx.
  pose proof (Z.mod_pos_bound (pos s) cap Hcap).
  assert (in_range (sizeof_RingBufferHeader + pos s mod cap) (Z.of_nat (length bs))
    (Z.of_nat (length (bytes w (BReq i)))) = true) as E; [|by rewrite E in Hx].
  unfold in_range, sizeof_RingBufferHeader in *. rewrite !andb_true_iff, !Z.leb_le. lia.
Qed.

(** *** [Write] follows the protocol *)

Context (A : Allocator) (fuel : nat) (idx : Z) (si : SlotInfo).
Hypothesis Hidx : bad_index A idx = false ∧ slots A !! Z.to_nat idx = Some si ∧ Z.to_nat idx = i.
Hypothesis Hcap32 : cap < 2 ^ 32.
Hypothesis Hgoal : Z.of_nat (length goal) < 2 ^ 64.

(** [later] is what subsequent calls write. *)
Context (total : bool) (later : list byte).

Abbreviation follows p s Q := (obeys total mon p s Q).

(** Nothing is pending and [rest] is still to be written. *)
Definition between (rest : list byte) (s : st) : Prop :=
  s_pend s = [] ∧ s_hist s ++ rest ++ later = goal ∧ 0 <= s_seen s.

(** The copy of the next bytes. *)
Lemma copy_follows {Y} off bs (f : unit → prog Y) s Q :
  off = sizeof_RingBufferHeader + pos s mod cap →
  pos s mod cap + Z.of_nat (length bs) <= cap → pos s + Z.of_nat (length bs) <= s_seen s + cap →
  s_hist s ++ s_pend s ++ bs `prefix_of` goal →
  follows (f tt) (mkSt (s_hist s) (s_pend s ++ bs) (s_seen s)) Q →
  follows (bind (write_req A idx off bs) f) s Q.
Proof using Hidx.
  intros -> H1 H2 H3 Hf. destruct Hidx as (Hb&_&Hi). unfold write_req, GetReqBuffer.
  rewrite Hb, Hi. intros []. cbn [mon].
  rewrite bool_decide_true, Z.eqb_refl, !(proj2 (Z.leb_le _ _)), bool_decide_true by done.
  exact Hf.
Qed.

Lemma signal_follows s Q : Q tt s → follows (SignalSlot A idx) s Q.
Proof using Hidx.
  intros HQ. destruct Hidx as (Hb&Hs&_). unfold SignalSlot, with_slot, SignalEvent.
  rewrite Hb, Hs. destruct (_ =? 0); [exact HQ|]. intros []. exact HQ.
Qed.

(** The copies and the commit of [toWrite] bytes, in one piece or two. *)
Lemma commit_follows {Y} rest s n (f : prog Y) Q :
  between rest s → 0 < n <= Z.of_nat (length rest) → s_seen s <= pos s →
  pos s + n <= s_seen s + cap →
  (∀ s', between (drop (Z.to_nat n) rest) s' → follows f s' Q) →
  let writeIdx := pos s mod cap in
  let contiguous := cap - writeIdx in
  let chunk := if n <? contiguous then n else contiguous in
  let now := take (Z.to_nat n) rest in
  follows (write_req A idx (sizeof_RingBufferHeader + writeIdx) (take (Z.to_nat chunk) now) ;;;
    (if chunk <? n then write_req A idx sizeof_RingBufferHeader (drop (Z.to_nat chunk) now)
     else Ret tt) ;;;
    call (Store L_writeOffset (u64 (pos s + n))) ;;; f) s Q.
Proof using Hcap Hidx Hgoal.
  intros (Hp&Hg&H0) Hn Hseen Hroom Hf. cbv zeta.
  pose proof (Z.mod_pos_bound (pos s) cap Hcap) as Hm.
  set (now := take (Z.to_nat n) rest).
  assert (Hnow : Z.of_nat (length now) = n) by (unfold now; rewrite length_take; lia).
  assert (Hpos : pos s = Z.of_nat (length (s_hist s))) by (unfold pos; by rewrite Hp, app_nil_r).
  assert (Hpre : ∀ l, l `prefix_of` now → s_hist s ++ l `prefix_of` goal).
  { intros l Hl. rewrite <- Hg. apply prefix_app. etrans; [exact Hl|].
    apply prefix_app_r, prefix_take. }
  assert (Hcommit : follows (call (Store L_writeOffset (u64 (pos s + n))) ;;; f)
            (mkSt (s_hist s) now (s_seen s)) Q).
  { intros []. unfold mon, pos at 2. cbn [s_hist s_pend s_seen].
    assert (length (s_hist s ++ rest ++ later) = length goal) as Hlg by (by rewrite Hg).
    rewrite !length_app in Hlg.
    rewrite u64_id, (proj2 (Z.eqb_eq _ _)) by (rewrite ?length_app; lia).
    apply Hf. split; [done|]. cbn [s_hist s_seen]. split; [|done].
    rewrite <- app_assoc, (app_assoc now). unfold now. by rewrite take_drop. }
  destruct (Z.ltb_spec n (cap - pos s mod cap)) as [Hlt|Hge].
  - rewrite (take_ge now) by lia. rewrite Z.ltb_irrefl.
    apply copy_follows; [done|lia|lia|rewrite Hp; by apply Hpre|]. rewrite Hp. exact Hcommit.
  - set (c := Z.to_nat (cap - pos s mod cap)).
    assert (Hlc : Z.of_nat (length (take c now)) = cap - pos s mod cap) by (rewrite length_take; unfold c; lia).
    apply copy_follows; [done|lia|lia|rewrite Hp; apply Hpre, prefix_take|]. rewrite Hp, app_nil_l.
    destruct (Z.ltb_spec (cap - pos s mod cap) n) as [Hlt|Hge']; cycle 1.
    { assert (take c now = now) as -> by (apply take_ge; unfold c; lia). exact Hcommit. }
    assert (Hp1 : pos (mkSt (s_hist s) (take c now) (s_seen s)) = pos s + (cap - pos s mod cap)).
    { unfold pos at 1. cbn [s_hist s_pend]. rewrite length_app. lia. }
    pose proof (mod_wrap (pos s)) as Hz.
    apply copy_follows; rewrite ?Hp1, ?Hz, ?length_drop; cbn [s_hist s_pend s_seen];
      [lia|unfold c; lia|unfold c; lia|rewrite take_drop; by apply Hpre|].
    rewrite take_drop. exact Hcommit.
Qed.

Lemma rb_round_follows rest s :
  between rest s →
  follows (rb_round A (mkRing idx cap true) rest) s (λ r s',
    match r with
    | inl rest' => between rest' s' ∧
        (Z.of_nat (length goal) <= s_seen s + cap → rest' = [])
    | inr _ => between [] s'
    end).
Proof using Hcap Hidx Hcap32 Hgoal.
  intros Hb. destruct (Hb) as (Hp&Hg&H0). unfold rb_round. cbn [rb_capacity rb_slotIdx].
  assert (Hlg : length goal = (length (s_hist s) + length rest + length later)%nat)
    by (rewrite <- Hg, !length_app; lia).
  destruct (Z.ltb_spec 0 (Z.of_nat (length rest))) as [Hrest|Hrest]; cycle 1.
  { destruct rest; [done|simpl in Hrest; lia]. }
  intros w. cbn [mon]. destruct (Z.eqb_spec w (Z.of_nat (length (s_hist s)))) as [->|]; [|done].
  intros r. cbn [mon]. destruct (_ && _) eqn:E; [|done].
  apply andb_true_iff in E as [E1%Z.leb_le E2%Z.leb_le].
  cbn [bind]. set (s1 := mkSt (s_hist s) (s_pend s) r).
  assert (Hb1 : between rest s1) by (split_and!; [done|done|unfold s1; cbn; lia]).
  assert (Hpos : pos s1 = Z.of_nat (length (s_hist s))) by (unfold pos, s1; cbn; by rewrite Hp, app_nil_r).
  rewrite <- Hpos. rewrite (u64_id (pos s1 - r)) by lia.
  destruct (Z.leb_spec cap (pos s1 - r)) as [Hfull|Hroom]; [by intros []; split; [|lia]|].
  rewrite (u32_id (pos s1 - r)) by lia. rewrite (u32_id (cap - (pos s1 - r))) by lia.
  pose proof (Z.mod_pos_bound (pos s1) cap Hcap).
  rewrite (u32_id (pos s1 mod cap)), (u32_id (cap - pos s1 mod cap)) by lia.
  cbv zeta. set (n := if Z.of_nat (length rest) <? cap - (pos s1 - r) then Z.of_nat (length rest)
                      else cap - (pos s1 - r)).
  assert (0 < n <= Z.of_nat (length rest) ∧ n <= cap - (pos s1 - r)) as [Hn Hn'].
  { subst n. destruct (Z.ltb_spec (Z.of_nat (length rest)) (cap - (pos s1 - r))); lia. }
  apply (commit_follows rest s1 n); [done|done|change (s_seen s1) with r; lia..|].
  intros s' Hs'. apply obeys_bind, signal_follows. split; [exact Hs'|]. intros Hall.
  apply drop_ge. subst n. destruct (Z.ltb_spec (Z.of_nat (length rest)) (cap - (pos s1 - r))); lia.
Qed.

Lemma rb_Write_follows data s :
  total = false → between data s →
  follows (rb_Write A fuel (mkRing idx cap true) data) s
    (λ r s', r = ResultVoid.Success ∧ between [] s').
Proof using Hcap Hidx Hcap32 Hgoal.
  intros Ht Hs. unfold rb_Write. cbn [rb_initialized negb]. apply obeys_bind.
  apply (obeys_loop _ _ between); [done|done|]. intros rest s1 Hs1.
  eapply obeys_mono, rb_round_follows; [|done]. intros [rest'|[]] s'; [by intros [? _]|done].
Qed.

End ring.
End Ring.

(** C15: the ring is a queue.  The ring holds the history [h] of a stream; [Write]
    appends [data] while a consumer advances [readOffset] at its own pace.  In
    every interleaving and at every moment, the committed history is [h] followed
    by a prefix of [data], all its unread bytes are in the ring at their places
    (so no unread byte is ever overwritten and no uncommitted byte is readable),
    no copy leaves the data region, and when [Write] has returned all of [data]
    is committed. *)
Theorem ring_fifo A fuel idx si cap h data w w' ps :
  let i := Z.to_nat idx in
  bad_index A idx = false → slots A !! i = Some si → 0 < cap < 2 ^ 32 →
  Z.of_nat (length (h ++ data)) < 2 ^ 64 → ring_holds w i cap h →
  rtc (pool_step (consumer i)) (w, [rb_Write A fuel (mkRing idx cap true) data]) (w', ps) →
  ∃ p sent, ps = [p] ∧ sent `prefix_of` data ∧ ring_holds w' i cap (h ++ sent) ∧
    ¬ faulty w' p ∧ (∀ r, p = Ret r → r = ResultVoid.Success ∧ sent = data).
Proof.
  intros i Hb Hs Hc Hlen [Hw Hr Hcp Hrm Hd] Hrt.
  set (Q := λ (r : ResultVoid.t) s, r = ResultVoid.Success ∧ Ring.s_hist s = h ++ data).
  set (s0 := Ring.mkSt h [] (mem w L_readOffset)).
  edestruct (monitor_sound (Ring.mon i cap (h ++ data)) (consumer i) (Ring.inv i cap (length h) (h ++ data)) Q)
    as (ss&Hm); [apply Ring.ring_inv_env; lia|apply Ring.ring_inv_step; lia| |exact Hrt|].
  { instantiate (1 := [s0]). split; [|constructor; [|done]].
    - exists s0. unfold Ring.pos. cbn. rewrite app_nil_r. split_and!; try done; try lia.
      apply prefix_app_r. done.
    - eapply obeys_mono; cycle 1.
      { eapply Ring.rb_Write_follows with (later := []); [lia|by split_and!|lia|done|done|].
        split_and!; [done|cbn; by rewrite app_nil_r|cbn; lia]. }
      intros r s [-> (_&Hg&_)]. split; [done|]. by rewrite !app_nil_r in Hg. }
  destruct (Hm) as [(s&->&Hw'&Hs'&Hr'&Hp'&Hl'&Hd'&Hg'&Hst) Hps].
  apply Forall2_cons_inv_r in Hps as (p&ps'&Hp&->%Forall2_nil_inv_r&->).
  assert (Hh : Ring.s_hist s `prefix_of` h ++ data) by (etrans; [|exact Hg']; by apply prefix_app_r).
  assert (h `prefix_of` Ring.s_hist s) as [sent Hsent].
  { destruct (prefix_weak_total h (Ring.s_hist s) (h ++ data)) as [?|Hpre];
      [by apply prefix_app_r|done|done|]. by rewrite (prefix_length_eq _ _ Hpre Hst). }
  exists p, sent. split; [done|]. unfold Ring.pos in *. rewrite Hsent in *. split_and!.
  - by eapply prefix_app_inv.
  - rewrite !length_app in *. split; rewrite ?length_app; try lia; try done.
    intros k Hk. rewrite Hd' by lia. rewrite lookup_app_l; [done|]. rewrite length_app. lia.
  - eapply monitored_not_faulty; [|exact Hm|exact (eq_refl : [p] !! 0%nat = Some p)].
    intros s1 X o x [= <-] Hi Hx.
    eapply Ring.allowed_defined; [|exact Hi|exact Hx]. lia.
  - intros r ->. destruct Hp as [-> Hfin]. split; [done|]. rewrite Hsent in Hfin.
    by apply app_inv_head in Hfin.
Qed.

(** [Write] returns when there is room.  If the data fits behind the unread
    bytes when [Write] starts, two rounds of its loop are enough: whatever the
    consumer does meanwhile, it returns success with all of the data committed. *)
Theorem ring_write_returns A fuel idx si cap h data seen :
  let i := Z.to_nat idx in
  bad_index A idx = false → slots A !! i = Some si → 0 < cap < 2 ^ 32 →
  Z.of_nat (length (h ++ data)) < 2 ^ 64 →
  0 <= seen → Z.of_nat (length (h ++ data)) <= seen + cap →
  obeys true (Ring.mon i cap (h ++ data)) (rb_Write A (2 + fuel) (mkRing idx cap true) data)
    (Ring.mkSt h [] seen) (λ r s, r = ResultVoid.Success ∧ Ring.s_hist s = h ++ data).
Proof.
  intros i Hb Hs Hc Hlen Hseen Hroom. unfold rb_Write. cbn [rb_initialized negb].
  apply obeys_bind. cbn [loop Nat.add]. apply obeys_bind.
  eapply obeys_mono; cycle 1.
  { eapply Ring.rb_round_follows with (later := []); [lia|by split_and!|lia|done|].
    split_and!; [done|cbn; by rewrite app_nil_r|done]. }
  intros [rest|[]] s.
  - intros [(_&Hg&_) Hrest]. rewrite (Hrest Hroom), !app_nil_r in Hg. rewrite (Hrest Hroom). by cbn.
  - intros (_&Hg&_). by rewrite !app_nil_r in Hg.
Qed.

Lemma ring_write_returns_witness :
  obeys true (Ring.mon 0 1024 ([Byte.x60] ++ [Byte.x61]))
    (rb_Write (mkAllocator [mkSlot 1280 64 1 2] 1 0 1 10000) 2 (mkRing 0 1024 true) [Byte.x61])
    (Ring.mkSt [Byte.x60] [] 0)
    (λ r s, r = ResultVoid.Success ∧ Ring.s_hist s = [Byte.x60] ++ [Byte.x61]).
Proof.
  apply (ring_write_returns _ 0 0 (mkSlot 1280 64 1 2)); [reflexivity|reflexivity|lia|reflexivity|lia|].
  by cbn.
Defined.

(** A ring of 1024 bytes in which 1020 have been written and read; five bytes wrap
    around its end. *)
Definition ring_alloc : Allocator := mkAllocator [mkSlot 1280 64 1 2] 1 0 1 10000.
Definition ring_world : World :=
  mkWorld (λ l, match l with L_writeOffset | L_readOffset => 1020 | _ => 0 end)
    (λ _, replicate 1280 Byte.x00) (λ _, false).
Definition ring_data : list byte := [Byte.x61; Byte.x62; Byte.x63; Byte.x64; Byte.x65].

Lemma ring_fifo_witness :
  let c := run (replicate 7 (Run 0 (mkExt 0 true 0 [])))
             (ring_world, [rb_Write ring_alloc 3 (mkRing 0 1024 true) ring_data]) in
  c.2 = [Ret ResultVoid.Success] ∧
  ∃ p sent, c.2 = [p] ∧ sent `prefix_of` ring_data ∧
    ring_holds c.1 0 1024 (replicate 1020 Byte.x00 ++ sent) ∧ ¬ faulty c.1 p ∧
    (∀ r, p = Ret r → r = ResultVoid.Success ∧ sent = ring_data).
Proof.
  intros c. split; [reflexivity|].
  apply (ring_fifo ring_alloc 3 0 (mkSlot 1280 64 1 2) 1024 (replicate 1020 Byte.x00) ring_data
           ring_world c.1 c.2);
    [reflexivity|reflexivity|lia|reflexivity| |].
  - constructor; [reflexivity|done|done|done|]. intros k Hk. cbn in Hk. lia.
  - apply (run_pool (consumer 0)). repeat constructor.
Defined.
