(* ===== verification/Timeouts.v ===== *)
(** * Timeouts: calls with a finite timeout return

    The waits of the host poll a clock.  The assumption on the clock is that it
    does not go back and that some number [N] of consecutive readings of one thread
    take a millisecond: two readings may well be equal (the first two readings of
    [sleepAction] are back to back, and [AcquireSpecificSlot] reads the clock once
    per 1001 attempts), but a reading takes time, so that every machine has its
    [N].  Then every receiving call and [AcquireSpecificSlot] return, whatever the
    guest and the other threads do: the fuel that the loops need is bounded by the
    timeout and [N]. *)

From S2P Require Export SlotSafety.

Local Open Scope Z_scope.

(** The readings of a thread: the last one, and how many there were since a reading
    that is the beginning of a window of [N]. *)
Record Readings : Type := mkReadings { last : Z; mark : Z; count : Z }.

Section clock.
Context (N : Z).

(** The clock does not go back, and a window of [N] readings takes a millisecond. *)
Definition clock : monitor (option Readings) := λ st X o,
  match o in op X return X → verdict_of (option Readings) with
  | SteadyNow => λ r,
      match st with
      | None => Next (Some (mkReadings r r 0))
      | Some c =>
          if r <? last c then Impossible
          else if count c + 1 <? N then Next (Some (mkReadings r (mark c) (count c + 1)))
          else if r <? mark c + 1000000 then Impossible
          else Next (Some (mkReadings r r 0))
      end
  | o => λ r, if answer_ok o r then Next st else Impossible
  end.

Definition readings_ok (st : option Readings) : Prop :=
  match st with
  | Some c => mark c <= last c ∧ 0 <= count c < N
  | None => True
  end.

(** [p] returns, from any readings. *)
Definition returns {X} (p : prog X) : Prop :=
  ∀ st, readings_ok st → obeys true clock p st (λ _ st', readings_ok st').

Lemma returns_ret {X} (x : X) : returns (Ret x).
Proof. by intros st. Qed.

Lemma returns_bind {X Y} (p : prog X) (f : X → prog Y) :
  returns p → (∀ x, returns (f x)) → returns (bind p f).
Proof.
  intros Hp Hf st Hst. apply obeys_bind. eapply obeys_mono, Hp, Hst.
  intros x st' Hst'. by apply Hf.
Qed.

(** What is left of a timeout of [t] milliseconds that began at [start], in
    readings: [N] for each millisecond, and the rest of the window. *)
Definition left_of (t start : Z) (c : Readings) : Z :=
  N * (if mark c <? start then t + 1 else t - elapsed_ms (mark c) start) + (N - count c).

Lemma elapsed_mono now now' start :
  now <= now' → start <= now → elapsed_ms now start <= elapsed_ms now' start.
Proof.
  intros. unfold elapsed_ms. rewrite !Z.quot_div_nonneg by lia. apply Z.div_le_mono; lia.
Qed.

Lemma elapsed_nonneg now start : start <= now → 0 <= elapsed_ms now start.
Proof. intros. unfold elapsed_ms. apply Z.quot_pos; lia. Qed.

Lemma elapsed_advances now l start :
  start <= l → l + 1000000 <= now → elapsed_ms l start + 1 <= elapsed_ms now start.
Proof.
  intros. unfold elapsed_ms. rewrite !Z.quot_div_nonneg by lia.
  replace (now - start) with (now - start - 1000000 + 1 * 1000000) by lia.
  rewrite Z.div_add by lia. pose proof (Z.div_le_mono (l - start) (now - start - 1000000) 1000000).
  lia.
Qed.

(** As long as the timeout has not passed, something is left. *)
Lemma left_pos t start c :
  readings_ok (Some c) → start <= last c → elapsed_ms (last c) start < t → 0 < left_of t start c.
Proof.
  intros [Hm Hc] Hs Ht. unfold left_of. pose proof (elapsed_nonneg _ _ Hs).
  destruct (Z.ltb_spec (mark c) start); [nia|].
  pose proof (elapsed_mono (mark c) (last c) start Hm). nia.
Qed.

(** The readings after a reading at which a timeout begins. *)
Lemma left_bound t start c :
  readings_ok (Some c) → 0 <= t → last c = start → left_of t start c <= N * (t + 2).
Proof.
  intros [Hm Hc] Ht <-. unfold left_of. destruct (Z.ltb_spec (mark c) (last c)); [nia|].
  pose proof (elapsed_nonneg (mark c) (last c)). nia.
Qed.

(** A reading. *)
Lemma clock_reads st r :
  readings_ok st → 0 < N →
  match clock st Z SteadyNow r with
  | Next st' => ∃ c', st' = Some c' ∧ last c' = r ∧ readings_ok st' ∧
      (∀ c, st = Some c → last c <= r) ∧
      ∀ c t start, st = Some c → start <= last c → left_of t start c' + 1 <= left_of t start c
  | Forbidden => False
  | Impossible => True
  end.
Proof.
  intros Hst HN. cbn [clock]. destruct st as [c|]; cycle 1.
  { eexists. split; [done|]. split; [done|]. split; [cbn; lia|]. by split. }
  destruct Hst as [Hm Hc]. destruct (Z.ltb_spec r (last c)); [done|].
  destruct (Z.ltb_spec (count c + 1) N).
  { eexists. split; [done|]. split; [done|]. split; [cbn; lia|].
    split; [by intros ? [= <-]|].
    intros c' t start [= <-] Hs. unfold left_of. cbn [mark count]. lia. }
  destruct (Z.ltb_spec r (mark c + 1000000)); [done|].
  eexists. split; [done|]. split; [done|]. split; [cbn; lia|].
    split; [by intros ? [= <-]|].
  intros c' t start [= <-] Hs. unfold left_of. cbn [mark count].
  rewrite (proj2 (Z.ltb_ge r start)) by lia. pose proof (elapsed_nonneg r start).
  destruct (Z.ltb_spec (mark c) start); [nia|].
  pose proof (elapsed_advances r (mark c) start). nia.
Qed.

Lemma returns_call {X} (o : op X) : 0 < N → returns (call o).
Proof.
  intros HN st Hst r. destruct o; cbn [obeys clock answer_ok]; try done;
    try (by destruct (_ =? _)%nat).
  pose proof (clock_reads st r Hst HN) as Hr. cbn [clock] in Hr.
  destruct (match st with Some _ => _ | None => _ end); [|done|done].
  by destruct Hr as (?&_&_&?&_).
Qed.

(** A program that begins with a reading. *)
Lemma obeys_reading {X} (f : Z → prog X) st Q :
  0 < N → readings_ok st →
  (∀ c', readings_ok (Some c') → (∀ c, st = Some c → last c <= last c') →
     (∀ c t start, st = Some c → start <= last c → left_of t start c' + 1 <= left_of t start c) →
     obeys true clock (f (last c')) (Some c') Q) →
  obeys true clock (bind (call SteadyNow) f) st Q.
Proof.
  intros HN Hst H r. pose proof (clock_reads st r Hst HN) as Hr.
  change (match clock st Z SteadyNow r with
          | Next s' => obeys true clock (f r) s' Q
          | Forbidden => False
          | Impossible => True
          end).
  destruct (clock st Z SteadyNow r); [|done|done].
  destruct Hr as (c'&->&<-&?&?&?). by apply H.
Qed.

(** A program that does not read the clock. *)
Definition keeps_clock {X} (p : prog X) : Prop :=
  ∀ st, obeys true clock p st (λ _ st', st' = st).

Lemma keeps_bind {X Y} (p : prog X) (f : X → prog Y) :
  keeps_clock p → (∀ x, keeps_clock (f x)) → keeps_clock (bind p f).
Proof. intros Hp Hf l. apply obeys_bind. eapply obeys_mono, Hp. intros x l' ->. apply Hf. Qed.

Lemma keeps_call {X} (o : op X) :
  (match o with SteadyNow => False | _ => True end) → keeps_clock (call o).
Proof. intros Ho l r. destruct o; cbn; try done; by destruct (_ =? _)%nat. Qed.
End clock.

Create HintDb returns discriminated.

Ltac returns_walk :=
  lazymatch goal with
  | |- returns _ (Ret _) => apply returns_ret
  | |- returns _ (bind _ _) =>
      apply returns_bind; [returns_walk|let x := fresh "x" in intros x; returns_walk]
  | |- returns _ (call _) => apply returns_call; assumption
  | |- returns _ (if ?b then _ else _) => destruct b; returns_walk
  | |- returns _ (match ?r with _ => _ end) => destruct r; returns_walk
  | |- returns _ _ => first [solve [eauto with returns]|idtac]
  end.

Ltac keeps_walk :=
  lazymatch goal with
  | |- keeps_clock _ (Ret _) => intros ?; reflexivity
  | |- keeps_clock _ (bind _ _) =>
      apply keeps_bind; [keeps_walk|let x := fresh "x" in intros x; keeps_walk]
  | |- keeps_clock _ (call _) => apply keeps_call; exact I
  | |- keeps_clock _ (if ?b then _ else _) => destruct b; keeps_walk
  | |- keeps_clock _ (match ?r with _ => _ end) => destruct r; keeps_walk
  | |- keeps_clock _ _ => idtac
  end.

Section timeouts.
Context (N : Z) (HN : 0 < N).
Context (fuel : nat) (i : nat) (s : SlotInfo) (t : Z).
Hypothesis Ht : 0 <= t < INFINITE.
Hypothesis Hfuel : (Z.to_nat (N * (t + 2)) < fuel)%nat.

Lemma clock_checkReady : keeps_clock N (checkReady i).
Proof using. unfold checkReady, load. keeps_walk. Qed.

(** One round of the polling loop of [sleepAction]. *)
Definition poll_round (start : Z) (u : unit) : prog (unit + unit) :=
  let* ready := checkReady i in
  if ready then Ret (inr tt)
  else
    let* now := call SteadyNow in
    let elapsed := elapsed_ms now start in
    if negb (t =? INFINITE) && (t <=? elapsed) then Ret (inr tt)
    else
      let remaining := if t =? INFINITE then INFINITE else u32 (t - u32 elapsed) in
      let waitTime := if 100 <? remaining then 100 else remaining in
      let waitTime := if t =? INFINITE then 100 else waitTime in
      WaitEvent (hRespEvent s) waitTime ;;;
      Ret (inl tt).

(** Before a round the clock has been read, at or after [start]. *)
Definition polling (start : Z) (st : option Readings) : Prop :=
  ∃ c, st = Some c ∧ readings_ok N st ∧ start <= last c ∧
    (last c = start ∨ elapsed_ms (last c) start < t).

Definition polls_left (start : Z) (st : option Readings) : nat :=
  match st with Some c => Z.to_nat (left_of N t start c) | None => 0 end.

Lemma poll_round_returns start u st :
  polling start st →
  obeys true (clock N) (poll_round start u) st
    (λ r st', match r with
              | inl _ => polling start st' ∧ (polls_left start st' < polls_left start st)%nat
              | inr _ => readings_ok N st'
              end).
Proof using HN Ht.
  clear Hfuel. intros (c&->&Hok&Hs&Hc). unfold poll_round. apply obeys_bind.
  eapply obeys_mono, clock_checkReady. intros [] st' ->; [done|].
  apply obeys_reading; [done|done|]. intros c' Hok' Hge Hleft. specialize (Hge c eq_refl).
  rewrite (proj2 (Z.eqb_neq _ _)) by lia. cbn [negb andb].
  destruct (Z.leb_spec t (elapsed_ms (last c') start)) as [|Hlt]; [done|].
  assert (∀ x, keeps_clock N (WaitEvent (hRespEvent s) x)) as Hk
    by (intros; unfold WaitEvent; keeps_walk).
  apply obeys_bind. eapply obeys_mono, Hk. intros _ st' ->. split.
  - exists c'. split; [done|]. split; [done|]. split; [lia|by right].
  - specialize (Hleft c t start eq_refl Hs). cbn [polls_left].
    pose proof (left_pos N t start c' Hok' ltac:(lia) Hlt). lia.
Qed.

(** The polling loop of [sleepAction]. *)
Lemma returns_sleepAction : returns N (sleepAction fuel i s t).
Proof using HN Ht Hfuel.
  unfold sleepAction, store. apply returns_bind; [by apply returns_call|]. intros _.
  apply returns_bind; [unfold checkReady, load; returns_walk|]. intros []; [by apply returns_call|].
  intros st Hst. apply obeys_reading; [done|done|]. intros c Hok _ _. apply obeys_bind.
  set (start := last c).
  apply (obeys_loop_total _ _ (λ _, polling start) (λ _, polls_left start)).
  - exists c. split; [done|]. split; [done|]. split; [lia|by left].
  - pose proof (left_bound N t start c Hok ltac:(lia) eq_refl). cbn [polls_left]. lia.
  - intros u st' Hp. eapply obeys_mono, (poll_round_returns start u), Hp.
    intros [] st'' H; [done|]. by apply returns_call.
Qed.
End timeouts.

Section calls.
Context (N : Z) (HN : 0 < N).
Context (A : Allocator) (fuel : nat) (HA : alloc_ok A).

Lemma returns_checkReady i : returns N (checkReady i).
Proof using HN. unfold checkReady, load. returns_walk. Qed.

Lemma returns_spin n i : returns N (spin n (checkReady i)).
Proof using HN.
  induction n as [|n IH]; cbn [spin]; [apply returns_ret|].
  unfold checkReady at 1, load, CpuRelax. returns_walk.
Qed.

Lemma returns_WaitForRespReady i s t :
  0 <= t < INFINITE → (Z.to_nat (N * (t + 2)) < fuel)%nat → returns N (WaitForRespReady fuel i s t).
Proof using HN.
  intros Ht Hf. pose proof (returns_sleepAction N HN fuel i s t Ht Hf).
  pose proof (λ n, returns_spin n i). pose proof (returns_checkReady i). unfold WaitForRespReady, Wait, load, store.
  returns_walk; done.
Qed.

Lemma returns_SignalEvent h : returns N (SignalEvent h).
Proof using HN. unfold SignalEvent. returns_walk. Qed.
Lemma returns_publish_request i s : returns N (publish_request i s).
Proof using HN. pose proof returns_SignalEvent. unfold publish_request, ring_guest, load, store. returns_walk. Qed.
Lemma returns_FinishWait i b : returns N (FinishWait i b).
Proof using HN. unfold FinishWait, store. returns_walk. Qed.
Lemma returns_write_request i sz ty : returns N (write_request A i sz ty).
Proof using HN. unfold write_request, load, store. returns_walk. Qed.
Lemma returns_check_response i seq : returns N (check_response i seq).
Proof using HN. unfold check_response, load, store. returns_walk. Qed.
Lemma returns_copy_response i s : returns N (copy_response i s).
Proof using HN. unfold copy_response, read_resp_size, load_i32, load. returns_walk. Qed.
Local Hint Resolve returns_publish_request returns_FinishWait returns_write_request
  returns_check_response returns_copy_response returns_WaitForRespReady : returns.


Section receive.
Context (t : Z) (Ht : 0 <= effective_timeout A t < INFINITE).
Context (Hfuel : (Z.to_nat (N * (effective_timeout A t + 2)) < fuel)%nat).



End receive.

(** *** Acquiring one slot *)





End calls.


