(* ===== verification/ShmLock.v ===== *)
(** * ShmLock (include/shm/Platform.h): one host per segment name

    [LockShm] and [UnlockShm] with the process-wide registry of held locks.  A
    Windows mutex can be taken again by the thread that owns it, so the mutex alone
    does not keep two hosts of one process apart; the registry does.

    The answers of the operating system are inputs ([MutexAnswer]): the handle of
    [CreateMutexW] (0 for null), whether the mutex existed, and whether the wait of
    zero milliseconds obtained it.  Calls are sequential; two concurrent calls of
    different threads are kept apart by the mutex itself. *)

From S2P Require Export Prelude.

Local Open Scope Z_scope.

Record MutexAnswer : Type := mkMutex { mx_handle : Z; mx_existed : bool; mx_obtained : bool }.

(** [LockRegistry()]: lock handle to segment name. *)
Abbreviation Registry := (gmap Z string).

(** Success and the lock handle ([None]: not written), registry. *)
Definition LockShm (os : MutexAnswer) (name : string) (reg : Registry)
    : bool * option Z * Registry :=
  if existsb (λ kv, String.eqb kv.2 name) (map_to_list reg) then (false, None, reg)
  else if mx_handle os =? 0 then (false, None, reg)
  else if mx_existed os && negb (mx_obtained os) then (false, None, reg)
  else (true, Some (mx_handle os), <[mx_handle os := name]> reg).

Definition UnlockShm (hLock : Z) (reg : Registry) : Registry :=
  if negb (hLock =? 0) then delete hLock reg else reg.

(** ** Exclusion *)

Lemma scan_spec reg name :
  existsb (λ kv : Z * string, String.eqb kv.2 name) (map_to_list reg) = true ↔
  ∃ h, reg !! h = Some name.
Proof.
  rewrite existsb_exists. split.
  - intros ([h n]&Hin&Hn%String.eqb_eq). cbn in Hn. subst n. exists h. by apply elem_of_map_to_list, list_elem_of_In.
  - intros [h Hh]. exists (h, name). split; [|apply String.eqb_refl].
    by apply list_elem_of_In, elem_of_map_to_list.
Qed.

Inductive lock_call : Type :=
  | DoLock (os : MutexAnswer) (name : string)
  | DoUnlock (hLock : Z).

Definition lock_step (reg : Registry) (c : lock_call) : Registry :=
  match c with
  | DoLock os name => (LockShm os name reg).2
  | DoUnlock h => UnlockShm h reg
  end.

(** No name is held by two locks. *)
Definition names_unique (reg : Registry) : Prop :=
  ∀ h h' name, reg !! h = Some name → reg !! h' = Some name → h = h'.

(** One lock per name.  After any sequence of [LockShm] and [UnlockShm] calls,
    whatever the operating system answers, no segment name is held twice; a
    [LockShm] of a name that is held fails and changes nothing; one of a name that
    is not held succeeds exactly if the system grants the mutex, and
    [UnlockShm] of its handle frees the name again. *)
Theorem locks_exclusive cs os name :
  let reg := foldl lock_step ∅ cs in
  names_unique reg ∧
  ((∃ h, reg !! h = Some name) → LockShm os name reg = (false, None, reg)) ∧
  (¬ (∃ h, reg !! h = Some name) →
   ((LockShm os name reg).1.1 = true ↔
      mx_handle os ≠ 0 ∧ (mx_existed os = true → mx_obtained os = true)) ∧
   ¬ ∃ h, UnlockShm (mx_handle os) (LockShm os name reg).2 !! h = Some name).
Proof.
  intros reg. split_and!.
  - unfold reg. clear reg. induction cs as [|c cs IH] using rev_ind; [by intros h h' n|].
    rewrite foldl_app. cbn [foldl]. set (reg := foldl lock_step ∅ cs) in *.
    destruct c as [os' n|hl]; cbn [lock_step].
    + unfold LockShm. destruct (existsb _ _) eqn:E; [done|].
      destruct (_ =? 0); [done|]. destruct (_ && _); [done|]. cbn [snd].
      assert (∀ h, reg !! h ≠ Some n) as Hn.
      { intros h Hh. assert (existsb (λ kv : Z * string, String.eqb kv.2 n) (map_to_list reg) = true)
          by (apply scan_spec; eauto). congruence. }
      intros h h' m. rewrite !lookup_insert_Some. naive_solver.
    + unfold UnlockShm. destruct (negb _); [|done].
      intros h h' m. rewrite !lookup_delete_Some. naive_solver.
  - intros Hh%scan_spec. unfold LockShm. by rewrite Hh.
  - intros Hn. assert (existsb (λ kv : Z * string, String.eqb kv.2 name) (map_to_list reg) = false) as E.
    { apply not_true_iff_false. by rewrite scan_spec. }
    unfold LockShm. rewrite E. unfold UnlockShm.
    destruct (Z.eqb_spec (mx_handle os) 0) as [E0|E0].
    { rewrite E0. cbn. split; [naive_solver|done]. }
    cbn [negb].
    destruct (mx_existed os), (mx_obtained os); cbn [andb negb fst snd]; (split; [naive_solver|]); intros [h Hh];
      rewrite ?delete_insert_eq in Hh; apply lookup_delete_Some in Hh as [_ Hh]; naive_solver.
Qed.

Lemma locks_exclusive_witness :
  let os := mkMutex 7 false true in
  let reg := foldl lock_step ∅ [DoLock os "shm"%string] in
  LockShm (mkMutex 8 true true) "shm"%string reg = (false, None, reg).
Proof.
  apply (locks_exclusive [DoLock (mkMutex 7 false true) "shm"%string] (mkMutex 8 true true) "shm"%string).
  exists 7. reflexivity.
Defined.
