(* ===== verification/Win32.v ===== *)
(** * Win32: the operating system calls of both sides, and a ledger of resources

    A program over the operating system ([osm]) is a tree of calls ([oscall]) that
    branches on their answers.  The answers are inputs: a run is driven by an
    oracle, which may fail any call at any time.  A ledger keeps the handles and
    mapped views that are open in the process.

    - [legal]: what a correct caller may do: close only open handles, unmap only
      mapped views, release only a mutex it owns.
    - [possible]: what the documentation of the calls promises: a handle or an
      address that is returned is not one that is open already.  This is all that is
      assumed about the operating system.

    [wp] is the logic used in the proofs, [wp_sound] its meaning for runs. *)

From S2P Require Export Prelude.

Local Open Scope Z_scope.

(** ** Calls and programs *)

(** Handles and addresses are numbers, 0 is null; a name is its UTF-16 code
    units.  A creating call also says whether the object existed
    ([ERROR_ALREADY_EXISTS]); [VirtualQuery] answers the region size. *)
Inductive oscall : Type → Type :=
  | CreateEventW (name : list Z) : oscall Z
  | OpenEventW (name : list Z) : oscall Z
  | CreateFileMappingW (size : Z) (name : list Z) : oscall (Z * bool)
  | OpenFileMappingW (name : list Z) : oscall Z
  | MapViewOfFile (h : Z) : oscall Z
  | UnmapViewOfFile (addr : Z) : oscall unit
  | VirtualQuery (addr : Z) : oscall (option Z)
  | CreateMutexW (name : list Z) : oscall (Z * bool)
  | WaitForSingleObject (h timeoutMs : Z) : oscall bool
  | ReleaseMutex (h : Z) : oscall unit
  | CloseHandle (h : Z) : oscall unit
  | SetThreadAffinityMask (mask : Z) : oscall Z.

Inductive osm (A : Type) : Type :=
  | Done (a : A)
  | Os {X} (c : oscall X) (k : X → osm A).
Arguments Done {A} a.
Arguments Os {A X} c k.

Definition os {X} (c : oscall X) : osm X := Os c Done.

#[export] Instance osm_ret : MRet osm := @Done.
#[export] Instance osm_bind : MBind osm :=
  λ A B f, fix go p := match p with Done a => f a | Os c k => Os c (λ x, go (k x)) end.

(** ** The ledger *)

Inductive object : Type :=
  | OEvent (name : list Z) | OMapping (name : list Z) | OMutex (name : list Z) (owned : bool).

#[export] Instance object_eq_dec : EqDecision object.
Proof. solve_decision. Defined.

Record Ledger : Type := mkLedger { handles : gmap Z object; views : gset Z }.

Definition add_handle (h : Z) (o : object) (L : Ledger) : Ledger :=
  if h =? 0 then L else mkLedger (<[h := o]> (handles L)) (views L).
Definition drop_handle (h : Z) (L : Ledger) : Ledger := mkLedger (delete h (handles L)) (views L).
Definition add_view (a : Z) (L : Ledger) : Ledger :=
  if a =? 0 then L else mkLedger (handles L) ({[a]} ∪ views L).
Definition drop_view (a : Z) (L : Ledger) : Ledger := mkLedger (handles L) (views L ∖ {[a]}).

Definition is_mapping (o : option object) : bool :=
  match o with Some (OMapping _) => true | _ => false end.
Definition is_mutex (o : option object) : bool :=
  match o with Some (OMutex _ _) => true | _ => false end.
Definition is_owned (o : option object) : bool :=
  match o with Some (OMutex _ owned) => owned | _ => false end.

(** A correct use of the call. *)
Definition legal {X} (c : oscall X) (L : Ledger) : bool :=
  match c with
  | MapViewOfFile h => is_mapping (handles L !! h)
  | UnmapViewOfFile a | VirtualQuery a => bool_decide (a ∈ views L)
  | WaitForSingleObject h _ => is_mutex (handles L !! h)
  | ReleaseMutex h => is_owned (handles L !! h)
  | CloseHandle h => bool_decide (is_Some (handles L !! h))
  | _ => true
  end.

(** Null, or a value that is not in use. *)
Definition fresh_handle (h : Z) (L : Ledger) : bool :=
  (h =? 0) || bool_decide (handles L !! h = None).

Definition possible {X} (c : oscall X) : X → Ledger → bool :=
  match c with
  | CreateEventW _ => λ h L, fresh_handle h L
  | OpenEventW _ => λ h L, fresh_handle h L
  | CreateFileMappingW _ _ => λ r L, fresh_handle r.1 L
  | OpenFileMappingW _ => λ h L, fresh_handle h L
  | CreateMutexW _ => λ r L, fresh_handle r.1 L
  | MapViewOfFile _ => λ a L, (a =? 0) || bool_decide (a ∉ views L)
  | _ => λ _ _, true
  end.

Definition effect {X} (c : oscall X) : X → Ledger → Ledger :=
  match c with
  | CreateEventW n => λ h, add_handle h (OEvent n)
  | OpenEventW n => λ h, add_handle h (OEvent n)
  | CreateFileMappingW _ n => λ r, add_handle r.1 (OMapping n)
  | OpenFileMappingW n => λ h, add_handle h (OMapping n)
  | MapViewOfFile _ => λ a, add_view a
  | UnmapViewOfFile a => λ _, drop_view a
  | CreateMutexW n => λ r, add_handle r.1 (OMutex n (negb r.2))
  | WaitForSingleObject h _ => λ ok L,
      match handles L !! h with
      | Some (OMutex n _) => if ok then add_handle h (OMutex n true) L else L
      | _ => L
      end
  | ReleaseMutex h => λ _ L,
      match handles L !! h with Some (OMutex n _) => add_handle h (OMutex n false) L | _ => L end
  | CloseHandle h => λ _, drop_handle h
  | VirtualQuery _ | SetThreadAffinityMask _ => λ _ L, L
  end.

(** ** Runs *)

(** The [n]-th call is answered by [o n]. *)
Abbreviation oracle := (nat → ∀ X, oscall X → X).

Record outcome (A : Type) : Type := mkOutcome {
  honest : bool;        (** every answer was a possible one *)
  correct : bool;       (** every call was a legal one *)
  answer : A;
  ledger : Ledger }.
Arguments mkOutcome {A}. Arguments honest {A}. Arguments correct {A}.
Arguments answer {A}. Arguments ledger {A}.

Fixpoint os_run {A} (o : oracle) (n : nat) (p : osm A) (L : Ledger) : outcome A :=
  match p with
  | Done a => mkOutcome true true a L
  | Os c k =>
      let r := o n _ c in
      let out := os_run o (S n) (k r) (effect c r L) in
      mkOutcome (possible c r L && honest out) (legal c L && correct out) (answer out) (ledger out)
  end.

(** ** Logic *)

Fixpoint wp {A} (p : osm A) (L : Ledger) (Q : A → Ledger → Prop) : Prop :=
  match p with
  | Done a => Q a L
  | Os c k => legal c L = true ∧ ∀ r, possible c r L = true → wp (k r) (effect c r L) Q
  end.

Lemma wp_sound {A} (p : osm A) o : ∀ n L Q,
  wp p L Q → honest (os_run o n p L) = true →
  correct (os_run o n p L) = true ∧ Q (answer (os_run o n p L)) (ledger (os_run o n p L)).
Proof.
  induction p as [a|X c k IH]; intros n L Q; cbn; [done|].
  intros [Hl Hk] [Hp Hh]%andb_true_iff. rewrite Hl. by apply IH; auto.
Qed.

Lemma wp_mono {A} (p : osm A) : ∀ L (Q Q' : A → Ledger → Prop),
  (∀ a L', Q a L' → Q' a L') → wp p L Q → wp p L Q'.
Proof. induction p; cbn; naive_solver. Qed.

Lemma wp_bind {A B} (p : osm A) (f : A → osm B) : ∀ L Q,
  wp p L (λ a L', wp (f a) L' Q) → wp (p ≫= f) L Q.
Proof. induction p as [a|X c k IH]; intros L Q; cbn; [done|]. naive_solver. Qed.

Lemma wp_ret {A} (a : A) L (Q : A → Ledger → Prop) : Q a L → wp (mret a) L Q.
Proof. done. Qed.

(** ** Ownership *)

(** [L'] is [L] with the handles [l] and the views [vs] on top. *)
Record own (L : Ledger) (l : list (Z * object)) (vs : list Z) (L' : Ledger) : Prop := mkOwn {
  own_handles : handles L' = list_to_map l ∪ handles L;
  own_views : views L' = list_to_set vs ∪ views L;
  own_nodup : NoDup l.*1;
  own_fresh : Forall (λ h, h ≠ 0 ∧ handles L !! h = None) l.*1;
  own_vnodup : NoDup vs;
  own_vfresh : Forall (λ a, a ≠ 0 ∧ a ∉ views L) vs }.

Lemma own_nil L : own L [] [] L.
Proof.
  constructor; cbn; [by rewrite (left_id_L ∅ (∪))|by rewrite (left_id_L ∅ (∪))|..]; by constructor.
Qed.

Lemma own_nil_inv L L' : own L [] [] L' → L' = L.
Proof.
  intros [Hh Hv _ _ _ _]. destruct L, L'; cbn in *.
  by rewrite Hh, Hv, !(left_id_L ∅ (∪)).
Qed.

Lemma own_perm L l l' vs L' : l ≡ₚ l' → own L l vs L' → own L l' vs L'.
Proof.
  intros Hp [Hh Hv Hn Hf Hvn Hvf]. constructor; try done; try by rewrite <- Hp.
  rewrite Hh. f_equal. by apply list_to_map_proper.
Qed.

Lemma own_add L l vs L' h o :
  own L l vs L' → h ≠ 0 → fresh_handle h L' = true → own L ((h, o) :: l) vs (add_handle h o L').
Proof.
  intros [Hh Hv Hn Hf Hvn Hvf] H0 [|HL]%orb_true_iff; [lia|]. apply bool_decide_eq_true in HL.
  unfold add_handle. rewrite (proj2 (Z.eqb_neq _ _)) by done. rewrite Hh in HL.
  apply lookup_union_None in HL as [Hl HL]. constructor; cbn; try done.
  - by rewrite Hh, insert_union_l.
  - apply NoDup_cons. split; [|done]. by apply not_elem_of_list_to_map.
  - by constructor.
Qed.

Lemma own_head L h o l vs L' : own L ((h, o) :: l) vs L' → h ≠ 0 ∧ handles L' !! h = Some o.
Proof.
  intros [Hh _ _ Hf _ _]. cbn in *. apply Forall_cons in Hf as [[? _] _]. split; [done|].
  by rewrite Hh, lookup_union, lookup_insert_eq, union_Some_l.
Qed.

Lemma own_drop L h o l vs L' : own L ((h, o) :: l) vs L' → own L l vs (drop_handle h L').
Proof.
  intros [Hh Hv Hn Hf Hvn Hvf]. cbn in *.
  apply NoDup_cons in Hn as [Hx Hn]. apply Forall_cons in Hf as [[? HL] Hf].
  constructor; cbn; try done. rewrite Hh, delete_union, delete_insert_id.
  - f_equal. by apply delete_id.
  - by apply not_elem_of_list_to_map_1.
Qed.

(** The state of a mutex changes. *)
Lemma own_update L h o o' l vs L' :
  own L ((h, o) :: l) vs L' → own L ((h, o') :: l) vs (add_handle h o' L').
Proof.
  intros Hown. pose proof (own_head _ _ _ _ _ _ Hown) as [H0 _].
  destruct Hown as [Hh Hv Hn Hf Hvn Hvf]. unfold add_handle.
  rewrite (proj2 (Z.eqb_neq _ _)) by done. constructor; cbn in *; try done.
  by rewrite Hh, insert_union_l, insert_insert_eq.
Qed.

Lemma own_add_view L l vs L' a :
  own L l vs L' → a ≠ 0 → a ∉ views L' → own L l (a :: vs) (add_view a L').
Proof.
  intros [Hh Hv Hn Hf Hvn Hvf] H0 Ha. unfold add_view. rewrite (proj2 (Z.eqb_neq _ _)) by done.
  rewrite Hv in Ha. constructor; cbn; try done.
  - rewrite Hv. by rewrite (assoc_L (∪)).
  - apply NoDup_cons. split; [|done]. set_solver.
  - constructor; [set_solver|done].
Qed.

Lemma own_view L l a vs L' : own L l (a :: vs) L' → a ≠ 0 ∧ a ∈ views L'.
Proof.
  intros [_ Hv _ _ _ Hvf]. apply Forall_cons in Hvf as [[? _] _]. rewrite Hv. set_solver.
Qed.

Lemma own_drop_view L l a vs L' : own L l (a :: vs) L' → own L l vs (drop_view a L').
Proof.
  intros [Hh Hv Hn Hf Hvn Hvf]. apply NoDup_cons in Hvn as [Hx Hvn].
  apply Forall_cons in Hvf as [[? Ha] Hvf]. constructor; cbn; try done. rewrite Hv. cbn.
  apply leibniz_equiv. intros y. rewrite elem_of_difference, !elem_of_union, elem_of_singleton,
    elem_of_list_to_set. split; [naive_solver|]. intros Hy. split; [tauto|].
  intros ->. tauto.
Qed.

Lemma own_lookup L l vs L' h o : own L l vs L' → handles L !! h = Some o → handles L' !! h = Some o.
Proof.
  intros [-> _ _ Hf _ _] Hh. rewrite lookup_union_r; [done|]. apply not_elem_of_list_to_map_1.
  intros Hin. rewrite Forall_forall in Hf. destruct (Hf _ Hin). congruence.
Qed.

Lemma own_trans L l vs L1 l' vs' L2 :
  own L l vs L1 → own L1 l' vs' L2 → own L (l' ++ l) (vs' ++ vs) L2.
Proof.
  intros H1 H2. destruct H1 as [Hh Hv Hn Hf Hvn Hvf].
  destruct H2 as [Hh2 Hv2 Hn2 Hf2 Hvn2 Hvf2].
  assert (∀ h, h ∈ l'.*1 → h ∉ l.*1) as Hd.
  { intros h Hh'. rewrite Forall_forall in Hf2. destruct (Hf2 _ Hh') as [_ HL]. rewrite Hh in HL.
    apply lookup_union_None in HL as [HL _]. by apply not_elem_of_list_to_map. }
  constructor.
  - by rewrite Hh2, Hh, list_to_map_app, (assoc_L (∪)).
  - by rewrite Hv2, Hv, list_to_set_app_L, (assoc_L (∪)).
  - rewrite fmap_app. by apply NoDup_app.
  - rewrite fmap_app. apply Forall_app. split; [|done]. eapply Forall_impl; [exact Hf2|].
    intros h [? HL]. split; [done|]. rewrite Hh in HL. by apply lookup_union_None in HL as [_ HL].
  - apply NoDup_app. split_and!; [done| |done]. intros a Ha. rewrite Forall_forall in Hvf2.
    destruct (Hvf2 _ Ha) as [_ HL]. rewrite Hv in HL. set_solver.
  - apply Forall_app. split; [|done]. eapply Forall_impl; [exact Hvf2|].
    intros a [? HL]. split; [done|]. rewrite Hv in HL. set_solver.
Qed.

(** ** Rules for the calls *)

Section rules.
Context (L : Ledger).
Implicit Types (l : list (Z * object)) (vs : list Z).

Lemma wp_close h o l vs L' (Q : unit → Ledger → Prop) :
  own L ((h, o) :: l) vs L' → (∀ L'', own L l vs L'' → Q tt L'') → wp (os (CloseHandle h)) L' Q.
Proof.
  intros Hown HQ. pose proof (own_head _ _ _ _ _ _ Hown) as [_ Hh]. split.
  - apply bool_decide_eq_true. eauto.
  - intros [] _. cbn. by eapply HQ, own_drop.
Qed.

Lemma wp_unmap a l vs L' (Q : unit → Ledger → Prop) :
  own L l (a :: vs) L' → (∀ L'', own L l vs L'' → Q tt L'') → wp (os (UnmapViewOfFile a)) L' Q.
Proof.
  intros Hown HQ. pose proof (own_view _ _ _ _ _ Hown) as [_ Ha]. split.
  - by apply bool_decide_eq_true.
  - intros [] _. cbn. by apply HQ, own_drop_view.
Qed.

Lemma wp_map h n l vs L' (Q : Z → Ledger → Prop) :
  own L ((h, OMapping n) :: l) vs L' →
  (∀ a L'', a ≠ 0 → own L ((h, OMapping n) :: l) (a :: vs) L'' → Q a L'') →
  (∀ L'', own L ((h, OMapping n) :: l) vs L'' → Q 0 L'') →
  wp (os (MapViewOfFile h)) L' Q.
Proof.
  intros Hown HQ HQ0. pose proof (own_head _ _ _ _ _ _ Hown) as [_ Hh]. split.
  - cbn. by rewrite Hh.
  - intros a Ha. cbn in Ha |- *. destruct (Z.eqb_spec a 0) as [E|E]; [rewrite E; by apply HQ0|].
    cbn in Ha. apply bool_decide_eq_true in Ha. apply HQ; [done|]. by apply own_add_view.
Qed.

(** Calls that open an object. *)
Definition creates (c : oscall Z) (o : object) : Prop :=
  (∀ M, legal c M = true) ∧ (∀ h M, possible c h M = fresh_handle h M) ∧
  (∀ h M, effect c h M = add_handle h o M).

Lemma wp_create c o l vs L' (Q : Z → Ledger → Prop) :
  creates c o → own L l vs L' →
  (∀ h L'', h ≠ 0 → own L ((h, o) :: l) vs L'' → Q h L'') → Q 0 L' →
  wp (os c) L' Q.
Proof.
  intros (Hl&Hp&He) Hown HQ HQ0. split; [done|]. intros h Hh. rewrite Hp in Hh. cbn. rewrite He.
  destruct (Z.eqb_spec h 0) as [E|E]; [rewrite E; done|]. apply HQ; [done|]. by apply own_add.
Qed.

Lemma wp_create_mapping size n l vs L' (Q : Z * bool → Ledger → Prop) :
  own L l vs L' →
  (∀ h b L'', h ≠ 0 → own L ((h, OMapping n) :: l) vs L'' → Q (h, b) L'') →
  (∀ b, Q (0, b) L') →
  wp (os (CreateFileMappingW size n)) L' Q.
Proof.
  intros Hown HQ HQ0. split; [done|]. intros [h b] Hh. cbn in *.
  destruct (Z.eqb_spec h 0) as [E|E]; [rewrite E; apply HQ0|]. apply HQ; [done|]. by apply own_add.
Qed.

Lemma wp_create_mutex n l vs L' (Q : Z * bool → Ledger → Prop) :
  own L l vs L' →
  (∀ h b L'', h ≠ 0 → own L ((h, OMutex n (negb b)) :: l) vs L'' → Q (h, b) L'') →
  (∀ b, Q (0, b) L') →
  wp (os (CreateMutexW n)) L' Q.
Proof.
  intros Hown HQ HQ0. split; [done|]. intros [h b] Hh. cbn in *.
  destruct (Z.eqb_spec h 0) as [E|E]; [rewrite E; apply HQ0|]. apply HQ; [done|]. by apply own_add.
Qed.

Lemma wp_wait h ms n b l vs L' (Q : bool → Ledger → Prop) :
  own L ((h, OMutex n b) :: l) vs L' →
  (∀ L'', own L ((h, OMutex n true) :: l) vs L'' → Q true L'') → Q false L' →
  wp (os (WaitForSingleObject h ms)) L' Q.
Proof.
  intros Hown HQ HQ0. pose proof (own_head _ _ _ _ _ _ Hown) as [_ Hh]. split.
  - cbn. by rewrite Hh.
  - intros ok _. cbn. rewrite Hh. destruct ok; [|done]. by eapply HQ, own_update.
Qed.

Lemma wp_release h n l vs L' (Q : unit → Ledger → Prop) :
  own L ((h, OMutex n true) :: l) vs L' →
  (∀ L'', own L ((h, OMutex n false) :: l) vs L'' → Q tt L'') →
  wp (os (ReleaseMutex h)) L' Q.
Proof.
  intros Hown HQ. pose proof (own_head _ _ _ _ _ _ Hown) as [_ Hh]. split.
  - cbn. by rewrite Hh.
  - intros [] _. cbn. rewrite Hh. by eapply HQ, own_update.
Qed.

Lemma wp_query a l vs L' (Q : option Z → Ledger → Prop) :
  own L l (a :: vs) L' → (∀ r, Q r L') → wp (os (VirtualQuery a)) L' Q.
Proof.
  intros Hown HQ. pose proof (own_view _ _ _ _ _ Hown) as [_ Ha]. split; [|by intros r _; apply HQ].
  by apply bool_decide_eq_true.
Qed.
End rules.
