(* ===== verification/KernelNames.v ===== *)
(** * KernelNames: the names under which host and guest find each other

    Segment, events and lock are kernel objects with names that both sides build
    from the segment name: include/shm/Platform.h and [DirectHost::Init] in C++,
    go/platform_windows.go and [NewDirectGuest] in Go.

    - a string is a sequence of bytes; a kernel name is a sequence of UTF-16 code
      units.  The host widens each [char], which is signed, to a [wchar_t]; the guest
      decodes UTF-8 ([syscall.UTF16PtrFromString]).
    - [std::to_string] and the verb [%d] on the slot index are [pretty].

    The theorem: the two agree on ASCII names, and a segment has no two objects of
    one name that should be different.  Outside ASCII the two agree on no name in
    valid UTF-8: only the byte 0xFD, which does not occur there, is converted alike. *)

From stdpp Require Export pretty.
From S2P Require Export Prelude.

Local Open Scope Z_scope.

(** The bytes of a string. *)
Fixpoint bytes_of (s : string) : list Z :=
  match s with
  | EmptyString => []
  | String c s => Z.of_N (Ascii.N_of_ascii c) :: bytes_of s
  end.

(** ** Host *)

(** [std::string s(name)] of a C string: up to the terminator. *)
Fixpoint c_string (l : list Z) : list Z :=
  match l with
  | [] => []
  | b :: l => if b =? 0 then [] else b :: c_string l
  end.

(** The conversion of a signed [char] to a 16-bit [wchar_t]. *)
Definition wide_char (b : Z) : Z := if b <? 128 then b else (b - 256) mod 2 ^ 16.

(** [std::wstring(s.begin(), s.end())] *)
Definition wide (s : string) : list Z := map wide_char (c_string (bytes_of s)).

(** [L"Local\\"] *)
Definition local_prefix : list Z := [76; 111; 99; 97; 108; 92].

Definition host_kernel_name (s : string) : list Z := local_prefix ++ wide s.

(** [LockShm]: the mutex. *)
Definition lock_kernel_name (s : string) : list Z := local_prefix ++ wide s ++ bytes_of "_lock".

(** ** Guest *)

Definition within_bytes (b lo hi : Z) : bool := (lo <=? b) && (b <=? hi).

Definition RuneError : Z := 0xFFFD.

(** [utf8.DecodeRuneInString]: the rune and the bytes it takes. *)
Definition decode_rune (l : list Z) : Z * nat :=
  match l with
  | [] => (RuneError, 0%nat)
  | b0 :: l =>
      if b0 <? 0x80 then (b0, 1%nat)
      else if within_bytes b0 0xC2 0xDF then
        match l with
        | b1 :: _ =>
            if within_bytes b1 0x80 0xBF then ((b0 - 0xC0) * 64 + (b1 - 0x80), 2%nat)
            else (RuneError, 1%nat)
        | _ => (RuneError, 1%nat)
        end
      else if within_bytes b0 0xE0 0xEF then
        match l with
        | b1 :: b2 :: _ =>
            if within_bytes b1 (if b0 =? 0xE0 then 0xA0 else 0x80) (if b0 =? 0xED then 0x9F else 0xBF)
               && within_bytes b2 0x80 0xBF
            then ((b0 - 0xE0) * 4096 + (b1 - 0x80) * 64 + (b2 - 0x80), 3%nat)
            else (RuneError, 1%nat)
        | _ => (RuneError, 1%nat)
        end
      else if within_bytes b0 0xF0 0xF4 then
        match l with
        | b1 :: b2 :: b3 :: _ =>
            if within_bytes b1 (if b0 =? 0xF0 then 0x90 else 0x80) (if b0 =? 0xF4 then 0x8F else 0xBF)
               && within_bytes b2 0x80 0xBF && within_bytes b3 0x80 0xBF
            then ((b0 - 0xF0) * 262144 + (b1 - 0x80) * 4096 + (b2 - 0x80) * 64 + (b3 - 0x80), 4%nat)
            else (RuneError, 1%nat)
        | _ => (RuneError, 1%nat)
        end
      else (RuneError, 1%nat)
  end.

(** The encoded surrogate that is not valid UTF-8 but is accepted all the same. *)
Definition wtf8_surrogate (l : list Z) : option Z :=
  match l with
  | b0 :: b1 :: b2 :: _ =>
      if (b0 =? 0xED) && within_bytes b1 0xA0 0xBF && within_bytes b2 0x80 0xBF
      then Some ((b0 - 0xE0) * 4096 + (b1 - 0x80) * 64 + (b2 - 0x80)) else None
  | _ => None
  end.

(** [utf16.AppendRune] on a rune that [decode_rune] gives. *)
Definition utf16_units (r : Z) : list Z :=
  if r <? 0x10000 then [r]
  else [0xD800 + (r - 0x10000) / 1024; 0xDC00 + (r - 0x10000) mod 1024].

Fixpoint encode_utf16 (fuel : nat) (l : list Z) : list Z :=
  match fuel, l with
  | O, _ | _, [] => []
  | S fuel, _ =>
      let '(r, size) := decode_rune l in
      match (if r =? RuneError then wtf8_surrogate l else None) with
      | Some u => u :: encode_utf16 fuel (drop 3 l)
      | None => utf16_units r ++ encode_utf16 fuel (drop size l)
      end
  end.

(** [UTF16PtrFromString]: an error if the string contains a zero byte. *)
Definition UTF16FromString (s : string) : option (list Z) :=
  let l := bytes_of s in
  if existsb (Z.eqb 0) l then None else Some (encode_utf16 (length l) l).

Definition guest_kernel_name (s : string) : option (list Z) :=
  UTF16FromString (String.append "Local\" s).

(** ** The names of a segment *)

Definition slot_req_name (name : string) (numSlots i : nat) : string :=
  if (i <? numSlots)%nat then (name +:+ "_slot_" +:+ pretty i)%string
  else (name +:+ "_guest_call")%string.

Definition slot_resp_name (name : string) (i : nat) : string :=
  (name +:+ "_slot_" +:+ pretty i +:+ "_resp")%string.

(** ** Lemmas *)

Definition ascii_byte (b : Z) : Prop := 0 < b < 128.
Definition ascii_string (s : string) : Prop := Forall ascii_byte (bytes_of s).
Definition digit_byte (b : Z) : Prop := 48 <= b <= 57.

#[export] Instance ascii_string_dec s : Decision (ascii_string s).
Proof. unfold ascii_string, ascii_byte. apply _. Defined.

Lemma bytes_of_app s s' : bytes_of (s +:+ s') = bytes_of s ++ bytes_of s'.
Proof. induction s as [|c s IH]; [done|]. cbn [bytes_of String.append app]. by rewrite <- IH. Qed.

Lemma ascii_app s s' : ascii_string (s +:+ s') ↔ ascii_string s ∧ ascii_string s'.
Proof. unfold ascii_string. by rewrite bytes_of_app, Forall_app. Qed.

Lemma bytes_of_inj s s' : bytes_of s = bytes_of s' → s = s'.
Proof.
  revert s'. induction s as [|c s IH]; intros [|c' s']; cbn; try done.
  intros [= Hc Hs%IH]. apply N2Z.inj in Hc. f_equal; [|done].
  by rewrite <- (Ascii.ascii_N_embedding c), Hc, Ascii.ascii_N_embedding.
Qed.

Lemma pretty_digits (i : nat) : Forall digit_byte (bytes_of (pretty i)).
Proof.
  assert (∀ x s, Forall digit_byte (bytes_of s) →
    Forall digit_byte (bytes_of (pretty_N_go x s))) as Hgo.
  { intros x. induction (N.lt_wf_0 x) as [x _ IH]. intros s Hs.
    destruct (decide (x = 0)%N) as [->|]; [by rewrite pretty_N_go_0|].
    rewrite pretty_N_go_step by lia. apply IH; [apply N.div_lt; lia|]. cbn. constructor; [|done].
    unfold pretty_N_char, digit_byte. by repeat case_match. }
  unfold pretty, pretty_nat, pretty, pretty_N. case_decide; [|by apply Hgo].
  repeat constructor; done.
Qed.

Lemma ascii_pretty (i : nat) : ascii_string (pretty i).
Proof. eapply Forall_impl; [apply pretty_digits|]. unfold digit_byte, ascii_byte. lia. Qed.

Lemma ascii_slot_req name ns i : ascii_string name → ascii_string (slot_req_name name ns i).
Proof.
  intros. unfold slot_req_name. case_match; rewrite !ascii_app; split_and!; try done;
    [by apply (bool_decide_unpack _)|apply ascii_pretty|by apply (bool_decide_unpack _)].
Qed.

Lemma ascii_slot_resp name i : ascii_string name → ascii_string (slot_resp_name name i).
Proof.
  intros. unfold slot_resp_name. rewrite !ascii_app. split_and!; try done;
    [by apply (bool_decide_unpack _)|apply ascii_pretty|by apply (bool_decide_unpack _)].
Qed.

(** On ASCII both conversions are the identity on bytes. *)
Lemma wide_ascii s : ascii_string s → wide s = bytes_of s.
Proof.
  unfold ascii_string, wide. generalize (bytes_of s) as l.
  induction 1 as [|b l [Hb Hb'] _ IH]; cbn; [done|]. rewrite (proj2 (Z.eqb_neq _ _)) by lia.
  cbn. rewrite IH. unfold wide_char. by rewrite (proj2 (Z.ltb_lt _ _)).
Qed.

Lemma encode_utf16_ascii l : Forall ascii_byte l → encode_utf16 (length l) l = l.
Proof.
  induction 1 as [|b l [Hb Hb'] _ IH]; cbn; [done|]. rewrite (proj2 (Z.ltb_lt _ _)) by done.
  rewrite (proj2 (Z.eqb_neq b RuneError)) by (unfold RuneError; lia).
  unfold utf16_units. rewrite (proj2 (Z.ltb_lt _ _)) by lia. cbn. by rewrite drop_0, IH.
Qed.

Lemma guest_kernel_ascii s : ascii_string s → guest_kernel_name s = Some (local_prefix ++ bytes_of s).
Proof.
  intros Hs. assert (Hp : ascii_string (String.append "Local\" s)).
  { apply ascii_app. split; [by apply (bool_decide_unpack _)|done]. }
  unfold guest_kernel_name, UTF16FromString.
  assert (existsb (Z.eqb 0) (bytes_of (String.append "Local\" s)) = false) as ->.
  { apply not_true_iff_false. intros (b&Hb&Hz)%existsb_exists.
    apply list_elem_of_In in Hb. apply (proj1 (Forall_forall _ _) Hp) in Hb.
    unfold ascii_byte in Hb. lia. }
  by rewrite encode_utf16_ascii, bytes_of_app by done.
Qed.

Lemma names_agree s : ascii_string s → guest_kernel_name s = Some (host_kernel_name s).
Proof. intros. unfold host_kernel_name. by rewrite wide_ascii, guest_kernel_ascii. Qed.

Lemma host_kernel_inj s s' :
  ascii_string s → ascii_string s' → host_kernel_name s = host_kernel_name s' → s = s'.
Proof.
  intros ??. unfold host_kernel_name. rewrite !wide_ascii by done.
  intros ?%app_inv_head. by apply bytes_of_inj.
Qed.

(** *** Names outside ASCII *)

(** The bytes that both conversions treat alike: ASCII, and the byte 0xFD, which is
    sign-extended to 0xFFFD on one side and invalid UTF-8 on the other. *)
Definition alike_byte (b : Z) : Prop := 0 < b < 128 ∨ b = 0xFD.

Definition is_byte (b : Z) : Prop := 0 <= b < 256.

Lemma bytes_of_bytes s : Forall is_byte (bytes_of s).
Proof.
  induction s as [|c s IH]; cbn; constructor; [|done].
  pose proof (Ascii.N_ascii_bounded c). unfold is_byte. lia.
Qed.

Ltac byte_ranges :=
  repeat match goal with
  | H : (_ && _) = true |- _ => apply andb_prop in H as [? ?]
  | H : within_bytes _ _ _ = true |- _ => unfold within_bytes in H
  | H : (_ <=? _) = true |- _ => apply Z.leb_le in H
  | H : (_ <? _) = false |- _ => apply Z.ltb_ge in H
  | H : (_ <? _) = true |- _ => apply Z.ltb_lt in H
  end.

Lemma utf16_units_length r :
  (length (utf16_units r) ≤ 2)%nat ∧ (r < 0x10000 → length (utf16_units r) = 1%nat).
Proof. unfold utf16_units. destruct (Z.ltb_spec r 0x10000); cbn; lia. Qed.

(** A rune of one byte is ASCII or an error; a longer one takes more bytes than it
    has units. *)
Lemma decode_rune_cases b l :
  let '(r, size) := decode_rune (b :: l) in
  size = 1%nat ∧ (b < 128 ∧ r = b ∨ 128 <= b ∧ r = RuneError) ∨
  128 <= b <= 0xF4 ∧ (length (utf16_units r) < size ≤ length (b :: l))%nat.
Proof.
  unfold decode_rune. destruct (b <? 0x80) eqn:H0; byte_ranges; [left; auto|].
  assert (RuneError = RuneError ∧ 128 <= b) as [_ ?] by (split; [done|lia]).
  destruct (within_bytes b 0xC2 0xDF) eqn:H1.
  { destruct l as [|b1 l]; [auto|]. destruct (within_bytes b1 _ _) eqn:H2; [|auto].
    byte_ranges. right. split; [lia|].
    rewrite (proj2 (utf16_units_length _)) by lia. cbn [length]. lia. }
  destruct (within_bytes b 0xE0 0xEF) eqn:H2.
  { destruct l as [|b1 [|b2 l]]; [auto..|]. destruct (_ && _) eqn:H3; [|auto].
    byte_ranges. right. split; [lia|].
    rewrite (proj2 (utf16_units_length _)); [cbn [length]; lia|].
    destruct (b =? 0xED); lia. }
  destruct (within_bytes b 0xF0 0xF4) eqn:H3; [|auto].
  destruct l as [|b1 [|b2 [|b3 l]]]; [auto..|]. destruct (_ && _ && _); [|auto].
  byte_ranges. right. split; [lia|]. cbn [length].
  match goal with |- context [utf16_units ?r] => pose proof (proj1 (utf16_units_length r)) end. lia.
Qed.

Lemma wtf8_surrogate_length l u : wtf8_surrogate l = Some u → (3 ≤ length l)%nat.
Proof. destruct l as [|? [|? [|? ?]]]; cbn; try done. lia. Qed.

(** One step of the conversion: either one byte to one unit, or fewer units than
    bytes. *)
Lemma encode_step fuel b l :
  (b < 128 ∧ encode_utf16 (S fuel) (b :: l) = b :: encode_utf16 fuel l) ∨
  (128 <= b ∧ encode_utf16 (S fuel) (b :: l) = RuneError :: encode_utf16 fuel l) ∨
  (128 <= b <= 0xF4 ∧ ∃ us k,
     encode_utf16 (S fuel) (b :: l) = us ++ encode_utf16 fuel (drop k (b :: l)) ∧
     (length us < k ≤ length (b :: l))%nat).
Proof.
  pose proof (decode_rune_cases b l) as Hc. cbn [encode_utf16].
  destruct (decode_rune (b :: l)) as [r size].
  destruct (if r =? RuneError then wtf8_surrogate (b :: l) else None) as [u|] eqn:Hu.
  - assert (wtf8_surrogate (b :: l) = Some u) as Hw by (by destruct (r =? RuneError)).
    pose proof (wtf8_surrogate_length _ _ Hw). right; right. split.
    + destruct l as [|b1 [|b2 l]]; try done. cbn in Hw. destruct (Z.eqb_spec b 0xED); [lia|done].
    + exists [u], 3%nat. split; [done|]. cbn [length] in *. lia.
  - destruct Hc as [(->&[(?&->)|(?&->)])|(?&?)].
    + left. split; [done|]. unfold utf16_units. by rewrite (proj2 (Z.ltb_lt _ _)) by lia.
    + right; left. by split.
    + right; right. split; [done|]. by exists (utf16_units r), size.
Qed.

Lemma encode_utf16_length fuel : ∀ l, (length (encode_utf16 fuel l) ≤ length l)%nat.
Proof.
  induction fuel as [|fuel IH]; intros [|b l]; try (cbn; lia).
  destruct (encode_step fuel b l) as [(_&->)|[(_&->)|(_&us&k&->&?)]].
  - cbn. specialize (IH l). lia.
  - cbn. specialize (IH l). lia.
  - rewrite length_app. specialize (IH (drop k (b :: l))). rewrite length_drop in IH.
    cbn [length] in *. lia.
Qed.

Lemma wide_char_error b : is_byte b → 128 <= b → wide_char b = RuneError ↔ b = 0xFD.
Proof.
  unfold is_byte, wide_char, RuneError. intros ??. rewrite (proj2 (Z.ltb_ge _ _)) by done.
  rewrite <- (Z.mod_add _ 1) by done. rewrite Z.mod_small by lia. lia.
Qed.

(** The conversions agree exactly on lists of such bytes. *)
Lemma conversions_agree fuel : ∀ l,
  (length l ≤ fuel)%nat → Forall is_byte l → Forall (λ b, b ≠ 0) l →
  encode_utf16 fuel l = map wide_char l ↔ Forall alike_byte l.
Proof.
  induction fuel as [|fuel IH]; intros [|b l] Hf Hb Hz; cbn [length] in Hf; try lia;
    try (split; [by constructor|done]).
  apply Forall_cons in Hb as [Hb Hl], Hz as [Hz Hzl].
  rewrite Forall_cons, <- (IH l) by (done || lia). cbn [map].
  destruct (encode_step fuel b l) as [(Hlt&->)|[(Hge&->)|(Hge&us&k&He&Hk)]].
  - unfold wide_char at 1. rewrite (proj2 (Z.ltb_lt _ _)) by done.
    unfold alike_byte, is_byte in *. split; [intros [= ->]; split; [lia|done]|by intros [_ ->]].
  - pose proof (wide_char_error b Hb Hge). unfold alike_byte.
    split; [intros [= E ->]; split; [right; by apply H|done]|].
    intros [[?| ->] ->]; [lia|]. f_equal.
  - split.
    + intros E. apply (f_equal length) in E. rewrite He in E. cbn [length] in E, Hk.
      rewrite length_app, length_map in E.
      pose proof (encode_utf16_length fuel (drop k (b :: l))). rewrite length_drop in *.
      cbn [length] in *. lia.
    + intros [[?| ->] _]; lia.
Qed.

(** Decimal digits are no prefix of something followed by a letter. *)
Lemma pretty_no_suffix (i j : nat) s :
  Forall (λ b, ¬ digit_byte b) (bytes_of s) → s ≠ ""%string → pretty i ≠ (pretty j +:+ s)%string.
Proof.
  intros Hs Hne E. pose proof (pretty_digits i) as Hi. rewrite E, bytes_of_app in Hi.
  apply Forall_app in Hi as [_ Hi]. destruct s as [|c s]; [done|]. cbn in *.
  apply Forall_cons in Hs as [? _], Hi as [? _]. done.
Qed.

Lemma slot_req_eq name ns i j :
  slot_req_name name ns i = slot_req_name name ns j ↔ i = j ∨ (ns ≤ i ∧ ns ≤ j)%nat.
Proof.
  unfold slot_req_name.
  destruct (Nat.ltb_spec i ns), (Nat.ltb_spec j ns); split; intros H'; try done; try lia.
  - left. by do 2 apply (inj _) in H'; apply (inj _) in H'.
  - destruct H' as [->|]; [done|lia].
  - by apply (inj _) in H'.
  - by apply (inj _) in H'.
Qed.

Lemma slot_req_resp name ns i j : slot_req_name name ns i ≠ slot_resp_name name j.
Proof.
  unfold slot_req_name, slot_resp_name. case_match; intros E; apply (inj _) in E; [|done].
  apply (inj _) in E. revert E. apply pretty_no_suffix; [|done]. unfold digit_byte.
  repeat constructor; cbn; lia.
Qed.

Lemma slot_resp_eq name i j : slot_resp_name name i = slot_resp_name name j ↔ i = j.
Proof.
  split; [|by intros ->]. unfold slot_resp_name. intros E. do 2 apply (inj _) in E.
  apply (f_equal bytes_of) in E. rewrite !bytes_of_app in E. apply app_inv_tail in E.
  by apply bytes_of_inj, (inj _) in E.
Qed.

(** The objects of a segment: mapping, lock, events. *)
Definition segment_objects (name : string) (ns i : nat) : list (list Z) :=
  [host_kernel_name name; lock_kernel_name name; host_kernel_name (slot_req_name name ns i);
   host_kernel_name (slot_resp_name name i)].

Lemma segment_objects_NoDup name ns i : ascii_string name → NoDup (segment_objects name ns i).
Proof.
  intros Hn. pose (f := λ x, local_prefix ++ bytes_of name ++ x).
  assert (Inj (=) (=) f) as Hf by (intros x y E; by do 2 apply app_inv_head in E).
  set (req := (if (i <? ns)%nat then "_slot_" +:+ pretty i else "_guest_call")%string).
  set (resp := ("_slot_" +:+ pretty i +:+ "_resp")%string).
  assert (req ≠ resp) as Hne.
  { pose proof (slot_req_resp name ns i i) as H. intros E. apply H. unfold slot_req_name, slot_resp_name.
    fold resp. rewrite <- E. unfold req. by destruct (_ <? _)%nat. }
  assert (segment_objects name ns i = f <$> [[]; bytes_of "_lock"; bytes_of req; bytes_of resp]) as ->.
  { unfold segment_objects, host_kernel_name, lock_kernel_name.
    rewrite !wide_ascii by auto using ascii_slot_req, ascii_slot_resp.
    unfold slot_req_name, slot_resp_name, f, req, resp. cbn [fmap list_fmap].
    rewrite app_nil_r. destruct (_ <? _)%nat; by rewrite !bytes_of_app. }
  apply (NoDup_fmap_2 f). rewrite !NoDup_cons, !elem_of_cons.
  split_and!; [| | |intros []%elem_of_nil|by apply NoDup_nil_2].
  - intros [[=]|[E|[E|[]%elem_of_nil]]]; revert E; unfold req, resp; [destruct (_ <? _)%nat|];
      rewrite ?bytes_of_app; discriminate.
  - intros [E|[E|[]%elem_of_nil]]; revert E; unfold req, resp; [destruct (_ <? _)%nat|];
      rewrite ?bytes_of_app; discriminate.
  - intros [E|[]%elem_of_nil]. by apply bytes_of_inj in E.
Qed.

Lemma no_zero_byte l : existsb (Z.eqb 0) l = false ↔ Forall (λ b, b ≠ 0) l.
Proof.
  rewrite <- not_true_iff_false, existsb_exists, Forall_forall. split.
  - intros H b Hb ->. apply H. exists 0. split; [by apply list_elem_of_In|done].
  - intros H (b&Hb&E%Z.eqb_eq). apply list_elem_of_In in Hb. by apply (H b).
Qed.

Lemma c_string_id l : Forall (λ b, b ≠ 0) l → c_string l = l.
Proof.
  induction 1 as [|b l Hb _ IH]; cbn; [done|]. by rewrite (proj2 (Z.eqb_neq _ _) Hb), IH.
Qed.

(** The guest finds an object of the host exactly if every byte of its name is one
    that both convert alike. *)
Lemma kernel_names_agree s :
  guest_kernel_name s = Some (host_kernel_name s) ↔ Forall alike_byte (bytes_of s).
Proof.
  unfold guest_kernel_name, UTF16FromString. rewrite bytes_of_app.
  change (bytes_of "Local\") with local_prefix.
  pose proof (bytes_of_bytes s) as Hb. unfold host_kernel_name, wide.
  revert Hb. generalize (bytes_of s) as l. intros l Hb.
  destruct (existsb (Z.eqb 0) (local_prefix ++ l)) eqn:Hz.
  - split; [done|]. intros Ha. exfalso. revert Hz. apply not_true_iff_false, no_zero_byte.
    apply Forall_app. split; [by apply (bool_decide_unpack _)|].
    eapply Forall_impl; [exact Ha|]. unfold alike_byte. lia.
  - apply no_zero_byte, Forall_app in Hz as [_ Hz]. rewrite c_string_id by done.
    change (local_prefix ++ map wide_char l) with (map wide_char local_prefix ++ map wide_char l).
    rewrite <- map_app.
    transitivity (encode_utf16 (length (local_prefix ++ l)) (local_prefix ++ l) =
      map wide_char (local_prefix ++ l)); [split; [by intros E%(inj Some)|by intros ->]|].
    rewrite conversions_agree; [|done| |].
    + rewrite Forall_app. split; [by intros [_ ?]|]. intros. split; [|done].
      unfold alike_byte. repeat constructor; lia.
    + apply Forall_app. split; [|done]. unfold is_byte. repeat constructor; lia.
    + apply Forall_app. split; [|done]. repeat constructor; lia.
Qed.

(** C21: both sides agree on names.  For a segment name in ASCII, the guest looks up
    the mapping and the events of every slot under exactly the names the host
    created them with; within a segment, mapping, lock, request and response
    events all have different names, and two slots share a name only where they
    should: guest slots share their request event.  In general the guest finds an
    object under a name exactly if every byte of the name is ASCII (and not zero)
    or 0xFD.  As 0xFD does not occur in UTF-8, the guest cannot find a segment whose
    name is valid UTF-8 with a character outside ASCII: the host widens bytes and
    the guest decodes UTF-8. *)
Theorem names_meet name ns i j :
  (ascii_string name →
   guest_kernel_name name = Some (host_kernel_name name) ∧
   guest_kernel_name (slot_req_name name ns i) = Some (host_kernel_name (slot_req_name name ns i)) ∧
   guest_kernel_name (slot_resp_name name i) = Some (host_kernel_name (slot_resp_name name i)) ∧
   NoDup (segment_objects name ns i) ∧
   (host_kernel_name (slot_req_name name ns i) = host_kernel_name (slot_req_name name ns j) ↔
      i = j ∨ (ns ≤ i ∧ ns ≤ j)%nat) ∧
   (host_kernel_name (slot_resp_name name i) = host_kernel_name (slot_resp_name name j) ↔ i = j) ∧
   host_kernel_name (slot_req_name name ns i) ≠ host_kernel_name (slot_resp_name name j)) ∧
  (guest_kernel_name name = Some (host_kernel_name name) ↔ Forall alike_byte (bytes_of name)).
Proof.
  split; [|apply kernel_names_agree].
  intros Hn. pose proof (ascii_slot_req name ns) as Hq. pose proof (ascii_slot_resp name) as Hp.
  split_and!; auto using names_agree, segment_objects_NoDup.
  - rewrite <- (slot_req_eq name). split; [|by intros ->]. by apply host_kernel_inj; auto.
  - rewrite <- (slot_resp_eq name). split; [|by intros ->]. by apply host_kernel_inj; auto.
  - intros E%host_kernel_inj; auto. by apply slot_req_resp in E.
Qed.

Lemma names_meet_witness :
  guest_kernel_name "shm_slot_1_resp" = Some (host_kernel_name "shm_slot_1_resp") ∧
  guest_kernel_name "é" ≠ Some (host_kernel_name "é").
Proof.
  split.
  - apply (names_meet "shm" 1 1 0). by apply (bool_decide_unpack _).
  - intros E%(names_meet "é" 0 0 0). unfold alike_byte in E. apply Forall_cons in E as [E _].
    vm_compute in E. by destruct E as [[_ ?]|].
Defined.
