(* ===== verification/GuestAttach.v ===== *)
(** * GuestAttach: how the guest finds the segment (go/direct.go)

    [NewDirectGuest] of the Go guest: the checks on the exchange header, the
    geometry it derives from it and the loop over the slots.  Pointers are offsets
    from the start of the mapping.

    - the header is read field by field, each field once, before the mapping is
      dropped and opened again with its full size; [hdr] is what these reads
      return, which need not be one snapshot when the host misbehaves.
    - [GuestOs] are the answers of the operating system.
    - closing of handles on the error paths has no counterpart.

    The theorems: on a segment that [DirectHost::Init] made, both sides compute
    the same regions; on any header, what the guest accepts is within its mapping. *)

From S2P Require Export DirectHost.

Local Open Scope Z_scope.

Definition guest_Magic : Z := 0x584C4C21.
Definition guest_Version : Z := 0x00080000.

Inductive AttachError : Set :=
  | OpenFailed | BadMagic | BadVersion | BadNumSlots | BadNumGuestSlots | BadSlotSize
  | UnalignedSlotSize | UnalignedReqOffset | ReqOffsetBeyond | RespOffsetBefore
  | RespOffsetBeyond | MapFailed | ReqEventFailed (i : nat) | RespEventFailed (i : nat).

Record GuestOs : Type := mkGuestOs {
  go_open : bool;                  (** [OpenShm] of the header *)
  go_map : Z → bool;               (** [OpenShm] of that many bytes *)
  go_reqEvent : nat → option Z;    (** [OpenEvent] for a slot *)
  go_respEvent : nat → option Z }.

Record slotContext : Type := mkSlotContext {
  gs_header : Z;                   (** offset of the header *)
  gs_reqBuffer : Z * Z;            (** offset and length *)
  gs_respBuffer : Z * Z;
  gs_reqEvent : Z; gs_respEvent : Z; gs_nextMsgSeq : Z }.

Record DirectGuest : Type := mkDirectGuest {
  dg_shmSize : Z; dg_numSlots : Z; dg_numGuestSlots : Z; dg_slotSize : Z;
  dg_reqOffset : Z; dg_respOffset : Z; dg_fastPathAllowed : bool;
  dg_slots : list slotContext }.

(** The checks, in order; [None] when the header is accepted. *)
Definition check_header (hdr : exchange_field → Z) : option AttachError :=
  let numSlots := hdr E_numSlots in
  let numGuestSlots := hdr E_numGuestSlots in
  let slotSize := hdr E_slotSize in
  let reqOffset := hdr E_reqOffset in
  let respOffset := hdr E_respOffset in
  if negb (hdr E_magic =? guest_Magic) then Some BadMagic
  else if negb (hdr E_version =? guest_Version) then Some BadVersion
  else if (numSlots =? 0) || (100000 <? numSlots) then Some BadNumSlots
  else if 100000 <? numGuestSlots then Some BadNumGuestSlots
  else if (slotSize =? 0) || (1024 * 1024 * 1024 <? slotSize) then Some BadSlotSize
  else if negb (slotSize mod 8 =? 0) then Some UnalignedSlotSize
  else if negb (reqOffset mod 8 =? 0) then Some UnalignedReqOffset
  else if slotSize <=? reqOffset then Some ReqOffsetBeyond
  else if respOffset <=? reqOffset then Some RespOffsetBefore
  else if slotSize <=? respOffset then Some RespOffsetBeyond
  else None.

(** The loop over the slots from index [i], with [ptr] at the header of slot [i]. *)
Fixpoint attach_slots (os : GuestOs) (hdr : exchange_field → Z) (perSlotSize : Z)
    (n i : nat) (ptr : Z) : AttachError + list slotContext :=
  match n with
  | O => inr []
  | S n =>
      let dataBase := ptr + sizeof_SlotHeader in
      let maxReq := u32 (hdr E_respOffset - hdr E_reqOffset) in
      let maxResp := u32 (hdr E_slotSize - hdr E_respOffset) in
      match go_reqEvent os i with
      | None => inl (ReqEventFailed i)
      | Some evReq =>
          match go_respEvent os i with
          | None => inl (RespEventFailed i)
          | Some evResp =>
              let c := mkSlotContext ptr (dataBase + hdr E_reqOffset, maxReq)
                         (dataBase + hdr E_respOffset, maxResp) evReq evResp
                         (u32 (Z.of_nat i + 1)) in
              match attach_slots os hdr perSlotSize n (S i) (ptr + perSlotSize) with
              | inl e => inl e
              | inr l => inr (c :: l)
              end
          end
      end
  end.

Definition NewDirectGuest (os : GuestOs) (hdr : exchange_field → Z) (fastPath : Z)
    : AttachError + DirectGuest :=
  if negb (go_open os) then inl OpenFailed
  else
    match check_header hdr with
    | Some e => inl e
    | None =>
        let headerSize := sizeof_ExchangeHeader in
        let headerSize := if headerSize <? 64 then 64 else headerSize in
        let slotHeaderSize := sizeof_SlotHeader in
        let slotHeaderSize := if slotHeaderSize <? 128 then 128 else slotHeaderSize in
        let perSlotSize := u64 (slotHeaderSize + hdr E_slotSize) in
        let totalSlots := u32 (hdr E_numSlots + hdr E_numGuestSlots) in
        let totalSize := u64 (headerSize + u64 (perSlotSize * totalSlots)) in
        if negb (go_map os totalSize) then inl MapFailed
        else
          match attach_slots os hdr perSlotSize (Z.to_nat totalSlots) 0 headerSize with
          | inl e => inl e
          | inr l =>
              inr (mkDirectGuest totalSize (hdr E_numSlots) (hdr E_numGuestSlots)
                     (hdr E_slotSize) (hdr E_reqOffset) (hdr E_respOffset)
                     (fastPath =? 1) l)
          end
    end.

(** ** Lemmas *)

(** The fields are [uint32_t]. *)
Definition header_u32 (hdr : exchange_field → Z) : Prop := ∀ f, is_u32 (hdr f).

Definition regions (c : slotContext) : list (Z * Z) :=
  [(gs_header c, sizeof_SlotHeader); gs_reqBuffer c; gs_respBuffer c].

Lemma check_header_None hdr :
  header_u32 hdr →
  check_header hdr = None ↔
    hdr E_magic = guest_Magic ∧ hdr E_version = guest_Version ∧
    0 < hdr E_numSlots <= 100000 ∧ hdr E_numGuestSlots <= 100000 ∧
    hdr E_slotSize <= 2 ^ 30 ∧ hdr E_slotSize mod 8 = 0 ∧ hdr E_reqOffset mod 8 = 0 ∧
    hdr E_reqOffset < hdr E_respOffset < hdr E_slotSize.
Proof.
  intros Hu. pose proof (Hu E_numSlots). pose proof (Hu E_slotSize). pose proof (Hu E_reqOffset).
  unfold check_header. cbv zeta. change (1024 * 1024 * 1024) with (2 ^ 30).
  repeat case_match; rewrite ?negb_true_iff, ?negb_false_iff, ?orb_true_iff, ?orb_false_iff in *;
    split; try done; intros; split_and?; lia.
Qed.

(** Slot [i] of the loop, in closed form. *)
Definition context_ok (os : GuestOs) (hdr : exchange_field → Z) (i : nat) (ptr : Z)
    (c : slotContext) : Prop :=
  gs_header c = ptr ∧
  gs_reqBuffer c = (ptr + sizeof_SlotHeader + hdr E_reqOffset,
                    u32 (hdr E_respOffset - hdr E_reqOffset)) ∧
  gs_respBuffer c = (ptr + sizeof_SlotHeader + hdr E_respOffset,
                     u32 (hdr E_slotSize - hdr E_respOffset)) ∧
  go_reqEvent os i = Some (gs_reqEvent c) ∧ go_respEvent os i = Some (gs_respEvent c) ∧
  gs_nextMsgSeq c = u32 (Z.of_nat i + 1).

Lemma attach_slots_inr os hdr per n : ∀ i ptr l,
  attach_slots os hdr per n i ptr = inr l →
  length l = n ∧
  ∀ j c, l !! j = Some c → context_ok os hdr (i + j) (ptr + Z.of_nat j * per) c.
Proof.
  induction n as [|n IH]; intros i ptr l; cbn [attach_slots].
  { by intros [= <-]. }
  destruct (go_reqEvent os i) eqn:Eq; [|done]. destruct (go_respEvent os i) eqn:Er; [|done].
  destruct (attach_slots _ _ _ _ _ _) as [|l'] eqn:E; [done|]. intros [= <-].
  apply IH in E as [Hl Hc]. split; [cbn; lia|]. intros [|j] c.
  - intros [= <-]. rewrite Nat.add_0_r, Z.add_0_r. by split_and!.
  - intros Hj%Hc. replace (i + S j)%nat with (S i + j)%nat by lia.
    by replace (ptr + Z.of_nat (S j) * per) with (ptr + per + Z.of_nat j * per) by lia.
Qed.

(** All events can be opened. *)
Definition grants_events (os : GuestOs) : Prop :=
  ∀ i, is_Some (go_reqEvent os i) ∧ is_Some (go_respEvent os i).

Lemma attach_slots_total os hdr per n : ∀ i ptr,
  grants_events os → ∃ l, attach_slots os hdr per n i ptr = inr l.
Proof.
  induction n as [|n IH]; intros i ptr Hos; cbn [attach_slots]; [by eexists|].
  destruct (Hos i) as [[? ->] [? ->]]. destruct (IH (S i) (ptr + per) Hos) as [l ->]. by eexists.
Qed.

(** What an accepted header leads to. *)
Lemma NewDirectGuest_inr os hdr fast g :
  header_u32 hdr → NewDirectGuest os hdr fast = inr g →
  let per := sizeof_SlotHeader + hdr E_slotSize in
  check_header hdr = None ∧
  dg_shmSize g = 64 + per * (hdr E_numSlots + hdr E_numGuestSlots) ∧
  dg_fastPathAllowed g = (fast =? 1) ∧
  Z.of_nat (length (dg_slots g)) = hdr E_numSlots + hdr E_numGuestSlots ∧
  ∀ j c, dg_slots g !! j = Some c → context_ok os hdr j (64 + Z.of_nat j * per) c.
Proof.
  intros Hu. unfold NewDirectGuest. destruct (negb (go_open os)); [done|].
  destruct (check_header hdr) eqn:Ec; [done|]. apply check_header_None in Ec as Hc; [|done].
  pose proof (Hu E_numGuestSlots). pose proof (Hu E_slotSize). cbv zeta.
  change (if sizeof_ExchangeHeader <? 64 then 64 else sizeof_ExchangeHeader) with 64.
  change (if sizeof_SlotHeader <? 128 then 128 else sizeof_SlotHeader) with 128.
  change sizeof_SlotHeader with 128.
  rewrite (u32_id (hdr E_numSlots + _)), (u64_id (128 + _)) by lia.
  set (N := hdr E_numSlots + hdr E_numGuestSlots) in *. set (per := 128 + hdr E_slotSize) in *.
  assert (0 <= per * N <= (128 + 2 ^ 30) * 200000)
    by (split; [apply Z.mul_nonneg_nonneg|apply Z.mul_le_mono_nonneg]; lia).
  rewrite (u64_id (per * N)), u64_id by lia. destruct (negb _); [done|].
  destruct (attach_slots _ _ _ _ _ _) as [|l] eqn:E; [done|]. intros [= <-].
  apply attach_slots_inr in E as [Hl Hcs]. cbn. split_and!; try done. lia.
Qed.

(** ** Any header *)

(** Non-empty regions in increasing order, without overlap, within [a, b). *)
Fixpoint ordered (a : Z) (rs : list (Z * Z)) (b : Z) : Prop :=
  match rs with
  | [] => a <= b
  | (start, len) :: rs => a <= start ∧ 0 < len ∧ ordered (start + len) rs b
  end.

Lemma ordered_app a rs rs' b c : ordered a rs b → ordered b rs' c → ordered a (rs ++ rs') c.
Proof.
  revert a. induction rs as [|[st ln] rs IH]; cbn.
  - intros a Hab. destruct rs' as [|[st ln] rs']; cbn; [lia|]. intros (?&?&?). split_and!; [lia|done..].
  - intros a (?&?&?) ?. auto.
Qed.

Lemma ordered_concat per : ∀ (l : list slotContext) a b,
  b = a + Z.of_nat (length l) * per →
  (∀ j c, l !! j = Some c →
     ordered (a + Z.of_nat j * per) (regions c) (a + Z.of_nat j * per + per)) →
  ordered a (concat (map regions l)) b.
Proof.
  induction l as [|c l IH]; intros a b -> Hl; cbn [map concat length]; [cbn; lia|].
  eapply ordered_app.
  - specialize (Hl 0%nat c eq_refl). rewrite Z.add_0_r in Hl. exact Hl.
  - apply IH; [lia|]. intros j c' Hj. specialize (Hl (S j) c' Hj).
    by replace (a + per + Z.of_nat j * per) with (a + Z.of_nat (S j) * per) by lia.
Qed.

Lemma attach_aligned os hdr fast g :
  header_u32 hdr → NewDirectGuest os hdr fast = inr g →
  Forall (λ c, gs_header c mod 8 = 0 ∧ (gs_reqBuffer c).1 mod 8 = 0) (dg_slots g).
Proof.
  intros Hu (Hc&_&_&_&Hs)%NewDirectGuest_inr; [|done].
  apply check_header_None in Hc as (_&_&_&_&_&Ha&Hr&_); [|done].
  apply Forall_lookup. intros j c Hj. destruct (Hs j c Hj) as (E1&E2&_). rewrite E1, E2.
  cbn [fst]. change sizeof_SlotHeader with 128.
  apply Z.mod_divide in Ha as [q ->], Hr as [r ->]; [|done..].
  split; (apply Z.mod_divide; [done|]).
  - exists (8 + Z.of_nat j * (16 + q)). ring.
  - exists (24 + Z.of_nat j * (16 + q) + r). ring.
Qed.

(** C24: the guest trusts no header.  Whatever the exchange header contains, if the
    guest attaches then the headers, request buffers and response buffers of all
    its slots are non-empty, do not overlap, and lie behind the exchange header and
    inside the mapping it asked for; headers and request buffers are 8-byte
    aligned, as the 64-bit atomics need. *)
Theorem attach_in_bounds os hdr fast g :
  header_u32 hdr → NewDirectGuest os hdr fast = inr g →
  ordered 64 (concat (map regions (dg_slots g))) (dg_shmSize g) ∧
  Forall (λ c, gs_header c mod 8 = 0 ∧ (gs_reqBuffer c).1 mod 8 = 0) (dg_slots g).
Proof.
  intros Hu Hg. split; [|by eapply attach_aligned].
  apply NewDirectGuest_inr in Hg as (Hc&Hsz&_&Hl&Hs); [|done].
  apply check_header_None in Hc as (_&_&?&?&?&_&_&?); [|done].
  pose proof (Hu E_reqOffset). change sizeof_SlotHeader with 128 in *.
  eapply ordered_concat; [by rewrite Hl, Hsz, Z.mul_comm|]. intros j c Hj.
  destruct (Hs j c Hj) as (E1&E2&E3&_). unfold regions. rewrite E1, E2, E3.
  change sizeof_SlotHeader with 128. rewrite !u32_id by lia. cbn [ordered]. lia.
Qed.

(** ** The header of [Init] *)

Definition published (w : World) : exchange_field → Z := λ f, mem w (LExchange f).

Lemma published_u32 w cfg :
  config_range cfg → exchange_ready w cfg → header_u32 (published w).
Proof.
  intros Hc [E1 E2 [E3 E4] (E5&E6&E7)] f. pose proof (geometry_sizes cfg Hc) as Hz. cbv zeta in Hz.
  destruct Hc as (?&?&?&?). destruct f; unfold published; rewrite ?E1, ?E2, ?E3, ?E4, ?E5, ?E6, ?E7;
    try (by unfold SHM_MAGIC, SHM_VERSION); try change (g_reqOffset (geometry cfg)) with 0; lia.
Qed.

Lemma published_accepted w cfg (g := geometry cfg) :
  config_range cfg → exchange_ready w cfg →
  check_header (published w) = None ↔
    0 < numHostSlots cfg <= 100000 ∧ cfg_numGuestSlots cfg <= 100000 ∧
    g_slotSize g <= 2 ^ 30 ∧ g_slotSize g mod 8 = 0.
Proof.
  intros Hc Hex. rewrite check_header_None by (by eapply published_u32).
  pose proof (geometry_sizes cfg Hc) as Hz. cbv zeta in Hz. fold g in Hz.
  destruct Hex as [E1 E2 [E3 E4] (E5&E6&E7)]. unfold published.
  rewrite E1, E2, E3, E4, E5, E6, E7. fold g. change (g_reqOffset g) with 0.
  split; [naive_solver|]. intros (?&?&?&?). split_and!; done || lia.
Qed.

(** The regions of slot [i], seen from both sides. *)
Lemma published_regions os w cfg i c (g := geometry cfg) :
  config_range cfg → exchange_ready w cfg →
  context_ok os (published w) i
    (64 + Z.of_nat i * (sizeof_SlotHeader + published w E_slotSize)) c →
  regions c = slot_regions g (Z.of_nat i).
Proof.
  intros Hc [_ _ _ (E5&E6&E7)] (H1&H2&H3&_). pose proof (geometry_sizes cfg Hc) as Hz.
  cbv zeta in Hz. fold g in Hz. destruct Hz as (?&_&Hro&?&_&Hper&_).
  unfold regions. rewrite H1, H2, H3. unfold published. rewrite E5, E6, E7. fold g.
  unfold slot_regions, slot_base. rewrite Hper, Hro.
  change (g_exchangeHeaderSize g) with 64. change (g_slotHeaderSize g) with sizeof_SlotHeader.
  change (g_reqOffset g) with 0. rewrite Z.sub_0_r, (u32_id (g_halfSize g)) by lia. done.
Qed.

(** C20: host and guest agree.  On the segment of a successful [Init], if the system
    lets it open everything, the guest attaches exactly if there is at least one
    host slot, at most 100000 of each kind, and the slot size is a multiple of 8 up
    to 2^30, which [Init] itself does not enforce.  It then maps the same number of
    bytes, finds the header and both buffers of every slot where the host put
    them, starts from the same sequence numbers, and takes its fast path exactly
    if the host never reclaims. *)
Theorem attach_agrees os gos cfg h w h' w' (g := geometry cfg) :
  config_range cfg → Init os cfg h w = (ResultVoid.Success, h', w') →
  go_open gos = true → (∀ n, go_map gos n = true) → grants_events gos →
  let attach := NewDirectGuest gos (published w') (mem w' L_fastPathAllowed) in
  ((∃ d, attach = inr d) ↔
     0 < numHostSlots cfg <= 100000 ∧ cfg_numGuestSlots cfg <= 100000 ∧
     g_slotSize g <= 2 ^ 30 ∧ g_slotSize g mod 8 = 0) ∧
  ∀ d, attach = inr d →
    dg_shmSize d = g_totalSize g ∧
    map regions (dg_slots d) = map (slot_regions g) (seqZ 0 (g_totalSlots g)) ∧
    (∀ i c, dg_slots d !! i = Some c → gs_nextMsgSeq c = mem w' (LSlot i F_localSeq)) ∧
    dg_fastPathAllowed d = (mem w' L_autoReclaim =? 0).
Proof.
  intros Hc (Hex&Hpol&Hs)%Init_exchange Hop Hmap Hev. cbv zeta.
  pose proof (published_u32 _ _ Hc Hex) as Hu.
  pose proof (published_accepted _ _ Hc Hex) as Hacc. cbv zeta in Hacc. fold g in Hacc.
  split; [rewrite <- Hacc; split|].
  - by intros [d [Hd _]%NewDirectGuest_inr].
  - intros Hd. unfold NewDirectGuest. rewrite Hop, Hd, Hmap. cbn [negb].
    cbv zeta. edestruct attach_slots_total as [l ->]; [done|]. by eexists.
  - intros d (_&Hsz&Hf&Hl&Hcs)%NewDirectGuest_inr; [|done].
    pose proof (geometry_sizes cfg Hc) as Hz. cbv zeta in Hz. fold g in Hz, Hs.
    destruct Hz as (_&_&_&_&_&Hper&Htot&Htsz).
    destruct (Hex) as [_ _ [E3 E4] (E5&_)]. unfold published in Hsz, Hl.
    rewrite E3, E4 in Hl, Hsz. rewrite E5 in Hsz. fold g in Hsz.
    split; [by rewrite Htsz, Hper, Htot, Hsz|]. split_and!.
    + apply list_eq_same_length with (n := length (dg_slots d));
        rewrite ?length_map, ?length_seqZ; [lia|done|].
      intros i r r' Hi. rewrite !list_lookup_fmap.
      destruct (dg_slots d !! i) as [c|] eqn:Ec; [|done]. intros [= <-].
      rewrite lookup_seqZ_lt by lia. intros [= <-]. rewrite Z.add_0_l.
      eapply published_regions; [done..|]. by apply Hcs.
    + intros i c Hi. apply Hcs in Hi as Hc'. destruct Hc' as (_&_&_&_&_&->).
      apply lookup_lt_Some in Hi. by destruct (Hs i) as (_&_&_&->); [lia|].
    + rewrite Hf, Hpol. by destruct (_ =? 0).
Qed.

Definition ex_guest_os : GuestOs :=
  mkGuestOs true (λ _, true) (λ i, Some (Z.of_nat i + 1)) (λ i, Some (Z.of_nat i + 1)).

Definition ex_attach : AttachError + DirectGuest :=
  NewDirectGuest ex_guest_os (published ex_host_world) (mem ex_host_world L_fastPathAllowed).

Definition ex_guest : DirectGuest :=
  match ex_attach with inr g => g | inl _ => mkDirectGuest 0 0 0 0 0 0 false [] end.

Lemma attach_in_bounds_witness :
  length (dg_slots ex_guest) = 3%nat ∧
  ordered 64 (concat (map regions (dg_slots ex_guest))) (dg_shmSize ex_guest).
Proof.
  split; [vm_compute; reflexivity|].
  refine (proj1 (attach_in_bounds ex_guest_os (published ex_host_world)
    (mem ex_host_world L_fastPathAllowed) ex_guest _ _)); [|vm_compute; reflexivity].
  intros []; vm_compute; done.
Defined.

Lemma attach_agrees_witness :
  ex_attach = inr ex_guest ∧ dg_shmSize ex_guest = g_totalSize (geometry ex_config) ∧
  dg_fastPathAllowed ex_guest = true.
Proof.
  assert (ex_attach = inr ex_guest) as Ha by (vm_compute; reflexivity). split; [exact Ha|].
  destruct (attach_agrees ex_os ex_guest_os ex_config new_host blank_world ex_host ex_host_world)
    as [_ Hd]; [by unfold config_range|reflexivity|done|done| |].
  - by intros i; split; eexists.
  - destruct (Hd ex_guest Ha) as (Hs&_&_&->). by split; [exact Hs|].
Defined.
