(* ===== verification/GuestWire.v ===== *)
(** * GuestWire: the shared-memory ABI as the guest declares it

    The structs of go/direct.go, go/stream.go and go/ringbuffer.go, with Go's layout
    rule, which on amd64 is the natural alignment that [Layout.place] computes, and
    the constants of the protocol.  The blank fields are padding that the guest
    writes out.

    [abi_agrees] compares them, field by field, with what the host declares. *)

From S2P Require Export Wire GuestAttach.

Local Open Scope Z_scope.

(** ** Structs *)

Module GoStructs.
Import Layout Structs.

Definition SlotHeader : struct :=
  Struct [ u8_array "_" 64; u32_field "State"; u32_field "HostState"; u32_field "GuestState";
           u32_field "MsgSeq"; u32_field "MsgType"; u32_field "ReqSize"; u32_field "RespSize";
           u32_field "_"; u64_field "Lease"; u64_field "Gen"; u8_array "_" 16 ] 1.

Definition ExchangeHeader : struct :=
  Struct [ u32_field "Magic"; u32_field "Version"; u32_field "NumSlots"; u32_field "NumGuestSlots";
           u32_field "SlotSize"; u32_field "ReqOffset"; u32_field "RespOffset";
           u32_field "FastPathAllowed"; u8_array "_" 32 ] 1.

Definition StreamHeader : struct :=
  Struct [ u64_field "StreamID"; u64_field "TotalSize"; u32_field "TotalChunks";
           u32_field "AppMsgType" ] 1.

Definition ChunkHeader : struct :=
  Struct [ u64_field "StreamID"; u32_field "ChunkIndex"; u32_field "PayloadSize";
           u32_field "DstOffset"; u32_field "Padding" ] 1.

Definition RingBufferHeader : struct :=
  Struct [ u64_field "WriteOffset"; u8_array "_pad1" 120; u64_field "ReadOffset";
           u8_array "_pad2" 120 ] 1.
End GoStructs.

(** ** Constants *)

Definition SlotFree : Z := 0.
Definition SlotReqReady : Z := 1.
Definition SlotRespReady : Z := 2.
Definition SlotDone : Z := 3.
Definition SlotBusy : Z := 4.
Definition SlotGuestBusy : Z := 5.

Definition MsgTypeNormal : Z := 0.
Definition MsgTypeHeartbeatReq : Z := 1.
Definition MsgTypeHeartbeatResp : Z := 2.
Definition MsgTypeShutdown : Z := 3.
Definition MsgTypeFlatbuffer : Z := 10.
Definition MsgTypeGuestCall : Z := 11.
Definition MsgTypeStreamStart : Z := 13.
Definition MsgTypeStreamChunk : Z := 14.
Definition MsgTypeSystemError : Z := 127.
Definition MsgTypeAppStart : Z := 128.

Definition HostStateActive : Z := 0.
Definition HostStateWaiting : Z := 1.
Definition GuestStateActive : Z := 0.
Definition GuestStateWaiting : Z := 1.

(** ** Agreement *)

(** Offset and size of the first field of that name. *)
Definition field_at (s : Layout.struct) (n : string) : option (nat * nat) :=
  (λ x, (x.1, Layout.f_size x.2)) <$>
    List.find (λ x, String.eqb (Layout.f_name x.2) n) (Layout.place 0 (Layout.s_fields s)).

(** Two structs are of one size, and have the fields of each pair of names at the
    same place and of the same size. *)
Definition same_abi (cpp go : Layout.struct) (names : list (string * string)) : Prop :=
  Layout.sizeof cpp = Layout.sizeof go ∧
  Forall (λ n, is_Some (field_at cpp n.1) ∧ field_at cpp n.1 = field_at go n.2) names.

#[export] Instance same_abi_dec cpp go names : Decision (same_abi cpp go names).
Proof. unfold same_abi. apply _. Defined.

(** Host and guest agree on shared memory.  Every struct that both sides
    declare has the same size in C++ and in Go, and every field that both access is
    at the same offset with the same width; magic number, version, slot states,
    waiting flags and message types have the same values. *)
Theorem abi_agrees :
  same_abi Structs.SlotHeader_struct GoStructs.SlotHeader
    [("state", "State"); ("hostState", "HostState"); ("guestState", "GuestState");
     ("msgSeq", "MsgSeq"); ("msgType", "MsgType"); ("reqSize", "ReqSize");
     ("respSize", "RespSize"); ("lease", "Lease"); ("gen", "Gen")]%string ∧
  same_abi Structs.ExchangeHeader_struct GoStructs.ExchangeHeader
    [("magic", "Magic"); ("version", "Version"); ("numSlots", "NumSlots");
     ("numGuestSlots", "NumGuestSlots"); ("slotSize", "SlotSize"); ("reqOffset", "ReqOffset");
     ("respOffset", "RespOffset"); ("fastPathAllowed", "FastPathAllowed")]%string ∧
  same_abi Structs.StreamHeader_struct GoStructs.StreamHeader
    [("streamId", "StreamID"); ("totalSize", "TotalSize"); ("totalChunks", "TotalChunks");
     ("appMsgType", "AppMsgType")]%string ∧
  same_abi Structs.ChunkHeader_struct GoStructs.ChunkHeader
    [("streamId", "StreamID"); ("chunkIndex", "ChunkIndex"); ("payloadSize", "PayloadSize");
     ("dstOffset", "DstOffset"); ("padding", "Padding")]%string ∧
  same_abi Structs.RingBufferHeader_struct GoStructs.RingBufferHeader
    [("writeOffset", "WriteOffset"); ("readOffset", "ReadOffset")]%string ∧
  (SHM_MAGIC = guest_Magic ∧ SHM_VERSION = guest_Version) ∧
  [SLOT_FREE; SLOT_REQ_READY; SLOT_RESP_READY; SLOT_DONE; SLOT_BUSY; SLOT_GUEST_BUSY] =
    [SlotFree; SlotReqReady; SlotRespReady; SlotDone; SlotBusy; SlotGuestBusy] ∧
  [HOST_STATE_ACTIVE; HOST_STATE_WAITING; GUEST_STATE_ACTIVE; GUEST_STATE_WAITING] =
    [HostStateActive; HostStateWaiting; GuestStateActive; GuestStateWaiting] ∧
  map MsgType_val [NORMAL; HEARTBEAT_REQ; HEARTBEAT_RESP; SHUTDOWN; FLATBUFFER; GUEST_CALL;
                   STREAM_START; STREAM_CHUNK; SYSTEM_ERROR; APP_START] =
    [MsgTypeNormal; MsgTypeHeartbeatReq; MsgTypeHeartbeatResp; MsgTypeShutdown; MsgTypeFlatbuffer;
     MsgTypeGuestCall; MsgTypeStreamStart; MsgTypeStreamChunk; MsgTypeSystemError; MsgTypeAppStart].
Proof. split_and!; try reflexivity; by apply (bool_decide_unpack _). Qed.
