(* ===== verification/Resources.v ===== *)
(** * Resources: handles, mappings and locks over the life of a host and a guest

    The operating system half of the library: the wrappers of
    include/shm/Platform.h and go/platform_windows.go, and what [DirectHost::Init],
    [DirectHost::Shutdown], [NewDirectGuest] and [Close] do with them.  What these
    operations do to shared memory is the subject of [DirectHost] and
    [GuestAttach].

    - [HostRes] has the members of [DirectHost] that hold resources, with their
      stale values after [Shutdown], which does not reset them.
    - the registry of locks is that of [ShmLock].
    - the words of the exchange header are an input of the guest ([hdr]).
    - joining the worker thread, and [wg.Wait], have no counterpart.

    The theorem: a session of a host object or of a guest leaves the process as it
    was, on every path, except that [Init] forgets a mapping it cannot map. *)

From S2P Require Export Win32 KernelNames ShmLock GuestAttach.

Local Open Scope Z_scope.

(** ** Platform.h *)

Definition CreateNamedEvent (name : string) : osm Z := os (CreateEventW (host_kernel_name name)).

Definition CloseEvent (h : Z) : osm unit := if h =? 0 then mret tt else os (CloseHandle h).

Definition OpenEvent (name : string) : osm Z := os (OpenEventW (host_kernel_name name)).

Definition UnlinkNamedEvent (name : string) : osm unit := mret tt.

(** Address, [outHandle], [outExists] (written only with a handle). *)
Definition CreateNamedShm (name : string) (size : Z) (exists_ : bool) : osm (Z * Z * bool) :=
  '(h, existed) ← os (CreateFileMappingW size (host_kernel_name name));
  if h =? 0 then mret (0, h, exists_)
  else
    addr ← os (MapViewOfFile h);
    mret (addr, h, existed).

Definition CloseShm (h addr : Z) : osm unit :=
  _ ← (if addr =? 0 then mret tt else os (UnmapViewOfFile addr));
  if h =? 0 then mret tt else os (CloseHandle h).

(** Handle, [outAddr], [outRealSize] ([None]: whatever the uninitialised structure
    holds when the query fails). *)
Definition OpenShm (name : string) : osm (Z * Z * option Z) :=
  h ← os (OpenFileMappingW (host_kernel_name name));
  if h =? 0 then mret (0, 0, Some 0)
  else
    addr ← os (MapViewOfFile h);
    if addr =? 0 then mret (h, addr, Some 0)
    else
      size ← os (VirtualQuery addr);
      mret (h, addr, size).

Definition UnlinkShm (name : string) : osm unit := mret tt.

Definition PinCurrentThreadAffinity (mask : Z) : osm Z :=
  if mask =? 0 then mret 0 else os (SetThreadAffinityMask mask).

(** The check of the registry, the mutex, the claim; [hLock] is the old value of
    [outLockHandle]. *)
Definition os_LockShm (name : string) (hLock : Z) (reg : Registry) : osm (bool * Z * Registry) :=
  if existsb (λ kv, String.eqb kv.2 name) (map_to_list reg) then mret (false, hLock, reg)
  else
    '(h, existed) ← os (CreateMutexW (lock_kernel_name name));
    if h =? 0 then mret (false, hLock, reg)
    else
      obtained ← (if existed : bool then os (WaitForSingleObject h 0) else mret true);
      if obtained : bool then mret (true, h, <[h := name]> reg)
      else _ ← os (CloseHandle h); mret (false, hLock, reg).

Definition os_UnlockShm (hLock : Z) (reg : Registry) : osm Registry :=
  if hLock =? 0 then mret reg
  else
    let reg := delete hLock reg in
    _ ← os (ReleaseMutex hLock);
    _ ← os (CloseHandle hLock);
    mret reg.

(** ** DirectHost.h *)

Record HostRes : Type := mkHostRes {
  hr_name : string; hr_base : Z; hr_map : Z; hr_lock : Z; hr_events : list (Z * Z);
  hr_running : bool }.

(** The constructor. *)
Definition new_res : HostRes := mkHostRes "" 0 0 0 [] false.

Fixpoint close_events (evs : list (Z * Z)) : osm unit :=
  match evs with
  | [] => mret tt
  | (req, resp) :: evs => _ ← CloseEvent req; _ ← CloseEvent resp; close_events evs
  end.

Definition os_Shutdown (h : HostRes) (reg : Registry) : osm (HostRes * Registry) :=
  if negb (hr_running h) then mret (h, reg)
  else
    _ ← close_events (hr_events h);
    reg ← (if hr_base h =? 0 then mret reg
           else
             reg ← os_UnlockShm (hr_lock h) reg;
             _ ← CloseShm (hr_map h) (hr_base h);
             mret reg);
    mret (mkHostRes (hr_name h) (hr_base h) (hr_map h) (hr_lock h) (hr_events h) false, reg).

(** The loop of [Init] from slot [i], for [n] slots: [false] when an event could
    not be created. *)
Fixpoint create_events (name : string) (ns n i : nat) (evs : list (Z * Z))
    : osm (bool * list (Z * Z)) :=
  match n with
  | O => mret (true, evs)
  | S n =>
      req ← CreateNamedEvent (slot_req_name name ns i);
      resp ← CreateNamedEvent (slot_resp_name name i);
      let evs := <[i := (req, resp)]> evs in
      if (req =? 0) || (resp =? 0) then mret (false, evs)
      else create_events name ns n (S i) evs
  end.

Definition resize_events (n : nat) (evs : list (Z * Z)) : list (Z * Z) :=
  take n evs ++ replicate (n - length evs) (0, 0).

Definition os_Init (name : string) (cfg : HostConfig) (h : HostRes) (reg : Registry)
    : osm (ResultVoid.t * HostRes * Registry) :=
  '(addr, hMap, _) ← CreateNamedShm name (g_totalSize (geometry cfg)) false;
  if addr =? 0 then
    mret (ResultVoid.Failure InternalError,
          mkHostRes name addr hMap (hr_lock h) (hr_events h) (hr_running h), reg)
  else
    '(ok, hLock, reg) ← os_LockShm name (hr_lock h) reg;
    if negb ok then
      _ ← CloseShm hMap addr;
      mret (ResultVoid.Failure ResourceExhausted,
            mkHostRes name 0 hMap hLock (hr_events h) (hr_running h), reg)
    else
      let n := Z.to_nat (g_totalSlots (geometry cfg)) in
      '(ok, evs) ← create_events name (Z.to_nat (numHostSlots cfg)) n 0
                     (resize_events n (hr_events h));
      if ok : bool then mret (ResultVoid.Success, mkHostRes name addr hMap hLock evs true, reg)
      else
        '(h, reg) ← os_Shutdown (mkHostRes name addr hMap hLock evs true) reg;
        mret (ResultVoid.Failure InternalError, h, reg).

(** ** go/platform_windows.go *)

Definition guest_named {X} (name : string) (c : list Z → oscall Z) (k : Z → osm (option X))
    : osm (option X) :=
  match guest_kernel_name name with
  | None => mret None
  | Some n => h ← os (c n); if h =? 0 then mret None else k h
  end.

Definition go_createEvent (name : string) : osm (option Z) :=
  guest_named name CreateEventW (λ h, mret (Some h)).

Definition go_openEvent (name : string) : osm (option Z) :=
  guest_named name OpenEventW (λ h, mret (Some h)).

(** Unlike [CreateNamedShm], it closes a mapping that it cannot map. *)
Definition go_createShm (name : string) (size : Z) : osm (option (Z * Z)) :=
  match guest_kernel_name name with
  | None => mret None
  | Some n =>
      '(hMap, _) ← os (CreateFileMappingW size n);
      if hMap =? 0 then mret None
      else
        addr ← os (MapViewOfFile hMap);
        if addr =? 0 then _ ← os (CloseHandle hMap); mret None
        else mret (Some (hMap, addr))
  end.

(** [openShm]: handle and address of a view of at least [size] bytes. *)
Definition go_openShm (name : string) (size : Z) : osm (option (Z * Z)) :=
  guest_named name OpenFileMappingW (λ hMap,
    addr ← os (MapViewOfFile hMap);
    if addr =? 0 then _ ← os (CloseHandle hMap); mret None
    else
      region ← os (VirtualQuery addr);
      match region with
      | Some n =>
          if n <? size then
            _ ← os (UnmapViewOfFile addr); _ ← os (CloseHandle hMap); mret None
          else mret (Some (hMap, addr))
      | None => _ ← os (UnmapViewOfFile addr); _ ← os (CloseHandle hMap); mret None
      end).

Definition go_closeEvent (h : Z) : osm unit := os (CloseHandle h).

Definition go_closeShm (h addr : Z) : osm unit :=
  _ ← (if addr =? 0 then mret tt else os (UnmapViewOfFile addr));
  if h =? 0 then mret tt else os (CloseHandle h).

(** ** go/direct.go *)

(** The resources of a [DirectGuest]; [closed] is [closeOnce]. *)
Record GuestRes : Type := mkGuestRes {
  gr_handle : Z; gr_base : Z; gr_events : list (Z * Z); gr_closed : bool }.

Fixpoint go_close_events (evs : list (Z * Z)) : osm unit :=
  match evs with
  | [] => mret tt
  | (req, resp) :: evs => _ ← go_closeEvent req; _ ← go_closeEvent resp; go_close_events evs
  end.

(** The loop over the slots; [evs] are the events opened so far. *)
Fixpoint open_events (name : string) (ns : nat) (h addr : Z) (n i : nat) (evs : list (Z * Z))
    : osm (option (list (Z * Z))) :=
  match n with
  | O => mret (Some evs)
  | S n =>
      evReq ← go_openEvent (slot_req_name name ns i);
      match evReq with
      | None => _ ← go_closeShm h addr; _ ← go_close_events evs; mret None
      | Some req =>
          evResp ← go_openEvent (slot_resp_name name i);
          match evResp with
          | None =>
              _ ← go_closeEvent req; _ ← go_closeShm h addr; _ ← go_close_events evs; mret None
          | Some resp => open_events name ns h addr n (S i) (evs ++ [(req, resp)])
          end
      end
  end.

(** The size that [NewDirectGuest] maps. *)
Definition attach_size (hdr : exchange_field → Z) : Z :=
  u64 (64 + u64 (u64 (128 + hdr E_slotSize) * u32 (hdr E_numSlots + hdr E_numGuestSlots))).

Definition os_NewDirectGuest (name : string) (hdr : exchange_field → Z) : osm (option GuestRes) :=
  first ← go_openShm name 64;
  match first with
  | None => mret None
  | Some (h, addr) =>
      _ ← go_closeShm h addr;
      match check_header hdr with
      | Some _ => mret None
      | None =>
          second ← go_openShm name (attach_size hdr);
          match second with
          | None => mret None
          | Some (h, addr) =>
              evs ← open_events name (Z.to_nat (hdr E_numSlots)) h addr
                      (Z.to_nat (u32 (hdr E_numSlots + hdr E_numGuestSlots))) 0 [];
              mret ((λ evs, mkGuestRes h addr evs false) <$> evs)
          end
      end
  end.

Definition os_Close (g : GuestRes) : osm GuestRes :=
  if gr_closed g then mret g
  else
    _ ← go_close_events (gr_events g);
    _ ← go_closeShm (gr_handle g) (gr_base g);
    mret (mkGuestRes (gr_handle g) (gr_base g) (gr_events g) true).

(** ** What the operations own *)

Definition keep (h : Z) (o : object) : list (Z * object) := if h =? 0 then [] else [(h, o)].

(** The open events of the slots from [i], as objects. *)
Fixpoint named (oreq oresp : nat → object) (i : nat) (evs : list (Z * Z)) : list (Z * object) :=
  match evs with
  | [] => []
  | (req, resp) :: evs =>
      keep req (oreq i) ++ keep resp (oresp i) ++ named oreq oresp (S i) evs
  end.

Lemma named_app oreq oresp evs evs' : ∀ i,
  named oreq oresp i (evs ++ evs') =
  named oreq oresp i evs ++ named oreq oresp (i + length evs) evs'.
Proof.
  induction evs as [|[req resp] evs IH]; intros i; cbn [named app length].
  - by rewrite Nat.add_0_r.
  - rewrite IH, <- !app_assoc. by replace (S i + length evs)%nat with (i + S (length evs))%nat by lia.
Qed.

Lemma named_zeros oreq oresp n : ∀ i, named oreq oresp i (replicate n (0, 0)) = [].
Proof. induction n; intros; cbn; auto. Qed.

Section ops.
Context (L : Ledger).
Implicit Types (l : list (Z * object)) (vs : list Z) (reg : Registry).

Lemma wp_CloseEvent h o l vs L' (Q : unit → Ledger → Prop) :
  own L (keep h o ++ l) vs L' → (∀ L'', own L l vs L'' → Q tt L'') → wp (CloseEvent h) L' Q.
Proof.
  unfold keep, CloseEvent. destruct (h =? 0); intros Hown HQ; [by apply HQ|]. by eapply wp_close.
Qed.

Lemma wp_close_events oreq oresp evs : ∀ i l vs L' (Q : unit → Ledger → Prop),
  own L (named oreq oresp i evs ++ l) vs L' → (∀ L'', own L l vs L'' → Q tt L'') →
  wp (close_events evs) L' Q.
Proof.
  induction evs as [|[req resp] evs IH]; intros i l vs L' Q Hown HQ; [by apply HQ|].
  cbn [named close_events] in *. rewrite <- !app_assoc in Hown.
  apply wp_bind. eapply wp_CloseEvent; [exact Hown|]. intros L1 H1.
  apply wp_bind. eapply wp_CloseEvent; [exact H1|]. intros L2 H2. by eapply IH.
Qed.

Lemma wp_go_close_events oreq oresp evs : ∀ i l vs L' (Q : unit → Ledger → Prop),
  Forall (λ ev, ev.1 ≠ 0 ∧ ev.2 ≠ 0) evs →
  own L (named oreq oresp i evs ++ l) vs L' → (∀ L'', own L l vs L'' → Q tt L'') →
  wp (go_close_events evs) L' Q.
Proof.
  induction evs as [|[req resp] evs IH]; intros i l vs L' Q Hnz Hown HQ; [by apply HQ|].
  apply Forall_cons in Hnz as [[H1 H2] Hnz]. cbn [named go_close_events] in *. unfold keep in Hown.
  rewrite !(proj2 (Z.eqb_neq _ _)) in Hown by done.
  apply wp_bind. eapply wp_close; [exact Hown|]. intros L1 Ho1.
  apply wp_bind. eapply wp_close; [exact Ho1|]. intros L2 Ho2. by eapply IH.
Qed.

Lemma wp_CloseShm h a n l vs L' (Q : unit → Ledger → Prop) :
  own L ((h, OMapping n) :: l) (a :: vs) L' → (∀ L'', own L l vs L'' → Q tt L'') →
  wp (CloseShm h a) L' Q.
Proof.
  intros Hown HQ. pose proof (own_head _ _ _ _ _ _ Hown) as [Hh _].
  pose proof (own_view _ _ _ _ _ Hown) as [Ha _]. unfold CloseShm.
  rewrite !(proj2 (Z.eqb_neq _ _)) by done. apply wp_bind. eapply wp_unmap; [exact Hown|].
  intros L1 H1. by eapply wp_close.
Qed.

(** A failed call owns nothing new, except that a mapping that cannot be mapped
    stays open. *)
Lemma wp_CreateNamedShm name size ex l vs L' (Q : Z * Z * bool → Ledger → Prop) :
  own L l vs L' →
  (∀ a h b L'', a ≠ 0 → own L ((h, OMapping (host_kernel_name name)) :: l) (a :: vs) L'' →
     Q (a, h, b) L'') →
  (∀ h b L'', own L (keep h (OMapping (host_kernel_name name)) ++ l) vs L'' → Q (0, h, b) L'') →
  wp (CreateNamedShm name size ex) L' Q.
Proof.
  intros Hown HQ HQ0. unfold CreateNamedShm. apply wp_bind.
  eapply wp_create_mapping; [exact Hown| |].
  - intros h b L1 Hh H1. rewrite (proj2 (Z.eqb_neq _ _)) by done. apply wp_bind.
    eapply wp_map; [exact H1|by intros; apply HQ|]. intros L2 H2. apply HQ0. unfold keep.
    by rewrite (proj2 (Z.eqb_neq _ _)).
  - intros b. by apply HQ0.
Qed.

(** Every lock of the registry is an open handle. *)
Definition reg_open reg (M : Ledger) : Prop := ∀ h n, reg !! h = Some n → is_Some (handles M !! h).

Lemma own_not_in_reg reg h o l vs L' :
  reg_open reg L → own L ((h, o) :: l) vs L' → reg !! h = None.
Proof.
  intros Hreg [_ _ _ Hf _ _]. apply Forall_cons in Hf as [[_ Hn] _].
  cbn in Hn. destruct (reg !! h) eqn:E; [|done]. apply Hreg in E as [? E]. congruence.
Qed.

Lemma wp_LockShm name h0 reg l vs L' (Q : bool * Z * Registry → Ledger → Prop) :
  own L l vs L' →
  (∀ h L'', h ≠ 0 → own L ((h, OMutex (lock_kernel_name name) true) :: l) vs L'' →
     Q (true, h, <[h := name]> reg) L'') →
  (∀ L'', own L l vs L'' → Q (false, h0, reg) L'') →
  wp (os_LockShm name h0 reg) L' Q.
Proof.
  intros Hown HQ HQ0. unfold os_LockShm. destruct (existsb _ _); [by apply HQ0|]. apply wp_bind.
  eapply wp_create_mutex; [exact Hown| |intros b; by apply HQ0].
  intros h b L1 Hh H1. rewrite (proj2 (Z.eqb_neq _ _)) by done. apply wp_bind. destruct b; cbn [negb] in H1.
  - eapply wp_wait; [exact H1|by intros; apply HQ|]. apply wp_bind.
    eapply wp_close; [exact H1|]. intros L2 H2. by apply HQ0.
  - by apply HQ.
Qed.

Lemma wp_UnlockShm h n reg l vs L' (Q : Registry → Ledger → Prop) :
  own L ((h, OMutex n true) :: l) vs L' → (∀ L'', own L l vs L'' → Q (delete h reg) L'') →
  wp (os_UnlockShm h reg) L' Q.
Proof.
  intros Hown HQ. pose proof (own_head _ _ _ _ _ _ Hown) as [Hh _]. unfold os_UnlockShm.
  rewrite (proj2 (Z.eqb_neq _ _)) by done. apply wp_bind. eapply wp_release; [exact Hown|].
  intros L1 H1. apply wp_bind. eapply wp_close; [exact H1|]. by apply HQ.
Qed.

Definition host_req (name : string) (ns i : nat) : object :=
  OEvent (host_kernel_name (slot_req_name name ns i)).
Definition host_resp (name : string) (i : nat) : object :=
  OEvent (host_kernel_name (slot_resp_name name i)).

Abbreviation host_events name ns evs := (named (host_req name ns) (host_resp name) 0 evs).

(** The events of one more slot on top of those of the slots before. *)
Lemma own_slot oreq oresp evs req resp n l vs L' :
  own L (keep resp (oresp (length evs)) ++ keep req (oreq (length evs)) ++
         named oreq oresp 0 evs ++ l) vs L' →
  own L (named oreq oresp 0 (evs ++ (req, resp) :: replicate n (0, 0)) ++ l) vs L'.
Proof.
  apply own_perm. rewrite named_app. cbn [named]. rewrite named_zeros, app_nil_r, Nat.add_0_l.
  rewrite <- !app_assoc. solve_Permutation.
Qed.

Lemma wp_event c o l vs L' (Q : Z → Ledger → Prop) :
  creates c o → own L l vs L' → (∀ h L'', own L (keep h o ++ l) vs L'' → Q h L'') →
  wp (os c) L' Q.
Proof.
  intros Hc Hown HQ. eapply wp_create; [exact Hc|exact Hown| |by apply (HQ 0)].
  intros h L'' Hh H1. apply HQ. unfold keep. by rewrite (proj2 (Z.eqb_neq _ _)).
Qed.

(** Every event exists. *)
Definition all_events (evs : list (Z * Z)) : Prop := Forall (λ ev, ev.1 ≠ 0 ∧ ev.2 ≠ 0) evs.

Lemma wp_create_events name ns n : ∀ evs l vs L',
  all_events evs → own L (host_events name ns evs ++ l) vs L' →
  wp (create_events name ns n (length evs) (evs ++ replicate n (0, 0))) L'
    (λ r L'', own L (host_events name ns r.2 ++ l) vs L'' ∧
       length r.2 = (length evs + n)%nat ∧ (r.1 = true ↔ all_events r.2)).
Proof.
  induction n as [|n IH]; intros evs l vs L' Hall Hown; cbn [create_events replicate].
  { rewrite app_nil_r, Nat.add_0_r. by split_and!. }
  apply wp_bind. eapply (wp_event _ (host_req name ns (length evs))); [done|exact Hown|].
  intros req L1 H1. apply wp_bind.
  eapply (wp_event _ (host_resp name (length evs))); [done|exact H1|]. intros resp L2 H2.
  apply (own_slot _ _ _ _ _ n) in H2. cbv zeta.
  rewrite insert_app_r_alt, Nat.sub_diag by done. cbn [insert list_insert].
  destruct (_ || _) eqn:E.
  { cbn. split_and!; [done|rewrite length_app; cbn; rewrite length_replicate; lia|].
    split; [done|]. intros (_&[[??] _]%Forall_cons)%Forall_app. cbn in *. lia. }
  apply orb_false_iff in E as [Eq%Z.eqb_neq Er%Z.eqb_neq].
  rewrite cons_middle, app_assoc in H2 |- *.
  rewrite named_app, named_zeros, app_nil_r in H2.
  replace (S (length evs)) with (length (evs ++ [(req, resp)])) by (rewrite length_app; cbn; lia).
  eapply wp_mono; [|apply IH; [|exact H2]].
  - intros r L3 (?&->&?). split_and!; [done| |done]. rewrite length_app. cbn. lia.
  - apply Forall_app. split; [done|]. by repeat constructor.
Qed.

(** What a running host owns. *)
Definition host_owned (ns : nat) (h : HostRes) : list (Z * object) :=
  host_events (hr_name h) ns (hr_events h) ++
  [(hr_lock h, OMutex (lock_kernel_name (hr_name h)) true);
   (hr_map h, OMapping (host_kernel_name (hr_name h)))].

Lemma wp_Shutdown ns h reg L' :
  hr_running h = true → hr_base h ≠ 0 → own L (host_owned ns h) [hr_base h] L' →
  wp (os_Shutdown h reg) L'
    (λ r L'', L'' = L ∧ r.2 = delete (hr_lock h) reg ∧ hr_running r.1 = false ∧
       hr_base r.1 = hr_base h ∧ hr_events r.1 = hr_events h).
Proof.
  intros Hrun Hbase Hown. unfold os_Shutdown. rewrite Hrun, (proj2 (Z.eqb_neq _ _) Hbase).
  cbn [negb]. apply wp_bind. eapply wp_close_events; [exact Hown|]. intros L1 H1.
  do 2 apply wp_bind. eapply wp_UnlockShm; [exact H1|]. intros L2 H2. apply wp_bind.
  eapply wp_CloseShm; [exact H2|]. intros L3 H3. by apply own_nil_inv in H3 as ->.
Qed.

(** A mapping that [Init] created and could not map. *)
Definition leak (r : ResultVoid.t) (h : HostRes) : list (Z * object) :=
  if bool_decide (ResultVoid.GetError r = InternalError) && (hr_base h =? 0)
  then keep (hr_map h) (OMapping (host_kernel_name (hr_name h))) else [].

(** The ways to fail: no view, no lock, no event. *)
Definition init_failed (n : nat) (r : ResultVoid.t) (h : HostRes) : Prop :=
  (r = ResultVoid.Failure InternalError ∧ hr_base h = 0) ∨
  (r = ResultVoid.Failure ResourceExhausted ∧ hr_base h = 0) ∨
  (r = ResultVoid.Failure InternalError ∧ hr_base h ≠ 0 ∧ length (hr_events h) = n ∧
   ¬ all_events (hr_events h)).

Lemma wp_Init name cfg reg :
  reg_open reg L →
  wp (os_Init name cfg new_res reg) L (λ '(r, h, reg') L',
    (r = ResultVoid.Success ∧ hr_running h = true ∧ hr_base h ≠ 0 ∧ hr_name h = name ∧
     length (hr_events h) = Z.to_nat (g_totalSlots (geometry cfg)) ∧ all_events (hr_events h) ∧
     reg' = <[hr_lock h := name]> reg ∧ reg !! hr_lock h = None ∧
     own L (host_owned (Z.to_nat (numHostSlots cfg)) h) [hr_base h] L') ∨
    (init_failed (Z.to_nat (g_totalSlots (geometry cfg))) r h ∧ hr_running h = false ∧
     reg' = reg ∧ own L (leak r h) [] L')).
Proof.
  intros Hreg. unfold os_Init. apply wp_bind.
  eapply wp_CreateNamedShm; [apply own_nil| |].
  2: { intros h b L1 H1. right. rewrite app_nil_r in H1. split_and!; [by left|done..]. }
  intros a h b L1 Ha H1. rewrite (proj2 (Z.eqb_neq _ _) Ha). apply wp_bind.
  eapply wp_LockShm; [exact H1| |].
  2: { intros L2 H2. cbn [negb]. apply wp_bind. eapply wp_CloseShm; [exact H2|].
       intros L3 H3. right. split_and!; [by right; left|done..]. }
  intros hl L2 Hhl H2. cbn [negb]. apply wp_bind.
  pose proof (own_not_in_reg _ _ _ _ _ _ Hreg H2) as Hnone.
  set (n := Z.to_nat (g_totalSlots (geometry cfg))). set (ns := Z.to_nat (numHostSlots cfg)).
  assert (resize_events n (hr_events new_res) = [] ++ replicate n (0, 0)) as ->.
  { unfold resize_events. cbn. by rewrite take_nil, Nat.sub_0_r. }
  eapply wp_mono; [|apply (wp_create_events name ns n []); [by constructor|exact H2]].
  intros [ok evs] L3 (H3&Hlen&Hall). destruct ok.
  - left. pose proof (proj1 Hall eq_refl). by split_and!.
  - apply wp_bind. eapply wp_mono; [|by eapply (wp_Shutdown ns)].
    intros [h' reg'] L4 (->&Hr&Hrun&Hb&Hev). right. cbn in Hr, Hrun, Hb, Hev. subst reg'.
    rewrite delete_insert_id by done. split_and!; [|done..|].
    { right. right. rewrite Hb, Hev. split_and!; [done..|]. by intros ?%Hall. }
    unfold leak. rewrite Hb.
    rewrite (proj2 (Z.eqb_neq _ _) Ha). cbn. apply own_nil.
Qed.

(** ** The guest *)

(** A guest kernel name, of something that could be opened. *)
Definition guest_object (o : list Z → object) (name : string) : object :=
  o (default [] (guest_kernel_name name)).

Lemma wp_go_createShm name size l vs L' (Q : option (Z * Z) → Ledger → Prop) :
  own L l vs L' →
  (∀ h a L'', own L ((h, guest_object OMapping name) :: l) (a :: vs) L'' → Q (Some (h, a)) L'') →
  (∀ L'', own L l vs L'' → Q None L'') → wp (go_createShm name size) L' Q.
Proof.
  intros Hown HQ HQ0. unfold go_createShm, guest_object in *.
  destruct (guest_kernel_name name); [|by apply HQ0]. apply wp_bind.
  eapply wp_create_mapping; [exact Hown| |intros b; by apply HQ0].
  intros h b L1 Hh H1. rewrite (proj2 (Z.eqb_neq _ _)) by done. apply wp_bind. eapply wp_map; [exact H1| |].
  - intros a L2 Ha H2. rewrite (proj2 (Z.eqb_neq _ _)) by done. by apply HQ.
  - intros L2 H2. apply wp_bind. eapply wp_close; [exact H2|]. intros L3 H3. by apply HQ0.
Qed.

Lemma wp_go_openEvent name l vs L' (Q : option Z → Ledger → Prop) :
  own L l vs L' →
  (∀ h L'', h ≠ 0 → own L ((h, guest_object OEvent name) :: l) vs L'' → Q (Some h) L'') →
  Q None L' → wp (go_openEvent name) L' Q.
Proof.
  intros Hown HQ HQ0. unfold go_openEvent, guest_named, guest_object in *.
  destruct (guest_kernel_name name); [|done]. apply wp_bind.
  eapply wp_create; [done|exact Hown| |done]. intros h L1 Hh H1.
  rewrite (proj2 (Z.eqb_neq _ _) Hh). by apply HQ.
Qed.

Lemma wp_go_openShm name size l vs L' (Q : option (Z * Z) → Ledger → Prop) :
  own L l vs L' →
  (∀ h a L'', own L ((h, guest_object OMapping name) :: l) (a :: vs) L'' → Q (Some (h, a)) L'') →
  (∀ L'', own L l vs L'' → Q None L'') → wp (go_openShm name size) L' Q.
Proof.
  intros Hown HQ HQ0. unfold go_openShm, guest_named, guest_object in *.
  destruct (guest_kernel_name name) as [n|]; [|by apply HQ0]. apply wp_bind.
  eapply wp_create; [done|exact Hown| |by apply HQ0]. intros h L1 Hh H1.
  rewrite (proj2 (Z.eqb_neq _ _) Hh). apply wp_bind. eapply wp_map; [exact H1| |].
  2: { intros L2 H2. apply wp_bind. eapply wp_close; [exact H2|]. by apply HQ0. }
  intros a L2 Ha H2. rewrite (proj2 (Z.eqb_neq _ _) Ha). apply wp_bind.
  assert (∀ M, own L ((h, OMapping n) :: l) (a :: vs) M →
    wp (os (UnmapViewOfFile a) ≫= λ _, os (CloseHandle h) ≫= λ _, mret None) M Q) as Hfail.
  { intros M HM. apply wp_bind. eapply wp_unmap; [exact HM|]. intros M1 HM1. apply wp_bind.
    eapply wp_close; [exact HM1|]. by apply HQ0. }
  eapply wp_query; [exact H2|]. intros [r|]; [|by apply Hfail].
  destruct (_ <? _); [by apply Hfail|by apply HQ].
Qed.

Lemma wp_go_closeShm h a o l vs L' (Q : unit → Ledger → Prop) :
  own L ((h, o) :: l) (a :: vs) L' → (∀ L'', own L l vs L'' → Q tt L'') →
  wp (go_closeShm h a) L' Q.
Proof.
  intros Hown HQ. pose proof (own_head _ _ _ _ _ _ Hown) as [Hh _].
  pose proof (own_view _ _ _ _ _ Hown) as [Ha _]. unfold go_closeShm.
  rewrite !(proj2 (Z.eqb_neq _ _)) by done. apply wp_bind. eapply wp_unmap; [exact Hown|].
  intros L1 H1. by eapply wp_close.
Qed.

Definition guest_req (name : string) (ns i : nat) : object :=
  guest_object OEvent (slot_req_name name ns i).
Definition guest_resp (name : string) (i : nat) : object :=
  guest_object OEvent (slot_resp_name name i).

Abbreviation guest_events name ns evs := (named (guest_req name ns) (guest_resp name) 0 evs).

(** What an attached guest owns besides its view. *)
Definition guest_owned (name : string) (ns : nat) (h : Z) (evs : list (Z * Z)) : list (Z * object) :=
  guest_events name ns evs ++ [(h, guest_object OMapping name)].

(** Give up: mapping first, then the events. *)
Lemma wp_give_up name ns h a evs L' (Q : option (list (Z * Z)) → Ledger → Prop) :
  all_events evs → own L (guest_owned name ns h evs) [a] L' → Q None L →
  wp (go_closeShm h a ≫= λ _, go_close_events evs ≫= λ _, mret None) L' Q.
Proof.
  intros Hall Hown HQ. apply wp_bind. eapply wp_go_closeShm.
  { eapply own_perm; [|exact Hown]. unfold guest_owned. symmetry. apply Permutation_cons_append. }
  intros L1 H1. apply wp_bind. rewrite <- (app_nil_r (named _ _ _ _)) in H1.
  eapply wp_go_close_events; [exact Hall|exact H1|]. by intros L2 ->%own_nil_inv.
Qed.

Lemma wp_open_events name ns h a n : ∀ evs L',
  all_events evs → own L (guest_owned name ns h evs) [a] L' →
  wp (open_events name ns h a n (length evs) evs) L' (λ r L'',
    match r with
    | Some evs' => length evs' = (length evs + n)%nat ∧ all_events evs' ∧
        own L (guest_owned name ns h evs') [a] L''
    | None => L'' = L
    end).
Proof.
  induction n as [|n IH]; intros evs L' Hall Hown; cbn [open_events].
  { rewrite Nat.add_0_r. by split_and!. }
  apply wp_bind. eapply wp_go_openEvent; [exact Hown| |by eapply wp_give_up].
  intros req L1 Hreq H1. apply wp_bind. eapply wp_go_openEvent; [exact H1| |].
  2: { apply wp_bind. eapply wp_close; [exact H1|]. intros L2 H2. by eapply wp_give_up. }
  intros resp L2 Hresp H2.
  replace (S (length evs)) with (length (evs ++ [(req, resp)])) by (rewrite length_app; cbn; lia).
  eapply wp_mono; [|apply IH].
  - intros [evs'|] L3; [|done]. rewrite length_app. cbn. intros (?&?&?). split_and!; [lia|done..].
  - apply Forall_app. split; [done|]. by repeat constructor.
  - unfold guest_owned. pose proof (own_slot (guest_req name ns) (guest_resp name) evs req resp 0) as Hs.
    apply Hs. unfold keep. rewrite !(proj2 (Z.eqb_neq _ _)) by done. exact H2.
Qed.

Lemma wp_NewDirectGuest name hdr :
  wp (os_NewDirectGuest name hdr) L (λ r L',
    match r with
    | Some g => gr_closed g = false ∧ all_events (gr_events g) ∧
        length (gr_events g) = Z.to_nat (u32 (hdr E_numSlots + hdr E_numGuestSlots)) ∧
        own L (guest_owned name (Z.to_nat (hdr E_numSlots)) (gr_handle g) (gr_events g))
          [gr_base g] L'
    | None => L' = L
    end).
Proof.
  unfold os_NewDirectGuest. apply wp_bind.
  eapply wp_go_openShm; [apply own_nil| |by intros L1 ->%own_nil_inv].
  intros h a L1 H1. apply wp_bind. eapply wp_go_closeShm; [exact H1|].
  intros L2 ->%own_nil_inv. destruct (check_header hdr); [done|]. apply wp_bind.
  eapply wp_go_openShm; [apply own_nil| |by intros L3 ->%own_nil_inv].
  intros h' a' L3 H3. apply wp_bind.
  eapply wp_mono; [|eapply (wp_open_events _ _ _ _ _ []); [by constructor|exact H3]].
  intros [evs|] L4; [|done]. cbn. intros (?&?&?). by split_and!.
Qed.

Lemma wp_Close name ns g L' (Q : GuestRes → Ledger → Prop) :
  gr_closed g = false → all_events (gr_events g) →
  own L (guest_owned name ns (gr_handle g) (gr_events g)) [gr_base g] L' →
  (∀ g', gr_closed g' = true → Q g' L) → wp (os_Close g) L' Q.
Proof.
  intros Hc Hall Hown HQ. unfold os_Close. rewrite Hc. apply wp_bind.
  eapply wp_go_close_events; [exact Hall|exact Hown|]. intros L1 H1. apply wp_bind.
  eapply wp_go_closeShm; [exact H1|]. intros L2 ->%own_nil_inv. by apply HQ.
Qed.
End ops.

(** ** Sessions *)

(** A host object from its constructor to its destructor, with [Init] and
    [Shutdown] in between; or a guest from [NewDirectGuest] to [Close], called
    twice. *)
Inductive session : Type :=
  | HostSession (name : string) (cfg : HostConfig)
  | GuestSession (name : string) (hdr : exchange_field → Z).

(** The handles that are left open, and the registry. *)
Definition os_session (reg : Registry) (s : session) : osm (list (Z * object) * Registry) :=
  match s with
  | HostSession name cfg =>
      '(r, h, reg) ← os_Init name cfg new_res reg;
      '(h', reg) ← os_Shutdown h reg;
      '(_, reg) ← os_Shutdown h' reg;
      mret (leak r h, reg)
  | GuestSession name hdr =>
      g ← os_NewDirectGuest name hdr;
      match g with
      | Some g => g ← os_Close g; _ ← os_Close g; mret ([], reg)
      | None => mret ([], reg)
      end
  end.

Fixpoint os_sessions (reg : Registry) (ss : list session) : osm (list (Z * object) * Registry) :=
  match ss with
  | [] => mret ([], reg)
  | s :: ss =>
      '(l, reg) ← os_session reg s;
      '(l', reg) ← os_sessions reg ss;
      mret (l' ++ l, reg)
  end.

Definition is_mapping_object (o : object) : Prop := ∃ name, o = OMapping name.

Lemma leak_mappings r h : Forall (λ x, is_mapping_object x.2) (leak r h).
Proof.
  unfold leak, keep. destruct (_ && _); [|constructor]. destruct (_ =? 0); [constructor|].
  constructor; [by eexists|constructor].
Qed.

Lemma wp_session L reg s :
  reg_open reg L →
  wp (os_session reg s) L (λ r L',
    r.2 = reg ∧ own L r.1 [] L' ∧ Forall (λ x, is_mapping_object x.2) r.1).
Proof.
  intros Hreg. destruct s as [name cfg|name hdr]; cbn [os_session].
  - apply wp_bind. eapply wp_mono; [|by apply wp_Init].
    intros [[r h] reg1] L1 [(->&Hrun&Hb&_&_&_&->&Hn&Hown)|(_&Hrun&->&Hown)]; apply wp_bind.
    + eapply wp_mono; [|by eapply wp_Shutdown]. intros [h' reg'] L2 (->&Hr&Hrun'&_).
      cbn in Hr, Hrun'. subst reg'. apply wp_bind. unfold os_Shutdown. rewrite Hrun'. cbn [negb].
      cbn. rewrite delete_insert_id by done. split_and!; [done|apply own_nil|constructor].
    + unfold os_Shutdown. rewrite Hrun. cbn [negb]. apply wp_ret, wp_bind. rewrite Hrun. cbn [negb].
      apply wp_ret. split_and!; [done|exact Hown|apply leak_mappings].
  - apply wp_bind. eapply wp_mono; [|apply wp_NewDirectGuest]. intros [g|] L1.
    + intros (Hc&Hall&_&Hown). apply wp_bind. eapply wp_Close; [done|done|done|]. intros g' Hg'.
      apply wp_bind. unfold os_Close. rewrite Hg'. cbn. split_and!; [done|apply own_nil|constructor].
    + intros ->. split_and!; [done|apply own_nil|constructor].
Qed.

Lemma wp_sessions ss : ∀ L reg,
  reg_open reg L →
  wp (os_sessions reg ss) L (λ r L',
    r.2 = reg ∧ own L r.1 [] L' ∧ Forall (λ x, is_mapping_object x.2) r.1).
Proof.
  induction ss as [|s ss IH]; intros L reg Hreg; cbn [os_sessions].
  { split_and!; [done|apply own_nil|constructor]. }
  apply wp_bind. eapply wp_mono; [|by apply wp_session].
  intros [l reg1] L1 (Hr&Hown&Hm). cbn [fst snd] in *. subst reg1. apply wp_bind. eapply wp_mono; [|apply IH].
  - intros [l' reg2] L2 (Hr&Hown'&Hm'). cbn [fst snd] in *. subst reg2.
    split_and!; [done| |by apply Forall_app].
    exact (own_trans _ _ _ _ _ _ _ Hown Hown').
  - intros h n [o Ho]%Hreg. eexists. by eapply own_lookup.
Qed.

(** C18: nothing is leaked or closed twice.  Over any sequence of host and guest
    sessions in a process, with every system call failing or succeeding as it
    likes, each handle that is closed is open, each view that is unmapped is
    mapped and each mutex that is released is owned; at the end the lock registry
    is as before and everything is closed again, except for mappings that [Init]
    created but could not map; when there is none, the process is exactly as it
    was. *)
Theorem sessions_balanced (o : oracle) ss L reg :
  reg_open reg L →
  let out := os_run o 0 (os_sessions reg ss) L in
  honest out = true →
  correct out = true ∧ (answer out).2 = reg ∧
  own L (answer out).1 [] (ledger out) ∧
  Forall (λ x, is_mapping_object x.2) (answer out).1 ∧
  ((answer out).1 = [] → ledger out = L).
Proof.
  intros Hreg out Hh. destruct (wp_sound _ o 0 L _ (wp_sessions ss L reg Hreg) Hh) as (?&?&Hown&?).
  split_and!; try done. intros E. fold out in Hown. rewrite E in Hown. by apply own_nil_inv.
Qed.

(** An operating system that grants everything but the calls in [fails]. *)
Definition ex_kernel (fails : list nat) : oracle := λ n X c,
  let h := if bool_decide (n ∈ fails) then 0 else 4 * (Z.of_nat n + 1) in
  match c with
  | CreateEventW _ | OpenEventW _ | OpenFileMappingW _ | MapViewOfFile _ => h
  | CreateFileMappingW _ _ | CreateMutexW _ => (h, false)
  | VirtualQuery _ => Some (2 ^ 20)
  | WaitForSingleObject _ _ => true
  | UnmapViewOfFile _ | ReleaseMutex _ | CloseHandle _ => tt
  | SetThreadAffinityMask _ => 1
  end.

Definition ex_empty : Ledger := mkLedger ∅ ∅.
Definition ex_cfg : HostConfig := mkHostConfig 2 1024 1.
Definition ex_hdr (f : exchange_field) : Z :=
  match f with
  | E_magic => guest_Magic | E_version => guest_Version | E_numSlots => 2 | E_numGuestSlots => 1
  | E_slotSize => 1024 | E_reqOffset => 0 | E_respOffset => 512
  end.

Definition ex_sessions : list session := [HostSession "shm" ex_cfg; GuestSession "shm" ex_hdr].

Lemma sessions_balanced_witness :
  ledger (os_run (ex_kernel []) 0 (os_sessions ∅ ex_sessions) ex_empty) = ex_empty ∧
  correct (os_run (ex_kernel []) 0 (os_sessions ∅ ex_sessions) ex_empty) = true.
Proof.
  destruct (sessions_balanced (ex_kernel []) ex_sessions ex_empty ∅) as (?&_&_&_&H).
  - intros h n. by rewrite lookup_empty.
  - vm_compute. reflexivity.
  - split; [apply H; vm_compute; reflexivity|done].
Defined.

(** ** Agreement with the models of shared memory *)

(** The answers of the operating system as [DirectHost.Init] takes them. *)
Definition answers_of (r : ResultVoid.t) (h : HostRes) : OsAnswers :=
  mkOs (negb (hr_base h =? 0) || bool_decide (ResultVoid.GetError r = ResourceExhausted))
    (bool_decide (ResultVoid.GetError r ≠ ResourceExhausted))
    (λ i, (hr_events h !!! i).1) (λ i, (hr_events h !!! i).2).

Lemma init_slots_fails g os n : ∀ i l w,
  (∃ j, (i ≤ j < i + n)%nat ∧ (os_reqEvent os j = 0 ∨ os_respEvent os j = 0)) ↔
  ∃ x, init_slots g os n i l w = inr x.
Proof.
  induction n as [|n IH]; intros i l w; cbn [init_slots].
  { split; [intros (j&?&_); lia|by intros []]. }
  destruct (_ || _) eqn:E.
  - split; [by eexists|]. intros _. exists i. split; [lia|]. lia.
  - rewrite <- (IH (S i)). split; intros (j&Hj&Hz).
    + exists j. split; [|done]. destruct (decide (j = i)) as [->|]; lia.
    + exists j. split; [lia|done].
Qed.

(** The result of [DirectHost.Init] as a function of the answers. *)
Lemma Init_result os cfg hst w :
  (Init os cfg hst w).1.1 =
  if negb (os_map os) then ResultVoid.Failure InternalError
  else if negb (os_lock os) then ResultVoid.Failure ResourceExhausted
  else if bool_decide (Forall (λ i, os_reqEvent os i ≠ 0 ∧ os_respEvent os i ≠ 0)
                         (seq 0 (Z.to_nat (g_totalSlots (geometry cfg)))))
  then ResultVoid.Success else ResultVoid.Failure InternalError.
Proof.
  unfold Init. cbv zeta. destruct (os_map os); [|done]. destruct (os_lock os); [|done]. cbn [negb].
  set (n := Z.to_nat _). match goal with |- context [init_slots ?g os n 0 ?l ?w] =>
    pose proof (init_slots_fails g os n 0 l w) as H; destruct (init_slots g os n 0 l w) as [[]|[]] end.
  - rewrite bool_decide_eq_true_2; [done|]. apply Forall_forall. intros j Hj%elem_of_seq.
    apply dec_stable. intros Hz. destruct (proj1 H) as [? [=]]. exists j. lia.
  - assert ((Forall (λ i, os_reqEvent os i ≠ 0 ∧ os_respEvent os i ≠ 0) (seq 0 n)) → False) as Hn.
    { intros Hall. destruct (proj2 H) as (j&Hj&Hz); [by eexists|].
      destruct (proj1 (Forall_forall _ _) Hall j); [by apply elem_of_seq|lia]. }
    rewrite bool_decide_eq_false_2 by done. by destruct (run_alone _ _ _ _) as [[]|].
Qed.

(** [DirectHost.Init], given the answers that the calls of [os_Init] got, returns
    what [os_Init] returns. *)
Lemma Init_answers (o : oracle) name cfg L reg hst w :
  reg_open reg L →
  let out := os_run o 0 (os_Init name cfg new_res reg) L in
  honest out = true →
  (Init (answers_of (answer out).1.1 (answer out).1.2) cfg hst w).1.1 = (answer out).1.1.
Proof.
  intros Hreg out Hh. destruct (wp_sound _ o 0 L _ (wp_Init L name cfg reg Hreg) Hh) as [_ HQ].
  fold out in HQ. destruct (answer out) as [[r h] reg']. cbn [fst snd].
  rewrite Init_result. cbn [os_map os_lock os_reqEvent os_respEvent answers_of].
  set (n := Z.to_nat _) in *.
  assert (length (hr_events h) = n →
    Forall (λ i, (hr_events h !!! i).1 ≠ 0 ∧ (hr_events h !!! i).2 ≠ 0) (seq 0 n) ↔
    all_events (hr_events h)) as Hev.
  { intros Hlen. unfold all_events. rewrite Forall_seq, Forall_lookup. split; intros H i.
    - intros ev Hi. rewrite <- (list_lookup_total_correct _ _ _ Hi). apply H.
      apply lookup_lt_Some in Hi. lia.
    - intros Hi. eapply H, list_lookup_lookup_total_lt. lia. }
  destruct HQ as [(->&_&Hb&_&Hlen&Hall&_)|([[-> Hb]|[[-> Hb]|(->&Hb&Hlen&Hall)]]&_)];
    [| by rewrite Hb | by rewrite Hb |]; rewrite (proj2 (Z.eqb_neq _ _) Hb);
    rewrite <- (Hev Hlen) in Hall.
  - by rewrite (bool_decide_eq_true_2 (Forall _ _) Hall).
  - by rewrite (bool_decide_eq_false_2 (Forall _ _) Hall).
Qed.

(** ** Where the code falls short *)

(** When the view cannot be mapped, [Init] returns without closing the mapping,
    and a later [Init] overwrites the only copy of the handle. *)
Lemma unmapped_mapping_leaks :
  let out := os_run (ex_kernel [1%nat]) 0 (os_session ∅ (HostSession "shm" ex_cfg)) ex_empty in
  honest out = true ∧ handles (ledger out) !! 4 = Some (OMapping (host_kernel_name "shm")).
Proof. vm_compute. done. Qed.

(** [Shutdown] closes the events but keeps their values, and [Init] keeps the old
    slots until its loop reaches them.  When a second [Init] of the same object
    cannot create the first event, it closes the events of the other slots a
    second time. *)
Definition reinit : osm ResultVoid.t :=
  '(_, h, reg) ← os_Init "shm" ex_cfg new_res ∅;
  '(h, reg) ← os_Shutdown h reg;
  '(r, _, _) ← os_Init "shm" ex_cfg h reg;
  mret r.

Lemma reinit_closes_twice :
  let out := os_run (ex_kernel [22%nat]) 0 reinit ex_empty in
  honest out = true ∧ answer out = ResultVoid.Failure InternalError ∧ correct out = false.
Proof. vm_compute. done. Qed.
