(* ===== verification/Affinity.v ===== *)
(** * Affinity: where the guest places its workers (go/affinity.go)

    The policy that maps a slot to a set of logical processors, and the topology
    parsers of go/platform_windows.go that it consults.  [Platform] has the C++
    counterparts of the parsers, whose results the library hands to its callers: where
    host threads run is up to them.  Host and guest run the parsers independently;
    [topology_agrees] is that they come to the same pairs and masks on well-formed
    answers ([truncated_record]: not on others) and that the policy picks from them.

    - the answer of [GetLogicalProcessorInformationEx] is the pair of its success and
      the buffer, as in [Platform]; the caches of [CcxMasks] and [SmtPairs] hold the
      result of the first call;
    - [None] is an index out of range, which panics, or a read past the buffer
      through an unsafe pointer. *)

From S2P Require Export Platform Resources.

Local Open Scope Z_scope.

(** ** Topology *)

(** [popcount64]: each round clears a bit. *)
Fixpoint popcount_loop (fuel : nat) (x : Z) (n : nat) : option nat :=
  match fuel with
  | O => None
  | S fuel => if x =? 0 then Some n else popcount_loop fuel (Z.land x (u64 (x - 1))) (S n)
  end.

Definition popcount64 (x : Z) : option nat := popcount_loop 65 x 0.

(** The loop of both parsers; the guard is [off < need]. *)
Fixpoint go_walk {A} (fuel : nat) (pick : nat → Z → nat → option (option A))
    (buf : list byte) (need off : nat) : option (list A) :=
  match fuel with
  | O => None
  | S fuel =>
      if (off <? need)%nat then
        rel ← rd buf off 4;
        size ← rd buf (off + 4) 4;
        x ← pick off rel (Z.to_nat size);
        if size =? 0 then Some (option_list x)
        else
          rest ← go_walk fuel pick buf need (off + Z.to_nat size);
          Some (option_list x ++ rest)
      else Some []
  end.

Definition go_pick_ccx (buf : list byte) (off : nat) (rel : Z) (size : nat) : option (option Z) :=
  if (rel =? RelationCache) && (56 <=? size)%nat then
    level ← rd buf (off + 8) 1;
    cacheType ← rd buf (off + 16) 4;
    groupCount ← rd buf (off + 38) 2;
    if (level =? 3) && (cacheType =? 0) && (groupCount =? 1) then
      mask ← rd buf (off + 40) 8;
      Some (if negb (mask =? 0) then Some mask else None)
    else Some None
  else Some None.

Definition enumerateCcxMasks (ok : bool) (buf : list byte) (need : nat) : option (list Z) :=
  if (length buf =? 0)%nat then Some []
  else if negb ok then Some []
  else go_walk (S need) (go_pick_ccx buf) buf need 0.

Definition go_split (mask : Z) : option (option SmtPair) :=
  n ← popcount64 mask;
  Some (if (n =? 2)%nat then
          let h := Z.land mask (u64 (not64 mask + 1)) in
          Some (mkSmtPair h (Z.land mask (not64 h)))
        else None).

(** A record of size 0 ends the loop before it is looked at: such a record is not
    picked. *)
Definition go_pick_smt (buf : list byte) (off : nat) (rel : Z) (size : nat)
    : option (option SmtPair) :=
  if (rel =? RelationProcessorCore) && (48 <=? size)%nat then
    flags ← rd buf (off + 8) 1;
    groupCount ← rd buf (off + 30) 2;
    if negb (Z.land flags 1 =? 0) && (groupCount =? 1) then
      mask ← rd buf (off + 32) 8; go_split mask
    else Some None
  else Some None.

Definition enumerateSmtPairs (ok : bool) (buf : list byte) (need : nat) : option (list SmtPair) :=
  if (length buf =? 0)%nat then Some []
  else if negb ok then Some []
  else go_walk (S need) (go_pick_smt buf) buf need 0.

(** ** Policy *)

Definition AffinityAuto : Z := 0.
Definition AffinityNone : Z := 1.
Definition AffinityLocal : Z := 2.
Definition AffinitySibling : Z := 3.

Definition AffinityMode_String (m : Z) : string :=
  if m =? AffinityAuto then "auto"
  else if m =? AffinityNone then "none"
  else if m =? AffinityLocal then "local"
  else if m =? AffinitySibling then "sibling"
  else "unknown".

(** What the process sees: [GOMAXPROCS], [SmtPairs()], [CcxMasks()]. *)
Record machine : Type := mkMachine {
  gomaxprocs : Z; smtPairs : list SmtPair; ccxMasks : list Z }.

Section policy.
Context (m : machine).

Definition resolveAuto (numSlots mode : Z) : Z :=
  if negb (mode =? AffinityAuto) then mode
  else if (0 <? numSlots) && (gomaxprocs m <? numSlots) then AffinityNone
  else
    let pairs := Z.of_nat (length (smtPairs m)) in
    if (0 <? numSlots) && (0 <? pairs) && (numSlots <=? pairs) then AffinitySibling
    else if 1 <? Z.of_nat (length (ccxMasks m)) then AffinityLocal
    else AffinityNone.

(** [l[slotIdx % len(l)]]; [None]: the index is out of range, which a negative
    [slotIdx] would make it. *)
Definition at_slot {A} (l : list A) (slotIdx : Z) : option A :=
  let k := Z.rem slotIdx (Z.of_nat (length l)) in
  if k <? 0 then None else l !! Z.to_nat k.

(** 0: no pinning. *)
Definition affinityMaskForSlot (slotIdx numSlots mode : Z) : option Z :=
  let resolved := resolveAuto numSlots mode in
  if resolved =? AffinityNone then Some 0
  else if resolved =? AffinitySibling then
    if (length (smtPairs m) =? 0)%nat then Some 0 else guest <$> at_slot (smtPairs m) slotIdx
  else if resolved =? AffinityLocal then
    if (length (ccxMasks m) =? 0)%nat then Some 0 else at_slot (ccxMasks m) slotIdx
  else Some 0.

(** The second component: whether the goroutine is locked to its thread. *)
Definition pinCurrentThreadAffinity (mask : Z) : osm Z :=
  if mask =? 0 then mret 0 else os (SetThreadAffinityMask mask).

Definition PinCurrentGoroutine (mask : Z) : osm bool :=
  if mask =? 0 then mret false else _ ← pinCurrentThreadAffinity mask; mret true.

Definition pinSlotWorker (slotIdx numSlots mode : Z) : option (osm bool) :=
  PinCurrentGoroutine <$> affinityMaskForSlot slotIdx numSlots mode.
End policy.

(** ** Both sides find the same topology *)

Lemma popcount_S fuel x n :
  popcount_loop (S fuel) x n =
    if x =? 0 then Some n else popcount_loop fuel (Z.land x (u64 (x - 1))) (S n).
Proof. done. Qed.

(** After [t] rounds the low [t] bits are clear, so 64 rounds clear all. *)
Lemma popcount_ends t : ∀ x n,
  (t ≤ 64)%nat → is_u64 x → (2 ^ Z.of_nat (64 - t) | x) → is_Some (popcount_loop (S t) x n).
Proof.
  induction t as [|t IH]; intros x n Ht Hx Hd.
  - rewrite popcount_S. destruct Hd as [q ->]. change (64 - 0)%nat with 64%nat in *.
    destruct (Z.eqb_spec (q * 2 ^ Z.of_nat 64) 0); [done|]. nia.
  - rewrite popcount_S. destruct (Z.eqb_spec x 0); [done|].
    destruct (lowest_bit x) as (k&q&Hk&Hq&E); [lia|]. rewrite (u64_id (x - 1)) by lia.
    pose proof (clear_lowest k q Hk) as Hc. cbv zeta in Hc. rewrite <- E in Hc. rewrite Hc.
    assert (Z.of_nat (64 - S t) <= k) as Hle.
    { destruct Hd as [r Hr]. destruct (Z.le_gt_cases (Z.of_nat (64 - S t)) k) as [|Hgt]; [done|].
      exfalso. replace (Z.of_nat (64 - S t)) with (k + 1 + (Z.of_nat (64 - S t) - k - 1)) in Hr by lia.
      rewrite !Z.pow_add_r, Z.pow_1_r in Hr by lia. rewrite E in Hr.
      assert (0 < 2 ^ k) by (apply Z.pow_pos_nonneg; lia).
      assert (2 * q + 1 = r * (2 * 2 ^ (Z.of_nat (64 - S t) - k - 1))) by nia. lia. }
    apply IH; [lia| |].
    + assert (0 < 2 ^ k) by (apply Z.pow_pos_nonneg; lia). rewrite Z.pow_add_r by lia. nia.
    + exists (2 ^ (k + 1 - Z.of_nat (64 - t)) * q).
      rewrite <- Z.mul_assoc, (Z.mul_comm q), Z.mul_assoc, <- Z.pow_add_r by lia. f_equal. f_equal. lia.
Qed.

Lemma popcount_grows fuel : ∀ x n r, popcount_loop fuel x n = Some r → (n ≤ r)%nat.
Proof.
  induction fuel as [|fuel IH]; intros x n r; cbn [popcount_loop]; [done|].
  destruct (x =? 0); [by intros [= ->]|]. intros H%IH. lia.
Qed.

(** The bounded count of the host and the full count of the guest agree on two. *)
Lemma popcount_two x :
  is_u64 x → ∃ n, popcount64 x = Some n ∧ (n =? 2)%nat = (count_bits 3 x 0 =? 2)%nat.
Proof.
  intros Hx. destruct (popcount_ends 64 x 0) as [n Hn]; [lia|done|by exists x; rewrite Z.mul_1_r|].
  exists n. split; [exact Hn|]. revert Hn. cbn [count_bits Nat.ltb Nat.leb].
  rewrite popcount_S. destruct (x =? 0); [by intros [= <-]|]. set (x1 := Z.land x _). clearbody x1.
  rewrite popcount_S. destruct (x1 =? 0); [by intros [= <-]|]. set (x2 := Z.land x1 _). clearbody x2.
  rewrite popcount_S. destruct (x2 =? 0); [by intros [= <-]|]. intros Hn%popcount_grows.
  destruct (Nat.eqb_spec n 2); [lia|done].
Qed.

Lemma go_split_eq mask : is_u64 mask → go_split mask = Some (smt_split mask).
Proof.
  intros (n&Hn&E)%popcount_two. unfold go_split, smt_split. rewrite Hn, <- E. reflexivity.
Qed.

Lemma go_pick_ccx_of pre r post :
  go_pick_ccx (pre ++ r ++ post) (length pre) (Codec.get r 0 4) (length r) = Some (ccx_of r).
Proof.
  unfold go_pick_ccx, ccx_of.
  destruct (Nat.leb_spec 56 (length r)), (_ =? RelationCache); cbn [andb]; try done.
  rewrite !rd_mid by lia. cbn [mbind option_bind].
  by destruct (_ =? 3), (_ =? 0), (_ =? 1), (Codec.get r 40 8 =? 0).
Qed.

Lemma go_pick_smt_of pre r post :
  go_pick_smt (pre ++ r ++ post) (length pre) (Codec.get r 0 4) (length r) = Some (smt_of r).
Proof.
  unfold go_pick_smt, smt_of. destruct (_ =? RelationProcessorCore); cbn [andb]; [|done].
  destruct (Nat.leb_spec 48 (length r)); [|done]. rewrite !rd_mid by lia. cbn [mbind option_bind andb].
  rewrite go_split_eq by apply (Codec.get_range r 32 8). by destruct (_ && _).
Qed.

Lemma go_walk_records {A} (pick : list byte → nat → Z → nat → option (option A))
    (of_ : list byte → option A) :
  (∀ pre r post, pick (pre ++ r ++ post) (length pre) (Codec.get r 0 4) (length r) = Some (of_ r)) →
  ∀ rs fuel pre, Forall record_ok rs → (length rs < fuel)%nat →
  let b := pre ++ concat rs in
  go_walk fuel (pick b) b (length b) (length pre) = Some (omap of_ rs).
Proof.
  intros Hpick. induction rs as [|r rs IH]; intros fuel pre Hrs Hf b; subst b.
  - destruct fuel; [simpl in Hf; lia|]. cbn [concat go_walk]. rewrite app_nil_r.
    by rewrite (proj2 (Nat.ltb_ge _ _)) by lia.
  - apply Forall_cons in Hrs as [[H8 Hsz] Hrs]. destruct fuel as [|fuel]; [simpl in Hf; lia|].
    cbn [go_walk concat]. rewrite (proj2 (Nat.ltb_lt _ _)) by (rewrite !length_app; lia).
    pose proof (rd_mid pre r (concat rs) 0 4 ltac:(lia)) as H0. rewrite Nat.add_0_r in H0.
    rewrite H0, rd_mid by lia. cbn [mbind option_bind]. rewrite Hsz, Nat2Z.id, Hpick.
    cbn [mbind option_bind]. destruct (Z.eqb_spec (Z.of_nat (length r)) 0); [lia|].
    specialize (IH fuel (pre ++ r) Hrs). rewrite <- app_assoc, length_app in IH.
    rewrite IH by (simpl in Hf; lia). simpl. by destruct (of_ r).
Qed.

Lemma go_enumerate_records rs :
  Forall record_ok rs →
  let b := concat rs in
  enumerateCcxMasks true b (length b) = Some (omap ccx_of rs) ∧
  enumerateSmtPairs true b (length b) = Some (omap smt_of rs).
Proof.
  intros Hrs b. pose proof (records_fit rs Hrs) as Hf. unfold enumerateCcxMasks, enumerateSmtPairs.
  destruct (Nat.eqb_spec (length b) 0) as [Hb|Hb]; cbn [negb].
  { destruct Hrs as [|r rs [??]]; [done|]. subst b. cbn in Hb. rewrite length_app in Hb. lia. }
  split.
  - exact (go_walk_records go_pick_ccx ccx_of go_pick_ccx_of rs _ [] Hrs Hf).
  - exact (go_walk_records go_pick_smt smt_of go_pick_smt_of rs _ [] Hrs Hf).
Qed.

(** ** Placement *)

(** The two processors of a core. *)
Definition siblings (rs : list (list byte)) (h g : Z) : Prop :=
  ∃ r i j, r ∈ rs ∧ 0 <= i < j ∧ Codec.get r 32 8 = 2 ^ i + 2 ^ j ∧ h = 2 ^ i ∧ g = 2 ^ j.

Lemma smt_of_siblings rs p : p ∈ omap smt_of rs → siblings rs (host p) (guest p).
Proof.
  intros (r&Hr&Hs)%list_elem_of_omap. unfold smt_of in Hs. destruct (_ && _); [|done].
  apply smt_split_spec in Hs as (i&j&Hij&E&->); [|apply (Codec.get_range r 32 8)].
  by exists r, i, j.
Qed.

Lemma at_slot_Some {A} (l : list A) s :
  0 <= s → l ≠ [] → ∃ x, at_slot l s = Some x ∧ l !! Z.to_nat (s mod Z.of_nat (length l)) = Some x.
Proof.
  intros Hs Hl. unfold at_slot. assert (0 < Z.of_nat (length l)) by (destruct l; [done|simpl; lia]).
  rewrite Z.rem_mod_nonneg by lia. pose proof (Z.mod_pos_bound s (Z.of_nat (length l))).
  rewrite (proj2 (Z.ltb_ge _ _)) by lia.
  destruct (lookup_lt_is_Some_2 l (Z.to_nat (s mod Z.of_nat (length l)))) as [x Hx]; [lia|]. eauto.
Qed.

Lemma resolveAuto_gated m n : 0 < n → gomaxprocs m < n → resolveAuto m n AffinityAuto = AffinityNone.
Proof.
  intros H1 H2. unfold resolveAuto. by rewrite (proj2 (Z.ltb_lt 0 n)), (proj2 (Z.ltb_lt _ n)).
Qed.

Lemma resolveAuto_sibling m n :
  resolveAuto m n AffinityAuto = AffinitySibling → 0 < n ∧ n <= Z.of_nat (length (smtPairs m)).
Proof.
  unfold resolveAuto. cbn [AffinityAuto Z.eqb negb].
  destruct (_ && (gomaxprocs m <? n)); [done|]. destruct (_ && (n <=? _)) eqn:E.
  - rewrite !andb_true_iff, Z.ltb_lt, Z.leb_le in E. intros _. lia.
  - destruct (1 <? _); by intros [=].
Qed.

(** Every slot has a mask, from the list of its mode. *)
Lemma placed m n mode s :
  0 <= s →
  ∃ mask, affinityMaskForSlot m s n mode = Some mask ∧
    (resolveAuto m n mode = AffinitySibling → smtPairs m ≠ [] →
       ∃ p, at_slot (smtPairs m) s = Some p ∧ mask = guest p ∧ p ∈ smtPairs m).
Proof.
  intros Hs. unfold affinityMaskForSlot. set (r := resolveAuto m n mode).
  destruct (Z.eqb_spec r AffinityNone) as [->|]; [by exists 0|].
  destruct (Z.eqb_spec r AffinitySibling) as [->|].
  - destruct (Nat.eqb_spec (length (smtPairs m)) 0) as [E%nil_length_inv|Hl]; [by exists 0|].
    destruct (at_slot_Some (smtPairs m) s Hs) as (q&Hq&Hin); [by intros E; rewrite E in Hl|].
    exists (guest q). rewrite Hq. split; [done|]. intros _ _. exists q.
    split_and!; [done..|]. by eapply list_elem_of_lookup_2.
  - destruct (r =? AffinityLocal); [|by exists 0].
    destruct (Nat.eqb_spec (length (ccxMasks m)) 0) as [|Hl]; [by exists 0|].
    destruct (at_slot_Some (ccxMasks m) s Hs) as (q&Hq&_); [by intros E; rewrite E in Hl|]. by exists q.
Qed.

(** On buffers of well-formed records the topology parsers of both sides return the
    same: the pairs and masks that the records describe.  Then every slot of the guest
    has a mask (no index is out of range); in sibling mode it is the upper processor of
    a two-processor core; the automatic mode pins nothing when there are fewer
    scheduler threads than workers, and when it chooses siblings slot [s] has entry
    [s]. *)
Theorem topology_agrees rs cs gmp :
  Forall record_ok rs → Forall record_ok cs →
  let pairs := omap smt_of rs in
  let masks := omap ccx_of cs in
  let m := mkMachine gmp pairs masks in
  (EnumerateSmtPairs true (concat rs) (length (concat rs)) = Some pairs ∧
   enumerateSmtPairs true (concat rs) (length (concat rs)) = Some pairs ∧
   EnumerateCcxMasks true (concat cs) (length (concat cs)) = Some masks ∧
   enumerateCcxMasks true (concat cs) (length (concat cs)) = Some masks) ∧
  ∀ numSlots mode s, 0 <= s →
    ∃ mask, affinityMaskForSlot m s numSlots mode = Some mask ∧
      (resolveAuto m numSlots mode = AffinitySibling → pairs ≠ [] →
         ∃ p, at_slot pairs s = Some p ∧ mask = guest p ∧ siblings rs (host p) (guest p)) ∧
      (mode = AffinityAuto → 0 < numSlots → mask ≠ 0 → numSlots <= gmp) ∧
      (mode = AffinityAuto → resolveAuto m numSlots mode = AffinitySibling → s < numSlots →
         at_slot pairs s = pairs !! Z.to_nat s).
Proof.
  intros Hrs Hcs pairs masks m. split.
  { destruct (enumerate_records rs Hrs), (enumerate_records cs Hcs),
      (go_enumerate_records rs Hrs), (go_enumerate_records cs Hcs). by split_and!. }
  intros numSlots mode s Hs. destruct (placed m numSlots mode s Hs) as (mask&Hmask&Hsib).
  exists mask. split_and!; [done| | |].
  - intros Hr Hp. destruct (Hsib Hr Hp) as (p&Hat&->&Hin). exists p. split_and!; [done..|].
    by apply smt_of_siblings.
  - intros ->. intros Hn Hm. apply Z.nlt_ge. intros Hlt. apply Hm. revert Hmask.
    unfold affinityMaskForSlot. rewrite resolveAuto_gated by (cbn; lia). cbn. by intros [= <-].
  - intros -> Hr Hlt. apply resolveAuto_sibling in Hr as [_ Hle]. unfold at_slot. cbn in Hle.
    fold pairs in Hle. rewrite Z.rem_small by lia. by rewrite (proj2 (Z.ltb_ge _ _)) by lia.
Qed.

Lemma topology_agrees_witness :
  let m := mkMachine 8 (omap smt_of [ex_smt_record; ex_smt_record]) [] in
  affinityMaskForSlot m 1 2 AffinityAuto = Some 2 ∧
  siblings [ex_smt_record; ex_smt_record] 1 2.
Proof.
  intros m.
  destruct (topology_agrees [ex_smt_record; ex_smt_record] [] 8) as [_ H];
    [repeat constructor; vm_compute; first [reflexivity|lia]|constructor|].
  destruct (H 2 AffinityAuto 1) as (mask&Hm&Hs&_); [done|]. split; [vm_compute; reflexivity|].
  destruct Hs as (p&Hp&_&Hsib); [vm_compute; reflexivity|vm_compute; done|].
  assert (p = mkSmtPair 1 2) as -> by (vm_compute in Hp; congruence). exact Hsib.
Defined.

(** The guest's parsers do not check that a record lies inside the buffer: where the
    host skips what is left of a truncated record, the guest runs out of it. *)
Lemma truncated_record :
  EnumerateSmtPairs true (replicate 4 Byte.x00) 4 = Some [] ∧
  enumerateSmtPairs true (replicate 4 Byte.x00) 4 = None ∧
  EnumerateSmtPairs true (take 20 ex_smt_record) 20 = Some [] ∧
  enumerateSmtPairs true (take 20 ex_smt_record) 20 = None.
Proof. split_and!; vm_compute; reflexivity. Qed.
