(* ===== verification/GuestReassembler.v ===== *)
(** * GuestReassembler (go/stream.go): the reassembler of the Go guest

    The handler that [newStreamReassemblerTypedPeek] returns.  Unlike the C++
    reassembler it is called by several goroutines at once, and uses two kinds of
    locks: the map mutex, and one mutex per stream context.

    - a context is allocated on the heap and the map holds references to it, so a
      chunk handler may hold a context that has left the map.  [heap] is the list
      of all contexts ever allocated; a reference is a position in it.
    - a critical section is one step: the locks are never nested, and the fields
      that one section uses are written by no section under the other lock, except
      [dead], which the context section reads once, at its beginning.  [pc] is the
      place of a goroutine between two sections; [advance] runs its next section.
    - [PPanic] is a runtime panic (a nil context, a slice out of range).
    - the fields [buf], [next], [offset], [ooo], [oooBytes] and the immutable ones
      are those of the C++ [StreamContext] ([sc]); [startTime] is [started]. *)

From S2P Require Export ReassemblerProps.

Local Open Scope Z_scope.

Definition MaxStreamChunks : Z := Z.shiftl 1 20.
Definition MaxStreamSize : Z := Z.shiftl 1 30.
Definition MaxConcurrentStreams : Z := 1024.
Definition MaxParkedChunks : Z := Z.quot MaxStreamChunks MaxConcurrentStreams.
(** Nanoseconds. *)
Definition DefaultStreamTimeout : Z := 10 * 1000000000.

Record streamContext : Type := mkStreamContext {
  sc : StreamContext; done : bool; dead : bool; lastSeq : Z }.

Definition set_sc (c : streamContext) (x : StreamContext) : streamContext :=
  mkStreamContext x (done c) (dead c) (lastSeq c).
Definition set_done (c : streamContext) : streamContext :=
  mkStreamContext (sc c) true (dead c) (lastSeq c).
Definition set_dead (c : streamContext) : streamContext :=
  mkStreamContext (sc c) (done c) true (lastSeq c).
Definition set_lastSeq (c : streamContext) (n : Z) : streamContext :=
  mkStreamContext (sc c) (done c) (dead c) n.

(** The variables that the closures share. *)
Record Shared : Type := mkShared {
  heap : list streamContext; table : gmap Z nat; seq : Z }.

Definition new_shared : Shared := mkShared [] ∅ 0.

(** ** Methods of [streamContext] *)

Definition fits (c : StreamContext) (n : Z) : bool :=
  u64 (u64 (offset c + oooBytes c) + n) <=? totalSize c.

Definition inBounds (c : StreamContext) (dstOffset n : Z) : bool :=
  if totalSize c <? dstOffset then false else n <=? u64 (totalSize c - dstOffset).

(** [copy(c.buf[dstOffset:], data)]: the slice expression panics ([None]) past the
    end; [copy] stops at the end of the shorter slice. *)
Definition write (c : StreamContext) (dstOffset : Z) (data : list byte) : option StreamContext :=
  match data with
  | [] => Some c
  | _ =>
      let d := Z.to_nat dstOffset in
      if (length (buf c) <? d)%nat then None
      else Some (set_buf c (list_inserts d (take (length (buf c) - d) data) (buf c)))
  end.

Definition accountInOrder (c : StreamContext) (n : Z) : StreamContext :=
  set_cursor c (u32 (next c + 1)) (u64 (offset c + n)).

(** [None] when the count bound trips. *)
Definition notePlaced (c : StreamContext) (index dstOffset n : Z) : option StreamContext :=
  if MaxParkedChunks <=? Z.of_nat (size (ooo c)) then None
  else Some (set_ooo c (<[index := mkPlaced dstOffset (u32 n)]> (ooo c)) (u64 (oooBytes c + n))).

(** The drain loop, with the value of [corrupt]. *)
Fixpoint drain_placed (fuel : nat) (c : StreamContext) : option (StreamContext * bool) :=
  match fuel with
  | O => None
  | S fuel =>
      match ooo c !! next c with
      | None => Some (c, false)
      | Some placed =>
          let c := set_ooo c (delete (next c) (ooo c)) (u64 (oooBytes c - p_size placed)) in
          if negb (p_dstOffset placed =? offset c) then Some (c, true)
          else drain_placed fuel (accountInOrder c (p_size placed))
      end
  end.

(** ** The header parsers *)

Definition parse_start (req : list byte) : StreamHeader :=
  mkStreamHeader (Codec.get req 0 8) (Codec.get req 8 8) (Codec.get req 16 4)
    (Codec.get req 20 4).

(** The padding is not read. *)
Definition parse_chunk (req : list byte) : ChunkHeader :=
  mkChunkHeader (Codec.get req 0 8) (Codec.get req 8 4) (Codec.get req 12 4)
    (Codec.get req 16 4) 0.

(** ** The critical sections *)

(** [c.dead.Store(true)] through a reference. *)
Definition mark_dead (ref : nat) (h : list streamContext) : list streamContext :=
  alter set_dead ref h.

(** [tnow.Sub(c.started) > timeout] *)
Definition expired (timeout now : Z) (h : list streamContext) (ref : nat) : bool :=
  match h !! ref with Some c => timeout <? now - startTime (sc c) | None => false end.

(** The age-based prune. *)
Definition prune (timeout now : Z) (s : Shared) : Shared :=
  if 0 <? timeout then
    let old := filter (λ kv : Z * nat, expired timeout now (heap s) kv.2 = true) (table s) in
    mkShared (foldr (λ kv h, mark_dead kv.2 h) (heap s) (map_to_list old)) (table s ∖ old) (seq s)
  else s.

(** The scan for the least recently active stream: identifier and reference. *)
Definition oldest (h : list streamContext) (l : list (Z * nat)) : option (Z * nat * Z) :=
  foldr (λ kv best,
    match h !! kv.2 with
    | None => best
    | Some c =>
        match best with
        | Some (_, _, n) => if lastSeq c <? n then Some (kv, lastSeq c) else best
        | None => if lastSeq c <? 2 ^ 64 - 1 then Some (kv, lastSeq c) else None
        end
    end) None l.

(** Room for a stream that is not in the map. *)
Definition evict (streamID : Z) (s : Shared) : Shared :=
  match table s !! streamID with
  | Some prev => mkShared (mark_dead prev (heap s)) (table s) (seq s)
  | None =>
      if MaxConcurrentStreams <=? Z.of_nat (size (table s)) then
        match oldest (heap s) (map_to_list (table s)) with
        | Some (id, ref, _) => mkShared (mark_dead ref (heap s)) (delete id (table s)) (seq s)
        | None => mkShared (heap s) (delete streamID (table s)) (seq s)
        end
      else s
  end.

(** The map section of a [STREAM_START]. *)
Definition publish_context (timeout now : Z) (h : StreamHeader) (s : Shared) : Shared :=
  let s := mkShared (heap s) (table s) (u64 (seq s + 1)) in
  let s := prune timeout now s in
  let s := evict (sh_streamId h) s in
  let ctx := mkStreamContext
    (mkContext (sh_totalSize h) (sh_totalChunks h) (sh_appMsgType h) 0 0 0
       (replicate (Z.to_nat (sh_totalSize h)) Byte.x00) ∅ now) false false (seq s) in
  mkShared (heap s ++ [ctx]) (<[sh_streamId h := length (heap s)]> (table s)) (seq s).

(** The placement of a new chunk in the context section: context and [corrupt]. *)
Definition place (c : StreamContext) (h : ChunkHeader) (data : list byte)
    : option (StreamContext * bool) :=
  let n := Z.of_nat (length data) in
  if negb (fits c n) || negb (inBounds c (ch_dstOffset h) n) then Some (c, true)
  else
    match write c (ch_dstOffset h) data with
    | None => None
    | Some c =>
        if ch_chunkIndex h =? next c then
          if negb (ch_dstOffset h =? offset c) then Some (c, true)
          else
            let c := accountInOrder c n in
            drain_placed (S (size (ooo c))) c
        else
          match notePlaced c (ch_chunkIndex h) (ch_dstOffset h) n with
          | None => Some (c, true)
          | Some c => Some (c, false)
          end
    end.

(** Where a goroutine is. *)
Inductive pc : Type :=
  | PCall (msgType : MsgType) (req : list byte)
  | PConsume (h : ChunkHeader) (data : list byte) (ctx : nat)
      (** has looked the context up *)
  | PRetire (streamID : Z) (ctx : nat) (reply : MsgType) (dlv : option Delivery)
      (** has finished the context *)
  | PDone (reply : MsgType) (dlv : option Delivery)
      (** has returned, after calling [onStream] on [dlv] *)
  | PPass                       (** has called [fallback] *)
  | PPanic.

(** The context section. *)
Definition consume (c : streamContext) (h : ChunkHeader) (data : list byte) (ref : nat)
    : streamContext * pc :=
  if done c || dead c then (c, PDone SYSTEM_ERROR None)
  else if ch_chunkIndex h <? next (sc c) then (c, PDone NORMAL None)
  else if bool_decide (is_Some (ooo (sc c) !! ch_chunkIndex h)) then (c, PDone NORMAL None)
  else
    match place (sc c) h data with
    | None => (c, PPanic)
    | Some (x, corrupt) =>
        let complete := negb corrupt && (next x =? totalChunks x) in
        let ready := complete && (offset x =? totalSize x) in
        let corrupt := corrupt || complete && negb (offset x =? totalSize x) in
        let c := set_sc c x in
        if corrupt then (set_done c, PRetire (ch_streamId h) ref SYSTEM_ERROR None)
        else if ready then
          (set_done c, PRetire (ch_streamId h) ref NORMAL
             (Some (mkDelivery (ch_streamId h) (appMsgType x) (buf x))))
        else (c, PDone NORMAL None)
    end.

(** [retire]: compare and delete. *)
Definition retire (streamID : Z) (ref : nat) (s : Shared) : Shared :=
  if bool_decide (table s !! streamID = Some ref)
  then mkShared (heap s) (delete streamID (table s)) (seq s) else s.

Definition call_start (timeout now : Z) (s : Shared) (req : list byte) : Shared * pc :=
  if (length req <? 24)%nat then (s, PDone SYSTEM_ERROR None)
  else
    let h := parse_start req in
    if (MaxStreamChunks <? sh_totalChunks h) || (MaxStreamSize <? sh_totalSize h)
    then (s, PDone SYSTEM_ERROR None)
    else if sh_totalChunks h =? 0 then
      if negb (sh_totalSize h =? 0) then (s, PDone SYSTEM_ERROR None)
      else (s, PDone NORMAL (Some (mkDelivery (sh_streamId h) (sh_appMsgType h) [])))
    else (publish_context timeout now h s, PDone NORMAL None).

(** Up to the end of the first map section. *)
Definition call_chunk (s : Shared) (req : list byte) : Shared * pc :=
  if (length req <? 24)%nat then (s, PDone SYSTEM_ERROR None)
  else
    let h := parse_chunk req in
    if Z.of_nat (length req) <? u64 (24 + ch_payloadSize h) then (s, PDone SYSTEM_ERROR None)
    else
      let data := slice 24 (Z.to_nat (ch_payloadSize h)) req in
      match table s !! ch_streamId h with
      | None => (s, PDone SYSTEM_ERROR None)
      | Some ref =>
          match heap s !! ref with
          | None => (s, PPanic)
          | Some ctx =>
              if totalChunks (sc ctx) <=? ch_chunkIndex h then (s, PDone SYSTEM_ERROR None)
              else
                let n := u64 (seq s + 1) in
                (mkShared (alter (λ c, set_lastSeq c n) ref (heap s)) (table s) n,
                 PConsume h data ref)
          end
      end.

(** The next section of a goroutine; [None] when it has returned. *)
Definition advance (timeout now : Z) (s : Shared) (p : pc) : option (Shared * pc) :=
  match p with
  | PCall STREAM_START req => Some (call_start timeout now s req)
  | PCall STREAM_CHUNK req => Some (call_chunk s req)
  | PCall _ _ => Some (s, PPass)
  | PConsume h data ref =>
      match heap s !! ref with
      | None => Some (s, PPanic)
      | Some c =>
          let '(c', p') := consume c h data ref in
          Some (mkShared (<[ref := c']> (heap s)) (table s) (seq s), p')
      end
  | PRetire id ref reply dlv => Some (retire id ref s, PDone reply dlv)
  | PDone _ _ | PPass | PPanic => None
  end.

(** Any number of goroutines, each performing one call; the clock may answer
    anything. *)
Inductive go_step (timeout : Z) : Shared * list pc → Shared * list pc → Prop :=
  | gs_step s ps j p now s' p' :
      ps !! j = Some p → advance timeout now s p = Some (s', p') →
      go_step timeout (s, ps) (s', <[j := p']> ps).

(** A call alone, from its first to its last section. *)
Fixpoint finish (fuel : nat) (timeout now : Z) (s : Shared) (p : pc) : Shared * pc :=
  match fuel with
  | O => (s, p)
  | S fuel =>
      match advance timeout now s p with
      | None => (s, p)
      | Some (s', p') => finish fuel timeout now s' p'
      end
  end.

(** Calls in sequence, on one goroutine. *)
Fixpoint go_serve (timeout : Z) (s : Shared) (cs : list (Z * MsgType * list byte))
    : Shared * list pc :=
  match cs with
  | [] => (s, [])
  | (now, ty, req) :: cs =>
      let '(s1, p) := finish 3 timeout now s (PCall ty req) in
      let '(s2, ps) := go_serve timeout s1 cs in (s2, p :: ps)
  end.
