(* ===== verification/GuestReassemblerSafety.v ===== *)
(** * GuestReassemblerSafety: concurrent calls of the Go reassembler

    Any number of goroutines call the handler at once, in any interleaving of its
    critical sections, with messages of any peer.  The invariant gives every
    context that was ever allocated an abstract stream ([ReassemblerSpec.AStream]),
    the call that opened it and the call that delivered it. *)

From S2P Require Export GuestReassembler.

Local Open Scope Z_scope.

(** ** The sequential parts are those of the C++ reassembler *)

(** The offsets of the parsers are those of the structs. *)
Lemma parse_start_read req : parse_start req = StreamHeader_read req.
Proof. reflexivity. Qed.

Lemma parse_chunk_read req :
  let h := ChunkHeader_read req in
  parse_chunk req = mkChunkHeader (ch_streamId h) (ch_chunkIndex h) (ch_payloadSize h)
    (ch_dstOffset h) 0.
Proof. reflexivity. Qed.

Lemma parse_chunk_ok req : ChunkHeader_ok (parse_chunk req).
Proof.
  rewrite parse_chunk_read. pose proof (ChunkHeader_read_ok req) as Hok.
  destruct (ChunkHeader_read req). unfold ChunkHeader_ok in *. cbn in *. lia.
Qed.

Lemma drain_placed_cpp fuel : ∀ c, drain_placed fuel c = drain fuel c.
Proof.
  induction fuel as [|fuel IH]; intros c; simpl; [done|].
  destruct (ooo c !! next c) as [p|]; [|done]. by destruct (negb _).
Qed.

Lemma write_cpp c dst data :
  (Z.to_nat dst + length data ≤ length (buf c))%nat → write c dst data = Write c dst data.
Proof.
  intros Hb. unfold write, Write. destruct data as [|b data]; [done|].
  rewrite memcpy_Some by done. cbn [fmap option_fmap option_map].
  rewrite (proj2 (Nat.ltb_ge _ _)) by lia. rewrite take_ge by (simpl in *; lia). done.
Qed.

(** On a context that represents a stream, a new index is placed as in C++ with
    the default limits and no allocation failure. *)
Lemma place_cpp c s h data :
  ctx_repr c s → ChunkHeader_ok h → Z.of_nat (length data) = ch_payloadSize h →
  log_find (ch_chunkIndex h) (as_log s) = None →
  place c h data = PlaceChunk ex_env default_Config c h data.
Proof.
  intros (Hwf&Hr&_) (_&Hidx&Hps&Hdst&_) Hlen Hf. unfold place, PlaceChunk, PlaceChunkAt. rewrite Hlen.
  cbn [mbind option_bind].
  change fits with Fits. change inBounds with InBounds.
  destruct (Fits c (ch_payloadSize h)); [|done]. cbn [negb orb].
  rewrite (InBounds_spec c s _ _ _ Hwf Hr) by lia.
  destruct (Z.leb_spec (ch_dstOffset h + ch_payloadSize h) (as_total s)); [|done]. cbn [negb].
  pose proof (buf_length _ _ _ Hwf Hr).
  rewrite write_cpp, (Write_spec c s _ _ _ Hwf Hr) by lia. cbn [mbind option_bind].
  set (c1 := set_buf c _). destruct (_ =? next c1).
  - destruct (negb _); [done|]. apply drain_placed_cpp.
  - unfold notePlaced, NotePlaced. change (maxParkedChunks default_Config) with MaxParkedChunks.
    destruct (MaxParkedChunks <=? _); [done|]. cbn [emplace_ok ex_env negb].
    change (ooo c1) with (ooo c). rewrite (cr_ooo _ _ _ Hr), Hf. by destruct (decide _).
Qed.

(** ** The invariant *)

(** What is known of a context besides its fields. *)
Record ghost : Type := mkGhost {
  g_id : Z;               (** stream identifier *)
  g_owner : nat;          (** the call that allocated it *)
  g_stream : AStream;     (** the chunks it has accepted *)
  g_by : option nat       (** the call that completed it *) }.

Section invariant.
Context (calls : list Call).

(** The stream of [g] was opened by its owner, and its chunks were sent. *)
Definition sent (g : ghost) : Prop :=
  let s := g_stream g in
  stream_wf s ∧
  (∃ c, calls !! g_owner g = Some c ∧
        start_msg (g_id g) (as_total s) (as_chunks s) (as_tag s) c) ∧
  ∀ a, a ∈ as_log s → ∃ c, c ∈ calls ∧ chunk_msg (g_id g) (a_index a) (a_dst a) (a_payload a) c.

Definition context_inv (c : streamContext) (g : ghost) : Prop :=
  sent g ∧ (done c = false → ctx_repr (sc c) (g_stream g) ∧ g_by g = None).

(** [d] is the whole stream of [g]. *)
Definition whole (g : ghost) (d : Delivery) : Prop :=
  let s := g_stream g in
  d_streamId d = g_id g ∧ d_appMsgType d = as_tag s ∧
  d_data d = assemble (as_chunks s) (as_log s) ∧
  placed_ok (as_chunks s) (as_log s) = true ∧ bytes_all (as_log s) = as_total s.

Definition delivery_ok (gs : list ghost) (j : nat) (d : Delivery) : Prop :=
  (∃ c, calls !! j = Some c ∧ start_msg (d_streamId d) 0 0 (d_appMsgType d) c ∧ d_data d = []) ∨
  ∃ ref g, gs !! ref = Some g ∧ g_by g = Some j ∧ whole g d.

Definition pc_ok (hp : list streamContext) (gs : list ghost) (j : nat) (p : pc) : Prop :=
  match p with
  | PCall ty req => ∃ c, calls !! j = Some c ∧ c_type c = ty ∧ c_req c = req
  | PConsume h data ref =>
      ∃ c g, calls !! j = Some c ∧
        chunk_msg (ch_streamId h) (ch_chunkIndex h) (ch_dstOffset h) data c ∧
        ChunkHeader_ok h ∧ Z.of_nat (length data) = ch_payloadSize h ∧
        gs !! ref = Some g ∧ g_id g = ch_streamId h ∧
        ∀ x, hp !! ref = Some x → done x = false → ch_chunkIndex h < as_chunks (g_stream g)
  | PRetire _ _ _ (Some d) | PDone _ (Some d) => delivery_ok gs j d
  | PRetire _ _ _ None | PDone _ None | PPass => True
  | PPanic => False
  end.

Record go_inv (s : Shared) (ps : list pc) (gs : list ghost) : Prop := {
  gi_heap : Forall2 context_inv (heap s) gs;
  gi_table : ∀ id ref, table s !! id = Some ref → ∃ g, gs !! ref = Some g ∧ g_id g = id;
  gi_owner : NoDup (map g_owner gs);
  gi_owned : Forall (λ g, ps !! g_owner g = Some (PDone NORMAL None)) gs;
  gi_pc : ∀ j p, ps !! j = Some p → pc_ok (heap s) gs j p }.

(** What a step may do to the ghosts and the [done] flags. *)
Definition ghost_le (g g' : ghost) : Prop :=
  g_id g' = g_id g ∧ g_owner g' = g_owner g ∧
  as_chunks (g_stream g') = as_chunks (g_stream g) ∧ (g_by g ≠ None → g' = g).

Definition ghosts_le (gs gs' : list ghost) : Prop :=
  ∀ ref g, gs !! ref = Some g → ∃ g', gs' !! ref = Some g' ∧ ghost_le g g'.

Definition heap_le (h h' : list streamContext) : Prop :=
  ∀ ref c c', h !! ref = Some c → h' !! ref = Some c' → done c' = false → done c = false.

Lemma ghosts_le_refl gs : ghosts_le gs gs.
Proof. intros ref g Hg. by exists g. Qed.

Lemma heap_le_refl h : heap_le h h.
Proof. intros ref c c' H1 H2 ?. by simplify_eq. Qed.

Lemma pc_ok_mono h h' gs gs' j p :
  length gs = length h → ghosts_le gs gs' → heap_le h h' → pc_ok h gs j p → pc_ok h' gs' j p.
Proof.
  intros Hl Hg Hh. destruct p as [ty req|hd data ref|id ref rp [d|]|rp [d|]| |]; simpl; try done.
  - intros (c&g&Hc&Hm&Hok&Hlen&Hr&Hid&Hx). destruct (Hg _ _ Hr) as (g'&Hr'&Hi&Ho&Hch&_).
    exists c, g'. split_and!; try done; [congruence|]. intros x Hx' Hd. rewrite Hch.
    destruct (lookup_lt_is_Some_2 h ref) as [y Hy]; [rewrite <- Hl; by eapply lookup_lt_Some|].
    eapply Hx; [done|]. by eapply Hh.
  - intros [?|(r&g&Hr&Hb&Hw)]; [by left|right]. destruct (Hg _ _ Hr) as (g'&Hr'&_&_&_&Heq).
    exists r, g. rewrite Heq in Hr' by (by rewrite Hb). done.
  - intros [?|(r&g&Hr&Hb&Hw)]; [by left|right]. destruct (Hg _ _ Hr) as (g'&Hr'&_&_&_&Heq).
    exists r, g. rewrite Heq in Hr' by (by rewrite Hb). done.
Qed.

(** A goroutine that has not returned owns no context. *)
Lemma not_owner s ps gs j p g :
  go_inv s ps gs → ps !! j = Some p → p ≠ PDone NORMAL None → g ∈ gs → g_owner g ≠ j.
Proof.
  intros Hi Hj Hp Hg <-. pose proof (gi_owned _ _ _ Hi) as Ho. rewrite Forall_forall in Ho.
  rewrite (Ho g Hg) in Hj. congruence.
Qed.

(** The general step of goroutine [j]. *)
Lemma go_inv_step s ps gs s' gs' j p p' :
  go_inv s ps gs → ps !! j = Some p → p ≠ PDone NORMAL None →
  Forall2 context_inv (heap s') gs' →
  (∀ id ref, table s' !! id = Some ref → ∃ g, gs' !! ref = Some g ∧ g_id g = id) →
  ghosts_le gs gs' → heap_le (heap s) (heap s') →
  map g_owner gs' = map g_owner gs ∨
    map g_owner gs' = map g_owner gs ++ [j] ∧ p' = PDone NORMAL None →
  pc_ok (heap s') gs' j p' →
  go_inv s' (<[j := p']> ps) gs'.
Proof.
  intros Hi Hj Hp Hh Ht Hg Hhe Ho Hpc.
  assert (Hni : j ∉ map g_owner gs).
  { intros (g&->&Hin)%list_elem_of_fmap. by eapply not_owner. }
  assert (Hlt : (j < length ps)%nat) by (by eapply lookup_lt_Some).
  constructor; [done|done| | |].
  - destruct Ho as [->|[-> _]]; [apply Hi|]. apply NoDup_app. split_and!; [apply Hi| |apply NoDup_singleton].
    intros x Hx ->%list_elem_of_singleton. done.
  - assert (Forall (λ o, <[j := p']> ps !! o = Some (PDone NORMAL None)) (map g_owner gs')) as HF;
      [|by rewrite Forall_fmap in HF].
    assert (Forall (λ o, <[j := p']> ps !! o = Some (PDone NORMAL None)) (map g_owner gs)) as HF.
    { apply Forall_fmap, Forall_forall. intros g Hin. simpl.
      rewrite list_lookup_insert_ne by (by eapply not_eq_sym, not_owner).
      pose proof (gi_owned _ _ _ Hi) as Ho'. rewrite Forall_forall in Ho'. by apply Ho'. }
    destruct Ho as [->|[-> ->]]; [done|]. apply Forall_app. split; [done|].
    constructor; [|done]. by apply list_lookup_insert_eq.
  - intros k q [(->&<-&_)|(Hne&Hk)]%list_lookup_insert_Some; [done|].
    eapply pc_ok_mono; [|done..|by eapply gi_pc].
    symmetry. eapply Forall2_length, gi_heap, Hi.
Qed.

(** Flags that the invariant does not mention. *)
Definition same_context (c c' : streamContext) : Prop := sc c' = sc c ∧ done c' = done c.

#[local] Instance same_context_preorder : PreOrder same_context.
Proof. split; [done|]. intros c1 c2 c3 [E1 E2] [E3 E4]. split; congruence. Qed.

Lemma same_heap_inv h h' gs :
  Forall2 same_context h h' → Forall2 context_inv h gs → Forall2 context_inv h' gs ∧ heap_le h h'.
Proof.
  intros Hs Hc. split.
  - revert gs Hc. induction Hs as [|c c' h h' [E1 E2] _ IH]; intros gs Hc;
      inversion Hc as [|? ? ? ? [? Hd]]; subst; constructor; [|by apply IH].
    split; [done|]. by rewrite E1, E2.
  - intros ref c c' H1 H2 Hd. destruct (Forall2_lookup_lr _ _ _ _ _ _ Hs H1 H2) as [_ E]. congruence.
Qed.

Lemma same_alter (f : streamContext → streamContext) ref h :
  (∀ c, same_context c (f c)) → Forall2 same_context h (alter f ref h).
Proof.
  intros Hf. revert ref. induction h as [|c h IH]; intros [|ref]; simpl; constructor;
    try done; by apply IH.
Qed.

Lemma same_mark_dead ref h : Forall2 same_context h (mark_dead ref h).
Proof. by apply same_alter. Qed.

Lemma same_mark_all (l : list (Z * nat)) h :
  Forall2 same_context h (foldr (λ kv h, mark_dead kv.2 h) h l).
Proof.
  induction l as [|kv l IH]; simpl; [done|]. etrans; [exact IH|apply same_mark_dead].
Qed.

(** The map section of a start leaves the contexts as they are, up to [dead], and
    removes entries from the map. *)
Definition shrinks (s s' : Shared) : Prop :=
  Forall2 same_context (heap s) (heap s') ∧ table s' ⊆ table s.

#[local] Instance shrinks_preorder : PreOrder shrinks.
Proof. split; [done|]. intros s1 s2 s3 [] []. split; by etrans. Qed.

Lemma prune_shrinks timeout now s : shrinks s (prune timeout now s).
Proof.
  unfold prune. destruct (0 <? timeout); [|done].
  split; cbn; [apply same_mark_all|by apply map_subseteq_difference_l].
Qed.

Lemma evict_shrinks id s : shrinks s (evict id s).
Proof.
  unfold evict. destruct (table s !! id); [split; [apply same_mark_dead|done]|].
  destruct (_ <=? _); [|done].
  destruct (oldest _ _) as [[[? ?] ?]|]; split; cbn;
    try apply same_mark_dead; try apply delete_subseteq; done.
Qed.

(** ** Every section keeps the invariant *)

(** A step that only moves the goroutine, or removes entries from the map. *)
Lemma shrinks_step s ps gs s' j p p' :
  go_inv s ps gs → ps !! j = Some p → p ≠ PDone NORMAL None → shrinks s s' →
  pc_ok (heap s') gs j p' → go_inv s' (<[j := p']> ps) gs.
Proof.
  intros Hi Hj Hp [Hh Ht] Hpc. destruct (same_heap_inv _ _ _ Hh (gi_heap _ _ _ Hi)) as [Hc Hle].
  eapply go_inv_step; eauto using ghosts_le_refl.
  intros id ref Hr. eapply gi_table; [exact Hi|]. by eapply lookup_weaken.
Qed.

Lemma start_step timeout now s ps gs j req :
  go_inv s ps gs → ps !! j = Some (PCall STREAM_START req) →
  ∃ gs', go_inv (call_start timeout now s req).1
           (<[j := (call_start timeout now s req).2]> ps) gs'.
Proof.
  intros Hi Hj. pose proof (gi_pc _ _ _ Hi _ _ Hj) as (c&Hc&Hty&<-).
  unfold call_start. rewrite parse_start_read.
  destruct (Nat.ltb_spec (length (c_req c)) 24) as [?|Hlen]; [exists gs; by eapply shrinks_step|].
  pose proof (StreamHeader_read_ok (c_req c)) as (_&?&?&?).
  destruct (StreamHeader_read (c_req c)) as [id total chunks tag] eqn:Eh. cbn in *.
  destruct (Z.ltb_spec MaxStreamChunks chunks); [exists gs; by eapply shrinks_step|].
  destruct (Z.ltb_spec MaxStreamSize total); cbn; [exists gs; by eapply shrinks_step|].
  destruct (Z.eqb_spec chunks 0) as [->|].
  { destruct (Z.eqb_spec total 0) as [->|]; cbn; exists gs; eapply shrinks_step; try done.
    left. exists c. by split_and!. }
  unfold publish_context. cbn.
  set (s0 := mkShared (heap s) (table s) (u64 (seq s + 1))).
  set (s1 := evict id (prune timeout now s0)).
  assert (shrinks s s1) as [Hh Ht].
  { trans s0; [done|]. trans (prune timeout now s0); [apply prune_shrinks|apply evict_shrinks]. }
  set (st := mkAStream total chunks tag now []).
  exists (gs ++ [mkGhost id j st None]).
  destruct (same_heap_inv _ _ _ Hh (gi_heap _ _ _ Hi)) as [Hcx Hle].
  pose proof (Forall2_length _ _ _ Hcx) as Hl.
  assert (ctx_repr (mkContext total chunks tag 0 0 0 (replicate (Z.to_nat total) Byte.x00) ∅ now) st)
    as Hrepr.
  { apply (ctx_repr_fresh (mkStreamHeader id total chunks tag)); [|done|done].
    rewrite <- Eh. apply StreamHeader_read_ok. }
  eapply go_inv_step; [done|done|done|..]; cbn.
  - apply Forall2_app; [done|]. constructor; [|done]. split; [|done].
    split_and!; [apply Hrepr| |by intros ? ?%elem_of_nil]. exists c. by split_and!.
  - intros id' ref [[<- <-]|[_ Hr]]%lookup_insert_Some.
    + exists (mkGhost id j st None). split; [|done]. rewrite Hl. by apply list_lookup_middle.
    + destruct (gi_table _ _ _ Hi id' ref) as (g&?&?); [by eapply lookup_weaken|].
      exists g. split; [by apply lookup_app_l_Some|done].
  - intros ref g Hg. exists g. split; [by apply lookup_app_l_Some|done].
  - intros ref x x' Hx1 Hx2. rewrite lookup_app_l in Hx2; [by eapply Hle|].
    rewrite <- (Forall2_length _ _ _ Hh). by eapply lookup_lt_Some.
  - right. by rewrite map_app.
  - done.
Qed.

Lemma chunk_step s ps gs j req :
  go_inv s ps gs → ps !! j = Some (PCall STREAM_CHUNK req) →
  go_inv (call_chunk s req).1 (<[j := (call_chunk s req).2]> ps) gs.
Proof.
  intros Hi Hj. pose proof (gi_pc _ _ _ Hi _ _ Hj) as (c&Hc&Hty&<-).
  unfold call_chunk. pose proof (parse_chunk_ok (c_req c)) as Hok.
  assert (Hfld : chunk_msg (ch_streamId (parse_chunk (c_req c))) (ch_chunkIndex (parse_chunk (c_req c)))
    (ch_dstOffset (parse_chunk (c_req c)))
    (slice 24 (Z.to_nat (ch_payloadSize (parse_chunk (c_req c)))) (c_req c)) c ↔
    24 + ch_payloadSize (parse_chunk (c_req c)) <= Z.of_nat (length (c_req c))).
  { split; [by intros (_&_&_&_&?&_)|intros]. by split_and!. }
  set (h := parse_chunk (c_req c)) in *. clearbody h. pose proof Hok as (_&?&?&_).
  destruct (Nat.ltb_spec (length (c_req c)) 24) as [?|Hlen]; [by eapply shrinks_step|].
  rewrite (u64_id (24 + _)) by lia.
  destruct (Z.ltb_spec (Z.of_nat (length (c_req c))) (24 + ch_payloadSize h));
    [by eapply shrinks_step|].
  destruct (table s !! ch_streamId h) as [ref|] eqn:Ht; [|by eapply shrinks_step].
  destruct (gi_table _ _ _ Hi _ _ Ht) as (g&Hg&Hid).
  destruct (Forall2_lookup_r _ _ _ _ _ (gi_heap _ _ _ Hi) Hg) as (ctx&Hx&_&Hctx). rewrite Hx.
  destruct (Z.leb_spec (totalChunks (sc ctx)) (ch_chunkIndex h)); [by eapply shrinks_step|].
  eapply shrinks_step; [done|done|done|split; [by apply same_alter|done]|].
  exists c, g. split_and!; try done; [by apply Hfld| |].
  - rewrite slice_length by lia. lia.
  - cbn. intros x Hx' Hd. rewrite list_lookup_alter_eq, Hx in Hx'. injection Hx' as <-.
    destruct Hctx as [(_&Hr&_) _]; [done|]. by rewrite <- (cr_chunks _ _ _ Hr).
Qed.

Lemma retire_step s ps gs j id ref reply dlv :
  go_inv s ps gs → ps !! j = Some (PRetire id ref reply dlv) →
  go_inv (retire id ref s) (<[j := PDone reply dlv]> ps) gs.
Proof.
  intros Hi Hj. pose proof (gi_pc _ _ _ Hi _ _ Hj) as Hpc.
  assert (shrinks s (retire id ref s)) as Hs.
  { unfold retire. case_bool_decide; split; cbn; done || apply delete_subseteq. }
  eapply shrinks_step; [done|done|done|done|].
  assert (heap (retire id ref s) = heap s) as -> by (unfold retire; by case_bool_decide).
  by destruct dlv.
Qed.

(** A step on the context behind [ref]. *)
Lemma context_step s ps gs j p p' ref c c' g g' :
  go_inv s ps gs → ps !! j = Some p → p ≠ PDone NORMAL None →
  heap s !! ref = Some c → gs !! ref = Some g →
  context_inv c' g' → ghost_le g g' → (done c' = false → done c = false) →
  pc_ok (<[ref := c']> (heap s)) (<[ref := g']> gs) j p' →
  go_inv (mkShared (<[ref := c']> (heap s)) (table s) (seq s)) (<[j := p']> ps) (<[ref := g']> gs).
Proof.
  intros Hi Hj Hp Hc Hg Hc' Hg' Hd Hpc. pose proof (lookup_lt_Some _ _ _ Hg).
  assert (ghosts_le gs (<[ref := g']> gs)) as Hle.
  { intros r x Hx. destruct (decide (ref = r)) as [<-|].
    - rewrite list_lookup_insert_eq by done. simplify_eq. by exists g'.
    - rewrite list_lookup_insert_ne by done. by exists x. }
  eapply go_inv_step; [done..| | |exact Hle| | |exact Hpc]; cbn.
  - by apply Forall2_insert; [apply Hi|].
  - intros id r Hr. destruct (gi_table _ _ _ Hi _ _ Hr) as (x&Hx&<-).
    destruct (Hle _ _ Hx) as (x'&?&?&_). eauto.
  - intros r x x' Hx [(->&<-&_)|(?&Hx')]%list_lookup_insert_Some ?; simplify_eq; auto.
  - left. rewrite list_fmap_insert. destruct Hg' as (_&->&_). apply list_insert_id.
    by rewrite list_lookup_fmap, Hg.
Qed.

(** A chunk that completes its stream. *)
Lemma complete_ghost g a c j cfg alloc d :
  sent g → c ∈ calls → chunk_msg (g_id g) (a_index a) (a_dst a) (a_payload a) c →
  0 <= a_index a → 0 <= a_dst a → judge_chunk cfg alloc (g_stream g) a = VDeliver d →
  let g' := mkGhost (g_id g) (g_owner g) (add_arrival (g_stream g) a) (Some j) in
  sent g' ∧ whole g' (mkDelivery (g_id g) (as_tag (g_stream g)) d).
Proof.
  intros (Hwf&Ho&Hlog) Hc Hm ?? (->&Hfr&Hall&Hok&?&?&?)%judge_deliver. split.
  - split_and!; cbn [g_stream g_id g_owner].
    + apply stream_wf_add; try done. rewrite Hall. done.
    + done.
    + intros x [Hx| ->%list_elem_of_singleton]%elem_of_app; [by apply Hlog|by exists c].
  - by split_and!.
Qed.

Lemma keep_ghost g a c cfg alloc l :
  sent g → c ∈ calls → chunk_msg (g_id g) (a_index a) (a_dst a) (a_payload a) c →
  0 <= a_index a → 0 <= a_dst a → judge_chunk cfg alloc (g_stream g) a = VKeep l →
  l = as_log (g_stream g) ++ [a] ∧
  sent (mkGhost (g_id g) (g_owner g) (add_arrival (g_stream g) a) None).
Proof.
  intros (Hwf&Ho&Hlog) Hc Hm ?? (->&?&?&?&?)%judge_keep. split; [done|].
  split_and!; cbn [g_stream g_id g_owner]; [by apply stream_wf_add|done|].
  intros x [Hx| ->%list_elem_of_singleton]%elem_of_app; [by apply Hlog|by exists c].
Qed.

Lemma consume_step s ps gs j h data ref c :
  go_inv s ps gs → ps !! j = Some (PConsume h data ref) → heap s !! ref = Some c →
  ∃ gs', go_inv (mkShared (<[ref := (consume c h data ref).1]> (heap s)) (table s) (seq s))
           (<[j := (consume c h data ref).2]> ps) gs'.
Proof.
  intros Hi Hj Hx. pose proof (gi_pc _ _ _ Hi _ _ Hj) as (cl&g&Hcl&Hm&Hok&Hlen&Hg&Hid&Hch).
  destruct (Forall2_lookup_lr _ _ _ _ _ _ (gi_heap _ _ _ Hi) Hx Hg) as [Hsent Hctx].
  specialize (Hch _ Hx).
  assert (Hsame : ∀ reply, ∃ gs', go_inv (mkShared (<[ref := c]> (heap s)) (table s) (seq s))
            (<[j := PDone reply None]> ps) gs').
  { intros reply. rewrite list_insert_id by done. exists gs. by eapply shrinks_step. }
  unfold consume. destruct (done c) eqn:Hd; [apply Hsame|]. destruct (dead c); [apply Hsame|].
  destruct (Hctx eq_refl) as [Hr Hby]. pose proof Hok as (_&?&?&?&_).
  pose proof (duplicate_gate (sc c) (g_stream g) (ch_chunkIndex h) Hr ltac:(lia)) as Hdup.
  cbn [orb]. destruct (ch_chunkIndex h <? next (sc c)); [apply Hsame|].
  destruct (bool_decide _) eqn:Hb; [apply Hsame|]. symmetry in Hdup. apply log_has_false in Hdup.
  rewrite (place_cpp _ _ _ _ Hr Hok Hlen Hdup).
  destruct (PlaceChunk_spec ex_env default_Config _ _ _ _ Hr Hok Hlen (Hch eq_refl) Hdup)
    as (x&corrupt&->&Hpl). rewrite <- Hid in Hm. assert (cl ∈ calls) as Hin by (by eapply list_elem_of_lookup_2).
  set (a := mkArrival _ _ _) in Hpl.
  assert (Hgone : ∀ y, ∃ gs', go_inv
    (mkShared (<[ref := set_done (set_sc c y)]> (heap s)) (table s) (seq s))
    (<[j := PRetire (ch_streamId h) ref SYSTEM_ERROR None]> ps) gs').
  { intros y. exists (<[ref := g]> gs). by eapply context_step. }
  destruct (judge_chunk _ _ _ a) as [| | |l|d] eqn:Hj'; cbn [placed_as] in Hpl; [done|done|..].
  - destruct Hpl as [->|[Hn Ho]]; [apply Hgone|]. rewrite Hn, Z.eqb_refl.
    rewrite (proj2 (Z.eqb_neq _ _) Ho). destruct corrupt; apply Hgone.
  - destruct Hpl as [-> Hr']. destruct (keep_ghost g a cl _ _ _ Hsent Hin Hm ltac:(cbn; lia) ltac:(cbn; lia) Hj') as [-> Hs'].
    assert ((next x =? totalChunks x) = false) as ->.
    { destruct Hr' as (_&Hc'&?). rewrite (cr_next _ _ _ Hc'), (cr_chunks _ _ _ Hc').
      apply Z.eqb_neq. lia. }
    cbn [negb andb orb fst snd]. eexists.
    eapply (context_step _ _ _ _ _ _ _ _ _ g (mkGhost (g_id g) (g_owner g) (add_arrival (g_stream g) a) None));
      [done..|by split|split_and!; cbn; by rewrite ?Hby|done|done].
  - destruct Hpl as (->&->&->&->&->). rewrite !Z.eqb_refl. cbn [negb andb orb fst snd].
    destruct (complete_ghost g a cl j _ _ _ Hsent Hin Hm ltac:(cbn; lia) ltac:(cbn; lia) Hj') as [Hs' Hw].
    eexists.
    eapply (context_step _ _ _ _ _ _ _ _ _ g (mkGhost (g_id g) (g_owner g) (add_arrival (g_stream g) a) (Some j)));
      [done..|by split|split_and!; cbn; by rewrite ?Hby|done|].
    + right. exists ref. eexists. rewrite list_lookup_insert_eq by (by eapply lookup_lt_Some).
      split_and!; [done|done|]. by rewrite <- Hid.
Qed.

Lemma go_inv_advance timeout now s ps gs j p s' p' :
  go_inv s ps gs → ps !! j = Some p → advance timeout now s p = Some (s', p') →
  ∃ gs', go_inv s' (<[j := p']> ps) gs'.
Proof.
  intros Hi Hj. destruct p as [ty req|h data ref|id ref reply dlv|reply dlv| |]; cbn; [|..|done|done|done].
  - intros Ha. destruct ty; try (injection Ha as <- <-; exists gs; by eapply shrinks_step).
    + pose proof (start_step timeout now _ _ _ _ _ Hi Hj) as Hs. injection Ha as Ha.
      by rewrite Ha in Hs.
    + pose proof (chunk_step _ _ _ _ _ Hi Hj) as Hs. injection Ha as Ha.
      exists gs. by rewrite Ha in Hs.
  - destruct (heap s !! ref) as [c|] eqn:Hx.
    + pose proof (consume_step _ _ _ _ _ _ _ _ Hi Hj Hx) as Hs.
      destruct (consume c h data ref). by intros [= <- <-].
    + intros _. destruct (gi_pc _ _ _ Hi _ _ Hj) as (?&g&_&_&_&_&Hg&_).
      destruct (Forall2_lookup_r _ _ _ _ _ (gi_heap _ _ _ Hi) Hg) as (?&?&_). congruence.
  - intros [= <- <-]. exists gs. by apply retire_step.
Qed.

Definition start_pool : list pc := map (λ c, PCall (c_type c) (c_req c)) calls.

Lemma go_inv_reachable timeout s ps :
  rtc (go_step timeout) (new_shared, start_pool) (s, ps) → ∃ gs, go_inv s ps gs.
Proof.
  intros Hr. change s with (s, ps).1. change ps with (s, ps).2 at 2. revert Hr. generalize (s, ps).
  apply rtc_ind_r; cbn.
  - exists []. constructor; cbn; [constructor|by intros ??|constructor|constructor|].
    intros j p Hp. apply list_lookup_fmap_Some in Hp as (c&->&Hc). by exists c.
  - intros y z _ Hs [gs Hi]. destruct Hs as [s0 ps0 j p now s' p' Hj Ha]. cbn in *.
    by eapply go_inv_advance.
Qed.
End invariant.

(** ** The theorem *)

Definition delivers (ps : list pc) (j : nat) (d : Delivery) : Prop :=
  ∃ reply, ps !! j = Some (PDone reply (Some d)).

(** [d] is what call [o] announced: payloads that were sent for its stream, in
    index order, each with the offset at which it is. *)
Definition justified (calls : list Call) (o : nat) (d : Delivery) : Prop :=
  ∃ c0 total chunks pays, calls !! o = Some c0 ∧
    start_msg (d_streamId d) total chunks (d_appMsgType d) c0 ∧
    Z.of_nat (length pays) = chunks ∧ d_data d = concat pays ∧
    Z.of_nat (length (d_data d)) = total ∧
    ∀ i payload, pays !! i = Some payload → ∃ c, c ∈ calls ∧
      chunk_msg (d_streamId d) (Z.of_nat i)
        (Z.of_nat (length (concat (take i pays)))) payload c.

Lemma whole_justified calls g d : sent calls g → whole g d → justified calls (g_owner g) d.
Proof.
  intros (Hwf&(c&Hc&Hst)&Hlog) (Hid&Htag&Hdata&Hok&Hall).
  destruct (whole_log _ Hwf Hok Hall) as (Has&Hn&Hlen&Hpay). rewrite Has in Hdata.
  exists c, (as_total (g_stream g)), (as_chunks (g_stream g)),
    (payloads (as_chunks (g_stream g)) (as_log (g_stream g))).
  rewrite Hid, Htag, Hdata. split_and!; try done.
  intros i p Hp. destruct (Hpay i p Hp) as (a&Ha&<-&<-&<-). by apply Hlog.
Qed.

Lemma delivery_source calls s ps gs j d :
  go_inv calls s ps gs → delivers ps j d →
  (∃ c, calls !! j = Some c ∧ start_msg (d_streamId d) 0 0 (d_appMsgType d) c ∧ d_data d = []) ∨
  ∃ g, g ∈ gs ∧ g_by g = Some j ∧ sent calls g ∧ whole g d.
Proof.
  intros Hi [reply Hj]. destruct (gi_pc _ _ _ _ Hi _ _ Hj) as [?|(ref&g&Hg&Hb&Hw)]; [by left|right].
  exists g. split_and!; [by eapply list_elem_of_lookup_2|done| |done].
  destruct (Forall2_lookup_r _ _ _ _ _ (gi_heap _ _ _ _ Hi) Hg) as (?&_&?&_). done.
Qed.

(** C13: concurrent reassembly.  Any number of goroutines call the handler at once
    with any messages; their critical sections interleave in any way and the clock
    answers anything.  Then no goroutine panics; every delivery is justified by
    one [STREAM_START] call and chunks that were sent for that stream; and no
    [STREAM_START] is delivered twice, whatever is replaced, pruned or evicted
    while its chunks are being handled. *)
Theorem go_delivers_once timeout calls s ps :
  rtc (go_step timeout) (new_shared, start_pool calls) (s, ps) →
  (∀ j, ps !! j ≠ Some PPanic) ∧
  ∃ src : nat → nat → Prop,
    (∀ j d, delivers ps j d → ∃ o, src j o ∧ justified calls o d) ∧
    (∀ j j' o, src j o → src j' o → j = j').
Proof.
  intros [gs Hi]%go_inv_reachable. split; [by intros j Hj%(gi_pc _ _ _ _ Hi)|].
  set (empty_start o := ∃ c id tag, calls !! o = Some c ∧ start_msg id 0 0 tag c).
  exists (λ j o, (∃ g, g ∈ gs ∧ g_by g = Some j ∧ sent calls g ∧ g_owner g = o) ∨
            j = o ∧ empty_start o). split.
  - intros j d Hd. destruct (delivery_source _ _ _ _ _ _ Hi Hd) as [(c&Hc&Hst&Hdata)|(g&?&?&?&?)].
    + exists j. split; [right; split; [done|by do 3 eexists]|].
      exists c, 0, 0, []. rewrite Hdata. split_and!; try done.
    + exists (g_owner g). split; [left; by exists g|by apply whole_justified].
  - assert (∀ g, sent calls g → ¬ empty_start (g_owner g)) as Hne.
    { intros g (Hwf&(c&Hc&(_&_&E))&_) (c'&id&tag&Hc'&(_&_&E')). simplify_eq.
      rewrite E in E'. destruct (wf_chunks _ Hwf). simplify_eq. lia. }
    intros j j' o [(g&Hg&Hb&Hs&<-)|[-> He]] [(g'&Hg'&Hb'&Hs'&Ho)|[-> He']]; try done.
    + assert (g = g') as -> by (by eapply NoDup_map_elem; [apply Hi|..]). congruence.
    + by destruct (Hne _ Hs).
    + subst. by destruct (Hne _ Hs').
Qed.

(** Executable schedules: the goroutine that runs and what its clock says. *)
Definition go_run1 (timeout : Z) (c : Shared * list pc) (a : nat * Z) : Shared * list pc :=
  match c.2 !! a.1 with
  | None => c
  | Some p =>
      match advance timeout a.2 c.1 p with
      | None => c
      | Some (s', p') => (s', <[a.1 := p']> c.2)
      end
  end.

Definition go_run (timeout : Z) (acts : list (nat * Z)) (c : Shared * list pc)
    : Shared * list pc :=
  foldl (go_run1 timeout) c acts.

Lemma go_run_steps timeout acts : ∀ c, rtc (go_step timeout) c (go_run timeout acts c).
Proof.
  induction acts as [|[j now] acts IH]; intros [s ps]; [done|]. cbn. etrans; [|apply IH].
  unfold go_run1. cbn. destruct (ps !! j) as [p|] eqn:Hp; [|done].
  destruct (advance timeout now s p) as [[s' p']|] eqn:Ha; [|done].
  apply rtc_once. by econstructor.
Qed.

(** Both chunks are looked up before either is placed; a second start for the same
    identifier replaces the context after the stream is complete. *)
Definition ex_race : Shared * list pc :=
  go_run DefaultStreamTimeout
    (map (λ j, (j, 0)) [0; 1; 2; 1; 2; 3; 2; 1]%nat)
    (new_shared, start_pool [ex_start; ex_chunk1; ex_chunk0; ex_start]).

Lemma go_delivers_once_witness :
  delivers ex_race.2 2 (mkDelivery 7 9 ex_bytes) ∧
  ∃ o, justified [ex_start; ex_chunk1; ex_chunk0; ex_start] o (mkDelivery 7 9 ex_bytes).
Proof.
  assert (delivers ex_race.2 2 (mkDelivery 7 9 ex_bytes)) as Hd
    by (exists NORMAL; vm_compute; reflexivity).
  split; [exact Hd|].
  destruct (go_delivers_once DefaultStreamTimeout [ex_start; ex_chunk1; ex_chunk0; ex_start]
    ex_race.1 ex_race.2) as (_&src&Hs&_).
  - rewrite <- surjective_pairing. apply go_run_steps.
  - destruct (Hs _ _ Hd) as (o&_&Ho). by exists o.
Defined.
