(* ===== verification/GuestReassemblerParity.v ===== *)
(** * GuestReassemblerParity: the two reassemblers agree

    SPECIFICATION.md (3.3.4) makes the accept/reject decisions part of the wire
    contract, so the Go reassembler and the C++ reassembler with its default
    configuration must answer alike.  They differ in how they reclaim streams (a
    refusal here, the eviction of the least recently active stream there, and the
    resolution of the timeout), so the statement is about histories in which no
    stream is reclaimed. *)

From S2P Require Export GuestReassemblerSafety.

Local Open Scope Z_scope.

(** A call as both sides see it: the time, the type and the request. *)
Definition cpp_call (c : Z * MsgType * list byte) : Call :=
  let '(now, ty, req) := c in mkCall (mkEnv now now true true true) ty req.

(** What the caller sees of a goroutine that has returned. *)
Definition view (p : pc) : obs :=
  match p with
  | PDone reply dlv => OReply reply dlv
  | PPass => OPass
  | _ => OUndefined
  end.

(** The map of the Go side holds live contexts with the fields of the C++ side. *)
Record agree (s : Shared) (r : Reassembler) : Prop := {
  ag_config : config r = default_Config;
  ag_some : ∀ id ref, table s !! id = Some ref →
    ∃ c, heap s !! ref = Some c ∧ done c = false ∧ dead c = false ∧ streams r !! id = Some (sc c);
  ag_none : ∀ id, table s !! id = None → streams r !! id = None;
  ag_inj : ∀ id id' ref, table s !! id = Some ref → table s !! id' = Some ref → id = id' }.

Lemma agree_size s r : agree s r → size (table s) = size (streams r).
Proof.
  intros Ha. rewrite <- !size_dom. f_equal. apply set_eq. intros id. rewrite !elem_of_dom.
  destruct (table s !! id) as [ref|] eqn:E.
  - destruct (ag_some _ _ Ha _ _ E) as (c&_&_&_&->). by split; eexists.
  - by rewrite (ag_none _ _ Ha _ E).
Qed.

(** [retire] and the removal on the C++ side. *)
Lemma agree_delete s r id ref :
  agree s r → table s !! id = Some ref →
  ∀ c, agree (mkShared (<[ref := c]> (heap s)) (delete id (table s)) (seq s))
         (set_streams r (delete id (streams r))).
Proof.
  intros Ha Hid c. constructor; cbn.
  - apply Ha.
  - intros id' ref' [Hne Ht]%lookup_delete_Some.
    destruct (ag_some _ _ Ha _ _ Ht) as (x&?&?&?&?). exists x.
    rewrite list_lookup_insert_ne, lookup_delete_ne; [done|done|].
    intros ->. apply Hne. by eapply ag_inj.
  - intros id' [->|Ht]%lookup_delete_None; [apply lookup_delete_eq|].
    apply lookup_delete_None. right. by eapply ag_none.
  - intros id1 id2 r' [_ H1]%lookup_delete_Some [_ H2]%lookup_delete_Some. by eapply ag_inj.
Qed.

(** An update of one context. *)
Lemma agree_insert s r id ref c x n :
  agree s r → table s !! id = Some ref → done c = false → dead c = false → sc c = x →
  agree (mkShared (<[ref := c]> (heap s)) (table s) n)
    (set_streams r (<[id := x]> (streams r))).
Proof.
  intros Ha Hid Hd Hd' <-. constructor; cbn.
  - apply Ha.
  - intros id' ref' Ht. destruct (decide (id = id')) as [<-|Hne].
    + simplify_eq. exists c. rewrite lookup_insert_eq, list_lookup_insert_eq; [done|].
      destruct (ag_some _ _ Ha _ _ Hid) as (y&?&_). by eapply lookup_lt_Some.
    + destruct (ag_some _ _ Ha _ _ Ht) as (y&?&?&?&?). exists y.
      rewrite list_lookup_insert_ne, lookup_insert_ne; [done|done|].
      intros ->. apply Hne. by eapply ag_inj.
  - intros id' Ht. rewrite lookup_insert_ne by (intros ->; congruence). by eapply ag_none.
  - apply Ha.
Qed.

Lemma insert_alter {A} (f : A → A) i x (l : list A) : <[i := x]> (alter f i l) = <[i := x]> l.
Proof. revert i. induction l as [|y l IH]; intros [|i]; cbn; [done..|]. f_equal. apply IH. Qed.

(** A context is touched, but its C++ fields stay. *)
Lemma agree_touch s r id ref c x n :
  agree s r → table s !! id = Some ref → heap s !! ref = Some c →
  done x = false → dead x = false → sc x = sc c →
  agree (mkShared (<[ref := x]> (heap s)) (table s) n) r.
Proof.
  intros Ha Hid Hc Hd Hd' Hx. destruct (ag_some _ _ Ha _ _ Hid) as (c'&Hc'&_&_&Hs). simplify_eq.
  replace r with (set_streams r (<[id := sc x]> (streams r))).
  - by eapply agree_insert.
  - rewrite Hx, insert_id by done. by destruct r.
Qed.

(** ** One chunk *)

Lemma chunk_parity timeout now s r m req :
  agree s r → repr r m →
  let '(s', p) := finish 3 timeout now s (PCall STREAM_CHUNK req) in
  let '(r', o) := serve1 r (cpp_call (now, STREAM_CHUNK, req)) in
  view p = o ∧ agree s' r'.
Proof.
  intros Ha Hm. unfold serve1, cpp_call. cbn [c_env c_type c_req].
  rewrite Handle_chunk, HandleChunk_eq. cbn zeta.
  cbn [finish advance]. unfold call_chunk. change 24%nat with sizeof_ChunkHeader.
  destruct (_ <? _)%nat; [done|]. pose proof (parse_chunk_ok req) as Hok.
  set (h := parse_chunk req) in *.
  change (ch_payloadSize (ChunkHeader_read req)) with (ch_payloadSize h).
  change (ch_streamId (ChunkHeader_read req)) with (ch_streamId h).
  change (ch_chunkIndex (ChunkHeader_read req)) with (ch_chunkIndex h).
  change (Z.of_nat sizeof_ChunkHeader) with 24. pose proof Hok as (_&Hi&Hp&_).
  destruct (Z.ltb_spec (Z.of_nat (length req)) (u64 (24 + ch_payloadSize h))) as [|Hlen]; [done|].
  rewrite u64_id in Hlen by lia.
  destruct (table s !! ch_streamId h) as [ref|] eqn:Ht;
    [|by rewrite (ag_none _ _ Ha _ Ht)].
  destruct (ag_some _ _ Ha _ _ Ht) as (ctx&Hc&Hd&Hdd&Hs). rewrite Hc, Hs.
  destruct (_ <=? ch_chunkIndex h) eqn:Hlt; [done|]. apply Z.leb_gt in Hlt.
  set (n := u64 (seq s + 1)). cbn [finish advance heap table seq].
  rewrite list_lookup_alter_eq, Hc. cbn [fmap option_fmap option_map]. unfold consume.
  cbn [set_lastSeq done dead sc lastSeq]. rewrite Hd, Hdd. cbn [orb].
  assert (∃ st, ctx_repr (sc ctx) st) as [st Hr].
  { specialize (Hm (ch_streamId h)). rewrite Hs in Hm. inversion Hm; eauto. }
  pose proof (duplicate_gate _ _ (ch_chunkIndex h) Hr ltac:(lia)) as Hdup.
  assert (Hkeep : ∀ x, done x = false → dead x = false → sc x = sc ctx →
    agree (mkShared (<[ref := x]> (alter (λ c, set_lastSeq c n) ref (heap s))) (table s) n) r).
  { intros x ? ? ?. rewrite insert_alter. by eapply agree_touch. }
  destruct (ch_chunkIndex h <? next (sc ctx)); cbn [orb] in *; [split; [done|by apply Hkeep]|].
  destruct (bool_decide _); [split; [done|by apply Hkeep]|].
  symmetry in Hdup. apply log_has_false in Hdup.
  set (data := slice sizeof_ChunkHeader (Z.to_nat (ch_payloadSize h)) req).
  assert (Hpl : Z.of_nat (length data) = ch_payloadSize h).
  { unfold data. rewrite slice_length by (unfold sizeof_ChunkHeader; lia). lia. }
  pose proof Hr as (_&Hcur&_). rewrite (cr_chunks _ _ _ Hcur) in Hlt.
  rewrite (place_cpp _ _ _ _ Hr Hok Hpl Hdup), (ag_config _ _ Ha).
  destruct (PlaceChunk_spec ex_env default_Config _ _ _ _ Hr Hok Hpl Hlt Hdup) as (x&corrupt&Hx&_).
  change (PlaceChunk _ _ _ (ChunkHeader_read req) data) with
    (PlaceChunk ex_env default_Config (sc ctx) h data). rewrite Hx.
  assert (Hgone : ∀ y z, agree (retire (ch_streamId h) ref
      (mkShared (<[ref := y]> (alter (λ c, set_lastSeq c n) ref (heap s))) (table s) z))
    (set_streams r (delete (ch_streamId h) (streams r)))).
  { intros y z. unfold retire. rewrite bool_decide_true by done. rewrite insert_alter. cbn.
    pose proof (agree_delete _ _ _ _ Ha Ht y) as [E1 E2 E3 E4]. by constructor. }
  destruct corrupt; cbn [negb andb orb]; [split; [done|apply Hgone]|].
  destruct (next x =? totalChunks x); cbn [negb andb orb].
  - destruct (offset x =? totalSize x); cbn [negb andb orb]; (split; [done|apply Hgone]).
  - split; [done|]. rewrite insert_alter. by eapply agree_insert.
Qed.

(** ** One start *)

(** No stream is older than ten seconds. *)
Definition young (now : Z) (r : Reassembler) : Prop :=
  ∀ id c, streams r !! id = Some c → now - startTime c <= DefaultStreamTimeout.

Lemma prune_young now s r :
  agree s r → young now r →
  prune DefaultStreamTimeout now s = s ∧ PruneInternal now r = r.
Proof.
  intros Ha Hy. split.
  - unfold prune. change (0 <? DefaultStreamTimeout) with true. cbv iota.
    assert (filter (λ kv : Z * nat, expired DefaultStreamTimeout now (heap s) kv.2 = true) (table s)
            = ∅) as ->.
    { apply map_empty. intros id. apply map_lookup_filter_None. right. intros ref Ht. cbn. unfold expired.
      destruct (ag_some _ _ Ha _ _ Ht) as (c&->&_&_&Hs). specialize (Hy _ _ Hs).
      intros ?%Z.ltb_lt. lia. }
    rewrite map_to_list_empty. cbn. rewrite map_difference_empty. by destruct s.
  - unfold PruneInternal. rewrite (map_filter_id _ (streams r)); [by destruct r|].
    intros id c Hc. cbn. rewrite (ag_config _ _ Ha). cbn. specialize (Hy _ _ Hc).
    unfold elapsed_ms. change 10000 with (Z.quot (10000 * 1000000) 1000000).
    apply Z.quot_le_mono; [done|]. exact Hy.
Qed.

(** A fresh context under [id], the previous one marked. *)
Lemma agree_start s r id ctx n :
  agree s r → (Z.of_nat (size (table s)) < MaxConcurrentStreams)%Z →
  done ctx = false → dead ctx = false →
  agree (mkShared (heap (evict id s) ++ [ctx])
           (<[id := length (heap (evict id s))]> (table (evict id s))) n)
    (set_streams r (<[id := sc ctx]> (streams r))).
Proof.
  intros Ha Hsz Hd Hdd.
  assert (Hev : table (evict id s) = table s ∧ length (heap (evict id s)) = length (heap s) ∧
    ∀ id' ref, id' ≠ id → table s !! id' = Some ref → heap (evict id s) !! ref = heap s !! ref).
  { unfold evict. destruct (table s !! id) as [prev|] eqn:E.
    - cbn. split_and!; [done|apply length_alter|]. intros id' ref Hne Ht.
      apply list_lookup_alter_ne. intros ->. apply Hne. by eapply ag_inj.
    - rewrite (proj2 (Z.leb_gt _ _) Hsz). done. }
  destruct Hev as (->&Hl&Hh). rewrite Hl. constructor; cbn; [apply Ha|..].
  - intros id' ref [[<- <-]|[Hne Ht]]%lookup_insert_Some.
    + exists ctx. rewrite lookup_insert_eq. split_and!; try done.
      rewrite <- Hl. by apply list_lookup_middle.
    + destruct (ag_some _ _ Ha _ _ Ht) as (c&Hc&?&?&?). exists c.
      rewrite lookup_insert_ne by done. split_and!; try done.
      apply lookup_app_l_Some. by rewrite (Hh id').
  - intros id' [Ht Hne]%lookup_insert_None. rewrite lookup_insert_ne by done. by eapply ag_none.
  - assert (Hold : ∀ x ref, table s !! x = Some ref → ref ≠ length (heap s)).
    { intros x ref Hx. destruct (ag_some _ _ Ha _ _ Hx) as (c&Hc%lookup_lt_Some&_). lia. }
    intros x y ref [[<- <-]|[? Hx]]%lookup_insert_Some [[<- Hr]|[? Hy]]%lookup_insert_Some.
    + done.
    + by apply Hold in Hy.
    + subst. by apply Hold in Hx.
    + by eapply ag_inj.
Qed.

Lemma start_parity now s r req :
  agree s r → young now r → Z.of_nat (size (streams r)) < MaxConcurrentStreams →
  let '(s', p) := finish 3 DefaultStreamTimeout now s (PCall STREAM_START req) in
  let '(r', o) := serve1 r (cpp_call (now, STREAM_START, req)) in
  view p = o ∧ agree s' r'.
Proof.
  intros Ha Hy Hsz. unfold serve1, cpp_call. cbn [c_env c_type c_req].
  rewrite Handle_start. unfold HandleStart, HandleStartAt. cbn zeta.
  cbn [finish advance]. unfold call_start. change 24%nat with sizeof_StreamHeader.
  destruct (_ <? _)%nat; [done|]. rewrite parse_start_read. set (h := StreamHeader_read req).
  clearbody h. rewrite (ag_config _ _ Ha). change (maxStreamSize default_Config) with MaxStreamSize.
  change (maxStreamChunks default_Config) with MaxStreamChunks. rewrite orb_comm.
  destruct (_ || _); [done|]. destruct (_ =? 0); [by destruct (negb _)|].
  destruct (prune_young now (mkShared (heap s) (table s) (u64 (seq s + 1))) r) as [Hp Hp'];
    [by destruct Ha|done|].
  unfold publish_context. cbn [now_prune]. rewrite Hp, Hp', (ag_config _ _ Ha).
  change (maxStreams default_Config) with MaxConcurrentStreams.
  rewrite (proj2 (Z.leb_gt _ _) Hsz). cbn [resize_ok node_ok negb andb]. split; [done|].
  apply (agree_start _ _ _ (mkStreamContext _ false false _)); [by destruct Ha| |done|done].
  cbn. by rewrite (agree_size s r).
Qed.

(** ** Histories *)

Definition is_start (c : Z * MsgType * list byte) : bool :=
  match c with (_, STREAM_START, _) => true | _ => false end.

Definition starts (cs : list (Z * MsgType * list byte)) : nat := length (filter is_start cs).

(** What a call does to the ages and the number of the streams of the contract. *)
Lemma aserve1_ages cfg m c id s' :
  (aserve1 cfg m c).1 !! id = Some s' →
  as_start s' = now_start (c_env c) ∨ ∃ s, m !! id = Some s ∧ as_start s' = as_start s.
Proof.
  assert (Hsub : ∀ m', m' ⊆ m → m' !! id = Some s' → ∃ s, m !! id = Some s ∧ as_start s' = as_start s).
  { intros m' Hm Hid. exists s'. split; [by eapply lookup_weaken|done]. }
  assert (Hfil : ∀ now, APrune cfg now m ⊆ m) by (intros; apply map_filter_subseteq).
  unfold aserve1, AHandle.
  destruct (c_type c); cbn [astep_of fst]; try (intros H; right; by apply (Hsub _ (reflexivity m) H)).
  - unfold AHandleStart. repeat (case_match; cbn [astep_of fst]);
      try (intros Hid; right; first [by apply (Hsub _ (reflexivity m) Hid)|by apply (Hsub _ (Hfil _) Hid)]).
    intros [[_ <-]|[_ Hid]]%lookup_insert_Some; [by left|right; by apply (Hsub _ (Hfil _) Hid)].
  - unfold AHandleChunk. repeat (case_match; cbn [astep_of fst]);
      try (intros Hid; right; by apply (Hsub _ (reflexivity m) Hid));
      try (intros [_ Hid]%lookup_delete_Some; right; by apply (Hsub _ (reflexivity m) Hid)).
    intros [[<- <-]|[_ Hid]]%lookup_insert_Some; [right; by eexists|right; by apply (Hsub _ (reflexivity m) Hid)].
Qed.

Lemma aserve1_size cfg m now ty req :
  (size (aserve1 cfg m (cpp_call (now, ty, req))).1 ≤
     size m + if is_start (now, ty, req) then 1 else 0)%nat.
Proof.
  pose proof (aserve1_rules cfg m (cpp_call (now, ty, req))) as Hr.
  destruct (aserve1 _ _ _) as [m' o]. cbn [fst] in *.
  assert (Hsub : ∀ m1, m1 ⊆ m → (size m1 ≤ size m)%nat) by (intros; by apply map_subseteq_size).
  destruct Hr as [| |nw|id tot ch tag nw nw' Hst ????|id s a alloc v Hs Hc _ _ Hj].
  - lia.
  - lia.
  - pose proof (Hsub (APrune cfg nw m) ltac:(apply map_filter_subseteq)). lia.
  - pose proof (Hsub (APrune cfg nw m) ltac:(apply map_filter_subseteq)).
    destruct Hst as [Ht _]. cbn in Ht. subst ty. cbn.
    pose proof (map_size_insert id (mkAStream tot ch tag nw' []) (APrune cfg nw m)).
    destruct (APrune cfg nw m !! id); cbn in *; lia.
  - destruct v; try (pose proof (Hsub (delete id m) ltac:(apply delete_subseteq))); try lia.
    rewrite map_size_insert_Some by eauto. lia.
Qed.

(** Neither side reclaims a stream: everything happens within ten seconds, and
    there are at most 1024 starts. *)
Definition unhurried (cs : list (Z * MsgType * list byte)) : Prop :=
  Forall (λ c, 0 <= c.1.1 <= DefaultStreamTimeout) cs ∧ (starts cs ≤ 1024)%nat.

Record parity_inv (s : Shared) (r : Reassembler) (m : gmap Z AStream) (left : nat) : Prop := {
  pi_agree : agree s r;
  pi_repr : repr r m;
  pi_ages : ∀ id st, m !! id = Some st → 0 <= as_start st;
  pi_room : (size m + left ≤ 1024)%nat }.

Lemma parity_young s r m left now :
  parity_inv s r m left → now <= DefaultStreamTimeout → young now r.
Proof.
  intros Hi Hn id c Hc. pose proof (pi_repr _ _ _ _ Hi id) as Hr. rewrite Hc in Hr.
  destruct (m !! id) as [st|] eqn:Hm; inversion Hr as [? ? (_&Hcur&_)|]; subst.
  rewrite (cr_start _ _ _ Hcur). pose proof (pi_ages _ _ _ _ Hi _ _ Hm). lia.
Qed.

Lemma parity_step s r m c cs :
  parity_inv s r m (starts (c :: cs)) → 0 <= c.1.1 <= DefaultStreamTimeout →
  let '(s', p) := finish 3 DefaultStreamTimeout c.1.1 s (PCall c.1.2 c.2) in
  let '(r', o) := serve1 r (cpp_call c) in
  view p = o ∧ ∃ m', parity_inv s' r' m' (starts cs).
Proof.
  destruct c as [[now ty] req]. cbn [fst snd]. intros Hi Hn.
  assert (config_ok r) as Hcfg.
  { unfold config_ok. by rewrite (ag_config _ _ (pi_agree _ _ _ _ Hi)). }
  assert (Hstep : let '(s', p) := finish 3 DefaultStreamTimeout now s (PCall ty req) in
    let '(r', o) := serve1 r (cpp_call (now, ty, req)) in view p = o ∧ agree s' r').
  { pose proof (pi_agree _ _ _ _ Hi). destruct ty; try done.
    - apply start_parity; [done|by eapply parity_young, Hn|].
      rewrite (repr_size _ _ (pi_repr _ _ _ _ Hi)). pose proof (pi_room _ _ _ _ Hi) as Hroom.
      unfold starts, MaxConcurrentStreams in *. rewrite filter_cons_True in Hroom by done.
      cbn in Hroom. lia.
    - eapply chunk_parity; [done|by apply Hi]. }
  destruct (serve1_refines r m (cpp_call (now, ty, req)) Hcfg (pi_repr _ _ _ _ Hi)) as (_&_&Hr).
  destruct (finish _ _ _ _ _) as [s' p], (serve1 r _) as [r' o]. destruct Hstep as [Hv Ha].
  split; [done|]. cbn [fst] in Hr. eexists. constructor; [done|exact Hr| |].
  - intros id st [->|(st0&?&->)]%aserve1_ages; [cbn; lia|by eapply pi_ages].
  - pose proof (aserve1_size (config r) m now ty req). pose proof (pi_room _ _ _ _ Hi) as Hroom.
    unfold starts in *. destruct (is_start (now, ty, req)) eqn:E.
    + rewrite filter_cons_True in Hroom by (by apply Is_true_true). cbn in Hroom. lia.
    + rewrite filter_cons_False in Hroom by (by apply Is_true_false). lia.
Qed.

(** C12: parity of the reassemblers.  On every history of calls (any messages of
    any peer, not changed while they are handled) within ten seconds and with at most 1024 starts, the Go reassembler
    gives the same replies and delivers the same streams with the same tags, in
    the same calls, as the C++ reassembler with its default configuration. *)
Theorem reassembler_parity cs :
  unhurried cs →
  map view (go_serve DefaultStreamTimeout new_shared cs).2 =
  (serve (make default_Config) (map cpp_call cs)).2.
Proof.
  intros [Ht Hn].
  assert (Hi : parity_inv new_shared (make default_Config) ∅ (starts cs)).
  { constructor; [|apply make_repr|intros *; by rewrite lookup_empty|by rewrite map_size_empty].
    constructor; [done|..]; cbn; intros *; by rewrite lookup_empty. }
  clear Hn. generalize dependent (∅ : gmap Z AStream).
  generalize new_shared (make default_Config).
  induction Ht as [|[[now ty] req] cs Hc _ IH]; intros s r m Hi; [done|].
  pose proof (parity_step _ _ _ _ _ Hi Hc) as Hs. cbn [go_serve map serve].
  cbn [fst snd] in Hs. destruct (finish 3 _ _ s _) as [s' p], (serve1 r _) as [r' o].
  destruct Hs as [Hv [m' Hi']]. specialize (IH s' r' m' Hi').
  destruct (go_serve _ s' cs), (serve r' _). cbn in *. by rewrite Hv, IH.
Qed.

Lemma reassembler_parity_witness :
  let cs := map (λ c, (0, c_type c, c_req c)) [ex_start; ex_chunk1; ex_chunk1'; ex_chunk0] in
  map view (go_serve DefaultStreamTimeout new_shared cs).2 =
    (serve (make default_Config) (map cpp_call cs)).2 ∧
  last (map view (go_serve DefaultStreamTimeout new_shared cs).2) =
    Some (OReply NORMAL (Some (mkDelivery 7 9 ex_bytes))).
Proof.
  split; [|vm_compute; reflexivity]. apply reassembler_parity. split.
  - repeat constructor; cbn; done.
  - vm_compute. lia.
Defined.
