(* ===== verification/GuestWorker.v ===== *)
(** * GuestWorker: the guest's responder (go/direct.go, go/spin.go)

    The goroutine that serves one host slot, as a program over the shared memory
    of [Machine]: the adaptive wait, the claim of a request, the dispatch on its
    type, the two-phase publish and the recovery from a panic.

    - [slotContext] and [DirectGuest] are those of [GuestAttach]; the mutable
      members of [slotContext] ([waitStrategy.CurrentLimit]) are locations.
    - the application's handler is a parameter: from the message type and the
      request bytes to what it writes and returns ([None]: it panics).  It reads
      its request when it is called and writes its response before it returns;
      other threads may run in between.
    - logging is left out, but not the read of the state that a log line performs.
    - spin statistics (build tag [shm_benchstats]), thread pinning and the
      annotations for the race detector have no effect on shared memory. *)

From S2P Require Export Guest GuestAttach SlotProtocol.

Local Open Scope Z_scope.

(** ** Waiting (go/spin.go) *)

Definition waitStrategyAsmChunk : Z := 4096.
Definition waitStrategyMinSpin : Z := 100.
Definition waitStrategyMaxSpin : Z := 50000.
Definition waitStrategyIncStep : Z := 5000.
Definition waitStrategyDecStep : Z := 1000.

(** [spinUntilEq32] on [State]: the iterations consumed, and whether the value was
    seen. *)
Fixpoint spinUntilEq32 (i : nat) (want : Z) (max : nat) (iters : Z) : prog (Z * bool) :=
  match max with
  | O => Ret (iters, false)
  | S max =>
      let* v := load i F_state in
      if v =? want then Ret (iters, true)
      else call Pause ;;; spinUntilEq32 i want max (iters + 1)
  end.

(** The next value of [CurrentLimit], [None] at the end of the range. *)
Definition adapt (hit : bool) (cur : Z) : option Z :=
  if hit then
    if waitStrategyMaxSpin <=? cur then None
    else
      let newLimit := cur + waitStrategyIncStep in
      Some (if waitStrategyMaxSpin <? newLimit then waitStrategyMaxSpin else newLimit)
  else
    if cur <=? waitStrategyMinSpin then None
    else
      let newLimit := cur - waitStrategyDecStep in
      Some (if newLimit <? waitStrategyMinSpin then waitStrategyMinSpin else newLimit).

Definition recordOutcome (fuel : nat) (i : nat) (hit : bool) (limit : Z) : prog unit :=
  loop fuel (λ cur,
    match adapt hit cur with
    | None => Ret (inr tt)
    | Some newLimit =>
        let* (ok, _) := cas i F_guestLimit cur newLimit in
        if ok then Ret (inr tt)
        else let* cur := load i F_guestLimit in Ret (inl cur)
    end) limit.

(** The spin phase of [WaitState]; every burst consumes at least one iteration. *)
Definition guest_spin (i : nat) (want limit : Z) : prog bool :=
  loop (S (Z.to_nat limit)) (λ totalIters,
    if totalIters <? limit then
      let chunk := limit - totalIters in
      let chunk := if waitStrategyAsmChunk <? chunk then waitStrategyAsmChunk else chunk in
      let* (iters, ok) := spinUntilEq32 i want (Z.to_nat chunk) 0 in
      let totalIters := totalIters + iters in
      if ok then Ret (inr true)
      else (if totalIters <? limit then call Pause else Ret tt) ;;; Ret (inl totalIters)
    else Ret (inr false)) 0.

Definition WaitState (fuel : nat) (i : nat) (want : Z) (sleepAction : prog unit) : prog bool :=
  let* limit := load i F_guestLimit in
  let limit := u64 (i32 limit) in
  let* ready := guest_spin i want limit in
  if ready then recordOutcome fuel i true (i32 limit) ;;; Ret true
  else
    recordOutcome fuel i false (i32 limit) ;;;
    sleepAction ;;;
    let* v := load i F_state in
    Ret (v =? want).

(** ** The responder *)

(** [MonotonicNanos] of go/monotonic.go: the clock in nanoseconds. *)
Definition guest_MonotonicNanos : prog Z := let* t := call SteadyNow in Ret (u64 t).

Definition claimSlotGen (i : nat) : prog unit :=
  let* _ := call (FetchAdd (LSlot i F_gen) 1) in Ret tt.

Definition guest_stamp_lease (i : nat) : prog unit :=
  let* now := guest_MonotonicNanos in store i F_lease now.

Definition guest_lockForPublish (i : nat) : prog bool :=
  let* (ok, _) := cas i F_state SLOT_GUEST_BUSY SLOT_DONE in
  if negb ok then let* _ := load i F_state in Ret false else Ret true.

(** What a handler wrote to the response buffer, and what it returned. *)
Record HandlerResult : Type := mkHandlerResult {
  hr_off : Z; hr_bytes : list byte; hr_size : Z; hr_type : Z }.

Abbreviation Handler := (Z → list byte → option HandlerResult).

(** A signed size as a window of an area: from the start, or up to the end. *)
Definition window (cap size : Z) : Z * Z :=
  if 0 <=? size then (0, size) else (cap + size, - size).

(** The request window of [workerLoopInternal], [None] when the size is refused. *)
Definition request_window (cap reqSize : Z) : option (Z * Z) :=
  if 0 <=? reqSize then
    if i32 cap <? reqSize then None else Some (0, reqSize)
  else
    let rLen := i32 (- reqSize) in
    if (rLen <? 0) || (i32 cap <? rLen) then None
    else Some (i32 (i32 cap - rLen), cap - i32 (i32 cap - rLen)).

(** What became of one round: the worker goes on, leaves, or panics. *)
Inductive round : Set := Again | Leave | Panics.

Section worker.
Context (g : DirectGuest) (handler : Handler) (fuel : nat).

(** [handler(reqData, slot.respBuffer, msgType)]; a write outside the response
    buffer panics. *)
Definition call_handler (i : nat) (c : slotContext) (off n msgType : Z)
    : prog (option (Z * Z)) :=
  let* req := call (CopyOut (BReq i) off n) in
  match handler msgType req with
  | None => Ret None
  | Some h =>
      if in_range (hr_off h) (Z.of_nat (length (hr_bytes h))) (gs_respBuffer c).2 then
        call (CopyIn (BResp i) (hr_off h) (hr_bytes h)) ;;;
        Ret (Some (hr_size h, hr_type h))
      else Ret None
  end.

(** [if lockForPublish { ... publishResponse }] with the header stores given. *)
Definition publish_with (i : nat) (c : slotContext) (header_stores : prog unit) : prog unit :=
  let* ok := guest_lockForPublish i in
  if ok then
    header_stores ;;;
    let* _ := guest_publishResponse i (gs_respEvent c) in Ret tt
  else Ret tt.

Definition refuse (i : nat) : prog unit :=
  store i F_respSize 0 ;;; store i F_msgType (MsgType_val SYSTEM_ERROR).

(** The claim: [REQ_READY] to [GUEST_BUSY], with the generation and the lease
    unless the host switched reclaiming off. *)
Definition claim_request (i : nat) : prog bool :=
  if dg_fastPathAllowed g then
    let* (ok, _) := cas i F_state SLOT_REQ_READY SLOT_GUEST_BUSY in Ret ok
  else
    claimSlotGen i ;;;
    let* (ok, _) := cas i F_state SLOT_REQ_READY SLOT_GUEST_BUSY in
    if ok then guest_stamp_lease i ;;; Ret true else Ret false.

(** From the claim to the publish. *)
Definition serve_request (i : nat) (c : slotContext) : prog round :=
  let* msgType := load i F_msgType in
  if msgType =? MsgType_val SHUTDOWN then
    publish_with i c (store i F_respSize 0) ;;; Ret Leave
  else if msgType =? MsgType_val HEARTBEAT_REQ then
    publish_with i c (store i F_msgType (MsgType_val HEARTBEAT_RESP) ;;; store i F_respSize 0) ;;;
    Ret Again
  else
    let* reqSize := load_i32 i F_reqSize in
    match request_window (gs_reqBuffer c).2 reqSize with
    | None => publish_with i c (refuse i) ;;; Ret Again
    | Some (off, n) =>
        let* r := call_handler i c off n msgType in
        match r with
        | None => Ret Panics
        | Some (respSize, respType) =>
            publish_with i c (store i F_respSize respSize ;;; store i F_msgType respType) ;;;
            Ret Again
        end
    end.

(** [workerLoopInternal]: [true] when it returned (always false in the source),
    [false] when it panicked. *)
Definition workerLoopInternal (i : nat) (c : slotContext) : prog bool :=
  store i F_guestState GUEST_STATE_ACTIVE ;;;
  loop fuel (λ _ : unit,
    let* closing := call (Load L_guestClosing) in
    if closing =? 1 then Ret (inr true)
    else
      let* ready := WaitState fuel i SLOT_REQ_READY (guest_worker_sleep i (gs_reqEvent c)) in
      if ready then
        let* ok := claim_request i in
        if ok then
          let* r := serve_request i c in
          Ret (match r with Again => inl tt | Leave => inr true | Panics => inr false end)
        else Ret (inl tt)
      else Ret (inl tt)) tt.

(** The deferred function of [workerLoop] after a panic. *)
Definition recover_panic (i : nat) (c : slotContext) : prog unit :=
  let* closing := call (Load L_guestClosing) in
  if closing =? 1 then Ret tt
  else
    let* st := load i F_state in
    if st =? SLOT_GUEST_BUSY then
      publish_with i c (store i F_msgType (MsgType_val SYSTEM_ERROR) ;;; store i F_respSize 0)
    else Ret tt.

Definition workerLoop (i : nat) : prog unit :=
  match dg_slots g !! i with
  | None => Fault
  | Some c =>
      loop fuel (λ _ : unit,
        let* closing := call (Load L_guestClosing) in
        if closing =? 1 then Ret (inr tt)
        else
          let* returned := workerLoopInternal i c in
          if returned then Ret (inr tt)
          else recover_panic i c ;;; Ret (inl tt)) tt
  end.
End worker.

(** ** Lemmas *)

(** An accepted request size is a window of the request area. *)
Lemma request_window_Some cap sz off n :
  0 <= cap < 2 ^ 31 → is_i32 sz → request_window cap sz = Some (off, n) →
  (off, n) = window cap sz ∧ in_range off n cap = true.
Proof.
  intros Hcap Hz. unfold request_window, window, in_range. rewrite (i32_id cap) by lia. cbv zeta.
  rewrite !andb_true_iff, !Z.leb_le.
  destruct (Z.leb_spec 0 sz).
  - destruct (Z.ltb_spec cap sz); [done|]. intros [= <- <-]. split_and!; [done|lia..].
  - assert (i32 (- sz) = - sz ∨ i32 (- sz) = sz) as Hi.
    { destruct (decide (sz = - 2 ^ 31)) as [->|]; [by right|left; apply i32_id; lia]. }
    destruct (_ || _) eqn:E; [done|]. rewrite orb_false_iff, !Z.ltb_ge in E. intros [= <- <-].
    destruct Hi as [Hi|Hi]; rewrite Hi in *; [|lia]. rewrite i32_id by lia.
    split_and!; [f_equal; lia|lia..].
Qed.
