(* ===== verification/GuestWait.v ===== *)
(** * GuestWait: the two waits of the guest (go/spin.go)

    [WaitStrategy.Wait] polls a condition given as a closure; [WaitState] is its fast
    path for the condition "the state of the slot is [want]", with an inner loop in
    assembly that runs in bursts ([GuestWorker]).  The comment of [WaitState] says that
    the two are semantically equivalent.

    - [NewWaitStrategy], [guest_Wait]: the general wait, with [cpuPause] and
      [runtime.Gosched] as [Pause];
    - [WaitState_is_Wait]: the equivalence.  [Pause] has no effect on shared memory, so
      the two are compared by what every monitor observes that ignores it. *)

From S2P Require Export GuestWorker.

Local Open Scope Z_scope.

Definition waitStrategyYieldMask : Z := 4095.

(** [CurrentLimit] of a new strategy. *)
Definition NewWaitStrategy : Z := waitStrategyMaxSpin.

(** The spin loop; [i] is the slot whose strategy it is. *)
Definition guest_Wait_spin (limit : Z) (condition : prog bool) : prog bool :=
  let* r := for_ (Z.to_nat limit) 0 (λ n _,
    let* c := condition in
    if c then Ret (inr tt)
    else
      call Pause ;;;
      (if (0 <? n) && (Z.land n waitStrategyYieldMask =? 0) then call Pause else Ret tt) ;;;
      Ret (inl tt)) tt in
  Ret (match r with inr _ => true | inl _ => false end).

Definition guest_Wait (fuel : nat) (i : nat) (condition : prog bool) (sleepAction : prog unit)
    : prog bool :=
  let* limit := load i F_guestLimit in
  let limit := i32 limit in
  let* ready := guest_Wait_spin limit condition in
  if ready then recordOutcome fuel i true (i32 limit) ;;; Ret true
  else
    recordOutcome fuel i false (i32 limit) ;;;
    sleepAction ;;;
    let* c := condition in
    if c then Ret true else Ret false.

(** ** The limit *)

(** The limit of a strategy never leaves its range, so that it is never negative. *)
Lemma adapt_range hit cur l :
  waitStrategyMinSpin <= cur <= waitStrategyMaxSpin → adapt hit cur = Some l →
  waitStrategyMinSpin <= l <= waitStrategyMaxSpin.
Proof.
  unfold adapt, waitStrategyMinSpin, waitStrategyMaxSpin, waitStrategyIncStep, waitStrategyDecStep.
  intros Hc. destruct hit.
  - destruct (Z.leb_spec 50000 cur); [done|]. cbv zeta.
    destruct (Z.ltb_spec 50000 (cur + 5000)); intros [= <-]; lia.
  - destruct (Z.leb_spec cur 100); [done|]. cbv zeta.
    destruct (Z.ltb_spec (cur - 1000) 100); intros [= <-]; lia.
Qed.

(** ** The equivalence *)

Lemma obeys_bind_iff {M A B} total (mon : monitor M) (p : prog A) (f : A → prog B) : ∀ s Q,
  obeys total mon (bind p f) s Q ↔ obeys total mon p s (λ a s', obeys total mon (f a) s' Q).
Proof.
  induction p as [a|X o k IH| |]; intros s Q; simpl; [done| |done|done].
  split; intros H r; specialize (H r); destruct (mon s X o r); try done; by apply IH.
Qed.

Section equivalence.
Context {M : Type} (total : bool) (mon : monitor M).
Hypothesis Hpause : ∀ m, mon m _ Pause tt = Next m.

(** The two do the same, as far as [mon] can see. *)
Definition alike {X} (p q : prog X) : Prop :=
  ∀ m Q, obeys total mon p m Q ↔ obeys total mon q m Q.

#[local] Instance alike_equivalence X : Equivalence (alike (X := X)).
Proof.
  split; [done|intros p q H m Q; by rewrite (H m Q)|].
  intros p q r H1 H2 m Q. by rewrite (H1 m Q).
Qed.

Lemma obeys_iff {X} (p : prog X) : ∀ m (Q Q' : X → M → Prop),
  (∀ a m, Q a m ↔ Q' a m) → obeys total mon p m Q ↔ obeys total mon p m Q'.
Proof. intros m Q Q' H. split; apply obeys_mono; intros a s; apply H. Qed.

Lemma alike_bind {X Y} (p q : prog X) (f g : X → prog Y) :
  alike p q → (∀ x, alike (f x) (g x)) → alike (bind p f) (bind q g).
Proof.
  intros Hp Hf m Q. rewrite !obeys_bind_iff, (Hp m _). apply obeys_iff. intros a m'. apply Hf.
Qed.

Lemma alike_assoc {X Y Z} (p : prog X) (f : X → prog Y) (g : Y → prog Z) :
  alike (bind (bind p f) g) (let* x := p in bind (f x) g).
Proof.
  intros m Q. rewrite !obeys_bind_iff. apply obeys_iff. intros a m'. by rewrite obeys_bind_iff.
Qed.

Lemma alike_pause {X} (k : unit → prog X) : alike (Do Pause k) (k tt).
Proof using Hpause.
  intros m Q. simpl. split; [|intros H []; by rewrite Hpause].
  intros H. specialize (H tt). by rewrite Hpause in H.
Qed.

Lemma alike_do {X Y} (o : op Y) (k k' : Y → prog X) :
  (∀ r, alike (k r) (k' r)) → alike (Do o k) (Do o k').
Proof.
  intros Hk m Q. split; intros H r; specialize (H r); destruct (mon m _ _ r); try done; by apply Hk.
Qed.

Context (i : nat) (want : Z).

Definition at_want : prog bool := let* v := load i F_state in Ret (v =? want).

(** The loop both come down to: at most [n] reads of the state. *)
Fixpoint polls (n : nat) : prog bool :=
  match n with
  | O => Ret false
  | S n => let* v := load i F_state in if v =? want then Ret true else polls n
  end.

Lemma polls_app a b :
  alike (polls (a + b)) (let* ok := polls a in if ok then Ret true else polls b).
Proof.
  induction a as [|a IH]; simpl; [done|]. intros m Q. split; intros H r; specialize (H r);
    destruct (mon m _ _ r) as [m'| |]; try done; destruct (r =? want); try done; by apply IH.
Qed.

Lemma guest_Wait_spin_polls limit : alike (guest_Wait_spin limit at_want) (polls (Z.to_nat limit)).
Proof using Hpause.
  unfold guest_Wait_spin. set (body := λ n (_ : unit), _). generalize 0 at 1 as j.
  induction (Z.to_nat limit) as [|n IH]; intros j; [done|].
  cbn [for_ polls]. unfold body at 1, at_want, load. cbn [bind call]. apply alike_do. intros r.
  destruct (r =? want); cbn [bind]; [done|]. etrans; [apply alike_pause|]. cbn [bind].
  destruct (_ && _); cbn [bind call]; [etrans; [apply alike_pause|]|]; apply IH.
Qed.

(** A burst, followed by something that depends on its iterations only when it
    failed. *)
Lemma burst_polls {X} max : ∀ iters (f : Z * bool → prog X) (g : bool → prog X),
  (∀ n, alike (f (n, true)) (g true)) → alike (f (iters + Z.of_nat max, false)) (g false) →
  alike (bind (spinUntilEq32 i want max iters) f) (bind (polls max) g).
Proof using Hpause.
  induction max as [|max IH]; intros iters f g Ht Hf; cbn [spinUntilEq32 polls].
  { cbn [bind]. by rewrite Z.add_0_r in Hf. }
  unfold load. cbn [bind call]. apply alike_do. intros r. destruct (r =? want); cbn [bind]; [done|].
  etrans; [apply alike_pause|]. apply IH; [done|].
  by replace (iters + 1 + Z.of_nat max) with (iters + Z.of_nat (S max)) by lia.
Qed.

Lemma guest_spin_polls limit : 0 <= limit → alike (guest_spin i want limit) (polls (Z.to_nat limit)).
Proof using Hpause.
  intros Hl. unfold guest_spin. set (body := λ totalIters : Z, _).
  assert (∀ fuel t, 0 <= t <= limit → limit - t < Z.of_nat fuel →
    alike (loop fuel body t) (polls (Z.to_nat (limit - t)))) as Hloop.
  2: { rewrite <-(Z.sub_0_r limit) at 2. apply Hloop; lia. }
  induction fuel as [|fuel IH]; intros t Ht Hf; [lia|]. cbn [loop]. unfold body at 1.
  destruct (Z.ltb_spec t limit); cycle 1.
  { replace (Z.to_nat (limit - t)) with 0%nat by lia. done. }
  cbv zeta. set (chunk := if _ <? limit - t then _ else _).
  assert (1 <= chunk <= limit - t).
  { unfold chunk, waitStrategyAsmChunk. destruct (Z.ltb_spec 4096 (limit - t)); lia. }
  replace (Z.to_nat (limit - t)) with (Z.to_nat chunk + Z.to_nat (limit - (t + chunk)))%nat by lia.
  etrans; [|symmetry; apply polls_app]. etrans; [apply alike_assoc|].
  apply burst_polls; [done|]. cbn [bind]. rewrite Z2Nat.id, Z.add_0_l by lia.
  destruct (_ <? limit); cbn [bind call]; [etrans; [apply alike_pause|]|]; apply IH; lia.
Qed.

(** The optimised wait is the general one. *)
Lemma WaitState_alike fuel sleep :
  (∀ m r, i32 r < 0 → mon m _ (Load (LSlot i F_guestLimit)) r = Impossible) →
  alike (WaitState fuel i want sleep) (guest_Wait fuel i at_want sleep).
Proof using Hpause.
  intros Hneg m Q. unfold WaitState, guest_Wait, load at 1 3. cbn [bind call].
  assert (∀ r, 0 <= i32 r → alike
    (let* ready := guest_spin i want (u64 (i32 r)) in
     if ready then recordOutcome fuel i true (i32 (u64 (i32 r))) ;;; Ret true
     else recordOutcome fuel i false (i32 (u64 (i32 r))) ;;; sleep ;;;
          let* v := load i F_state in Ret (v =? want))
    (let* ready := guest_Wait_spin (i32 r) at_want in
     if ready then recordOutcome fuel i true (i32 (i32 r)) ;;; Ret true
     else recordOutcome fuel i false (i32 (i32 r)) ;;; sleep ;;;
          let* c := at_want in if c then Ret true else Ret false)) as Hrest.
  { intros r Hr. pose proof (i32_range r). rewrite u64_id, (i32_id (i32 r)) by lia. apply alike_bind.
    - etrans; [by apply guest_spin_polls|]. symmetry. apply guest_Wait_spin_polls.
    - intros []; [done|]. do 2 (apply alike_bind; [done|]; intros []). unfold at_want, load.
      cbn [bind call]. apply alike_do. intros v. by destruct (v =? want). }
  split; intros H r; specialize (H r); destruct (Z.lt_ge_cases (i32 r) 0);
    try (by rewrite Hneg); destruct (mon m _ _ r); try done; by apply Hrest.
Qed.
End equivalence.

(** C27: the fast path of the wait is the wait.  [WaitState], which spins in bursts of
    the assembly loop, and [Wait] on the condition that the state equals [want] are
    indistinguishable, with the same adaptive limit, sleep action and result: every
    monitor that ignores pauses accepts both or neither, whatever it asks of reads,
    writes and their order, and of termination ([total]).  The limit read is not
    negative, which the second part shows to be an invariant: it starts in the
    range of the strategy and every adaptation stays there. *)
Theorem WaitState_is_Wait {M} total (mon : monitor M) fuel i want sleep :
  (∀ m, mon m _ Pause tt = Next m) →
  (∀ m r, i32 r < 0 → mon m _ (Load (LSlot i F_guestLimit)) r = Impossible) →
  (∀ m Q, obeys total mon (WaitState fuel i want sleep) m Q ↔
          obeys total mon (guest_Wait fuel i (at_want i want) sleep) m Q) ∧
  waitStrategyMinSpin <= NewWaitStrategy <= waitStrategyMaxSpin ∧
  (∀ hit cur l, waitStrategyMinSpin <= cur <= waitStrategyMaxSpin → adapt hit cur = Some l →
     waitStrategyMinSpin <= l <= waitStrategyMaxSpin).
Proof.
  intros Hp Hn. split; [by apply WaitState_alike|]. split; [done|]. apply adapt_range.
Qed.

(** Counts the reads of the state, with a limit of 2. *)
Definition ex_reads : monitor nat := λ m X o,
  match o in op X return X → verdict_of nat with
  | Load l => λ r,
      if bool_decide (l = LSlot 0 F_guestLimit) then if r =? 2 then Next m else Impossible
      else Next (S m)
  | Cas _ _ _ => λ r, if (r.1 : bool) then Next m else Impossible
  | _ => λ _, Next m
  end.

Lemma WaitState_is_Wait_witness :
  obeys false ex_reads (WaitState 1 0 SLOT_RESP_READY (Ret tt)) 0%nat (λ _ n, (n <= 3)%nat).
Proof.
  apply (WaitState_is_Wait false ex_reads 1 0 SLOT_RESP_READY (Ret tt)).
  - done.
  - intros m r Hr. simpl. destruct (Z.eqb_spec r 2) as [->|]; [by vm_compute in Hr|done].
  - intros r. simpl. destruct (Z.eqb_spec r 2) as [->|]; [|done].
    change (Z.to_nat (i32 2)) with 2%nat. intros r1. simpl. destruct (r1 =? SLOT_RESP_READY); simpl.
    + intros [[] ?]; simpl; [lia|done].
    + intros []. simpl. intros r2. simpl. destruct (r2 =? SLOT_RESP_READY); simpl.
      * intros [[] ?]; simpl; [lia|done].
      * intros []. simpl. intros r3. simpl. destruct (r3 =? SLOT_RESP_READY); simpl; lia.
Defined.
