(* ===== verification/SlotExchange.v ===== *)
(** * SlotExchange: the protocol of a request and its response on one slot

    A caller claims a slot, writes a request, publishes it, waits, and reads the
    response; a responder claims the request, runs the handler, and publishes
    under a lock.  Host calls ([Rpc]) and guest calls ([GuestCallRpc]) are this
    protocol in the two directions ([Direction]).

    - [answer]: the specification of a call, from the handler alone;
    - [caller], [responder]: where the two sides are, with what they know, and
      [mon], the monitor of what each may do;
    - [joint]: the invariant that connects both with the shared memory, kept by every
      step that the monitor allows. *)

From S2P Require Export GuestWorker.

Local Open Scope Z_scope.

(** A direction of calls: the state in which the caller owns the slot, the state in
    which the responder works on a request, the flag that the caller keeps up while
    it waits, and the types of message that the responder answers by itself. *)
Record Direction : Type := mkDirection {
  d_own : Z; d_busy : Z; d_flag : field; d_special : Z → bool }.

Record dir_ok (d : Direction) : Prop := mkDirOk {
  do_own : d_own d ∉ [SLOT_FREE; SLOT_REQ_READY; SLOT_RESP_READY; SLOT_DONE];
  do_busy : d_busy d ∉ [SLOT_FREE; SLOT_REQ_READY; SLOT_RESP_READY; SLOT_DONE];
  do_ne : d_own d ≠ d_busy d }.

Lemma own_states d : dir_ok d →
  d_own d ≠ SLOT_FREE ∧ d_own d ≠ SLOT_REQ_READY ∧ d_own d ≠ SLOT_RESP_READY ∧
  d_own d ≠ SLOT_DONE ∧ d_own d ≠ d_busy d.
Proof. intros [H _ Hn]. rewrite !not_elem_of_cons in H. tauto. Qed.

Lemma busy_states d : dir_ok d →
  d_busy d ≠ SLOT_FREE ∧ d_busy d ≠ SLOT_REQ_READY ∧ d_busy d ≠ SLOT_RESP_READY ∧
  d_busy d ≠ SLOT_DONE.
Proof. intros [_ H _]. rewrite !not_elem_of_cons in H. tauto. Qed.

(** The answer to a request of a type: none when the handler panics. *)
Definition answer (special : Z → bool) (handler : Handler) (q : Z * list byte)
    : option (list byte) :=
  if special q.1 then Some [] else hr_bytes <$> handler q.1 q.2.

(** The contract of a handler: the size it returns describes what it wrote, at the
    start or at the end of the response buffer. *)
Definition handler_ok (respCap : Z) (handler : Handler) : Prop :=
  ∀ ty req h, handler ty req = Some h →
    window respCap (hr_size h) = (hr_off h, Z.of_nat (length (hr_bytes h))) ∧
    in_range (hr_off h) (Z.of_nat (length (hr_bytes h))) respCap = true.

(** Such a size is a 32-bit one. *)
Lemma handler_size respCap handler ty req h :
  0 <= respCap < 2 ^ 31 → handler_ok respCap handler → handler ty req = Some h →
  Z.abs (hr_size h) <= respCap.
Proof.
  intros Hc Hok [Hw Hr]%Hok. unfold window, in_range in *. rewrite !andb_true_iff, !Z.leb_le in Hr.
  destruct (Z.leb_spec 0 (hr_size h)); simplify_eq; lia.
Qed.

Module Exchange.
Section exchange.
Context (dir : Direction) (i : nat) (reqCap respCap : Z) (handler : Handler).

Local Abbreviation own := (d_own dir).
Local Abbreviation busy := (d_busy dir).
Local Abbreviation flag := (d_flag dir).
Local Abbreviation special := (d_special dir).
Local Abbreviation reply := (answer special handler).

(** ** Where the caller is

    Not in a transaction; owner of the slot, with the last copy into the request
    area, the size and the type it stored; request [q] published; its response
    seen; consumed, with what was read of the response header, while the slot is taken
    back or ([fast]) left in [RESP_READY]. *)
Inductive caller : Type :=
  | COut
  | COwn (cp : option (Z * list byte)) (sz ty : option Z)
  | CLive (q : Z * list byte)
  | CReady (q : Z * list byte)
  | CTaken (fast : bool) (q : Z * list byte) (checked : bool) (rs : option Z).

Definition owned : caller := COwn None None None.

(** The request that a publish makes visible. *)
Definition made_request (cp : option (Z * list byte)) (sz ty : option Z)
    : option (Z * list byte) :=
  match sz, ty with
  | Some v, Some t =>
      let '(off, n) := window reqCap (i32 v) in
      if in_range off n reqCap then
        if n =? 0 then Some (t, [])
        else match cp with
             | Some (off', d) =>
                 if (off' =? off) && (Z.of_nat (length d) =? n) then Some (t, d) else None
             | None => None
             end
      else None
  | _, _ => None
  end.

(** The type of the response has been read. *)
Definition read_type (fast : bool) (q : Z * list byte) (checked : bool) (rs : option Z) (r : Z)
    : verdict_of caller :=
  if r =? MsgType_val SYSTEM_ERROR then Next (CTaken fast q checked rs)
  else if bool_decide (is_Some (reply q)) then Next (CTaken fast q true rs)
  else Impossible.

Definition caller_load (h : caller) (l : loc) (r : Z) : verdict_of caller :=
  match h with
  | CLive q =>
      if on i F_state l then Next (if r =? SLOT_RESP_READY then CReady q else h) else Next h
  | CReady q =>
      if on i F_state l then if r =? SLOT_RESP_READY then Next h else Impossible
      else if on i F_msgType l then read_type true q false None r else Next h
  | CTaken fast q checked rs =>
      if on i F_msgType l then read_type fast q checked rs r
      else if on i F_respSize l then
        if negb checked then Forbidden
        else if bool_decide (Z.of_nat <$> (length <$> reply q)
                             = Some (window respCap (i32 r)).2)
        then Next (CTaken fast q true (Some r)) else Impossible
      else Next h
  | _ => Next h
  end.

Definition caller_store (h : caller) (l : loc) (v : Z) : verdict_of caller :=
  if on i F_state l then
    match h with
    | COwn cp sz ty =>
        if v =? SLOT_FREE then Next COut
        else if v =? SLOT_REQ_READY then
          match made_request cp sz ty with Some q => Next (CLive q) | None => Forbidden end
        else Forbidden
    | CReady q => if v =? own then Next (CTaken false q false None) else Forbidden
    | CTaken _ _ _ _ => if v =? SLOT_FREE then Next COut else Forbidden
    | _ => Forbidden
    end
  else if on i F_msgType l then
    match h with COwn cp sz _ => Next (COwn cp sz (Some v)) | _ => Forbidden end
  else if on i F_reqSize l then
    match h with COwn cp _ ty => Next (COwn cp (Some v) ty) | _ => Forbidden end
  else if on i F_respSize l then Forbidden
  else if on i flag l && (v =? 0) then
    match h with CLive _ | CReady _ | CTaken true _ _ _ => Next COut | _ => Next h end
  else Next h.

(** The operation may change, or copies from, what the protocol is about. *)
Definition guarded {X} (o : op X) : bool :=
  writes i F_state o || writes i F_msgType o || writes i F_reqSize o || writes i F_respSize o
  || match o with CopyIn _ _ _ | CopyOut _ _ _ | RunHandler _ _ _ _ _ => true | _ => false end.

Definition is_buf (b b' : buffer) : bool :=
  match b, b' with
  | BReq j, BReq k | BResp j, BResp k => (j =? k)%nat
  | _, _ => false
  end.

Definition caller_next (h : caller) {X} (o : op X) : X → verdict_of caller :=
  match o in op X return X → verdict_of caller with
  | Load l => λ r, caller_load h l r
  | Store l v => λ _, caller_store h l v
  | Cas l e d => λ r,
      if on i F_state l then
        let must h' := if (r.1 : bool) then Next h' else Impossible in
        match h with
        | COut =>
            if (d =? own) && negb (e =? SLOT_DONE)
            then Next (if (r.1 : bool) then owned else COut)
            else if (e =? SLOT_RESP_READY) && (d =? SLOT_FREE) then Next COut else Forbidden
        | COwn _ _ _ | CTaken false _ _ _ =>
            if (e =? own) && (d =? SLOT_FREE) then must COut else Forbidden
        | CReady q =>
            if (e =? SLOT_RESP_READY) && (d =? own) then must (CTaken false q false None)
            else Forbidden
        | _ => Forbidden
        end
      else if guarded (Cas l e d) then Forbidden else Next h
  | CopyIn b off d => λ _,
      match h with
      | COwn _ sz ty =>
          if is_buf b (BReq i) && in_range off (Z.of_nat (length d)) reqCap
          then Next (COwn (Some (off, d)) sz ty) else Forbidden
      | _ => Forbidden
      end
  | CopyOut b off n => λ r,
      match h with
      | CTaken _ q true (Some v) =>
          if is_buf b (BResp i) && in_range off n respCap
             && bool_decide ((off, n) = window respCap (i32 v))
          then if bool_decide (reply q = Some r) then Next h else Impossible
          else Forbidden
      | _ => Forbidden
      end
  | o => λ _, if guarded o then Forbidden else Next h
  end.

(** ** Where the responder is

    Between requests; at a request, with what it read and whether the handler's
    output is in place; holding the publish lock, with what it stored. *)
Record know : Type := mkKnow {
  k_ty : option Z; k_size : option Z; k_req : option (list byte);
  k_wrote : option HandlerResult }.

Inductive responder : Type :=
  | RIdle
  | RBusy (k : know)
  | RLocked (k : know) (rs ty : option Z).

(** What may be published. *)
Definition answers (k : know) (rs ty : option Z) : bool :=
  match rs with
  | Some v =>
      bool_decide (ty = Some (MsgType_val SYSTEM_ERROR)) ||
      match k_ty k with
      | Some t =>
          if special t then v =? 0
          else match k_wrote k with Some h => v =? hr_size h | None => false end
      | None => false
      end
  | None => false
  end.

Definition responder_next (g : responder) {X} (o : op X) : X → verdict_of responder :=
  match o in op X return X → verdict_of responder with
  | Load l => λ r,
      match g with
      | RBusy k =>
          if on i F_msgType l then
            Next (RBusy (mkKnow (Some r) (k_size k) (k_req k) (k_wrote k)))
          else if on i F_reqSize l then
            Next (RBusy (mkKnow (k_ty k) (Some r) (k_req k) (k_wrote k)))
          else Next g
      | _ => Next g
      end
  | Store l v => λ _,
      if on i F_respSize l then
        match g with RLocked k _ ty => Next (RLocked k (Some v) ty) | _ => Forbidden end
      else if on i F_msgType l then
        match g with RLocked k rs _ => Next (RLocked k rs (Some v)) | _ => Forbidden end
      else if guarded (Store l v) then Forbidden else Next g
  | Cas l e d => λ r,
      if on i F_state l then
        match g with
        | RIdle | RBusy _ =>
            if (e =? SLOT_REQ_READY) && (d =? busy) then
              Next (if (r.1 : bool) then RBusy (mkKnow None None None None) else g)
            else
              match g with
              | RBusy k =>
                  if (e =? busy) && (d =? SLOT_DONE)
                  then Next (if (r.1 : bool) then RLocked k None None else RIdle) else Forbidden
              | _ => Forbidden
              end
        | RLocked k rs ty =>
            if (e =? SLOT_DONE) && (d =? SLOT_RESP_READY) && answers k rs ty
            then if (r.1 : bool) then Next RIdle else Impossible else Forbidden
        end
      else if guarded (Cas l e d) then Forbidden else Next g
  | CopyOut b off n => λ r,
      match g with
      | RBusy (mkKnow ty (Some z) _ wr) =>
          if is_buf b (BReq i) && in_range off n reqCap
             && bool_decide ((off, n) = window reqCap (i32 z))
          then Next (RBusy (mkKnow ty (Some z) (Some r) wr)) else Forbidden
      | _ => Forbidden
      end
  | CopyIn b off d => λ _,
      match g with
      | RBusy (mkKnow (Some t) z (Some req) _) =>
          match handler t req with
          | Some h =>
              if is_buf b (BResp i) && (off =? hr_off h) && bool_decide (d = hr_bytes h)
                 && in_range off (Z.of_nat (length d)) respCap
              then Next (RBusy (mkKnow (Some t) z (Some req) (Some h))) else Forbidden
          | None => Forbidden
          end
      | _ => Forbidden
      end
  | o => λ _, if guarded o then Forbidden else Next g
  end.

Inductive role : Type := Caller (h : caller) | Responder (g : responder).

Definition lift {A B} (f : A → B) (v : verdict_of A) : verdict_of B :=
  match v with Next a => Next (f a) | Forbidden => Forbidden | Impossible => Impossible end.

Definition mon : monitor role := λ s X o r,
  if answer_ok o r then
    match s with
    | Caller h => lift Caller (caller_next h o r)
    | Responder g => lift Responder (responder_next g o r)
    end
  else Impossible.

(** ** The invariant *)

Local Abbreviation st w := (mem w (LSlot i F_state)).
Local Abbreviation msgType w := (mem w (LSlot i F_msgType)).
Local Abbreviation reqSize w := (mem w (LSlot i F_reqSize)).
Local Abbreviation respSize w := (mem w (LSlot i F_respSize)).

(** Bytes of an area. *)
Definition part (w : World) (b : buffer) (r : Z * Z) : list byte :=
  slice (Z.to_nat r.1) (Z.to_nat r.2) (bytes w b).

Definition req_ok (w : World) (q : Z * list byte) : Prop :=
  msgType w = q.1 ∧ part w (BReq i) (window reqCap (i32 (reqSize w))) = q.2.

Definition resp_ok (w : World) (q : Z * list byte) : Prop :=
  msgType w = MsgType_val SYSTEM_ERROR ∨
  ∃ d, reply q = Some d ∧
    let r := window respCap (i32 (respSize w)) in
    r.2 = Z.of_nat (length d) ∧ part w (BResp i) r = d.

Definition knows (w : World) (q : Z * list byte) (k : know) : Prop :=
  (∀ t, k_ty k = Some t → t = q.1) ∧
  (∀ z, k_size k = Some z → z = reqSize w) ∧
  (∀ r, k_req k = Some r → r = q.2) ∧
  (∀ h, k_wrote k = Some h → handler q.1 q.2 = Some h).

Definition wrote_ok (w : World) (k : know) : Prop :=
  ∀ h, k_wrote k = Some h →
    part w (BResp i) (hr_off h, Z.of_nat (length (hr_bytes h))) = hr_bytes h.

Definition responder_inv (w : World) (g : responder) : Prop :=
  match g with
  | RIdle => st w ≠ busy ∧ st w ≠ SLOT_DONE
  | RBusy k => st w ≠ SLOT_DONE ∧ wrote_ok w k
  | RLocked k rs ty => st w = SLOT_DONE ∧ wrote_ok w k ∧
      (∀ v, rs = Some v → respSize w = v) ∧ (∀ v, ty = Some v → msgType w = v)
  end.

Definition live_inv (w : World) (q : Z * list byte) (g : responder) : Prop :=
  (st w = SLOT_REQ_READY ∧ req_ok w q) ∨
  (st w = busy ∧ req_ok w q ∧ ∃ k, g = RBusy k ∧ knows w q k) ∨
  (st w = SLOT_DONE ∧ ∃ k rs ty, g = RLocked k rs ty ∧ knows w q k) ∨
  (st w = SLOT_RESP_READY ∧ g = RIdle ∧ resp_ok w q).

Definition caller_inv (w : World) (h : caller) (g : responder) : Prop :=
  match h with
  | COut => True
  | COwn cp sz ty => st w = own ∧
      (∀ off d, cp = Some (off, d) →
         part w (BReq i) (off, Z.of_nat (length d)) = d) ∧
      (∀ v, sz = Some v → reqSize w = v) ∧ (∀ v, ty = Some v → msgType w = v)
  | CLive q => live_inv w q g
  | CReady q => st w = SLOT_RESP_READY ∧ g = RIdle ∧ resp_ok w q
  | CTaken fast q checked rs =>
      st w = (if fast then SLOT_RESP_READY else own) ∧ g = RIdle ∧ resp_ok w q ∧
      (checked = true → msgType w ≠ MsgType_val SYSTEM_ERROR) ∧
      (∀ v, rs = Some v → respSize w = v)
  end.

Definition areas_ok (w : World) : Prop :=
  Z.of_nat (length (bytes w (BReq i))) = reqCap ∧
  Z.of_nat (length (bytes w (BResp i))) = respCap.

Definition joint (w : World) (h : caller) (g : responder) : Prop :=
  areas_ok w ∧ responder_inv w g ∧ caller_inv w h g.

Definition inv (w : World) (ss : list role) : Prop :=
  ∃ h g, ss = [Caller h; Responder g] ∧ joint w h g.

(** The rest of the world leaves the slot's transaction fields and areas alone. *)
Definition frame (w w' : World) : Prop :=
  st w' = st w ∧ msgType w' = msgType w ∧ reqSize w' = reqSize w ∧ respSize w' = respSize w ∧
  bytes w' (BReq i) = bytes w (BReq i) ∧ bytes w' (BResp i) = bytes w (BResp i).

Lemma joint_frame w w' h g : frame w w' → joint w h g → joint w' h g.
Proof.
  intros (E1&E2&E3&E4&E5&E6). unfold joint, areas_ok, responder_inv, caller_inv, live_inv, wrote_ok,
    req_ok, resp_ok, knows, part. by rewrite E1, E2, E3, E4, E5, E6.
Qed.

Lemma exec_frame {X} (o : op X) x w r w' :
  exec x o w = Done r w' → guarded o = false → frame w w'.
Proof.
  intros Hx. unfold guarded. rewrite !orb_false_iff. intros ((((H1&H2)&H3)&H4)&H5).
  unfold frame. rewrite !(exec_unwritten _ _ _ _ _ _ _ Hx) by done. split_and!; try done;
    destruct o; simpl in Hx; repeat case_match; simplify_eq/=; done.
Qed.

(** Steps that leave the slot's transaction alone and keep the role. *)
Lemma joint_quiet {X} (o : op X) x w r w' h g :
  exec x o w = Done r w' → guarded o = false → joint w h g → joint w' h g.
Proof. intros Hx Ho. apply joint_frame. by eapply exec_frame. Qed.

(** ** The steps of the caller keep the invariant *)

Local Abbreviation allows v P := (match v with
  | Next s => P s | Forbidden => True | Impossible => False end).

Context (Hdir : dir_ok dir).

(** Two values of the state contradict each other. *)
Local Ltac clash :=
  exfalso; destruct (own_states _ Hdir) as (?&?&?&?&?), (busy_states _ Hdir) as (?&?&?&?);
  first [congruence|done|match goal with
    | A : ?x = _, B : ?x = _ |- _ => rewrite A in B; discriminate B end].

Local Ltac differ := let E := fresh in intros E; clash.

(** What a store does to the four fields. *)
Lemma mem_set w l v f :
  mem (set_mem w l v) (LSlot i f) = if on i f l then v else mem w (LSlot i f).
Proof.
  simpl. unfold upd. destruct (on i f l) eqn:E.
  - apply on_spec in E as ->. by rewrite decide_True.
  - rewrite decide_False; [done|]. intros <-. by rewrite (proj2 (on_spec i f _)) in E.
Qed.

Lemma read_type_step w g fast q c rs :
  joint w (CTaken fast q c rs) g →
  allows (read_type fast q c rs (msgType w)) (λ h', joint w h' g).
Proof.
  intros Hj. unfold read_type. destruct (Z.eqb_spec (msgType w) (MsgType_val SYSTEM_ERROR)); [done|].
  destruct Hj as (Ha&Hg&Hs&Hi&Hr&Hc&Hrs).
  rewrite bool_decide_true by (destruct Hr as [|(d&->&_)]; done). by split_and!.
Qed.

Lemma caller_load_step w h g l :
  joint w h g → allows (caller_load h l (mem w l)) (λ h', joint w h' g).
Proof using Hdir.
  intros Hj. assert (Hj' := Hj). destruct Hj as (Ha&Hg&Hh).
  destruct h as [| |q|q|fast q c rs]; cbn [caller_load caller_inv] in *; try done.
  - destruct (on i F_state l) eqn:E; [|done]. apply on_spec in E as ->.
    destruct (Z.eqb_spec (st w) SLOT_RESP_READY) as [E|]; [|done].
    split; [done|]. split; [done|].
    destruct Hh as [[H _]|[[H _]|[[H _]|Hh]]]; [rewrite E in H; clash..|done].
  - destruct (on i F_state l) eqn:E.
    { apply on_spec in E as ->. destruct Hh as (E&Hh). rewrite E. by split_and!. }
    destruct (on i F_msgType l) eqn:E2; [|done]. apply on_spec in E2 as ->.
    apply read_type_step. destruct Hh as (?&?&?). by split_and!.
  - destruct (on i F_msgType l) eqn:E.
    { apply on_spec in E as ->. by apply read_type_step. }
    destruct Hh as (Hs&Hi&Hr&Hc&Hrs).
    destruct (on i F_respSize l) eqn:E2; [|by split_and!].
    apply on_spec in E2 as ->. destruct c; [|done]. simpl.
    rewrite bool_decide_true; [split_and!; naive_solver|].
    destruct Hr as [|(d&->&->&_)]; [by destruct (Hc eq_refl)|done].
Qed.

Lemma made_request_ok w cp sz ty q :
  areas_ok w → caller_inv w (COwn cp sz ty) RIdle → made_request cp sz ty = Some q → req_ok w q.
Proof.
  intros [Ha _] (_&Hcp&Hsz&Hty). unfold made_request, req_ok.
  destruct sz as [v|], ty as [t|]; try done. rewrite (Hsz v), (Hty t) by done.
  destruct (window reqCap (i32 v)) as [off n] eqn:Hw. destruct (in_range off n reqCap); [|done].
  destruct (Z.eqb_spec n 0) as [->|]; [by intros [= <-]|].
  destruct cp as [[off' d]|]; [|done].
  destruct (Z.eqb_spec off' off) as [->|]; simpl; [|done].
  destruct (Z.eqb_spec (Z.of_nat (length d)) n) as [<-|]; [|done].
  intros [= <-]. split; [done|]. by apply Hcp.
Qed.

(** Reads after a store. *)
Local Ltac after_store :=
  unfold req_ok, resp_ok, knows, wrote_ok, part; rewrite ?mem_set; cbn [on tag Nat.eqb andb];
  rewrite ?Nat.eqb_refl; cbn [andb].

(** A responder without the publish lock does not notice a change of the state. *)
Lemma responder_inv_state w g v :
  responder_inv w g → st w ≠ SLOT_DONE → v ≠ busy → v ≠ SLOT_DONE →
  responder_inv (set_mem w (LSlot i F_state) v) g.
Proof.
  intros Hg Hs H1 H2. destruct g as [|k|k rs ty]; cbn [responder_inv] in *; rewrite ?mem_set.
  - rewrite (proj2 (on_spec _ _ _) eq_refl). done.
  - rewrite (proj2 (on_spec _ _ _) eq_refl). by split; [|apply Hg].
  - by destruct Hg.
Qed.

Lemma caller_store_step w h g l v :
  joint w h g → allows (caller_store h l v) (λ h', joint (set_mem w l v) h' g).
Proof using Hdir.
  intros Hj. assert (Hj' := Hj). destruct Hj as (Ha&Hg&Hh). unfold caller_store.
  destruct (on i F_state l) eqn:E1.
  { apply on_spec in E1 as ->. destruct h as [|cp sz ty|q|q|fast q c rs]; try done.
    - destruct (Z.eqb_spec v SLOT_FREE) as [->|].
      { split; [done|]. split; [|done]. destruct Hh. apply responder_inv_state; [done|differ..]. }
      destruct (Z.eqb_spec v SLOT_REQ_READY) as [->|]; [|done].
      destruct (made_request cp sz ty) as [q|] eqn:Hq; [|done].
      eapply made_request_ok in Hq; [|done..].
      split; [done|]. split; [|left; split; [apply upd_eq|by after_store]].
      destruct Hh. apply responder_inv_state; [done|differ..].
    - destruct (Z.eqb_spec v own) as [->|]; [|done]. destruct Hh as (E&->&Hr).
      split; [done|]. split; [apply responder_inv_state; [done|rewrite E; done|differ..]|].
      split; [apply upd_eq|]. after_store. by split_and!.
    - destruct (Z.eqb_spec v SLOT_FREE) as [->|]; [|done]. destruct Hh as (E&->&Hr).
      split; [done|]. split; [|done].
      apply responder_inv_state; [done|destruct fast; [by rewrite E|differ]|differ..]. }
  destruct (on i F_msgType l) eqn:E2.
  { apply on_spec in E2 as ->. destruct h as [|cp sz ty|q|q|fast q c rs]; try done.
    destruct Hh as (Hs&Hcp&Hsz&Hty).
    split; [done|]. split; cbn [caller_inv]; after_store; [|naive_solver].
    destruct g; cbn [responder_inv] in *; after_store; [done|done|].
    destruct Hg as [E _]. clash. }
  destruct (on i F_reqSize l) eqn:E3.
  { apply on_spec in E3 as ->. destruct h as [|cp sz ty|q|q|fast q c rs]; try done.
    destruct Hh as (Hs&Hcp&Hsz&Hty).
    split; [done|]. split; cbn [caller_inv]; after_store; [|naive_solver].
    destruct g; cbn [responder_inv] in *; after_store; [done|done|].
    destruct Hg as [E _]. clash. }
  destruct (on i F_respSize l) eqn:E4; [done|].
  assert (joint (set_mem w l v) h g) as Hq.
  { eapply (joint_quiet (Store l v) ex_ext); [done| |done].
    unfold guarded. cbn [writes]. by rewrite E1, E2, E3, E4. }
  destruct (_ && _); [|done]. destruct h as [| | | |[]]; try done.
  all: destruct Hq as (?&?&_); by split_and!.
Qed.

Lemma is_buf_spec b b' : is_buf b b' = true ↔ b = b'.
Proof. destruct b, b'; simpl; rewrite ?Nat.eqb_eq; split; congruence. Qed.

(** A copy into an area, read back. *)
Lemma part_copied w b off d :
  in_range off (Z.of_nat (length d)) (Z.of_nat (length (bytes w b))) = true →
  part (set_bytes w b (list_inserts (Z.to_nat off) d (bytes w b))) b
    (off, Z.of_nat (length d)) = d.
Proof.
  unfold in_range. rewrite !andb_true_iff, !Z.leb_le. intros Hr. unfold part. simpl.
  rewrite upd_eq, Nat2Z.id. apply slice_inserts_eq. lia.
Qed.

Lemma caller_cas_step w h g e d x r w' :
  joint w h g → exec x (Cas (LSlot i F_state) e d) w = Done r w' →
  allows (caller_next h (Cas (LSlot i F_state) e d) r) (λ h', joint w' h' g).
Proof using Hdir.
  intros Hj Hx. cbn [caller_next]. rewrite (proj2 (on_spec _ _ _) eq_refl). simpl in Hx.
  destruct Hj as (Ha&Hg&Hh). destruct h as [|cp sz ty|q|q|[] q c rs]; try done.
  - destruct (Z.eqb_spec (st w) e) as [He|He]; simplify_eq/=;
      [|destruct (_ && _); [by split|destruct (_ && _); [by split|done]]].
    destruct ((d =? own) && _) eqn:E; [|destruct ((_ =? SLOT_RESP_READY) && _) eqn:E2; [|done]].
    + rewrite andb_true_iff, negb_true_iff, Z.eqb_eq, Z.eqb_neq in E. destruct E as [-> E].
      split; [done|]. split; [apply responder_inv_state; [done|differ..]|].
      split_and!; [apply upd_eq|done..].
    + rewrite andb_true_iff, !Z.eqb_eq in E2. destruct E2 as [E2 ->].
      split; [done|]. split; [apply responder_inv_state; [done|differ..]|done].
  - destruct Hh as [Hs _]. destruct (Z.eqb_spec e own) as [->|]; [|done].
    destruct (Z.eqb_spec d SLOT_FREE) as [->|]; [|done]. rewrite Hs, Z.eqb_refl in Hx.
    simplify_eq/=. split; [done|]. split; [apply responder_inv_state; [done|differ..]|done].
  - destruct Hh as (Hs&->&Hr). destruct (Z.eqb_spec e SLOT_RESP_READY) as [->|]; [|done].
    destruct (Z.eqb_spec d own) as [->|]; [|done]. rewrite Hs, Z.eqb_refl in Hx.
    simplify_eq/=. split; [done|]. split; [apply responder_inv_state; [done|differ..]|].
    split; [apply upd_eq|]. after_store. by split_and!.
  - destruct Hh as (Hs&_). destruct (Z.eqb_spec e own) as [->|]; [|done].
    destruct (Z.eqb_spec d SLOT_FREE) as [->|]; [|done]. rewrite Hs, Z.eqb_refl in Hx.
    simplify_eq/=. split; [done|]. split; [apply responder_inv_state; [done|differ..]|done].
Qed.

Lemma caller_step w h g X (o : op X) x r w' :
  joint w h g → exec x o w = Done r w' → allows (caller_next h o r) (λ h', joint w' h' g).
Proof using Hdir.
  intros Hj Hx. assert (guarded o = false → joint w' h g) as Hq.
  { intros Ho. by eapply joint_quiet. }
  destruct o as [l|l v|l e d| | |b off n|b off d| | | | | |];
    try (cbn [caller_next]; destruct (guarded _); [done|by apply Hq]).
  - simplify_eq/=. by apply caller_load_step.
  - simplify_eq/=. by apply caller_store_step.
  - destruct (on i F_state l) eqn:El.
    { apply on_spec in El as ->. by eapply caller_cas_step. }
    cbn [caller_next]. rewrite El. destruct (guarded _); [done|by apply Hq].
  - cbn [caller_next]. destruct h as [| | | |fast q [] [v|]]; try done.
    destruct (is_buf b (BResp i)) eqn:Hb; [|done]. apply is_buf_spec in Hb as ->. cbn [andb].
    destruct (in_range off n respCap); [|done]. cbn [andb].
    case_bool_decide as Hw; [|done]. simpl in Hx. destruct (in_range _ _ _); simplify_eq.
    destruct Hj as (Ha&Hg&Hs&Hi&Hr&Hc&Hv). rewrite <-(Hv v) in Hw by done.
    rewrite bool_decide_true; [by split_and!|].
    destruct Hr as [|(d&->&_&Hd)]; [by destruct (Hc eq_refl)|].
    unfold part in Hd. rewrite <-Hw in Hd. by rewrite <-Hd.
  - cbn [caller_next]. destruct h as [|cp sz ty| | |]; try done.
    destruct (is_buf b (BReq i)) eqn:Hb; [|done]. apply is_buf_spec in Hb as ->. cbn [andb].
    destruct (in_range off _ reqCap) eqn:Hr; [|done]. simpl in Hx.
    destruct Hj as ((Ha1&Ha2)&Hg&Hs&Hcp&Hsz&Hty).
    rewrite Ha1, Hr in Hx. simplify_eq.
    split; [|split].
    + split; [|done]. simpl. by rewrite upd_eq, length_inserts.
    + by destruct g.
    + split; [done|]. split; [|done]. intros ?? [= <- <-]. apply part_copied. by rewrite Ha1.
Qed.

(** ** The steps of the responder keep the invariant *)

(** While the responder is at a request, the caller published it, owns the slot again or
    has left; what the responder learns may depend on the request. *)
Lemma caller_inv_learn w w' h k k' :
  st w' = st w → msgType w' = msgType w → reqSize w' = reqSize w →
  bytes w' (BReq i) = bytes w (BReq i) →
  (∀ q, req_ok w q → knows w q k → knows w q k') →
  caller_inv w h (RBusy k) → caller_inv w' h (RBusy k').
Proof.
  intros E1 E2 E3 E4 Hk. destruct h as [|cp sz ty|q|q|fast q c rs]; cbn [caller_inv]; try naive_solver.
  - unfold part. by rewrite E1, E2, E3, E4.
  - unfold live_inv, req_ok, part, knows. rewrite E1, E2, E3, E4.
    intros [H|[(Hs&Hr&k0&[= <-]&H)|[(_&?&?&?&?&_)|(_&?&_)]]]; [by left| |done|done].
    right; left. split; [done|]. split; [done|]. exists k'. split; [done|]. by apply Hk.
Qed.

(** While the responder holds the publish lock, the caller waits or has left. *)
Lemma caller_inv_locked w h k rs ty :
  responder_inv w (RLocked k rs ty) → caller_inv w h (RLocked k rs ty) →
  h = COut ∨ ∃ q, h = CLive q ∧ knows w q k.
Proof using Hdir.
  intros [Hs _] Hh. destruct h as [|cp sz ty'|q|q|fast q c rs']; [by left|..].
  - destruct Hh as [E _]. clash.
  - right. exists q. split; [done|].
    destruct Hh as [[E _]|[[E _]|[(_&k0&?&?&[= <- <- <-]&H)|(_&?&_)]]];
      [clash..|done|done].
  - by destruct Hh as (_&?&_).
  - by destruct Hh as (_&?&_).
Qed.

Lemma responder_load_step w h g l :
  joint w h g → allows (responder_next g (Load l) (mem w l)) (λ g', joint w h g').
Proof.
  intros Hj. destruct g as [|k|]; try done. cbn [responder_next]. destruct Hj as (Ha&[Hs Hw]&Hh).
  destruct (on i F_msgType l) eqn:E1; [|destruct (on i F_reqSize l) eqn:E2; [|done]].
  - apply on_spec in E1 as ->. split; [done|]. split; [done|].
    eapply caller_inv_learn, Hh; try done. intros q [Hq _] (?&?&?&?). split_and!; naive_solver.
  - apply on_spec in E2 as ->. split; [done|]. split; [done|].
    eapply caller_inv_learn, Hh; try done. intros q [Hq _] (?&?&?&?). split_and!; naive_solver.
Qed.

Lemma responder_store_step w h g l v :
  joint w h g → allows (responder_next g (Store l v) tt) (λ g', joint (set_mem w l v) h g').
Proof using Hdir.
  intros Hj. cbn [responder_next].
  destruct (on i F_respSize l) eqn:E1; [|destruct (on i F_msgType l) eqn:E2].
  - apply on_spec in E1 as ->. destruct g as [|k|k rs ty]; try done.
    destruct Hj as (Ha&Hg&Hh). pose proof (caller_inv_locked _ _ _ _ _ Hg Hh) as Hc.
    split; [done|]. split; [cbn [responder_inv] in *; after_store; naive_solver|].
    destruct Hc as [->|(q&->&Hk)]; [done|]. right; right; left. after_store.
    destruct Hg. naive_solver.
  - apply on_spec in E2 as ->. destruct g as [|k|k rs ty]; try done.
    destruct Hj as (Ha&Hg&Hh). pose proof (caller_inv_locked _ _ _ _ _ Hg Hh) as Hc.
    split; [done|]. split; [cbn [responder_inv] in *; after_store; naive_solver|].
    destruct Hc as [->|(q&->&Hk)]; [done|]. right; right; left. after_store.
    destruct Hg. naive_solver.
  - destruct (guarded _) eqn:Eg; [done|]. by eapply (joint_quiet (Store l v) ex_ext).
Qed.

(** The caller is where the state contradicts [Hs]. *)
Local Ltac elsewhere Hh := let E := fresh in destruct Hh as [E _]; clash.

(** The transitions of the state that the responder performs: claim, lock, publish. *)
Lemma responder_claim w h g :
  joint w h g → st w = SLOT_REQ_READY →
  joint (set_mem w (LSlot i F_state) busy) h (RBusy (mkKnow None None None None)).
Proof using Hdir.
  intros (Ha&_&Hh) Hs. split; [done|]. split.
  { cbn [responder_inv]. after_store. split; [differ|done]. }
  destruct h as [|cp sz ty|q|q|[] q c rs]; cbn [caller_inv] in *; 
    [done|elsewhere Hh| |elsewhere Hh..].
  destruct Hh as [[_ Hr]|[[E _]|[[E _]|[E _]]]]; [|clash..].
  right; left. split; [apply upd_eq|]. after_store. split; [done|].
  eexists. by split_and!.
Qed.

Lemma responder_lock w h k :
  joint w h (RBusy k) → st w = busy →
  joint (set_mem w (LSlot i F_state) SLOT_DONE) h (RLocked k None None).
Proof using Hdir.
  intros (Ha&[_ Hw]&Hh) Hs. split; [done|]. split.
  { cbn [responder_inv]. after_store. by split_and!. }
  destruct h as [|cp sz ty|q|q|[] q c rs]; cbn [caller_inv] in *; 
    [done|elsewhere Hh| |elsewhere Hh..].
  destruct Hh as [[E _]|[(_&_&?&[= <-]&Hk)|[[E _]|[E _]]]]; 
    [clash| |clash..].
  right; right; left. split; [apply upd_eq|]. after_store. by eauto.
Qed.

Lemma responder_lock_fails w h k :
  joint w h (RBusy k) → st w ≠ busy → joint w h RIdle.
Proof.
  intros (Ha&[Hd _]&Hh) Hs. split; [done|]. split; [done|].
  destruct h as [|cp sz ty|q|q|fast q c rs]; cbn [caller_inv] in *; try done; try naive_solver.
  destruct Hh as [H|[[E _]|[(_&?&?&?&?&_)|(_&?&_)]]]; [by left|done..].
Qed.

Context (Hreq : 0 <= reqCap < 2 ^ 31) (Hresp : 0 <= respCap < 2 ^ 31).
Context (Hok : handler_ok respCap handler).

(** What the publish makes visible is the reply. *)
Lemma answers_ok w q k rs ty :
  responder_inv w (RLocked k rs ty) → knows w q k → answers k rs ty = true → resp_ok w q.
Proof using Hok Hresp.
  intros (_&Hw&Hrs&Hty) (Kt&_&_&Kh). unfold answers, resp_ok, answer.
  destruct rs as [v|]; [|done]. specialize (Hrs v eq_refl).
  rewrite orb_true_iff, bool_decide_eq_true. intros [->|H]; [left; by apply Hty|right].
  destruct (k_ty k) as [t|] eqn:Et; [|done]. rewrite <-(Kt t eq_refl).
  destruct (special t).
  - apply Z.eqb_eq in H. rewrite Hrs, H. by exists [].
  - destruct (k_wrote k) as [h|] eqn:Eh; [|done]. apply Z.eqb_eq in H as ->.
    specialize (Kh h eq_refl). rewrite (Kt t eq_refl), Kh, Hrs.
    destruct (Hok _ _ _ Kh) as [Hwin Hr]. exists (hr_bytes h). split; [done|].
    pose proof (handler_size _ _ _ _ _ Hresp Hok Kh). rewrite i32_id by lia.
    rewrite Hwin. split; [done|]. by apply Hw.
Qed.

Lemma responder_publish w h k rs ty :
  joint w h (RLocked k rs ty) → answers k rs ty = true →
  joint (set_mem w (LSlot i F_state) SLOT_RESP_READY) h RIdle.
Proof using Hdir Hok Hresp.
  intros (Ha&Hg&Hh) Hans. split; [done|]. split; [cbn [responder_inv]; after_store; split; [differ|done]|].
  destruct (caller_inv_locked _ _ _ _ _ Hg Hh) as [->|(q&->&Hk)]; [done|].
  right; right; right. split; [apply upd_eq|]. split; [done|].
  pose proof (answers_ok _ _ _ _ _ Hg Hk Hans). by after_store.
Qed.

Lemma responder_cas_step w h g e d x r w' :
  joint w h g → exec x (Cas (LSlot i F_state) e d) w = Done r w' →
  allows (responder_next g (Cas (LSlot i F_state) e d) r) (λ g', joint w' h g').
Proof using Hdir Hok Hresp.
  intros Hj Hx. cbn [responder_next]. rewrite (proj2 (on_spec _ _ _) eq_refl). simpl in Hx.
  assert ((e =? SLOT_REQ_READY) && (d =? busy) = true →
    joint w' h (if (r.1 : bool) then RBusy (mkKnow None None None None) else g)) as Hclaim.
  { rewrite andb_true_iff, !Z.eqb_eq. intros [-> ->].
    destruct (Z.eqb_spec (st w) SLOT_REQ_READY); simplify_eq/=; [by eapply responder_claim|done]. }
  destruct g as [|k|k rs ty].
  - destruct (_ && _); [by apply Hclaim|done].
  - destruct (_ && _); [by apply Hclaim|].
    destruct (_ && _) eqn:E; [|done]. rewrite andb_true_iff, !Z.eqb_eq in E.
    destruct E as [-> ->]. destruct (Z.eqb_spec (st w) busy); simplify_eq/=;
      [by apply responder_lock|by eapply responder_lock_fails].
  - destruct (_ && answers k rs ty) eqn:E; [|done]. rewrite !andb_true_iff, !Z.eqb_eq in E.
    destruct E as [[-> ->] Hans]. assert (st w = SLOT_DONE) as Hs by apply Hj.
    rewrite Hs, Z.eqb_refl in Hx. simplify_eq/=. by eapply responder_publish.
Qed.

Lemma responder_step w h g X (o : op X) x r w' :
  joint w h g → exec x o w = Done r w' → allows (responder_next g o r) (λ g', joint w' h g').
Proof using Hdir Hok Hresp.
  intros Hj Hx. assert (guarded o = false → joint w' h g) as Hq.
  { intros Ho. by eapply joint_quiet. }
  destruct o as [l|l v|l e d| | |b off n|b off d| | | | | |];
    try (cbn [responder_next]; destruct (guarded _); [done|by apply Hq]).
  - simplify_eq/=. by apply responder_load_step.
  - destruct r. simpl in Hx. simplify_eq. by apply responder_store_step.
  - destruct (on i F_state l) eqn:El.
    { apply on_spec in El as ->. by eapply responder_cas_step. }
    cbn [responder_next]. rewrite El. destruct (guarded _); [done|by apply Hq].
  - cbn [responder_next]. destruct g as [|[ty [z|] req wr]|]; try done.
    destruct (is_buf b (BReq i)) eqn:Hb; [|done]. apply is_buf_spec in Hb as ->. cbn [andb].
    destruct (in_range off n reqCap); [|done]. cbn [andb]. case_bool_decide as Hw; [|done].
    simpl in Hx. destruct (in_range _ _ _); simplify_eq. destruct Hj as (Ha&Hg&Hh).
    split; [done|]. split; [done|]. eapply caller_inv_learn, Hh; try done.
    intros q [_ Hq'] (K1&K2&K3&K4). split_and!; try done. simpl in *.
    intros ? [= <-]. rewrite <-(K2 z eq_refl), <-Hw in Hq'. done.
  - cbn [responder_next]. destruct g as [|[[t|] z [req|] wr]|]; try done.
    destruct (handler t req) as [hr|] eqn:Hh'; [|done].
    destruct (is_buf b (BResp i)) eqn:Hb; [|done]. apply is_buf_spec in Hb as ->. cbn [andb].
    destruct (Z.eqb_spec off (hr_off hr)) as [->|]; [|done]. cbn [andb].
    case_bool_decide as Hd; [subst d|done]. cbn [andb].
    destruct (in_range _ _ respCap) eqn:Hr; [|done]. simpl in Hx.
    destruct Hj as ((Ha1&Ha2)&[Hs _]&Hh). rewrite Ha2, Hr in Hx. simplify_eq.
    split; [split; [done|]; simpl; by rewrite upd_eq, length_inserts|].
    split; [split; [done|]; intros ? [= <-]; apply part_copied; by rewrite Ha2|].
    eapply caller_inv_learn, Hh; try done. intros q _ (K1&K2&K3&K4). split_and!; try done.
    intros ? [= <-]. by rewrite <-(K1 t eq_refl), <-(K3 req eq_refl).
Qed.

Lemma inv_env w w' ss : inv w ss → frame w w' → inv w' ss.
Proof. intros (h&g&->&Hj) Hf. exists h, g. split; [done|]. by eapply joint_frame. Qed.

Lemma inv_step w ss j s X (o : op X) x r w' :
  inv w ss → ss !! j = Some s → exec x o w = Done r w' →
  match mon s X o r with
  | Next s' => inv w' (<[j := s']> ss)
  | Forbidden => True
  | Impossible => False
  end.
Proof using Hdir Hok Hresp.
  intros (h&g&->&Hj) Hs Hx. destruct j as [|[|j]]; simplify_eq/=; unfold mon;
    rewrite (exec_answer _ _ _ _ _ _ Hx).
  - pose proof (caller_step _ _ _ _ _ _ _ _ Hj Hx) as H. destruct (caller_next h o r); [|done|done].
    eexists _, _. by split.
  - pose proof (responder_step _ _ _ _ _ _ _ _ Hj Hx) as H.
    destruct (responder_next g o r); [|done|done]. eexists _, _. by split.
Qed.

(** The protocol excludes undefined behaviour. *)
Lemma inv_defined w ss j s X (o : op X) x :
  ss !! j = Some s → inv w ss → exec x o w = Undef → ∃ r, mon s X o r = Forbidden.
Proof.
  clear Hok Hreq Hresp. intros Hs (h&g&->&((Ha1&Ha2)&_)) Hx. exists (some_answer o).
  assert (∀ b off n, exec x (CopyOut b off n) w = Undef →
    is_buf b (BReq i) && in_range off n reqCap = false ∧
    is_buf b (BResp i) && in_range off n respCap = false) as Hcopy.
  { intros b off n. simpl. destruct (in_range off n _) eqn:E; [done|]. intros _.
    split; apply andb_false_iff; destruct (is_buf b _) eqn:Hb; auto; right;
      apply is_buf_spec in Hb as ->; congruence. }
  unfold mon. rewrite some_answer_ok. destruct s as [h'|g'], o as [l|l v|l e d| | |b off n|b off d| | | | | |];
    try (by simpl in Hx; repeat case_match); cbn [caller_next responder_next lift]; try done.
  - destruct (Hcopy b off n Hx) as [_ ->]. by repeat case_match.
  - destruct (Hcopy b off (Z.of_nat (length d))) as [-> _]; [|by repeat case_match].
    simpl in *. by destruct (in_range _ _ _).
  - destruct (Hcopy b off n Hx) as [-> _]. by repeat case_match.
  - destruct (Hcopy b off (Z.of_nat (length d))) as [_ E].
    { simpl in *. by destruct (in_range _ _ _). }
    apply andb_false_iff in E. repeat case_match; try done.
    rewrite !andb_true_iff in *. destruct E; naive_solver congruence.
Qed.
(** ** Following the protocol *)

Local Abbreviation follows p s Q := (obeys false mon p s Q).

Definition plain : ∀ X, op X → bool := λ X o, negb (guarded o).

(** The responder is not holding the publish lock. *)
Definition unlocked (s : role) : Prop := s = Responder RIdle ∨ ∃ k, s = Responder (RBusy k).

Lemma mon_answer s X (o : op X) r : answer_ok o r = false → mon s X o r = Impossible.
Proof. unfold mon. by intros ->. Qed.

Lemma plain_unlocked {X} (p : prog X) s (Q : X → role → Prop) :
  within plain p (λ _, True) → unlocked s → (∀ r s, unlocked s → Q r s) → follows p s Q.
Proof.
  intros Hp Hs HQ. eapply obeys_mono, (within_inv plain mon unlocked), Hs; [|..|exact Hp].
  - intros r s' [H _]. auto.
  - intros m Y o r Hm Ha Ho%negb_true_iff. unfold mon. rewrite Ha.
    destruct Hm as [->|[k ->]]; destruct o; cbn [responder_next lift]; try done;
      unfold guarded in *; cbn [writes] in *; rewrite !orb_false_iff in Ho;
      destruct Ho as [[[[E1 E2] E3] E4] E5]; try done; rewrite ?E1, ?E2, ?E3, ?E4;
      cbn [orb lift]; unfold unlocked; repeat case_match; simplify_eq/=; eauto.
  - intros. by apply mon_answer.
Qed.

(** Outside a transaction and while it owns the slot, the caller may read anything. *)
Definition steady (h : caller) : Prop :=
  match h with COut | COwn _ _ _ => True | _ => False end.

Lemma plain_steady {X} (p : prog X) h (Q : X → role → Prop) :
  steady h → within plain p (λ _, True) → (∀ r, Q r (Caller h)) → follows p (Caller h) Q.
Proof.
  intros Hh Hp HQ. eapply obeys_mono, (within_inv plain mon (λ s, s = Caller h)); [|..|exact Hp|done].
  - intros r s [-> _]. auto.
  - intros m Y o r -> Ha Ho%negb_true_iff. unfold mon. rewrite Ha.
    unfold guarded in Ho. destruct h; try done; destruct o; cbn [caller_next lift]; try done;
      cbn [writes] in *; unfold guarded, caller_store; cbn [writes];
      rewrite !orb_false_iff in Ho; destruct Ho as [[[[E1 E2] E3] E4] E5]; try done;
      rewrite ?E1, ?E2, ?E3, ?E4; cbn [orb lift]; repeat case_match; by simplify_eq/=.
  - intros. by apply mon_answer.
Qed.

Definition waits (q : Z * list byte) (s : role) : Prop :=
  s = Caller (CLive q) ∨ s = Caller (CReady q).

Definition reads_type {X} (o : op X) : bool :=
  match o with Load l => on i F_msgType l | _ => false end.

(** Waiting reads the state at any time but keeps the flag up. *)
Definition watch : ∀ X, op X → bool := λ X o, negb (guarded o || writes i flag o || reads_type o).

Lemma watch_waits {X} (p : prog X) q s (Q : X → role → Prop) :
  within watch p (λ _, True) → waits q s → (∀ r s, waits q s → Q r s) → follows p s Q.
Proof.
  intros Hp Hs HQ. eapply obeys_mono, (within_inv watch mon (waits q)), Hs; [|..|exact Hp].
  - intros r s' [? _]. auto.
  - intros m Y o r Hm Ha Ho%negb_true_iff. unfold mon. rewrite Ha.
    unfold guarded in Ho. destruct Hm as [->| ->]; destruct o; cbn [caller_next lift]; try done;
      cbn [writes] in *; unfold guarded, caller_store, caller_load; cbn [writes];
      rewrite !orb_false_iff in Ho; destruct Ho as [[[[[[E1 E2] E3] E4] E5] E6] E7]; try done;
      cbn [reads_type] in E7; rewrite ?E1, ?E2, ?E3, ?E4, ?E6, ?E7;
      cbn [orb andb lift]; unfold waits; repeat case_match;
      simplify_eq/=; auto.
  - intros. by apply mon_answer.
Qed.

Lemma watch_SignalEvent ev : within watch (SignalEvent ev) (λ _, True).
Proof. unfold SignalEvent. within_walk ltac:(reflexivity). Qed.
Lemma watch_WaitEvent ev t : within watch (WaitEvent ev t) (λ _, True).
Proof. unfold WaitEvent. within_walk ltac:(reflexivity). Qed.

(** The bytes of a request. *)
Definition request (data : option (list byte)) (size : Z) : list byte :=
  take (Z.to_nat (Z.abs size)) (default [] data).

(** What [put_request] leaves in the request area. *)
Definition filled (data : option (list byte)) (size : Z) (cp : option (Z * list byte)) : Prop :=
  size = 0 ∨ cp = Some ((window reqCap size).1, request data size) ∧ Z.abs size <= reqCap ∧
    Z.of_nat (length (request data size)) = Z.abs size.

Lemma made_request_filled data size cp t :
  is_i32 size → filled data size cp →
  made_request cp (Some size) (Some t) = Some (t, request data size).
Proof using Hreq.
  intros Hsz Hf. unfold made_request. rewrite i32_id by done. unfold window, in_range, request.
  destruct Hf as [->|(->&Hle&Hl)].
  { rewrite Z.leb_refl. by rewrite (proj2 (Z.leb_le (0 + 0) reqCap)) by lia. }
  unfold request, window in *. destruct (Z.leb_spec 0 size).
  all: rewrite !(proj2 (Z.leb_le _ _)) by lia; cbn [andb fst].
  all: match goal with |- context [?n =? 0] => destruct (Z.eqb_spec n 0) as [E|] end.
  all: try (replace size with 0 by lia; done).
  all: rewrite Z.eqb_refl, Hl; cbn [andb]; by rewrite (proj2 (Z.eqb_eq _ _)) by lia.
Qed.

(** A reply fits the response area. *)
Lemma reply_fits q d : reply q = Some d → Z.of_nat (length d) <= respCap.
Proof using Hok Hresp.
  unfold answer. destruct (special q.1); [intros [= <-]; simpl; lia|].
  destruct (handler q.1 q.2) as [h|] eqn:Hh; [|done]. intros [= <-].
  destruct (Hok _ _ _ Hh) as [_ Hr]. unfold in_range in Hr.
  rewrite !andb_true_iff, !Z.leb_le in Hr. lia.
Qed.

(** The size of the response is that of the reply, and the bytes at its window are
    the reply. *)
Lemma resp_size_follows fast q :
  follows (load_i32 i F_respSize) (Caller (CTaken fast q true None))
    (λ sz m, is_i32 sz ∧ Z.abs sz <= respCap ∧ ∃ d r, i32 r = sz ∧ reply q = Some d ∧
       Z.of_nat (length d) = Z.abs sz ∧ m = Caller (CTaken fast q true (Some r))).
Proof using Hok Hresp.
  unfold load_i32, load. apply obeys_bind, obeys_call. intros r.
  cbn [mon answer_ok caller_next caller_load on tag Nat.eqb andb negb].
  rewrite Nat.eqb_refl. cbn [andb]. case_bool_decide as Hr; cbn [lift obeys]; [|done].
  destruct (reply q) as [d|] eqn:Hd; [|done]. injection Hr as Hr.
  pose proof (reply_fits _ _ Hd). pose proof (i32_range r) as Hi.
  assert (Z.of_nat (length d) = Z.abs (i32 r)) as Hl.
  { rewrite Hr. unfold window. destruct (Z.leb_spec 0 (i32 r)); simpl; lia. }
  split; [done|]. split; [lia|]. eauto 6.
Qed.

Lemma resp_copy_follows fast q d r off n :
  reply q = Some d → (off, n) = window respCap (i32 r) → Z.abs (i32 r) <= respCap →
  follows (call (CopyOut (BResp i) off n)) (Caller (CTaken fast q true (Some r)))
    (λ d' m, d' = d ∧ m = Caller (CTaken fast q true (Some r))).
Proof using Hresp.
  intros Hd Hw Hle. apply obeys_call. intros d'. unfold mon. destruct (answer_ok _ _); [|done].
  cbn [caller_next is_buf]. rewrite Nat.eqb_refl, Hd, (bool_decide_true (_ = window _ _)) by done.
  replace (in_range off _ respCap) with true; cycle 1.
  { symmetry. unfold in_range, window in *. rewrite !andb_true_iff, !Z.leb_le.
    destruct (Z.leb_spec 0 (i32 r)); simplify_eq; lia. }
  cbn [andb]. case_bool_decide; cbn [lift]; [|done]. by simplify_eq.
Qed.
End exchange.
End Exchange.
