(* ===== verification/GuestSender.v ===== *)
(** * GuestSender: guest calls (go/direct.go, go/guest_slot.go)

    The guest's side of a guest call: claiming a guest slot, the copying call
    [sendGuestCallInternal], the zero-copy handle [GuestSlot] and the reclaiming of
    abandoned slots.

    - [nextMsgSeq] and [ActiveWait] of [slotContext], [nextGuestSlot] and
      [autoReclaimTimeoutNs] of [DirectGuest] are locations of [Machine].
    - a [time.Duration] is a number of nanoseconds; sleeping is [Pause].
    - the [buffer] argument of [SendGuestCallBuffer] only decides where the
      response bytes are put, so it has no counterpart: the result is the bytes.
    - hooks for tests are nil.
    - [Fault] is an index outside [g.slots] or a remainder by zero, where the
      goroutine panics.

    The lemmas at the end are what [GuestSafety] composes: no header the host may
    write makes an operation leave the buffers of the guest. *)

From S2P Require Export GuestWorker.

Local Open Scope Z_scope.

Definition to_i64 (z : Z) : Z := if z <? 2 ^ 63 then z else z - 2 ^ 64.

Inductive GuestError : Set :=
  | GE_TooLargeInt32 | GE_NoGuestSlots | GE_Closing | GE_AllBusy | GE_TooLarge | GE_Timeout
  | GE_Reclaimed | GE_SeqMismatch | GE_SystemError | GE_RespTooLarge | GE_BadRespSize
  | GE_Released | GE_Forfeited.

(** ** Claiming *)

Definition tryClaimGuestSlot (i : nat) : prog bool :=
  let* genObserved := load i F_gen in
  let* state := load i F_state in
  if state =? SLOT_FREE then
    claimSlotGen i ;;;
    let* (ok, _) := cas i F_state SLOT_FREE SLOT_GUEST_BUSY in
    if ok then guest_stamp_lease i ;;; Ret true else Ret false
  else if state =? SLOT_RESP_READY then
    let* waiting := load i F_guestWait in
    if negb (waiting =? 0) then Ret false
    else
      let* (ok, _) := cas i F_gen genObserved (u64 (genObserved + 1)) in
      if ok then
        let* (ok, _) := cas i F_state SLOT_RESP_READY SLOT_GUEST_BUSY in
        if ok then guest_stamp_lease i ;;; Ret true else Ret false
      else Ret false
  else Ret false.

Section guest.
Context (g : DirectGuest) (fuel : nat).

(** [&g.slots[idx]] *)
Definition guest_slot {X} (idx : Z) (f : nat → slotContext → prog X) : prog X :=
  match dg_slots g !! Z.to_nat idx with
  | Some c => f (Z.to_nat idx) c
  | None => Fault
  end.

Definition guest_TryReclaimAbandonedSlot (slotIdx maxLeaseAge : Z) : prog bool :=
  if (slotIdx <? 0) || (Z.of_nat (length (dg_slots g)) <=? slotIdx) then Ret false
  else guest_slot slotIdx (λ i _,
    let* gen := load i F_gen in
    let* state := load i F_state in
    if state =? SLOT_FREE then Ret false
    else
      let* lease := load i F_lease in
      if lease =? 0 then Ret false
      else
        let* now := guest_MonotonicNanos in
        if (now <=? lease) || (u64 (now - lease) <=? u64 maxLeaseAge) then Ret false
        else
          let* lease' := load i F_lease in
          if negb (lease' =? lease) then Ret false
          else
            let* (ok, _) := cas i F_gen gen (u64 (gen + 1)) in
            if negb ok then Ret false
            else let* (ok, _) := cas i F_state state SLOT_FREE in Ret ok).

(** [startBase + int((uint32(j)+offset) % uint32(numGuest))] *)
Definition rotated (j offset : Z) : Z :=
  dg_numSlots g + u32 (j + offset) mod dg_numGuestSlots g.

Definition next_offset : prog Z :=
  let* n := call (FetchAdd L_nextGuestSlot 1) in Ret (u32 (n + 1)).

(** The first of [n] slots that can be claimed. *)
Definition claim_first (n : Z) (index : Z → Z) : prog (option Z) :=
  let* r := for_ (Z.to_nat n) 0 (λ j _,
    let idx := index j in
    guest_slot idx (λ i _,
      let* ok := tryClaimGuestSlot i in
      if ok then Ret (inr idx) else Ret (inl tt))) tt in
  Ret (match r with inr idx => Some idx | inl _ => None end).

(** The pass over all guest slots with a stale lease. *)
Definition reclaim_pass : prog (option Z) :=
  let* ns := call (Load L_guestReclaim) in
  let thresh := to_i64 ns in
  if 0 <? thresh then
    let* r := for_ (Z.to_nat (dg_numGuestSlots g)) 0 (λ j reclaimed,
      let* ok := guest_TryReclaimAbandonedSlot (dg_numSlots g + j) thresh in
      Ret (inl (reclaimed || ok) : bool + unit)) false in
    match r with
    | inl true => claim_first (dg_numGuestSlots g) (λ j, dg_numSlots g + j)
    | _ => Ret None
    end
  else Ret None.

(** The acquisition loop of [sendGuestCallInternal]; its state is the rotation, the
    deadline once it is set, and the back-off. *)
Definition acquire_guest_slot (timeout : Z) : prog (GuestError + Z) :=
  let* offset := next_offset in
  loop fuel (λ '(offset, deadline, backoff),
    let* slot := claim_first (dg_numGuestSlots g) (λ j, rotated j offset) in
    let* slot := (match slot with Some idx => Ret (Some idx) | None => reclaim_pass end) in
    match slot with
    | Some idx => Ret (inr (inr idx))
    | None =>
        let* closing := call (Load L_guestClosing) in
        if closing =? 1 then Ret (inr (inl GE_Closing))
        else
          let* deadline := (match deadline with
                            | Some d => Ret d
                            | None => let* now := call SteadyNow in Ret (now + timeout)
                            end) in
          let* now := call SteadyNow in
          let remaining := deadline - now in
          if remaining <=? 0 then Ret (inr (inl GE_AllBusy))
          else
            let backoff := if remaining <? backoff then remaining else backoff in
            call Pause ;;;
            let backoff := if backoff <? 2000000 then 2 * backoff else backoff in
            let* offset := next_offset in
            Ret (inl (offset, Some deadline, backoff))
    end) (offset, None, 100000).

(** ** The copying call *)

(** Bytes, size and type of the request; the sequence number used. *)
Definition guest_write_header (i : nat) (size msgType : Z) : prog Z :=
  store i F_reqSize size ;;;
  store i F_msgType msgType ;;;
  let* currentSeq := load i F_guestSeq in
  store i F_msgSeq currentSeq ;;;
  store i F_guestSeq (u32 (currentSeq + u32 (Z.of_nat (length (dg_slots g))))) ;;;
  Ret currentSeq.

(** Publish, then wait for the response. *)
Definition guest_exchange (i : nat) (c : slotContext) (timeout : Z) : prog bool :=
  store i F_guestWait 1 ;;;
  guest_publish_request i (gs_reqEvent c) ;;;
  WaitState fuel i SLOT_RESP_READY (guest_call_sleep fuel i (gs_respEvent c) timeout).

(** [g.fastPathAllowed && autoReclaimTimeoutNs == 0] *)
Definition reclaim_off : prog bool :=
  if dg_fastPathAllowed g then
    let* ns := call (Load L_guestReclaim) in Ret (ns =? 0)
  else Ret false.

(** [RESP_READY] to [GUEST_BUSY] before the flag is lowered. *)
Definition consume_claim (i : nat) : prog bool :=
  claimSlotGen i ;;;
  let* (ok, _) := cas i F_state SLOT_RESP_READY SLOT_GUEST_BUSY in
  if ok then guest_stamp_lease i ;;; Ret true else Ret false.

(** [releaseOwned] *)
Definition release_owned (i : nat) (fastConsume : bool) : prog unit :=
  (if fastConsume then store i F_guestWait 0 else Ret tt) ;;;
  let* _ := cas i F_state (if fastConsume then SLOT_RESP_READY else SLOT_GUEST_BUSY) SLOT_FREE in
  Ret tt.

(** The response bytes, or the reason to refuse them. *)
Definition read_response (i : nat) (c : slotContext) : prog (GuestError + list byte) :=
  let cap := (gs_respBuffer c).2 in
  let* respSize := load_i32 i F_respSize in
  if 0 <=? respSize then
    if cap <? respSize then Ret (inl GE_RespTooLarge)
    else let* d := call (CopyOut (BResp i) 0 respSize) in Ret (inr d)
  else
    let rLen := i32 (- respSize) in
    if rLen <? 0 then Ret (inl GE_BadRespSize)
    else if cap <? rLen then Ret (inl GE_RespTooLarge)
    else
      let offset := i32 (i32 cap - rLen) in
      let* d := call (CopyOut (BResp i) offset (Z.min rLen (cap - offset))) in Ret (inr d).

(** From a response that arrived to the end of the call. *)
Definition finish_call (i : nat) (c : slotContext) (currentSeq : Z) (fastConsume : bool)
    : prog (GuestError + list byte) :=
  let* seq := load i F_msgSeq in
  if negb (seq =? currentSeq) then
    release_owned i fastConsume ;;; let* _ := load i F_msgSeq in Ret (inl GE_SeqMismatch)
  else
    let* ty := load i F_msgType in
    if ty =? MsgType_val SYSTEM_ERROR then
      release_owned i fastConsume ;;; Ret (inl GE_SystemError)
    else
      let* r := read_response i c in
      release_owned i fastConsume ;;; Ret r.

(** What follows the acquisition of slot [i]. *)
Definition call_on (i : nat) (c : slotContext) (data : list byte) (msgType timeout : Z)
    : prog (GuestError + list byte) :=
  let len := Z.of_nat (length data) in
  let cap := (gs_reqBuffer c).2 in
  if cap <? len then
    let* _ := cas i F_state SLOT_GUEST_BUSY SLOT_FREE in Ret (inl GE_TooLarge)
  else
    let flat := msgType =? MsgType_val FLATBUFFER in
    call (CopyIn (BReq i) (if flat then cap - len else 0) data) ;;;
    let* currentSeq := guest_write_header i (if flat then i32 (- i32 len) else i32 len) msgType in
    let* ready := guest_exchange i c timeout in
    let* fastConsume := (if ready then reclaim_off else Ret false) in
    let* claimed := (if ready then if fastConsume then Ret true else consume_claim i
                     else Ret false) in
    (if fastConsume then Ret tt else store i F_guestWait 0) ;;;
    if negb ready then Ret (inl GE_Timeout)
    else if negb claimed then Ret (inl GE_Reclaimed)
    else finish_call i c currentSeq fastConsume.

Definition sendGuestCallInternal (data : list byte) (msgType timeout : Z)
    : prog (GuestError + list byte) :=
  if 2 ^ 31 - 1 <? Z.of_nat (length data) then Ret (inl GE_TooLargeInt32)
  else if dg_numGuestSlots g =? 0 then Ret (inl GE_NoGuestSlots)
  else
    let* r := acquire_guest_slot timeout in
    match r with
    | inl e => Ret (inl e)
    | inr idx => guest_slot idx (λ i c, call_on i c data msgType timeout)
    end.

(** ** GuestSlot (go/guest_slot.go) *)

(** A handle: the slot, [None] once it is released, and [lost]. *)
Record GuestSlot : Type := mkGuestSlot { gh_slot : option nat; gh_lost : bool }.

Definition gh_dead (h : GuestSlot) : bool :=
  match gh_slot h with None => true | Some _ => gh_lost h end.

Definition RequestBuffer (h : GuestSlot) : option nat :=
  if gh_dead h then None else gh_slot h.

Definition ResponseBuffer (h : GuestSlot) : option nat :=
  if gh_dead h then None else gh_slot h.

(** The size check of [SendWithTimeout]. *)
Definition size_refused (size cap : Z) : bool :=
  let absSize := if size <? 0 then i32 (- size) else size in cap <? absSize.

Definition gh_SendWithTimeout (h : GuestSlot) (size msgType timeout : Z)
    : prog ((GuestError + Z * Z) * GuestSlot) :=
  match gh_slot h with
  | None => Ret (inl GE_Released, h)
  | Some i =>
      if gh_lost h then Ret (inl GE_Forfeited, h)
      else guest_slot (Z.of_nat i) (λ i c,
        if size_refused size (gs_reqBuffer c).2 then Ret (inl GE_TooLarge, h)
        else
          let* currentSeq := guest_write_header i size msgType in
          let* ready := guest_exchange i c timeout in
          let* claimed := (if ready then
            let* fast := reclaim_off in
            (if fast then Ret tt else claimSlotGen i) ;;;
            let* (ok, _) := cas i F_state SLOT_RESP_READY SLOT_GUEST_BUSY in
            (if ok && negb fast then guest_stamp_lease i else Ret tt) ;;;
            Ret ok
          else Ret false) in
          store i F_guestWait 0 ;;;
          if negb ready then Ret (inl GE_Timeout, mkGuestSlot (Some i) true)
          else if negb claimed then Ret (inl GE_Reclaimed, mkGuestSlot (Some i) true)
          else
            let* seq := load i F_msgSeq in
            if negb (seq =? currentSeq) then
              let* _ := load i F_msgSeq in Ret (inl GE_SeqMismatch, h)
            else
              let* respSize := load_i32 i F_respSize in
              let* ty := load i F_msgType in
              Ret (inr (respSize, ty), h))
  end.

Definition gh_Release (h : GuestSlot) : prog GuestSlot :=
  match gh_slot h with
  | Some i =>
      (if gh_lost h then Ret tt
       else let* _ := cas i F_state SLOT_GUEST_BUSY SLOT_FREE in Ret tt) ;;;
      Ret (mkGuestSlot None (gh_lost h))
  | None => Ret h
  end.

Definition AcquireGuestSlot : prog (GuestError + GuestSlot) :=
  if dg_numGuestSlots g =? 0 then Ret (inl GE_NoGuestSlots)
  else
    let* offset := next_offset in
    let* r := claim_first (dg_numGuestSlots g) (λ j, rotated j offset) in
    Ret (match r with
         | Some idx => inr (mkGuestSlot (Some (Z.to_nat idx)) false)
         | None => inl GE_AllBusy
         end).
End guest.

(** ** Sizes that no buffer has *)

(** The size check takes the magnitude in 32 bits, where that of [INT_MIN] is
    negative: a handle publishes it, and only the host refuses it. *)
Lemma int_min_accepted cap : 0 <= cap → size_refused (- 2 ^ 31) cap = false.
Proof.
  intros H. unfold size_refused. apply Z.ltb_ge. change (- 2 ^ 31 <= cap). lia.
Qed.

(** Every other size that exceeds the buffer is refused. *)
Lemma size_refused_spec size cap :
  0 <= cap → is_i32 size → size ≠ - 2 ^ 31 → size_refused size cap = (cap <? Z.abs size).
Proof.
  intros Hc Hs Hne. unfold size_refused. cbv zeta.
  destruct (Z.ltb_spec size 0); [rewrite i32_id by lia|]; f_equal; lia.
Qed.

(** ** Safety against a hostile host *)

(** The slots of the guest as areas of known size. *)
Definition ctx_info (c : slotContext) : SlotInfo :=
  mkSlot (gs_reqBuffer c).2 (gs_respBuffer c).2 (gs_reqEvent c) (gs_respEvent c).

Definition guest_alloc (g : DirectGuest) : Allocator :=
  mkAllocator (map ctx_info (dg_slots g)) (dg_numSlots g) (dg_numGuestSlots g) 0 0.

(** What [NewDirectGuest] guarantees. *)
Record guest_ok (g : DirectGuest) : Prop := mkGuestOk {
  go_len : Z.of_nat (length (dg_slots g)) = dg_numSlots g + dg_numGuestSlots g;
  go_num : 0 <= dg_numSlots g ∧ 0 <= dg_numGuestSlots g;
  go_sizes : Forall (λ c, 0 <= (gs_reqBuffer c).2 < 2 ^ 31 ∧ 0 <= (gs_respBuffer c).2 < 2 ^ 31)
               (dg_slots g) }.

Lemma NewDirectGuest_counts os hdr fast g :
  NewDirectGuest os hdr fast = inr g →
  dg_numSlots g = hdr E_numSlots ∧ dg_numGuestSlots g = hdr E_numGuestSlots ∧
  dg_reqOffset g = hdr E_reqOffset ∧ dg_respOffset g = hdr E_respOffset.
Proof.
  unfold NewDirectGuest. destruct (negb _); [done|]. destruct (check_header hdr); [done|].
  cbv zeta. destruct (negb _); [done|]. destruct (attach_slots _ _ _ _ _ _); [done|].
  by intros [= <-].
Qed.

Lemma attached_ok os hdr fast g :
  header_u32 hdr → NewDirectGuest os hdr fast = inr g → guest_ok g.
Proof.
  intros Hu Hg. destruct (NewDirectGuest_counts _ _ _ _ Hg) as (E1&E2&_).
  apply NewDirectGuest_inr in Hg as (Hc&_&_&Hl&Hs); [|done].
  apply check_header_None in Hc as (_&_&?&?&?&_&_&?); [|done].
  pose proof (Hu E_reqOffset). pose proof (Hu E_numGuestSlots). split.
  - by rewrite Hl, E1, E2.
  - lia.
  - apply Forall_lookup. intros j c Hj. destruct (Hs j c Hj) as (_&->&->&_). cbn [snd].
    rewrite !u32_id by lia. lia.
Qed.

Section safety.
Context (g : DirectGuest) (fuel : nat) (Hg : guest_ok g).

Local Abbreviation safely p Q := (safe (guest_alloc g) p Q).

Lemma slot_of i c :
  dg_slots g !! i = Some c → slots (guest_alloc g) !! i = Some (ctx_info c).
Proof. intros Hc. simpl. by rewrite list_lookup_fmap, Hc. Qed.

Lemma within_guest_slot {X} idx (f : nat → slotContext → prog X) Q :
  0 <= idx < Z.of_nat (length (dg_slots g)) →
  (∀ i c, Z.of_nat i = idx → dg_slots g !! i = Some c → safely (f i c) Q) →
  safely (guest_slot g idx f) Q.
Proof.
  intros Hi Hf. unfold guest_slot.
  destruct (lookup_lt_is_Some_2 (dg_slots g) (Z.to_nat idx)) as [c Hc]; [lia|].
  rewrite Hc. apply Hf; [lia|done].
Qed.

Section slot.
Context (i : nat) (c : slotContext) (Hc : dg_slots g !! i = Some c).

Let Hs := slot_of i c Hc.

Lemma caps : 0 <= (gs_reqBuffer c).2 < 2 ^ 31 ∧ 0 <= (gs_respBuffer c).2 < 2 ^ 31.
Proof using Hc Hg. destruct Hg as [_ _ Hz]. by eapply Forall_lookup_1 in Hz. Qed.

Lemma safe_claimSlotGen : safely (claimSlotGen i) (λ _, True).
Proof using Hc. clear Hg. pose proof Hs. unfold claimSlotGen. safe_walk. Qed.
Lemma safe_guest_stamp_lease : safely (guest_stamp_lease i) (λ _, True).
Proof using Hc. clear Hg. pose proof Hs. unfold guest_stamp_lease, guest_MonotonicNanos. safe_walk. Qed.
Local Hint Resolve safe_claimSlotGen safe_guest_stamp_lease : within.

Lemma safe_tryClaimGuestSlot : safely (tryClaimGuestSlot i) (λ _, True).
Proof using Hc. clear Hg. pose proof Hs. unfold tryClaimGuestSlot. safe_walk. Qed.

Lemma safe_spinUntilEq32 want max : ∀ iters,
  safely (spinUntilEq32 i want max iters) (λ _, True).
Proof using Hc.
  clear Hg. pose proof Hs.
  induction max as [|max IH]; intros iters; cbn [spinUntilEq32]; [done|]. safe_walk.
Qed.
Local Hint Resolve safe_spinUntilEq32 : within.

Lemma safe_WaitState want sleep :
  safely sleep (λ _, True) → safely (WaitState fuel i want sleep) (λ _, True).
Proof using Hc.
  clear Hg. pose proof Hs. intros Hsl. unfold WaitState, guest_spin, recordOutcome. safe_walk.
Qed.

Lemma safe_guest_exchange t : safely (guest_exchange fuel i c t) (λ _, True).
Proof using Hc.
  clear Hg. pose proof Hs. unfold guest_exchange. apply within_seq; [safe_walk|]. intros _.
  apply within_seq; [unfold guest_publish_request; safe_walk|]. intros _.
  apply safe_WaitState. unfold guest_call_sleep. safe_walk.
Qed.

Lemma safe_guest_write_header sz ty : safely (guest_write_header g i sz ty) (λ _, True).
Proof using Hc. clear Hg. pose proof Hs. unfold guest_write_header. safe_walk. Qed.

Lemma safe_consume_claim : safely (consume_claim i) (λ _, True).
Proof using Hc. clear Hg. pose proof Hs. unfold consume_claim. safe_walk. Qed.

Lemma safe_release_owned f : safely (release_owned i f) (λ _, True).
Proof using Hc. clear Hg. pose proof Hs. unfold release_owned. safe_walk. Qed.

Lemma safe_reclaim_off : safely (reclaim_off g) (λ _, True).
Proof. unfold reclaim_off. safe_walk. Qed.
Local Hint Resolve safe_tryClaimGuestSlot safe_guest_exchange safe_guest_write_header
  safe_consume_claim safe_release_owned safe_reclaim_off : within.

(** A copy within an area of the guest. *)
Lemma safe_copy_out b off n :
  match b with BReq j | BResp j => j = i end →
  in_range off n (match b with BReq _ => (gs_reqBuffer c).2 | BResp _ => (gs_respBuffer c).2 end)
    = true →
  safely (call (CopyOut b off n)) (λ _, True).
Proof using Hc.
  intros Hb Hr. apply within_call; [|done]. unfold safe_ops. pose proof Hs as Hs'. clear Hg.
  destruct b; subst; cbn [safe_op]; by rewrite Hs'.
Qed.

Lemma safe_copy_in b off d :
  match b with BReq j | BResp j => j = i end →
  in_range off (Z.of_nat (length d))
    (match b with BReq _ => (gs_reqBuffer c).2 | BResp _ => (gs_respBuffer c).2 end) = true →
  safely (call (CopyIn b off d)) (λ _, True).
Proof using Hc.
  intros Hb Hr. apply within_call; [|done]. unfold safe_ops. pose proof Hs as Hs'. clear Hg.
  destruct b; subst; cbn [safe_op]; by rewrite Hs'.
Qed.

(** Whatever size the host announces, the copy stays in the response buffer. *)
Lemma safe_read_response : safely (read_response i c) (λ _, True).
Proof using Hc Hg.
  pose proof Hs as Hs'. pose proof caps as [_ Hcap]. unfold read_response, load_i32. cbv zeta.
  apply within_seq; [unfold load; safe_walk|]. intros sz.
  destruct (Z.leb_spec 0 sz).
  - destruct (Z.ltb_spec (gs_respBuffer c).2 sz); [by apply within_ret|].
    apply within_seq; [|intros; by apply within_ret]. apply safe_copy_out; [done|].
    unfold in_range. rewrite !andb_true_iff, !Z.leb_le. lia.
  - destruct (Z.ltb_spec (i32 (- sz)) 0); [by apply within_ret|].
    destruct (Z.ltb_spec (gs_respBuffer c).2 (i32 (- sz))); [by apply within_ret|].
    rewrite (i32_id (gs_respBuffer c).2), (i32_id (_ - _)) by lia.
    apply within_seq; [|intros; by apply within_ret]. apply safe_copy_out; [done|].
    unfold in_range. rewrite !andb_true_iff, !Z.leb_le. lia.
Qed.
Local Hint Resolve safe_read_response : within.

Lemma safe_finish_call seq f : safely (finish_call i c seq f) (λ _, True).
Proof using Hc Hg. pose proof Hs. unfold finish_call. safe_walk. Qed.
Local Hint Resolve safe_finish_call : within.

Lemma safe_call_on data ty t : safely (call_on g fuel i c data ty t) (λ _, True).
Proof using Hc Hg.
  pose proof Hs as Hs'. pose proof caps as [Hcap _]. unfold call_on. cbv zeta.
  destruct (Z.ltb_spec (gs_reqBuffer c).2 (Z.of_nat (length data))); [safe_walk|].
  apply within_seq; [|intros _; safe_walk]. apply safe_copy_in; [done|].
  unfold in_range. rewrite !andb_true_iff, !Z.leb_le. destruct (_ =? _); lia.
Qed.

Lemma safe_call_handler handler off n ty :
  in_range off n (gs_reqBuffer c).2 = true →
  safely (call_handler handler i c off n ty) (λ _, True).
Proof using Hc.
  intros Hr. unfold call_handler. apply within_seq; [by apply safe_copy_out|]. intros req.
  destruct (handler ty req) as [h|]; [|done].
  destruct (in_range _ _ (gs_respBuffer c).2) eqn:E; [|done].
  apply within_seq; [by apply safe_copy_in|done].
Qed.

Lemma safe_publish_with stores :
  safely stores (λ _, True) → safely (publish_with i c stores) (λ _, True).
Proof using Hc.
  clear Hg. pose proof Hs. intros Hst.
  unfold publish_with, guest_lockForPublish, guest_publishResponse. safe_walk.
Qed.

Lemma safe_serve_request handler : safely (serve_request handler i c) (λ _, True).
Proof using Hc Hg.
  pose proof Hs as Hs'. pose proof caps as [Hcap _]. unfold serve_request.
  apply within_seq; [safe_walk|]. intros ty. unfold refuse.
  destruct (_ =? _); [apply within_seq; [apply safe_publish_with; safe_walk|done]|].
  destruct (_ =? _); [apply within_seq; [apply safe_publish_with; safe_walk|done]|].
  eapply (within_bind _ _ _ (λ v, is_i32 v)).
  { unfold load_i32, load. apply within_seq; [safe_walk|]. intros v. apply i32_range. }
  intros sz Hsz. destruct (request_window _ sz) as [[off n]|] eqn:Ew; cycle 1.
  { apply within_seq; [apply safe_publish_with; safe_walk|done]. }
  apply request_window_Some in Ew as [_ Hr]; [|done..].
  apply within_seq; [by apply safe_call_handler|]. intros [[rs rt]|]; [|done].
  apply within_seq; [apply safe_publish_with; safe_walk|done].
Qed.

Lemma safe_workerLoopInternal handler :
  safely (workerLoopInternal g handler fuel i c) (λ _, True).
Proof using Hc Hg.
  pose proof Hs as Hs'. unfold workerLoopInternal. apply within_seq; [safe_walk|]. intros _.
  apply (within_loop _ _ _ _ (λ _, True)); [done|]. intros _ _.
  apply within_seq; [safe_walk|]. intros closing. destruct (_ =? _); [done|].
  apply within_seq.
  { apply safe_WaitState. unfold guest_worker_sleep. safe_walk. }
  intros []; [|done]. apply within_seq; [unfold claim_request; safe_walk|]. intros []; [|done].
  apply within_seq; [apply safe_serve_request|]. by intros [].
Qed.

Lemma safe_workerLoop handler : safely (workerLoop g handler fuel i) (λ _, True).
Proof using Hc Hg.
  pose proof Hs as Hs'. pose proof (safe_workerLoopInternal handler).
  assert (safely (publish_with i c (store i F_msgType (MsgType_val SYSTEM_ERROR) ;;;
    store i F_respSize 0)) (λ _, True)) by (apply safe_publish_with; safe_walk).
  unfold workerLoop. rewrite Hc. unfold recover_panic. safe_walk.
Qed.
End slot.

(** *** All slots *)

Lemma rotated_ok j offset :
  0 < dg_numGuestSlots g → 0 <= rotated g j offset < Z.of_nat (length (dg_slots g)).
Proof using Hg.
  intros Hn. destruct Hg as [Hl [? ?] _]. unfold rotated. rewrite Hl.
  pose proof (Z.mod_pos_bound (u32 (j + offset)) (dg_numGuestSlots g)). lia.
Qed.

Lemma safe_claim_first n index :
  (∀ j, 0 <= j < n → 0 <= index j < Z.of_nat (length (dg_slots g))) →
  safely (claim_first g n index)
    (λ r, ∀ idx, r = Some idx → 0 <= idx < Z.of_nat (length (dg_slots g))).
Proof.
  intros Hi. unfold claim_first. cbv zeta.
  eapply (within_bind _ _ _ (λ r, ∀ idx, r = inr idx → 0 <= idx < Z.of_nat (length (dg_slots g)))).
  - apply (within_for _ _ _ _ _ (λ _, True)); [done| |done]. intros j [] Hj _.
    apply within_guest_slot; [apply Hi; lia|]. intros i c E Hc.
    apply within_seq; [by eapply safe_tryClaimGuestSlot|]. intros []; [|done].
    intros ? [= <-]. apply Hi. lia.
  - intros [[]|idx] Hr; [done|]. intros ? [= <-]. by apply Hr.
Qed.

Lemma safe_guest_TryReclaimAbandonedSlot idx age :
  safely (guest_TryReclaimAbandonedSlot g idx age) (λ _, True).
Proof.
  unfold guest_TryReclaimAbandonedSlot. destruct (_ || _) eqn:E; [done|].
  rewrite orb_false_iff, Z.ltb_ge, Z.leb_gt in E. apply within_guest_slot; [lia|].
  intros i c _ Hc. pose proof (slot_of i c Hc). unfold guest_MonotonicNanos. safe_walk.
Qed.

Lemma safe_reclaim_pass :
  0 < dg_numGuestSlots g →
  safely (reclaim_pass g)
    (λ r, ∀ idx, r = Some idx → 0 <= idx < Z.of_nat (length (dg_slots g))).
Proof using Hg.
  intros Hn. unfold reclaim_pass. apply within_seq; [safe_walk|]. intros ns. cbv zeta.
  destruct (_ <? _); [|done]. apply within_seq.
  - apply (within_for _ _ _ _ _ (λ _, True)); [done| |done]. intros j b _ _.
    apply within_seq; [apply safe_guest_TryReclaimAbandonedSlot|done].
  - intros [[]|]; try done. apply safe_claim_first. destruct Hg as [Hl [? ?] _]. lia.
Qed.

Lemma safe_next_offset : safely next_offset (λ _, True).
Proof. unfold next_offset. safe_walk. Qed.

Lemma safe_acquire_guest_slot t :
  0 < dg_numGuestSlots g →
  safely (acquire_guest_slot g fuel t)
    (λ r, ∀ idx, r = inr idx → 0 <= idx < Z.of_nat (length (dg_slots g))).
Proof using Hg.
  intros Hn. unfold acquire_guest_slot. apply within_seq; [apply safe_next_offset|]. intros off.
  apply (within_loop _ _ _ _ (λ _, True)); [done|]. intros [[offset deadline] backoff] _.
  eapply within_bind; [apply safe_claim_first; intros; by apply rotated_ok|]. intros slot Hslot.
  eapply within_bind.
  { instantiate (1 := λ r, ∀ idx, r = Some idx → 0 <= idx < Z.of_nat (length (dg_slots g))).
    destruct slot as [idx|]; [done|by apply safe_reclaim_pass]. }
  intros [idx|] Hr; [intros ? [= <-]; by apply Hr|]. clear slot Hslot Hr.
  apply within_seq; [safe_walk|]. intros closing. destruct (_ =? _); [done|].
  apply within_seq; [safe_walk|]. intros d. apply within_seq; [safe_walk|]. intros now.
  destruct (_ <=? _); [done|]. apply within_seq; [safe_walk|]. intros _.
  apply within_seq; [apply safe_next_offset|done].
Qed.

Lemma safe_sendGuestCallInternal data ty t :
  safely (sendGuestCallInternal g fuel data ty t) (λ _, True).
Proof using Hg.
  unfold sendGuestCallInternal. destruct (_ <? _); [done|].
  destruct (Z.eqb_spec (dg_numGuestSlots g) 0); [done|].
  eapply within_bind; [apply safe_acquire_guest_slot; destruct Hg; lia|].
  intros [e|idx] Hr; [done|]. apply within_guest_slot; [by apply Hr|].
  intros i c _ Hc. by apply safe_call_on.
Qed.

(** A handle refers to a slot of the guest or to none. *)
Definition gh_ok (h : GuestSlot) : Prop :=
  ∀ i, gh_slot h = Some i → is_Some (dg_slots g !! i).

Lemma safe_AcquireGuestSlot :
  safely (AcquireGuestSlot g) (λ r, ∀ h, r = inr h → gh_ok h ∧ ∃ i, h = mkGuestSlot (Some i) false).
Proof using Hg.
  unfold AcquireGuestSlot. destruct (Z.eqb_spec (dg_numGuestSlots g) 0); [done|].
  assert (0 < dg_numGuestSlots g) by (destruct Hg; lia).
  apply within_seq; [apply safe_next_offset|]. intros off.
  eapply within_bind; [apply safe_claim_first; intros; by apply rotated_ok|].
  intros [idx|] Hr; [|done]. intros ? [= <-]. specialize (Hr idx eq_refl). split; [|by eexists].
  intros i [= <-]. apply lookup_lt_is_Some. lia.
Qed.

Lemma safe_gh_SendWithTimeout h sz ty t :
  gh_ok h → safely (gh_SendWithTimeout g fuel h sz ty t) (λ r, gh_ok r.2).
Proof using Hg.
  intros Hh. unfold gh_SendWithTimeout. destruct (gh_slot h) as [i|] eqn:Ei; [|done].
  destruct (gh_lost h); [done|]. destruct (Hh i Ei) as [c Hc].
  assert (∀ b, gh_ok (mkGuestSlot (Some i) b)) as Hb by (intros b ? [= <-]; by eexists).
  apply within_guest_slot; [apply lookup_lt_Some in Hc; lia|]. intros i' c' E Hc'.
  assert (i' = i) as -> by lia. clear c Hc E. rename c' into c, Hc' into Hc.
  destruct (size_refused _ _); [done|]. pose proof (slot_of i c Hc).
  apply within_seq; [by eapply safe_guest_write_header|]. intros seq.
  apply within_seq; [by eapply safe_guest_exchange|]. intros ready.
  apply within_seq.
  { pose proof safe_reclaim_off. pose proof (safe_claimSlotGen i c Hc).
    pose proof (safe_guest_stamp_lease i c Hc). safe_walk. }
  intros claimed. apply within_seq; [safe_walk|]. intros _.
  destruct (negb ready); [apply Hb|]. destruct (negb claimed); [apply Hb|].
  apply within_seq; [safe_walk|]. intros sq. destruct (negb _).
  - apply within_seq; [safe_walk|done].
  - unfold load_i32. apply within_seq; [safe_walk|]. intros rs. apply within_seq; [safe_walk|done].
Qed.

Lemma safe_gh_Release h : gh_ok h → safely (gh_Release h) (λ _, True).
Proof.
  intros Hh. unfold gh_Release. destruct (gh_slot h) as [i|] eqn:Ei; [|done].
  destruct (Hh i Ei) as [c Hc]. pose proof (slot_of i c Hc). safe_walk.
Qed.
End safety.
