(* ===== verification/GuestStream.v ===== *)
(** * GuestStream: the guest's stream sender (go/stream_sender.go)

    Sending a buffer as a stream over guest slots: [sendStart], [sendChunk] and
    [sendChunksInline], the path of the default [maxInFlight] of 1, as programs over
    [GuestSender].

    - [timeout] is [responseTimeout()].
    - the client is not nil.
    - the pipelined path ([maxInFlight] above 1), which runs the same [sendChunk] in
      goroutines, is [GuestPipeline].

    [guest_Send_messages]: what this sender publishes is the reference sequence of
    [StreamTransmit], so that both languages speak the same stream protocol. *)

From coqutil Require Import Word.LittleEndianList.
From S2P Require Export GuestSender StreamTransmit GuestReassembler.

Local Open Scope Z_scope.

Definition streamHeaderSize : Z := 24.
Definition chunkHeaderSize : Z := 24.

(** The bytes at the start of the buffer after [putStreamHeader]. *)
Definition putStreamHeader (streamID totalSize totalChunks appMsgType : Z) : list byte :=
  le_split 8 streamID ++ le_split 8 totalSize ++ le_split 4 totalChunks ++ le_split 4 appMsgType.

Definition putChunkHeader (streamID chunkIndex payloadSize dstOffset : Z) : list byte :=
  le_split 8 streamID ++ le_split 4 chunkIndex ++ le_split 4 payloadSize ++
  le_split 4 dstOffset ++ le_split 4 0.

Inductive SendError : Set :=
  | SE_TooLarge | SE_NoSlot (e : GuestError) | SE_HeaderBuffer | SE_ChunkBuffer | SE_Overflow
  | SE_Send (e : GuestError) | SE_Rejected.

Section sender.
Context (g : DirectGuest) (fuel : nat) (timeout : Z).

(** [acquireSlot(nil)]: until a slot is free or the deadline has passed. *)
Definition stream_acquireSlot : prog (GuestError + GuestSlot) :=
  let* start := call SteadyNow in
  let deadline := start + DefaultStreamTimeout in
  loop fuel (λ _ : unit,
    let* r := AcquireGuestSlot g in
    match r with
    | inr h => Ret (inr (inr h))
    | inl e =>
        let* now := call SteadyNow in
        if negb (now <? deadline) then Ret (inr (inl e))
        else call Pause ;;; Ret (inl tt)
    end) tt.

(** [len(slot.RequestBuffer())] *)
Definition reqBuf_len (h : GuestSlot) : Z :=
  match RequestBuffer h with
  | Some i => match dg_slots g !! i with Some c => (gs_reqBuffer c).2 | None => 0 end
  | None => 0
  end.

(** A write to [slot.RequestBuffer()]; on a dead handle the slice is nil and any
    byte written to it panics. *)
Definition write_reqBuf (h : GuestSlot) (off : Z) (bs : list byte) : prog unit :=
  match RequestBuffer h with
  | Some i => call (CopyIn (BReq i) off bs)
  | None => match bs with [] => Ret tt | _ => Fault end
  end.

(** [defer slot.Release()] *)
Definition releasing {X} (h : GuestSlot) (r : X) : prog X :=
  let* _ := gh_Release h in Ret r.

(** The payload capacity of a chunk, or an error. *)
Definition sendStart (data : list byte) (streamID appMsgType : Z) : prog (SendError + Z) :=
  let len := Z.of_nat (length data) in
  if MaxStreamSize <? len then Ret (inl SE_TooLarge)
  else
    let* r := stream_acquireSlot in
    match r with
    | inl e => Ret (inl (SE_NoSlot e))
    | inr h =>
        let reqLen := reqBuf_len h in
        if reqLen <? streamHeaderSize then releasing h (inl SE_HeaderBuffer)
        else
          let maxPayload := reqLen - chunkHeaderSize in
          if maxPayload <=? 0 then releasing h (inl SE_ChunkBuffer)
          else
            let totalChunks := if 0 <? len then (len + maxPayload - 1) / maxPayload else 0 in
            write_reqBuf h 0 (putStreamHeader streamID (u64 len) (u32 totalChunks) appMsgType) ;;;
            let* (res, h) := gh_SendWithTimeout g fuel h streamHeaderSize
                               (MsgType_val STREAM_START) timeout in
            match res with
            | inl e => releasing h (inl (SE_Send e))
            | inr (_, respType) =>
                if respType =? MsgType_val SYSTEM_ERROR then releasing h (inl SE_Rejected)
                else releasing h (inr maxPayload)
            end
    end.

(** The handle after the send, and the error. *)
Definition sendChunk (h : GuestSlot) (streamID idx dstOffset : Z) (payload : list byte)
    : prog (option SendError * GuestSlot) :=
  let len := Z.of_nat (length payload) in
  if reqBuf_len h <? chunkHeaderSize + len then Ret (Some SE_Overflow, h)
  else
    write_reqBuf h 0 (putChunkHeader streamID idx (u32 len) (u32 dstOffset)) ;;;
    write_reqBuf h chunkHeaderSize payload ;;;
    let* (res, h) := gh_SendWithTimeout g fuel h (i32 (chunkHeaderSize + len))
                       (MsgType_val STREAM_CHUNK) timeout in
    Ret (match res with
         | inl e => Some (SE_Send e)
         | inr (_, respType) =>
             if respType =? MsgType_val SYSTEM_ERROR then Some SE_Rejected else None
         end, h).

(** The loop state is the offset and the index; every round consumes a payload. *)
Definition sendChunksInline (data : list byte) (streamID maxPayload : Z)
    : prog (option SendError) :=
  let len := Z.of_nat (length data) in
  loop fuel (λ '(offset, idx),
    if offset <? len then
      let end_ := if len <? offset + maxPayload then len else offset + maxPayload in
      let* r := stream_acquireSlot in
      match r with
      | inl e => Ret (inr (Some (SE_NoSlot e)))
      | inr h =>
          let* (err, h) := sendChunk h streamID idx (u64 offset)
                             (slice (Z.to_nat offset) (Z.to_nat (end_ - offset)) data) in
          let* _ := gh_Release h in
          match err with
          | Some e => Ret (inr (Some e))
          | None => Ret (inl (end_, u32 (idx + 1)))
          end
      end
    else Ret (inr None)) (0, 0).

(** [Send] with [maxInFlight] 1; [None] for success. *)
Definition guest_Send (data : list byte) (streamID appMsgType : Z) : prog (option SendError) :=
  let* r := sendStart data streamID appMsgType in
  match r with
  | inl e => Ret (Some e)
  | inr maxPayload =>
      if (length data =? 0)%nat then Ret None
      else sendChunksInline data streamID maxPayload
  end.
End sender.

(** ** What is published *)

Lemma putStreamHeader_bytes id sz n tag :
  putStreamHeader id sz n tag = StreamHeader_bytes (mkStreamHeader id sz n tag).
Proof. reflexivity. Qed.

Lemma putChunkHeader_bytes id k len dst :
  putChunkHeader id k len dst = ChunkHeader_bytes (mkChunkHeader id k len dst 0).
Proof. reflexivity. Qed.

(** *** Methods that publish nothing *)

Lemma unsent_claimSlotGen i : performs unsent (claimSlotGen i).
Proof. unfold claimSlotGen. unsent_walk. Qed.
Lemma unsent_guest_stamp_lease i : performs unsent (guest_stamp_lease i).
Proof. unfold guest_stamp_lease, guest_MonotonicNanos, store. unsent_walk. Qed.
#[local] Hint Resolve unsent_claimSlotGen unsent_guest_stamp_lease unsent_SignalEvent
  unsent_WaitEvent : within.

Lemma unsent_tryClaimGuestSlot i : performs unsent (tryClaimGuestSlot i).
Proof. unfold tryClaimGuestSlot, load, cas. unsent_walk. Qed.
#[local] Hint Resolve unsent_tryClaimGuestSlot : within.

Lemma unsent_AcquireGuestSlot g : performs unsent (AcquireGuestSlot g).
Proof. unfold AcquireGuestSlot, next_offset, claim_first, guest_slot. unsent_walk. Qed.
#[local] Hint Resolve unsent_AcquireGuestSlot : within.

Lemma unsent_stream_acquireSlot g fuel : performs unsent (stream_acquireSlot g fuel).
Proof. unfold stream_acquireSlot. unsent_walk. Qed.

Lemma unsent_gh_Release h : performs unsent (gh_Release h).
Proof. unfold gh_Release, cas. unsent_walk. Qed.

Lemma unsent_spinUntilEq32 i want max : ∀ iters, performs unsent (spinUntilEq32 i want max iters).
Proof.
  induction max as [|max IH]; intros iters; cbn [spinUntilEq32]; [done|]. unfold load. unsent_walk.
Qed.
#[local] Hint Resolve unsent_spinUntilEq32 : within.

Lemma unsent_WaitState fuel i want sleep :
  performs unsent sleep → performs unsent (WaitState fuel i want sleep).
Proof. intros H. unfold WaitState, guest_spin, recordOutcome, cas, load. unsent_walk. Qed.

Lemma unsent_guest_call_sleep fuel i ev t : performs unsent (guest_call_sleep fuel i ev t).
Proof. unfold guest_call_sleep, load, store. unsent_walk. Qed.

Section transport.
Context (g : DirectGuest) (fuel : nat) (timeout R : Z).
Context (Hg : guest_ok g) (HR : 24 < R < 2 ^ 31).
Context (HU : Forall (λ c, (gs_reqBuffer c).2 = R) (dg_slots g)).
Context (id tag : Z) (data : list byte) (Hsize : data_size data <= MaxStreamSize).
Context (msgs : list message).

Local Abbreviation P := (R - 24).
Local Abbreviation n := (chunk_count P data).
Local Abbreviation sends p s Q := (obeys false (outbox msgs) p s Q).

(** A fresh handle of a slot. *)
Definition fresh (i : nat) : GuestSlot := mkGuestSlot (Some i) false.

Lemma safe_stream_acquireSlot :
  safe (guest_alloc g) (stream_acquireSlot g fuel)
    (λ r, ∀ h, r = inr h → ∃ i c, h = fresh i ∧ dg_slots g !! i = Some c).
Proof using Hg.
  unfold stream_acquireSlot. apply within_seq; [safe_walk|]. intros start.
  apply (within_loop _ _ _ _ (λ _, True)); [done|]. intros _ _.
  eapply within_bind; [by apply safe_AcquireGuestSlot|]. intros [e|h] Hh.
  - apply within_seq; [safe_walk|]. intros now. destruct (negb _); [done|].
    apply within_seq; [safe_walk|done].
  - intros ? [= <-]. destruct (Hh h eq_refl) as [Hok [i ->]].
    destruct (Hok i eq_refl) as [c Hc]. by exists i, c.
Qed.

Lemma stream_acquireSlot_sends {Y} (f : _ → prog Y) s Q :
  (∀ e, sends (f (inl e)) s Q) →
  (∀ i c, dg_slots g !! i = Some c → sends (f (inr (fresh i))) s Q) →
  sends (bind (stream_acquireSlot g fuel) f) s Q.
Proof using Hg.
  intros He Hh. eapply sends_unsent; [apply safe_stream_acquireSlot|apply unsent_stream_acquireSlot|].
  intros [e|h] Hr; [done|]. destruct (Hr h eq_refl) as (i&c&->&Hc). by eapply Hh.
Qed.

(** The rest of a transaction publishes nothing more. *)
Lemma release_sends {Y} h (f : GuestSlot → prog Y) s Q :
  gh_ok g h → (∀ h', sends (f h') s Q) → sends (bind (gh_Release h) f) s Q.
Proof using Hg.
  intros Hh Hf. eapply sends_unsent; [by apply safe_gh_Release|apply unsent_gh_Release|]. auto.
Qed.

Lemma reqBuf_len_fresh i c : dg_slots g !! i = Some c → reqBuf_len g (fresh i) = R.
Proof using HU.
  intros Hc. unfold reqBuf_len. simpl. rewrite Hc. exact (Forall_lookup_1 _ _ _ _ HU Hc).
Qed.

Lemma write_reqBuf_sends {Y} i off bs (f : unit → prog Y) s Q :
  areas R s → 0 <= off → off + Z.of_nat (length bs) <= R →
  sends (f tt) (wrote s i (Z.to_nat off) bs) Q →
  sends (bind (write_reqBuf (fresh i) off bs) f) s Q.
Proof using HR.
  intros Ha Ho Hl H. unfold write_reqBuf. simpl RequestBuffer. cbv iota.
  eapply sends_op; [|intros []; exact H]. intros r _. unfold outbox. cbn [answer_ok negb unsent].
  replace (in_range _ _ _) with true; [done|]. symmetry. rewrite Ha.
  unfold in_range. rewrite !andb_true_iff, !Z.leb_le. lia.
Qed.

Lemma gh_ok_fresh i c b : dg_slots g !! i = Some c → gh_ok g (mkGuestSlot (Some i) b).
Proof. intros Hc ? [= <-]. by eexists. Qed.

(** The header of a request at the start of the area, and its publication. *)
Lemma guest_write_header_sends i sz ty m rest s :
  areas R s → o_req s i = m ++ rest → sz = Z.of_nat (length m) →
  sends (guest_write_header g i sz ty) s (λ _ s',
    areas R s' ∧ o_sent s' = o_sent s ∧ staged s' i = (ty, m)).
Proof.
  intros Ha Hm ->. unfold guest_write_header, load, store.
  do 5 (eapply sends_op; [by intros|intros]). cbn [obeys]. split; [exact Ha|split; [done|]].
  unfold staged. cbn [o_type o_size o_req].
  by rewrite !upd_eq, (proj2 (Z.leb_le _ _)), Nat2Z.id, Hm, take_app_length by lia.
Qed.

Lemma guest_publish_request_sends i ev m s :
  areas R s → staged s i = m → o_sent s ++ [m] `prefix_of` msgs →
  sends (guest_publish_request i ev) s (λ _ s', has_sent R m s s').
Proof using g.
  intros Ha Hm Hp. unfold guest_publish_request, store, load. eapply sends_op.
  { intros ? _. unfold outbox. cbn [answer_ok negb unsent].
    cbn [Z.eqb SLOT_REQ_READY Pos.eqb negb]. rewrite Hm, bool_decide_true by done. reflexivity. }
  intros _. eapply sends_op; [by intros|]. intros h.
  destruct (h =? HOST_STATE_WAITING); [|done].
  eapply obeys_mono, (unsent_keeps _ _ _ (safe_ops (guest_alloc g)));
    [by intros u s' [-> _]|apply safe_SignalEvent|apply unsent_SignalEvent].
Qed.

Lemma guest_exchange_sends i c m s :
  dg_slots g !! i = Some c → areas R s → staged s i = m → o_sent s ++ [m] `prefix_of` msgs →
  sends (guest_exchange fuel i c timeout) s (λ _ s', has_sent R m s s').
Proof.
  intros Hc Ha Hm Hp. unfold guest_exchange, store.
  eapply sends_op; [by intros|]. intros _. apply obeys_bind.
  eapply obeys_mono, guest_publish_request_sends; [|done..]. intros u s1 Hs1.
  eapply obeys_mono, unsent_keeps; [by intros r s' [-> _]| |].
  - eapply safe_WaitState; [done|]. pose proof (slot_of g i c Hc). unfold guest_call_sleep. safe_walk.
  - apply unsent_WaitState, unsent_guest_call_sleep.
Qed.

(** [Send] of a message that lies at the start of the request buffer. *)
Lemma gh_Send_sends i c ty m rest s :
  dg_slots g !! i = Some c → areas R s → o_req s i = m ++ rest →
  o_sent s ++ [(ty, m)] `prefix_of` msgs →
  sends (gh_SendWithTimeout g fuel (fresh i) (Z.of_nat (length m)) ty timeout) s
    (λ r s', gh_ok g r.2 ∧ has_sent R (ty, m) s s').
Proof using Hg HR HU.
  intros Hc Ha Hm Hp. eapply obeys_within;
    [intros ???? Ho; unfold outbox; by rewrite Ho
    |by apply safe_gh_SendWithTimeout; [|eapply gh_ok_fresh]|].
  assert (Z.of_nat (length m) <= R).
  { specialize (Ha i). rewrite Hm, length_app in Ha. lia. }
  unfold gh_SendWithTimeout. cbn [fresh gh_slot gh_lost]. unfold guest_slot.
  rewrite Nat2Z.id, Hc. unfold size_refused. rewrite (Forall_lookup_1 _ _ _ _ HU Hc).
  rewrite (proj2 (Z.ltb_ge (Z.of_nat _) 0)), (proj2 (Z.ltb_ge R _)) by lia.
  apply obeys_bind. eapply obeys_mono, guest_write_header_sends; [|done..].
  intros seq s1 (Ha1&Hs1&Hst). apply obeys_bind.
  eapply obeys_mono, guest_exchange_sends; [|done..|by rewrite Hs1].
  intros ready s2 [Ha2 Hs2]. assert (has_sent R (ty, m) s s2) as Hdone by (split; [done|congruence]).
  pose proof (slot_of g i c Hc).
  eapply obeys_mono, (unsent_keeps _ _ _ (safe_ops (guest_alloc g)) (λ _, True));
    [by intros r s' [-> _]| |].
  - unfold load_i32. pose proof (safe_reclaim_off g). pose proof (safe_claimSlotGen g i c Hc).
    pose proof (safe_guest_stamp_lease g i c Hc). safe_walk.
  - unfold load_i32, reclaim_off, load, store, cas. unsent_walk.
Qed.

Lemma ceiling : data_size data <= kMaxStreamSize.
Proof using Hsize. exact Hsize. Qed.

(** The piece of the buffer that the loop cuts off is the chunk of the reference. *)
Lemma cut_chunk k :
  0 <= k < n →
  let off := k * P in
  let end_ := if data_size data <? off + P then data_size data else off + P in
  slice (Z.to_nat off) (Z.to_nat (end_ - off)) data = chunk_payload P data k ∧
  end_ = Z.min (data_size data) ((k + 1) * P).
Proof using HR.
  intros [Hk Hn]. apply chunk_count_spec in Hn; [|lia|done]. cbv zeta. unfold chunk_payload, slice.
  destruct (Z.ltb_spec (data_size data) (k * P + P)); [|split; [do 2 f_equal; lia|lia]].
  split; [|lia]. unfold data_size in *. rewrite !take_ge; rewrite ?length_drop; [done|nia..].
Qed.

(** [sendChunk] of chunk [k] publishes the chunk message of the reference. *)
Lemma sendChunk_publishes i c k s :
  dg_slots g !! i = Some c → 0 <= k < n → areas R s →
  o_sent s ++ [chunk_message P id data k] `prefix_of` msgs →
  sends (sendChunk g fuel timeout (fresh i) id k (u64 (k * P)) (chunk_payload P data k)) s
    (λ r s', gh_ok g r.2 ∧ has_sent R (chunk_message P id data k) s s').
Proof using Hg HR HU Hsize.
  intros Hc Hk Ha Hnext. pose proof ceiling. pose proof (data_bound data ltac:(done)).
  pose proof (count_bound R HR data ltac:(done)).
  pose proof (chunk_length P data ltac:(lia) k Hk) as Hlen.
  pose proof (proj1 (chunk_count_spec P data ltac:(lia) k (proj1 Hk)) (proj2 Hk)).
  unfold sendChunk. rewrite (reqBuf_len_fresh i c Hc). change chunkHeaderSize with 24.
  rewrite (proj2 (Z.ltb_ge R _)) by lia. cbv zeta.
  rewrite (u64_id (k * P)), (u32_id (k * P)), (u32_id (Z.of_nat _)), (i32_id (24 + _)) by nia.
  rewrite putChunkHeader_bytes. change (mkChunkHeader id k _ (k * P) 0) with (chunk_header P id data k).
  set (h := ChunkHeader_bytes _). set (p := chunk_payload P data k) in *.
  assert (Hh : length h = 24%nat) by apply ChunkHeader_bytes_length.
  apply write_reqBuf_sends; [done|lia|lia|].
  apply write_reqBuf_sends; [by apply areas_wrote|lia|lia|]. apply obeys_bind.
  replace (24 + Z.of_nat (length p)) with (Z.of_nat (length (h ++ p))) by (rewrite length_app; lia).
  change (Z.to_nat 24) with 24%nat. rewrite <- Hh.
  destruct (wrote_message s i h p R Ha) as [rest Hrest]; [lia|].
  eapply obeys_mono, gh_Send_sends; [|done|by do 2 apply areas_wrote|exact Hrest|done].
  by intros [[e|[rs rt]] h'] s' [Hok Hs'].
Qed.

Lemma sendStart_sends s :
  areas R s → o_sent s ++ [start_message P id tag data] `prefix_of` msgs →
  sends (sendStart g fuel timeout data id tag) s (λ r s',
    ∀ p, r = inr p → p = P ∧ has_sent R (start_message P id tag data) s s').
Proof using Hg HR HU Hsize.
  intros Ha Hpre. pose proof (count_bound R HR data ceiling). pose proof (data_bound data ceiling).
  unfold sendStart. change (Z.of_nat (length data)) with (data_size data).
  rewrite (proj2 (Z.ltb_ge MaxStreamSize _)) by done. cbv zeta.
  apply stream_acquireSlot_sends; [done|]. intros i c Hc. rewrite (reqBuf_len_fresh i c Hc).
  change streamHeaderSize with 24. change chunkHeaderSize with 24.
  rewrite (proj2 (Z.ltb_ge R 24)), (proj2 (Z.leb_gt P 0)) by lia.
  assert ((if 0 <? data_size data then (data_size data + P - 1) / P else 0) = n) as ->.
  { destruct (Z.ltb_spec 0 (data_size data)); [done|]. rewrite chunk_count_zero; lia. }
  rewrite u64_id, u32_id, putStreamHeader_bytes by lia. set (h := StreamHeader_bytes _).
  assert (Hh : length h = 24%nat) by apply StreamHeader_bytes_length.
  apply write_reqBuf_sends; [done|lia|lia|]. apply obeys_bind.
  assert (o_req (wrote s i (Z.to_nat 0) h) i = h ++ drop (length h) (o_req s i)) as Hrest.
  { cbn. rewrite upd_eq, inserts_at_0; [done|]. rewrite Ha. lia. }
  pose proof (gh_Send_sends i c (MsgType_val STREAM_START) h _ _ Hc (areas_wrote R s i _ h Ha) Hrest)
    as Hsend. rewrite Hh in Hsend.
  eapply obeys_mono, Hsend; [|exact Hpre].
  intros [res h'] s' [Hok Hpr]. unfold releasing.
  destruct res as [e|[rs rt]]; [|destruct (_ =? _)]; (apply release_sends; [exact Hok|]);
    intros _; intros p [=]; by subst.
Qed.
End transport.

Section messages.
Context (g : DirectGuest) (fuel : nat) (timeout R : Z).
Context (Hg : guest_ok g) (HR : 24 < R < 2 ^ 31).
Context (HU : Forall (λ c, (gs_reqBuffer c).2 = R) (dg_slots g)).
Context (id tag : Z) (data : list byte) (Hsize : data_size data <= MaxStreamSize).

Local Abbreviation P := (R - 24).
Local Abbreviation n := (chunk_count P data).
Local Abbreviation msgs := (stream_messages P id tag data).
Local Abbreviation sends p s Q := (obeys false (outbox msgs) p s Q).

(** Where the loop is. *)
Definition at_chunk (st : Z * Z) (s : Outbox) : Prop :=
  0 <= st.2 <= n ∧ st.1 = Z.min (data_size data) (st.2 * P) ∧ progress R id tag data st.2 s.

Lemma sendChunksInline_sends s :
  progress R id tag data 0 s →
  sends (sendChunksInline g fuel timeout data id P) s (λ r s', r = None → o_sent s' = msgs).
Proof using Hg HR HU Hsize.
  intros Hp. pose proof (count_bound R HR data (ceiling data Hsize)).
  pose proof (data_bound data (ceiling data Hsize)).
  apply (obeys_loop _ _ at_chunk); [done|split_and!; simpl; [lia|lia|lia|done]|].
  intros [off k] s1 (Hk&Hoff&Hp1). simpl in Hk, Hoff, Hp1.
  change (Z.of_nat (length data)) with (data_size data).
  pose proof (chunk_count_spec P data ltac:(lia) k (proj1 Hk)) as Hspec.
  destruct (Z.ltb_spec off (data_size data)) as [Hlt|Hge]; cycle 1.
  { intros _. destruct Hp1 as [_ ->]. unfold stream_messages. do 3 f_equal. lia. }
  assert (k < n) by (apply Hspec; lia). replace off with (k * P) in * by lia.
  destruct (cut_chunk R HR data k ltac:(lia)) as [Hcut Hend]. cbv zeta in Hcut, Hend |- *. rewrite Hcut.
  apply stream_acquireSlot_sends; [done|done|]. intros i c Hc. apply obeys_bind.
  eapply obeys_mono, (sendChunk_publishes g fuel timeout R Hg HR HU id data Hsize);
    [|done|lia|exact (proj1 Hp1)|exact (progress_next R id tag data k s1 ltac:(lia) Hp1)].
  intros [err h] s2 [Hok Hs2].
  assert (progress R id tag data (k + 1) s2) as Hp2 by (eapply progress_sent; [lia|done..]).
  eapply release_sends; [done|exact Hok|]. intros _. destruct err as [e|]; [done|].
  rewrite u32_id by lia. split_and!; simpl; [lia..|done].
Qed.
End messages.

(** Both senders speak the same protocol.  The guest's stream sender, on guest
    slots with request buffers of [R] bytes and whatever the host answers,
    publishes a prefix of the messages that the reference (and the C++ sender)
    prescribes for the buffer: the header and the chunks, in order, which tile it.
    It writes only within the request buffers, and if it reports success all
    messages have been published. *)
Theorem guest_Send_messages g fuel timeout R id tag data s :
  guest_ok g → 24 < R < 2 ^ 31 → Forall (λ c, (gs_reqBuffer c).2 = R) (dg_slots g) →
  data_size data <= MaxStreamSize → areas R s → o_sent s = [] →
  let msgs := stream_messages (R - 24) id tag data in
  obeys false (outbox msgs) (guest_Send g fuel timeout data id tag) s
    (λ r s', r = None → o_sent s' = msgs).
Proof.
  intros Hg HR HU Hsize Ha He msgs. unfold guest_Send. apply obeys_bind.
  eapply obeys_mono, sendStart_sends; [|done..|rewrite He; apply prefix_cons, prefix_nil].
  intros [e|p] s1 H1; [done|]. destruct (H1 p eq_refl) as [-> [Ha1 Hs1]].
  assert (progress (R) id tag data 0 s1) as Hp by (split; [done|]; by rewrite Hs1, He). destruct (Nat.eqb_spec (length data) 0) as [E|E].
  - intros _. destruct Hp as [_ ->]. unfold msgs, stream_messages.
    rewrite chunk_count_zero by (unfold data_size; lia). done.
  - by eapply sendChunksInline_sends.
Qed.

Definition ex_stream_guest : DirectGuest :=
  mkDirectGuest 0 1 2 0 0 0 true (replicate 3 (mkSlotContext 0 (0, 64) (64, 64) 1 2 1)).

Lemma ex_stream_guest_ok : guest_ok ex_stream_guest.
Proof. split; [done|done|]. by repeat constructor. Qed.

Lemma guest_Send_messages_witness :
  obeys false (outbox (stream_messages 40 7 9 ex_data))
    (guest_Send ex_stream_guest 3 1000 ex_data 7 9) ex_outbox
    (λ r s', r = None → o_sent s' = stream_messages 40 7 9 ex_data).
Proof.
  apply (guest_Send_messages ex_stream_guest 3 1000 64 7 9 ex_data ex_outbox);
    [exact ex_stream_guest_ok|lia|by repeat constructor|by vm_compute| |done].
  by intros i.
Defined.
