(* ===== verification/Client.v ===== *)
(** * Client (go/client.go): connecting, and the client's operations

    - [Connect] retries [NewDirectGuest] until it succeeds or the time is up.  The
      outside world is an input: what attempt [n] finds ([Attempt]: the answers of the
      operating system and the words of the exchange header) and the time that has
      passed when the attempt has failed ([since n], in nanoseconds).
    - the other methods of [Client] forward to [DirectGuest]; [c_timeout] and
      [c_affinity] are the fields of the guest that the client sets. *)

From S2P Require Export Affinity GuestStream.

Local Open Scope Z_scope.

Record ClientConfig : Type := mkClientConfig {
  ConnectionTimeout : Z; RetryInterval : Z; cfg_affinity : Z }.

Record Client : Type := mkClient {
  c_guest : DirectGuest; c_timeout : Z; c_affinity : Z; c_handler : option Handler }.

(** ** Connecting *)

Record Attempt : Type := mkAttempt {
  at_os : GuestOs; at_header : exchange_field → Z; at_fastPath : Z }.

Definition attempt (a : Attempt) : AttachError + DirectGuest :=
  NewDirectGuest (at_os a) (at_header a) (at_fastPath a).

(** Durations in nanoseconds; 0 stands for the default. *)
Definition connect_timeout (config : ClientConfig) : Z :=
  if ConnectionTimeout config =? 0 then 10 * 1000000000 else ConnectionTimeout config.

Definition connect_interval (config : ClientConfig) : Z :=
  if RetryInterval config =? 0 then 100 * 1000000 else RetryInterval config.

(** [responseTimeoutNs] of a new guest. *)
Definition default_response_timeout : Z := 10 * 1000000000.

Section connect.
Context (config : ClientConfig) (world : nat → Attempt) (since : nat → Z).

(** [None]: out of fuel. *)
Fixpoint connect_loop (fuel n : nat) : option (AttachError + Client) :=
  match fuel with
  | O => None
  | S fuel =>
      match attempt (world n) with
      | inr g => Some (inr (mkClient g default_response_timeout (cfg_affinity config) None))
      | inl e =>
          if connect_timeout config <=? since n then Some (inl e)
          else connect_loop fuel (S n)
      end
  end.

Definition Connect (fuel : nat) : option (AttachError + Client) := connect_loop fuel 0.
End connect.

Definition ConnectDefault := Connect (mkClientConfig 0 0 AffinityAuto).

(** ** The client's operations *)

Definition client_Handle (h : Handler) (c : Client) : Client :=
  mkClient (c_guest c) (c_timeout c) (c_affinity c) (Some h).

Definition client_SetTimeout (d : Z) (c : Client) : Client :=
  mkClient (c_guest c) d (c_affinity c) (c_handler c).

(** [DirectGuest.Start]: one goroutine per host slot. *)
Definition guest_Start (g : DirectGuest) (h : Handler) (fuel : nat) : list (prog unit) :=
  map (workerLoop g h fuel) (List.seq 0%nat (Z.to_nat (dg_numSlots g))).

(** [None]: [Handle] was not called. *)
Definition client_Start (c : Client) (fuel : nat) : option (list (prog unit)) :=
  (λ h, guest_Start (c_guest c) h fuel) <$> c_handler c.

Definition client_SendGuestCall (c : Client) (fuel : nat) (data : list byte) (ty : Z) :=
  sendGuestCallInternal (c_guest c) fuel data ty (c_timeout c).

Definition client_SendGuestCallWithTimeout (c : Client) (fuel : nat) (data : list byte) (ty timeout : Z) :=
  sendGuestCallInternal (c_guest c) fuel data ty timeout.

(** The buffer that the caller provides only decides where the response is put. *)
Definition client_SendGuestCallBuffer (c : Client) (fuel : nat) (data : list byte) (ty : Z) :=
  sendGuestCallInternal (c_guest c) fuel data ty (c_timeout c).

Definition client_AcquireGuestSlot (c : Client) : prog (GuestError + GuestSlot) :=
  AcquireGuestSlot (c_guest c).

(** [GuestSlot.Send]: with the default timeout of the guest. *)
Definition gh_Send (c : Client) (fuel : nat) (h : GuestSlot) (size msgType : Z) :=
  gh_SendWithTimeout (c_guest c) fuel h size msgType (c_timeout c).

(** [SetAutoReclaimTimeout], [GetAutoReclaimTimeout]: a [time.Duration] in an unsigned
    word. *)
Definition guest_SetAutoReclaimTimeout (d : Z) : prog unit := call (Store L_guestReclaim (u64 d)).

Definition guest_GetAutoReclaimTimeout : prog Z :=
  let* ns := call (Load L_guestReclaim) in Ret (to_i64 ns).

(** The word gives back every duration, negative ones included. *)
Lemma reclaim_timeout_roundtrip d x w :
  - 2 ^ 63 <= d < 2 ^ 63 →
  run_alone 2 x (guest_SetAutoReclaimTimeout d ;;; guest_GetAutoReclaimTimeout) w =
    Some (d, set_mem w L_guestReclaim (u64 d)).
Proof.
  intros Hd. unfold guest_SetAutoReclaimTimeout, guest_GetAutoReclaimTimeout.
  cbn [bind call run_alone exec]. cbn [set_mem mem]. rewrite upd_eq. do 2 f_equal.
  unfold to_i64, u64. destruct (Z.lt_ge_cases d 0).
  - rewrite <-(Z_mod_plus_full d 1), Z.mod_small by lia. rewrite (proj2 (Z.ltb_ge _ _)); lia.
  - rewrite Z.mod_small, (proj2 (Z.ltb_lt _ _)); lia.
Qed.

(** [None] is the nil pointer. *)
Definition MaxRequestSize (g : option DirectGuest) : Z :=
  match g with
  | None => 0
  | Some g => u32 (dg_respOffset g - dg_reqOffset g)
  end.

Definition client_MaxRequestSize (c : option Client) : Z :=
  match c with None => 0 | Some c => MaxRequestSize (Some (c_guest c)) end.

(** ** What [Connect] does *)

Section spec.
Context (config : ClientConfig) (world : nat → Attempt) (since : nat → Z).

(** Attempt [n] is the last one. *)
Definition last_attempt (n : nat) : Prop :=
  (∃ g, attempt (world n) = inr g) ∨ connect_timeout config <= since n.

Definition outcome (n : nat) : AttachError + Client :=
  match attempt (world n) with
  | inr g => inr (mkClient g default_response_timeout (cfg_affinity config) None)
  | inl e => inl e
  end.

#[export] Instance last_attempt_dec n : Decision (last_attempt n).
Proof.
  unfold last_attempt. destruct (attempt (world n)) as [e|g] eqn:E.
  - destruct (decide (connect_timeout config <= since n)); [by left; right|].
    right. intros [[g ?]|?]; [done|lia].
  - left. left. by exists g.
Defined.

Lemma connect_loop_spec d : ∀ fuel n,
  last_attempt (n + d) → (∀ j, (n ≤ j < n + d)%nat → ¬ last_attempt j) → (d < fuel)%nat →
  connect_loop config world since fuel n = Some (outcome (n + d)).
Proof.
  induction d as [|d IH]; intros [|fuel] n Hl Hf Hd; try lia; cbn [connect_loop].
  - rewrite Nat.add_0_r in *. unfold outcome. destruct Hl as [[g ->]|Ht]; [done|].
    destruct (attempt (world n)); [|done]. by rewrite (proj2 (Z.leb_le _ _)).
  - assert (¬ last_attempt n) as Hn by (apply Hf; lia). unfold last_attempt in Hn.
    destruct (attempt (world n)) as [e|g] eqn:E; [|exfalso; eauto].
    rewrite (proj2 (Z.leb_gt _ _)) by (destruct (Z.lt_ge_cases (since n) (connect_timeout config)); [done|exfalso; eauto]).
    replace (n + S d)%nat with (S n + d)%nat in * by lia. apply IH; [done| |lia]. intros j Hj. apply Hf. lia.
Qed.

(** [time.Sleep] sleeps at least as long as it is told. *)
Hypothesis Hsleep : ∀ n, since n + connect_interval config <= since (S n).
Hypothesis Hstart : 0 <= since 0.
Hypothesis Hint : 0 < connect_interval config.

Lemma since_grows n : Z.of_nat n * connect_interval config <= since n.
Proof using Hsleep Hstart. induction n as [|n IH]; [lia|]. specialize (Hsleep n). lia. Qed.

Definition connect_fuel : nat :=
  S (Z.to_nat (connect_timeout config / connect_interval config + 1)).

(** There is a last attempt among the first ones. *)
Lemma last_attempt_exists :
  ∃ n, (n < connect_fuel)%nat ∧ last_attempt n ∧ ∀ j, (j < n)%nat → ¬ last_attempt j.
Proof using Hsleep Hstart Hint.
  set (N := Z.to_nat (connect_timeout config / connect_interval config + 1)).
  destruct (first_such last_attempt N) as (n&Hle&Hn&Hj).
  { right. etrans; [|apply since_grows]. unfold N.
    pose proof (Z.mul_succ_div_gt (connect_timeout config) (connect_interval config) Hint).
    destruct (Z.lt_ge_cases (connect_timeout config / connect_interval config + 1) 0); nia. }
  exists n. split_and!; [unfold connect_fuel; lia|done..].
Qed.
End spec.

(** ** What a client offers *)

Lemma MaxRequestSize_spec os hdr fast g c :
  header_u32 hdr → NewDirectGuest os hdr fast = inr g → c ∈ dg_slots g →
  MaxRequestSize (Some g) = (gs_reqBuffer c).2 ∧ 0 < MaxRequestSize (Some g).
Proof.
  intros Hu Hg [j Hj]%list_elem_of_lookup.
  pose proof (NewDirectGuest_counts _ _ _ _ Hg) as (_&_&Hrq&Hrs).
  apply NewDirectGuest_inr in Hg as (Hc&_&_&_&Hs); [|done].
  apply check_header_None in Hc as (_&_&_&_&?&_&_&?); [|done]. pose proof (Hu E_reqOffset).
  destruct (Hs j c Hj) as (_&->&_). cbn [snd MaxRequestSize]. rewrite Hrq, Hrs.
  split; [done|]. rewrite u32_id; lia.
Qed.

(** C39: connecting.  The clock advances by the retry interval, which is positive,
    between two attempts.  Then [Connect] returns after at most
    [timeout / interval + 2] attempts, with the result of the first attempt that
    succeeds or that ends after the timeout: there is always an attempt, a host
    that is ready before the time is up is found, and an error is returned only
    when the time is up.  A connected client reports the length of every request
    buffer as its maximal request, a positive number, and with a handler it starts
    one worker per host slot. *)
Theorem connect_returns config world since :
  (∀ n, since n + connect_interval config <= since (S n)) → 0 <= since 0%nat →
  0 < connect_interval config →
  ∃ n, (n < connect_fuel config)%nat ∧
    Connect config world since (connect_fuel config) = Some (outcome config world n) ∧
    (∀ j, (j < n)%nat → ∃ e, attempt (world j) = inl e ∧ since j < connect_timeout config) ∧
    (∀ e, outcome config world n = inl e → connect_timeout config <= since n) ∧
    (∀ k g, attempt (world k) = inr g → (∀ j, (j < k)%nat → since j < connect_timeout config) →
       (n ≤ k)%nat ∧ ∃ c, outcome config world n = inr c) ∧
    (∀ c h fuel, outcome config world n = inr c → header_u32 (at_header (world n)) →
       (∀ s, s ∈ dg_slots (c_guest c) →
          client_MaxRequestSize (Some c) = (gs_reqBuffer s).2 ∧ 0 < client_MaxRequestSize (Some c)) ∧
       client_Start c fuel = None ∧
       ∃ ts, client_Start (client_Handle h c) fuel = Some ts ∧
         Z.of_nat (length ts) = dg_numSlots (c_guest c)).
Proof.
  intros Hsl H0 Hi. destruct (last_attempt_exists config world since Hsl H0 Hi) as (n&Hn&Hl&Hf).
  assert (Hfail : ∀ j, (j < n)%nat → ∃ e, attempt (world j) = inl e ∧ since j < connect_timeout config).
  { intros j Hj. specialize (Hf j Hj). unfold last_attempt in Hf.
    destruct (attempt (world j)) as [e|g]; [|exfalso; eauto]. exists e. split; [done|].
    apply Z.nle_gt. intros ?. eauto. }
  exists n. split_and!; [done| |done|..].
  - apply (connect_loop_spec config world since n _ 0); [done| |done]. intros j Hj. apply Hf. lia.
  - unfold outcome. intros e He. destruct Hl as [[g Hg]|]; [by rewrite Hg in He|done].
  - intros k g Hg Hk. assert (n ≤ k)%nat as Hle.
    { destruct (decide (n ≤ k)%nat) as [|Hgt]; [done|].
      destruct (Hfail k) as (e&He&_); [lia|]. congruence. }
    split; [done|]. unfold outcome. destruct (attempt (world n)) as [e|g'] eqn:E; [|by eexists].
    destruct Hl as [[? ?]|Ht]; [congruence|]. destruct (decide (n = k)) as [->|]; [congruence|].
    specialize (Hk n). lia.
  - intros c h fuel. unfold outcome. destruct (attempt (world n)) as [e|g] eqn:E; [done|].
    intros [= <-] Hu. split_and!; [|done|].
    + intros s Hs. by eapply MaxRequestSize_spec.
    + eexists. split; [done|]. unfold guest_Start. rewrite length_map, length_seq.
      destruct (NewDirectGuest_counts _ _ _ _ E) as [En _]. pose proof (Hu E_numSlots).
      cbn [c_guest client_Handle]. rewrite En. lia.
Qed.

(** A host that has initialised the segment before the third attempt. *)
Definition ex_config_default : ClientConfig := mkClientConfig 0 0 AffinityAuto.
Definition ex_arrival (n : nat) : Attempt :=
  mkAttempt (mkGuestOs (2 <=? n)%nat (λ _, true) (λ i, Some (Z.of_nat (2 * i + 101)))
    (λ i, Some (Z.of_nat (2 * i + 102))))
    (published ex_host_world) (mem ex_host_world L_fastPathAllowed).

Lemma connect_returns_witness :
  ∃ c, Connect ex_config_default ex_arrival (λ n, Z.of_nat n * 100000000)
         (connect_fuel ex_config_default) = Some (inr c) ∧
    client_MaxRequestSize (Some c) = 512.
Proof.
  destruct (connect_returns ex_config_default ex_arrival (λ n, Z.of_nat n * 100000000))
    as (n&Hn&HC&_&_&Hk&_).
  - intros m. change (connect_interval ex_config_default) with 100000000. lia.
  - done.
  - done.
  - destruct (attempt (ex_arrival 2)) as [e|g] eqn:E; [by vm_compute in E|].
    destruct (Hk 2%nat g E) as (_&c&Ec).
    { change (connect_timeout ex_config_default) with 10000000000. intros j Hj. lia. }
    exists c. rewrite HC, Ec. split; [done|].
    assert (Connect ex_config_default ex_arrival (λ n, Z.of_nat n * 100000000)
      (connect_fuel ex_config_default) = Some (inr c)) as H by (by rewrite HC, Ec).
    assert (c_guest c = c_guest (mkClient g default_response_timeout AffinityAuto None)) as Eg.
    { unfold outcome in Ec. destruct n as [|[|n]]; [by vm_compute in Ec..|].
      vm_compute in E. vm_compute in Ec. injection E as <-. by injection Ec as <-. }
    unfold client_MaxRequestSize. rewrite Eg. vm_compute in E. injection E as <-. reflexivity.
Defined.
