(* ===== verification/RingReceiver.v ===== *)
(** * RingReceiver (go/ringbuffer.go): the guest's end of the ring

    [BootstrapRingBuffer] and [RingBufferReceiver.Read], the protocol that [Read]
    follows, and its invariant together with the protocol of the sender.

    - the request buffer of the guest is its address and its length; the two offsets
      are the locations [L_writeOffset] and [L_readOffset], as in [RingBuffer];
    - [Read] returns the bytes that it stores in [out]; their number is its result. *)

From S2P Require Export RingBuffer.

Local Open Scope Z_scope.

Record RingBufferReceiver : Type := mkReceiver { rr_slot : nat; rr_capacity : Z }.

(** [slot] names the buffer of [len] bytes at [addr]. *)
Definition BootstrapRingBuffer (slot : nat) (addr len : Z) : option RingBufferReceiver :=
  let headerSize := 256 in
  if len <=? headerSize then None
  else if negb (addr mod 8 =? 0) then None
  else Some (mkReceiver slot (u32 (len - headerSize))).

(** [n] is the length of [out]. *)
Definition rb_Read (rb : RingBufferReceiver) (n : Z) : prog (list byte) :=
  let capacity := rr_capacity rb in
  let data off len := call (CopyOut (BReq (rr_slot rb)) (256 + off) len) in
  let* w := call (Load L_writeOffset) in
  let* r := call (Load L_readOffset) in
  let available := u64 (w - r) in
  if available =? 0 then Ret []
  else if capacity <? available then Ret []
  else
    let toRead := if available <? n then available else n in
    let readIdx := u32 (r mod capacity) in
    let contiguous := u32 (capacity - readIdx) in
    let chunk := if contiguous <? u32 toRead then contiguous else u32 toRead in
    let* first := data readIdx chunk in
    let* second := if chunk <? u32 toRead then data 0 (u32 (u32 toRead - chunk)) else Ret [] in
    call (Store L_readOffset (u64 (r + toRead))) ;;;
    Ret (first ++ second).

(** The guest reads into buffers of the lengths [ns]. *)
Fixpoint ring_reads (rb : RingBufferReceiver) (ns : list Z) : prog (list (list byte)) :=
  match ns with
  | [] => Ret []
  | n :: ns => let* bs := rb_Read rb n in let* rest := ring_reads rb ns in Ret (bs :: rest)
  end.

(** ** Two protocols side by side *)

Section either.
Context {M N : Type} (mon : monitor M) (mon' : monitor N).

Definition either : monitor (M + N) := λ s X o r,
  match s with
  | inl s => match mon s X o r with
             | Next s' => Next (inl s') | Forbidden => Forbidden | Impossible => Impossible
             end
  | inr s => match mon' s X o r with
             | Next s' => Next (inr s') | Forbidden => Forbidden | Impossible => Impossible
             end
  end.

Lemma obeys_either_l {A} total (p : prog A) : ∀ s (Q : A → M → Prop) (Q' : A → M + N → Prop),
  (∀ a s, Q a s → Q' a (inl s)) → obeys total mon p s Q → obeys total either p (inl s) Q'.
Proof.
  induction p as [a|X o k IH| |]; cbn; intros s Q Q' HQ; [auto| |done|done].
  intros H r. specialize (H r). destruct (mon s X o r); [by eapply IH|done..].
Qed.

Lemma obeys_either_r {A} total (p : prog A) : ∀ s (Q : A → N → Prop) (Q' : A → M + N → Prop),
  (∀ a s, Q a s → Q' a (inr s)) → obeys total mon' p s Q → obeys total either p (inr s) Q'.
Proof.
  induction p as [a|X o k IH| |]; cbn; intros s Q Q' HQ; [auto| |done|done].
  intros H r. specialize (H r). destruct (mon' s X o r); [by eapply IH|done..].
Qed.
End either.

(** ** The receiver's protocol *)

Lemma take_slice {A} (l : list A) p n : take p l ++ slice p n l = take (p + n) l.
Proof. unfold slice. by rewrite take_take_drop. Qed.

Module Receiver.
Section receiver.
Context (i : nat) (cap : Z) (goal : list byte).

(** Bytes read and released, bytes copied but not released, the write offset last
    seen. *)
Record st : Type := mkSt { r_got : list byte; r_acc : list byte; r_seen : Z }.

Definition at_ (s : st) : Z := Z.of_nat (length (r_got s ++ r_acc s)).

Definition mon : monitor st := λ s X o,
  match o in op X return X → verdict_of st with
  | Load L_writeOffset => λ w,
      if (r_seen s <=? w) && (w <=? Z.of_nat (length goal))
      then Next (mkSt (r_got s) (r_acc s) w) else Impossible
  | Load L_readOffset => λ r, if r =? Z.of_nat (length (r_got s)) then Next s else Impossible
  | CopyOut b off n => λ bs,
      if bool_decide (b = BReq i) && (off =? 256 + at_ s mod cap) && (0 <=? n)
         && (at_ s mod cap + n <=? cap) && (at_ s + n <=? r_seen s)
      then if bool_decide (bs = slice (Z.to_nat (at_ s)) (Z.to_nat n) goal)
           then Next (mkSt (r_got s) (r_acc s ++ bs) (r_seen s)) else Impossible
      else Forbidden
  | Store L_readOffset v => λ _,
      if v =? at_ s then Next (mkSt (r_got s ++ r_acc s) [] (r_seen s)) else Forbidden
  | _ => λ _, Forbidden
  end.

(** Between two calls. *)
Definition idle (s : st) : Prop := r_acc s = [] ∧ Z.of_nat (length (r_got s)) <= r_seen s.

Hypothesis Hcap : 0 < cap < 2 ^ 32.
Hypothesis Hgoal : Z.of_nat (length goal) < 2 ^ 64.
Context (total : bool).

Lemma read_follows {Y} off n (f : list byte → prog Y) s Q :
  off = 256 + at_ s mod cap → 0 <= n → at_ s mod cap + n <= cap → at_ s + n <= r_seen s →
  r_seen s <= Z.of_nat (length goal) →
  (∀ bs, Z.of_nat (length bs) = n →
     obeys total mon (f bs) (mkSt (r_got s) (r_acc s ++ bs) (r_seen s)) Q) →
  obeys total mon (bind (call (CopyOut (BReq i) off n)) f) s Q.
Proof.
  intros -> H1 H2 H3 H4 Hf bs. cbn [mon].
  rewrite bool_decide_true, Z.eqb_refl, !(proj2 (Z.leb_le _ _)) by done. cbn [andb].
  case_bool_decide as E; [|done]. cbn [bind]. apply Hf. rewrite E.
  unfold slice. rewrite length_take, length_drop. unfold at_ in *. lia.
Qed.

Lemma rb_Read_follows n s :
  0 <= n → idle s →
  obeys total mon (rb_Read (mkReceiver i cap) n) s (λ bs s', idle s' ∧ r_got s' = r_got s ++ bs).
Proof using Hcap Hgoal.
  intros Hn [Ha Hs]. unfold rb_Read. cbn [rr_capacity rr_slot].
  intros w. cbn [mon]. destruct (_ && _) eqn:E; [|done].
  apply andb_true_iff in E as [E1%Z.leb_le E2%Z.leb_le].
  intros r. cbn [mon r_got]. destruct (Z.eqb_spec r (Z.of_nat (length (r_got s)))) as [->|]; [|done].
  cbn [bind]. set (s1 := mkSt (r_got s) (r_acc s) w).
  assert (Hat : at_ s1 = Z.of_nat (length (r_got s))) by (unfold at_, s1; cbn; by rewrite Ha, app_nil_r).
  rewrite <- Hat. assert (at_ s1 <= w) by lia. rewrite (u64_id (w - at_ s1)) by lia.
  destruct (Z.eqb_spec (w - at_ s1) 0); [cbn; unfold idle; cbn; rewrite app_nil_r; split_and!; try done; lia|].
  destruct (Z.ltb_spec cap (w - at_ s1)); [cbn; unfold idle; cbn; rewrite app_nil_r; split_and!; try done; lia|].
  set (m := if w - at_ s1 <? n then w - at_ s1 else n).
  assert (0 <= m <= w - at_ s1) as Hm by (unfold m; destruct (Z.ltb_spec (w - at_ s1) n); lia).
  pose proof (Z.mod_pos_bound (at_ s1) cap ltac:(lia)).
  rewrite (u32_id m), (u32_id (at_ s1 mod cap)), (u32_id (cap - at_ s1 mod cap)), (u64_id (at_ s1 + m)) by lia.
  assert (Hdone : ∀ bs, Z.of_nat (length bs) = m →
    obeys total mon (call (Store L_readOffset (at_ s1 + m)) ;;; Ret bs) (mkSt (r_got s) bs w)
      (λ bs s', idle s' ∧ r_got s' = r_got s ++ bs)).
  { intros bs Hbs []. unfold mon, at_ at 2. cbn [r_got r_acc r_seen].
    rewrite (proj2 (Z.eqb_eq _ _)) by (rewrite length_app; lia). unfold idle. cbn.
    split_and!; [done| |done]. rewrite length_app. lia. }
  destruct (Z.ltb_spec (cap - at_ s1 mod cap) m) as [Hlt|Hge]; cycle 1.
  - apply read_follows; [done|cbn; lia..|]. intros bs Hbs. cbn [r_got r_acc r_seen s1].
    rewrite Z.ltb_irrefl, Ha, app_nil_l. cbn [bind]. rewrite app_nil_r. by apply Hdone.
  - apply read_follows; [done|cbn; lia..|]. intros bs Hbs. cbn [r_got r_acc r_seen s1].
    rewrite (proj2 (Z.ltb_lt _ _)) by lia. rewrite Ha, app_nil_l.
    set (s2 := mkSt (r_got s) bs w).
    assert (at_ s2 = at_ s1 + (cap - at_ s1 mod cap)) as Hat2.
    { unfold at_ at 1, s2. cbn. rewrite length_app. lia. }
    assert (at_ s2 mod cap = 0) as Hz by (rewrite Hat2; apply Ring.mod_wrap; lia).
    rewrite u32_id by lia. apply read_follows; rewrite ?Hz, ?Hat2; cbn [r_seen s2]; [lia..|].
    intros bs2 Hbs2. cbn [r_got r_acc r_seen s2]. apply Hdone. rewrite length_app. lia.
Qed.
End receiver.
End Receiver.

(** ** Sender and receiver together *)

Section together.
Context (i : nat) (cap : Z) (goal : list byte).
Context (Hcap : 0 < cap < 2 ^ 32).

(** Everything else in the two processes: the ring is not touched. *)
Definition ring_untouched (w w' : World) : Prop :=
  bytes w' (BReq i) = bytes w (BReq i) ∧
  mem w' L_writeOffset = mem w L_writeOffset ∧ mem w' L_readOffset = mem w L_readOffset.

Definition ring_mon : monitor (Ring.st + Receiver.st) :=
  either (Ring.mon i cap goal) (Receiver.mon i cap goal).

(** The producer's invariant, and the receiver's view of the same history. *)
Definition ring_inv (w : World) (ss : list (Ring.st + Receiver.st)) : Prop :=
  ∃ s c, ss = [inl s; inr c] ∧ Ring.inv i cap 0 goal w [s] ∧
    mem w L_readOffset = Z.of_nat (length (Receiver.r_got c)) ∧
    Receiver.at_ c <= Receiver.r_seen c <= Z.of_nat (length (Ring.s_hist s)) ∧
    Receiver.r_got c ++ Receiver.r_acc c `prefix_of` goal.

Lemma ring_pair_env w w' ss : ring_inv w ss → ring_untouched w w' → ring_inv w' ss.
Proof using Hcap.
  intros (s&c&->&Hi&Hr&Hs&Hg) (Hb&Hw&Hr'). exists s, c. rewrite Hr'. split_and!; try done; try lia.
  eapply Ring.ring_inv_env; [lia|exact Hi|]. destruct Hi as (?&[= <-]&?&?&?&_). split_and!; [done..|lia|lia].
Qed.

(** What the sender is allowed to do leaves the read offset alone and only extends
    the history. *)
Lemma sender_frame w s X (o : op X) x r w' s' :
  exec x o w = Done r w' → Ring.mon i cap goal s X o r = Next s' →
  mem w' L_readOffset = mem w L_readOffset ∧
  (length (Ring.s_hist s) ≤ length (Ring.s_hist s'))%nat.
Proof.
  destruct o as [l|l v| | | | |b off bs|ev| | | | |]; try done; cbn [exec Ring.mon].
  - intros [= <- <-]. destruct l; try done; case_match; try done; by intros [= <-].
  - intros [= <- <-]. destruct l; try done; case_match; try done; intros [= <-].
    cbn. rewrite upd_ne, length_app by done. split; [done|lia].
  - destruct (in_range _ _ _); [|done]. intros [= <- <-]. case_match; try done. by intros [= <-].
  - intros [= <- <-]. by intros [= <-].
  - intros [= <- <-]. by intros [= <-].
Qed.

(** The unread bytes are those of the goal. *)
Lemma ring_slice w s (p n : Z) :
  Ring.inv i cap 0 goal w [s] → mem w L_readOffset <= p → 0 <= n →
  p mod cap + n <= cap → p + n <= Z.of_nat (length (Ring.s_hist s)) →
  slice (Z.to_nat (256 + p mod cap)) (Z.to_nat n) (bytes w (BReq i)) = slice (Z.to_nat p) (Z.to_nat n) goal.
Proof using Hcap.
  intros (?&[= <-]&_&H0&_&_&Hl&Hd&[rest Hg]&_) Hp Hn Hm Hh.
  pose proof (Z.mod_pos_bound p cap ltac:(lia)). apply list_eq. intros j. rewrite !lookup_slice.
  case_decide as Hj; [|done]. specialize (Hd (p + Z.of_nat j)). unfold ring_byte, Ring.pos in Hd.
  rewrite (Ring.mod_run cap ltac:(lia) p (p + Z.of_nat j) n) in Hd by lia.
  rewrite length_app in Hd. unfold sizeof_RingBufferHeader in *.
  replace (Z.to_nat (256 + p mod cap) + j)%nat with
    (Z.to_nat (256 + (p mod cap + (p + Z.of_nat j - p)))) by lia.
  rewrite Hd by lia. rewrite Hg, (lookup_app_l _ rest) by (rewrite length_app; lia). f_equal. lia.
Qed.

Lemma ring_pair_step w ss j s X (o : op X) x r w' :
  ring_inv w ss → ss !! j = Some s → exec x o w = Done r w' →
  match ring_mon s X o r with
  | Next s' => ring_inv w' (<[j := s']> ss)
  | Forbidden => True
  | Impossible => False
  end.
Proof using Hcap.
  intros (s0&c&->&Hi&Hr&Hs&Hg) Hj Hx. destruct j as [|[|j]]; [..|done]; injection Hj as <-;
    cbn [ring_mon either].
  - pose proof (Ring.ring_inv_step i cap 0 goal ltac:(lia) w [s0] 0 s0 X o x r w' Hi eq_refl Hx) as Hst.
    destruct (Ring.mon i cap goal s0 X o r) as [s'| |] eqn:E; [|done|done].
    destruct (sender_frame _ _ _ _ _ _ _ _ Hx E) as [Hm Hl]. exists s', c. rewrite Hm.
    split_and!; try done; lia.
  - destruct (Hi) as (?&[= <-]&Hw&H0&Hrw&_&_&_&[rest Hgoal]&_).
    assert (Hlg : (length (Ring.s_hist s0) ≤ length goal)%nat) by (rewrite Hgoal, !length_app; lia).
    destruct o as [l|l v| | | |b off n| | | | | | |]; try done; cbn [exec] in Hx.
    + injection Hx as <- <-. destruct l; try done; cbn [Receiver.mon].
      * rewrite Hw, !(proj2 (Z.leb_le _ _)) by lia. cbn [andb]. eexists s0, _. split; [done|].
        unfold Receiver.at_ in *. cbn. split_and!; try done; lia.
      * rewrite Hr, Z.eqb_refl. by exists s0, c.
    + injection Hx as <- <-. destruct l; try done. cbn [Receiver.mon].
      destruct (Z.eqb_spec v (Receiver.at_ c)) as [->|]; [|done]. eexists s0, _. split; [done|].
      unfold Receiver.at_ in *. cbn [Receiver.r_got Receiver.r_acc Receiver.r_seen set_mem mem].
      rewrite upd_eq, app_nil_r. split_and!; try done; try lia. rewrite length_app in *.
      eapply Ring.ring_inv_env; [lia|exact Hi|]. unfold consumer. cbn.
      rewrite upd_eq, upd_ne by done. split_and!; [done..|lia|lia].
    + cbn [Receiver.mon]. destruct (_ && _) eqn:E; [|done].
      rewrite !andb_true_iff, bool_decide_eq_true, !Z.leb_le, Z.eqb_eq in E.
      destruct E as ((((->&->)&Hn)&Hm)&Hse). destruct (in_range _ _ _); [|done]. injection Hx as <- <-.
      assert (Hat : Receiver.at_ c = Z.of_nat (length (Receiver.r_got c ++ Receiver.r_acc c))) by done.
      rewrite length_app in Hat. rewrite (ring_slice w s0 (Receiver.at_ c) n Hi) by lia.
      rewrite bool_decide_true by done. eexists s0, _. split; [done|].
      set (p := Receiver.at_ c) in *. clearbody p. unfold Receiver.at_. cbn [Receiver.r_got Receiver.r_acc Receiver.r_seen].
      destruct Hg as [rest' Hg]. rewrite app_assoc.
      assert (Hta : take (Z.to_nat p) goal = Receiver.r_got c ++ Receiver.r_acc c).
      { rewrite Hg, take_app_length'; [done|]. rewrite Hat, length_app. lia. }
      rewrite <- Hta, take_slice. split_and!; try done; [rewrite length_take; lia|lia|apply prefix_take].
Qed.

(** An operation the protocols allow is defined. *)
Lemma ring_pair_defined w ss j s X (o : op X) x :
  ss !! j = Some s → ring_inv w ss → exec x o w = Undef → ∃ r, ring_mon s X o r = Forbidden.
Proof using Hcap.
  intros Hj (s0&c&->&Hi&_) Hx. destruct j as [|[|j]]; [..|done]; injection Hj as <-; cbn [ring_mon either].
  - destruct (Ring.allowed_defined i cap 0 goal ltac:(lia) w s0 X o x Hi Hx) as [r Hr].
    exists r. by rewrite Hr.
  - destruct Hi as (?&[= <-]&_&_&_&_&Hl&_). destruct o as [| | | | |b off n| | | | | | |]; try done.
    all: try (by eexists inhabitant).
    exists []. cbn [Receiver.mon]. destruct (_ && _) eqn:E; [|done]. exfalso.
    rewrite !andb_true_iff, bool_decide_eq_true, !Z.leb_le, Z.eqb_eq in E.
    destruct E as ((((->&->)&Hn)&Hm)&_). pose proof (Z.mod_pos_bound (Receiver.at_ c) cap ltac:(lia)).
    cbn [exec] in Hx. unfold in_range, sizeof_RingBufferHeader in *.
    rewrite !(proj2 (Z.leb_le _ _)) in Hx by lia. done.
Qed.
End together.
