(* ===== verification/GuestSafety.v ===== *)
(** * GuestSafety: the guest against a hostile host

    Everything the Go guest runs on an attached segment, together: workers, guest
    calls, zero-copy handles, streams, rings, reclaiming.  [goroutine] lists the entry
    points.  Whatever the host writes to the segment, and when, no goroutine uses
    an index or a slice outside of what it has, where it would panic and take the
    process down. *)

From S2P Require Export RingReceiver GuestStream.

Local Open Scope Z_scope.

(** A client's use of a handle: write a request that fits, send it, any number of
    times, then release. *)
Definition handle_session (g : DirectGuest) (fuel : nat) (txs : list (list byte * Z * Z * Z))
    : prog unit :=
  let* r := AcquireGuestSlot g in
  match r with
  | inl _ => Ret tt
  | inr h =>
      let* h := foldr (λ '(req, size, ty, t) (k : GuestSlot → prog GuestSlot) h,
                    (if Z.of_nat (length req) <=? reqBuf_len g h
                     then write_reqBuf h 0 req else Ret tt) ;;;
                    let* (_, h) := gh_SendWithTimeout g fuel h size ty t in k h) Ret txs h in
      let* _ := gh_Release h in Ret tt
  end.

Inductive goroutine : Type :=
  | TWorker (i : nat)                                       (** [workerLoop] *)
  | TCall (data : list byte) (ty timeout : Z)               (** [SendGuestCall] *)
  | THandle (txs : list (list byte * Z * Z * Z))            (** [AcquireGuestSlot] *)
  | TStream (data : list byte) (id tag timeout : Z)         (** [StreamSender.Send] *)
  | TReclaim (idx age : Z)                                  (** [TryReclaimAbandonedSlot] *)
  | TRing (i : nat) (base : Z) (ns : list Z).               (** [BootstrapRingBuffer] *)

(** The mapping is at [base]; the buffers read into have the lengths [ns]. *)
Definition ring_session (g : DirectGuest) (i : nat) (base : Z) (ns : list Z) : prog unit :=
  match dg_slots g !! i with
  | None => Fault
  | Some c =>
      match BootstrapRingBuffer i (base + (gs_reqBuffer c).1) (gs_reqBuffer c).2 with
      | None => Ret tt
      | Some rb => let* _ := ring_reads rb ns in Ret tt
      end
  end.

Definition spawn (g : DirectGuest) (handler : Handler) (fuel : nat) (t : goroutine) : prog unit :=
  match t with
  | TWorker i => workerLoop g handler fuel i
  | TCall data ty timeout => let* _ := sendGuestCallInternal g fuel data ty timeout in Ret tt
  | THandle txs => handle_session g fuel txs
  | TStream data id tag timeout => let* _ := guest_Send g fuel timeout data id tag in Ret tt
  | TReclaim idx age => let* _ := guest_TryReclaimAbandonedSlot g idx age in Ret tt
  | TRing i base ns => ring_session g i base ns
  end.

(** [Start] spawns workers for the host slots only; a ring is read on a slot that
    exists. *)
Definition goroutine_ok (g : DirectGuest) (t : goroutine) : Prop :=
  match t with
  | TWorker i => Z.of_nat i < dg_numSlots g
  | TRing i _ ns => (i < length (dg_slots g))%nat ∧ Forall (Z.le 0) ns
  | _ => True
  end.

Section safety.
Context (g : DirectGuest) (fuel : nat) (Hg : guest_ok g).

Local Abbreviation safely p Q := (safe (guest_alloc g) p Q).

Lemma safe_write_reqBuf h off bs :
  gh_ok g h → 0 <= off → off + Z.of_nat (length bs) <= reqBuf_len g h →
  safely (write_reqBuf h off bs) (λ _, True).
Proof.
  intros Hh Ho Hl. unfold write_reqBuf, reqBuf_len, RequestBuffer, gh_dead in *.
  assert (∀ i, gh_slot h = Some i → gh_lost h = false →
    safely (call (CopyIn (BReq i) off bs)) (λ _, True)) as Hc.
  { intros i Hi Hlost. rewrite Hi, Hlost in Hl. destruct (Hh i Hi) as [c Hc]. rewrite Hc in Hl.
    eapply safe_copy_in; [exact Hc|done|]. unfold in_range. rewrite !andb_true_iff, !Z.leb_le. lia. }
  destruct (gh_slot h) as [i|] eqn:Hi, (gh_lost h) eqn:Hlost; auto;
    (destruct bs; [done|simpl in Hl; lia]).
Qed.

Lemma safe_releasing {X} h (r : X) Q : gh_ok g h → Q r → safely (releasing h r) Q.
Proof. intros Hh HQ. unfold releasing. by apply within_seq; [apply safe_gh_Release|]. Qed.

Lemma safe_sendChunk t h id idx off payload :
  gh_ok g h → safely (sendChunk g fuel t h id idx off payload) (λ r, gh_ok g r.2).
Proof using Hg.
  intros Hh. unfold sendChunk. change chunkHeaderSize with 24. cbv zeta.
  destruct (Z.ltb_spec (reqBuf_len g h) (24 + Z.of_nat (length payload))); [done|].
  apply within_seq; [apply safe_write_reqBuf; [done|lia|simpl; lia]|]. intros _.
  apply within_seq; [apply safe_write_reqBuf; [done|lia|lia]|]. intros _.
  eapply within_bind; [by apply safe_gh_SendWithTimeout|]. by intros [res h'] Hh'.
Qed.

Lemma safe_sendChunksInline t data id p :
  safely (sendChunksInline g fuel t data id p) (λ _, True).
Proof using Hg.
  unfold sendChunksInline. apply (within_loop _ _ _ _ (λ _, True)); [done|]. intros [off idx] _.
  destruct (_ <? _); [|done]. cbv zeta. eapply within_bind; [by apply safe_stream_acquireSlot|].
  intros [e|h] Hr; [done|]. destruct (Hr h eq_refl) as (i&c&->&Hc).
  eapply within_bind; [apply safe_sendChunk; intros ? [= <-]; by eexists|].
  intros [err h] Hh. apply within_seq; [by apply safe_gh_Release|]. intros _. by destruct err.
Qed.

Lemma safe_sendStart t data id tag : safely (sendStart g fuel t data id tag) (λ _, True).
Proof using Hg.
  unfold sendStart. cbv zeta. change streamHeaderSize with 24. change chunkHeaderSize with 24.
  destruct (_ <? _); [done|]. eapply within_bind; [by apply safe_stream_acquireSlot|].
  intros [e|h] Hr; [done|]. destruct (Hr h eq_refl) as (i&c&->&Hc).
  assert (gh_ok g (fresh i)) by (intros ? [= <-]; by eexists).
  destruct (Z.ltb_spec (reqBuf_len g (fresh i)) 24); [by apply safe_releasing|].
  destruct (_ <=? 0); [by apply safe_releasing|].
  apply within_seq; [apply safe_write_reqBuf; [done|lia|simpl; lia]|]. intros _.
  eapply within_bind; [by apply safe_gh_SendWithTimeout|]. intros [[e|[rs rt]] h] Hh;
    [by apply safe_releasing|]. destruct (_ =? _); by apply safe_releasing.
Qed.

Lemma safe_guest_Send t data id tag : safely (guest_Send g fuel t data id tag) (λ _, True).
Proof using Hg.
  unfold guest_Send. apply within_seq; [apply safe_sendStart|]. intros [e|p]; [done|].
  destruct (_ =? _)%nat; [done|apply safe_sendChunksInline].
Qed.

Lemma safe_handle_session txs : safely (handle_session g fuel txs) (λ _, True).
Proof using Hg.
  unfold handle_session. eapply within_bind; [by apply safe_AcquireGuestSlot|].
  intros [e|h] Hr; [done|]. destruct (Hr h eq_refl) as [Hh _]. clear Hr.
  eapply within_bind; [|intros h' Hh'; apply within_seq; [by apply (safe_gh_Release g)|done]].
  revert h Hh. induction txs as [|[[[req size] ty] t] txs IH]; intros h Hh; simpl; [done|].
  apply within_seq.
  { destruct (Z.leb_spec (Z.of_nat (length req)) (reqBuf_len g h)); [|done].
    apply safe_write_reqBuf; [done|lia|lia]. }
  intros _. eapply within_bind; [by apply safe_gh_SendWithTimeout|]. intros [res h'] Hh'. by apply IH.
Qed.

(** Whatever the offsets say: more bytes than the capacity are not read. *)
Lemma safe_rb_Read i c n :
  dg_slots g !! i = Some c → 256 < (gs_reqBuffer c).2 → 0 <= n →
  safely (rb_Read (mkReceiver i (u32 ((gs_reqBuffer c).2 - 256))) n) (λ _, True).
Proof using Hg.
  intros Hc Hl Hn. destruct (Forall_lookup_1 _ _ _ _ (go_sizes _ Hg) Hc) as [Hs _].
  rewrite u32_id by lia. set (cap := (gs_reqBuffer c).2 - 256).
  assert (Hread : ∀ off m, 0 <= off → 0 <= m → off + m <= cap →
    safely (call (CopyOut (BReq i) (256 + off) m)) (λ _, True)).
  { intros off m ???. eapply safe_copy_out; [exact Hc|done|].
    unfold in_range. rewrite !andb_true_iff, !Z.leb_le. unfold cap in *. lia. }
  unfold rb_Read. cbn [rr_capacity rr_slot]. apply within_seq; [by apply within_call|]. intros w.
  apply within_seq; [by apply within_call|]. intros r. pose proof (u64_range (w - r)).
  destruct (_ =? 0); [done|]. destruct (Z.ltb_spec cap (u64 (w - r))); [done|]. cbv zeta.
  set (m := if u64 (w - r) <? n then u64 (w - r) else n).
  assert (0 <= m <= cap) as Hm by (unfold m; destruct (Z.ltb_spec (u64 (w - r)) n); lia).
  pose proof (Z.mod_pos_bound r cap ltac:(unfold cap; lia)).
  rewrite (u32_id m), (u32_id (r mod cap)), (u32_id (cap - r mod cap)) by (unfold cap in *; lia).
  destruct (Z.ltb_spec (cap - r mod cap) m) as [Hlt|Hge].
  - apply within_seq; [apply Hread; lia|]. intros a. rewrite (proj2 (Z.ltb_lt _ _)), u32_id by lia.
    apply within_seq; [apply (Hread 0); lia|]. intros b. by apply within_seq; [apply within_call|].
  - apply within_seq; [apply Hread; lia|]. intros a. rewrite Z.ltb_irrefl. cbn [bind].
    by apply within_seq; [apply within_call|].
Qed.

Lemma safe_ring_session i c base ns :
  dg_slots g !! i = Some c → Forall (Z.le 0) ns → safely (ring_session g i base ns) (λ _, True).
Proof using Hg.
  intros Hc Hns. unfold ring_session, BootstrapRingBuffer. rewrite Hc.
  destruct (Z.leb_spec (gs_reqBuffer c).2 256); [done|]. destruct (negb _); [done|].
  apply within_seq; [|done]. induction Hns as [|n ns Hn _ IH]; [done|]. cbn [ring_reads].
  apply within_seq; [by apply safe_rb_Read|]. intros bs. by apply within_seq; [exact IH|].
Qed.

Lemma safe_spawn handler t : goroutine_ok g t → safely (spawn g handler fuel t) (λ _, True).
Proof using Hg.
  intros Ht. destruct t as [i|data ty t|txs|data id tag t|idx age|i base ns]; cbn [spawn goroutine_ok] in *.
  - destruct (lookup_lt_is_Some_2 (dg_slots g) i) as [c Hc]; [destruct Hg; lia|].
    by eapply safe_workerLoop.
  - apply within_seq; [by apply safe_sendGuestCallInternal|done].
  - apply safe_handle_session.
  - apply within_seq; [apply safe_guest_Send|done].
  - apply within_seq; [by apply safe_guest_TryReclaimAbandonedSlot|done].
  - destruct Ht as [[c Hc]%lookup_lt_is_Some_2 Hns]. by eapply safe_ring_session.
Qed.
End safety.

(** C8: the guest is safe against a hostile host.  A guest that attached to a
    segment, whatever its exchange header said, runs any number of goroutines:
    workers with any handler, guest calls, handles that are used after they were
    forfeited, streams, rings, reclaiming.  The host changes every header field and every
    buffer byte as it likes at any time.  No goroutine ever indexes outside the
    slots, copies outside a request or response buffer, or divides by zero. *)
Theorem guest_never_panics os hdr fast g handler fuel ts w w' ps p :
  header_u32 hdr → NewDirectGuest os hdr fast = inr g → Forall (goroutine_ok g) ts →
  world_ok (guest_alloc g) w →
  rtc (pool_step any_guest) (w, map (spawn g handler fuel) ts) (w', ps) →
  p ∈ ps → ¬ faulty w' p.
Proof.
  intros Hu Hg Ht. apply safe_pool, Forall_map. eapply Forall_impl; [exact Ht|].
  intros t. apply safe_spawn. by eapply attached_ok.
Qed.

(** A worker and a guest call; the host answers the call with a size that no buffer
    has. *)
Definition ex_goroutines : list goroutine :=
  [TWorker 0; TCall [Byte.x01; Byte.x02] 0 1000].

Definition ex_hostile : World * list (prog unit) :=
  run (replicate 20 (Run 0 ex_ext) ++ replicate 16 (Run 1 ex_ext) ++
       [Machine.Env (LSlot 2 F_respSize) (- 2 ^ 31); Machine.Env (LSlot 2 F_state) SLOT_RESP_READY] ++
       replicate 20 (Run 1 ex_ext))
    (ex_host_world, map (spawn ex_guest (λ _ _, None) 5) ex_goroutines).

Lemma guest_never_panics_witness :
  ex_hostile.2 !! 1%nat = Some (Ret tt) ∧ ¬ faulty ex_hostile.1 (default Fault (ex_hostile.2 !! 0%nat)).
Proof.
  split; [vm_compute; reflexivity|].
  apply (guest_never_panics ex_guest_os (GuestAttach.published ex_host_world)
    (mem ex_host_world L_fastPathAllowed) ex_guest (λ _ _, None) 5 ex_goroutines ex_host_world _
    ex_hostile.2).
  - intros []; vm_compute; done.
  - vm_compute; reflexivity.
  - repeat constructor; by vm_compute.
  - intros [|[|[|i]]] s Hs; vm_compute in Hs; simplify_eq; by vm_compute.
  - apply (run_pool any_guest). repeat constructor.
  - assert (length ex_hostile.2 = 2%nat) as Hl by (vm_compute; reflexivity).
    destruct (lookup_lt_is_Some_2 ex_hostile.2 0) as [p Hp]; [lia|].
    rewrite Hp. by apply (list_elem_of_lookup_2 _ 0).
Defined.
