(* ===== verification/GuestPipeline.v ===== *)
(** * GuestPipeline: [StreamSender.Send] of the guest with any depth (go/stream_sender.go)

    With [maxInFlight] above 1 every chunk is sent by a goroutine of its own.  The
    sender is a state machine: the goroutine that called [Send] ([parent]), the
    goroutines of the chunks ([worker]), and what they share: the channel [sem] of
    tokens, the channel [errChan] of one error, the [WaitGroup].  A step is one
    atomic operation of the slot layer or one operation on a channel or the
    [WaitGroup]; a blocked operation has no step.

    - the programs inside the phases are those of [GuestStream].
    - [out] of a goroutine and [p_log] are not of the source: they record what
      each goroutine wrote to request areas and headers, and the messages that were
      published, in the order of publication.
    - [s0] is what the request areas hold when a goroutine starts.

    [pipelined_Send] is the correctness of the sender in every interleaving.
    [pipelined_overtakes] shows that chunks overtake each other by more than
    [maxInFlight - 1], the distance SPECIFICATION.md and go/stream.go state. *)

From S2P Require Export EndToEnd GuestSafety.

Local Open Scope Z_scope.

(** ** The sender *)

Record GoStreamSender : Type := mkGoStreamSender { gss_maxInFlight : Z; gss_appMsgType : Z }.

Definition NewStreamSender (maxInFlight : Z) : GoStreamSender :=
  mkGoStreamSender (if maxInFlight <=? 0 then 1 else maxInFlight) 0.

Definition SetAppMsgType (s : GoStreamSender) (t : Z) : GoStreamSender :=
  mkGoStreamSender (gss_maxInFlight s) t.

(** Tokens in [sem], the error in [errChan], the counter of the [WaitGroup]. *)
Record Chans : Type := mkChans { sem : Z; errChan : option SendError; wg : Z }.

(** Variables of the chunk loop. *)
Record Cursor : Type := mkCursor { cu_maxPayload : Z; cu_offset : Z; cu_idx : Z }.

(** Where the goroutine of [Send] is. *)
Inductive parent : Type :=
  | PStart (p : prog (SendError + Z))             (** in [sendStart] *)
  | PInline (p : prog (option SendError))         (** in [sendChunksInline] *)
  | PTop (u : Cursor)                             (** at the loop condition and [select] *)
  | PToken (u : Cursor)                           (** at [sem <- struct{}{}] *)
  | PAdd (u : Cursor)                             (** at [wg.Add(1)] *)
  | PDeadline (u : Cursor) (p : prog Z)           (** in [acquireSlot]: at [time.Now()] *)
  | PTry (u : Cursor) (deadline : Z) (p : prog (GuestError + GuestSlot))
  | PAbort (u : Cursor) (deadline : Z) (e : GuestError)    (** at [select] on [abort] *)
  | PRetry (u : Cursor) (deadline : Z) (e : GuestError) (p : prog bool)
  | PUntoken (e : SendError)                      (** at [<-sem] *)
  | PUnadd (e : SendError)                        (** at [wg.Done()] *)
  | PWait (r : option SendError)                  (** at [wg.Wait()]; [None] after the loop *)
  | PFinal                                        (** at the last [select] *)
  | PReturn (r : option SendError).

(** Where the goroutine of a chunk is. *)
Inductive worker_phase : Type :=
  | WSend (p : prog (option SendError * GuestSlot))
  | WReport (e : SendError) (h : GuestSlot)       (** at [errChan <- err] *)
  | WRelease (p : prog GuestSlot)                 (** in the deferred [slot.Release()] *)
  | WToken                                        (** at the deferred [<-sem] *)
  | WDone                                         (** at the deferred [wg.Done()] *)
  | WExit.

(** [wk_err]: what [sendChunk] returned. *)
Record worker : Type := mkWorker { wk_phase : worker_phase; wk_out : Outbox; wk_err : option SendError }.

Record Pipe : Type := mkPipe {
  p_world : World; p_chans : Chans; p_parent : parent; p_out : Outbox;
  p_workers : list worker; p_log : list message }.

(** One operation of a program. *)
Definition advance {X} (x : ext) (w : World) (s : Outbox) (p : prog X)
    : option (World * Outbox * prog X) :=
  match p with
  | Do o k =>
      match exec x o w with
      | Done r w' => Some (w', note s o, k r)
      | _ => None
      end
  | _ => None
  end.

Section pipeline.
Context (g : DirectGuest) (fuel : nat) (timeout : Z) (S : GoStreamSender).
Context (data : list byte) (streamID : Z) (s0 : Outbox).

Definition data_len : Z := Z.of_nat (length data).

(** The clock check and the sleep of [acquireSlot]; [true] when it gives up. *)
Definition acquire_pause (deadline : Z) : prog bool :=
  let* now := call SteadyNow in
  if negb (now <? deadline) then Ret true else call Pause ;;; Ret false.

Definition chunk_end (u : Cursor) : Z :=
  if data_len <? cu_offset u + cu_maxPayload u then data_len else cu_offset u + cu_maxPayload u.

(** The goroutine of the chunk at [u]. *)
Definition chunk_worker (u : Cursor) (h : GuestSlot) : worker :=
  mkWorker (WSend (sendChunk g fuel timeout h streamID (cu_idx u) (u64 (cu_offset u))
    (slice (Z.to_nat (cu_offset u)) (Z.to_nat (chunk_end u - cu_offset u)) data))) s0 None.

(** One step of the goroutine of [Send]: the world, its record, the channels, its
    next phase and a goroutine that it started. *)
Definition parent_step (x : ext) (w : World) (s : Outbox) (c : Chans) (p : parent)
    : option (World * Outbox * Chans * parent * list worker) :=
  let goto c p := Some (w, s, c, p, []) in
  let running {X} (K : prog X → parent) (p : prog X) :=
    '(w', s', p') ← advance x w s p; Some (w', s', c, K p', []) in
  match p with
  | PStart (Ret (inl e)) => goto c (PReturn (Some e))
  | PStart (Ret (inr maxPayload)) =>
      goto c (if (length data =? 0)%nat then PReturn None
              else if gss_maxInFlight S =? 1
              then PInline (sendChunksInline g fuel timeout data streamID maxPayload)
              else PTop (mkCursor maxPayload 0 0))
  | PStart p => running PStart p
  | PInline (Ret r) => goto c (PReturn r)
  | PInline p => running PInline p
  | PTop u =>
      if cu_offset u <? data_len then
        match errChan c with
        | Some e => goto (mkChans (sem c) None (wg c)) (PWait (Some e))
        | None => goto c (PToken u)
        end
      else goto c (PWait None)
  | PToken u =>
      if sem c <? gss_maxInFlight S then goto (mkChans (sem c + 1) (errChan c) (wg c)) (PAdd u)
      else None
  | PAdd u => goto (mkChans (sem c) (errChan c) (wg c + 1)) (PDeadline u (call SteadyNow))
  | PDeadline u (Ret start) => goto c (PTry u (start + DefaultStreamTimeout) (AcquireGuestSlot g))
  | PDeadline u p => running (PDeadline u) p
  | PTry u deadline (Ret (inl e)) => goto c (PAbort u deadline e)
  | PTry u _ (Ret (inr h)) =>
      Some (w, s, c, PTop (mkCursor (cu_maxPayload u) (chunk_end u) (u32 (cu_idx u + 1))),
            [chunk_worker u h])
  | PTry u deadline p => running (PTry u deadline) p
  | PAbort u deadline e =>
      match errChan c with
      | Some e' => goto (mkChans (sem c) None (wg c)) (PUntoken e')
      | None => goto c (PRetry u deadline e (acquire_pause deadline))
      end
  | PRetry u deadline e (Ret true) => goto c (PUntoken (SE_NoSlot e))
  | PRetry u deadline e (Ret false) => goto c (PTry u deadline (AcquireGuestSlot g))
  | PRetry u deadline e p => running (PRetry u deadline e) p
  | PUntoken e => if 0 <? sem c then goto (mkChans (sem c - 1) (errChan c) (wg c)) (PUnadd e) else None
  | PUnadd e => goto (mkChans (sem c) (errChan c) (wg c - 1)) (PWait (Some e))
  | PWait r =>
      if wg c =? 0 then goto c (match r with Some e => PReturn (Some e) | None => PFinal end)
      else None
  | PFinal => goto (mkChans (sem c) None (wg c)) (PReturn (errChan c))
  | PReturn _ => None
  end.

(** One step of the goroutine of a chunk. *)
Definition worker_step (x : ext) (w : World) (c : Chans) (k : worker)
    : option (World * Chans * worker) :=
  let goto c ph := Some (w, c, mkWorker ph (wk_out k) (wk_err k)) in
  match wk_phase k with
  | WSend (Ret (Some e, h)) => Some (w, c, mkWorker (WReport e h) (wk_out k) (Some e))
  | WSend (Ret (None, h)) => goto c (WRelease (gh_Release h))
  | WSend p =>
      '(w', s', p') ← advance x w (wk_out k) p; Some (w', c, mkWorker (WSend p') s' (wk_err k))
  | WReport e h =>
      goto (mkChans (sem c) (match errChan c with Some e0 => Some e0 | None => Some e end) (wg c))
        (WRelease (gh_Release h))
  | WRelease (Ret _) => goto c WToken
  | WRelease p =>
      '(w', s', p') ← advance x w (wk_out k) p; Some (w', c, mkWorker (WRelease p') s' (wk_err k))
  | WToken => if 0 <? sem c then goto (mkChans (sem c - 1) (errChan c) (wg c)) WDone else None
  | WDone => goto (mkChans (sem c) (errChan c) (wg c - 1)) WExit
  | WExit => None
  end.

(** What a step has published. *)
Definition published_by (s s' : Outbox) : list message := drop (length (o_sent s)) (o_sent s').

(** A step of the goroutine of [Send] ([None]) or of chunk [j]. *)
Definition pipe_do (t : option nat) (x : ext) (P : Pipe) : option Pipe :=
  match t with
  | None =>
      '(w, s, c, p, ks) ← parent_step x (p_world P) (p_out P) (p_chans P) (p_parent P);
      Some (mkPipe w c p s (p_workers P ++ ks) (p_log P ++ published_by (p_out P) s))
  | Some j =>
      k ← p_workers P !! j;
      '(w, c, k') ← worker_step x (p_world P) (p_chans P) k;
      Some (mkPipe w c (p_parent P) (p_out P) (<[j := k']> (p_workers P))
              (p_log P ++ published_by (wk_out k) (wk_out k')))
  end.

Definition with_world (P : Pipe) (w : World) : Pipe :=
  mkPipe w (p_chans P) (p_parent P) (p_out P) (p_workers P) (p_log P).

(** Interleaving with an environment: the host, and the other goroutines. *)
Inductive pipe_step (R : World → World → Prop) : Pipe → Pipe → Prop :=
  | pipe_thread t x P P' : pipe_do t x P = Some P' → pipe_step R P P'
  | pipe_env P w : R (p_world P) w → pipe_step R P (with_world P w).

(** [Send] is called. *)
Definition pipe_init (w : World) : Pipe :=
  mkPipe w (mkChans 0 None 0)
    (PStart (sendStart g fuel timeout data streamID (gss_appMsgType S))) s0 [] [].
End pipeline.

(** ** Correctness *)

(** *** Single operations *)

Lemma sent_published s s' :
  o_sent s `prefix_of` o_sent s' → o_sent s' = o_sent s ++ published_by s s'.
Proof. intros [l Hl]. unfold published_by. by rewrite Hl, drop_app_length. Qed.

Lemma sum_pos {X} (f : X → nat) l :
  (0 < sum_list_with f l)%nat → ∃ j a, l !! j = Some a ∧ (0 < f a)%nat.
Proof.
  induction l as [|y l IH]; simpl; [lia|]. intros H. destruct (decide (0 < f y)%nat).
  - by exists 0%nat, y.
  - destruct IH as (j&a&?&?); [lia|]. by exists (Datatypes.S j), a.
Qed.

Section threads.
Context (g : DirectGuest).

Local Abbreviation A := (guest_alloc g).

(** A program that publishes the messages [msgs], in order, and is safe. *)
Definition follows {X} (msgs : list message) (p : prog X) (s : Outbox) (Q : X → Outbox → Prop)
    : Prop :=
  obeys false (outbox msgs) p s Q ∧ safe A p (λ _, True) ∧ o_sent s `prefix_of` msgs.

(** A program that publishes nothing and is safe. *)
Definition quiet {X} (p : prog X) (Q : X → Prop) : Prop := safe A p Q ∧ performs unsent p.

Lemma advance_sent {X} x w s (p : prog X) w' s' p' :
  advance x w s p = Some (w', s', p') → o_sent s `prefix_of` o_sent s'.
Proof.
  destruct p as [|Y o k| |]; cbn; [done| |done..].
  destruct (exec x o w); intros [=]; subst. apply note_sent.
Qed.

Lemma advance_world {X} x w s (p : prog X) w' s' p' :
  advance x w s p = Some (w', s', p') → world_ok A w → world_ok A w'.
Proof.
  destruct p as [|Y o k| |]; cbn; [done| |done..]. destruct (exec x o w) eqn:Hx; intros [=]; subst.
  intros Hw i si Hs. rewrite !(exec_lengths _ _ _ _ _ _ _ Hx). by apply Hw.
Qed.

Lemma advance_safe {X} x w s (p : prog X) w' s' p' Q :
  advance x w s p = Some (w', s', p') → safe A p Q → safe A p' Q.
Proof.
  destruct p as [|Y o k| |]; cbn; [done| |done..]. destruct (exec x o w) eqn:Hx; intros [=]; subst.
  intros H. specialize (H r). unfold only in H. rewrite (exec_answer _ _ _ _ _ _ Hx) in H.
  by destruct (safe_ops A Y o).
Qed.

Lemma advance_follows {X} x w s (p : prog X) w' s' p' msgs Q :
  advance x w s p = Some (w', s', p') → follows msgs p s Q → follows msgs p' s' Q.
Proof.
  intros Ha (Ho&Hs&Hp). pose proof (advance_safe _ _ _ _ _ _ _ _ Ha Hs) as Hs'.
  destruct p as [|Y o k| |]; cbn in Ha; [done| |done..].
  destruct (exec x o w) eqn:Hx; simplify_eq. specialize (Ho r).
  destruct (outbox msgs s Y o r) as [s'| |] eqn:Hn; [| |].
  - rewrite <- (outbox_note _ _ _ _ _ _ Hn). split_and!; [done..|]. by eapply outbox_prefix.
  - done.
  - unfold outbox in Hn. rewrite (exec_answer _ _ _ _ _ _ Hx) in Hn. cbn [negb] in Hn.
    repeat case_match; done.
Qed.

Lemma advance_quiet {X} x w s (p : prog X) w' s' p' Q :
  advance x w s p = Some (w', s', p') → quiet p Q → quiet p' Q ∧ s' = s.
Proof.
  intros Ha [Hs Hu]. pose proof (advance_safe _ _ _ _ _ _ _ _ Ha Hs) as Hs'.
  destruct p as [|Y o k| |]; cbn in Ha; [done| |done..].
  destruct (exec x o w) eqn:Hx; simplify_eq. destruct Hu as [Ho Hk].
  by rewrite (note_unsent _ _ _ Ho).
Qed.

(** A time-out ends every wait, so no program is blocked for ever. *)
Lemma advance_some {X} w s (p : prog X) Q :
  world_ok A w → safe A p Q → p ≠ Diverge →
  (∃ a, p = Ret a) ∨ ∃ x r, advance x w s p = Some r.
Proof.
  intros Hw Hs Hd. destruct p as [a|Y o k| |]; [by left; eexists| |done..]. right.
  set (x := mkExt 0 true 0 []). exists x. cbn. specialize (Hs (some_answer o)). unfold only in Hs.
  destruct (safe_ops A Y o) eqn:Ho; [|done]. pose proof (safe_op_defined A w Y o x Hw Ho).
  destruct (exec x o w) eqn:Hx; [by eexists| |done]. exfalso. revert Hx. clear.
  destruct o; cbn; repeat case_match; done.
Qed.
End threads.

(** *** The invariant *)

(** Tokens held and counts of the [WaitGroup]. *)
Definition parent_token (p : parent) : nat :=
  match p with
  | PAdd _ | PDeadline _ _ | PTry _ _ _ | PAbort _ _ _ | PRetry _ _ _ _ | PUntoken _ => 1
  | _ => 0
  end.

Definition parent_wg (p : parent) : nat :=
  match p with
  | PDeadline _ _ | PTry _ _ _ | PAbort _ _ _ | PRetry _ _ _ _ | PUntoken _ | PUnadd _ => 1
  | _ => 0
  end.

Definition worker_token (k : worker) : nat :=
  match wk_phase k with WDone | WExit => 0 | _ => 1 end.

Definition worker_wg (k : worker) : nat :=
  match wk_phase k with WExit => 0 | _ => 1 end.

(** The error that ends [Send] has been taken. *)
Definition failing (p : parent) : bool :=
  match p with PUntoken _ | PUnadd _ | PWait (Some _) | PReturn (Some _) => true | _ => false end.

(** All goroutines have been waited for. *)
Definition settled (p : parent) : bool :=
  match p with PFinal | PReturn _ => true | _ => false end.

(** The program that a goroutine is in. *)
Definition parent_runs (p : parent) (Φ : ∀ X, prog X → Prop) : Prop :=
  match p with
  | PStart q => Φ _ q
  | PInline q => Φ _ q
  | PDeadline _ q => Φ _ q
  | PTry _ _ q => Φ _ q
  | PRetry _ _ _ q => Φ _ q
  | _ => False
  end.

Definition worker_runs (k : worker) (Φ : ∀ X, prog X → Prop) : Prop :=
  match wk_phase k with WSend q => Φ _ q | WRelease q => Φ _ q | _ => False end.

(** Some goroutine is in a program that satisfies [Φ]. *)
Definition pipe_runs (C : Pipe) (Φ : ∀ X, prog X → Prop) : Prop :=
  parent_runs (p_parent C) Φ ∨ ∃ k, k ∈ p_workers C ∧ worker_runs k Φ.

(** [Send] will still look at [errChan], or has taken an error. *)
Definition will_fail (c : Chans) (p : parent) : Prop :=
  match p with PReturn _ => False | _ => errChan c ≠ None end ∨ failing p = true.

Section correctness.
Context (g : DirectGuest) (fuel : nat) (timeout R : Z) (S : GoStreamSender).
Context (id : Z) (data : list byte) (s0 : Outbox).
Context (Hg : guest_ok g) (HR : 24 < R < 2 ^ 31).
Context (HU : Forall (λ c, (gs_reqBuffer c).2 = R) (dg_slots g)).
Context (Hsize : data_size data <= MaxStreamSize).
Context (Hs0 : areas R s0) (Hs0' : o_sent s0 = []) (HS : 1 <= gss_maxInFlight S).

Local Abbreviation P := (R - 24).
Local Abbreviation n := (chunk_count P data).
Local Abbreviation start := (start_message P id (gss_appMsgType S) data).
Local Abbreviation chunk := (chunk_message P id data).
Local Abbreviation msgs := (stream_messages P id (gss_appMsgType S) data).

(** The loop is at chunk [nk], and so many goroutines were started. *)
Definition at_cursor (u : Cursor) (nk : nat) : Prop :=
  cu_maxPayload u = P ∧ cu_idx u = Z.of_nat nk ∧ cu_idx u <= n ∧
  cu_offset u = Z.min (data_size data) (cu_idx u * P).

Definition acquired (r : GuestError + GuestSlot) : Prop :=
  ∀ h, r = inr h → ∃ i c, h = fresh i ∧ dg_slots g !! i = Some c.

Definition parent_ok (p : parent) (s : Outbox) (nk : nat) : Prop :=
  match p with
  | PStart p => nk = 0%nat ∧ follows g [start] p s (λ r s',
      ∀ q, r = inr q → q = P ∧ areas R s' ∧ o_sent s' = [start])
  | PInline p => nk = 0%nat ∧ follows g msgs p s (λ r s', r = None → o_sent s' = msgs)
  | PTop u => o_sent s = [start] ∧ at_cursor u nk
  | PToken u | PAdd u | PAbort u _ _ => o_sent s = [start] ∧ at_cursor u nk ∧ cu_idx u < n
  | PDeadline u p => o_sent s = [start] ∧ at_cursor u nk ∧ cu_idx u < n ∧ quiet g p (λ _, True)
  | PTry u _ p => o_sent s = [start] ∧ at_cursor u nk ∧ cu_idx u < n ∧ quiet g p acquired
  | PRetry u _ _ p => o_sent s = [start] ∧ at_cursor u nk ∧ cu_idx u < n ∧ quiet g p (λ _, True)
  | PUntoken _ | PUnadd _ | PWait (Some _) => o_sent s = [start]
  | PWait None | PFinal => o_sent s = [start] ∧ Z.of_nat nk = n
  | PReturn r => o_sent s `prefix_of` msgs ∧ (nk ≠ 0%nat → o_sent s = [start]) ∧
      (r = None → o_sent s = msgs ∧ nk = 0%nat ∨ o_sent s = [start] ∧ Z.of_nat nk = n)
  end.

Definition worker_ok (j : nat) (k : worker) : Prop :=
  let sent := o_sent (wk_out k) = [chunk (Z.of_nat j)] in
  match wk_phase k with
  | WSend p => wk_err k = None ∧ follows g [chunk (Z.of_nat j)] p (wk_out k) (λ r s',
      gh_ok g r.2 ∧ o_sent s' = [chunk (Z.of_nat j)])
  | WReport e h => gh_ok g h ∧ sent
  | WRelease p => quiet g p (λ _, True) ∧ sent
  | _ => sent
  end.

(** A goroutine failed and has said so. *)
Definition reported (k : worker) : bool :=
  match wk_phase k, wk_err k with
  | WReport _ _, _ | _, None => false
  | _, Some _ => true
  end.

Record pipe_inv (C : Pipe) : Prop := {
  pi_world : world_ok (guest_alloc g) (p_world C);
  pi_sem : sem (p_chans C) =
    Z.of_nat (parent_token (p_parent C) + sum_list_with worker_token (p_workers C));
  pi_bound : sem (p_chans C) <= gss_maxInFlight S;
  pi_wg : wg (p_chans C) =
    Z.of_nat (parent_wg (p_parent C) + sum_list_with worker_wg (p_workers C));
  pi_parent : parent_ok (p_parent C) (p_out C) (length (p_workers C));
  pi_count : Z.of_nat (length (p_workers C)) <= n;
  pi_workers : ∀ j k, p_workers C !! j = Some k → worker_ok j k;
  pi_log : ∃ l, p_log C = o_sent (p_out C) ++ l ∧
    l ≡ₚ concat (map (o_sent ∘ wk_out) (p_workers C));
  pi_err : ∀ k, k ∈ p_workers C → reported k = true →
    will_fail (p_chans C) (p_parent C);
  pi_settled : settled (p_parent C) = true → sum_list_with worker_wg (p_workers C) = 0%nat }.

(** *** The goroutine of [Send] *)

Local Abbreviation pstep := (parent_step g fuel timeout S data id s0).
Local Abbreviation wstep := worker_step.

Lemma quiet_AcquireGuestSlot : quiet g (AcquireGuestSlot g) acquired.
Proof using Hg.
  split; [|apply unsent_AcquireGuestSlot].
  eapply within_mono, safe_AcquireGuestSlot; [|done]. intros r Hr h ->.
  destruct (Hr h eq_refl) as [Hok [i ->]]. destruct (Hok i eq_refl) as [c Hc]. by exists i, c.
Qed.

Lemma quiet_clock : quiet g (call SteadyNow) (λ _, True).
Proof. split; [by apply within_call|]. unsent_walk. Qed.

Lemma quiet_pause d : quiet g (acquire_pause d) (λ _, True).
Proof. split; unfold acquire_pause; [safe_walk|unsent_walk]. Qed.

Lemma start_follows :
  follows g [start] (sendStart g fuel timeout data id (gss_appMsgType S)) s0 (λ r s',
    ∀ q, r = inr q → q = P ∧ areas R s' ∧ o_sent s' = [start]).
Proof using Hg HR HU Hsize Hs0 Hs0'.
  split; [|split; [by apply safe_sendStart|rewrite Hs0'; apply prefix_nil]].
  eapply obeys_mono, sendStart_sends; [|done..|by rewrite Hs0'].
  intros r s' H q Hq. destruct (H q Hq) as [-> [Ha Hs]]. by rewrite Hs, Hs0'.
Qed.

Lemma chunk_worker_ok u i c nk :
  at_cursor u nk → cu_idx u < n → dg_slots g !! i = Some c →
  worker_ok nk (chunk_worker g fuel timeout data id s0 u (fresh i)).
Proof using Hg HR HU Hsize Hs0 Hs0'.
  intros (HP&Hk&_&Ho) Hlt Hc. pose proof (ceiling data Hsize). pose proof (data_bound data ltac:(done)).
  pose proof (proj1 (chunk_count_spec P data ltac:(lia) (cu_idx u) ltac:(lia)) Hlt).
  assert (cu_offset u = cu_idx u * P) as Hoff by lia.
  destruct (cut_chunk R HR data (cu_idx u) ltac:(lia)) as [Hcut _].
  unfold chunk_worker, worker_ok, chunk_end. cbn [wk_phase wk_err wk_out]. split; [done|].
  rewrite Hoff, HP. cbv zeta in Hcut. change (data_len data) with (data_size data).
  rewrite Hcut, Hk in *. split; [|split; [|rewrite Hs0'; apply prefix_nil]].
  - eapply obeys_mono, (sendChunk_publishes g fuel timeout R Hg HR HU id data Hsize);
      [|done|lia|done|by rewrite Hs0'].
    intros r s' [Hok [_ Hs]]. by rewrite Hs, Hs0'.
  - eapply within_mono, safe_sendChunk; [done|done|]. by eapply gh_ok_fresh.
Qed.

Lemma next_cursor u nk :
  at_cursor u nk → cu_idx u < n →
  at_cursor (mkCursor (cu_maxPayload u) (chunk_end data u) (u32 (cu_idx u + 1))) (nk + 1).
Proof using HR Hsize.
  intros (HP&Hk&_&Ho) Hlt. pose proof (count_bound R HR data (ceiling data Hsize)).
  pose proof (proj1 (chunk_count_spec P data ltac:(lia) (cu_idx u) ltac:(lia)) Hlt).
  unfold at_cursor, chunk_end. cbn [cu_maxPayload cu_idx cu_offset].
  rewrite u32_id by lia. change (data_len data) with (data_size data).
  split_and!; [done|lia|lia|]. rewrite HP. destruct (Z.ltb_spec (data_size data) (cu_offset u + P)); lia.
Qed.

(** A program inside a phase: either it has returned, or the step is one of its. *)
Lemma running_inv {X} (p : prog X) (K : prog X → parent) x w s (c c' : Chans) w' s' p' ks :
  (advance x w s p ≫= λ '(w', s', p'), Some (w', s', c, K p', [] : list worker)) =
    Some (w', s', c', p', ks) →
  ∃ q, advance x w s p = Some (w', s', q) ∧ p' = K q ∧ c' = c ∧ ks = [].
Proof. destruct (advance x w s p) as [[[??] q]|]; intros [=]; subst. by exists q. Qed.

(** What a step of the goroutine of [Send] keeps, in a world that is well-formed. *)
Definition parent_kept (w : World) (s s' : Outbox) (p' : parent) (ks : list worker) (nk : nat) : Prop :=
  world_ok (guest_alloc g) w ∧ parent_ok p' s' (nk + length ks) ∧
  o_sent s `prefix_of` o_sent s' ∧ (s' = s ∨ nk = 0%nat ∧ ks = []) ∧
  match ks with
  | [] => True
  | [k] => worker_ok nk k ∧ wk_out k = s0 ∧ Z.of_nat nk < n ∧ reported k = false ∧
      worker_token k = 1%nat ∧ worker_wg k = 1%nat
  | _ => False
  end.

Lemma kept_same w s p' nk :
  world_ok (guest_alloc g) w → parent_ok p' s nk → parent_kept w s s p' [] nk.
Proof. intros. unfold parent_kept. cbn. rewrite Nat.add_0_r. by split_and!; [..|left|]. Qed.

Lemma kept_follows {X} ms (p : prog X) Q K x w s w' s' q nk :
  (∀ q s, nk = 0%nat ∧ follows g ms q s Q → parent_ok (K q) s nk) →
  world_ok (guest_alloc g) w → nk = 0%nat ∧ follows g ms p s Q →
  advance x w s p = Some (w', s', q) → parent_kept w' s s' (K q) [] nk.
Proof.
  intros HK Hw [Hn Hf] Ha. unfold parent_kept. cbn. rewrite Nat.add_0_r. split_and!.
  - by eapply advance_world.
  - apply HK. split; [done|]. by eapply advance_follows.
  - by eapply advance_sent.
  - by right.
  - done.
Qed.

Lemma kept_quiet {X} (p : prog X) (Q : X → Prop) K u x w s w' s' q nk :
  (∀ q s, o_sent s = [start] ∧ at_cursor u nk ∧ cu_idx u < n ∧ quiet g q Q → parent_ok (K q) s nk) →
  world_ok (guest_alloc g) w →
  o_sent s = [start] ∧ at_cursor u nk ∧ cu_idx u < n ∧ quiet g p Q →
  advance x w s p = Some (w', s', q) → parent_kept w' s s' (K q) [] nk.
Proof.
  intros HK Hw (Hs&Hu&Hlt&Hq) Ha. destruct (advance_quiet _ _ _ _ _ _ _ _ _ Ha Hq) as [Hq' ->].
  apply kept_same; [by eapply advance_world|]. by apply HK.
Qed.

Lemma start_returned nk s maxPayload :
  parent_ok (PStart (Ret (inr maxPayload))) s nk →
  parent_ok (if (length data =? 0)%nat then PReturn None
             else if gss_maxInFlight S =? 1
             then PInline (sendChunksInline g fuel timeout data id maxPayload)
             else PTop (mkCursor maxPayload 0 0)) s nk.
Proof using Hg HR HU Hsize.
  intros [-> [H _]]. destruct (H _ eq_refl) as (->&Ha&Hs). pose proof (chunk_count_nonneg P data ltac:(lia)).
  assert ([start] `prefix_of` msgs) by apply prefix_cons, prefix_nil.
  destruct (Nat.eqb_spec (length data) 0) as [E|E].
  - split_and!; [by rewrite Hs|done|]. intros _. left. rewrite Hs. split; [|done].
    unfold stream_messages. rewrite chunk_count_zero; [done|lia|unfold data_size; lia].
  - destruct (_ =? 1).
    + split; [done|]. split; [|split; [by apply safe_sendChunksInline|by rewrite Hs]].
      apply sendChunksInline_sends; [done..|]. by split.
    + split; [done|]. unfold at_cursor. cbn. unfold data_size. lia.
Qed.

Ltac goto := intros [= <- <- <- <- <-]; apply kept_same; [done|].
Ltac running lem := intros (q&Ha&->&->&->)%running_inv; eapply lem; [|done|eassumption|exact Ha]; done.

Lemma parent_step_kept x w s c p w' s' c' p' ks nk :
  pstep x w s c p = Some (w', s', c', p', ks) →
  world_ok (guest_alloc g) w → parent_ok p s nk → parent_kept w' s s' p' ks nk.
Proof using Hg HR HU Hsize Hs0 Hs0'.
  intros H Hw Hp. revert H. destruct p as [p|p|u|u|u|u p|u d p|u d e|u d e p|e|e|r| |r]; cbn [parent_step].
  - destruct p as [[e|m]| | |]; [goto|goto|running @kept_follows..].
    + destruct Hp as [-> (_&_&Hp)]. split_and!; [|done..]. etrans; [exact Hp|]. apply prefix_cons, prefix_nil.
    + by apply start_returned.
  - destruct p as [r| | |]; [goto|running @kept_follows..].
    destruct Hp as [-> (Hq&_&Hp)]. split_and!; [done..|]. intros ->. left. by split; [apply Hq|].
  - destruct Hp as [Hs Hu]. destruct (Z.ltb_spec (cu_offset u) (data_len data)) as [Hlt|Hge].
    + destruct (errChan c); goto; [done|]. split_and!; [done..|]. apply chunk_count_spec; [lia|..];
        destruct Hu as (_&Hk&_&Ho); unfold data_len, data_size in *; lia.
    + goto. split; [done|]. destruct Hu as (HP&Hk&Hn&Ho).
      pose proof (proj1 (chunk_count_spec P data ltac:(lia) (cu_idx u) ltac:(lia))).
      unfold data_len, data_size in *. lia.
  - destruct (_ <? _); [|done]. by goto.
  - goto. destruct Hp as (Hs&Hu&Hlt). split_and!; [done..|]. apply quiet_clock.
  - destruct p as [st| | |]; [goto|running @kept_quiet..].
    destruct Hp as (Hs&Hu&Hlt&_). split_and!; [done..|]. apply quiet_AcquireGuestSlot.
  - destruct p as [[e|h]| | |]; [goto| |running @kept_quiet..].
    + by destruct Hp as (Hs&Hu&Hlt&_).
    + intros [= <- <- <- <- <-]. destruct Hp as (Hs&Hu&Hlt&[Hq _]).
      destruct (Hq h eq_refl) as (i&sc&->&Hsc). unfold parent_kept. cbn [length].
      split; [done|]. split; [by split; [|apply next_cursor]|]. split; [done|]. split; [by left|].
      split; [by eapply chunk_worker_ok|]. destruct Hu as (_&Hk&_). by rewrite <- Hk.
  - destruct Hp as (Hs&Hu&Hlt). destruct (errChan c); goto; [done|]. split_and!; [done..|].
    apply quiet_pause.
  - destruct p as [[|]| | |]; [goto|goto|running @kept_quiet..]; destruct Hp as (Hs&Hu&Hlt&_); [done|].
    split_and!; [done..|]. apply quiet_AcquireGuestSlot.
  - destruct (_ <? _); [|done]. by goto.
  - by goto.
  - assert ([start] `prefix_of` msgs) by apply prefix_cons, prefix_nil.
    destruct (_ =? 0); [|done]. destruct r as [e|]; goto; [|done]. cbn in Hp |- *. by rewrite Hp.
  - goto. destruct Hp as [Hs Hn]. cbn. rewrite Hs. split_and!; [apply prefix_cons, prefix_nil|done|]. by right.
  - done.
Qed.

(** Tokens, the [WaitGroup] and the error channel. *)
Lemma parent_step_counts x w s c p w' s' c' p' ks nk :
  pstep x w s c p = Some (w', s', c', p', ks) → parent_ok p s nk →
  sem c' + Z.of_nat (parent_token p) =
    sem c + Z.of_nat (parent_token p' + sum_list_with worker_token ks) ∧
  wg c' + Z.of_nat (parent_wg p) =
    wg c + Z.of_nat (parent_wg p' + sum_list_with worker_wg ks) ∧
  (sem c <= gss_maxInFlight S → sem c' <= gss_maxInFlight S) ∧
  (nk ≠ 0%nat → will_fail c p → will_fail c' p') ∧
  (settled p' = true → ks = [] ∧ (nk = 0%nat ∨ settled p = true ∨ wg c = 0 ∧ parent_wg p = 0%nat)).
Proof using HR.
  intros H Hp. revert H.
  destruct p as [p|p|u|u|u|u p|u d p|u d e|u d e p|e|e|r| |r]; cbn [parent_step];
    repeat case_match; simplify_eq;
    try (intros (q&_&->&->&->)%running_inv); try (intros [= <- <- <- <- <-]); try done;
    unfold will_fail; cbn in Hp |- *; try (rewrite ?Z.eqb_eq, ?Z.ltb_lt in *; naive_solver lia).
  destruct (errChan c); naive_solver lia.
Qed.

(** *** The goroutine of a chunk *)

Lemma worker_step_ok x w c k w' c' k' j :
  wstep x w c k = Some (w', c', k') → world_ok (guest_alloc g) w → worker_ok j k →
  world_ok (guest_alloc g) w' ∧ worker_ok j k' ∧
  o_sent (wk_out k) `prefix_of` o_sent (wk_out k').
Proof using Hg.
  intros H Hw Hk. destruct k as [ph out err]. unfold worker_ok in *.
  unfold worker_step in H. cbn [wk_phase wk_out wk_err] in *.
  assert (Hrel : ∀ h, gh_ok g h → quiet g (gh_Release h) (λ _, True)).
  { intros h Hh. split; [by apply safe_gh_Release|apply unsent_gh_Release]. }
  destruct ph as [p|e h|p| | |].
  - destruct Hk as [-> Hf]. destruct p as [[[e|] h]|Y o q| |].
    + simplify_eq. destruct Hf as [[? Hs] _]. cbn. by split_and!.
    + simplify_eq. destruct Hf as [[? Hs] _]. cbn. split_and!; auto.
    + destruct (advance _ _ _ _) as [[[w1 s1] p1]|] eqn:Ha; [|done].
      injection H as <- <- <-. cbn [wk_phase wk_out wk_err].
      split_and!; [by eapply advance_world|done|by eapply advance_follows|by eapply advance_sent].
    + done.
    + done.
  - simplify_eq. destruct Hk. cbn. split_and!; auto.
  - destruct Hk as [Hq Hs]. destruct p as [h|Y o q| |]; [by simplify_eq| |done..].
    destruct (advance _ _ _ _) as [[[w1 s1] p1]|] eqn:Ha; [|done].
    injection H as <- <- <-. cbn [wk_phase wk_out wk_err].
    destruct (advance_quiet _ _ _ _ _ _ _ _ _ Ha Hq) as [Hq' ->].
    split_and!; [by eapply advance_world|done..].
  - destruct (_ <? _); by simplify_eq.
  - by simplify_eq.
  - done.
Qed.

Lemma worker_step_counts x w c k w' c' k' j :
  wstep x w c k = Some (w', c', k') → worker_ok j k →
  sem c' + Z.of_nat (worker_token k) = sem c + Z.of_nat (worker_token k') ∧
  wg c' + Z.of_nat (worker_wg k) = wg c + Z.of_nat (worker_wg k') ∧
  worker_wg k = 1%nat ∧ (sem c' <= sem c) ∧
  (errChan c ≠ None → errChan c' ≠ None) ∧
  (reported k' = true → reported k = true ∨ errChan c' ≠ None).
Proof using HR.
  destruct k as [ph out err]. unfold worker_step, worker_ok, worker_token, worker_wg, reported.
  cbn [wk_phase wk_out wk_err]. intros H Hk.
  destruct ph as [p|e h|p| | |]; repeat case_match; simplify_option_eq; cbn in *;
    repeat case_match; simplify_eq/=; naive_solver lia.
Qed.

(** *** Steps keep the invariant *)

Lemma parent_pi x C C' :
  pipe_do g fuel timeout S data id s0 None x C = Some C' → pipe_inv C → pipe_inv C'.
Proof using Hg HR HU Hsize Hs0 Hs0' HS.
  intros H [Hw Hsem Hb Hwg Hp Hn Hk (l&Hl&Hperm) Herr Hset]. unfold pipe_do in H.
  destruct (pstep _ _ _ _ _) as [[[[[w' s'] c'] p'] ks]|] eqn:Hs; [|done]. injection H as <-.
  destruct (parent_step_kept _ _ _ _ _ _ _ _ _ _ _ Hs Hw Hp) as (Hw'&Hp'&Hpre&Hsame&Hks).
  destruct (parent_step_counts _ _ _ _ _ _ _ _ _ _ _ Hs Hp) as (Hc1&Hc2&Hc3&Hc4&Hc5).
  split; cbn [p_world p_chans p_parent p_out p_workers p_log].
  - done.
  - rewrite sum_list_with_app. lia.
  - auto.
  - rewrite sum_list_with_app. lia.
  - by rewrite length_app.
  - rewrite length_app. destruct ks as [|k [|]]; [cbn; lia| |done]. cbn. lia.
  - intros j k. rewrite lookup_app_Some. intros [Hj|[Hge Hj]]; [by apply Hk|].
    destruct ks as [|k' [|]]; [done| |done]. apply list_lookup_singleton_Some in Hj as [Hj <-].
    by replace j with (length (p_workers C)) by lia; destruct Hks.
  - assert (concat (map (o_sent ∘ wk_out) ks) = []) as Hnew.
    { destruct ks as [|k [|]]; [done| |done]. cbn. destruct Hks as (_&->&_). by rewrite Hs0'. }
    rewrite map_app, concat_app, Hnew, app_nil_r, Hl.
    destruct Hsame as [->|[E ->]].
    + exists l. unfold published_by. by rewrite drop_all, app_nil_r.
    + apply length_zero_iff_nil in E. rewrite E in Hperm |- *. apply Permutation_nil_r in Hperm as ->.
      exists []. by rewrite !app_nil_r, <- sent_published.
  - intros k [Hin|Hin]%elem_of_app Hr; [|].
    { apply Hc4; [|by eauto]. intros E%length_zero_iff_nil. rewrite E in Hin. set_solver. }
    destruct ks as [|k' [|]]; [by set_solver| |done].
    apply list_elem_of_singleton in Hin as ->. destruct Hks as (_&_&_&Hr'&_). congruence.
  - intros [-> Hz]%Hc5. rewrite app_nil_r. destruct Hz as [E|[E|E]]; [|auto|lia].
    by apply length_zero_iff_nil in E as ->.
Qed.

Lemma concat_insert {X Y} (f : X → list Y) l j a b d :
  l !! j = Some a → f b = f a ++ d → concat (map f (<[j := b]> l)) ≡ₚ concat (map f l) ++ d.
Proof.
  revert j. induction l as [|y l IH]; intros [|j]; simpl; [done..| |].
  - intros [= ->] ->. by rewrite <- !app_assoc, (Permutation_app_comm d).
  - intros Hj Hb. by rewrite <- app_assoc, (IH j Hj Hb).
Qed.

Lemma worker_pi j x C C' :
  pipe_do g fuel timeout S data id s0 (Some j) x C = Some C' → pipe_inv C → pipe_inv C'.
Proof using Hg HR HS.
  intros H [Hw Hsem Hb Hwg Hp Hn Hk (l&Hl&Hperm) Herr Hset]. unfold pipe_do in H.
  destruct (p_workers C !! j) as [k|] eqn:Hj; [|done]. cbn [mbind option_bind] in H.
  destruct (wstep _ _ _ _) as [[[w' c'] k']|] eqn:Hs; [|done]. injection H as <-.
  pose proof (Hk j k Hj) as Hkj. destruct (worker_step_ok _ _ _ _ _ _ _ _ Hs Hw Hkj) as (Hw'&Hk'&Hpre).
  destruct (worker_step_counts _ _ _ _ _ _ _ _ Hs Hkj) as (Hc1&Hc2&Hc3&Hc4&Hc5&Hc6).
  pose proof (sum_insert worker_token _ j k k' Hj). pose proof (sum_insert worker_wg _ j k k' Hj).
  assert (will_fail (p_chans C) (p_parent C) → will_fail c' (p_parent C)) as Hmono.
  { unfold will_fail. destruct (p_parent C); naive_solver. }
  pose proof (sum_lookup worker_wg _ j k Hj).
  split; cbn [p_world p_chans p_parent p_out p_workers p_log]; rewrite ?length_insert.
  - done.
  - lia.
  - lia.
  - lia.
  - done.
  - done.
  - intros i ki. rewrite list_lookup_insert_Some. intros [(<-&<-&_)|[_ Hi]]; [done|by apply Hk].
  - exists (l ++ published_by (wk_out k) (wk_out k')). rewrite Hl, app_assoc. split; [done|].
    rewrite Hperm. symmetry. apply (concat_insert (o_sent ∘ wk_out) _ _ k); [done|].
    by apply sent_published.
  - intros ki [i Hi]%list_elem_of_lookup Hr. apply list_lookup_insert_Some in Hi as [(<-&<-&_)|[_ Hi]].
    + destruct (Hc6 Hr) as [Hr'|He]; [apply Hmono, (Herr k); [by eapply list_elem_of_lookup_2|done]|].
      left. destruct (p_parent C); try done. specialize (Hset eq_refl). lia.
    + apply Hmono, (Herr ki); [by eapply list_elem_of_lookup_2|done].
  - intros Hst. specialize (Hset Hst). lia.
Qed.

Lemma pipe_inv_step C C' :
  pipe_step g fuel timeout S data id s0 any_guest C C' → pipe_inv C → pipe_inv C'.
Proof using Hg HR HU Hsize Hs0 Hs0' HS.
  intros [[j|] x P P' H|P w He]; [by eapply worker_pi|by eapply parent_pi|].
  intros [Hw Hsem Hb Hwg Hp Hn Hk Hl Herr Hset]. split; try done.
  intros i si Hs. cbn. rewrite !He. by apply Hw.
Qed.

Lemma pipe_inv_init w :
  world_ok (guest_alloc g) w → pipe_inv (pipe_init g fuel timeout S data id s0 w).
Proof using Hg HR HU Hsize Hs0 Hs0' HS.
  intros Hw. pose proof (chunk_count_nonneg P data ltac:(lia)). split; cbn; try done; [lia|..].
  - split; [done|]. apply start_follows.
  - exists []. by rewrite Hs0'.
  - intros k []%elem_of_nil.
Qed.

Lemma pipe_inv_reach w C :
  world_ok (guest_alloc g) w →
  rtc (pipe_step g fuel timeout S data id s0 any_guest) (pipe_init g fuel timeout S data id s0 w) C →
  pipe_inv C.
Proof using Hg HR HU Hsize Hs0 Hs0' HS.
  intros Hw Hr. pose proof (pipe_inv_init w Hw) as Hi. revert Hi.
  induction Hr as [|C1 C2 C3 H12 _ IH]; [done|]. intros Hi. apply IH. by eapply pipe_inv_step.
Qed.

(** *** What the invariant gives *)

(** The header, and some chunks, none of them twice. *)
Definition distinct_chunks (log : list message) : Prop :=
  log = [] ∨ ∃ ks, log = start :: map chunk ks ∧ NoDup ks ∧ Forall (λ k, 0 <= k < n) ks.

(** The header, and all chunks, in some order. *)
Definition all_chunks (log : list message) : Prop :=
  ∃ ks, log = start :: map chunk ks ∧ ks ≡ₚ seqZ 0 n.

Lemma worker_prefix j k : worker_ok j k → o_sent (wk_out k) `prefix_of` [chunk (Z.of_nat j)].
Proof.
  unfold worker_ok. destruct (wk_phase k); [by intros [_ (_&_&?)]| | |by intros ->..]; by intros [_ ->].
Qed.

Lemma workers_sent ks : ∀ b,
  (∀ j k, ks !! j = Some k → o_sent (wk_out k) `prefix_of` [chunk (b + Z.of_nat j)]) →
  ∃ js, concat (map (o_sent ∘ wk_out) ks) = map chunk js ∧
    js `sublist_of` seqZ b (Z.of_nat (length ks)).
Proof.
  induction ks as [|k ks IH]; intros b Hk; [by exists []|].
  destruct (IH (b + 1)) as (js&Hjs&Hsub).
  { intros j k' Hj. replace (b + 1 + Z.of_nat j) with (b + Z.of_nat (Datatypes.S j)) by lia.
    by apply Hk. }
  pose proof (Hk 0%nat k eq_refl) as H0. cbn [map concat length compose]. rewrite Z.add_0_r in H0.
  rewrite Nat2Z.inj_succ, Hjs, (seqZ_cons b) by lia. replace (Z.pred (Z.succ _)) with (Z.of_nat (length ks)) by lia.
  destruct (o_sent (wk_out k)) as [|m l] eqn:E.
  - exists js. split; [done|]. by apply sublist_cons.
  - destruct l; [|by apply prefix_length in H0; cbn in H0; lia].
    apply prefix_cons_inv_1 in H0 as ->. exists (b :: js). split; [done|].
    by apply sublist_skip.
Qed.

Lemma prefix_map_inv {X Y} (f : X → Y) l xs :
  l `prefix_of` map f xs → ∃ ys, l = map f ys ∧ ys `sublist_of` xs.
Proof.
  intros [r Hr]. exists (take (length l) xs). split; [|apply sublist_take].
  change (map f (take ?m xs)) with (f <$> take m xs). rewrite fmap_take.
  change (f <$> xs) with (map f xs). by rewrite Hr, take_app_length.
Qed.

Lemma sublist_distinct l m :
  l `sublist_of` seqZ 0 m → m <= n → NoDup l ∧ Forall (λ k, 0 <= k < n) l.
Proof.
  intros Hs Hm. split; [eapply sublist_NoDup, Hs; apply NoDup_seqZ|].
  apply Forall_forall. intros k Hk. pose proof (elem_of_sublist _ _ _ Hk Hs) as Hin.
  apply elem_of_seqZ in Hin. lia.
Qed.

Lemma prefix_distinct l : l `prefix_of` msgs → distinct_chunks l.
Proof.
  intros Hl. destruct l as [|m l]; [by left|]. right.
  pose proof (prefix_cons_inv_1 _ _ _ _ Hl) as ->. apply prefix_cons_inv_2 in Hl.
  apply prefix_map_inv in Hl as (ks&->&Hks). exists ks. split; [done|]. by eapply sublist_distinct.
Qed.

Lemma workers_distinct C l :
  pipe_inv C → l ≡ₚ concat (map (o_sent ∘ wk_out) (p_workers C)) → distinct_chunks (start :: l).
Proof.
  intros Hi Hl. destruct (workers_sent (p_workers C) 0) as (js&Hjs&Hsub).
  { intros j k Hj. by apply worker_prefix, (pi_workers _ Hi). }
  rewrite Hjs in Hl. apply Permutation_map_inv in Hl as (ks&->&Hp). right. exists ks. split; [done|].
  destruct (sublist_distinct _ _ Hsub (pi_count _ Hi)). by rewrite <- Hp.
Qed.

Lemma inv_log C : pipe_inv C → distinct_chunks (p_log C).
Proof.
  intros Hi. destruct (pi_log _ Hi) as (l&->&Hl). pose proof (workers_distinct C l Hi Hl) as Hd.
  pose proof (pi_parent _ Hi) as Hp.
  assert (length (p_workers C) = 0%nat → l = []) as H0.
  { intros E%length_zero_iff_nil. rewrite E in Hl. by apply Permutation_nil_r in Hl. }
  destruct (p_parent C) as [p|p|u|u|u|u p|u d p|u d e|u d e p|e|e|[e|]| |r]; cbn in Hp;
    first [rewrite Hp; exact Hd|destruct Hp as [-> _]; exact Hd|idtac].
  - destruct Hp as [E (_&_&Hp)]. rewrite (H0 E), app_nil_r. apply prefix_distinct.
    etrans; [exact Hp|]. apply prefix_cons, prefix_nil.
  - destruct Hp as [E (_&_&Hp)]. rewrite (H0 E), app_nil_r. by apply prefix_distinct.
  - destruct Hp as (Hp&Hne&_). destruct (decide (length (p_workers C) = 0%nat)) as [E|E].
    + rewrite (H0 E), app_nil_r. by apply prefix_distinct.
    + rewrite (Hne E). exact Hd.
Qed.

Lemma exited ks k : sum_list_with worker_wg ks = 0%nat → k ∈ ks → wk_phase k = WExit.
Proof.
  induction ks as [|k' ks IH]; simpl; [by intros _ ?%not_elem_of_nil|].
  intros Hz [->|Hk]%elem_of_cons; [|apply IH; [lia|done]].
  unfold worker_wg in Hz. destruct (wk_phase k'); [cbn in Hz; lia..|done].
Qed.

Lemma inv_drained C r :
  pipe_inv C → p_parent C = PReturn r → Forall (λ k, wk_phase k = WExit) (p_workers C).
Proof.
  intros Hi Hr. apply Forall_forall. intros k. apply exited, (pi_settled _ Hi). by rewrite Hr.
Qed.

(** Goroutines that have ended have sent their chunks. *)
Lemma exited_sent ks : ∀ b,
  (∀ j k, ks !! j = Some k → o_sent (wk_out k) = [chunk (b + Z.of_nat j)]) →
  concat (map (o_sent ∘ wk_out) ks) = map chunk (seqZ b (Z.of_nat (length ks))).
Proof.
  induction ks as [|k ks IH]; intros b Hk; [done|]. cbn [map concat length compose].
  rewrite Nat2Z.inj_succ, (seqZ_cons b), Z.pred_succ by lia. cbn [map].
  pose proof (Hk 0%nat k eq_refl) as H0. rewrite Z.add_0_r in H0. rewrite H0. cbn [app]. f_equal.
  apply IH. intros j k' Hj.
  replace (Z.succ b + Z.of_nat j) with (b + Z.of_nat (Datatypes.S j)) by lia. by apply Hk.
Qed.

Lemma inv_success C :
  pipe_inv C → p_parent C = PReturn None →
  all_chunks (p_log C) ∧ Forall (λ k, wk_err k = None) (p_workers C).
Proof.
  intros Hi Hr. pose proof (inv_drained C None Hi Hr) as Hd. rewrite Forall_forall in Hd.
  pose proof (pi_parent _ Hi) as Hp. rewrite Hr in Hp. destruct Hp as (_&_&Hp). specialize (Hp eq_refl).
  destruct (pi_log _ Hi) as (l&->&Hl). split.
  - destruct Hp as [[-> E%length_zero_iff_nil]|[-> E]].
    + rewrite E in Hl. apply Permutation_nil_r in Hl as ->. rewrite app_nil_r. by eexists.
    + rewrite (exited_sent _ 0), E in Hl.
      * apply Permutation_map_inv in Hl as (ks&->&Hks). by exists ks.
      * intros j k Hj. pose proof (pi_workers _ Hi j k Hj) as Hk. unfold worker_ok in Hk.
        rewrite (Hd k) in Hk by (by eapply list_elem_of_lookup_2). exact Hk.
  - apply Forall_forall. intros k Hk. destruct (wk_err k) eqn:E; [exfalso|done].
    assert (reported k = true) as Hrep by (unfold reported; by rewrite E, (Hd k Hk)).
    pose proof (pi_err _ Hi k Hk Hrep) as He. rewrite Hr in He. by destruct He.
Qed.

Lemma safe_not_faulty {X} w (q : prog X) (Q : X → Prop) :
  world_ok (guest_alloc g) w → safe (guest_alloc g) q Q → ¬ faulty w q.
Proof.
  intros Hw Hs Hf. destruct Hf as [|Y o k x Hx]; [done|]. specialize (Hs (some_answer o)).
  unfold only in Hs. destruct (safe_ops (guest_alloc g) Y o) eqn:Ho; [|done].
  by destruct (safe_op_defined (guest_alloc g) w Y o x).
Qed.

Lemma inv_no_panic C : pipe_inv C → ¬ pipe_runs C (λ X q, faulty (p_world C) q).
Proof.
  intros Hi [Hp|(k&[j Hj]%list_elem_of_lookup&Hk)].
  - pose proof (pi_parent _ Hi) as Ho.
    destruct (p_parent C) as [p|p|u|u|u|u p|u d p|u d e|u d e p|e|e|r| |r]; cbn in Hp, Ho; try done;
      (eapply safe_not_faulty; [apply (pi_world _ Hi)| |exact Hp]).
    + exact (proj1 (proj2 (proj2 Ho))).
    + exact (proj1 (proj2 (proj2 Ho))).
    + exact (proj1 (proj2 (proj2 (proj2 Ho)))).
    + exact (proj1 (proj2 (proj2 (proj2 Ho)))).
    + exact (proj1 (proj2 (proj2 (proj2 Ho)))).
  - pose proof (pi_workers _ Hi j k Hj) as Ho. unfold worker_runs, worker_ok in *.
    destruct (wk_phase k); try done; (eapply safe_not_faulty; [apply (pi_world _ Hi)| |exact Hk]).
    + exact (proj1 (proj2 (proj2 Ho))).
    + exact (proj1 (proj1 Ho)).
Qed.

(** A program that has not ended takes a step, or is out of fuel. *)
Lemma live_prog {X} w s (q : prog X) (Q : X → Prop) :
  world_ok (guest_alloc g) w → safe (guest_alloc g) q Q →
  match q with
  | Ret _ | Diverge => True
  | _ => ∃ x w' s' q', advance x w s q = Some (w', s', q')
  end.
Proof.
  intros Hw Hs. destruct q as [a|Y o k| |] eqn:E; [done| |done|by destruct Hs].
  destruct (advance_some g w s (Do o k) Q Hw Hs) as [[a [=]]|(x&[[w' s'] q']&Hr)]; [done|].
  by exists x, w', s', q'.
Qed.

Lemma worker_live w c j k :
  world_ok (guest_alloc g) w → worker_ok j k → wk_phase k ≠ WExit →
  (worker_token k = 1%nat → 0 < sem c) →
  worker_runs k (λ _ q, q = Diverge) ∨ ∃ x r, wstep x w c k = Some r.
Proof.
  intros Hw Ho Hne Hsem. destruct k as [ph out err].
  unfold worker_runs, worker_ok, worker_token, worker_step in *. cbn [wk_phase wk_out wk_err] in *.
  set (x0 := mkExt 0 true 0 []). destruct ph as [p|e h|p| | |].
  - pose proof (live_prog w out p _ Hw (proj1 (proj2 (proj2 Ho)))) as Hl.
    destruct p as [[[e|] h]|Y o q| |]; [right; exists x0; by eexists..| |by left|].
    all: destruct Hl as (x&w'&s'&q'&Ha); right; exists x; rewrite Ha; by eexists.
  - right. exists x0. by eexists.
  - pose proof (live_prog w out p _ Hw (proj1 (proj1 Ho))) as Hl.
    destruct p as [h|Y o q| |]; [right; exists x0; by eexists| |by left|].
    all: destruct Hl as (x&w'&s'&q'&Ha); right; exists x; rewrite Ha; by eexists.
  - right. exists x0. rewrite (proj2 (Z.ltb_lt _ _)) by auto. by eexists.
  - right. exists x0. by eexists.
  - done.
Qed.

Lemma inv_worker_live C j k :
  pipe_inv C → p_workers C !! j = Some k → wk_phase k ≠ WExit →
  pipe_runs C (λ _ q, q = Diverge) ∨ ∃ t x C', pipe_do g fuel timeout S data id s0 t x C = Some C'.
Proof.
  intros Hi Hj Hne.
  destruct (worker_live (p_world C) (p_chans C) j k) as [Hd|(x&[[w c] k']&Hs)];
    [apply Hi|by apply Hi|done| | |].
  - intros Ht. pose proof (pi_sem _ Hi). pose proof (sum_lookup worker_token _ j k Hj). lia.
  - left. right. exists k. split; [by eapply list_elem_of_lookup_2|done].
  - right. exists (Some j), x. unfold pipe_do. rewrite Hj. cbn [mbind option_bind]. rewrite Hs. by eexists.
Qed.

(** What the goroutine of [Send] waits for. *)
Definition blocked (c : Chans) (p : parent) : Prop :=
  match p with
  | PToken _ => gss_maxInFlight S <= sem c
  | PUntoken _ => sem c <= 0
  | PWait _ => wg c ≠ 0
  | PReturn _ => True
  | _ => False
  end.

Lemma parent_live w s c p nk :
  world_ok (guest_alloc g) w → parent_ok p s nk →
  blocked c p ∨ parent_runs p (λ _ q, q = Diverge) ∨ ∃ x r, pstep x w s c p = Some r.
Proof.
  intros Hw Ho. set (x0 := mkExt 0 true 0 []).
  assert (Hgo : ∀ X (q : prog X) (Q : X → Prop) (K : prog X → parent), safe (guest_alloc g) q Q →
    (∀ x, match q with
          | Ret _ => is_Some (pstep x w s c (K q))
          | _ => pstep x w s c (K q) =
              (advance x w s q ≫= λ '(w', s', p'), Some (w', s', c, K p', [] : list worker))
          end) → q = Diverge ∨ ∃ x r, pstep x w s c (K q) = Some r).
  { intros X q Q K Hs HK. pose proof (live_prog w s q Q Hw Hs) as Hl.
    destruct q as [a|Y o k| |]; [right; exists x0; exact (HK x0)| |by left|].
    all: destruct Hl as (x&w'&s'&q'&Ha); right; exists x; rewrite HK, Ha; by eexists. }
  destruct p as [p|p|u|u|u|u p|u d p|u d e|u d e p|e|e|r| |r]; cbn [blocked parent_runs]; cbn in Ho.
  - right. eapply (Hgo _ p _ PStart); [exact (proj1 (proj2 (proj2 Ho)))|]. by destruct p as [[]| | |].
  - right. eapply (Hgo _ p _ PInline); [exact (proj1 (proj2 (proj2 Ho)))|]. by destruct p.
  - right; right. exists x0. cbn [parent_step]. destruct (_ <? _), (errChan c); by eexists.
  - destruct (Z.ltb_spec (sem c) (gss_maxInFlight S)) as [Hlt|]; [|by left]. right; right. exists x0.
    cbn [parent_step]. rewrite (proj2 (Z.ltb_lt _ _)) by done. by eexists.
  - right; right. exists x0. by eexists.
  - right. eapply (Hgo _ p _ (PDeadline u)); [exact (proj1 (proj2 (proj2 (proj2 Ho))))|]. by destruct p.
  - right. eapply (Hgo _ p _ (PTry u d)); [exact (proj1 (proj2 (proj2 (proj2 Ho))))|].
    by destruct p as [[]| | |].
  - right; right. exists x0. cbn [parent_step]. destruct (errChan c); by eexists.
  - right. eapply (Hgo _ p _ (PRetry u d e)); [exact (proj1 (proj2 (proj2 (proj2 Ho))))|].
    by destruct p as [[]| | |].
  - destruct (Z.ltb_spec 0 (sem c)) as [Hlt|]; [|by left]. right; right. exists x0.
    cbn [parent_step]. rewrite (proj2 (Z.ltb_lt _ _)) by done. by eexists.
  - right; right. exists x0. by eexists.
  - destruct (Z.eqb_spec (wg c) 0) as [E|]; [|by left]. right; right. exists x0.
    cbn [parent_step]. rewrite E. by destruct r; eexists.
  - right; right. exists x0. by eexists.
  - by left.
Qed.

Lemma inv_live C :
  pipe_inv C →
  (∃ r, p_parent C = PReturn r) ∨ pipe_runs C (λ _ q, q = Diverge) ∨
  ∃ t x C', pipe_do g fuel timeout S data id s0 t x C = Some C'.
Proof using HR HS.
  intros Hi. pose proof (pi_sem _ Hi) as Hsem. pose proof (pi_wg _ Hi) as Hwg.
  assert (Hw : ∀ f, (0 < sum_list_with f (p_workers C))%nat → (∀ k, (0 < f k)%nat → wk_phase k ≠ WExit) →
    pipe_runs C (λ _ q, q = Diverge) ∨ ∃ t x C', pipe_do g fuel timeout S data id s0 t x C = Some C').
  { intros f (j&k&Hj&Hk)%sum_pos Hf. eapply inv_worker_live; [done|done|auto]. }
  destruct (parent_live _ _ (p_chans C) _ _ (pi_world _ Hi) (pi_parent _ Hi))
    as [Hb|[Hd|(x&[[[[w s] c] p] ks]&Hs)]].
  - destruct (p_parent C) eqn:E; cbn in Hb, Hsem, Hwg; try done; [| | |by left; eexists].
    + right. apply (Hw worker_token); [lia|]. unfold worker_token. intros k. destruct (wk_phase k); (done || lia).
    + lia.
    + right. apply (Hw worker_wg); [lia|]. unfold worker_wg. intros k. destruct (wk_phase k); (done || lia).
  - right; left. by left.
  - right; right. exists None, x. unfold pipe_do. rewrite Hs. by eexists.
Qed.
End correctness.

(** What holds of the sender at any time. *)
Record pipe_spec (g : DirectGuest) (fuel : nat) (timeout R : Z) (S : GoStreamSender) (id : Z)
    (data : list byte) (s0 : Outbox) (C : Pipe) : Prop := {
  (** at most [maxInFlight] chunks are in flight; *)
  ps_depth : Z.of_nat (sum_list_with worker_token (p_workers C)) <= gss_maxInFlight S;
  (** the header comes first, and no chunk is sent twice; *)
  ps_messages : distinct_chunks R S id data (p_log C);
  (** when [Send] returns, no goroutine is left; *)
  ps_drained : ∀ r, p_parent C = PReturn r → Forall (λ k, wk_phase k = WExit) (p_workers C);
  (** if it returns nil, all chunks were sent, and acknowledged; *)
  ps_success : p_parent C = PReturn None →
    all_chunks R S id data (p_log C) ∧ Forall (λ k, wk_err k = None) (p_workers C);
  (** no goroutine panics, nor does [wg] become negative; *)
  ps_no_panic : ¬ pipe_runs C (λ _ q, faulty (p_world C) q) ∧ 0 <= wg (p_chans C);
  (** there is no deadlock. *)
  ps_live : (∃ r, p_parent C = PReturn r) ∨ pipe_runs C (λ _ q, q = Diverge) ∨
    ∃ t x C', pipe_do g fuel timeout S data id s0 t x C = Some C' }.

(** C11: the guest's stream sender is correct at every depth.  A sender made by
    [NewStreamSender] sends a buffer within the size ceiling, in any interleaving
    of its goroutines with a host that writes what it likes.  At any time at most
    [maxInFlight] chunks are in flight; what has been published is the header of
    the reference and then distinct chunks of it; no goroutine panics and there is
    no deadlock.  When [Send] returns, every goroutine has ended, so that the
    segment may be unmapped; if it returns nil, every chunk has been published
    exactly once and acknowledged. *)
Theorem pipelined_Send g fuel timeout R m tag id data s0 w C :
  let S := SetAppMsgType (NewStreamSender m) tag in
  guest_ok g → 24 < R < 2 ^ 31 → Forall (λ c, (gs_reqBuffer c).2 = R) (dg_slots g) →
  data_size data <= MaxStreamSize → areas R s0 → o_sent s0 = [] → world_ok (guest_alloc g) w →
  rtc (pipe_step g fuel timeout S data id s0 any_guest) (pipe_init g fuel timeout S data id s0 w) C →
  pipe_spec g fuel timeout R S id data s0 C.
Proof.
  intros S Hg HR HU Hsize Hs0 Hs0' Hw Hr.
  assert (HS : 1 <= gss_maxInFlight S). { cbn. destruct (Z.leb_spec m 0); lia. }
  pose proof (pipe_inv_reach g fuel timeout R S id data s0 Hg HR HU Hsize Hs0 Hs0' HS w C Hw Hr) as Hi.
  split.
  - pose proof (pi_sem _ _ _ _ _ _ Hi). pose proof (pi_bound _ _ _ _ _ _ Hi). lia.
  - by eapply inv_log.
  - intros r. by eapply inv_drained.
  - by eapply inv_success.
  - split; [by eapply inv_no_panic|]. rewrite (pi_wg _ _ _ _ _ _ Hi). lia.
  - by eapply inv_live.
Qed.

(** *** Schedules *)

(** A goroutine to run, or the host answers the request in slot [i], if there is
    one. *)
Inductive pipe_act : Type := PRun (t : option nat) | PReply (i : nat).

Section schedule.
Context (g : DirectGuest) (fuel : nat) (timeout : Z) (S : GoStreamSender).
Context (data : list byte) (id : Z) (s0 : Outbox).

Definition pipe_run1 (C : Pipe) (a : pipe_act) : Pipe :=
  match a with
  | PRun t => default C (pipe_do g fuel timeout S data id s0 t (mkExt 0 false 0 []) C)
  | PReply i =>
      if mem (p_world C) (LSlot i F_state) =? SLOT_REQ_READY
      then with_world C (set_mem (p_world C) (LSlot i F_state) SLOT_RESP_READY) else C
  end.

Definition pipe_run (acts : list pipe_act) (C : Pipe) : Pipe := foldl pipe_run1 C acts.

Lemma pipe_run_steps acts : ∀ C,
  rtc (pipe_step g fuel timeout S data id s0 any_guest) C (pipe_run acts C).
Proof.
  unfold pipe_run. induction acts as [|a acts IH]; intros C; [done|]. cbn [foldl].
  etrans; [|apply IH]. destruct a as [t|i]; cbn [pipe_run1].
  - destruct (pipe_do _ _ _ _ _ _ _ _ _ _) as [C'|] eqn:E; [|done]. cbn. by eapply rtc_once, pipe_thread.
  - destruct (_ =? _); [|done]. by apply rtc_once, pipe_env.
Qed.
End schedule.

Definition ex_pipe_sender : GoStreamSender := SetAppMsgType (NewStreamSender 2) 9.
Definition ex_pipe_data : list byte := replicate 150 Byte.x61.
Definition ex_pipe_world : World :=
  mkWorld (λ _, 0) (λ _, replicate 64 Byte.x00) (λ _, false).

Definition ex_pipe (acts : list pipe_act) : Pipe :=
  pipe_run ex_stream_guest 5 1000 ex_pipe_sender ex_pipe_data 7 ex_outbox acts
    (pipe_init ex_stream_guest 5 1000 ex_pipe_sender ex_pipe_data 7 ex_outbox ex_pipe_world).

(** Rounds in which [Send], the goroutines [js] and the host take a step each. *)
Definition ex_rounds (m : nat) (js : list nat) : list pipe_act :=
  concat (replicate m (PRun None :: map (PRun ∘ Some) js ++ [PReply 1; PReply 2])).

Lemma pipelined_Send_witness :
  p_parent (ex_pipe (ex_rounds 200 [0; 1; 2; 3]%nat)) = PReturn None ∧
  pipe_spec ex_stream_guest 5 1000 64 ex_pipe_sender 7 ex_pipe_data ex_outbox
    (ex_pipe (ex_rounds 200 [0; 1; 2; 3]%nat)).
Proof.
  split; [vm_compute; reflexivity|].
  apply (pipelined_Send ex_stream_guest 5 1000 64 2 9 7 ex_pipe_data ex_outbox ex_pipe_world).
  - exact ex_stream_guest_ok.
  - lia.
  - by repeat constructor.
  - by vm_compute.
  - by intros i.
  - done.
  - intros [|[|[|i]]] s Hs; vm_compute in Hs; simplify_eq; by vm_compute.
  - apply pipe_run_steps.
Defined.

(** The chunks of the example as the host's reassembler sees them. *)
Definition ex_overtaken : list Call :=
  start_call 40 7 9 ex_pipe_data ex_env :: map (chunk_call 40 7 ex_pipe_data ex_env) [1; 2; 3].

(** C36: chunks overtake each other by more than the depth of the pipeline.
    SPECIFICATION.md and go/stream.go say that a [StreamSender] makes its receiver
    park at most [maxInFlight - 1] chunks.  With [maxInFlight] 2 there is a run in
    which chunks 1, 2 and 3 are published, and answered, while the goroutine of
    chunk 0 has a slot and a token but has not published: the tokens bound how
    many chunks are in flight, not how far apart they are.  The receiver parks
    three chunks, and one that parks two refuses the stream. *)
Theorem pipelined_overtakes :
  gss_maxInFlight ex_pipe_sender = 2 ∧
  (∃ C, rtc (pipe_step ex_stream_guest 5 1000 ex_pipe_sender ex_pipe_data 7 ex_outbox any_guest)
      (pipe_init ex_stream_guest 5 1000 ex_pipe_sender ex_pipe_data 7 ex_outbox ex_pipe_world) C ∧
    p_log C = start_message 40 7 9 ex_pipe_data :: map (chunk_message 40 7 ex_pipe_data) [1; 2; 3]) ∧
  (∃ c, streams (serve (make default_Config) ex_overtaken).1 !! 7 = Some c ∧ size (ooo c) = 3%nat) ∧
  (serve (make (mkConfig kMaxStreamSize 1024 1024 2 10000)) ex_overtaken).2 =
    replicate 3 (OReply NORMAL None) ++ [OReply SYSTEM_ERROR None].
Proof.
  split; [done|]. split; [|split].
  - exists (ex_pipe (ex_rounds 200 [1; 2; 3]%nat)). split; [apply pipe_run_steps|]. vm_compute. reflexivity.
  - eexists. split; [vm_compute; reflexivity|]. vm_compute. reflexivity.
  - vm_compute. reflexivity.
Qed.
