(* ===== verification/GuestCallRpc.v ===== *)
(** * GuestCallRpc: two goroutines with guest calls on one slot

    [sendGuestCallInternal] of the guest (go/direct.go) composed with
    [ProcessGuestCalls] of the host (GuestCallWorker.h) on one guest slot.  With one
    goroutine every call returns its own answer ([GuestCalls]).

    On the fast path (no reclaiming anywhere) the sender of a guest call does not
    take the slot back before it reads the response: it stays the owner in
    [RESP_READY], protected by [ActiveWait], and releases by lowering the flag and
    then changing [RESP_READY] to [FREE].  Between these two operations another
    goroutine may recycle the slot; when the host has answered the recycled request
    as well, the state is [RESP_READY] again and the late release frees a slot that
    is in use ([fast_release_crosstalk]).

    With reclaiming on, the same happens between the two compare-and-swaps of a
    reclaim ([reclaim_double_owner]). *)

From S2P Require Export GuestSender GuestCallWorker.

Local Open Scope Z_scope.

(** A goroutine: one call after the other. *)
Fixpoint guest_calls (g : DirectGuest) (fuel : nat) (msgType timeout : Z) (cs : list (list byte))
    : prog (list (GuestError + list byte)) :=
  match cs with
  | [] => Ret []
  | c :: cs =>
      let* r := sendGuestCallInternal g fuel c msgType timeout in
      let* rs := guest_calls g fuel msgType timeout cs in
      Ret (r :: rs)
  end.

(** The host: one round of polling after the other. *)
Fixpoint host_polls (A : Allocator) (limit : Z) (n : nat) : prog (list (GuestError + list byte)) :=
  match n with
  | O => Ret []
  | S n => let* _ := ProcessGuestCalls A limit in host_polls A limit n
  end.

(** In this schedule the handler of the host answers each request with the bytes
    of the request. *)
Fixpoint echoes {X} (acts : list act) (c : World * list (prog X)) : bool :=
  match acts with
  | [] => true
  | a :: acts =>
      match a with
      | Run i x =>
          match c.2 !! i with
          | Some (Do (RunHandler j off n _ _) _) =>
              bool_decide (x_bytes x = slice (Z.to_nat off) (Z.to_nat n) (bytes c.1 (BReq j)))
              && (x_resp x =? n)
          | _ => true
          end
      | _ => true
      end && echoes acts (run1 c a)
  end.

(** ** The late release *)

(** One host slot and one guest slot. *)
Definition race_alloc : Allocator :=
  mkAllocator [mkSlot 64 64 1 2; mkSlot 64 64 3 4] 1 1 2 1000.
Definition race_guest : DirectGuest :=
  mkDirectGuest 0 1 1 0 0 0 true
    [mkSlotContext 0 (0, 64) (64, 64) 1 2 1; mkSlotContext 128 (0, 64) (64, 64) 3 4 2].
Definition race_world : World :=
  mkWorld (λ l, match l with
                | L_running => 1 | LSlot 1 F_guestSeq => 2 | LSlot _ F_guestLimit => 100
                | _ => 0
                end) (λ _, replicate 64 Byte.x00) (λ _, false).

Definition race_start : World * list (prog (list (GuestError + list byte))) :=
  (race_world,
   [guest_calls race_guest 9 0 1000000000 [[Byte.x01]; [Byte.x02; Byte.x03]];
    guest_calls race_guest 9 0 1000000000 [[Byte.x04; Byte.x05]];
    host_polls race_alloc 1 3]).

Definition steps (i n : nat) (bs : list byte) : list act :=
  replicate n (Run i (mkExt 0 true (Z.of_nat (length bs)) bs)).

(** The first goroutine publishes (17), the host answers (11), the goroutine reads
    the answer and lowers the flag (8).  The second goroutine recycles the slot and
    publishes (18), the host answers (11), the goroutine checks sequence number and
    type (5).  Now the first goroutine frees the slot, claims it again and
    publishes its next request (18), and the host answers that (11).  The second
    goroutine goes on to read size and bytes (4). *)
Definition race_schedule : list act :=
  steps 0 17 [] ++ steps 2 11 [Byte.x01] ++ steps 0 8 [] ++
  steps 1 18 [] ++ steps 2 11 [Byte.x04; Byte.x05] ++ steps 1 5 [] ++
  steps 0 18 [] ++ steps 2 11 [Byte.x02; Byte.x03] ++ steps 1 4 [].

Definition race_end := run race_schedule race_start.

(** C32: the fast release can deliver another call's answer.  Two goroutines use
    [sendGuestCallInternal] on one guest slot and the host serves it with a handler
    that echoes, as the code is written; reclaiming is off on both sides and no
    call times out.  There is an interleaving in which the call for the bytes 4, 5
    succeeds and returns 2, 3, the answer to the other goroutine's call. *)
Theorem fast_release_crosstalk :
  rtc (pool_step (λ _ _, False)) race_start (race_end.1, race_end.2) ∧
  echoes race_schedule race_start = true ∧
  race_end.2 !! 1%nat = Some (Ret [inr [Byte.x02; Byte.x03]]).
Proof.
  split; [apply (run_pool (λ _ _, False)); repeat constructor|].
  split; vm_compute; reflexivity.
Qed.

(** ** The late reclaim

    Reclaiming an abandoned slot advances [Gen] by a compare-and-swap and then changes
    the state to [FREE] by another.  A goroutine suspended between the two does not
    notice that a second goroutine has reclaimed the slot, claimed it and brought the
    state back to the value that the first one observed. *)

(** The slot was claimed by a caller that is gone: [GUEST_BUSY], with a stale lease.
    Reclaiming is on. *)
Definition reclaim_world : World :=
  mkWorld (λ l, match l with
                | L_running => 1 | L_guestReclaim => 1
                | LSlot 1 F_state => SLOT_GUEST_BUSY | LSlot 1 F_lease => 1
                | LSlot 1 F_guestSeq => 2 | LSlot _ F_guestLimit => 100
                | _ => 0
                end) (λ _, replicate 64 Byte.x00) (λ _, false).

Definition reclaim_start : World * list (prog (list (GuestError + list byte))) :=
  (reclaim_world,
   [guest_calls race_guest 9 0 1000000000 [[Byte.x02; Byte.x03]];
    guest_calls race_guest 9 0 1000000000 [[Byte.x04; Byte.x05]];
    host_polls race_alloc 1 3]).

Definition late_steps (i n : nat) (bs : list byte) : list act :=
  replicate n (Run i (mkExt 1000 true (Z.of_nat (length bs)) bs)).

(** The first goroutine advances [Gen] of the abandoned slot (10).  The second one
    does so as well, frees the slot, claims it and copies its request (18).  The first
    one frees the slot, claims it and copies its request (8). *)
Definition both_own : list act :=
  late_steps 0 10 [] ++ late_steps 1 18 [] ++ late_steps 0 8 [].

(** The second goroutine publishes (8), the host answers (11), and the second
    goroutine returns. *)
Definition reclaim_schedule : list act :=
  both_own ++ late_steps 1 8 [] ++ late_steps 2 11 [Byte.x02; Byte.x03] ++ late_steps 1 40 [].

Definition reclaim_end := run reclaim_schedule reclaim_start.

(** The goroutine is about to write the request header of slot [i]. *)
Definition writes_header {X} (i : nat) (p : prog X) : bool :=
  match p with Do (Store l _) _ => bool_decide (l = LSlot i F_reqSize) | _ => false end.

(** C33: a late reclaim gives a slot to two callers.  Two goroutines make guest calls
    with reclaiming on, and the host serves them with a handler that echoes; the only
    guest slot was left by a caller that is gone.  There is an interleaving in which
    both goroutines reclaim the slot, own it at the same time and write their requests
    to it, and the call for the bytes 4, 5 succeeds and returns 2, 3, the answer to
    the request of the other goroutine. *)
Theorem reclaim_double_owner :
  rtc (pool_step (λ _ _, False)) reclaim_start (reclaim_end.1, reclaim_end.2) ∧
  echoes reclaim_schedule reclaim_start = true ∧
  writes_header 1 <$> take 2 (run both_own reclaim_start).2 = [true; true] ∧
  reclaim_end.2 !! 1%nat = Some (Ret [inr [Byte.x02; Byte.x03]]).
Proof.
  split; [apply (run_pool (λ _ _, False)); repeat constructor|].
  split_and!; vm_compute; reflexivity.
Qed.
