(* ===== verification/GuestCalls.v ===== *)
(** * GuestCalls: a guest call returns the handler's answer

    [sendGuestCallInternal] of the guest (go/direct.go) composed with the worker of
    the host (GuestCallWorker.h), over all guest slots: a goroutine claims whatever
    slot is free, calls may time out in any phase, later calls recycle slots whose
    response nobody consumed, and the worker serves the slots in turn.  What a
    successful call returns is what the handler answered to that very call.

    One goroutine makes the calls; [GuestCallRpc] shows what goes wrong with two.
    Automatic reclaiming is off, its default.

    - [to_host]: the protocol of [SlotExchange] in the direction of guest calls;
    - [instantiate]: a handler in place of the operation [RunHandler];
    - [Slots]: the protocol on every guest slot at once, as the product of the
      monitors, and its invariant;
    - [GuestCalls]: the two programs follow it. *)

From S2P Require Export SlotExchange GuestSender.

Local Open Scope Z_scope.

(** Guest calls; the worker passes every type of message to the handler. *)
Definition to_host : Direction :=
  mkDirection SLOT_GUEST_BUSY SLOT_BUSY F_guestWait (λ _, false).

Lemma to_host_ok : dir_ok to_host.
Proof. split; [apply (bool_decide_unpack _); by vm_compute..|done]. Qed.

(** A handler of the host; its exceptions are outside the model. *)
Abbreviation HostHandler := (Z → list byte → HandlerResult).

(** The handler reads its request when it is called and writes its response before
    it returns; other threads may run in between. *)
Fixpoint instantiate {X} (h : HostHandler) (p : prog X) : prog X :=
  match p with
  | Ret a => Ret a
  | Do o k =>
      match o in op Y return (Y → prog X) → prog X with
      | RunHandler i off n _ ty => λ k',
          Do (CopyOut (BReq i) off n) (λ req,
          Do (CopyIn (BResp i) (hr_off (h ty req)) (hr_bytes (h ty req))) (λ _,
          k' (i32 (hr_size (h ty req)))))
      | o => λ k', Do o k'
      end (λ r, instantiate h (k r))
  | Diverge => Diverge
  | Fault => Fault
  end.

Section instantiate.
Context {M : Type} (mon : monitor M) (h : HostHandler).

Local Abbreviation obeys_with p s Q := (obeys false mon (instantiate h p) s Q).

Lemma with_bind {X Y} (p : prog X) (f : X → prog Y) : ∀ s (Q : Y → M → Prop),
  obeys_with p s (λ a s', obeys_with (f a) s' Q) → obeys_with (bind p f) s Q.
Proof.
  induction p as [a|Z o k IH| |]; intros s Q; [done| |done|done].
  destruct o; cbn [bind instantiate obeys]; intros H r; specialize (H r);
    destruct (mon s _ _ r); try done; try by apply IH.
  intros u. specialize (H u). destruct (mon _ _ _ u); [by apply IH|done|done].
Qed.

Lemma with_loop {S X} (Inv : S → M → Prop) (body : S → prog (S + X)) fuel :
  ∀ s m (Q : X → M → Prop), Inv s m →
  (∀ s m, Inv s m → obeys_with (body s) m
     (λ r m', match r with inl s' => Inv s' m' | inr a => Q a m' end)) →
  obeys_with (loop fuel body s) m Q.
Proof.
  induction fuel as [|fuel IH]; intros s m Q Hi Hb; [done|]. cbn [loop].
  apply with_bind. eapply obeys_mono, Hb, Hi. intros [s'|a] m' H; [by apply IH|done].
Qed.

Lemma with_for {S X} (Inv : S → M → Prop) (body : Z → S → prog (S + X)) n :
  ∀ i s m (Q : S + X → M → Prop), Inv s m →
  (∀ j s m, i <= j < i + Z.of_nat n → Inv s m → obeys_with (body j s) m
     (λ r m', match r with inl s' => Inv s' m' | inr a => Q (inr a) m' end)) →
  (∀ s m, Inv s m → Q (inl s) m) →
  obeys_with (for_ n i body s) m Q.
Proof.
  induction n as [|n IH]; intros i s m Q Hi Hb HQ; [by apply HQ|]. cbn [for_].
  apply with_bind. eapply obeys_mono, Hb; [|lia|done]. intros [s'|a] m' H; [|done].
  apply IH; [done| |done]. intros. apply Hb; [lia|done].
Qed.

(** Where the handler is not run. *)
Definition no_handler : ∀ X, op X → bool := λ X o,
  match o with RunHandler _ _ _ _ _ => false | _ => true end.

Lemma with_plain {X} (p : prog X) : ∀ s (Q : X → M → Prop),
  performs no_handler p → obeys false mon p s Q → obeys_with p s Q.
Proof.
  induction p as [a|Y o k IH| |]; intros s Q Hp; [done| |done|done].
  destruct Hp as [Ho Hk]. destruct o; cbn [instantiate obeys]; try done;
    intros H r; specialize (H r); destruct (mon s _ _ r); auto.
Qed.

Lemma with_within {X} (P : ∀ X, op X → bool) (p : prog X) :
  (∀ X (o : op X), P X o = true → no_handler X o = true) →
  (∀ m X (o : op X) r, answer_ok o r = false → mon m X o r = Impossible) →
  ∀ s (Q : X → M → Prop) T, within P p T → obeys false mon p s Q → obeys_with p s Q.
Proof.
  intros HP Hm. unfold within. induction p as [a|Y o k IH| |]; intros s Q T Hp; [done| |done|done].
  assert (P Y o = true) as Ho.
  { specialize (Hp (some_answer o)). unfold only in Hp. by destruct (P Y o). }
  assert (∀ r, answer_ok o r = true → obeys false (only P) (k r) tt (λ r _, T r)) as Hk.
  { intros r Ha. specialize (Hp r). unfold only in Hp. by rewrite Ho, Ha in Hp. }
  apply HP in Ho. clear Hp. intros H.
  assert (∀ r, match mon s _ o r with
    | Next s' => obeys_with (k r) s' Q | Forbidden => False | Impossible => True end) as H'.
  { intros r. specialize (H r). destruct (answer_ok o r) eqn:Ha; [|by rewrite Hm].
    destruct (mon s Y o r); [|done|done]. by eapply IH; [apply Hk|]. }
  by destruct o.
Qed.
End instantiate.

Lemma performs_instantiate {X} (P : ∀ X, op X → bool) h (p : prog X) :
  (∀ i off n m ty, P _ (RunHandler i off n m ty) = true →
     P _ (CopyOut (BReq i) off n) = true ∧
     ∀ o d, P _ (CopyIn (BResp i) o d) = true) →
  performs P p → performs P (instantiate h p).
Proof.
  intros HP. induction p as [a|Y o k IH| |]; [done| |done|done]. intros [Ho Hk].
  destruct o; cbn [instantiate performs]; try (split; [done|]; auto).
  all: apply HP in Ho as [? ?]; naive_solver.
Qed.

(** ** All guest slots *)

(** The slot that an operation is about. *)
Definition touched {X} (o : op X) : option nat :=
  let at_loc l := match l with LSlot j _ => Some j | _ => None end in
  match o with
  | Load l | Store l _ | Cas l _ _ | FetchAdd l _ | Machine.Exchange l _ => at_loc l
  | CopyOut (BReq j | BResp j) _ _ | CopyIn (BReq j | BResp j) _ _ => Some j
  | RunHandler j _ _ _ _ => Some j
  | _ => None
  end.

(** Writes of the reclaim timeout, and reads of a value other than 0. *)
Definition sets_reclaim {X} (o : op X) : bool :=
  match o with
  | Store l _ | Cas l _ _ | FetchAdd l _ | Machine.Exchange l _ => bool_decide (l = L_guestReclaim)
  | _ => false
  end.
Definition sees_reclaim {X} (o : op X) : X → bool :=
  match o with
  | Load l => λ r, bool_decide (l = L_guestReclaim) && negb (r =? 0)
  | _ => λ _, false
  end.

Lemma touched_frame {X} (o : op X) x w r w' k :
  exec x o w = Done r w' → touched o ≠ Some k → Exchange.frame k w w'.
Proof.
  intros Hx Hk. unfold Exchange.frame.
  destruct o as [l|l v|l e d|l d|l v|[]|[]| | | | | |]; simpl in Hx, Hk;
    repeat case_match; simplify_eq/=; try done;
    rewrite ?upd_ne by congruence; done.
Qed.

Lemma reclaim_kept {X} (o : op X) x w r w' :
  exec x o w = Done r w' → sets_reclaim o = false → mem w' L_guestReclaim = mem w L_guestReclaim.
Proof.
  intros Hx Hk. destruct o; simpl in Hx, Hk; repeat case_match; simplify_eq/=; try done;
    apply bool_decide_eq_false in Hk; by rewrite upd_ne.
Qed.

Module Slots.
Import Exchange.
Section slots.
Context (base count : nat) (caps : nat → Z * Z) (handler : Handler).

Definition ranged (j : nat) : bool := (base <=? j)%nat && (j <? base + count)%nat.

(** The protocol on one slot, with reclaiming off. *)
Definition mon1 (j : nat) : monitor role := λ m X o r,
  if sees_reclaim o r then Impossible
  else Exchange.mon to_host j (caps j).1 (caps j).2 handler m X o r.

(** The protocol on all slots: where a thread is in each. *)
Definition mon : monitor (nat → role) := λ s X o r,
  if negb (answer_ok o r) then Impossible
  else match touched o with
  | Some j =>
      if ranged j then
        match mon1 j (s j) X o r with
        | Next m => Next (upd s j m)
        | Forbidden => Forbidden
        | Impossible => Impossible
        end
      else Forbidden
  | None => if sets_reclaim o then Forbidden
            else if sees_reclaim o r then Impossible else Next s
  end.

Lemma follows_mon1 {X} j (p : prog X) : ∀ m Q,
  obeys false (Exchange.mon to_host j (caps j).1 (caps j).2 handler) p m Q →
  obeys false (mon1 j) p m Q.
Proof.
  induction p as [a|Y o k IH| |]; intros m Q; [done| |done|done]. intros H r.
  unfold mon1. destruct (sees_reclaim o r); [done|]. specialize (H r).
  destruct (Exchange.mon _ _ _ _ _ _ _ _); [by apply IH|done|done].
Qed.

(** Operations on one slot, or on none. *)
Definition at_slot (j : nat) : ∀ X, op X → bool := λ X o,
  match touched o with Some k => (k =? j)%nat | None => negb (sets_reclaim o) end.

Lemma untouched j m X (o : op X) r :
  answer_ok o r = true → touched o = None → sets_reclaim o = false →
  Exchange.mon to_host j (caps j).1 (caps j).2 handler m X o r = Next m.
Proof.
  intros Ha Ht Hs. unfold Exchange.mon. rewrite Ha.
  destruct o as [[]|[]|[]|[]|[]|[]|[]| | | | | |]; try done; by destruct m as [[]|[]].
Qed.

(** A program that uses one slot keeps the other slots as they are. *)
Lemma lift_slot {X} j (p : prog X) : ∀ s m (Q : X → role → Prop),
  ranged j = true → performs (at_slot j) p → s j = m → obeys false (mon1 j) p m Q →
  obeys false mon p s (λ r s', Q r (s' j) ∧ ∀ k, k ≠ j → s' k = s k).
Proof.
  induction p as [a|Y o k IH| |]; intros s m Q Hj Hp Hs H; [by subst| |done|done].
  destruct Hp as [Ho Hk]. intros r. specialize (H r). unfold mon.
  destruct (answer_ok o r) eqn:Ha; [|done]. cbn [negb]. unfold at_slot in Ho.
  destruct (touched o) as [j'|] eqn:Ht.
  - apply Nat.eqb_eq in Ho as ->. rewrite Hj, Hs.
    destruct (mon1 j m Y o r) as [m'| |]; [|done|done].
    eapply obeys_mono, IH; [|done|by apply Hk|apply upd_eq|exact H].
    intros a s' [HQ Hr]. split; [done|]. intros i Hi. by rewrite Hr, upd_ne.
  - apply negb_true_iff in Ho. rewrite Ho. unfold mon1 in H.
    destruct (sees_reclaim o r); [done|]. rewrite untouched in H by done. by eapply IH.
Qed.

(** ** The invariant *)

Definition inv (w : World) (ss : list (nat → role)) : Prop :=
  ∃ sc sr, ss = [sc; sr] ∧ mem w L_guestReclaim = 0 ∧
    ∀ j, ∃ h g, sc j = Caller h ∧ sr j = Responder g ∧
      (ranged j = true → joint to_host j (caps j).1 (caps j).2 handler w h g).

(** The rest of the world leaves the transactions on the guest slots alone. *)
Definition frames (w w' : World) : Prop :=
  mem w' L_guestReclaim = mem w L_guestReclaim ∧ ∀ j, ranged j = true → frame j w w'.

Lemma slots_inv_env w w' ss : inv w ss → frames w w' → inv w' ss.
Proof.
  intros (sc&sr&->&Hr&Hj) [Er Hf]. exists sc, sr. split; [done|]. split; [congruence|].
  intros j. destruct (Hj j) as (h&g&?&?&H). exists h, g. split_and!; [done..|].
  intros Hr'. eapply joint_frame; [|by apply H]. by apply Hf.
Qed.

Context (Hcaps : ∀ j, ranged j = true → 0 <= (caps j).2 < 2 ^ 31).
Context (Hok : ∀ j, ranged j = true → handler_ok (caps j).2 handler).

Lemma inv_slot w w' ss i s j m X (o : op X) x r :
  inv w ss → ss !! i = Some s → exec x o w = Done r w' → touched o = Some j →
  Exchange.inv to_host j (caps j).1 (caps j).2 handler w' (<[i := m]> ((λ s, s j) <$> ss)) →
  inv w' (<[i := upd s j m]> ss).
Proof.
  intros (sc&sr&->&Hr&Hj) Hi Hx Ht (h&g&E&Hjoint).
  assert (mem w' L_guestReclaim = 0) as Hr'.
  { rewrite (reclaim_kept _ _ _ _ _ Hx); [done|]. destruct o; try done; by destruct l. }
  assert (∀ k, k ≠ j → ∃ h g, sc k = Caller h ∧ sr k = Responder g ∧
    (ranged k = true → joint to_host k (caps k).1 (caps k).2 handler w' h g)) as Hrest.
  { intros k Hne. destruct (Hj k) as (h'&g'&?&?&H). exists h', g'. split_and!; [done..|].
    intros Hk. eapply joint_frame; [|by apply H]. eapply touched_frame; [done|congruence]. }
  destruct i as [|[|i]]; simplify_eq/=; eexists _, _; (split; [done|]); (split; [done|]);
    intros k; unfold upd; case_decide; subst;
    first [by exists h, g|by apply Hrest].
Qed.

Lemma inv_at w ss i s j :
  inv w ss → ss !! i = Some s → ranged j = true →
  Exchange.inv to_host j (caps j).1 (caps j).2 handler w ((λ s, s j) <$> ss) ∧
  ((λ s, s j) <$> ss) !! i = Some (s j).
Proof.
  intros (sc&sr&->&_&Hj) Hi Hr. destruct (Hj j) as (h&g&E1&E2&H). split.
  - exists h, g. cbn. rewrite E1, E2. auto.
  - by rewrite list_lookup_fmap, Hi.
Qed.

Lemma slots_inv_step w ss i s X (o : op X) x r w' :
  inv w ss → ss !! i = Some s → exec x o w = Done r w' →
  match mon s X o r with
  | Next s' => inv w' (<[i := s']> ss)
  | Forbidden => True
  | Impossible => False
  end.
Proof using Hcaps Hok.
  intros Hi Hs Hx. unfold mon. rewrite (exec_answer _ _ _ _ _ _ Hx). cbn [negb].
  assert (sees_reclaim o r = false) as Hsee.
  { destruct o as [l| | | | | | | | | | | |]; try done. cbn. case_bool_decide; [|done]. subst.
    simplify_eq/=. destruct Hi as (?&?&_&->&_). done. }
  destruct (touched o) as [j|] eqn:Ht.
  - destruct (ranged j) eqn:Hj; [|done]. destruct (inv_at _ _ _ _ _ Hi Hs Hj) as [Hi1 Hs1].
    unfold mon1. rewrite Hsee.
    pose proof (Exchange.inv_step to_host j (caps j).1 (caps j).2 handler to_host_ok
      (Hcaps j Hj) (Hok j Hj) _ _ _ _ _ _ _ _ _ Hi1 Hs1 Hx) as H.
    destruct (Exchange.mon _ _ _ _ _ _ _ _ _) as [m| |]; [|done|done]. by eapply inv_slot.
  - destruct (sets_reclaim o) eqn:Hset; [done|]. rewrite Hsee, list_insert_id by done.
    eapply slots_inv_env; [done|]. split; [by eapply reclaim_kept|]. intros j _.
    eapply touched_frame; [done|congruence].
Qed.

Lemma slots_inv_defined w ss i s X (o : op X) x :
  ss !! i = Some s → inv w ss → exec x o w = Undef → ∃ r, mon s X o r = Forbidden.
Proof.
  intros Hs Hi Hx. destruct (touched o) as [j|] eqn:Ht; cycle 1.
  { destruct o as [| | | | |[]|[]| | | | | |]; simpl in *; repeat case_match; done. }
  destruct (ranged j) eqn:Hj; cycle 1.
  { exists (some_answer o). unfold mon. by rewrite some_answer_ok, Ht, Hj. }
  destruct (inv_at _ _ _ _ _ Hi Hs Hj) as [Hi1 Hs1].
  destruct (Exchange.inv_defined _ _ _ _ _ _ _ _ _ _ _ _ Hs1 Hi1 Hx) as [r Hr].
  exists r. unfold mon. rewrite Ht, Hj. unfold mon1. rewrite Hr.
  assert (answer_ok o r = true) as ->.
  { unfold Exchange.mon in Hr. by destruct (answer_ok o r). }
  assert (sees_reclaim o r = false) as ->; [|done].
  by destruct o as [[]| | | | | | | | | | | |].
Qed.
End slots.
End Slots.

(** ** The calls of the guest *)

Module Calls.
Import Exchange.

Ltac call_eval :=
  cbn [Exchange.mon answer_ok caller_next owned]; unfold caller_store, caller_load, read_type;
  cbn [lift on tag Nat.eqb andb fst snd guarded writes orb negb d_own d_flag to_host];
  rewrite ?Nat.eqb_refl; use_tests; cbn [lift andb].
Ltac call_walk := obeys_walk ltac:(call_eval).

Section caller.
Context (i : nat) (reqCap respCap : Z) (handler : Handler).
Context (Hreq : 0 <= reqCap < 2 ^ 31) (Hresp : 0 <= respCap < 2 ^ 31).
Context (Hok : handler_ok respCap handler).

Local Abbreviation mon := (Exchange.mon to_host i reqCap respCap handler).
Local Abbreviation follows p s Q := (obeys false mon p s Q).
Local Abbreviation watch := (Exchange.watch to_host i).
Local Abbreviation reply := (answer (d_special to_host) handler).

Lemma tryClaimGuestSlot_follows :
  follows (tryClaimGuestSlot i) (Caller COut) (λ b m, m = Caller (if b then owned else COut)).
Proof.
  unfold tryClaimGuestSlot, claimSlotGen, guest_stamp_lease, guest_MonotonicNanos, load, cas, store.
  call_walk; done.
Qed.

Lemma write_header_follows g cp size ty :
  follows (guest_write_header g i size ty) (Caller (COwn cp None None))
    (λ _ m, m = Caller (COwn cp (Some size) (Some ty))).
Proof. unfold guest_write_header, load, store. call_walk; done. Qed.

(** *** The wait *)

Ltac watch_walk := within_walk ltac:(reflexivity).

Lemma watching {X} (p : prog X) q m :
  within watch p (λ _, True) → waits q m → follows p m (λ _, waits q).
Proof. intros Hp Hm. by apply (watch_waits to_host i reqCap respCap handler _ q). Qed.

Definition seen (q : Z * list byte) (b : bool) (m : role) : Prop :=
  if b then m = Caller (CReady q) else waits q m.

Lemma check_state_follows q m :
  waits q m →
  follows (load i F_state) m (λ v, seen q (v =? SLOT_RESP_READY)).
Proof.
  intros Hm. unfold load. apply obeys_call. intros r. unfold seen, waits in *.
  destruct Hm as [->| ->]; call_eval; destruct (r =? SLOT_RESP_READY) eqn:E; cbn [lift]; auto.
Qed.

Lemma spinUntilEq32_follows q max : ∀ iters m,
  waits q m →
  follows (spinUntilEq32 i SLOT_RESP_READY max iters) m (λ r, seen q r.2).
Proof.
  induction max as [|max IH]; intros iters m Hm; cbn [spinUntilEq32]; [done|].
  apply obeys_bind. eapply obeys_mono, check_state_follows, Hm. intros v m' Hv.
  cbn beta in Hv. destruct (v =? SLOT_RESP_READY); [exact Hv|]. apply obeys_bind.
  eapply obeys_mono, watching, Hv; [|watch_walk]. intros ? m2 H2. by apply IH.
Qed.

Lemma guest_spin_follows q limit m :
  waits q m → follows (guest_spin i SLOT_RESP_READY limit) m (seen q).
Proof.
  intros Hm. unfold guest_spin. apply (obeys_loop _ _ (λ _, waits q)); [done|done|].
  clear m Hm. intros n m Hm. destruct (n <? limit); [|done].
  apply obeys_bind. eapply obeys_mono, spinUntilEq32_follows, Hm. intros [it []] m' H; [exact H|].
  apply obeys_bind. eapply obeys_mono, watching, H; [by intros|]. destruct (_ <? _); watch_walk.
Qed.

Lemma recordOutcome_follows q fuel hit limit b m :
  seen q b m → follows (recordOutcome fuel i hit limit) m (λ _, seen q b).
Proof.
  intros Hm. unfold recordOutcome. apply (obeys_loop _ _ (λ _, seen q b)); [done|done|].
  clear m Hm. intros cur m Hm. destruct (adapt hit cur) as [l|]; [|done].
  assert (∀ X (o : op X) (k : X → prog (Z + unit)),
    (∀ r, mon m X o r = Next m) →
    (∀ r, follows (k r) m (λ r m', match r with inl _ => seen q b m' | inr _ => seen q b m' end)) →
    follows (Do o k) m (λ r m', match r with inl _ => seen q b m' | inr _ => seen q b m' end))
    as Hstep by by intros X o k E Hk r; rewrite E.
  assert (∃ h, m = Caller h ∧ (h = CLive q ∨ h = CReady q)) as (h&->&Hh).
  { destruct b; [eauto|]. destruct Hm as [->| ->]; eauto. }
  unfold cas, load. apply obeys_bind, Hstep; [by destruct Hh as [->| ->]|]. intros [[] ?]; [done|].
  apply Hstep; [by destruct Hh as [->| ->]|]. done.
Qed.
Lemma WaitState_follows q fuel sleep m :
  within watch sleep (λ _, True) → waits q m →
  follows (WaitState fuel i SLOT_RESP_READY sleep) m (seen q).
Proof.
  intros Hs Hm. unfold WaitState. apply obeys_bind. unfold load at 1.
  eapply obeys_mono, watching, Hm; [|watch_walk]. clear m Hm. intros limit m Hm.
  apply obeys_bind. eapply obeys_mono, guest_spin_follows, Hm. clear m Hm. intros b m Hm.
  destruct b; apply obeys_bind; eapply obeys_mono, recordOutcome_follows, Hm;
    clear m Hm; intros ? m Hm; [done|].
  apply obeys_bind. eapply obeys_mono, watching, Hm; [|done]. clear m Hm. intros ? m Hm.
  apply obeys_bind. by eapply obeys_mono, check_state_follows, Hm.
Qed.

Local Hint Resolve watch_SignalEvent watch_WaitEvent : within.

Lemma guest_exchange_follows fuel c timeout cp sz ty q :
  made_request reqCap cp (Some sz) (Some ty) = Some q →
  follows (guest_exchange fuel i c timeout) (Caller (COwn cp (Some sz) (Some ty))) (seen q).
Proof.
  intros Hq. unfold guest_exchange, guest_publish_request, store at 1 2. call_walk.
  cbn [Z.eqb lift]. call_walk. change (SLOT_REQ_READY =? SLOT_FREE) with false. rewrite Hq.
  cbn [lift]. apply obeys_bind. eapply obeys_mono, watching; [| |by left].
  2: { unfold load. watch_walk. }
  intros h m Hm. eapply obeys_mono with (Q := λ _, waits q).
  2: { destruct (_ =? _); [|done]. by apply watching; [apply watch_SignalEvent|]. }
  clear m Hm. intros _ m Hm. apply WaitState_follows; [|done].
  unfold guest_call_sleep, load, store. watch_walk.
Qed.

Lemma consume_claim_follows q :
  follows (consume_claim i) (Caller (CReady q))
    (λ b m, b = true ∧ m = Caller (CTaken false q false None)).
Proof.
  unfold consume_claim, claimSlotGen, guest_stamp_lease, guest_MonotonicNanos, cas, store.
  call_walk; done.
Qed.

(** *** The response *)

Definition answered (q : Z * list byte) (r : GuestError + list byte) : Prop :=
  ∀ d, r = inr d → reply q = Some d.

Lemma refused_answered q e : answered q (inl e).
Proof. by intros ? [=]. Qed.
Local Hint Resolve refused_answered : core.

(** The caller may release. *)
Definition taken (q : Z * list byte) (fast : bool) (m : role) : Prop :=
  ∃ c rs, m = Caller (CTaken fast q c rs).

Lemma release_owned_follows q (fast : bool) m :
  taken q fast m ∨ (fast = true ∧ m = Caller (CReady q)) →
  follows (release_owned i fast) m (λ _ m', m' = Caller COut).
Proof.
  unfold release_owned, store, cas. intros [(c&rs&->)|[-> ->]]; [destruct fast|]; call_walk; done.
Qed.

Lemma read_response_follows q c fast :
  (gs_respBuffer c).2 = respCap →
  follows (read_response i c) (Caller (CTaken fast q true None))
    (λ r m, answered q r ∧ taken q fast m).
Proof using Hok Hresp.
  intros Hc. unfold read_response. rewrite Hc. cbv zeta. apply obeys_bind.
  eapply obeys_mono, resp_size_follows; [|done..]. intros sz m (Hsz&Hle&d&r&<-&Hd&Hl&->).
  assert (∀ off n, (off, n) = window respCap (i32 r) →
    follows (call (CopyOut (BResp i) off n)) (Caller (CTaken fast q true (Some r)))
      (λ d m, answered q (inr d) ∧ taken q fast m)) as Hcopy.
  { intros off n Hw. eapply obeys_mono, resp_copy_follows; [intros d' m [-> ->]|done|exact Hd|done|done].
    split; [by intros ? [= <-]|]. eexists _, _. done. }
  unfold window in Hcopy. destruct (Z.leb_spec 0 (i32 r)).
  - rewrite (proj2 (Z.ltb_ge respCap (i32 r))) by lia. apply obeys_bind. by apply Hcopy.
  - rewrite (i32_id (- _)), (i32_id respCap), (i32_id (respCap - _)) by lia.
    rewrite (proj2 (Z.ltb_ge _ 0)), (proj2 (Z.ltb_ge respCap _)) by lia.
    apply obeys_bind, Hcopy. f_equal; lia.
Qed.

Lemma finish_call_follows q c seq (fast : bool) :
  (gs_respBuffer c).2 = respCap →
  follows (finish_call i c seq fast) (Caller (if fast then CReady q else CTaken false q false None))
    (λ r m, answered q r ∧ m = Caller COut).
Proof using Hok Hresp.
  intros Hc. set (m0 := Caller _).
  assert (taken q fast m0 ∨ (fast = true ∧ m0 = Caller (CReady q))) as Hm0.
  { unfold m0. destruct fast; [by right|]. left. by eexists _, _. }
  unfold finish_call, load. apply obeys_bind, obeys_call. intros r.
  assert (mon m0 _ (Load (LSlot i F_msgSeq)) r = Next m0) as -> by by unfold m0; destruct fast; call_eval.
  destruct (negb _).
  { apply obeys_bind. eapply obeys_mono, release_owned_follows, Hm0. intros ? m ->. by call_walk. }
  apply obeys_bind, obeys_call. intros ty.
  assert (mon m0 _ (Load (LSlot i F_msgType)) ty =
    lift Caller (read_type to_host handler fast q false None ty)) as ->
    by by unfold m0; destruct fast; call_eval.
  unfold read_type. destruct (ty =? _); cbn [lift].
  { apply obeys_bind. eapply obeys_mono, release_owned_follows; [by intros ? m ->|]. left. by eexists _, _. }
  case_bool_decide; cbn [lift]; [|done].
  apply obeys_bind. eapply obeys_mono, read_response_follows, Hc. intros a m [Ha Hm].
  apply obeys_bind. eapply obeys_mono, release_owned_follows; [by intros ? m' ->|by left].
Qed.

(** The request that [call_on] publishes is the message. *)
Lemma made_request_data data ty (flat : bool) :
  Z.of_nat (length data) <= reqCap →
  let len := Z.of_nat (length data) in
  made_request reqCap (Some (if flat then reqCap - len else 0, data))
    (Some (if flat then i32 (- i32 len) else i32 len)) (Some ty) = Some (ty, data).
Proof using Hreq.
  intros Hl. cbv zeta. rewrite (i32_id (Z.of_nat _)), i32_id by lia.
  set (sz := if flat then - Z.of_nat (length data) else Z.of_nat (length data)).
  assert (Z.abs sz = Z.of_nat (length data)) as Hsz by (unfold sz; destruct flat; lia).
  assert (request (Some data) sz = data) as Hd.
  { unfold request. rewrite Hsz, Nat2Z.id. simpl. by apply take_ge. }
  rewrite (made_request_filled _ Hreq (Some data) sz); [by rewrite Hd|unfold sz; destruct flat; lia|].
  destruct (decide (sz = 0)) as [->|Hne]; [by left|]. right. rewrite Hd.
  split_and!; [|lia|lia]. do 2 f_equal. unfold window, sz in *. destruct flat; simpl.
  - rewrite (proj2 (Z.leb_gt _ _)) by lia. simpl. lia.
  - by rewrite (proj2 (Z.leb_le _ _)) by lia.
Qed.
End caller.

(** ** A call, with reclaiming off *)

Section call.
Context (caps : nat → Z * Z) (handler : Handler) (g : DirectGuest) (fuel : nat).
Context (i : nat) (c : slotContext).
Context (Hcaps : caps i = ((gs_reqBuffer c).2, (gs_respBuffer c).2)).
Context (Hreq : 0 <= (caps i).1 < 2 ^ 31) (Hresp : 0 <= (caps i).2 < 2 ^ 31).
Context (Hok : handler_ok (caps i).2 handler).

Local Abbreviation follows1 p m Q := (obeys false (Slots.mon1 caps handler i) p m Q).

Lemma reclaim_off_follows m :
  follows1 (reclaim_off g) m (λ b m', b = dg_fastPathAllowed g ∧ m' = m).
Proof.
  unfold reclaim_off. destruct (dg_fastPathAllowed g); [|done]. apply obeys_bind, obeys_call.
  intros r. unfold Slots.mon1, sees_reclaim. rewrite bool_decide_true by done. cbn [andb].
  destruct (r =? 0) eqn:E; [|done]. cbn [negb]. by rewrite Slots.untouched.
Qed.

Lemma call_on_follows data ty timeout :
  follows1 (call_on g fuel i c data ty timeout) (Caller owned)
    (λ r m, answered handler (ty, data) r ∧ m = Caller COut).
Proof using Hcaps Hok Hreq Hresp.
  unfold call_on. replace (gs_reqBuffer c).2 with (caps i).1 by by rewrite Hcaps.
  cbv zeta. destruct (Z.ltb_spec (caps i).1 (Z.of_nat (length data))) as [|Hl].
  { apply obeys_bind, Slots.follows_mon1. unfold cas. call_walk; split; done. }
  set (q := (ty, data)). set (flat := ty =? _). set (off := if flat then _ else _).
  apply obeys_bind, Slots.follows_mon1, obeys_call. intros [].
  cbn [Exchange.mon answer_ok caller_next owned is_buf]. rewrite Nat.eqb_refl. cbn [andb].
  replace (in_range off _ _) with true; cycle 1.
  { symmetry. unfold in_range, off. rewrite !andb_true_iff, !Z.leb_le. destruct flat; lia. }
  cbn [lift]. apply obeys_bind, Slots.follows_mon1. eapply obeys_mono, write_header_follows.
  intros seq m ->. apply obeys_bind, Slots.follows_mon1.
  eapply obeys_mono, guest_exchange_follows; [|by apply made_request_data].
  intros ready m Hm. fold q in Hm.
  apply obeys_bind. destruct ready; cycle 1.
  { cbn [obeys]. apply obeys_bind. cbn [obeys]. apply obeys_bind, Slots.follows_mon1.
    destruct Hm as [->| ->]; unfold store; call_walk; by split. }
  rewrite Hm. eapply obeys_mono, reclaim_off_follows. intros b m' [-> ->].
  apply obeys_bind. destruct (dg_fastPathAllowed g).
  - cbn [obeys bind negb]. apply Slots.follows_mon1.
    eapply obeys_mono, (finish_call_follows _ _ _ _ Hresp Hok q _ _ true); [done|].
    by rewrite Hcaps.
  - apply Slots.follows_mon1. eapply obeys_mono, consume_claim_follows. intros b m' [-> ->].
    apply obeys_bind, Slots.follows_mon1. unfold store. call_walk. cbn [negb].
    apply Slots.follows_mon1.
    eapply obeys_mono, (finish_call_follows _ _ _ _ Hresp Hok q _ _ false); [done|].
    by rewrite Hcaps.
Qed.
End call.

(** ** The calling goroutine *)

(** The areas of the slots as the guest sees them. *)
Definition caps_of (g : DirectGuest) (j : nat) : Z * Z :=
  match dg_slots g !! j with
  | Some c => ((gs_reqBuffer c).2, (gs_respBuffer c).2)
  | None => (0, 0)
  end.

Ltac at_walk := performs_walk ltac:(first [apply Nat.eqb_refl|reflexivity]).

Section thread.
Context (g : DirectGuest) (handler : Handler) (fuel : nat) (Hg : guest_ok g).
Local Abbreviation base := (Z.to_nat (dg_numSlots g)).
Local Abbreviation count := (Z.to_nat (dg_numGuestSlots g)).
Local Abbreviation caps := (caps_of g).
Context (Hok : ∀ j, Slots.ranged base count j = true → handler_ok (caps j).2 handler).

Local Abbreviation mon := (Slots.mon base count caps handler).
Local Abbreviation follows p s Q := (obeys false mon p s Q).

Definition resting (s : nat → role) : Prop := ∀ j, s j = Caller COut.
Definition holds (i : nat) (s : nat → role) : Prop :=
  s i = Caller owned ∧ ∀ k, k ≠ i → s k = Caller COut.

Lemma at_spin i want max : ∀ iters, performs (Slots.at_slot i) (spinUntilEq32 i want max iters).
Proof.
  induction max as [|max IH]; intros iters; cbn [spinUntilEq32]; [done|]. unfold load. at_walk.
Qed.
Local Hint Resolve at_spin : within.

Lemma at_tryClaim i : performs (Slots.at_slot i) (tryClaimGuestSlot i).
Proof.
  unfold tryClaimGuestSlot, claimSlotGen, guest_stamp_lease, guest_MonotonicNanos, load, cas, store.
  at_walk.
Qed.

Lemma at_call_on i c data ty timeout : performs (Slots.at_slot i) (call_on g fuel i c data ty timeout).
Proof.
  unfold call_on, guest_write_header, guest_exchange, guest_publish_request, WaitState, guest_spin,
    recordOutcome, guest_call_sleep, reclaim_off, consume_claim, finish_call, release_owned,
    read_response, claimSlotGen, guest_stamp_lease, guest_MonotonicNanos, SignalEvent, WaitEvent,
    load_i32, load, cas, store. at_walk.
Qed.

Lemma ranged_slot idx :
  dg_numSlots g <= idx < dg_numSlots g + dg_numGuestSlots g →
  Slots.ranged base count (Z.to_nat idx) = true ∧ ∃ c, dg_slots g !! Z.to_nat idx = Some c ∧
    caps (Z.to_nat idx) = ((gs_reqBuffer c).2, (gs_respBuffer c).2) ∧
    0 <= (caps (Z.to_nat idx)).1 < 2 ^ 31 ∧ 0 <= (caps (Z.to_nat idx)).2 < 2 ^ 31.
Proof using Hg.
  clear Hok. destruct Hg as [Hl [Hn1 Hn2] Hs]. intros Hi. split.
  { unfold Slots.ranged. apply andb_true_iff. rewrite Nat.leb_le, Nat.ltb_lt. lia. }
  destruct (lookup_lt_is_Some_2 (dg_slots g) (Z.to_nat idx)) as [c Hc]; [lia|].
  exists c. split; [done|]. unfold caps_of. rewrite Hc. split; [done|].
  by eapply Forall_lookup_1 in Hs.
Qed.

Lemma claim_first_follows n index s :
  (∀ j, 0 <= j < n → dg_numSlots g <= index j < dg_numSlots g + dg_numGuestSlots g) →
  resting s →
  follows (claim_first g n index) s
    (λ r s', match r with
             | Some idx => holds (Z.to_nat idx) s' ∧
                 dg_numSlots g <= idx < dg_numSlots g + dg_numGuestSlots g
             | None => resting s'
             end).
Proof using Hg.
  clear Hok. intros Hidx Hs. unfold claim_first. apply obeys_bind.
  apply (obeys_for _ _ (λ _ _, resting)); [done| |done].
  clear s Hs. intros j [] s Hj Hs. destruct (ranged_slot (index j)) as (Hr&c&Hc&_); [apply Hidx; lia|].
  unfold guest_slot. rewrite Hc. apply obeys_bind.
  eapply obeys_mono, Slots.lift_slot; [|exact Hr|apply at_tryClaim|apply Hs|].
  2: { apply Slots.follows_mon1, tryClaimGuestSlot_follows. }
  intros [] s' [Hi Hk]; cbn [obeys].
  - split; [|apply Hidx; lia]. split; [done|]. intros k Hne. by rewrite Hk.
  - intros k. destruct (decide (k = Z.to_nat (index j))) as [->|]; [done|]. by rewrite Hk.
Qed.

(** Operations on no slot. *)
Definition aside : ∀ X, op X → bool := λ X o,
  match touched o with Some _ => false | None => negb (sets_reclaim o) end.

Lemma aside_follows {X} (p : prog X) s : within aside p (λ _, True) → follows p s (λ _ s', s' = s).
Proof.
  intros Hp. eapply obeys_mono, (within_inv aside mon (λ s', s' = s)); [|..|exact Hp|done].
  - by intros ? ? [-> _].
  - intros m Y o r -> Ha Ho. unfold Slots.mon, aside in *. rewrite Ha.
    destruct (touched o); [done|]. apply negb_true_iff in Ho. rewrite Ho. cbn [negb].
    by destruct (sees_reclaim o r).
  - intros m Y o r Ha. unfold Slots.mon. by rewrite Ha.
Qed.

Ltac aside_walk := within_walk ltac:(reflexivity).

Lemma reclaim_pass_follows s : follows (reclaim_pass g) s (λ r s', r = None ∧ s' = s).
Proof.
  unfold reclaim_pass. apply obeys_bind, obeys_call. intros r.
  unfold Slots.mon. cbn [answer_ok negb touched sets_reclaim sees_reclaim].
  rewrite bool_decide_true by done. destruct (Z.eqb_spec r 0) as [->|]; done.
Qed.

Lemma acquire_follows timeout s :
  0 < dg_numGuestSlots g → resting s →
  follows (acquire_guest_slot g fuel timeout) s
    (λ r s', match r with
             | inr idx => holds (Z.to_nat idx) s' ∧
                 dg_numSlots g <= idx < dg_numSlots g + dg_numGuestSlots g
             | inl _ => resting s'
             end).
Proof using Hg.
  clear Hok. intros Hn Hs. unfold acquire_guest_slot. apply obeys_bind.
  eapply obeys_mono, aside_follows; [|unfold next_offset; aside_walk]. intros offset ? ->.
  apply (obeys_loop _ _ (λ _, resting)); [done|done|].
  clear s Hs offset. intros [[offset deadline] backoff] s Hs. apply obeys_bind.
  eapply obeys_mono, claim_first_follows, Hs; cycle 1.
  { intros j _. unfold rotated. pose proof (Z.mod_pos_bound (u32 (j + offset)) _ Hn). lia. }
  clear s Hs. intros [idx|] s Hs; [done|]. apply obeys_bind.
  eapply obeys_mono, reclaim_pass_follows. intros ? ? [-> ->].
  eapply obeys_mono with (Q := λ r s',
    match r with inr (inr _) => False | _ => s' = s end).
  { intros [|[|]] ? H; simplify_eq/=; done. }
  eapply obeys_mono, (obeys_within aside mon _ (λ r, match r with inr (inr _) => False | _ => True end)
    (λ _ s', s' = s)).
  - intros [|[|]] ? [H ->]; done.
  - intros m Y o r Ha. unfold Slots.mon. by rewrite Ha.
  - unfold next_offset. aside_walk.
  - apply aside_follows. unfold next_offset. aside_walk.
Qed.

Lemma sendGuestCall_follows data ty timeout s :
  resting s →
  follows (sendGuestCallInternal g fuel data ty timeout) s
    (λ r s', answered handler (ty, data) r ∧ resting s').
Proof using Hg Hok.
  intros Hs. unfold sendGuestCallInternal.
  destruct (_ <? _); [by split; [apply refused_answered|]|].
  destruct (Z.eqb_spec (dg_numGuestSlots g) 0); [by split; [apply refused_answered|]|].
  destruct (go_num _ Hg). apply obeys_bind. eapply obeys_mono, acquire_follows, Hs; [|lia].
  clear s Hs. intros [e|idx] s Hs; [by split; [apply refused_answered|]|]. destruct Hs as [Hs Hidx].
  destruct (ranged_slot idx Hidx) as (Hr&c&Hc&Hcaps&H1&H2). unfold guest_slot. rewrite Hc.
  eapply obeys_mono, Slots.lift_slot; [|exact Hr|apply at_call_on|exact (proj1 Hs)|].
  2: { apply call_on_follows; [done..|by apply Hok]. }
  intros r s' [[Ha Hi] Hk]. split; [done|]. intros k.
  destruct (decide (k = Z.to_nat idx)) as [->|]; [done|]. rewrite Hk by done. by apply Hs.
Qed.
End thread.
End Calls.

(** ** The worker of the host *)

Module Serve.
Import Exchange.

(** The handler as the protocol sees it: it always answers. *)
Definition total (h : HostHandler) : Handler := λ ty req, Some (h ty req).

Section slot.
Context (i : nat) (reqCap respCap : Z) (h : HostHandler).
Context (Hreq : 0 <= reqCap < 2 ^ 31) (Hresp : 0 <= respCap < 2 ^ 31).
Context (Hok : handler_ok respCap (total h)).

Local Abbreviation mon := (Exchange.mon to_host i reqCap respCap (total h)).
Local Abbreviation follows p s Q := (obeys false mon p s Q).
Local Abbreviation follows_with p s Q := (obeys false mon (instantiate h p) s Q).

Ltac serve_eval :=
  cbn [Exchange.mon answer_ok responder_next lift on tag Nat.eqb andb fst snd guarded writes orb
       negb d_busy to_host];
  rewrite ?Nat.eqb_refl; use_tests; cbn [lift].
Ltac serve_walk := obeys_walk ltac:(serve_eval).
Ltac no_handler_walk := performs_walk ltac:(reflexivity).
Ltac tail_walk :=
  unfold LockForPublish, PublishResponse, SignalEvent, cas, load, store; no_handler_walk.

Lemma LockForPublish_exchange k :
  follows (LockForPublish i) (Responder (RBusy k))
    (λ b m, m = Responder (if b then RLocked k None None else RIdle)).
Proof. unfold LockForPublish, cas. serve_walk; done. Qed.

Lemma PublishResponse_exchange s k rs ty :
  answers to_host k rs ty = true →
  follows (PublishResponse i s) (Responder (RLocked k rs ty)) (λ _ m, m = Responder RIdle).
Proof. intros Ha. unfold PublishResponse, SignalEvent, cas, load. serve_walk; done. Qed.

(** Lock, put an answer in place, publish. *)
Lemma locked_publish_follows s k (stores : prog unit) :
  follows stores (Responder (RLocked k None None))
    (λ _ m, ∃ rs ty, m = Responder (RLocked k rs ty) ∧ answers to_host k rs ty = true) →
  follows (let* locked := LockForPublish i in
           if locked then stores ;;; let* _ := PublishResponse i s in Ret tt else Ret tt)
    (Responder (RBusy k)) (λ _ m, m = Responder RIdle).
Proof.
  intros Hst. apply obeys_bind. eapply obeys_mono, LockForPublish_exchange.
  intros [] m ->; [|done]. apply obeys_bind. eapply obeys_mono, Hst. intros _ m (rs&ty&->&Ha).
  apply obeys_bind. by eapply obeys_mono, PublishResponse_exchange.
Qed.

(** The handler sees the request and leaves its answer. *)
Lemma handler_follows off n t z maxResp :
  (off, n) = window reqCap (i32 z) → in_range off n reqCap = true →
  follows_with (call (RunHandler i off n maxResp t))
    (Responder (RBusy (mkKnow (Some t) (Some z) None None)))
    (λ r m, ∃ req, m = Responder (RBusy (mkKnow (Some t) (Some z) (Some req) (Some (h t req)))) ∧
       r = hr_size (h t req) ∧ Z.abs r <= respCap).
Proof using Hok Hresp.
  intros Hw Hr. cbn [call instantiate obeys]. intros req.
  unfold Exchange.mon at 1. destruct (answer_ok _ _); [|done].
  cbn [responder_next is_buf]. rewrite Nat.eqb_refl, Hr, bool_decide_true by done.
  cbn [andb lift]. intros [].
  destruct (Hok t req (h t req) eq_refl) as [_ Hin].
  pose proof (handler_size _ _ _ _ _ Hresp Hok (eq_refl : total h t req = _)) as Hsz.
  cbn [Exchange.mon answer_ok responder_next is_buf]. unfold total at 1.
  rewrite Nat.eqb_refl, Z.eqb_refl, bool_decide_true, Hin by done. cbn [andb lift].
  exists req. rewrite i32_id by lia. done.
Qed.

Lemma serve_claimed_exchange s :
  maxReqSize s = reqCap → maxRespSize s = respCap →
  follows_with (serve_claimed i s) (Responder (RBusy (mkKnow None None None None)))
    (λ _ m, m = Responder RIdle).
Proof using Hok Hreq Hresp.
  intros Hs1 Hs2. unfold serve_claimed. rewrite Hs1, Hs2. apply with_bind, with_plain;
    [unfold load_i32, load; no_handler_walk|].
  unfold load_i32, load. serve_walk. cbn [k_ty k_size k_req k_wrote]. rename r into z.
  pose proof (i32_range z) as Hz. rewrite abs_u32_abs by done.
  destruct (Z.ltb_spec reqCap (Z.abs (i32 z))) as [|Hle].
  { apply with_plain; [tail_walk|]. refine (locked_publish_follows s _ (store i F_respSize 0 ;;;
      store i F_msgType (MsgType_val SYSTEM_ERROR)) _). unfold store. serve_walk.
    eexists _, _. by split. }
  apply with_bind, with_plain; [unfold load; no_handler_walk|]. unfold load. serve_walk.
  cbn [k_ty k_size k_req k_wrote]. rename r into t. apply with_bind.
  eapply obeys_mono, (handler_follows _ _ t z); cycle 1.
  { unfold window. destruct (Z.leb_spec 0 (i32 z)); f_equal; try lia. rewrite u32_id; lia. }
  { unfold in_range. rewrite !andb_true_iff, !Z.leb_le.
    destruct (Z.leb_spec 0 (i32 z)); [lia|]. rewrite u32_id; lia. }
  intros r m (req&->&->&Hsz). rewrite abs_u32_abs, (proj2 (Z.ltb_ge _ _)) by lia. cbv zeta iota.
  apply with_plain; [tail_walk|]. refine (locked_publish_follows s _ (store i F_respSize _) _).
  unfold store. serve_walk. eexists _, _. split; [done|].
  cbn [answers d_special to_host k_ty k_wrote]. by rewrite Z.eqb_refl, orb_true_r.
Qed.

(** One visit of a slot. *)
Lemma visit_follows s (fastClaim : bool) (processed : Z) :
  maxReqSize s = reqCap → maxRespSize s = respCap →
  follows_with
    (let* current := load i F_state in
     if negb (current =? SLOT_REQ_READY) then Ret (inl processed : Z + Z)
     else
       (if negb fastClaim then let* _ := call (FetchAdd (LSlot i F_gen) 1) in Ret tt else Ret tt) ;;;
       let* (ok, _) := cas i F_state current SLOT_BUSY in
       if ok then
         (if negb fastClaim then stamp_lease i else Ret tt) ;;;
         serve_claimed i s ;;;
         Ret (inl (processed + 1))
       else Ret (inl processed)) (Responder RIdle)
    (λ _ m, m = Responder RIdle).
Proof using Hok Hreq Hresp.
  intros Hs1 Hs2. unfold load, cas. apply with_bind, with_plain; [no_handler_walk|]. serve_walk.
  destruct (Z.eqb_spec r SLOT_REQ_READY) as [->|]; [|done]. cbn [negb].
  apply with_bind, with_plain; [no_handler_walk|].
  eapply obeys_mono with (Q := λ _ m, m = Responder RIdle); [|destruct (negb fastClaim); by serve_walk].
  intros _ m ->. apply with_bind, with_plain; [no_handler_walk|]. serve_walk; [|done].
  apply with_bind, with_plain; [unfold stamp_lease, MonotonicNanos, store; no_handler_walk|].
  eapply obeys_mono with (Q := λ _ m, m = Responder (RBusy (mkKnow None None None None))).
  2: { unfold stamp_lease, MonotonicNanos, store. destruct (negb fastClaim); by serve_walk. }
  intros _ m ->. apply with_bind. eapply obeys_mono, serve_claimed_exchange; [|done..]. done.
Qed.
End slot.

(** Both sides see the same guest slots. *)
Record linked (A : Allocator) (g : DirectGuest) : Prop := mkLinked {
  lk_guest : guest_ok g;
  lk_num : numSlots A = dg_numSlots g ∧ numGuestSlots A = dg_numGuestSlots g;
  lk_total : dg_numSlots g + dg_numGuestSlots g < 2 ^ 31;
  lk_len : Z.of_nat (length (slots A)) = numSlots A + numGuestSlots A;
  lk_areas : ∀ j s, slots A !! j = Some s → (maxReqSize s, maxRespSize s) = Calls.caps_of g j }.

Section worker.
Context (A : Allocator) (g : DirectGuest) (h : HostHandler) (fuel : nat) (Hl : linked A g).
Local Abbreviation base := (Z.to_nat (dg_numSlots g)).
Local Abbreviation count := (Z.to_nat (dg_numGuestSlots g)).
Local Abbreviation caps := (Calls.caps_of g).
Context (Hok : ∀ j, Slots.ranged base count j = true → handler_ok (caps j).2 (total h)).

Local Abbreviation mon := (Slots.mon base count caps (total h)).
Local Abbreviation follows p s Q := (obeys false mon p s Q).
Local Abbreviation follows_with p s Q := (obeys false mon (instantiate h p) s Q).

Definition idle (s : nat → role) : Prop := ∀ j, s j = Responder RIdle.

(** Operations that leave every transaction alone. *)
Definition calm : ∀ X, op X → bool := λ X o,
  match touched o with
  | Some j => Slots.ranged base count j && Exchange.plain j X o
  | None => negb (sets_reclaim o)
  end.

Lemma calm_follows {X} (p : prog X) s :
  within calm p (λ _, True) → idle s → follows p s (λ _, idle).
Proof.
  intros Hp Hs. eapply obeys_mono, (within_inv calm mon idle), Hs; [|..|exact Hp].
  - by intros ? ? [? _].
  - intros m Y o r Hm Ha Ho. unfold Slots.mon, calm in *. rewrite Ha. cbn [negb].
    destruct (touched o) as [j|] eqn:Ht.
    + apply andb_true_iff in Ho as [Hj Ho]. rewrite Hj. unfold Slots.mon1.
      destruct (sees_reclaim o r); [done|]. rewrite Hm.
      assert (Exchange.mon to_host j (caps j).1 (caps j).2 (total h) (Responder RIdle) Y o r
        = Next (Responder RIdle)) as ->; [|intros k; unfold upd; by case_decide].
      unfold Exchange.mon. rewrite Ha. apply negb_true_iff in Ho. unfold guarded in Ho.
      rewrite !orb_false_iff in Ho. destruct Ho as [[[[E1 E2] E3] E4] E5].
      destruct o; try done; cbn [responder_next lift]; unfold guarded; cbn [writes] in *;
        by rewrite ?E1, ?E2, ?E3, ?E4.
    + apply negb_true_iff in Ho. rewrite Ho. by destruct (sees_reclaim o r).
  - intros m Y o r Ha. unfold Slots.mon. by rewrite Ha.
Qed.

Lemma calm_with {X} (p : prog X) s :
  within calm p (λ _, True) → idle s → follows_with p s (λ _, idle).
Proof.
  intros Hp Hs. eapply with_within; [| |exact Hp|by apply calm_follows].
  - intros Y o. unfold calm. destruct o; try done. cbn [touched]. by rewrite andb_false_r.
  - intros m Y o r Ha. unfold Slots.mon. by rewrite Ha.
Qed.

Lemma guest_count_linked : guest_count A = count.
Proof using Hl.
  clear Hok. destruct Hl as [[] [E1 E2] Ht _ _]. unfold guest_count.
  rewrite E1, E2, u32_id; [f_equal; lia|lia].
Qed.

(** The slots that the loops visit. *)
Lemma visited j :
  numSlots A <= j < numSlots A + Z.of_nat (guest_count A) →
  Slots.ranged base count (Z.to_nat j) = true ∧
  ∃ s, slots A !! Z.to_nat j = Some s ∧ (∀ X (f : nat → SlotInfo → prog X),
    with_slot A j f = f (Z.to_nat j) s) ∧
    maxReqSize s = (caps (Z.to_nat j)).1 ∧ maxRespSize s = (caps (Z.to_nat j)).2 ∧
    0 <= (caps (Z.to_nat j)).1 < 2 ^ 31 ∧ 0 <= (caps (Z.to_nat j)).2 < 2 ^ 31.
Proof using Hl.
  clear Hok. rewrite guest_count_linked. destruct Hl as [Hg [E1 E2] Ht Hlen Ha]. rewrite E1, E2 in *.
  destruct (go_num _ Hg). intros Hj.
  destruct (Calls.ranged_slot g Hg j) as (Hr&c&_&_&Hc); [lia|]. split; [done|].
  destruct (lookup_lt_is_Some_2 (slots A) (Z.to_nat j)) as [s Hs]; [lia|].
  exists s. split; [done|]. split; [unfold with_slot; by rewrite Hs|]. rewrite <-(Ha _ _ Hs) in *. done.
Qed.

Ltac calm_walk := within_walk ltac:(first [reflexivity|apply andb_true_iff; by split]).

Lemma calm_anyRequestReady : within calm (anyRequestReady A) (λ _, True).
Proof using Hl.
  clear Hok. unfold anyRequestReady. apply within_seq; [|by intros].
  apply (within_for _ _ _ _ _ (λ _, True)); [done| |done]. intros j s Hj _.
  destruct (visited j Hj) as (Hr&i&_&->&_). unfold load. calm_walk.
Qed.

Lemma calm_setHostState v : within calm (setHostState A v) (λ _, True).
Proof using Hl.
  clear Hok. unfold setHostState. apply within_seq; [|by intros].
  apply (within_for _ _ _ _ _ (λ _, True)); [done| |done]. intros j s Hj _.
  destruct (visited j Hj) as (Hr&i&_&->&_). unfold store. calm_walk.
Qed.

Lemma calm_GuestRequestEvent : within calm (GuestRequestEvent A) (λ _, True).
Proof using Hl.
  clear Hok. unfold GuestRequestEvent. destruct (_ && _) eqn:E; [|done].
  apply andb_true_iff in E as [E _]. apply Z.ltb_lt in E.
  destruct (visited (numSlots A)) as (_&i&_&->&_); [|done]. rewrite guest_count_linked.
  destruct Hl as [_ [_ E2] _ _ _]. lia.
Qed.

Lemma calm_WaitEvent ev t : within calm (WaitEvent ev t) (λ _, True).
Proof. unfold WaitEvent. calm_walk. Qed.
Local Hint Resolve calm_anyRequestReady calm_setHostState calm_GuestRequestEvent calm_WaitEvent : within.

Lemma calm_guest_sleepAction ev t : within calm (guest_sleepAction A ev t) (λ _, True).
Proof using Hl. clear Hok. unfold guest_sleepAction. calm_walk. Qed.
Local Hint Resolve calm_guest_sleepAction : within.

Lemma calm_WaitForRequest spin t : within calm (WaitForRequest A spin t) (λ _, True).
Proof using Hl.
  clear Hok. unfold WaitForRequest. assert (∀ l ev, within calm
    (Wait l (anyRequestReady A) (guest_sleepAction A ev t)) (λ _, True)).
  { intros l ev. apply within_Wait; [done|eauto with within..]. }
  calm_walk.
Qed.

(** A round over the slots. *)
Lemma ProcessGuestCalls_exchange limit s :
  idle s → follows_with (ProcessGuestCalls A limit) s (λ _, idle).
Proof using Hl Hok.
  intros Hs. unfold ProcessGuestCalls. apply with_bind. eapply obeys_mono, calm_with, Hs;
    [|unfold is_running; calm_walk]. clear s Hs. intros run s Hs. destruct (negb run); [done|].
  apply with_bind. eapply obeys_mono, calm_with, Hs; [|calm_walk]. clear s Hs. intros reclaim s Hs.
  apply with_bind, (with_for _ _ (λ _, idle)); [done| |done]. clear s Hs. intros j n s Hj Hs.
  destruct (_ && _); [done|]. destruct (visited j Hj) as (Hr&i&_&->&H1&H2&H3&H4).
  eapply obeys_mono, Slots.lift_slot; [|exact Hr| |apply Hs|].
  3: { apply Slots.follows_mon1, visit_follows; [done..|by apply Hok|done|done]. }
  - intros r s' [Hi Hk]. assert (idle s') as Hs'; [|by destruct r].
    intros k. destruct (decide (k = Z.to_nat j)) as [->|]; [done|]. by rewrite Hk.
  - apply performs_instantiate.
    + intros ? ? ? ? ? ->%Nat.eqb_eq. split; [|intros]; apply Nat.eqb_refl.
    + unfold serve_claimed, LockForPublish, PublishResponse, SignalEvent, stamp_lease,
        MonotonicNanos, load_i32, load, store, cas. Calls.at_walk.
Qed.

Lemma GuestWorkerLoop_exchange spin batch s :
  idle s → follows_with (GuestWorkerLoop A fuel spin batch) s (λ _, idle).
Proof using Hl Hok.
  intros Hs. unfold GuestWorkerLoop. apply (with_loop _ _ (λ _, idle)); [done|].
  clear s Hs. intros _ s Hs. apply with_bind. eapply obeys_mono, calm_with, Hs; [|calm_walk].
  clear s Hs. intros run s Hs. destruct (run =? 0); [done|].
  apply with_bind. eapply obeys_mono, calm_with, Hs; [|apply calm_WaitForRequest].
  clear s Hs. intros ? s Hs. apply with_bind. by eapply obeys_mono, ProcessGuestCalls_exchange, Hs.
Qed.
End worker.
End Serve.

(** ** The composition *)

Record guest_call : Type := mkGuestCall {
  gc_data : list byte; gc_type : Z; gc_timeout : Z }.

(** The goroutine: one call after the other. *)
Fixpoint goroutine (g : DirectGuest) (fuel : nat) (cs : list guest_call)
    : prog (list (GuestError + list byte)) :=
  match cs with
  | [] => Ret []
  | c :: cs =>
      let* r := sendGuestCallInternal g fuel (gc_data c) (gc_type c) (gc_timeout c) in
      let* rs := goroutine g fuel cs in
      Ret (r :: rs)
  end.

(** The thread that [GuestCallWorker::Start] spawns, with its handler. *)
Definition host_worker (A : Allocator) (h : HostHandler) (fuel : nat) (spin_ : bool)
    (maxBatchSize : Z) : prog (list (GuestError + list byte)) :=
  instantiate h (GuestWorkerLoop A fuel spin_ maxBatchSize ;;; Ret []).

Definition guest_ranged (g : DirectGuest) : nat → bool :=
  Slots.ranged (Z.to_nat (dg_numSlots g)) (Z.to_nat (dg_numGuestSlots g)).

(** The guest slots before the first call. *)
Record prepared (g : DirectGuest) (w : World) : Prop := mkPrepared {
  pr_reclaim : mem w L_guestReclaim = 0;
  pr_slots : ∀ j, guest_ranged g j = true → mem w (LSlot j F_state) = SLOT_FREE ∧
    Z.of_nat (length (bytes w (BReq j))) = (Calls.caps_of g j).1 ∧
    Z.of_nat (length (bytes w (BResp j))) = (Calls.caps_of g j).2 }.

(** What else runs: anything that leaves the reclaim timeout and the transactions on
    the guest slots alone. *)
Definition elsewhere (g : DirectGuest) : World → World → Prop :=
  Slots.frames (Z.to_nat (dg_numSlots g)) (Z.to_nat (dg_numGuestSlots g)).

Local Abbreviation on_slots f g h :=
  (f (Z.to_nat (dg_numSlots g)) (Z.to_nat (dg_numGuestSlots g)) (Calls.caps_of g) (Serve.total h)).

Lemma ranged_caps g j :
  guest_ok g → guest_ranged g j = true → 0 <= (Calls.caps_of g j).2 < 2 ^ 31.
Proof.
  intros Hg Hj. unfold guest_ranged, Slots.ranged in Hj. destruct (go_num _ Hg).
  rewrite andb_true_iff, Nat.leb_le, Nat.ltb_lt in Hj.
  destruct (Calls.ranged_slot g Hg (Z.of_nat j)) as (_&c&_&_&_&H2); [lia|].
  by rewrite Nat2Z.id in H2.
Qed.

Lemma goroutine_follows g h fuel cs :
  guest_ok g →
  (∀ j, guest_ranged g j = true → handler_ok (Calls.caps_of g j).2 (Serve.total h)) →
  ∀ s, Calls.resting s →
  obeys false (on_slots Slots.mon g h) (goroutine g fuel cs) s
    (λ rs _, Forall2 (λ c r, ∀ d, r = inr d → d = hr_bytes (h (gc_type c) (gc_data c))) cs rs).
Proof.
  intros Hg Hh. induction cs as [|c cs IH]; intros s Hs; [by constructor|]. cbn [goroutine].
  apply obeys_bind. eapply obeys_mono, Calls.sendGuestCall_follows, Hs; [|exact Hg|exact Hh].
  clear s Hs. intros r s [Ha Hs]. apply obeys_bind. eapply obeys_mono, IH, Hs. intros rs ? Hrs.
  constructor; [|done]. intros d ->. specialize (Ha d eq_refl). by injection Ha as <-.
Qed.

(** Request/response integrity of guest calls.  One goroutine makes any calls of
    [sendGuestCallInternal], with requests of any type and size and any timeouts, and
    the worker thread of the host serves the guest slots with a handler that keeps
    its contract, spinning or sleeping, in batches of any size.  Under every
    interleaving, with calls that time out at any point and slots that are
    recycled while the host still works on an abandoned request, neither thread
    reaches undefined behaviour and every call that succeeds returns the bytes that
    the handler answered to its own request. *)
Lemma guest_call_integrity A g h fuel fuel' spin_ batch cs w w' ps :
  Serve.linked A g →
  (∀ j, guest_ranged g j = true → handler_ok (Calls.caps_of g j).2 (Serve.total h)) →
  prepared g w →
  rtc (pool_step (elsewhere g))
    (w, [goroutine g fuel cs; host_worker A h fuel' spin_ batch]) (w', ps) →
  (∀ p, p ∈ ps → ¬ faulty w' p) ∧
  (∀ rs, ps !! 0%nat = Some (Ret rs) →
     Forall2 (λ c r, ∀ d, r = inr d → d = hr_bytes (h (gc_type c) (gc_data c))) cs rs).
Proof.
  intros Hl Hh [Hrec Hslots] Hr. assert (Hg := Serve.lk_guest _ _ Hl).
  set (Q := λ (rs : list (GuestError + list byte)) (s : nat → Exchange.role),
    (∃ m, s 0%nat = Exchange.Responder m) ∨
    Forall2 (λ c r, ∀ d, r = inr d → d = hr_bytes (h (gc_type c) (gc_data c))) cs rs).
  edestruct (monitor_sound (on_slots Slots.mon g h) (elsewhere g) (on_slots Slots.inv g h) Q)
    as (ss&Hm);
    [apply Slots.slots_inv_env|apply Slots.slots_inv_step; [|exact Hh]| |exact Hr|].
  { intros j Hj. by apply ranged_caps. }
  { split.
    - exists (λ _, Exchange.Caller Exchange.COut), (λ _, Exchange.Responder Exchange.RIdle).
      split; [done|]. split; [done|]. intros j. eexists _, _. split; [done|]. split; [done|].
      intros Hj. destruct (Hslots j Hj) as (Hst&?&?). split; [done|]. split; [|done].
      cbn. by rewrite Hst.
    - constructor; [|constructor; [|done]].
      + eapply obeys_mono, goroutine_follows; [|done..]. intros rs s H. by right.
      + apply with_bind. eapply obeys_mono, Serve.GuestWorkerLoop_exchange; [|done..].
        intros ? s Hs. left. eauto. }
  split.
  - intros p [j Hj]%list_elem_of_lookup. eapply monitored_not_faulty; [|exact Hm|exact Hj].
    intros ????. by apply Slots.slots_inv_defined.
  - intros rs Hrs. destruct Hm as [(sc&sr&->&_&Hss) Hps].
    destruct (Forall2_lookup_l _ _ _ _ _ Hps Hrs) as (m&[= <-]&[[m' Hm']|HQ]); [|done].
    destruct (Hss 0%nat) as (?&?&?&_). congruence.
Qed.
