(* ===== verification/Rpc.v ===== *)
(** * Rpc: a call returns the handler's answer

    [SendToSlot] of the host (DirectHost.h, SlotAllocator.h) composed with the
    worker of the guest (go/direct.go), under every interleaving of their
    operations: what a successful call returns is what the handler answered to
    the request of that very call.  The calls before it may have timed out in any
    phase of theirs, so that the slot was stolen back while the guest still worked
    on the older request.

    One host thread uses the slot, which is how a thread-to-slot assignment with
    [SendToSlot] works; all else (other slots, other threads, events, the waiting
    flags) is arbitrary.

    - [to_guest], [reply]: the protocol of [SlotExchange] in the direction of host
      calls, and the specification of a call, from the handler alone;
    - [Rpc]: the two programs follow the protocol;
    - [rpc_integrity]: their composition. *)

From S2P Require Export SlotExchange SlotHandles.

Local Open Scope Z_scope.

(** Caller calls; the worker itself answers a shutdown and a heartbeat. *)
Definition to_guest : Direction :=
  mkDirection SLOT_BUSY SLOT_GUEST_BUSY F_activeWait
    (λ t, (t =? MsgType_val SHUTDOWN) || (t =? MsgType_val HEARTBEAT_REQ)).

Lemma to_guest_ok : dir_ok to_guest.
Proof. split; [apply (bool_decide_unpack _); by vm_compute..|done]. Qed.

(** The answer to a request of a type: none when the handler panics. *)
Definition reply : Handler → Z * list byte → option (list byte) :=
  answer (d_special to_guest).

Module Rpc.
Import Exchange.
Section rpc.
Context (i : nat) (reqCap respCap : Z) (handler : Handler).
Context (Hreq : 0 <= reqCap < 2 ^ 31) (Hresp : 0 <= respCap < 2 ^ 31).
Context (Hok : handler_ok respCap handler).

Local Abbreviation mon := (Exchange.mon to_guest i reqCap respCap handler).
Local Abbreviation follows p s Q := (obeys false mon p s Q).
Local Abbreviation answers := (Exchange.answers to_guest).
Local Abbreviation made_request := (Exchange.made_request reqCap).
Local Abbreviation filled := (Exchange.filled reqCap).
Local Abbreviation plain := (Exchange.plain i).
Local Abbreviation watch := (Exchange.watch to_guest i).

(** ** The worker follows the protocol *)

Ltac plain_walk := within_walk ltac:(reflexivity).

Lemma plain_SignalEvent ev : within plain (SignalEvent ev) (λ _, True).
Proof. unfold SignalEvent. plain_walk. Qed.
Lemma plain_WaitEvent ev t : within plain (WaitEvent ev t) (λ _, True).
Proof. unfold WaitEvent. plain_walk. Qed.
Local Hint Resolve plain_SignalEvent plain_WaitEvent : within.

Lemma plain_spinUntilEq32 want max : ∀ iters,
  within plain (spinUntilEq32 i want max iters) (λ _, True).
Proof.
  induction max as [|max IH]; intros iters; cbn [spinUntilEq32]; [done|].
  unfold load. plain_walk.
Qed.
Local Hint Resolve plain_spinUntilEq32 : within.

Lemma plain_WaitState fuel want sleep :
  within plain sleep (λ _, True) → within plain (WaitState fuel i want sleep) (λ _, True).
Proof.
  intros Hs. unfold WaitState, guest_spin, recordOutcome, cas, load. plain_walk.
Qed.

Lemma plain_guest_worker_sleep ev : within plain (guest_worker_sleep i ev) (λ _, True).
Proof. unfold guest_worker_sleep, store, load. plain_walk. Qed.

Lemma plain_guest_stamp_lease : within plain (guest_stamp_lease i) (λ _, True).
Proof. unfold guest_stamp_lease, guest_MonotonicNanos, store. plain_walk. Qed.

Ltac guest_eval :=
  cbn [Exchange.mon answer_ok responder_next lift on tag Nat.eqb andb fst snd guarded writes orb
       negb d_busy to_guest];
  rewrite ?Nat.eqb_refl; use_tests; cbn [lift].
Ltac guest_walk := obeys_walk ltac:(guest_eval).

(** The publish, once the header stores have put an answer in place. *)
Lemma publish_follows ev k rs ty :
  answers k rs ty = true →
  follows (guest_publishResponse i ev) (Responder (RLocked k rs ty)) (λ _ s, s = Responder RIdle).
Proof.
  intros Hans. unfold guest_publishResponse, SignalEvent, cas, load. guest_walk; done.
Qed.

Lemma lock_follows k :
  follows (guest_lockForPublish i) (Responder (RBusy k))
    (λ b s, s = Responder (if b then RLocked k None None else RIdle)).
Proof. unfold guest_lockForPublish, cas, load. guest_walk; done. Qed.

Lemma publish_with_follows c stores k :
  follows stores (Responder (RLocked k None None))
    (λ _ s, ∃ rs ty, s = Responder (RLocked k rs ty) ∧ answers k rs ty = true) →
  follows (publish_with i c stores) (Responder (RBusy k)) (λ _ s, s = Responder RIdle).
Proof.
  intros Hst. unfold publish_with. apply obeys_bind. eapply obeys_mono, lock_follows.
  intros [] s ->; [|done]. apply obeys_bind. eapply obeys_mono, Hst.
  intros _ s (rs&ty&->&Hans). apply obeys_bind. by eapply obeys_mono, publish_follows.
Qed.

Lemma call_handler_follows c off n t z :
  (gs_respBuffer c).2 = respCap → (off, n) = window reqCap (i32 z) →
  in_range off n reqCap = true →
  follows (call_handler handler i c off n t) (Responder (RBusy (mkKnow (Some t) (Some z) None None)))
    (λ r s, ∃ req wr, s = Responder (RBusy (mkKnow (Some t) (Some z) (Some req) wr)) ∧
       ∀ sz ty, r = Some (sz, ty) → ∃ h, wr = Some h ∧ sz = hr_size h ∧ ty = hr_type h).
Proof.
  intros Hc Hw Hr. unfold call_handler. apply obeys_bind, obeys_call. intros req.
  unfold Exchange.mon. destruct (answer_ok _ _); [|done]. cbn [responder_next is_buf].
  rewrite Nat.eqb_refl, Hr, bool_decide_true by done. cbn [andb lift].
  destruct (handler t req) as [h|] eqn:Hh; [|by exists req, None].
  rewrite Hc. destruct (in_range _ _ respCap) eqn:Hin; [|by exists req, None].
  apply obeys_bind, obeys_call. intros []. cbn [Exchange.mon answer_ok responder_next is_buf].
  rewrite Hh, Nat.eqb_refl, Z.eqb_refl, bool_decide_true, Hin by done. cbn [andb lift].
  eexists _, _. split; [done|]. intros ?? [= <- <-]. eauto.
Qed.

Lemma unlocked_idle : unlocked (Responder RIdle).
Proof. by left. Qed.
Lemma unlocked_busy k : unlocked (Responder (RBusy k)).
Proof. right. eauto. Qed.
Local Hint Resolve unlocked_idle unlocked_busy : core.

(** The worker is at a request when it panics. *)
Definition after_round (r : round) (s : role) : Prop :=
  unlocked s ∧ (r = Panics → ∃ k, s = Responder (RBusy k)).

(** A publish ends a round. *)
Lemma publish_round c stores k r :
  r ≠ Panics →
  follows stores (Responder (RLocked k None None))
    (λ _ s, ∃ rs ty, s = Responder (RLocked k rs ty) ∧ answers k rs ty = true) →
  follows (publish_with i c stores ;;; Ret r) (Responder (RBusy k)) after_round.
Proof.
  intros Hr Hst. apply obeys_bind. eapply obeys_mono, publish_with_follows, Hst.
  intros _ s ->. by split.
Qed.

Ltac header_stores := unfold refuse, store; guest_walk; eexists _, _; (split; [reflexivity|]).

Lemma serve_request_follows c :
  (gs_reqBuffer c).2 = reqCap → (gs_respBuffer c).2 = respCap →
  follows (serve_request handler i c) (Responder (RBusy (mkKnow None None None None))) after_round.
Proof using Hreq.
  intros Hc1 Hc2. unfold serve_request, load. apply obeys_bind, obeys_call. intros t.
  guest_eval. cbn [k_ty k_size k_req k_wrote].
  destruct (t =? MsgType_val SHUTDOWN) eqn:Es.
  { apply publish_round; [done|]. header_stores.
    cbn [Exchange.answers d_special to_guest k_ty]. rewrite Es. done. }
  destruct (t =? MsgType_val HEARTBEAT_REQ) eqn:Eh.
  { apply publish_round; [done|]. header_stores.
    cbn [Exchange.answers d_special to_guest k_ty]. rewrite Eh, Es. done. }
  unfold load_i32, load. do 2 apply obeys_bind. apply obeys_call. intros z.
  guest_eval. cbn [k_ty k_size k_req k_wrote obeys]. rewrite Hc1.
  destruct (request_window reqCap (i32 z)) as [[off n]|] eqn:Ew; cycle 1.
  { apply publish_round; [done|]. header_stores. done. }
  apply request_window_Some in Ew as [Ew Hr]; [|done|apply i32_range].
  apply obeys_bind. eapply obeys_mono, call_handler_follows; [|done..].
  intros [[sz ty]|] s (req&wr&->&Hres).
  - destruct (Hres sz ty eq_refl) as (h&->&->&->). apply publish_round; [done|]. header_stores.
    cbn [Exchange.answers d_special to_guest k_ty k_wrote]. rewrite Es, Eh, Z.eqb_refl. cbn [orb andb].
    rewrite orb_true_iff, !bool_decide_eq_true. by right.
  - split; [done|]. eauto.
Qed.

Lemma claim_request_follows g s :
  unlocked s →
  follows (claim_request g i) s
    (λ (b : bool) s', if b then s' = Responder (RBusy (mkKnow None None None None)) else unlocked s').
Proof.
  intros Hs. assert (follows (cas i F_state SLOT_REQ_READY SLOT_GUEST_BUSY) s
    (λ (r : bool * Z) s', if r.1 then s' = Responder (RBusy (mkKnow None None None None))
                        else unlocked s')) as Hcas.
  { destruct Hs as [->|[k ->]]; unfold cas; guest_walk; auto. }
  unfold claim_request. destruct (dg_fastPathAllowed g).
  - apply obeys_bind. eapply obeys_mono, Hcas. by intros [[] ?] s'.
  - unfold claimSlotGen. do 2 apply obeys_bind.
    assert (follows (call (FetchAdd (LSlot i F_gen) 1)) s (λ _ s', s' = s)) as Hgen.
    { destruct Hs as [->|[k ->]]; by guest_walk. }
    eapply obeys_mono, Hgen. intros _ s' ->. cbn [obeys]. apply obeys_bind.
    eapply obeys_mono, Hcas. intros [[] ?] s'; cbn [fst]; [|done]. intros ->.
    unfold guest_stamp_lease, guest_MonotonicNanos, store. by guest_walk.
Qed.

Lemma workerLoopInternal_follows g fuel c s :
  (gs_reqBuffer c).2 = reqCap → (gs_respBuffer c).2 = respCap → unlocked s →
  follows (workerLoopInternal g handler fuel i c) s
    (λ (b : bool) s', unlocked s' ∧ (b = false → ∃ k, s' = Responder (RBusy k))).
Proof using Hreq.
  intros Hc1 Hc2 Hs. unfold workerLoopInternal. apply obeys_bind, plain_unlocked;
    [unfold store; plain_walk|done|]. clear s Hs. intros _ s Hs.
  apply (obeys_loop _ _ (λ _, unlocked)); [done|done|]. clear s Hs. intros _ s Hs.
  apply obeys_bind, plain_unlocked; [plain_walk|done|]. clear s Hs. intros closing s Hs.
  destruct (closing =? 1); [done|]. apply obeys_bind, plain_unlocked;
    [apply plain_WaitState, plain_guest_worker_sleep|done|]. clear s Hs. intros [] s Hs; [|done].
  apply obeys_bind. eapply obeys_mono, claim_request_follows, Hs. intros [] s' Hs'; [|done].
  subst s'. apply obeys_bind. eapply obeys_mono, serve_request_follows; [|done..].
  intros [] s' [Hu Hp]; cbn [obeys]; [done| |]; (split; [done|]); [done|auto].
Qed.

Lemma recover_panic_follows c k :
  follows (recover_panic i c) (Responder (RBusy k)) (λ _, unlocked).
Proof.
  unfold recover_panic, load. guest_walk; try by auto.
  eapply obeys_mono, publish_with_follows; [by intros _ s ->|]. header_stores. done.
Qed.

Lemma workerLoop_follows g fuel c :
  dg_slots g !! i = Some c → (gs_reqBuffer c).2 = reqCap → (gs_respBuffer c).2 = respCap →
  follows (workerLoop g handler fuel i) (Responder RIdle) (λ _, unlocked).
Proof using Hreq.
  intros Hg Hc1 Hc2. unfold workerLoop. rewrite Hg.
  apply (obeys_loop _ _ (λ _, unlocked)); [done|done|]. intros _ s Hs.
  apply obeys_bind, plain_unlocked; [plain_walk|done|]. clear s Hs. intros closing s Hs.
  destruct (closing =? 1); [done|]. apply obeys_bind.
  eapply obeys_mono, workerLoopInternal_follows, Hs; [|done..].
  intros [] s' [Hu Hp]; [done|]. destruct (Hp eq_refl) as [k ->].
  apply obeys_bind. eapply obeys_mono, recover_panic_follows. done.
Qed.

(** ** The calls of the host follow the protocol *)

Ltac host_eval :=
  cbn [Exchange.mon answer_ok caller_next owned]; unfold caller_store, caller_load, read_type;
  cbn [lift on tag Nat.eqb andb fst snd guarded writes orb negb d_own d_flag to_guest];
  rewrite ?Nat.eqb_refl; use_tests; cbn [lift].
Ltac host_walk := obeys_walk ltac:(host_eval).

Lemma plain_stamp_lease : within plain (stamp_lease i) (λ _, True).
Proof. unfold stamp_lease, MonotonicNanos, store. plain_walk. Qed.

Lemma claimable_not_done v :
  (v =? SLOT_FREE) = true ∨ stealable v = true → (v =? SLOT_DONE) = false.
Proof.
  unfold stealable. rewrite !orb_true_iff, !Z.eqb_eq, Z.eqb_neq.
  by intros [->|[[->| ->]| ->]].
Qed.

Lemma tryClaimSlot_host :
  follows (tryClaimSlot i) (Caller COut) (λ b s, s = Caller (if b then owned else COut)).
Proof.
  unfold tryClaimSlot, load, cas. host_walk; try done;
    rewrite claimable_not_done by auto; cbn [negb lift]; try done;
    apply obeys_bind, plain_steady; done || apply plain_stamp_lease.
Qed.

(** *** The wait *)

Ltac watch_walk := within_walk ltac:(reflexivity).

Local Hint Resolve watch_SignalEvent watch_WaitEvent : within.

Lemma watch_sleepAction fuel s t : within watch (sleepAction fuel i s t) (λ _, True).
Proof. unfold sleepAction, checkReady, load, store. watch_walk. Qed.

Lemma WaitForRespReady_host fuel s t q m :
  waits q m →
  follows (WaitForRespReady fuel i s t) m
    (λ (b : bool) m', if b then m' = Caller (CReady q) else waits q m').
Proof.
  intros Hm. unfold WaitForRespReady. apply obeys_bind, (watch_waits to_guest i reqCap respCap handler _ q);
    [unfold load; watch_walk|done|]. clear m Hm. intros l m Hm. apply obeys_bind.
  assert (∀ m, waits q m → mon m _ Pause tt = Next m) as Hpause by by intros ? [->| ->].
  eapply obeys_mono, (obeys_Wait false mon (waits q) Hpause _ _ _ (λ m, m = Caller (CReady q))
    (λ (b : bool) (_ : Z) m', if b then m' = Caller (CReady q) else waits q m'));
    [|..|exact Hm| | | |].
  - intros [[] l'] m' H; cbn [fst snd] in H; apply obeys_bind; unfold store.
    + subst. host_walk. done.
    + apply (watch_waits to_guest i reqCap respCap handler _ q); [watch_walk|done|done].
  - clear m Hm. intros m Hm. unfold checkReady, load. apply obeys_bind, obeys_call. intros r.
    destruct Hm as [->| ->]; host_eval; destruct (r =? SLOT_RESP_READY) eqn:E; cbn [lift obeys];
      rewrite ?E; unfold waits; auto.
  - intros m' Hm'. apply (watch_waits to_guest i reqCap respCap handler _ q); [apply watch_sleepAction|done|done].
  - intros m' ->. done.
  - done.
Qed.

Section calls.
Context (A : Allocator) (s : SlotInfo) (fuel : nat).
Hypothesis Hslot : slots A !! i = Some s.
Hypothesis Hindex : bad_index A (Z.of_nat i) = false.
Hypothesis Hmax : maxReqSize s = reqCap ∧ maxRespSize s = respCap.

Lemma with_slot_i {X} (f : nat → SlotInfo → prog X) : with_slot A (Z.of_nat i) f = f i s.
Proof using Hslot. unfold with_slot. by rewrite Nat2Z.id, Hslot. Qed.

Lemma AcquireSpecificSlot_host t :
  follows (AcquireSpecificSlot A fuel (Z.of_nat i) t) (Caller COut)
    (λ r m, (r = -1 ∧ m = Caller COut) ∨ (r = Z.of_nat i ∧ m = Caller owned)).
Proof using Hslot.
  unfold AcquireSpecificSlot. apply obeys_bind, plain_steady; [done|unfold is_running; plain_walk|].
  intros run. destruct (_ || _); [by left|]. rewrite with_slot_i.
  apply (obeys_loop _ _ (λ _ m, m = Caller COut)); [done|done|]. intros [start retries] m ->.
  apply obeys_bind. eapply obeys_mono, tryClaimSlot_host. intros [] m ->; [by right|].
  unfold CpuRelax, ThreadYield. host_walk; try done. by left.
Qed.

Lemma put_request_host data size :
  is_i32 size → (∀ d, data = Some d → abs_u32 size <= Z.of_nat (length d)) →
  follows (put_request A (Z.of_nat i) data size) (Caller owned)
    (λ e m, match e with
            | None => ∃ cp, m = Caller (COwn cp None None) ∧ filled data size cp
            | Some _ => m = Caller COut
            end).
Proof using Hindex Hmax Hreq Hslot.
  intros Hsz Hlen. unfold put_request. destruct (Z.eqb_spec size 0) as [->|Hne].
  { exists None. split; [done|by left]. }
  destruct data as [d|]; [|rewrite with_slot_i; unfold store; by host_walk].
  unfold GetMaxReqSize. rewrite Hindex, with_slot_i. cbn [bind]. rewrite (proj1 Hmax).
  rewrite (i32_id reqCap) by lia. rewrite (u32_id reqCap) by lia.
  specialize (Hlen d eq_refl). rewrite abs_u32_abs in * by done.
  destruct (Z.ltb_spec reqCap (Z.abs size)); [rewrite with_slot_i; unfold store; by host_walk|].
  unfold read_data. replace (in_range 0 _ _) with true; cycle 1.
  { symmetry. unfold in_range. rewrite !andb_true_iff, !Z.leb_le. lia. }
  cbn [bind]. assert (length (request (Some d) size) = Z.to_nat (Z.abs size)) as Hl.
  { unfold request. simpl. rewrite length_take. lia. }
  unfold slice. rewrite drop_0. change (take _ d) with (request (Some d) size).
  unfold write_req, GetReqBuffer. rewrite Hindex, Nat2Z.id.
  assert ((if 0 <=? size then 0 else u32 (reqCap - Z.abs size)) = (window reqCap size).1) as ->.
  { unfold window. destruct (Z.leb_spec 0 size); [done|]. simpl. rewrite u32_id; lia. }
  apply obeys_bind, obeys_call. intros []. cbn [Exchange.mon answer_ok caller_next owned is_buf].
  rewrite Nat.eqb_refl. cbn [andb]. replace (in_range _ _ reqCap) with true; cycle 1.
  { symmetry. unfold in_range, window. rewrite !andb_true_iff, !Z.leb_le, Hl.
    destruct (Z.leb_spec 0 size); simpl; lia. }
  cbn [lift obeys]. eexists. split; [done|]. right. rewrite Hl. split_and!; [done|lia|lia].
Qed.

Lemma copy_response_host q :
  follows (copy_response i s) (Caller (CTaken false q true None))
    (λ d m, reply handler q = Some d ∧ Z.of_nat (length d) <= respCap ∧
       ∃ rs, m = Caller (CTaken false q true rs)).
Proof using Hok Hresp Hmax.
  unfold copy_response, read_resp_size. do 2 apply obeys_bind.
  eapply obeys_mono, resp_size_follows; [|done..]. intros sz m (Hsz&Hle&d&r&<-&Hd&Hl&->).
  cbn [obeys]. rewrite abs_u32_abs by done.
  rewrite (proj2 Hmax), (proj2 (Z.ltb_ge respCap (Z.abs (i32 r)))) by lia.
  destruct (Z.ltb_spec 0 (Z.abs (i32 r))); cycle 1.
  { destruct d; [|simpl in Hl; lia]. split; [done|]. split; [simpl; lia|]. eauto. }
  assert (∀ off, (off, Z.abs (i32 r)) = window respCap (i32 r) →
    follows (call (CopyOut (BResp i) off (Z.abs (i32 r)))) (Caller (CTaken false q true (Some r)))
      (λ d m, reply handler q = Some d ∧ Z.of_nat (length d) <= respCap ∧
         ∃ rs, m = Caller (CTaken false q true rs))) as Hcopy.
  { intros off Hw. eapply obeys_mono, resp_copy_follows; [intros d' m [-> ->]|done|exact Hd|done|done].
    split; [done|]. split; [lia|]. eauto. }
  unfold window in Hcopy. destruct (Z.leb_spec 0 (i32 r)); apply Hcopy; f_equal; [lia| |lia].
  rewrite u32_id; lia.
Qed.

(** A response is the reply to [q] or an error. *)
Definition answered (q : Z * list byte) (r : response) : Prop :=
  ∀ n d, r = (Ok n, d) → reply handler q = Some d ∧ n = Z.of_nat (length d).

Lemma answered_error q e out : answered q (Err e, out).
Proof. intros ?? [=]. Qed.
Local Hint Resolve answered_error : core.

Lemma publish_request_host cp size t q :
  made_request cp (Some size) (Some t) = Some q →
  follows (publish_request i s) (Caller (COwn cp (Some size) (Some t))) (λ _ m, waits q m).
Proof.
  intros Hq. unfold publish_request, ring_guest, load, store.
  host_walk; cbn [Z.eqb lift]. host_walk.
  change (SLOT_REQ_READY =? SLOT_FREE) with false. rewrite Hq. cbn [lift].
  apply obeys_bind, (watch_waits to_guest i reqCap respCap handler _ q); [watch_walk|by left|].
  intros g m Hm. destruct (_ =? _); [|done].
  by apply (watch_waits to_guest i reqCap respCap handler _ q); [apply watch_SignalEvent|..].
Qed.

Lemma FinishWait_host (ready : bool) q m :
  (if ready then m = Caller (CReady q) else waits q m) →
  follows (FinishWait i ready) m
    (λ _ m', m' = Caller (if ready then CTaken false q false None else COut)).
Proof.
  unfold FinishWait, store. destruct ready; cbv iota.
  - intros ->. by host_walk.
  - intros [->| ->]; by host_walk.
Qed.

Lemma receive_host q seq out :
  follows
    (let* refused := check_response i seq in
     match refused with
     | Some e => Ret (Err e, out)
     | None => let* data := copy_response i s in
               store i F_state SLOT_FREE ;;; Ret (Ok (resp_len data), data)
     end) (Caller (CTaken false q false None)) (λ r m, m = Caller COut ∧ answered q r).
Proof using Hok Hresp Hmax.
  apply obeys_bind. unfold check_response, load, store. host_walk; [by auto|].
  destruct (r0 =? _) eqn:E; [cbn [lift]; host_walk; by auto|].
  case_bool_decide; cbn [lift obeys]; [|done].
  apply obeys_bind. eapply obeys_mono, copy_response_host. intros d m (Hd&Hl&rs&->).
  apply obeys_bind, obeys_call. intros [].
  assert (answered q (Ok (resp_len d), d)) as Ha.
  { intros ?? [= <- <-]. split; [done|]. unfold resp_len. rewrite i32_id; lia. }
  host_eval. by split.
Qed.

Lemma SendAcquired_host data size ty out t cp :
  is_i32 size → filled data size cp →
  follows (SendAcquired A fuel (Z.of_nat i) size ty out t) (Caller (COwn cp None None))
    (λ r m, m = Caller COut ∧ answered (MsgType_val ty, request data size) r).
Proof using All.
  intros Hsz Hf. unfold SendAcquired. rewrite Hindex, with_slot_i.
  destruct (_ <? _); [unfold store; host_walk; by auto|].
  apply obeys_bind. unfold write_request, load, store. host_walk.
  unfold WaitResponse. apply obeys_bind. eapply obeys_mono, publish_request_host.
  2: { by apply made_request_filled. }
  intros u m Hm. apply obeys_bind. eapply obeys_mono, WaitForRespReady_host, Hm.
  intros ready m' Hm'. apply obeys_bind. eapply obeys_mono, FinishWait_host, Hm'.
  intros _ m'' ->. cbn [obeys]. destruct ready; cbn [negb]; [apply receive_host|by split].
Qed.

Lemma SendToSlot_host data size ty out t :
  is_i32 size → (∀ d, data = Some d → abs_u32 size <= Z.of_nat (length d)) →
  follows (SendToSlot A fuel (Z.of_nat i) data size ty out t) (Caller COut)
    (λ r m, m = Caller COut ∧ answered (MsgType_val ty, request data size) r).
Proof using All.
  intros Hsz Hlen. unfold SendToSlot. rewrite i32_id; cycle 1.
  { unfold bad_index in Hindex. rewrite orb_false_iff, Z.ltb_ge, Z.leb_gt in Hindex.
    pose proof (i32_range (numSlots A)). lia. }
  apply obeys_bind. eapply obeys_mono, AcquireSpecificSlot_host. unfold send_on.
  intros r m [[-> ->]|[-> ->]]; [by auto|]. rewrite (proj2 (Z.ltb_ge _ _)) by lia.
  apply obeys_bind. eapply obeys_mono, put_request_host; [|done..].
  intros [e|] m Hm; [by auto|]. destruct Hm as (cp&->&Hf). by apply SendAcquired_host.
Qed.
End calls.
End rpc.
End Rpc.

(** ** The composition *)

Record rpc_call : Type := mkCall {
  rc_data : option (list byte); rc_size : Z; rc_type : MsgType; rc_timeout : Z }.

(** The memory that a caller passes in is as long as it says. *)
Definition call_ok (c : rpc_call) : Prop :=
  is_i32 (rc_size c) ∧
  ∀ d, rc_data c = Some d → abs_u32 (rc_size c) <= Z.of_nat (length d).

(** The host thread: one [SendToSlot] after the other. *)
Fixpoint host_calls (A : Allocator) (fuel : nat) (i : nat) (cs : list rpc_call)
    : prog (list response) :=
  match cs with
  | [] => Ret []
  | c :: cs =>
      let* r := SendToSlot A fuel (Z.of_nat i) (rc_data c) (rc_size c) (rc_type c) []
                  (rc_timeout c) in
      let* rs := host_calls A fuel i cs in
      Ret (r :: rs)
  end.

Definition worker_thread (g : DirectGuest) (handler : Handler) (fuel : nat) (i : nat)
    : prog (list response) := workerLoop g handler fuel i ;;; Ret [].

(** Slot [i] as both sides see it. *)
Record connected (A : Allocator) (g : DirectGuest) (i : nat) (s : SlotInfo) (c : slotContext)
    : Prop := mkConnected {
  cn_host : slots A !! i = Some s;
  cn_index : bad_index A (Z.of_nat i) = false;
  cn_guest : dg_slots g !! i = Some c;
  cn_req : (gs_reqBuffer c).2 = maxReqSize s ∧ 0 <= maxReqSize s < 2 ^ 31;
  cn_resp : (gs_respBuffer c).2 = maxRespSize s ∧ 0 <= maxRespSize s < 2 ^ 31 }.

(** The slot before the first call. *)
Record at_rest (i : nat) (s : SlotInfo) (w : World) : Prop := mkReady {
  sr_req : Z.of_nat (length (bytes w (BReq i))) = maxReqSize s;
  sr_resp : Z.of_nat (length (bytes w (BResp i))) = maxRespSize s;
  sr_state : mem w (LSlot i F_state) = SLOT_FREE }.

Lemma host_calls_follow A g i s c handler fuel cs :
  connected A g i s c → handler_ok (maxRespSize s) handler → Forall call_ok cs →
  obeys false (Exchange.mon to_guest i (maxReqSize s) (maxRespSize s) handler) (host_calls A fuel i cs)
    (Exchange.Caller Exchange.COut)
    (λ rs m, m = Exchange.Caller Exchange.COut ∧ Forall2 (λ c r, Rpc.answered handler
       (MsgType_val (rc_type c), Exchange.request (rc_data c) (rc_size c)) r) cs rs).
Proof.
  intros [Hs Hi _ [_ Hq] [_ Hr]] Hh. induction 1 as [|d cs [Hd1 Hd2] Hcs IH]; [done|].
  cbn [host_calls]. apply obeys_bind.
  eapply obeys_mono, Rpc.SendToSlot_host; [|done..]. intros r m [-> Hans].
  apply obeys_bind. eapply obeys_mono, IH. intros rs m [-> Hall]. split; [done|by constructor].
Qed.

(** Request/response integrity on one slot.  One host thread makes any calls of
    [SendToSlot] on a slot that the guest's worker serves, with any handler that
    keeps its contract, any requests, timeouts and interleaving: calls may time
    out at any point and the next call then steals the slot back, while the
    handler of the older request is still running and still writes to the
    response area; the handler may panic; all other threads and slots do as they
    like.  Neither side ever reaches undefined behaviour, and every call that
    succeeds returns exactly the handler's answer to its own request. *)
Lemma rpc_integrity A g i s c handler fuel cs w w' ps :
  connected A g i s c → handler_ok (maxRespSize s) handler → Forall call_ok cs →
  at_rest i s w →
  rtc (pool_step (Exchange.frame i))
    (w, [host_calls A fuel i cs; worker_thread g handler fuel i]) (w', ps) →
  (∀ p, p ∈ ps → ¬ faulty w' p) ∧
  (∀ rs, ps !! 0%nat = Some (Ret rs) → Forall2 (λ c r, ∀ n d, r = (Ok n, d) →
     reply handler (MsgType_val (rc_type c), Exchange.request (rc_data c) (rc_size c)) = Some d ∧
     n = Z.of_nat (length d)) cs rs).
Proof.
  intros Hc Hh Hcs [Hl1 Hl2 Hst] Hr. assert (Hc' := Hc).
  destruct Hc' as [Hs Hi Hg [Hq1 Hq] [Hp1 Hp]].
  set (Q := λ rs m, ∀ h, m = Exchange.Caller h → Forall2 (λ c r, Rpc.answered handler
     (MsgType_val (rc_type c), Exchange.request (rc_data c) (rc_size c)) r) cs rs).
  edestruct (monitor_sound (Exchange.mon to_guest i (maxReqSize s) (maxRespSize s) handler) (Exchange.frame i)
    (Exchange.inv to_guest i (maxReqSize s) (maxRespSize s) handler) Q) as (ss&Hm);
    [apply Exchange.inv_env|by apply Exchange.inv_step; [exact to_guest_ok|..]| |exact Hr|].
  { split; [eexists Exchange.COut, Exchange.RIdle; split; [reflexivity|]|].
    - split; [done|]. split; [|done]. cbn. by rewrite Hst.
    - constructor; [|constructor; [|done]].
      + eapply obeys_mono, host_calls_follow; [|done..]. intros rs m [-> H] h _. exact H.
      + unfold worker_thread. apply obeys_bind.
        eapply obeys_mono, Rpc.workerLoop_follows; [|done..]. by intros _ m [->|[k ->]] h. }
  split.
  - intros p [j Hj]%list_elem_of_lookup. eapply monitored_not_faulty; [|exact Hm|exact Hj].
    intros ????. by apply Exchange.inv_defined.
  - intros rs Hrs. destruct Hm as [(h&g'&->&_) Hps].
    destruct (Forall2_lookup_l _ _ _ _ _ Hps Hrs) as (m&[= <-]&HQ). by apply (HQ h).
Qed.

(** A slot of 64-byte areas and a handler that reverses its request. *)
Definition ex_rpc_guest : DirectGuest :=
  mkDirectGuest 0 1 0 0 0 0 true [mkSlotContext 0 (0, 64) (64, 64) 1 2 1].

Definition ex_handler : Handler := λ ty req,
  Some (mkHandlerResult 0 (take 64 (rev req)) (Z.of_nat (length (take 64 (rev req)))) ty).

Lemma ex_handler_ok cap : 64 <= cap → handler_ok cap ex_handler.
Proof.
  intros Hcap ty req h [= <-]. unfold window, in_range. cbn [hr_size hr_off hr_bytes].
  pose proof (length_take_le (rev req) 64). rewrite length_take.
  rewrite (proj2 (Z.leb_le 0 _)) by lia. split; [done|].
  rewrite !andb_true_iff, !Z.leb_le. lia.
Qed.

(** The first call times out while the guest works on it. *)
Definition ex_calls : list rpc_call :=
  [mkCall (Some [Byte.x01; Byte.x02; Byte.x03]) 3 NORMAL 0;
   mkCall (Some [Byte.x04; Byte.x05]) (-2) NORMAL 1000].

Definition ex_rpc : World * list (prog (list response)) :=
  run (replicate 16 (Run 0 ex_ext) ++ replicate 12 (Run 1 ex_ext) ++
       replicate 32 (Run 0 ex_ext) ++ replicate 24 (Run 1 ex_ext) ++ replicate 20 (Run 0 ex_ext))
    (ex_world, [host_calls ex_alloc 5 0 ex_calls; worker_thread ex_rpc_guest ex_handler 5 0]).

Lemma rpc_integrity_witness :
  let rs := [(Err Timeout, []); (Ok 2, [Byte.x05; Byte.x04])] in
  ex_rpc.2 !! 0%nat = Some (Ret rs) ∧ ¬ faulty ex_rpc.1 (Ret rs) ∧
  reply ex_handler (0, [Byte.x04; Byte.x05]) = Some [Byte.x05; Byte.x04].
Proof.
  intros rs. destruct (rpc_integrity ex_alloc ex_rpc_guest 0 (mkSlot 64 64 1 2)
    (mkSlotContext 0 (0, 64) (64, 64) 1 2 1) ex_handler 5 ex_calls ex_world ex_rpc.1 ex_rpc.2)
    as [Hf Hr].
  - split; try done; simpl; lia.
  - by apply ex_handler_ok.
  - repeat constructor; simpl; try lia; intros ? [= <-]; by vm_compute.
  - split; reflexivity.
  - apply (run_pool (Exchange.frame 0)). repeat constructor.
  - assert (ex_rpc.2 !! 0%nat = Some (Ret rs)) as E by (vm_compute; reflexivity).
    split; [exact E|]. split; [apply Hf; by eapply list_elem_of_lookup_2|].
    specialize (Hr rs E). inversion_clear Hr as [|???? _ Hr']. inversion_clear Hr' as [|???? H _].
    by apply (H 2 _).
Defined.

(** ** Two host threads on one slot

    The theorem above is about one host thread per slot.  With two of them, a
    claimer that is suspended between the two compare-and-swap operations of
    [tryClaimSlot] breaks it. *)

(** The first thread's call times out and leaves the slot behind; it calls again. *)
Definition ex_first : list rpc_call :=
  [mkCall (Some [Byte.x01]) 1 NORMAL 0; mkCall (Some [Byte.x02; Byte.x03]) 2 NORMAL 1000].
Definition ex_second : list rpc_call := [mkCall (Some [Byte.x04; Byte.x05]) 2 NORMAL 1000].

Definition crosstalk_start : World * list (prog (list response)) :=
  (ex_world, [host_calls ex_alloc 9 0 ex_first; host_calls ex_alloc 9 0 ex_second;
              worker_thread ex_rpc_guest ex_handler 9 0]).

Definition turns (i n : nat) : list act := replicate n (Run i ex_ext).

(** The first call times out (31) and is answered late (19).  The second thread
    finds the abandoned response and wins the generation (5).  The first thread
    claims the slot too, publishes its second request (19), is answered (18) and
    sees the response (2).  Now the second thread completes its claim and writes
    its own request (7); the first thread passes the checks on the response (4);
    the second thread publishes (6) and is answered (22); the first thread copies
    that answer (4). *)
Definition crosstalk_schedule : list act :=
  turns 0 31 ++ turns 2 19 ++ turns 1 5 ++ turns 0 19 ++ turns 2 18 ++ turns 0 2 ++
  turns 1 7 ++ turns 0 4 ++ turns 1 6 ++ turns 2 22 ++ turns 0 4.

Definition crosstalk_end := run crosstalk_schedule crosstalk_start.

(** C30: a shared slot can deliver another call's answer.  Two host threads use
    [SendToSlot] on the same slot and the guest's worker serves it, as the code is
    written; nobody reclaims slots.  There is an interleaving in which a call for
    the bytes 2, 3 succeeds and returns the handler's answer to the other thread's
    request 4, 5. *)
Theorem shared_slot_crosstalk :
  rtc (pool_step (Exchange.frame 0)) crosstalk_start (crosstalk_end.1, crosstalk_end.2) ∧
  crosstalk_end.2 !! 0%nat = Some (Ret [(Err Timeout, []); (Ok 2, [Byte.x05; Byte.x04])]) ∧
  reply ex_handler (0, [Byte.x02; Byte.x03]) = Some [Byte.x03; Byte.x02] ∧
  reply ex_handler (0, [Byte.x04; Byte.x05]) = Some [Byte.x05; Byte.x04].
Proof.
  split; [apply (run_pool (Exchange.frame 0)); repeat constructor|].
  split; [vm_compute; reflexivity|done].
Qed.
