(* ===== verification/System.v ===== *)
(** * System: from [Init] to the answers, all slots at once

    The host initialises a segment, the guest attaches to it and starts its workers,
    and one host thread per slot makes calls.  [Rpc] proves the integrity of the
    calls on one slot in an environment that leaves the slot alone; here the
    threads of all other slots are shown to be such an environment, and the
    hypotheses on the slot are discharged by [Init] and [NewDirectGuest]. *)

From S2P Require Export Rpc GuestSafety.

Local Open Scope Z_scope.

(** ** Threads that keep to one slot *)

Definition loc_of (i : nat) (l : loc) : bool :=
  match l with LSlot j _ => (j =? i)%nat | L_guestReclaim => false | _ => true end.

Definition buf_of (i : nat) (b : buffer) : bool :=
  match b with BReq j | BResp j => (j =? i)%nat end.

(** The operation writes no field of another slot nor the reclaim timeout of the
    guest, and copies to no other area. *)
Definition keeps_to (i : nat) : ∀ X, op X → bool := λ X o,
  match o with
  | Store l _ | Cas l _ _ | FetchAdd l _ | Exchange l _ => loc_of i l
  | CopyIn b _ _ => buf_of i b
  | RunHandler j _ _ _ _ => (j =? i)%nat
  | _ => true
  end.

(** It leaves slot [i] alone. *)
Definition avoids (i : nat) : ∀ X, op X → bool := λ X o,
  match o with
  | Store l _ | Cas l _ _ | FetchAdd l _ | Exchange l _ =>
      match l with LSlot j _ => negb (j =? i)%nat | _ => true end
  | CopyIn b _ _ => negb (buf_of i b)
  | RunHandler j _ _ _ _ => negb (j =? i)%nat
  | _ => true
  end.

Lemma avoids_frame i X (o : op X) x w r w' :
  avoids i X o = true → exec x o w = Done r w' → Exchange.frame i w w'.
Proof.
  intros Ho Hx. unfold Exchange.frame.
  destruct o; simpl in *; repeat case_match; simplify_eq/=; split_and!; try done;
    apply upd_ne; intros E; simplify_eq/=; by rewrite Nat.eqb_refl in Ho.
Qed.

Lemma keeps_to_avoids i j X (o : op X) : i ≠ j → keeps_to j X o = true → avoids i X o = true.
Proof.
  intros Hij. destruct o; simpl; try done; unfold loc_of, buf_of;
    repeat case_match; try done; rewrite Nat.eqb_eq, negb_true_iff, Nat.eqb_neq; lia.
Qed.

Ltac keeps_side := simpl; rewrite ?Nat.eqb_refl; reflexivity.
Ltac keeps_walk := performs_walk keeps_side.

Section slot.
Context (i : nat).

Local Abbreviation keeps p := (performs (keeps_to i) p).

Lemma keeps_SignalEvent h : keeps (SignalEvent h).
Proof. unfold SignalEvent. keeps_walk. Qed.
Lemma keeps_WaitEvent h t : keeps (WaitEvent h t).
Proof. unfold WaitEvent. keeps_walk. Qed.
Lemma keeps_checkReady : keeps (checkReady i).
Proof. unfold checkReady, load. keeps_walk. Qed.
Lemma keeps_stamp_lease : keeps (stamp_lease i).
Proof. unfold stamp_lease, MonotonicNanos, store. keeps_walk. Qed.
Local Hint Resolve keeps_SignalEvent keeps_WaitEvent keeps_checkReady keeps_stamp_lease : within.

Lemma keeps_sleepAction fuel s t : keeps (sleepAction fuel i s t).
Proof. unfold sleepAction, store. keeps_walk. Qed.
Local Hint Resolve keeps_sleepAction : within.

Lemma keeps_spin n : keeps (spin n (checkReady i)).
Proof. induction n; cbn [spin]; unfold CpuRelax; keeps_walk. Qed.
Local Hint Resolve keeps_spin : within.

Lemma keeps_WaitForRespReady fuel s t : keeps (WaitForRespReady fuel i s t).
Proof. unfold WaitForRespReady, Wait, load, store. keeps_walk. Qed.
Local Hint Resolve keeps_WaitForRespReady : within.

Lemma keeps_tryClaimSlot : keeps (tryClaimSlot i).
Proof. unfold tryClaimSlot, load, cas. keeps_walk. Qed.
Local Hint Resolve keeps_tryClaimSlot : within.

Lemma keeps_with_slot {X} A (f : nat → SlotInfo → prog X) :
  (∀ s, keeps (f i s)) → keeps (with_slot A (Z.of_nat i) f).
Proof. intros Hf. unfold with_slot. rewrite Nat2Z.id. by destruct (slots A !! i). Qed.

Lemma keeps_SendAcquired A fuel size ty out t :
  keeps (SendAcquired A fuel (Z.of_nat i) size ty out t).
Proof.
  unfold SendAcquired. destruct (bad_index _ _); [done|]. apply keeps_with_slot. intros s.
  unfold write_request, WaitResponse, publish_request, ring_guest, FinishWait, check_response,
    copy_response, read_resp_size, load_i32, load, store. keeps_walk.
Qed.
Local Hint Resolve keeps_SendAcquired : within.

Lemma keeps_put_request A data size : keeps (put_request A (Z.of_nat i) data size).
Proof.
  unfold put_request. destruct (size =? 0); [done|].
  assert (∀ e : Error, keeps (with_slot A (Z.of_nat i) (λ i _, store i F_state SLOT_FREE ;;; Ret (Some e))))
    as Hfail by (intros e; apply keeps_with_slot; intros s; unfold store; keeps_walk).
  destruct data as [d|]; [|done]. apply performs_bind.
  { unfold GetMaxReqSize. destruct (bad_index _ _); [done|]. by apply keeps_with_slot. }
  intros max. cbv zeta. destruct (_ <? _); [done|]. unfold read_data, write_req, GetReqBuffer.
  rewrite Nat2Z.id. destruct (bad_index A (Z.of_nat i)); keeps_walk.
Qed.
Local Hint Resolve keeps_put_request : within.

Lemma keeps_send_on A fuel data size ty out t :
  keeps (send_on A fuel (Z.of_nat i) data size ty out t).
Proof. unfold send_on. keeps_walk. Qed.

(** The result of the acquisition is the slot or nothing. *)
Lemma within_AcquireSpecificSlot A fuel t :
  alloc_ok A →
  within (keeps_to i) (AcquireSpecificSlot A fuel (Z.of_nat i) t)
    (λ idx, idx = -1 ∨ idx = Z.of_nat i).
Proof.
  intros HA. unfold AcquireSpecificSlot, is_running.
  apply within_seq; [within_walk keeps_side|]. intros run.
  destruct (negb run || bad_index A (Z.of_nat i)) eqn:Hb; [by left|].
  apply orb_false_iff in Hb as [_ Hb]. pose proof (good_index A HA _ Hb).
  apply within_with_slot; [done|]. intros j s ->%(inj _) Hs. cbv zeta.
  apply (within_loop _ _ _ _ (λ _, True)); [done|]. intros [start retries] _.
  apply within_seq.
  { eapply (within_performs _ (safe_ops A)); [by eapply safe_tryClaimSlot|apply keeps_tryClaimSlot]. }
  intros ok. unfold CpuRelax, ThreadYield. within_walk keeps_side; auto.
Qed.

Lemma within_SendToSlot A fuel data size ty out t :
  alloc_ok A → Z.of_nat i < numSlots A →
  (∀ d, data = Some d → abs_u32 size <= Z.of_nat (length d)) →
  within (keeps_to i) (SendToSlot A fuel (Z.of_nat i) data size ty out t) (λ _, True).
Proof.
  intros HA Hi Hd. unfold SendToSlot. rewrite i32_id by (destruct HA; lia).
  eapply within_bind; [by apply within_AcquireSpecificSlot|]. intros idx [->| ->].
  - by unfold send_on.
  - eapply within_performs; [|apply keeps_send_on]. apply safe_send_on; [done| |done]. right. lia.
Qed.

(** The worker. *)
Lemma keeps_spinUntilEq32 want max : ∀ iters, keeps (spinUntilEq32 i want max iters).
Proof.
  induction max as [|max IH]; intros iters; cbn [spinUntilEq32]; [done|]. unfold load.
  keeps_walk.
Qed.
Local Hint Resolve keeps_spinUntilEq32 : within.

Lemma keeps_WaitState fuel want sleep : keeps sleep → keeps (WaitState fuel i want sleep).
Proof. intros Hs. unfold WaitState, guest_spin, recordOutcome, cas, load. keeps_walk. Qed.

Lemma keeps_publish_with c stores : keeps stores → keeps (publish_with i c stores).
Proof.
  intros Hs. unfold publish_with, guest_lockForPublish, guest_publishResponse, cas, load.
  keeps_walk.
Qed.
Local Hint Resolve keeps_WaitState keeps_publish_with : within.

Lemma keeps_worker_sleep ev : keeps (guest_worker_sleep i ev).
Proof. unfold guest_worker_sleep, store, load. keeps_walk. Qed.
Lemma keeps_claim_request g : keeps (claim_request g i).
Proof.
  unfold claim_request, claimSlotGen, guest_stamp_lease, guest_MonotonicNanos, cas, store. keeps_walk.
Qed.
Lemma keeps_store f v : keeps (store i f v).
Proof. unfold store. keeps_walk. Qed.
Lemma keeps_refuse : keeps (refuse i).
Proof. unfold refuse, store. keeps_walk. Qed.
Local Hint Resolve keeps_worker_sleep keeps_claim_request keeps_store keeps_refuse : within.

Lemma keeps_serve_request handler c : keeps (serve_request handler i c).
Proof.
  unfold serve_request, call_handler, load_i32, load.
  keeps_walk; apply keeps_publish_with; keeps_walk.
Qed.
Local Hint Resolve keeps_serve_request : within.

Lemma keeps_workerLoop g handler fuel : keeps (workerLoop g handler fuel i).
Proof.
  unfold workerLoop, workerLoopInternal, recover_panic, load.
  keeps_walk; apply keeps_publish_with; keeps_walk.
Qed.
End slot.

(** ** Deployment *)

(** The host initialised the segment and the guest attached to it. *)
Record deployed (os : OsAnswers) (gos : GuestOs) (cfg : HostConfig) (h : Host) (w : World)
    (d : DirectGuest) : Prop := mkDeployed {
  dp_init : ∃ h0 w0, Init os cfg h0 w0 = (ResultVoid.Success, h, w);
  dp_attach : NewDirectGuest gos (published w) (mem w L_fastPathAllowed) = inr d }.

(** The size of a response area. *)
Definition resp_area (cfg : HostConfig) : Z :=
  u32 (g_slotSize (geometry cfg) - g_respOffset (geometry cfg)).

Section deployment.
Context (os : OsAnswers) (gos : GuestOs) (cfg : HostConfig) (h : Host) (w : World) (d : DirectGuest).
Context (Hc : config_range cfg) (Hd : deployed os gos cfg h w d).

Lemma deployed_exchange : exchange_ready w cfg ∧ header_u32 (published w).
Proof using Hc Hd.
  destruct Hd as [(h0&w0&HI) _]. apply Init_exchange in HI as (Hex&_).
  split; [done|]. by eapply published_u32.
Qed.

Lemma deployed_guest : guest_ok d.
Proof using Hc Hd.
  destruct deployed_exchange as [_ Hu]. destruct Hd as [_ Ha]. by eapply attached_ok.
Qed.

(** The guest only attaches to a segment with host slots. *)
Lemma deployed_host :
  alloc_ok (allocator h) ∧ world_ok (allocator h) w ∧ numSlots (allocator h) = numHostSlots cfg ∧
  dg_numSlots d = numHostSlots cfg ∧ g_slotSize (geometry cfg) <= 2 ^ 30 ∧
  (∀ i, (i < length (slots (allocator h)))%nat →
     slots (allocator h) !! i = Some (DirectHost.slot_of (geometry cfg) os i) ∧
     mem w (LSlot i F_state) = SLOT_FREE).
Proof using Hc Hd.
  destruct deployed_exchange as [Hex Hu]. destruct Hd as [(h0&w0&HI) Ha].
  destruct (NewDirectGuest_counts _ _ _ _ Ha) as [E1 _].
  apply NewDirectGuest_inr in Ha as (Hchk&_); [|done].
  pose proof (proj1 (published_accepted _ _ Hc Hex) Hchk) as (?&?&?&?).
  destruct Hex as [_ _ [E3 _] _]. unfold published in E1. rewrite E3 in E1.
  destruct (Init_wf _ _ _ _ _ _ Hc (proj1 H) HI) as (?&?&?&Hr&Hs&?&_).
  split_and!; try done. intros i Hi. split; [by apply Hs|]. by destruct (Hr i Hi).
Qed.

Lemma deployed_counts : numGuestSlots (allocator h) = dg_numGuestSlots d.
Proof using Hc Hd.
  destruct deployed_exchange as [[_ _ [_ E] _] _]. destruct Hd as [(h0&w0&HI) Ha].
  destruct (NewDirectGuest_counts _ _ _ _ Ha) as (_&->&_). unfold published.
  rewrite E. by eapply Init_guest_slots.
Qed.

(** Both sides see every slot, host slot or guest slot, with the same areas. *)
Lemma deployed_areas i :
  Z.of_nat i < dg_numSlots d + dg_numGuestSlots d →
  ∃ s c, slots (allocator h) !! i = Some s ∧ dg_slots d !! i = Some c ∧ at_rest i s w ∧
    (gs_reqBuffer c).2 = maxReqSize s ∧ (gs_respBuffer c).2 = maxRespSize s ∧
    maxReqSize s = g_halfSize (geometry cfg) ∧ maxRespSize s = resp_area cfg ∧
    0 <= maxReqSize s < 2 ^ 31 ∧ 0 <= maxRespSize s < 2 ^ 31.
Proof using Hc Hd.
  intros Hi. destruct deployed_exchange as [Hex Hu].
  destruct deployed_host as (HA&Hw&Hn&Hdn&Hsz&Hs). destruct deployed_guest as [Hl Hnum Hg].
  destruct (lookup_lt_is_Some_2 (dg_slots d) i) as [c Hci]; [lia|].
  destruct (Hs i) as [Hsi Hst].
  { destruct HA as [Hlen _ _ _ _]. rewrite deployed_counts in Hlen. lia. }
  destruct (Hw i _ Hsi) as [Hw1 Hw2].
  pose proof (geometry_sizes cfg Hc) as Hz. cbv zeta in Hz. destruct Hz as (Hh&_&Hro&Hss&_).
  assert (u32 (g_slotSize (geometry cfg) - g_respOffset (geometry cfg)) =
    g_slotSize (geometry cfg) - g_halfSize (geometry cfg)) as Hr by (rewrite Hro; apply u32_id; lia).
  exists (DirectHost.slot_of (geometry cfg) os i), c.
  destruct Hd as [_ Ha]. apply NewDirectGuest_inr in Ha as (_&_&_&_&Hcs); [|done].
  pose proof (published_regions _ _ _ _ _ Hc Hex (Hcs _ _ Hci)) as Hreg.
  clear Hcs. unfold resp_area. set (g := geometry cfg) in *. clearbody g.
  unfold regions, slot_regions in Hreg. injection Hreg as _ _ E1 E2.
  split_and!; try done; rewrite ?E1, ?E2; cbn [snd DirectHost.slot_of maxReqSize maxRespSize];
    rewrite ?Hr; lia || done.
Qed.

Lemma deployed_slot i :
  Z.of_nat i < numHostSlots cfg →
  ∃ s c, connected (allocator h) d i s c ∧ at_rest i s w ∧ maxRespSize s = resp_area cfg ∧
    maxReqSize s = g_halfSize (geometry cfg).
Proof using Hc Hd.
  intros Hi. destruct deployed_host as (HA&_&Hn&Hdn&_). destruct deployed_guest as [_ Hnum _].
  destruct (deployed_areas i) as (s&c&Hs&Hci&Hrest&?&?&?&?&?&?); [lia|].
  exists s, c. split; [|done]. constructor; [done| |done..].
  unfold bad_index. rewrite Hn, i32_id by (destruct Hc; lia).
  rewrite orb_false_iff, Z.ltb_ge, Z.leb_gt. lia.
Qed.
End deployment.

(** ** All threads *)

(** One host thread and one worker per slot. *)
Definition system_threads (A : Allocator) (d : DirectGuest) (handler : Handler) (fuel : nat)
    (calls : list (list rpc_call)) : list (prog (list response)) :=
  imap (host_calls A fuel) calls ++ imap (λ i _, worker_thread d handler fuel i) calls.

(** The rest of the two processes leaves the transactions on the host slots
    alone. *)
Definition bystanders (n : nat) (w w' : World) : Prop := ∀ i, (i < n)%nat → Exchange.frame i w w'.

Lemma within_weaken {X} (P P' : ∀ X, op X → bool) (p : prog X) Q :
  (∀ Y (o : op Y), P Y o = true → P' Y o = true) → within P p Q → within P' p Q.
Proof.
  intros HP. unfold within. induction p as [a|Y o k IH| |]; simpl; [done| |done|done].
  intros H r. specialize (H r). unfold only in *.
  destruct (P Y o) eqn:E; [|done]. rewrite (HP _ _ E). destruct (answer_ok o r); [by apply IH|done].
Qed.

Section threads.
Context (A : Allocator) (d : DirectGuest) (handler : Handler) (fuel : nat).
Context (HA : alloc_ok A) (Hd : guest_ok d).

Lemma within_host_calls i cs :
  Z.of_nat i < numSlots A → Forall call_ok cs →
  within (keeps_to i) (host_calls A fuel i cs) (λ _, True).
Proof using HA.
  intros Hi. induction 1 as [|c cs [_ Hc] _ IH]; cbn [host_calls]; [done|].
  apply within_seq; [by apply within_SendToSlot|]. intros r. apply within_seq; [exact IH|done].
Qed.

Lemma within_worker_thread i :
  Z.of_nat i < dg_numSlots d → within (keeps_to i) (worker_thread d handler fuel i) (λ _, True).
Proof using Hd.
  intros Hi. unfold worker_thread. apply within_seq; [|done].
  destruct (lookup_lt_is_Some_2 (dg_slots d) i) as [c Hc]; [destruct Hd; lia|].
  eapply within_performs; [by eapply safe_workerLoop|]. apply keeps_workerLoop.
Qed.

(** A thread of the system, and its slot. *)
Lemma system_lookup calls j p :
  system_threads A d handler fuel calls !! j = Some p →
  (∃ cs, calls !! j = Some cs ∧ p = host_calls A fuel j cs) ∨
  (∃ i, j = (length calls + i)%nat ∧ (i < length calls)%nat ∧ p = worker_thread d handler fuel i).
Proof.
  unfold system_threads. rewrite lookup_app_Some, !list_lookup_imap. intros [H|[Hl H]].
  - left. destruct (calls !! j) as [cs|]; simplify_eq/=. eauto.
  - right. rewrite length_imap in *. destruct (calls !! (j - length calls)%nat) eqn:E; simplify_eq/=.
    apply lookup_lt_Some in E. exists (j - length calls)%nat. split_and!; [lia|done..].
Qed.

Lemma system_slot calls i cs :
  calls !! i = Some cs →
  system_threads A d handler fuel calls !! i = Some (host_calls A fuel i cs) ∧
  system_threads A d handler fuel calls !! (length calls + i)%nat =
    Some (worker_thread d handler fuel i).
Proof.
  intros Hi. unfold system_threads. split.
  - rewrite lookup_app_l by (rewrite length_imap; by eapply lookup_lt_Some).
    by rewrite list_lookup_imap, Hi.
  - rewrite lookup_app_r by (rewrite length_imap; lia). rewrite length_imap.
    replace (length calls + i - length calls)%nat with i by lia. by rewrite list_lookup_imap, Hi.
Qed.

(** The threads of other slots leave slot [i] alone. *)
Lemma system_others calls i :
  Z.of_nat (length calls) = numSlots A → dg_numSlots d = numSlots A →
  Forall (Forall call_ok) calls →
  others_within (avoids i) i (length calls + i) (system_threads A d handler fuel calls).
Proof using HA Hd.
  intros Hn Hn' Hok j p Hj1 Hj2 [(cs&Hcs&->)|(k&->&Hk&->)]%system_lookup.
  - pose proof (lookup_lt_Some _ _ _ Hcs). apply (within_weaken (keeps_to j)).
    { intros Y o. apply keeps_to_avoids. done. }
    apply within_host_calls; [lia|]. exact (Forall_lookup_1 _ _ _ _ Hok Hcs).
  - apply (within_weaken (keeps_to k)); [intros Y o; apply keeps_to_avoids; lia|].
    apply within_worker_thread. lia.
Qed.
End threads.

(** The answers of a thread are those of the handler to its own requests. *)
Definition answered_all (handler : Handler) (cs : list rpc_call) (rs : list response) : Prop :=
  Forall2 (λ c r, ∀ n data, r = (Ok n, data) →
    reply handler (MsgType_val (rc_type c), Exchange.request (rc_data c) (rc_size c)) = Some data ∧
    n = Z.of_nat (length data)) cs rs.

(** One slot of a deployment. *)
Lemma deployed_calls os gos cfg h w d handler fuel i cs w' pa pb :
  config_range cfg → deployed os gos cfg h w d → handler_ok (resp_area cfg) handler →
  Z.of_nat i < numHostSlots cfg → Forall call_ok cs →
  rtc (pool_step (Exchange.frame i))
    (w, [host_calls (allocator h) fuel i cs; worker_thread d handler fuel i]) (w', [pa; pb]) →
  ¬ faulty w' pa ∧ ¬ faulty w' pb ∧ ∀ rs, pa = Ret rs → answered_all handler cs rs.
Proof.
  intros Hc Hd Hh Hi Hok Hr. destruct (deployed_slot _ _ _ _ _ _ Hc Hd i Hi) as (s&c&H1&H2&Hs&_).
  rewrite <-Hs in Hh. destruct (rpc_integrity _ _ _ _ _ _ _ _ _ _ _ H1 Hh Hok H2 Hr) as [Hf Ha].
  split_and!; [apply Hf; left|apply Hf; right; left|]. intros rs ->. by apply Ha.
Qed.

(** The threads of a slot, among all. *)
Lemma system_thread {A d handler fuel} calls j p :
  system_threads A d handler fuel calls !! j = Some p →
  ∃ i cs, calls !! i = Some cs ∧ (j = i ∨ j = (length calls + i)%nat).
Proof.
  intros [(cs&Hcs&_)|(i&->&Hi&_)]%system_lookup; [by exists j, cs; auto|].
  destruct (lookup_lt_is_Some_2 calls i Hi) as [cs Hcs]. by exists i, cs; auto.
Qed.

(** The system answers every call with its own answer.  The host initialises a
    segment, the guest attaches to it and starts a worker for every host slot, and
    for every host slot a thread makes any calls of [SendToSlot], with a handler
    that keeps its contract.  All threads of all slots interleave in any way,
    calls time out at any point, slots are stolen back, handlers panic, and
    whatever else runs in the two processes leaves the transactions on these slots
    alone.  Then no thread of either side reaches undefined behaviour, and every
    call that succeeds returns exactly the answer of the handler to its own
    request. *)
Theorem system_integrity os gos cfg h w d handler fuel calls w' ps :
  config_range cfg → deployed os gos cfg h w d → handler_ok (resp_area cfg) handler →
  Z.of_nat (length calls) = numHostSlots cfg → Forall (Forall call_ok) calls →
  rtc (pool_step (bystanders (length calls)))
    (w, system_threads (allocator h) d handler fuel calls) (w', ps) →
  (∀ p, p ∈ ps → ¬ faulty w' p) ∧
  ∀ i cs rs, calls !! i = Some cs → ps !! i = Some (Ret rs) → answered_all handler cs rs.
Proof.
  intros Hc Hd Hh Hlen Hok Hrun.
  pose proof (deployed_host _ _ _ _ _ _ Hc Hd) as (HA&_&Hn&Hn'&_).
  pose proof (deployed_guest _ _ _ _ _ _ Hc Hd) as Hg.
  assert (∀ i cs, calls !! i = Some cs → ∃ pa pb, ps !! i = Some pa ∧
    ps !! (length calls + i)%nat = Some pb ∧ ¬ faulty w' pa ∧ ¬ faulty w' pb ∧
    ∀ rs, pa = Ret rs → answered_all handler cs rs) as Hsub.
  { intros i cs Hi. destruct (system_slot (allocator h) d handler fuel _ _ _ Hi) as [Ha Hb].
    pose proof (lookup_lt_Some _ _ _ Hi).
    assert (∃ pa pb, ps !! i = Some pa ∧ ps !! (length calls + i)%nat = Some pb ∧
      rtc (pool_step (Exchange.frame i)) (w, [host_calls (allocator h) fuel i cs;
        worker_thread d handler fuel i]) (w', [pa; pb])) as (pa&pb&?&?&Hr).
    { eapply (pool_project _ _ (avoids i)); [| |lia|exact Hrun|done..|].
      - intros w1 w2 Hw. by apply Hw.
      - apply avoids_frame.
      - apply system_others; [done|done|lia|lia|done]. }
    exists pa, pb. split; [done|]. split; [done|]. eapply deployed_calls, Hr; [done..|lia|].
    exact (Forall_lookup_1 _ _ _ _ Hok Hi). }
  split.
  - intros p [j Hj]%list_elem_of_lookup.
    assert (is_Some (system_threads (allocator h) d handler fuel calls !! j)) as [q Hq].
    { apply lookup_lt_is_Some. apply lookup_lt_Some in Hj.
      by rewrite (pool_length _ _ _ Hrun : length ps = _) in Hj. }
    destruct (system_thread _ _ _ Hq) as (i&cs&Hi&Hji).
    destruct (Hsub i cs Hi) as (pa&pb&?&?&?&?&_). destruct Hji as [-> | ->]; by simplify_eq.
  - intros i cs rs Hi Hrs. destruct (Hsub i cs Hi) as (pa&pb&?&?&_&_&Ha). simplify_eq. by apply Ha.
Qed.

(** Two host slots and a guest slot, both calls at once. *)
Definition ex_gos : GuestOs :=
  mkGuestOs true (λ _, true) (λ i, Some (Z.of_nat (2 * i + 101))) (λ i, Some (Z.of_nat (2 * i + 102))).

Definition ex_attached : DirectGuest :=
  match NewDirectGuest ex_gos (published ex_host_world) (mem ex_host_world L_fastPathAllowed) with
  | inr d => d
  | inl _ => ex_rpc_guest
  end.

Definition ex_system_calls : list (list rpc_call) :=
  [[Rpc.mkCall (Some [Byte.x01; Byte.x02]) 2 NORMAL 1000];
   [Rpc.mkCall (Some [Byte.x03; Byte.x04]) (-2) NORMAL 1000]].

Definition ex_system : World * list (prog (list response)) :=
  run (turns 0 18 ++ turns 1 18 ++ turns 2 30 ++ turns 3 30 ++ turns 0 30 ++ turns 1 30)
    (ex_host_world, system_threads (allocator ex_host) ex_attached ex_handler 5 ex_system_calls).

Lemma system_integrity_witness :
  ex_system.2 !! 1%nat = Some (Ret [(Ok 2, [Byte.x04; Byte.x03])]) ∧
  reply ex_handler (0, [Byte.x03; Byte.x04]) = Some [Byte.x04; Byte.x03].
Proof.
  destruct (system_integrity ex_os ex_gos ex_config ex_host ex_host_world ex_attached ex_handler 5
    ex_system_calls ex_system.1 ex_system.2) as [_ Hr].
  - by unfold config_range.
  - split; [by exists new_host, blank_world|reflexivity].
  - by apply ex_handler_ok.
  - reflexivity.
  - repeat constructor; simpl; try lia; intros ? [= <-]; by vm_compute.
  - apply (run_pool (bystanders 2)). repeat constructor.
  - assert (ex_system.2 !! 1%nat = Some (Ret [(Ok 2, [Byte.x04; Byte.x03])])) as E
      by (vm_compute; reflexivity).
    split; [exact E|]. specialize (Hr 1%nat _ _ eq_refl E). inversion_clear Hr as [|???? H _].
    by apply (H 2 _).
Defined.
