(* ===== verification/Duplex.v ===== *)
(** * Duplex: host calls and guest calls at once

    The whole request path of the library: the host initialises a segment, the guest
    attaches to it; one host thread per host slot makes calls that the workers of
    the guest serve ([System]), and at the same time a goroutine makes guest calls
    that the worker thread of the host serves ([GuestCalls]).  The threads of each
    direction are shown to leave the slots of the other alone, so that the theorems
    of both directions hold of the one pool of threads. *)

From S2P Require Export System GuestCalls.

Local Open Scope Z_scope.

(** ** Threads with results of two types *)

Definition prog_map {X Y} (f : X → Y) (p : prog X) : prog Y := let* x := p in Ret (f x).

Lemma thread_step_inv {X} w (p : prog X) w' q :
  thread_step w p w' q →
  match p with Do o k => ∃ x r, exec x o w = Done r w' ∧ q = k r | _ => False end.
Proof. destruct 1. eauto. Qed.

Lemma faulty_inv {X} w (p : prog X) :
  faulty w p → match p with Do o _ => ∃ x, exec x o w = Undef | Fault => True | _ => False end.
Proof. destruct 1; eauto. Qed.

Lemma faulty_map {X Y} (f : X → Y) w (p : prog X) : faulty w (prog_map f p) → faulty w p.
Proof.
  intros H%faulty_inv. destruct p; simpl in H; try done; [|constructor].
  destruct H as [x Hx]. by econstructor.
Qed.

Lemma pool_map {X Y} (f : X → Y) R w (ps : list (prog X)) w' qs :
  rtc (pool_step R) (w, prog_map f <$> ps) (w', qs) →
  ∃ ps', qs = prog_map f <$> ps' ∧ rtc (pool_step R) (w, ps) (w', ps').
Proof.
  intros Hr. remember (w, prog_map f <$> ps) as c eqn:Ec. remember (w', qs) as c' eqn:Ec'.
  revert w ps Ec. induction Hr as [c|c [w1 ps1] c' H12 _ IH]; intros w ps ->.
  { simplify_eq. by exists ps. }
  assert (∃ ps2, ps1 = prog_map f <$> ps2 ∧ pool_step R (w, ps) (w1, ps2)) as (ps2&->&Hs).
  { inversion H12 as [? ? i p ? p' Hp Ht|]; simplify_eq; [|exists ps; split; [done|by constructor]].
    rewrite list_lookup_fmap in Hp. destruct (ps !! i) as [p0|] eqn:Hi; simplify_eq/=.
    apply thread_step_inv in Ht. destruct p0 as [|Z o k| |]; simpl in Ht; try done.
    destruct Ht as (x&r&Hx&->). exists (<[i := k r]> ps). split; [by rewrite list_fmap_insert|].
    by eapply ps_thread; [|econstructor]. }
  destruct (IH Ec' w1 ps2 eq_refl) as (ps'&->&Hrest). exists ps'. split; [done|]. by econstructor.
Qed.

(** ** Threads that keep to the guest slots *)

(** The operation is about a guest slot or none, and keeps the reclaim timeout. *)
Definition spans (g : DirectGuest) : ∀ X, op X → bool := λ X o,
  match touched o with Some j => guest_ranged g j | None => negb (sets_reclaim o) end.

(** It leaves the guest slots and the reclaim timeout alone. *)
Definition spares (g : DirectGuest) : ∀ X, op X → bool := λ X o,
  negb (sets_reclaim o) &&
  match o with
  | Store (LSlot j _) _ | Cas (LSlot j _) _ _ | FetchAdd (LSlot j _) _
  | Machine.Exchange (LSlot j _) _ | CopyIn (BReq j | BResp j) _ _ | RunHandler j _ _ _ _ =>
      negb (guest_ranged g j)
  | _ => true
  end.

Lemma spans_avoids g i X (o : op X) :
  guest_ranged g i = false → spans g X o = true → avoids i X o = true.
Proof.
  intros Hi. assert (∀ j, guest_ranged g j = true → negb (j =? i)%nat = true) as Hne.
  { intros j Hj. apply negb_true_iff, Nat.eqb_neq. congruence. }
  unfold spans. destruct o as [l|l v|l e d|l d|l v|[]|[]| | | | | |]; try done; simpl;
    try (destruct l; try done); by apply Hne.
Qed.

Lemma keeps_to_spares g i X (o : op X) :
  guest_ranged g i = false → keeps_to i X o = true → spares g X o = true.
Proof.
  intros Hi. assert (∀ j, (j =? i)%nat = true → negb (guest_ranged g j) = true) as Hne.
  { intros j ->%Nat.eqb_eq. by rewrite Hi. }
  unfold spares. destruct o as [l|l v|l e d|l d|l v|[]|[]| | | | | |]; try done; simpl;
    try (destruct l; try done); simpl; by apply Hne.
Qed.

Lemma spares_elsewhere g X (o : op X) x w r w' :
  spares g X o = true → exec x o w = Done r w' → elsewhere g w w'.
Proof.
  unfold spares. rewrite andb_true_iff, negb_true_iff. intros [Hs Ho] Hx.
  split; [by eapply reclaim_kept|]. intros j Hj. fold (guest_ranged g j) in Hj.
  apply (avoids_frame j _ o x w r); [|done].
  assert (∀ k, negb (guest_ranged g k) = true → negb (k =? j)%nat = true) as Hne.
  { intros k Hk%negb_true_iff. apply negb_true_iff, Nat.eqb_neq. congruence. }
  destruct o as [l|l v|l e d|l d|l v|[]|[]| | | | | |]; try done; simpl in *;
    try (destruct l; try done); by apply Hne.
Qed.

Lemma performs_weaken {X} (P P' : ∀ X, op X → bool) (p : prog X) :
  (∀ Y (o : op Y), P Y o = true → P' Y o = true) → performs P p → performs P' p.
Proof. intros HP. induction p as [a|Y o k IH| |]; simpl; naive_solver. Qed.

Lemma within_instantiate {X} (P : ∀ X, op X → bool) h (p : prog X) Q :
  (∀ i off n m ty, P _ (RunHandler i off n m ty) = true →
     P _ (CopyOut (BReq i) off n) = true ∧ ∀ o d, P _ (CopyIn (BResp i) o d) = true) →
  within P p Q → within P (instantiate h p) Q.
Proof.
  intros HP. unfold within. induction p as [a|Y o k IH| |]; [done| |done|done]. intros Hp.
  assert (P Y o = true) as Ho.
  { specialize (Hp (some_answer o)). unfold only in Hp. by destruct (P Y o). }
  assert (∀ r, answer_ok o r = true → obeys false (only P) (instantiate h (k r)) tt (λ r _, Q r)) as Hk.
  { intros r Ha. apply IH. specialize (Hp r). unfold only in Hp. by rewrite Ho, Ha in Hp. }
  clear Hp IH. destruct o; cbn [instantiate obeys]; intros r; unfold only at 1;
    try (rewrite Ho; by destruct (answer_ok _ r) eqn:Ha; [apply Hk|]).
  destruct (HP _ _ _ _ _ Ho) as [-> Hin]. destruct (answer_ok _ r); [|done].
  intros []. unfold only at 1. rewrite Hin. by apply Hk.
Qed.

Section guest_thread.
Context (g : DirectGuest) (fuel : nat) (Hg : guest_ok g).

Lemma at_slot_spans i X (o : op X) :
  guest_ranged g i = true → Slots.at_slot i X o = true → spans g X o = true.
Proof.
  unfold Slots.at_slot, spans. intros Hi. by destruct (touched o); [intros ->%Nat.eqb_eq|].
Qed.

(** A guest slot, by its index. *)
Lemma spans_guest_slot {X} idx (f : nat → slotContext → prog X) Q :
  dg_numSlots g <= idx < dg_numSlots g + dg_numGuestSlots g →
  (∀ i c, dg_slots g !! i = Some c → within (safe_ops (guest_alloc g)) (f i c) Q) →
  (∀ i c, i = Z.to_nat idx → performs (Slots.at_slot i) (f i c)) →
  within (spans g) (guest_slot g idx f) Q.
Proof using Hg.
  intros Hidx Hs Hp. destruct (Calls.ranged_slot g Hg idx Hidx) as (Hr&c&Hc&_).
  unfold guest_slot. rewrite Hc. eapply within_performs; [by apply Hs|].
  eapply performs_weaken; [|by apply Hp]. intros Y o. by apply at_slot_spans.
Qed.

Lemma spans_claim_first n index :
  (∀ j, 0 <= j < n → dg_numSlots g <= index j < dg_numSlots g + dg_numGuestSlots g) →
  within (spans g) (claim_first g n index)
    (λ r, ∀ idx, r = Some idx → dg_numSlots g <= idx < dg_numSlots g + dg_numGuestSlots g).
Proof using Hg.
  intros Hi. unfold claim_first. cbv zeta. eapply (within_bind _ _ _ (λ r, ∀ idx,
    r = inr idx → dg_numSlots g <= idx < dg_numSlots g + dg_numGuestSlots g)).
  - apply (within_for _ _ _ _ _ (λ _, True)); [done| |done]. intros j [] Hj _.
    apply spans_guest_slot; [apply Hi; lia|..].
    + intros i c Hc. apply within_seq; [by eapply safe_tryClaimGuestSlot|]. intros []; [|done].
      intros ? [= <-]. apply Hi. lia.
    + intros i c _. apply performs_bind; [apply Calls.at_tryClaim|]. by intros [].
  - intros [[]|idx] Hr; [done|]. intros ? [= <-]. by apply Hr.
Qed.

Lemma spans_reclaim_pass :
  within (spans g) (reclaim_pass g)
    (λ r, ∀ idx, r = Some idx → dg_numSlots g <= idx < dg_numSlots g + dg_numGuestSlots g).
Proof using Hg.
  unfold reclaim_pass. apply within_seq; [within_walk ltac:(reflexivity)|]. intros ns. cbv zeta.
  destruct (0 <? _); [|done]. apply within_seq.
  - apply (within_for _ _ _ _ _ (λ _, True)); [done| |done]. intros j b Hj _.
    apply within_seq; [|done]. unfold guest_TryReclaimAbandonedSlot.
    destruct (_ || _); [done|]. destruct (go_num _ Hg). apply spans_guest_slot; [lia|..].
    + intros i c Hc. pose proof (slot_of g i c Hc). unfold guest_MonotonicNanos. safe_walk.
    + intros i c _. unfold guest_MonotonicNanos, load, cas. Calls.at_walk.
  - intros [[]|]; try done. destruct (go_num _ Hg). apply spans_claim_first. lia.
Qed.

Lemma spans_sendGuestCall data ty timeout :
  within (spans g) (sendGuestCallInternal g fuel data ty timeout) (λ _, True).
Proof using Hg.
  unfold sendGuestCallInternal. destruct (_ <? _); [done|].
  destruct (Z.eqb_spec (dg_numGuestSlots g) 0); [done|]. destruct (go_num _ Hg).
  set (ok := λ idx, dg_numSlots g <= idx < dg_numSlots g + dg_numGuestSlots g).
  eapply (within_bind _ _ _ (λ r, ∀ idx, r = inr idx → ok idx)).
  - unfold acquire_guest_slot, next_offset. apply within_seq; [within_walk ltac:(reflexivity)|].
    intros offset. apply (within_loop _ _ _ _ (λ _, True)); [done|]. clear offset.
    intros [[offset deadline] backoff] _. eapply within_bind.
    { apply spans_claim_first. intros j _. unfold rotated.
      pose proof (Z.mod_pos_bound (u32 (j + offset)) (dg_numGuestSlots g)). lia. }
    intros slot Hs. eapply (within_bind _ _ _ (λ r, ∀ idx, r = Some idx → ok idx)).
    { destruct slot as [idx|]; [by apply within_ret|apply spans_reclaim_pass]. }
    intros [idx|] Hi; [intros ? [= <-]; by apply Hi|]. within_walk ltac:(reflexivity); done.
  - intros [e|idx] Hi; [done|]. apply spans_guest_slot; [by apply Hi|..].
    + intros i c Hc. by apply safe_call_on.
    + intros i c _. apply Calls.at_call_on.
Qed.

Lemma spans_goroutine cs : within (spans g) (goroutine g fuel cs) (λ _, True).
Proof using Hg.
  induction cs as [|c cs IH]; cbn [goroutine]; [done|].
  apply within_seq; [apply spans_sendGuestCall|]. intros r. by apply within_seq; [exact IH|].
Qed.
End guest_thread.

Section host_thread.
Context (A : Allocator) (g : DirectGuest) (fuel : nat) (Hl : Serve.linked A g).

Lemma spans_ProcessGuestCalls limit : within (spans g) (ProcessGuestCalls A limit) (λ _, True).
Proof using Hl.
  unfold ProcessGuestCalls, is_running.
  apply within_seq; [within_walk ltac:(reflexivity)|]. intros run. destruct (negb run); [done|].
  apply within_seq; [within_walk ltac:(reflexivity)|]. intros reclaim. cbv zeta.
  apply within_seq; [|done]. apply (within_for _ _ _ _ _ (λ _, True)); [done| |done].
  intros j n Hj _. destruct (_ && _); [done|].
  destruct (Serve.visited A g Hl j Hj) as (Hr&s&_&->&_). fold (guest_ranged g (Z.to_nat j)) in Hr.
  unfold serve_claimed, LockForPublish, PublishResponse, SignalEvent, stamp_lease,
    MonotonicNanos, load_i32, load, store, cas.
  within_walk ltac:(first [reflexivity|exact Hr]).
Qed.

Lemma spans_host_worker h spin_ batch :
  within (spans g) (host_worker A h fuel spin_ batch) (λ _, True).
Proof using Hl.
  unfold host_worker. apply within_instantiate.
  { unfold spans. simpl. auto. }
  unfold GuestWorkerLoop. apply within_seq; [|done].
  apply (within_loop _ _ _ _ (λ _, True)); [done|]. intros _ _.
  apply within_seq; [within_walk ltac:(reflexivity)|]. intros run. destruct (_ =? _); [done|].
  apply within_seq; [|intros _; apply within_seq; [apply spans_ProcessGuestCalls|done]].
  eapply within_weaken, (Serve.calm_WaitForRequest A g Hl). intros Y o. unfold Serve.calm, spans.
  destruct (touched o); [by intros [? _]%andb_true_iff|done].
Qed.
End host_thread.

(** ** Deployment *)

Section deployment.
Context (os : OsAnswers) (gos : GuestOs) (cfg : HostConfig) (h : Host) (w : World) (d : DirectGuest).
Context (Hc : config_range cfg) (Hd : deployed os gos cfg h w d).

Lemma deployed_linked : Serve.linked (allocator h) d.
Proof using Hc Hd.
  pose proof (deployed_guest _ _ _ _ _ _ Hc Hd) as Hg.
  destruct (deployed_host _ _ _ _ _ _ Hc Hd) as (HA&_&Hn&Hn'&_).
  pose proof (deployed_counts _ _ _ _ _ _ Hc Hd) as Hcnt. destruct HA as [Hlen _ _ Htot _].
  constructor; [done|split; [lia|done]|lia|done|]. intros j s Hs.
  pose proof (lookup_lt_Some _ _ _ Hs).
  destruct (deployed_areas _ _ _ _ _ _ Hc Hd j) as (s'&c&Hs'&Hci&_&E1&E2&_); [lia|].
  simplify_eq. unfold Calls.caps_of. by rewrite Hci, E1, E2.
Qed.

(** The areas of a guest slot. *)
Lemma deployed_guest_slot j :
  guest_ranged d j = true →
  (Calls.caps_of d j).2 = resp_area cfg ∧ mem w (LSlot j F_state) = SLOT_FREE ∧
  Z.of_nat (length (bytes w (BReq j))) = (Calls.caps_of d j).1 ∧
  Z.of_nat (length (bytes w (BResp j))) = (Calls.caps_of d j).2.
Proof using Hc Hd.
  unfold guest_ranged, Slots.ranged. rewrite andb_true_iff, Nat.leb_le, Nat.ltb_lt. intros Hj.
  destruct (go_num _ (deployed_guest _ _ _ _ _ _ Hc Hd)).
  destruct (deployed_areas _ _ _ _ _ _ Hc Hd j) as (s&c&_&Hci&[H1 H2 H3]&E1&E2&_&E3&_); [lia|].
  unfold Calls.caps_of. rewrite Hci. cbn [fst snd]. by rewrite E1, E2.
Qed.

Lemma deployed_prepared : mem w L_guestReclaim = 0 → prepared d w.
Proof using Hc Hd. split; [done|]. intros j Hj. by apply deployed_guest_slot. Qed.
End deployment.

(** ** All threads of both directions *)

Abbreviation thread_result := (list response + list (GuestError + list byte))%type.

Definition duplex_threads (A : Allocator) (d : DirectGuest) (handler : Handler) (h : HostHandler)
    (fuel : nat) (spin_ : bool) (batch : Z) (calls : list (list rpc_call)) (cs : list guest_call)
    : list (prog thread_result) :=
  (prog_map inl <$> system_threads A d handler fuel calls) ++
  (prog_map inr <$> [goroutine d fuel cs; host_worker A h fuel spin_ batch]).

(** Whatever else runs in the two processes leaves the transactions on all slots
    alone, and the reclaim timeout of the guest. *)
Definition outside (n : nat) (d : DirectGuest) (w w' : World) : Prop :=
  bystanders n w w' ∧ elsewhere d w w'.

Lemma within_map {X Y} (f : X → Y) P (p : prog X) :
  within P p (λ _, True) → within P (prog_map f p) (λ _, True).
Proof. intros Hp. by apply within_seq. Qed.

Section duplex.
Context (A : Allocator) (d : DirectGuest) (handler : Handler) (h : HostHandler) (fuel : nat).
Context (spin_ : bool) (batch : Z) (calls : list (list rpc_call)) (cs : list guest_call).
Context (HA : alloc_ok A) (Hl : Serve.linked A d) (Hok : Forall (Forall call_ok) calls).
Context (Hlen : Z.of_nat (length calls) = numSlots A).

Local Abbreviation threads := (duplex_threads A d handler h fuel spin_ batch calls cs).
Local Abbreviation n := (length calls).

Lemma system_threads_length : length (system_threads A d handler fuel calls) = (n + n)%nat.
Proof. unfold system_threads. by rewrite length_app, !length_imap. Qed.

(** A thread is one of the host calls, or one of the two of the guest calls. *)
Lemma duplex_lookup j p :
  threads !! j = Some p →
  (∃ q, system_threads A d handler fuel calls !! j = Some q ∧ p = prog_map inl q) ∨
  (j = (n + n)%nat ∧ p = prog_map inr (goroutine d fuel cs)) ∨
  (j = S (n + n) ∧ p = prog_map inr (host_worker A h fuel spin_ batch)).
Proof.
  unfold duplex_threads. rewrite lookup_app_Some, length_fmap, system_threads_length.
  rewrite !list_lookup_fmap. intros [H|[Hj H]].
  - left. destruct (system_threads _ _ _ _ _ !! j); simplify_eq/=. eauto.
  - right. destruct (j - (n + n))%nat as [|[|]] eqn:E; simplify_eq/=.
    + left. split; [lia|done].
    + right. split; [lia|done].
Qed.

Lemma host_slot_apart i : (i < n)%nat → guest_ranged d i = false.
Proof using Hl Hlen.
  clear Hok HA. intros Hi. destruct Hl as [_ [E1 _] _ _ _]. unfold guest_ranged, Slots.ranged.
  apply andb_false_iff. left. apply Nat.leb_gt. lia.
Qed.

Lemma duplex_others i : (i < n)%nat → others_within (avoids i) i (n + i) threads.
Proof using All.
  intros Hi j p Hj1 Hj2. pose proof (Serve.lk_guest _ _ Hl) as Hg.
  destruct (Serve.lk_num _ _ Hl) as [E1 _].
  intros [(q&Hq&->)|[[_ ->]|[_ ->]]]%duplex_lookup; apply within_map.
  - by eapply (system_others A d handler fuel HA Hg calls i).
  - eapply within_weaken, spans_goroutine, Hg. intros Y o. by apply spans_avoids, host_slot_apart.
  - eapply within_weaken, spans_host_worker, Hl. intros Y o. by apply spans_avoids, host_slot_apart.
Qed.

(** The threads of the host calls leave the guest slots alone. *)
Lemma duplex_spares : others_within (spares d) (n + n) (S (n + n)) threads.
Proof using All.
  intros j p Hj1 Hj2 [(q&Hq&->)|[[-> _]|[-> _]]]%duplex_lookup; try done. apply within_map.
  pose proof (Serve.lk_guest _ _ Hl) as Hg. destruct (Serve.lk_num _ _ Hl) as [E1 _].
  apply system_lookup in Hq as [(cs'&Hcs&->)|(i&->&Hi&->)].
  - pose proof (lookup_lt_Some _ _ _ Hcs). eapply within_weaken, within_host_calls.
    + intros Y o. by apply keeps_to_spares, host_slot_apart.
    + done.
    + lia.
    + exact (Forall_lookup_1 _ _ _ _ Hok Hcs).
  - eapply within_weaken, within_worker_thread; [|done|lia]. intros Y o.
    by apply keeps_to_spares, host_slot_apart.
Qed.
End duplex.

(** Two threads of a pool, with results of their own type. *)
Lemma pool_project_map {X Y} (f : X → Y) (R R' : World → World → Prop) P a b w ps w' ps' pa pb :
  (∀ w w', R w w' → R' w w') →
  (∀ X (o : op X) x w r w', P X o = true → exec x o w = Done r w' → R' w w') →
  a ≠ b → rtc (pool_step R) (w, ps) (w', ps') →
  ps !! a = Some (prog_map f pa) → ps !! b = Some (prog_map f pb) → others_within P a b ps →
  ∃ qa qb, ps' !! a = Some (prog_map f qa) ∧ ps' !! b = Some (prog_map f qb) ∧
    rtc (pool_step R') (w, [pa; pb]) (w', [qa; qb]).
Proof.
  intros HR HP Hab Hr Ha Hb Ho.
  destruct (pool_project R R' P HR HP a b _ _ _ _ _ _ Hab Hr Ha Hb Ho) as (qa&qb&Ha'&Hb'&Hr').
  destruct (pool_map f R' w [pa; pb] w' [qa; qb] Hr') as (l&El&Hl).
  destruct l as [|ra [|rb [|]]]; simplify_eq/=. eauto.
Qed.

Lemma prog_map_Ret {X Y} (f : X → Y) (p : prog X) y :
  prog_map f p = Ret y → ∃ x, p = Ret x ∧ y = f x.
Proof.
  unfold prog_map. destruct p; cbn [bind]; intros E; [injection E as <-; eauto|discriminate E..].
Qed.

Section run.
Context (os : OsAnswers) (gos : GuestOs) (cfg : HostConfig) (host : Host) (w : World) (d : DirectGuest).
Context (handler : Handler) (h : HostHandler) (fuel : nat) (spin_ : bool) (batch : Z).
Context (calls : list (list rpc_call)) (cs : list guest_call).
Context (Hc : config_range cfg) (Hd : deployed os gos cfg host w d).
Context (Hlen : Z.of_nat (length calls) = numHostSlots cfg) (Hok : Forall (Forall call_ok) calls).

Local Abbreviation A := (allocator host).
Local Abbreviation n := (length calls).

Let HA : alloc_ok A := proj1 (deployed_host _ _ _ _ _ _ Hc Hd).
Let Hl : Serve.linked A d := deployed_linked _ _ _ _ _ _ Hc Hd.

Lemma calls_numSlots : Z.of_nat n = numSlots A.
Proof using Hc Hd Hlen. clear HA. by destruct (deployed_host _ _ _ _ _ _ Hc Hd) as (?&?&->&?). Qed.

Context (w' : World) (ps : list (prog thread_result)).
Context (Hrun : rtc (pool_step (outside n d))
  (w, duplex_threads A d handler h fuel spin_ batch calls cs) (w', ps)).

(** The two threads of a host slot. *)
Lemma host_side i host_cs :
  handler_ok (resp_area cfg) handler → calls !! i = Some host_cs →
  ∃ pa pb, ps !! i = Some (prog_map inl pa) ∧ ps !! (n + i)%nat = Some (prog_map inl pb) ∧
    ¬ faulty w' pa ∧ ¬ faulty w' pb ∧ ∀ rs, pa = Ret rs → answered_all handler host_cs rs.
Proof using Hc Hd Hlen Hok Hrun.
  intros Hh Hi. destruct (system_slot A d handler fuel _ _ _ Hi) as [Ha Hb].
  pose proof (lookup_lt_Some _ _ _ Hi).
  assert (∃ pa pb, ps !! i = Some (prog_map inl pa) ∧ ps !! (n + i)%nat = Some (prog_map inl pb) ∧
    rtc (pool_step (Exchange.frame i)) (w, [host_calls A fuel i host_cs;
      worker_thread d handler fuel i]) (w', [pa; pb])) as (pa&pb&?&?&Hr).
  { eapply (pool_project_map inl (outside n d) _ (avoids i)); [| |lia|exact Hrun|..].
    - intros w1 w2 [Hw _]. by apply Hw.
    - apply avoids_frame.
    - unfold duplex_threads. apply lookup_app_l_Some. by rewrite list_lookup_fmap, Ha.
    - unfold duplex_threads. apply lookup_app_l_Some. by rewrite list_lookup_fmap, Hb.
    - apply duplex_others; [exact HA|exact Hl|done|apply calls_numSlots|done]. }
  exists pa, pb. split; [done|]. split; [done|].
  eapply deployed_calls, Hr; [done..|lia|exact (Forall_lookup_1 _ _ _ _ Hok Hi)].
Qed.

(** The goroutine and the worker of the host. *)
Lemma guest_side :
  mem w L_guestReclaim = 0 → handler_ok (resp_area cfg) (Serve.total h) →
  ∃ pa pb, ps !! (n + n)%nat = Some (prog_map inr pa) ∧
    ps !! S (n + n) = Some (prog_map inr pb) ∧ ¬ faulty w' pa ∧ ¬ faulty w' pb ∧
    ∀ rs, pa = Ret rs → Forall2 (λ c r, ∀ data, r = inr data →
      data = hr_bytes (h (gc_type c) (gc_data c))) cs rs.
Proof using Hc Hd Hlen Hok Hrun.
  intros Hrec Hh.
  assert (∃ pa pb, ps !! (n + n)%nat = Some (prog_map inr pa) ∧
    ps !! S (n + n) = Some (prog_map inr pb) ∧
    rtc (pool_step (elsewhere d)) (w, [goroutine d fuel cs; host_worker A h fuel spin_ batch])
      (w', [pa; pb])) as (pa&pb&?&?&Hr).
  { assert (∀ k p, (prog_map inr <$> [goroutine d fuel cs; host_worker A h fuel spin_ batch])
        !! k = Some p →
      duplex_threads A d handler h fuel spin_ batch calls cs !! (n + n + k)%nat = Some p) as Hlook.
    { intros k p Hk. unfold duplex_threads. rewrite lookup_app_r; rewrite length_fmap,
        system_threads_length; [|lia]. by replace (n + n + k - (n + n))%nat with k by lia. }
    eapply (pool_project_map inr (outside n d) _ (spares d)); [| |lia|exact Hrun|..].
    - by intros w1 w2 [_ Hw].
    - apply spares_elsewhere.
    - rewrite <-(Nat.add_0_r (n + n)). by apply Hlook.
    - replace (S (n + n)) with (n + n + 1)%nat by lia. by apply Hlook.
    - apply duplex_spares; [exact HA|exact Hl|done|apply calls_numSlots]. }
  assert (∀ j, guest_ranged d j = true → handler_ok (Calls.caps_of d j).2 (Serve.total h)) as Hh'.
  { intros j Hj. by rewrite (proj1 (deployed_guest_slot _ _ _ _ _ _ Hc Hd j Hj)). }
  destruct (guest_call_integrity _ _ _ _ _ _ _ _ _ _ _ Hl Hh'
    (deployed_prepared _ _ _ _ _ _ Hc Hd Hrec) Hr) as [Hf Hans].
  exists pa, pb. split_and!; [done|done|apply Hf; left|apply Hf; right; left|].
  intros rs ->. by apply Hans.
Qed.
End run.

(** C1: every call of either direction returns its own answer.  The host initialises
    a segment and the guest attaches to it.  For every host slot a host thread makes
    any calls of [SendToSlot] and a worker of the guest serves them; a goroutine
    makes any guest calls and the worker thread of the host serves them, with
    reclaiming off; both handlers keep their contract.  All these threads interleave
    in any way, calls time out at any point, slots are stolen back or recycled
    while the other side still works on the abandoned request, handlers of the
    guest panic, and whatever else runs in the two processes leaves the
    transactions on the slots alone.  Then no thread reaches undefined behaviour,
    every host call that succeeds returns exactly the answer of the guest's
    handler to its own request, and every guest call that succeeds returns exactly
    the answer of the host's handler to its own request. *)
Theorem duplex_integrity os gos cfg host w d handler h fuel spin_ batch calls cs w' ps :
  config_range cfg → deployed os gos cfg host w d → mem w L_guestReclaim = 0 →
  handler_ok (resp_area cfg) handler → handler_ok (resp_area cfg) (Serve.total h) →
  Z.of_nat (length calls) = numHostSlots cfg → Forall (Forall call_ok) calls →
  rtc (pool_step (outside (length calls) d))
    (w, duplex_threads (allocator host) d handler h fuel spin_ batch calls cs) (w', ps) →
  (∀ p, p ∈ ps → ¬ faulty w' p) ∧
  (∀ i host_cs rs, calls !! i = Some host_cs → ps !! i = Some (Ret (inl rs)) →
     answered_all handler host_cs rs) ∧
  (∀ rs, ps !! (length calls + length calls)%nat = Some (Ret (inr rs)) →
     Forall2 (λ c r, ∀ data, r = inr data → data = hr_bytes (h (gc_type c) (gc_data c))) cs rs).
Proof.
  intros Hc Hd Hrec Hh Hh' Hlen Hok Hrun.
  pose proof (host_side _ _ _ _ _ _ _ _ _ _ _ _ _ Hc Hd Hlen Hok _ _ Hrun) as Hhost.
  destruct (guest_side _ _ _ _ _ _ _ _ _ _ _ _ _ Hc Hd Hlen Hok _ _ Hrun Hrec Hh')
    as (ga&gb&Ga&Gb&Fa&Fb&Hguest).
  split_and!.
  - intros p [j Hj]%list_elem_of_lookup.
    assert (is_Some (duplex_threads (allocator host) d handler h fuel spin_ batch calls cs !! j))
      as [q Hq].
    { apply lookup_lt_is_Some. apply lookup_lt_Some in Hj.
      by rewrite (pool_length _ _ _ Hrun : length ps = _) in Hj. }
    apply duplex_lookup in Hq as [(q'&Hq&_)|[[-> _]|[-> _]]];
      [|simplify_eq; by intros ?%faulty_map..].
    destruct (system_thread _ _ _ Hq) as (i&host_cs&Hi&Hji).
    destruct (Hhost i host_cs Hh Hi) as (pa&pb&?&?&?&?&_).
    destruct Hji as [-> | ->]; simplify_eq; by intros ?%faulty_map.
  - intros i host_cs rs Hi Hrs. destruct (Hhost i host_cs Hh Hi) as (pa&pb&?&?&_&_&Ha).
    simplify_eq. match goal with E : prog_map _ pa = _ |- _ =>
      apply prog_map_Ret in E as (?&->&[= ->]) end. by apply Ha.
  - intros rs Hrs. rewrite Ga in Hrs. injection Hrs as E.
    apply prog_map_Ret in E as (?&->&[= ->]). by apply Hguest.
Qed.

(** Two host calls and a guest call; the environment is the start of the host's
    worker. *)
Definition ex_host_handler : HostHandler := λ ty req,
  mkHandlerResult 0 (take 64 (rev req)) (Z.of_nat (length (take 64 (rev req)))) ty.

Definition ex_guest_calls : list guest_call := [mkGuestCall [Byte.x05; Byte.x06] 0 1000].

Definition ex_duplex : World * list (prog thread_result) :=
  run (turns 0 18 ++ [Env L_workerRunning 1] ++ turns 4 20 ++ turns 1 18 ++ turns 2 30 ++
       turns 5 40 ++ turns 3 30 ++ turns 4 30 ++ turns 0 30 ++ turns 1 30)
    (ex_host_world, duplex_threads (allocator ex_host) ex_attached ex_handler ex_host_handler 5
                      false 0 ex_system_calls ex_guest_calls).

Lemma duplex_integrity_witness :
  ex_duplex.2 !! 1%nat = Some (Ret (inl [(Ok 2, [Byte.x04; Byte.x03])])) ∧
  ex_duplex.2 !! 4%nat = Some (Ret (inr [inr [Byte.x06; Byte.x05]])) ∧
  reply ex_handler (0, [Byte.x03; Byte.x04]) = Some [Byte.x04; Byte.x03] ∧
  [Byte.x06; Byte.x05] = hr_bytes (ex_host_handler 0 [Byte.x05; Byte.x06]).
Proof.
  destruct (duplex_integrity ex_os ex_gos ex_config ex_host ex_host_world ex_attached ex_handler
    ex_host_handler 5 false 0 ex_system_calls ex_guest_calls ex_duplex.1 ex_duplex.2)
    as (_&Hhost&Hguest).
  - by unfold config_range.
  - split; [by exists new_host, blank_world|reflexivity].
  - reflexivity.
  - by apply ex_handler_ok.
  - exact (ex_handler_ok (resp_area ex_config) ltac:(by vm_compute)).
  - reflexivity.
  - repeat constructor; simpl; try lia; intros ? [= <-]; by vm_compute.
  - apply (run_pool (outside 2 ex_attached)). repeat constructor.
  - assert (ex_duplex.2 !! 1%nat = Some (Ret (inl [(Ok 2, [Byte.x04; Byte.x03])]))) as E1
      by (vm_compute; reflexivity).
    assert (ex_duplex.2 !! 4%nat = Some (Ret (inr [inr [Byte.x06; Byte.x05]]))) as E2
      by (vm_compute; reflexivity).
    split; [exact E1|]. split; [exact E2|]. split.
    + specialize (Hhost 1%nat _ _ eq_refl E1). inversion_clear Hhost as [|???? H _].
      by apply (H 2 _).
    + specialize (Hguest _ E2). inversion_clear Hguest as [|???? H _]. by apply H.
Defined.
