(* ===== verification/RingStream.v ===== *)
(** * RingStream: the ring of a deployed system

    The sender of [RingBuffer] and the receiver of [RingReceiver] on a slot of a
    segment that [Init] made and a guest attached to: what the host writes is what
    the guest reads. *)

From S2P Require Export RingReceiver System.

Local Open Scope Z_scope.

(** The host writes buffers one after the other; it has nothing to return. *)
Fixpoint ring_writes (A : Allocator) (fuel : nat) (s : RingBufferSender) (ds : list (list byte))
    : prog (list (list byte)) :=
  match ds with
  | [] => Ret []
  | d :: ds => rb_Write A fuel s d ;;; ring_writes A fuel s ds
  end.

Lemma ring_reads_follow i cap goal ns : ∀ s,
  0 < cap < 2 ^ 32 → Z.of_nat (length goal) < 2 ^ 64 → Forall (Z.le 0) ns → Receiver.idle s →
  obeys false (Receiver.mon i cap goal) (ring_reads (mkReceiver i cap) ns) s
    (λ rs s', Receiver.idle s' ∧ Receiver.r_got s' = Receiver.r_got s ++ concat rs).
Proof.
  induction ns as [|n ns IH]; intros s Hc Hg Hns Hs; cbn [ring_reads].
  { cbn. by rewrite app_nil_r. }
  apply Forall_cons in Hns as [Hn Hns]. apply obeys_bind.
  eapply obeys_mono, Receiver.rb_Read_follows; [|done..].
  intros bs s1 [Hs1 E]. apply obeys_bind. eapply obeys_mono, IH; [|done..].
  intros rs s2 [Hs2 E2]. cbn. split; [done|]. by rewrite E2, E, <- app_assoc.
Qed.

Lemma ring_writes_follow A fuel idx si cap goal ds : ∀ s,
  bad_index A idx = false → slots A !! Z.to_nat idx = Some si → 0 < cap < 2 ^ 32 →
  Z.of_nat (length goal) < 2 ^ 64 → Ring.between goal (concat ds) [] s →
  obeys false (Ring.mon (Z.to_nat idx) cap goal) (ring_writes A fuel (mkRing idx cap true) ds) s
    (λ rs s', rs = [] ∧ Ring.s_hist s' = goal).
Proof.
  induction ds as [|d ds IH]; intros s Hb Hs Hc Hg (Hp&Hh&H0); cbn [ring_writes].
  { cbn in *. by rewrite app_nil_r in Hh. }
  apply obeys_bind. eapply obeys_mono; cycle 1.
  { eapply Ring.rb_Write_follows with (later := concat ds); [lia|by split_and!|lia|done|done|].
    by split_and!. }
  intros r s1 [-> (?&?&?)]. apply IH; try done.
Qed.

(** A [Read] that is not disturbed returns the oldest unread bytes, as many as there
    are and fit. *)
Lemma rb_Read_alone w i cap h n x :
  ring_holds w i cap h → 0 < cap < 2 ^ 32 → Z.of_nat (length h) < 2 ^ 64 → 0 <= n →
  ∃ w', run_alone 5 x (rb_Read (mkReceiver i cap) n) w =
    Some (take (Z.to_nat n) (drop (Z.to_nat (mem w L_readOffset)) h), w').
Proof.
  intros [Hw Hr Hc Hrm Hd] Hcap Hh Hn. set (r := mem w L_readOffset) in *.
  set (s := Ring.mkSt h [] r).
  assert (Hi : Ring.inv i cap 0 h w [s]).
  { exists s. unfold Ring.pos. cbn. fold r. rewrite app_nil_r. split_and!; try done; lia. }
  assert (Hsl : ∀ y p m, r <= p → 0 <= m → p mod cap + m <= cap → p + m <= Z.of_nat (length h) →
    exec y (CopyOut (BReq i) (256 + p mod cap) m) w =
      Done (slice (Z.to_nat p) (Z.to_nat m) h) w).
  { intros y p m H1 H2 H3 H4. pose proof (Z.mod_pos_bound p cap ltac:(lia)). cbn [exec].
    unfold in_range, sizeof_RingBufferHeader in *. rewrite !(proj2 (Z.leb_le _ _)) by lia.
    cbn [andb]. by rewrite (ring_slice i cap h Hcap w s p m Hi). }
  unfold rb_Read. cbn [rr_capacity rr_slot call bind run_alone exec]. rewrite Hw. fold r.
  rewrite (u64_id (Z.of_nat (length h) - r)) by lia.
  destruct (Z.eqb_spec (Z.of_nat (length h) - r) 0).
  { exists w. cbn. rewrite drop_ge by lia. by rewrite take_nil. }
  rewrite (proj2 (Z.ltb_ge _ _)) by lia.
  set (m := if Z.of_nat (length h) - r <? n then Z.of_nat (length h) - r else n).
  assert (take (Z.to_nat n) (drop (Z.to_nat r) h) = slice (Z.to_nat r) (Z.to_nat m) h) as ->.
  { unfold slice, m. destruct (Z.ltb_spec (Z.of_nat (length h) - r) n); [|done].
    rewrite !take_ge; rewrite ?length_drop; try done; lia. }
  assert (0 <= m <= Z.of_nat (length h) - r) by (unfold m; destruct (Z.ltb_spec (Z.of_nat (length h) - r) n); lia).
  clearbody m. pose proof (Z.mod_pos_bound r cap ltac:(lia)).
  rewrite (u32_id m), (u32_id (r mod cap)), (u32_id (cap - r mod cap)) by lia.
  destruct (Z.ltb_spec (cap - r mod cap) m) as [Hlt|Hge].
  - set (c := cap - r mod cap) in *. cbn [bind run_alone]. rewrite Hsl by lia.
    rewrite (proj2 (Z.ltb_lt _ _)), (u32_id (m - c)) by lia. cbn [call bind run_alone].
    assert (Hz : (r + c) mod cap = 0) by (apply Ring.mod_wrap; lia).
    rewrite <- Hz, Hsl by lia. eexists. cbn [bind run_alone exec]. repeat f_equal.
    replace (Z.to_nat m) with (Z.to_nat c + Z.to_nat (m - c))%nat by lia.
    rewrite slice_app. repeat f_equal. lia.
  - cbn [bind run_alone]. rewrite Hsl by lia. rewrite Z.ltb_irrefl. eexists. cbn [call bind run_alone exec].
    by rewrite app_nil_r.
Qed.

Lemma rb_Init_ready A s i w x :
  bad_index A (Z.of_nat i) = false → slots A !! i = Some s → 1280 <= maxReqSize s < 2 ^ 31 →
  Z.of_nat (length (bytes w (BReq i))) = maxReqSize s →
  ∃ w1, run_alone 2 x (rb_Init A true (mkRing (Z.of_nat i) 0 false)) w =
      Some ((ResultVoid.Success, mkRing (Z.of_nat i) (maxReqSize s - 256) true), w1) ∧
    ring_holds w1 i (maxReqSize s - 256) [] ∧ mem w1 L_readOffset = 0.
Proof.
  intros Hb Hs Hm Hl. unfold rb_Init, GetMaxReqSize, GetReqBuffer, with_slot.
  cbn [negb rb_slotIdx]. rewrite Hb, Nat2Z.id, Hs. cbn [bind].
  rewrite i32_id, u64_id by lia. unfold sizeof_RingBufferHeader at 1 2.
  rewrite (proj2 (Z.ltb_ge _ _)), (u32_id (maxReqSize s - 256)) by lia.
  cbn [call bind run_alone exec]. eexists. split; [done|]. split; [|done].
  constructor; cbn [set_mem mem bytes length]; rewrite ?upd_eq;
    unfold sizeof_RingBufferHeader; try done; try lia.
  intros k Hk. cbn in Hk. lia.
Qed.

(** What the two threads return. *)
Definition ring_done (goal : list byte) (r : list (list byte)) (m : Ring.st + Receiver.st) : Prop :=
  match m with
  | inl s => Ring.s_hist s = goal
  | inr c => Receiver.idle c ∧ Receiver.r_got c = concat r
  end.

Lemma ring_monitored A fuel i s cap ds ns w :
  bad_index A (Z.of_nat i) = false → slots A !! i = Some s → 0 < cap < 2 ^ 32 →
  Z.of_nat (length (concat ds)) < 2 ^ 64 → Forall (Z.le 0) ns →
  ring_holds w i cap [] → mem w L_readOffset = 0 →
  monitored (ring_mon i cap (concat ds)) (ring_inv i cap (concat ds)) (ring_done (concat ds)) w
    [ring_writes A fuel (mkRing (Z.of_nat i) cap true) ds; ring_reads (mkReceiver i cap) ns]
    [inl (Ring.mkSt [] [] 0); inr (Receiver.mkSt [] [] 0)].
Proof.
  intros Hb Hs Hc Hlen Hns [Hw _ Hcp Hrm Hd] Hr0. cbn in Hw. split; [|repeat constructor].
  - eexists _, _. split; [done|]. cbn. rewrite Hr0. split_and!; try done; try apply prefix_nil.
    eexists. split; [done|]. unfold Ring.pos. cbn. rewrite Hr0. split_and!; try done; try lia.
    + intros k Hk. lia.
    + apply prefix_nil.
  - pose proof (ring_writes_follow A fuel (Z.of_nat i) s cap (concat ds) ds (Ring.mkSt [] [] 0)) as Hf.
    rewrite Nat2Z.id in Hf. eapply obeys_either_l; [|by apply Hf]. by intros ?? [_ ?].
  - eapply obeys_either_r, ring_reads_follow; [|done..]. by intros ?? [? ?].
Qed.

Lemma ring_run A fuel i s cap ds ns w w' ps :
  bad_index A (Z.of_nat i) = false → slots A !! i = Some s → 0 < cap < 2 ^ 32 →
  Z.of_nat (length (concat ds)) < 2 ^ 64 → Forall (Z.le 0) ns →
  ring_holds w i cap [] → mem w L_readOffset = 0 →
  rtc (pool_step (ring_untouched i))
    (w, [ring_writes A fuel (mkRing (Z.of_nat i) cap true) ds; ring_reads (mkReceiver i cap) ns]) (w', ps) →
  ∃ p q sent, ps = [p; q] ∧ ¬ faulty w' p ∧ ¬ faulty w' q ∧
    sent `prefix_of` concat ds ∧ ring_holds w' i cap sent ∧
    (∀ rs, p = Ret rs → sent = concat ds) ∧
    (∀ rs, q = Ret rs → concat rs = take (Z.to_nat (mem w' L_readOffset)) sent).
Proof.
  intros Hb Hs Hc Hlen Hns Hw Hr0 Hrt.
  edestruct (monitor_sound (ring_mon i cap (concat ds)) (ring_untouched i)
      (ring_inv i cap (concat ds)) (ring_done (concat ds))) as (ss&Hm);
    [by apply ring_pair_env|by apply ring_pair_step|by apply (ring_monitored A fuel i s)|exact Hrt|].
  set (goal := concat ds) in *.
  destruct (Hm) as [(s'&c&->&Hi&Hr&Hse&Hg) Hps].
  apply Forall2_cons_inv_r in Hps as (p&ps1&Hp&Hps&->).
  apply Forall2_cons_inv_r in Hps as (q&ps2&Hq&->%Forall2_nil_inv_r&->).
  assert (Hnf : ∀ j p', [p; q] !! j = Some p' → ¬ faulty w' p').
  { intros j p' Hj. eapply (monitored_not_faulty (ring_mon i cap goal)); [|exact Hm|exact Hj].
    intros m X o x Hm' Hi' Hx. by eapply ring_pair_defined. }
  exists p, q, (Ring.s_hist s'). split; [done|].
  destruct (Hi) as (?&[= <-]&Hw'&H0&Hrw&Hp'&Hl'&Hd'&Hg'&_). unfold Ring.pos in *. rewrite length_app in *.
  assert (Ring.s_hist s' `prefix_of` goal) as Hpre by (etrans; [|exact Hg']; by apply prefix_app_r).
  split_and!; [by apply (Hnf 0%nat)|by apply (Hnf 1%nat)|done| |by intros rs ->|].
  - split; try done; try lia. intros k Hk. rewrite Hd' by (rewrite ?length_app; lia).
    rewrite lookup_app_l; [done|lia].
  - intros rs ->. cbn in Hq. destruct Hq as [[Hacc Hlen'] Hgot]. rewrite Hr, Nat2Z.id, <- Hgot.
    rewrite Hacc, app_nil_r in Hg. unfold Receiver.at_ in Hse. rewrite Hacc, app_nil_r in Hse.
    destruct Hpre as [rest1 E1], Hg as [rest2 E2]. rewrite E1 in E2.
    apply (f_equal (take (length (Receiver.r_got c)))) in E2.
    rewrite take_app_le, take_app_length in E2 by lia. done.
Qed.

(** C14: the ring carries a stream from the host to the guest.  The host initialised
    a segment and a guest attached; the request area of a host slot has at least
    1280 bytes.  Then [RingBufferSender::Init] succeeds on that slot, and
    [BootstrapRingBuffer] accepts the guest's view of it with the same capacity.  The
    host writes buffers [ds] and the guest reads into buffers of lengths [ns],
    concurrently, while nobody else touches the ring.  In every interleaving and
    at every moment nobody faults; what is committed is a prefix of the
    concatenated buffers, and all of them when the writes have returned; what
    the reads have returned is exactly the committed bytes up to the read
    offset, in order; and an undisturbed [Read] would return the oldest unread
    bytes, as many as there are and fit. *)
Theorem ring_delivers os gos cfg h w d i base fuel x :
  config_range cfg → deployed os gos cfg h w d → Z.of_nat i < numHostSlots cfg →
  1280 <= g_halfSize (geometry cfg) → base mod 8 = 0 →
  ∃ c s rb w1, dg_slots d !! i = Some c ∧
    run_alone 2 x (rb_Init (allocator h) true (mkRing (Z.of_nat i) 0 false)) w =
      Some ((ResultVoid.Success, s), w1) ∧
    BootstrapRingBuffer i (base + (gs_reqBuffer c).1) (gs_reqBuffer c).2 = Some rb ∧
    rr_capacity rb = rb_capacity s ∧
    ∀ ds ns w' ps, Z.of_nat (length (concat ds)) < 2 ^ 64 → Forall (Z.le 0) ns →
      rtc (pool_step (ring_untouched i))
        (w1, [ring_writes (allocator h) fuel s ds; ring_reads rb ns]) (w', ps) →
      ∃ p q sent, ps = [p; q] ∧ ¬ faulty w' p ∧ ¬ faulty w' q ∧
        sent `prefix_of` concat ds ∧ ring_holds w' i (rb_capacity s) sent ∧
        (∀ rs, p = Ret rs → sent = concat ds) ∧
        (∀ rs, q = Ret rs → concat rs = take (Z.to_nat (mem w' L_readOffset)) sent) ∧
        (∀ n, 0 <= n → ∃ w2, run_alone 5 x (rb_Read rb n) w' =
           Some (take (Z.to_nat n) (drop (Z.to_nat (mem w' L_readOffset)) sent), w2)).
Proof.
  intros Hc Hd Hi Hsz Hbase.
  destruct (deployed_slot _ _ _ _ _ _ Hc Hd i Hi) as (s&c&[Hs Hb Hci [Hreq Hm] _]&[Hl _ _]&_&Hhalf).
  destruct (rb_Init_ready (allocator h) s i w x Hb Hs) as (w1&HI&Hw1&Hr1); [lia|lia|].
  destruct (deployed_exchange _ _ _ _ _ _ Hc Hd) as [_ Hu].
  pose proof (attach_aligned _ _ _ _ Hu (dp_attach _ _ _ _ _ _ Hd)) as Hal.
  destruct (Forall_lookup_1 _ _ _ _ Hal Hci) as [_ Ha].
  exists c, (mkRing (Z.of_nat i) (maxReqSize s - 256) true), (mkReceiver i (maxReqSize s - 256)), w1.
  split_and!; [done|done| |done|].
  { unfold BootstrapRingBuffer. rewrite (proj2 (Z.leb_gt _ _)) by lia.
    rewrite Z.add_mod, Hbase, Ha by done. cbn [Z.add negb]. rewrite Zmod_0_l, Hreq, u32_id by lia. done. }
  intros ds ns w' ps Hlen Hns Hrt.
  destruct (ring_run (allocator h) fuel i s (maxReqSize s - 256) ds ns w1 w' ps)
    as (p&q&sent&->&Hp&Hq&Hpre&Hh&Hdone&Hread); [done|done|lia|done|done|done|done|done|].
  exists p, q, sent. split_and!; try done.
  intros n Hn. eapply rb_Read_alone; [done|lia| |done].
  apply prefix_length in Hpre. lia.
Qed.

(** A segment with one slot of 1280 bytes each way; two writes of three bytes
    interleaved with two reads. *)
Definition ring_cfg : HostConfig := mkHostConfig 1 2560 0.
Definition ring_host : Host := (Init ex_os ring_cfg new_host blank_world).1.2.
Definition ring_host_world : World := (Init ex_os ring_cfg new_host blank_world).2.
Definition ring_guest : DirectGuest :=
  match NewDirectGuest ex_gos (published ring_host_world) (mem ring_host_world L_fastPathAllowed) with
  | inr d => d
  | inl _ => ex_rpc_guest
  end.
Definition ring_setup :=
  run_alone 2 no_choice (rb_Init (allocator ring_host) true (mkRing 0 0 false)) ring_host_world.

Definition ring_writes_ex : list (list byte) := [[Byte.x01; Byte.x02; Byte.x03]; [Byte.x04]].

Definition ring_ex : World * list (prog (list (list byte))) :=
  run (turns 0 5 ++ turns 1 4 ++ turns 0 10 ++ turns 1 4)
    (default ring_host_world (snd <$> ring_setup),
     [ring_writes (allocator ring_host) 5 (mkRing 0 1024 true) ring_writes_ex;
      ring_reads (mkReceiver 0 1024) [2; 8]]).

Lemma ring_delivers_witness :
  ring_ex.2 !! 1%nat = Some (Ret [[Byte.x01; Byte.x02]; [Byte.x03; Byte.x04]]) ∧
  take (Z.to_nat (mem ring_ex.1 L_readOffset)) (concat ring_writes_ex) = concat ring_writes_ex.
Proof.
  destruct (ring_delivers ex_os ex_gos ring_cfg ring_host ring_host_world ring_guest 0 0 5 no_choice)
    as (c&s&rb&w1&Hc&HI&HB&_&Hrun).
  - by unfold config_range.
  - split; [by exists new_host, blank_world|reflexivity].
  - done.
  - by vm_compute.
  - done.
  - change (Z.of_nat 0) with 0 in HI. fold ring_setup in HI.
    assert (fst <$> ring_setup = Some (ResultVoid.Success, mkRing 0 1024 true)) as Es by (vm_compute; reflexivity).
    assert (w1 = default ring_host_world (snd <$> ring_setup)) as Ew by (by rewrite HI).
    rewrite HI in Es.
    injection Es as ->. vm_compute in Hc. injection Hc as <-. vm_compute in HB. injection HB as <-.
    rewrite Ew in Hrun.
    destruct (Hrun ring_writes_ex [2; 8] ring_ex.1 ring_ex.2) as (p&q&sent&Eps&_&_&_&_&Hp&Hq&_).
    + by vm_compute.
    + by repeat constructor.
    + apply (run_pool (ring_untouched 0)). repeat constructor.
    + assert (ring_ex.2 = [Ret []; Ret [[Byte.x01; Byte.x02]; [Byte.x03; Byte.x04]]]) as E
        by (vm_compute; reflexivity).
      rewrite E in Eps. injection Eps as <- <-. rewrite E. split; [done|].
      rewrite <- (Hp _ eq_refl), <- (Hq _ eq_refl), (Hp _ eq_refl). reflexivity.
Defined.
